(* ===== verification/_CoqProject ===== *)
-Q . S2P
Prelude.v
ForwardList.v
Conc.v
WorkStealingQueue.v
StampedPtr.v
Result.v
Future.v
FutureCorrect.v
SpinLock.v
GlobalQueue.v
ThreadSync.v
BlockingQueue.v
ComputePool.v
Task.v
FastPool.v
Fiber.v
FiberSync.v
Channel.v
Strand.v
Coro.v
HazardStack.v
SharedPtr.v
LockFreeQueue.v
IntrusiveList.v
SimSched.v
DfsSched.v
CoopSched.v
RandSched.v
PctSched.v
SimMemory.v
TimerHeap.v
Simulator.v
SimulatorCorrect.v
SimulatorRuns.v
UserLib.v
UserRuns.v
