(* ===== verification/Prelude.v ===== *)
(** * Verification of a C++23 concurrency library (src/src/exe)

    The library has schedulers (a run loop and two thread pools), stackful
    fibers and stackless coroutines with their synchronization primitives, lazy
    futures, and lock-free data structures with their memory management.  It is
    written against twist's atomics, mutexes, condition variables, futexes and
    threads (src/deps/twist) and the intrusive list of src/deps/wheels.  This
    development models the parts below as executable Rocq definitions and proves
    what makes them correct, for every interleaving and any number of threads
    unless a bound is named.

    ** How programs are modelled

    - Operating-system threads share memory through sequentially consistent
      atomics ([Conc]): a component is a step function from a thread's local
      state (program point and live C++ locals), the shared state and a choice of
      the environment (which call, a spurious failure, a fresh address) to the
      next local and shared state and the events shown.  One step is one atomic
      access; regions under a lock are one step where the lock is proved or
      documented to exclude others.  [steps] and [gsteps] interleave all threads.
    - [Conc] states linearizability and proves the linearization-point method
      sound once ([LinPoints], [lin_points_sound]), and once more for read-only
      operations that take effect at a moment in the past ([LinPointsRO],
      [lin_past_sound]); the lock-free components are instances of these classes.
    - Fibers and coroutines are programs (a free monad with loops, suspension and
      spawning) on a machine of worker threads ([Fiber]).  A program logic
      ([Discipline], [wp], [wp_sound]) with permissions and handles of suspended
      fibers is proved sound once; each synchronization object instantiates it
      with its permissions and an invariant over the trace, and gets safety
      (the trace invariant) and liveness at quiescence (when nothing runs and
      nothing is scheduled, exactly the fibers waiting in the object have not
      completed).
    - Machine words are [Z] with the wrap-around written out ([u64], [s32],
      masks and shifts); pointers are words; heaps are finite maps, and a
      dereference or deletion of an address that is not allocated is a crash.

    - The simulator that runs the library's tests is a program of calls to a scheduler,
      whose answers are arbitrary up to what the class [Lawful] promises; schedulers answer
      with trees of choices, so that a run is a path in a tree and the model checker a
      traversal of it.

    ** Files

    - [Prelude] words, list access at [Z] indices, tactics, hint databases.
    - [ForwardList] src/deps/wheels/wheels/intrusive/forward_list.hpp: the
      pointer operations refine those of a sequence.
    - [Conc] the interleaving machine, linearizability, refinement of specs.
    - [WorkStealingQueue] sched/tp/fast/queues/work_stealing_queue.hpp at its
      atomic accesses: linearizable to a bounded FIFO queue; never over capacity.
    - [StampedPtr] util/stamped_ptr.hpp: packing and unpacking bit by bit,
      [AtomicStampedPtr] linearizable to a register of pointer and 16-bit stamp.
    - [Result] result/: [Ok], [Err] and the combinators.
    - [Future], [FutureCorrect] future/: all thunks, continuations, computations
      and demands, defunctionalised, on a machine with a heap of objects;
      [Get] and [Detach] compute the denoted value on every schedule, each
      schedule ends, no deleted object is used; scheduler affinity; contracts;
      runs that exhibit use after free in [First] and in [Start] with [Detach].
    - [SpinLock] thread/spinlock.hpp: mutual exclusion, linearizability of any
      guarded object.  [GlobalQueue] sched/tp/fast/queues/global_queue.hpp on top
      of [SpinLock] and [ForwardList].
    - [ThreadSync] thread/event.hpp and thread/wait_group.hpp; [BlockingQueue]
      thread/queue.hpp: no lost wake-ups, linearizability.
    - [ComputePool] sched/tp/compute: accepted tasks run exactly once, [Stop]
      drains.
    - [Task] sched/task and sched/run_loop: FIFO order, termination of [Run].
    - [FastPool] sched/tp/fast (worker.cpp, thread_pool.cpp), over the queues'
      specifications: no task lost or run twice, stealing never aborts, and a run
      in which [Stop] strands a task.
    - [Fiber] fiber/core, fiber/sched, coro/sched: the machine and the logic.
    - [FiberSync] fiber/sync/mutex.hpp, event.hpp, wait_group.hpp; [Channel]
      fiber/sync/channel/buffered.hpp (bounded FIFO, no lost wake-up); [Strand]
      fiber/sync/strand.hpp (the lock-free combiner with its tagged head word).
    - [Coro] coro/sync, for coroutines with a scheduler: the scoped lock, the mutex that
      runs critical sections of one callable type, the event, the wait group in one phase;
      runs that go wrong outside of that: a deadlock without a scheduler, a cast of a waiter
      to another callable type, a wait group that is used again too early.
    - [HazardStack] lf/lock_free_stack.hpp with lf/memory/hazard: linearizable,
      memory safe, bounded garbage; a use after free through [CleanUp].
    - [SharedPtr] lf/memory/atomic_shared_ptr.hpp: split reference counts; memory
      safe, exact at rest, [AtomicSharedPtr] linearizable to a register; assumes that
      no stamp of an [AtomicSharedPtr] with a block reaches 65535, and few enough
      threads and pointers for 32-bit counters.
    - [LockFreeQueue] lf/lock_free_queue.hpp: the Michael-Scott queue with its pool
      of recycled nodes; linearizable, memory safe, the destructors free every node
      once; assumes that no 16-bit stamp runs out.
    - [IntrusiveList] src/deps/wheels/wheels/intrusive/list.hpp: programs over any
      number of doubly linked lists refine programs over sequences; [Sort] is a
      stable insertion sort.
    - [SimSched] the interface of the schedulers of twist's simulator
      (src/deps/twist/source/twist/rt/sim): calls as trees of choices, the abstract
      scheduler [abs_step], the class [Lawful] of schedulers that keep to it, and the
      recorder and the replay scheduler against this class.
    - [DfsSched] the DFS scheduler behind the model checker that tests this library:
      it is [Lawful], its arrays stay sorted and in bounds, the loop of [Explore] visits every
      run exactly once, and without limits the runs are all interleavings; replaying the
      record of a run reproduces it.
    - [CoopSched], [RandSched], [PctSched] the other schedulers of the simulator, each
      [Lawful] for the calls it supports: the cooperative one (with the generator and the
      futex queues that others share), the random one with its sets of threads and its
      suspension of lock-free threads, and PCT with its priorities and change points.
    - [SimMemory] system/sync of the simulator: vector clocks, atomics, fences and plain
      accesses; the race detector is exact for a happens-before relation that is defined
      on the operations alone.
    - [TimerHeap] system/timer of the simulator: a heap of timers that know their places,
      and the queue on top; a removal that breaks the order.
    - [Simulator] system/simulator.cpp and system/futex: the system calls of threads, the
      futexes, sleeping, the loop with its deadlock check, isolation, over [SimMemory] and
      [TimerHeap].  A program under test is any state machine of system calls; the
      simulator is a program of calls to a scheduler in a state monad with [SysAbortEx],
      and the program composed with it is a client in the sense of [SimSched].
    - [SimulatorCorrect] weakest preconditions over every answer of a lawful scheduler; the
      place of every thread (run queue, futex queue, pending timer) against its fields, kept
      by every system call, by waking, burning and the loop.
    - [SimulatorRuns] the simulator over the schedulers: it stops for the right reason, is a
      legal client, is reproduced by a replay, and the model checker over it is exact, with the
      schedule that [Record] makes of a failure.
    - [UserLib] user/library and user/test of the simulator: atomics, the three mutexes,
      [unique_lock], the condition variable, threads, futexes, shared variables and the
      test helpers, as programs of system calls and plain memory ([U]) that become state
      machines for [Simulator] ([user_program]).
    - [UserRuns] every such program keeps to what all schedulers support; [check_ends] runs
      the model checker inside of a proof and decides, for all interleavings of a program,
      how it ends: clients of the library that end well, clients that are caught, and two
      mutexes that fail.

    ** Groups of theorems

    Refinement: [*_linearizable], [forward_list_refines_sequence],
    [intrusive_list_refines_sequences],
    [channel_fifo].  Safety and invariants: [*_exactly_once], [*_correct],
    [*_memory_safe], [shared_ptr_counts_exact], [spinlock_mutual_exclusion].  Liveness:
    [*_no_lost_wakeup], [compute_pool_stop_drains], the quiescence parts of the
    fiber and coroutine theorems.  Functional: [future_get_correct],
    [future_detach_correct], [contract_rendezvous], [run_loop_fifo].  Equivalence
    with a reference: [intrusive_list_sort_stable].  Model checking:
    [dfs_well_formed], [dfs_explores_every_run], [dfs_all_interleavings],
    [record_replay_roundtrip], [pct_highest_runs].  The simulator's own state:
    [data_races_detected], [timer_queue_correct], [simulation_stops_right],
    [simulator_is_client].  The simulator, a program and a scheduler composed:
    [simulation_replays], [model_checking_exact].  Bounds and round trips:
    [wsq_bounded], [hazard_garbage_bounded],
    [stamped_ptr_roundtrip].  Programs checked by evaluation, one by one:
    [library_clients_ok].  Errors: runs of the models that reach a crash, a deadlock, a bad
    cast or a lost task, each a defect of the code.

    Conditions.  A theorem names what it needs in its comment; those that recur: no stack is
    destroyed ([lock_free_stack_memory_safe]), no 16-bit stamp runs out ([LockFreeQueue],
    [SharedPtr]), coroutines have a scheduler ([Coro]), a scheduler supports the calls that are
    made of it ([client_ok]), a program under the simulator is [modest] and its scheduler
    [suits] the simulator: the DFS and the random one always, the cooperative one and PCT
    without isolation.

    ** Bounds and fuel

    No theorem is bounded in the number of steps.  The functions with fuel are
    [run], [drive] and [explore], which evaluate concrete schedules for witnesses;
    [RunLoop_Run] takes fuel and is proved to end with enough of it.  The loops of
    [IntrusiveList] get the size of the heap, which bounds every list in it, as their
    fuel, and [queue_Destroy] the number of its nodes; both are proved to be enough.  A
    simulation takes a budget of scheduler calls, and a run over it ends in [Timeout];
    [Explore] needs as much fuel as there are runs.  [SiftUp] and [SiftDown] get the size
    of the heap, which is proved to be enough; the loop that draws the change points of PCT
    gets any fuel, and [pct_never_starts] shows parameters for which none is enough.  The
    memory model assumes fewer than 2^32 operations, the width of an epoch.  The loops of
    [Simulator] that take out timers and waiters get as much fuel as there are timers or
    threads, [run_loop] twice its budget of iterations; all three are proved to be enough.
    A thread that makes system calls for ever without a context switch, more iterations than
    the budget, a clock beyond 64 bits and more than [kMaxThreads] threads end in [SLimit].  [UserRuns] explores with a budget of 300 calls and fuel 100, and
    a run that exceeds either would not end with the status that the theorems state.  Capacities
    ([Capacity], channel sizes) are parameters; 64-bit counters are assumed not to
    wrap where a theorem says so (fewer than 2^64 jobs).  [kMaxThreads] is the
    code's own limit.

    ** Not modelled

    - weak memory: the relaxed and acquire/release orders are treated as
      sequentially consistent;
    - twist, sure, the testing framework, and wheels other than the intrusive lists:
      third-party code the library calls; the context switch of sure is the
      machine's suspension.  Of twist, the simulator is modelled (its schedulers, its
      memory model, timers, futexes, system calls and loop, and the user library on top); its output, logging, stepping
      debugger (so also [DetCheck] of twist/mod/sim/sim.cpp, which steps three simulations
      before [Explore] starts its loop), memory allocator, static and thread-local variables and user-space fibers
      are not.  Programs in [SimulatorCorrect] use neither [SwitchTo] nor lock-free sections
      nor [RandomNumber], which not every scheduler has;
    - Coordinator and Metrics of the fast pool and the rendezvous channel, whose
      bodies are empty or abort; thread-local accessors ([Current], [Self]);
    - the promise type of [coro::Go] and [util/defer], [util/manual_lifetime]:
      language plumbing.

    ** Plan

    What could come next: specifications of the user library for arbitrary clients, in the
    logic of [SimulatorCorrect], in place of the clients of [UserRuns]; lock-free sections in
    [SimulatorCorrect]. *)

From stdpp Require Export base functions list gmap fin_maps numbers.
From Stdlib Require Export ZArith Lia.

#[global] Set Default Goal Selector "!".

(** ** Machine words

    C++ unsigned integers are integers modulo a power of two; every arithmetic
    operation of the models writes its wrap-around out with these functions. *)

Declare Scope exe_scope.
Delimit Scope exe_scope with exe.
Open Scope exe_scope.

Definition wbits (w : Z) : Z := (2 ^ w)%Z.
Definition wrap (w z : Z) : Z := (z mod wbits w)%Z.

Abbreviation u64 := (wrap 64).
Abbreviation u32 := (wrap 32).

Notation "2^64" := 18446744073709551616%Z (at level 0) : exe_scope.
Notation "2^32" := 4294967296%Z (at level 0) : exe_scope.

(** A 32-bit two's complement integer. *)
Definition s32 (z : Z) : Z := ((z + 2147483648) mod 2^32 - 2147483648)%Z.

Lemma u64_unfold z : u64 z = (z mod 2^64)%Z.
Proof. reflexivity. Qed.

Lemma u64_id z : (0 <= z < 2^64)%Z -> u64 z = z.
Proof. intros H. rewrite u64_unfold. by apply Z.mod_small. Qed.

Lemma u64_range z : (0 <= u64 z < 2^64)%Z.
Proof. rewrite u64_unfold. apply Z.mod_pos_bound. lia. Qed.

Lemma u64_neg z : (- 2^64 <= z < 0)%Z -> u64 z = (z + 2^64)%Z.
Proof.
  intros H. rewrite u64_unfold.
  rewrite <- (Z_mod_plus_full z 1), Z.mul_1_l. apply Z.mod_small. lia.
Qed.

Lemma s32_id z : (-2147483648 <= z < 2147483648)%Z -> s32 z = z.
Proof. intros H. unfold s32. rewrite Z.mod_small; lia. Qed.

(** ** Arrays indexed by machine words

    [zget] reads a C array at a word; reads out of range give [0], writes out
    of range leave the array as it is (the models never do either: the
    invariants below carry the bounds). *)

Definition zlen {A} (l : list A) : Z := Z.of_nat (length l).
Definition zget (l : list Z) (z : Z) : Z := nth (Z.to_nat z) l 0%Z.
Definition zset (l : list Z) (z v : Z) : list Z := <[Z.to_nat z := v]> l.

Lemma zlen_nonneg {A} (l : list A) : (0 <= zlen l)%Z.
Proof. unfold zlen. lia. Qed.

Lemma zlen_app {A} (l l' : list A) : zlen (l ++ l') = (zlen l + zlen l')%Z.
Proof. unfold zlen. rewrite length_app. lia. Qed.

Lemma zlen_nil {A} : zlen (@nil A) = 0%Z.
Proof. reflexivity. Qed.

Lemma zlen_cons {A} (x : A) l : zlen (x :: l) = (1 + zlen l)%Z.
Proof. unfold zlen. simpl. lia. Qed.

Lemma zlen_zset l z v : zlen (zset l z v) = zlen l.
Proof. unfold zlen, zset. by rewrite length_insert. Qed.

Lemma zlen_drop {A} n (l : list A) :
  (0 <= n <= zlen l)%Z -> zlen (drop (Z.to_nat n) l) = (zlen l - n)%Z.
Proof. unfold zlen. rewrite length_drop. lia. Qed.

Lemma zget_app_l l l' z : (0 <= z < zlen l)%Z -> zget (l ++ l') z = zget l z.
Proof. unfold zget, zlen. intros H. rewrite app_nth1; [done|lia]. Qed.

Lemma zget_app_r l x : zget (l ++ [x]) (zlen l) = x.
Proof.
  unfold zget, zlen. rewrite Nat2Z.id, app_nth2 by lia.
  by rewrite Nat.sub_diag.
Qed.

Lemma zget_nth l i : zget l (Z.of_nat i) = nth i l 0%Z.
Proof. unfold zget. by rewrite Nat2Z.id. Qed.

Lemma nth_insert_eq (l : list Z) i v : i < length l -> nth i (<[i := v]> l) 0%Z = v.
Proof. intros H. apply nth_lookup_Some. by apply list_lookup_insert_eq. Qed.

Lemma nth_insert_ne (l : list Z) i j v : i <> j -> nth j (<[i := v]> l) 0%Z = nth j l 0%Z.
Proof. intros H. rewrite !nth_lookup. by rewrite list_lookup_insert_ne. Qed.

Lemma zget_zset_eq l z v : (0 <= z < zlen l)%Z -> zget (zset l z v) z = v.
Proof. unfold zlen. intros H. unfold zget, zset. apply nth_insert_eq. lia. Qed.

Lemma zget_zset_ne l z z' v :
  (0 <= z)%Z -> (0 <= z')%Z -> z <> z' -> zget (zset l z v) z' = zget l z'.
Proof. intros ???. unfold zget, zset. apply nth_insert_ne. lia. Qed.

Lemma zlist_ext (l l' : list Z) :
  zlen l = zlen l' -> (forall z, (0 <= z < zlen l)%Z -> zget l z = zget l' z) -> l = l'.
Proof.
  unfold zlen. intros Hl H. apply (nth_ext _ _ 0%Z 0%Z); [lia|].
  intros n Hn. specialize (H (Z.of_nat n)). rewrite !zget_nth in H. apply H. lia.
Qed.

Lemma zget_drop l n z : (0 <= n)%Z -> (0 <= z)%Z ->
  zget (drop (Z.to_nat n) l) z = zget l (n + z).
Proof.
  intros Hn Hz. unfold zget. rewrite nth_lookup, lookup_drop, nth_lookup.
  by rewrite Z2Nat.inj_add.
Qed.

Lemma zget_take l n z : (0 <= z < n)%Z -> zget (take (Z.to_nat n) l) z = zget l z.
Proof.
  intros Hz. unfold zget. rewrite !nth_lookup.
  destruct (decide (Z.to_nat z < length l)) as [Hl|Hl].
  - rewrite lookup_take_lt; [done|lia].
  - rewrite !lookup_ge_None_2; [done|lia|rewrite length_take; lia].
Qed.

Lemma zlen_take {A} n (l : list A) :
  (0 <= n <= zlen l)%Z -> zlen (take (Z.to_nat n) l) = n.
Proof. unfold zlen. rewrite length_take. lia. Qed.

Create Rewrite HintDb zlist.
#[export] Hint Rewrite @zlen_app @zlen_nil @zlen_cons zlen_zset : zlist.

(** ** Tactics *)

(** Case analysis on every [match] and [if] of a hypothesis that an
    executable step produced a result. *)
Ltac inv_step H :=
  repeat match type of H with
  | context [match ?x with _ => _ end] =>
      let E := fresh "Heq" in destruct x eqn:E; try discriminate H
  end; try (simplify_eq H).

(** Turn boolean tests of the code into propositions. *)
Ltac bool_hyps :=
  repeat match goal with
  | H : (_ =? _)%Z = true |- _ => apply Z.eqb_eq in H
  | H : (_ =? _)%Z = false |- _ => apply Z.eqb_neq in H
  | H : (_ <? _)%Z = true |- _ => apply Z.ltb_lt in H
  | H : (_ <? _)%Z = false |- _ => apply Z.ltb_ge in H
  | H : (_ <=? _)%Z = true |- _ => apply Z.leb_le in H
  | H : (_ <=? _)%Z = false |- _ => apply Z.leb_gt in H
  | H : (_ =? _) = true |- _ => apply Nat.eqb_eq in H
  | H : (_ =? _) = false |- _ => apply Nat.eqb_neq in H
  | H : (_ <? _) = true |- _ => apply Nat.ltb_lt in H
  | H : (_ <? _) = false |- _ => apply Nat.ltb_ge in H
  | H : (_ && _)%bool = true |- _ => apply andb_true_iff in H as [? ?]
  | H : (_ || _)%bool = false |- _ => apply orb_false_iff in H as [? ?]
  | H : negb _ = true |- _ => apply negb_true_iff in H
  | H : negb _ = false |- _ => apply negb_false_iff in H
  end.
