(* ===== verification/ForwardList.v ===== *)
(** The intrusive singly linked list every queue and waiter list of the
    library is built from: src/deps/wheels/wheels/intrusive/forward_list.hpp.

    Nodes live in a heap that maps a node's address to its [next_] field; a
    list object holds [head_], [tail_] and [size_].  The theorems show that
    the pointer operations refine the operations of a sequence, which is what
    the models of the queues above this one use. *)

From S2P Require Import Prelude.
Local Open Scope Z_scope.

(** [next_] of every live node; [nullptr] is address [0].  Reading or writing
    through an address that is not a node is undefined behaviour: [None]. *)
Abbreviation node_heap := (gmap Z Z).

Record IntrusiveForwardList := mkList { fl_head : Z; fl_tail : Z; fl_size : Z }.

Definition fl_new : IntrusiveForwardList := mkList 0 0 0.

Definition fl_Next (h : node_heap) (node : Z) : option Z := h !! node.

Definition fl_SetNext (h : node_heap) (node next : Z) : option node_heap :=
  _ ← h !! node; Some (<[node := next]> h).

Definition fl_IsEmpty (l : IntrusiveForwardList) : bool := fl_head l =? 0.
Definition fl_NonEmpty (l : IntrusiveForwardList) : bool := negb (fl_IsEmpty l).
Definition fl_Size (l : IntrusiveForwardList) : Z := fl_size l.
Definition fl_Reset (l : IntrusiveForwardList) : IntrusiveForwardList := mkList 0 0 0.

Definition fl_PushBack (h : node_heap) (l : IntrusiveForwardList) (node : Z)
  : option (node_heap * IntrusiveForwardList) :=
  let size := u64 (fl_size l + 1) in
  h ← fl_SetNext h node 0;
  if fl_IsEmpty l then Some (h, mkList node node size)
  else h ← fl_SetNext h (fl_tail l) node; Some (h, mkList (fl_head l) node size).

(** [this->Append(that)]: the results are the heap, [*this] and [that]. *)
Definition fl_Append (h : node_heap) (l that : IntrusiveForwardList)
  : option (node_heap * IntrusiveForwardList * IntrusiveForwardList) :=
  if fl_IsEmpty that then Some (h, l, that)
  else if fl_IsEmpty l then
    Some (h, mkList (fl_head that) (fl_tail that) (fl_size that), fl_Reset that)
  else h ← fl_SetNext h (fl_tail l) (fl_head that);
    Some (h, mkList (fl_head l) (fl_tail that) (u64 (fl_size l + fl_size that)),
          fl_Reset that).

Definition fl_PushFront (h : node_heap) (l : IntrusiveForwardList) (node : Z)
  : option (node_heap * IntrusiveForwardList) :=
  let size := u64 (fl_size l + 1) in
  if fl_IsEmpty l then Some (h, mkList node node size)
  else h ← fl_SetNext h node (fl_head l); Some (h, mkList node (fl_tail l) size).

(** The returned address is [nullptr] for an empty list. *)
Definition fl_PopFront (h : node_heap) (l : IntrusiveForwardList)
  : option (node_heap * IntrusiveForwardList * Z) :=
  if fl_IsEmpty l then Some (h, l, 0)
  else
    let size := u64 (fl_size l - 1) in
    let front := fl_head l in
    '(hd, tl) ← (if fl_head l =? fl_tail l then Some (0, 0)
                 else n ← fl_Next h (fl_head l); Some (n, fl_tail l));
    h ← fl_SetNext h front 0;
    Some (h, mkList hd tl size, front).

(** [ForEach] as the sequence of items the handler is called on.  The loop
    follows [next_] until [nullptr]; [fuel] bounds the number of iterations
    ([None] when it runs out or a stray pointer is followed). *)
Fixpoint fl_iterate (fuel : nat) (h : node_heap) (iter : Z) : option (list Z) :=
  if iter =? 0 then Some []
  else match fuel with
       | O => None
       | S fuel' => n ← fl_Next h iter; rest ← fl_iterate fuel' h n; Some (iter :: rest)
       end.

Definition fl_ForEach (fuel : nat) (h : node_heap) (l : IntrusiveForwardList)
  : option (list Z) := fl_iterate fuel h (fl_head l).

(** ** Representation *)

(** [chain h x xs]: following [next_] from [x] visits [xs] and ends at the
    last of them. *)
Fixpoint chain (h : node_heap) (xs : list Z) : Prop :=
  match xs with
  | [] => True
  | x :: (y :: _) as rest => h !! x = Some y /\ chain h rest
  | [x] => is_Some (h !! x)
  end.

(** The list object [l] represents the sequence [xs]. *)
Record is_flist (h : node_heap) (l : IntrusiveForwardList) (xs : list Z) : Prop := {
  fl_rep_head : fl_head l = hd 0 xs;
  fl_rep_tail : fl_tail l = List.last xs 0;
  fl_rep_size : fl_size l = u64 (zlen xs);
  fl_rep_nodup : List.NoDup xs;
  fl_rep_nonnull : ~ In 0 xs;
  fl_rep_chain : chain h xs;
}.

(** The list is moreover terminated, which [ForEach] relies on. *)
Definition terminated (h : node_heap) (xs : list Z) : Prop :=
  xs <> [] -> h !! List.last xs 0 = Some 0.

(** ** Lemmas *)

Lemma u64_add_mod a b : u64 (u64 a + b) = u64 (a + b).
Proof. rewrite !u64_unfold. by rewrite Zplus_mod_idemp_l. Qed.

Lemma u64_add_mod_r a b : u64 (a + u64 b) = u64 (a + b).
Proof. rewrite !u64_unfold. by rewrite Zplus_mod_idemp_r. Qed.

Lemma chain_insert_notin h xs n v : ~ In n xs -> chain h xs -> chain (<[n := v]> h) xs.
Proof.
  induction xs as [|x [|y xs] IH]; simpl; intros Hn Hc; [done|..].
  - rewrite lookup_insert_ne; [done|naive_solver].
  - destruct Hc as [Hx Hc]. rewrite lookup_insert_ne by naive_solver.
    split; [done|]. apply IH; naive_solver.
Qed.

Lemma chain_frame h h' xs : (forall x, In x xs -> h' !! x = h !! x) -> chain h xs -> chain h' xs.
Proof.
  induction xs as [|x [|y xs] IH]; intros Hf Hc; [done|..].
  - simpl in *. rewrite Hf; [done|by left].
  - destruct Hc as [Hx Hc]. split; [rewrite Hf; [done|by left]|].
    apply IH; [|done]. intros z Hz. apply Hf. by right.
Qed.

Lemma chain_in h xs x : chain h xs -> In x xs -> is_Some (h !! x).
Proof.
  induction xs as [|y [|z xs] IH]; simpl; intros Hc Hi; [done|naive_solver|].
  destruct Hc as [Hy Hc]. destruct Hi as [->|Hi]; [eauto|]. by apply IH.
Qed.

Lemma last_in (xs : list Z) : xs <> [] -> In (List.last xs 0) xs.
Proof.
  intros H. destruct (exists_last H) as (l & a & ->). rewrite List.last_last.
  apply in_or_app. right. by left.
Qed.

Lemma chain_app h xs y ys :
  xs <> [] -> chain h xs -> chain h (y :: ys) ->
  List.NoDup (xs ++ y :: ys) ->
  chain (<[List.last xs 0 := y]> h) (xs ++ y :: ys).
Proof.
  induction xs as [|x xs IH]; [done|]. intros _ Hc Hcy Hnd.
  apply NoDup_cons_iff in Hnd as [Hx Hnd].
  destruct xs as [|x' xs].
  - simpl List.last. change ([x] ++ y :: ys) with (x :: y :: ys). split.
    + apply lookup_insert_eq.
    + apply chain_insert_notin; [|done]. by apply Hx.
  - destruct Hc as [Hxx Hc]. change (List.last (x :: x' :: xs) 0) with (List.last (x' :: xs) 0).
    split; [|by apply IH].
    rewrite lookup_insert_ne; [done|].
    intros Heq. apply Hx, (in_or_app (x' :: xs) (y :: ys) x). left.
    rewrite <- Heq. by apply last_in.
Qed.

Lemma is_flist_empty h l xs : is_flist h l xs -> fl_IsEmpty l = true <-> xs = [].
Proof.
  intros []. unfold fl_IsEmpty. rewrite fl_rep_head0. rewrite Z.eqb_eq.
  destruct xs; simpl; [done|]. split; [|done]. intros ->. destruct fl_rep_nonnull0. by left.
Qed.

Lemma flist_cases h l xs :
  is_flist h l xs -> fl_IsEmpty l = true /\ xs = [] \/ fl_IsEmpty l = false /\ xs <> [].
Proof.
  intros Hl%is_flist_empty. destruct (fl_IsEmpty l); [left|right]; intuition congruence.
Qed.

(** A list depends on its own nodes only. *)
Lemma is_flist_frame h h' l xs :
  (forall x, In x xs -> h' !! x = h !! x) -> is_flist h l xs -> is_flist h' l xs.
Proof. intros Hf []. constructor; try done. by eapply chain_frame. Qed.

(** ** Refinement of sequences

    Each operation, on lists that represent sequences, succeeds and yields
    lists that represent the result of the sequence operation. *)

Lemma chain_tail h x xs : chain h (x :: xs) -> chain h xs.
Proof. destruct xs; simpl; naive_solver. Qed.

Lemma flist_singleton h n : n <> 0 -> is_Some (h !! n) -> is_flist h (mkList n n (u64 1)) [n].
Proof.
  intros Hn Hs. constructor; simpl; try done.
  - repeat constructor. auto.
  - naive_solver.
Qed.

Lemma flist_nil h : is_flist h (mkList 0 0 0) [].
Proof. constructor; try done; simpl; [constructor|auto]. Qed.

Lemma flist_app h l xs l' y ys :
  is_flist h l xs -> xs <> [] -> is_flist h l' (y :: ys) -> List.NoDup (xs ++ y :: ys) ->
  is_flist (<[fl_tail l := y]> h)
    (mkList (fl_head l) (fl_tail l') (u64 (fl_size l + fl_size l'))) (xs ++ y :: ys).
Proof.
  intros [] Hne [] Hnd. constructor; cbn [fl_head fl_tail fl_size].
  - rewrite fl_rep_head0. by destruct xs.
  - rewrite fl_rep_tail1. destruct (@exists_last _ (y :: ys)) as (m & a & ->); [done|].
    by rewrite app_assoc, !List.last_last.
  - rewrite fl_rep_size0, fl_rep_size1, u64_add_mod, u64_add_mod_r. f_equal.
    by rewrite zlen_app.
  - done.
  - rewrite in_app_iff. naive_solver.
  - rewrite fl_rep_tail0. by apply chain_app.
Qed.

Lemma fl_PushBack_refines h l xs n :
  is_flist h l xs -> n <> 0 -> ~ In n xs -> is_Some (h !! n) ->
  exists h' l', fl_PushBack h l n = Some (h', l') /\
    is_flist h' l' (xs ++ [n]) /\ terminated h' (xs ++ [n]) /\
    forall m, m <> n -> ~ In m xs -> h' !! m = h !! m.
Proof.
  intros Hl Hn Hni [v Hv]. unfold fl_PushBack, fl_SetNext. rewrite Hv. cbn [mbind option_bind].
  assert (is_Some (<[n:=0]> h !! n)) as Hs by (rewrite lookup_insert_eq; eauto).
  destruct (flist_cases _ _ _ Hl) as [[-> ->]|[-> Hne]].
  - eexists _, _. split; [done|]. split; [|split].
    + rewrite (fl_rep_size _ _ _ Hl). by apply flist_singleton.
    + intros _. simpl. apply lookup_insert_eq.
    + intros m Hm _. by rewrite lookup_insert_ne.
  - pose proof (last_in xs Hne) as Hin. pose proof Hl as [].
    assert (n <> List.last xs 0) as Hnl by congruence.
    destruct (chain_in _ _ _ fl_rep_chain0 Hin) as [w Hw].
    rewrite fl_rep_tail0, lookup_insert_ne, Hw by done. cbn [mbind option_bind].
    assert (is_flist (<[n:=0]> h) l xs) as Hl' by (constructor; try done; by apply chain_insert_notin).
    assert (List.NoDup (xs ++ [n])) as Hnd.
    { apply NoDup_app; [done|repeat constructor; auto|]. intros x Hx [->|[]]. done. }
    eexists _, _. split; [done|]. split; [|split].
    + rewrite <- fl_rep_tail0. apply (flist_app _ _ _ (mkList n n (u64 1)) n []); try done.
      by apply flist_singleton.
    + intros _. rewrite List.last_last, lookup_insert_ne by done. apply lookup_insert_eq.
    + intros m Hm Hmx. rewrite !lookup_insert_ne; [done|done|]. intros <-. done.
Qed.

Lemma fl_PopFront_refines h l x xs :
  is_flist h l (x :: xs) ->
  exists h' l', fl_PopFront h l = Some (h', l', x) /\ is_flist h' l' xs /\
    h' = <[x := 0]> h.
Proof.
  intros Hl. pose proof Hl as []. simpl in *.
  assert (Hx : x <> 0) by naive_solver. apply NoDup_cons_iff in fl_rep_nodup0 as [Hxs Hnd].
  unfold fl_PopFront, fl_IsEmpty. rewrite fl_rep_head0, (proj2 (Z.eqb_neq x 0)) by done.
  rewrite fl_rep_tail0, fl_rep_size0.
  assert (Hsz : u64 (u64 (zlen (x :: xs)) - 1) = u64 (zlen xs)).
  { unfold Z.sub. rewrite u64_add_mod. f_equal. autorewrite with zlist. lia. }
  destruct xs as [|y xs].
  - rewrite Z.eqb_refl. destruct fl_rep_chain0 as [v Hv]. unfold fl_SetNext. rewrite Hv.
    eexists _, _. split; [done|]. split; [|done]. by constructor.
  - destruct fl_rep_chain0 as [Hxy Hc].
    assert (x <> List.last (y :: xs) 0) as Hl0.
    { intros Heq. apply Hxs. rewrite Heq. by apply last_in. }
    rewrite (proj2 (Z.eqb_neq _ _)) by done. unfold fl_SetNext, fl_Next. rewrite Hxy.
    eexists _, _. split; [done|]. split; [|done].
    constructor; simpl; try done; [naive_solver|]. by apply (chain_insert_notin h (y :: xs)).
Qed.

Lemma fl_Append_refines h l xs l' ys :
  is_flist h l xs -> is_flist h l' ys -> (forall x, In x xs -> ~ In x ys) ->
  exists h' l1 l2, fl_Append h l l' = Some (h', l1, l2) /\
    is_flist h' l1 (xs ++ ys) /\ is_flist h' l2 [] /\
    forall m, ~ In m xs -> h' !! m = h !! m.
Proof.
  intros Hl Hl' Hdis. unfold fl_Append.
  destruct (flist_cases _ _ _ Hl') as [[-> ->]|[-> Hne']].
  { eexists _, _, _. split; [done|]. by rewrite app_nil_r. }
  destruct (flist_cases _ _ _ Hl) as [[-> ->]|[-> Hne]].
  - eexists _, _, _. split; [done|]. split; [by destruct l'|]. split; [apply flist_nil|done].
  - pose proof Hl as []. destruct ys as [|y ys]; [done|]. unfold fl_SetNext.
    pose proof (last_in xs Hne) as Hin.
    destruct (chain_in _ _ _ fl_rep_chain0 Hin) as [w Hw].
    rewrite fl_rep_tail0, Hw. eexists _, _, _. split; [done|]. split; [|split; [apply flist_nil|]].
    + rewrite (fl_rep_head _ _ _ Hl'), <- fl_rep_tail0. apply flist_app; try done.
      apply NoDup_app; [done|apply Hl'|done].
    + intros m Hm. rewrite lookup_insert_ne; [done|]. intros <-. done.
Qed.

Lemma fl_PushFront_refines h l xs n :
  is_flist h l xs -> n <> 0 -> ~ In n xs -> is_Some (h !! n) ->
  exists h' l', fl_PushFront h l n = Some (h', l') /\ is_flist h' l' (n :: xs).
Proof.
  intros Hl Hn Hni [v Hv]. unfold fl_PushFront, fl_SetNext.
  destruct (flist_cases _ _ _ Hl) as [[-> ->]|[-> Hne]].
  - eexists _, _. split; [done|]. rewrite (fl_rep_size _ _ _ Hl).
    apply flist_singleton; eauto.
  - pose proof Hl as []. rewrite Hv. eexists _, _. split; [done|]. destruct xs as [|x xs]; [done|].
    constructor; simpl; try done.
    + rewrite fl_rep_size0, u64_add_mod. f_equal. autorewrite with zlist. lia.
    + by constructor.
    + naive_solver.
    + rewrite fl_rep_head0. split; [apply lookup_insert_eq|]. by apply (chain_insert_notin h (x :: xs)).
Qed.

(** [ForEach] visits exactly the represented sequence when the list is
    terminated; one iteration per element is enough fuel. *)
Lemma fl_iterate_chain h xs fuel :
  chain h xs -> ~ In 0 xs -> terminated h xs -> (length xs <= fuel)%nat ->
  fl_iterate fuel h (hd 0 xs) = Some xs.
Proof.
  revert fuel. induction xs as [|x xs IH]; intros fuel Hc Hn Ht Hf.
  - by destruct fuel.
  - destruct fuel as [|fuel]; simpl in Hf; [lia|]. simpl in Hn. simpl.
    rewrite (proj2 (Z.eqb_neq x 0)) by naive_solver.
    destruct xs as [|y xs].
    + unfold fl_Next. specialize (Ht ltac:(done)). simpl in Ht. rewrite Ht. simpl.
      by destruct fuel.
    + destruct Hc as [Hxy Hc]. unfold fl_Next. rewrite Hxy. cbn [mbind option_bind].
      change y with (hd 0 (y :: xs)) at 1. rewrite IH; try done; [naive_solver| |simpl in *; lia].
      intros _. by apply Ht.
Qed.

(** ** Sequences of operations *)

Inductive fl_op := OpPushBack (node : Z) | OpPopFront.

Fixpoint fl_run (h : node_heap) (l : IntrusiveForwardList) (ops : list fl_op)
  : option (node_heap * IntrusiveForwardList * list Z) :=
  match ops with
  | [] => Some (h, l, [])
  | OpPushBack n :: ops' => '(h, l) ← fl_PushBack h l n; fl_run h l ops'
  | OpPopFront :: ops' =>
      '(h, l, r) ← fl_PopFront h l;
      '(h, l, rs) ← fl_run h l ops'; Some (h, l, r :: rs)
  end.

(** The same operations on a sequence; [None] if a node is pushed that is
    already linked, is [nullptr] or is not a live node. *)
Fixpoint seq_run (live : Z -> bool) (xs : list Z) (ops : list fl_op) : option (list Z * list Z) :=
  match ops with
  | [] => Some (xs, [])
  | OpPushBack n :: ops' =>
      if decide (n <> 0 /\ n ∉ xs /\ live n = true) then seq_run live (xs ++ [n]) ops' else None
  | OpPopFront :: ops' =>
      '(ys, rs) ← seq_run live (tl xs) ops'; Some (ys, hd 0 xs :: rs)
  end.

Lemma fl_run_refines live ops h l xs ys rs :
  is_flist h l xs -> terminated h xs -> (forall n, live n = true -> is_Some (h !! n)) ->
  seq_run live xs ops = Some (ys, rs) ->
  exists h' l', fl_run h l ops = Some (h', l', rs) /\ is_flist h' l' ys /\ terminated h' ys.
Proof.
  revert h l xs rs. induction ops as [|[n|] ops IH]; simpl; intros h l xs rs Hl Ht Hlive Hr.
  - simplify_eq. eauto.
  - case_decide as Hd; [|done]. destruct Hd as (Hn & Hni & Hnl).
    destruct (fl_PushBack_refines h l xs n) as (h1 & l1 & -> & Hl1 & Ht1 & Hfr); try done.
    { by rewrite <- list_elem_of_In. } { by apply Hlive. }
    cbn. eapply IH; [done..| |done]. intros m Hm. destruct (decide (m ∈ xs ++ [n])) as [Hi|Hi].
    + eapply chain_in; [apply Hl1|]. by apply list_elem_of_In.
    + rewrite elem_of_app, list_elem_of_singleton in Hi. rewrite Hfr; [auto|naive_solver|].
      rewrite <- list_elem_of_In. naive_solver.
  - destruct (seq_run live (tl xs) ops) as [[ys' rs']|] eqn:Er; simpl in Hr; simplify_eq.
    destruct xs as [|x xs].
    + destruct (flist_cases _ _ _ Hl) as [[He _]|[_ ?]]; [|done].
      unfold fl_PopFront at 1. rewrite He. cbn.
      destruct (IH h l [] rs') as (h' & l' & -> & ?); try done. eauto.
    + destruct (fl_PopFront_refines _ _ _ _ Hl) as (h1 & l1 & -> & Hl1 & ->). cbn.
      destruct (IH (<[x:=0]> h) l1 xs rs') as (h' & l' & -> & ?); try done; [|..].
      * intros Hne. pose proof (fl_rep_nodup _ _ _ Hl) as [Hx _]%NoDup_cons_iff.
        rewrite lookup_insert_ne; [|intros ->; apply Hx; by apply last_in].
        specialize (Ht ltac:(done)). by destruct xs.
      * intros m Hm. destruct (decide (x = m)) as [->|]; [rewrite lookup_insert_eq; eauto|].
        rewrite lookup_insert_ne by done. auto.
      * eauto.
Qed.

(** ** Main results *)

(** The pointer manipulations of the intrusive list implement a FIFO
    sequence: from an empty list, any sequence of [PushBack]s of fresh live
    nodes and [PopFront]s runs without touching a stray pointer, every
    [PopFront] returns the node the sequence operation returns ([nullptr] on
    empty), and afterwards [Size] and [ForEach] report the sequence. *)
Theorem forward_list_refines_sequence live h ops ys rs :
  (forall n, live n = true -> is_Some (h !! n)) ->
  seq_run live [] ops = Some (ys, rs) ->
  exists h' l', fl_run h fl_new ops = Some (h', l', rs) /\
    fl_ForEach (length ys) h' l' = Some ys /\
    fl_Size l' = u64 (zlen ys) /\ (fl_NonEmpty l' = true <-> ys <> []).
Proof.
  intros Hlive Hr.
  destruct (fl_run_refines live ops h fl_new [] ys rs) as (h' & l' & Hrun & Hl & Ht);
    [apply flist_nil|by intros []|done|done|].
  exists h', l'. split; [done|]. pose proof Hl as []. repeat split.
  - unfold fl_ForEach. rewrite fl_rep_head0. by apply fl_iterate_chain.
  - done.
  - unfold fl_NonEmpty. rewrite negb_true_iff. intros He ->.
    apply is_flist_empty in Hl. by rewrite (proj2 Hl) in He.
  - intros Hne. unfold fl_NonEmpty. rewrite negb_true_iff.
    destruct (flist_cases _ _ _ Hl) as [[_ ?]|[? _]]; [done|done].
Qed.

Lemma forward_list_refines_sequence_witness :
  exists h' l', fl_run (list_to_map [(8, 0); (16, 8); (24, 0)]) fl_new
      [OpPushBack 16; OpPushBack 8; OpPopFront; OpPushBack 24; OpPushBack 16; OpPopFront]
    = Some (h', l', [16; 8]) /\
    fl_ForEach 2 h' l' = Some [24; 16] /\ fl_Size l' = u64 2 /\
    (fl_NonEmpty l' = true <-> [24; 16] <> []).
Proof.
  apply (forward_list_refines_sequence (fun n => (n =? 8) || (n =? 16) || (n =? 24))
    (list_to_map [(8, 0); (16, 8); (24, 0)])
    [OpPushBack 16; OpPushBack 8; OpPopFront; OpPushBack 24; OpPushBack 16; OpPopFront]
    [24; 16] [16; 8]).
  - intros n Hn. rewrite !orb_true_iff, !Z.eqb_eq in Hn.
    destruct Hn as [[->| ->]| ->]; vm_compute; eauto.
  - vm_compute. reflexivity.
Defined.

(** Appending a list moves all its elements, in order, behind the
    elements of the receiver in constant time and leaves the argument empty;
    only the receiver's last node is written. *)
Theorem forward_list_append h l xs that ys :
  is_flist h l xs -> is_flist h that ys -> (forall x, In x xs -> ~ In x ys) ->
  exists h' l1 l2, fl_Append h l that = Some (h', l1, l2) /\
    is_flist h' l1 (xs ++ ys) /\ is_flist h' l2 [] /\
    forall m, ~ In m xs -> h' !! m = h !! m.
Proof. apply fl_Append_refines. Qed.

Lemma forward_list_append_witness :
  exists h' l1 l2,
    fl_Append (list_to_map [(8, 0); (16, 24); (24, 0)]) (mkList 8 8 1) (mkList 16 24 2)
      = Some (h', l1, l2) /\
    is_flist h' l1 [8; 16; 24] /\ is_flist h' l2 [] /\
    forall m, ~ In m [8] -> h' !! m = (list_to_map [(8, 0); (16, 24); (24, 0)] : node_heap) !! m.
Proof.
  apply (forward_list_append _ (mkList 8 8 1) [8] (mkList 16 24 2) [16; 24]).
  - constructor; try (vm_compute; reflexivity); simpl; try (repeat constructor; simpl; lia); try lia.
    vm_compute. eauto.
  - constructor; try (vm_compute; reflexivity); simpl; try (repeat constructor; simpl; lia); try lia.
    split; vm_compute; eauto.
  - simpl. lia.
Defined.

(** [PushFront] on an empty list does not reset the node's [next_], so a
    node with a stale link makes [ForEach] walk past the end of the list: the
    list below has size one, but the iteration visits two nodes. *)
Theorem forward_list_push_front_stale :
  exists h l, fl_PushFront (list_to_map [(8, 16); (16, 0)]) fl_new 8 = Some (h, l) /\
    fl_Size l = 1 /\ fl_ForEach 5 h l = Some [8; 16].
Proof. eexists _, _. split; [reflexivity|]. split; vm_compute; reflexivity. Qed.
