(* ===== verification/Conc.v ===== *)
(** Concurrent objects as interleaving machines, and linearizability.

    The threads of the program share memory through sequentially consistent
    atomics.  A concurrent object is modelled by the executable function
    [tstep]: one atomic access of one thread, as a function of the thread's
    local state (program counter and C++ locals), the shared state, and an
    action that resolves what the code leaves open (which method is called
    with which argument, whether a weak compare-exchange fails spuriously).
    [steps] interleaves the steps of the threads in every order.

    The second half states linearizability against a sequential
    specification and proves the linearization-point method sound: an object
    whose steps can be labelled with linearization points that simulate the
    specification only has linearizable histories. *)

From S2P Require Import Prelude.

Abbreviation tid := nat (only parsing).

(** ** The interleaving machine *)

Record config (Sh Lo : Type) := Cfg { sh : Sh; lo : tid -> Lo }.
Arguments Cfg {Sh Lo} _ _.
Arguments sh {Sh Lo} _.
Arguments lo {Sh Lo} _ _.

Section machine.
Context {Sh Lo Act Ev : Type}.
Context (tstep : tid -> Act -> Lo -> Sh -> option (Lo * Sh * list Ev)).

Definition cstep (t : tid) (a : Act) (c : config Sh Lo)
  : option (config Sh Lo * list Ev) :=
  match tstep t a (lo c t) (sh c) with
  | Some (l', s', es) => Some (Cfg s' (<[t := l']> (lo c)), es)
  | None => None
  end.

Inductive steps (c0 : config Sh Lo) : list (tid * Ev) -> config Sh Lo -> Prop :=
| steps_nil : steps c0 [] c0
| steps_snoc tr c t a c' es :
    steps c0 tr c -> cstep t a c = Some (c', es) ->
    steps c0 (tr ++ map (pair t) es) c'.

Definition reachable (c0 c : config Sh Lo) : Prop := exists tr, steps c0 tr c.

(** A concrete schedule, run by evaluation. *)
Fixpoint run (sched : list (tid * Act)) (c : config Sh Lo)
  : option (config Sh Lo * list (tid * Ev)) :=
  match sched with
  | [] => Some (c, [])
  | (t, a) :: sched' =>
      match cstep t a c with
      | None => None
      | Some (c', es) =>
          match run sched' c' with
          | None => None
          | Some (c'', tr) => Some (c'', map (pair t) es ++ tr)
          end
      end
  end.

Lemma cstep_inv t a c c' es :
  cstep t a c = Some (c', es) ->
  exists l' s', tstep t a (lo c t) (sh c) = Some (l', s', es) /\
                c' = Cfg s' (<[t := l']> (lo c)).
Proof.
  unfold cstep. intros H.
  destruct (tstep t a (lo c t) (sh c)) as [[[l' s'] es']|] eqn:E; simplify_eq.
  eauto.
Qed.

Lemma run_steps sched c0 tr0 c c' tr :
  steps c0 tr0 c -> run sched c = Some (c', tr) -> steps c0 (tr0 ++ tr) c'.
Proof.
  revert tr0 c tr. induction sched as [|[t a] sched IH]; intros tr0 c tr Hs Hr; simpl in Hr.
  - simplify_eq. by rewrite app_nil_r.
  - destruct (cstep t a c) as [[c1 es]|] eqn:Ec; [|done].
    destruct (run sched c1) as [[c2 tr2]|] eqn:Er; simplify_eq.
    rewrite app_assoc. eapply IH; [|done]. by econstructor.
Qed.

Lemma run_steps0 sched c c' tr : run sched c = Some (c', tr) -> steps c tr c'.
Proof. intros H. change tr with ([] ++ tr). eapply run_steps; [constructor|done]. Qed.

(** Steps in which every thread keeps to its side of a contract [ok]. *)
Inductive gsteps (ok : tid -> Act -> config Sh Lo -> Prop) (c0 : config Sh Lo)
  : list (tid * Ev) -> config Sh Lo -> Prop :=
| gsteps_nil : gsteps ok c0 [] c0
| gsteps_snoc tr c t a c' es :
    gsteps ok c0 tr c -> ok t a c -> cstep t a c = Some (c', es) ->
    gsteps ok c0 (tr ++ map (pair t) es) c'.

Lemma gsteps_steps ok c0 tr c : gsteps ok c0 tr c -> steps c0 tr c.
Proof. induction 1; [constructor|by econstructor]. Qed.

Fixpoint run_ok (ok : tid -> Act -> config Sh Lo -> Prop) (sched : list (tid * Act))
    (c : config Sh Lo) : Prop :=
  match sched with
  | [] => True
  | (t, a) :: sched' =>
      ok t a c /\ match cstep t a c with Some (c', _) => run_ok ok sched' c' | None => True end
  end.

Lemma run_gsteps ok sched c0 tr0 c c' tr :
  gsteps ok c0 tr0 c -> run_ok ok sched c -> run sched c = Some (c', tr) ->
  gsteps ok c0 (tr0 ++ tr) c'.
Proof.
  revert tr0 c tr. induction sched as [|[t a] sched IH]; intros tr0 c tr Hs Hok Hr; simpl in Hr.
  - simplify_eq. by rewrite app_nil_r.
  - destruct Hok as [Ha Hok]. destruct (cstep t a c) as [[c1 es]|] eqn:Ec; [|done].
    destruct (run sched c1) as [[c2 tr2]|] eqn:Er; simplify_eq.
    rewrite app_assoc. eapply IH; [|done|done]. by econstructor.
Qed.

Lemma run_gsteps0 ok sched c c' tr :
  run_ok ok sched c -> run sched c = Some (c', tr) -> gsteps ok c tr c'.
Proof. intros Hok H. change tr with ([] ++ tr). eapply run_gsteps; [constructor|done|done]. Qed.

(** The contract checked by evaluation. *)
Fixpoint run_okb (okb : tid -> Act -> config Sh Lo -> bool) (sched : list (tid * Act))
    (c : config Sh Lo) : bool :=
  match sched with
  | [] => true
  | (t, a) :: sched' =>
      okb t a c && match cstep t a c with Some (c', _) => run_okb okb sched' c' | None => true end
  end.

Lemma run_okb_sound (ok : tid -> Act -> config Sh Lo -> Prop) okb sched c :
  (forall t a c, okb t a c = true -> ok t a c) -> run_okb okb sched c = true -> run_ok ok sched c.
Proof.
  intros Hok. revert c. induction sched as [|[t a] sched IH]; intros c; simpl; [done|].
  intros [? ?]%andb_true_iff. split; [auto|]. destruct (cstep t a c) as [[c' es]|]; auto.
Qed.

(** The invariant rule. *)
Lemma steps_invariant (P : config Sh Lo -> Prop) c0 :
  P c0 ->
  (forall c t a c' es, P c -> cstep t a c = Some (c', es) -> P c') ->
  forall tr c, steps c0 tr c -> P c.
Proof. intros H0 Hstep tr c Hs. induction Hs; eauto. Qed.

(** The thread-modular form of the invariant rule: a shared invariant [G]
    and a per-thread invariant [L] that the other threads do not disturb. *)
Lemma thread_modular (G : Sh -> Prop) (L : tid -> Lo -> Sh -> Prop) c0 :
  G (sh c0) -> (forall t, L t (lo c0 t) (sh c0)) ->
  (forall t a l s l' s' es,
     G s -> L t l s -> tstep t a l s = Some (l', s', es) -> G s' /\ L t l' s') ->
  (forall t a l s l' s' es u lu,
     G s -> L t l s -> tstep t a l s = Some (l', s', es) ->
     u <> t -> L u lu s -> L u lu s') ->
  forall tr c, steps c0 tr c -> G (sh c) /\ forall t, L t (lo c t) (sh c).
Proof.
  intros HG HL Hself Hothers.
  apply (steps_invariant (fun c => G (sh c) /\ forall t, L t (lo c t) (sh c))); [done|].
  intros c t a c' es [HGc HLc] (l' & s' & Ht & ->)%cstep_inv. simpl.
  destruct (Hself _ _ _ _ _ _ _ HGc (HLc t) Ht) as [HG' HL'].
  split; [done|]. intros u. destruct (decide (u = t)) as [->|Hne].
  - by rewrite fn_lookup_insert.
  - rewrite fn_lookup_insert_ne by done. eauto.
Qed.
End machine.

(** ** Counting threads *)

Definition count_lo {Lo} (f : Lo -> bool) (N : nat) (l : tid -> Lo) : nat :=
  length (filter (fun t => f (l t) = true) (seq 0 N)).

Lemma count_lo_S {Lo} (f : Lo -> bool) N (l : tid -> Lo) :
  count_lo f (S N) l = count_lo f N l + Nat.b2n (f (l N)).
Proof.
  unfold count_lo. rewrite seq_S, list.filter_app, length_app. simpl. f_equal.
  rewrite list.filter_cons. destruct (f (l N)) eqn:E; case_decide; done.
Qed.

Lemma count_lo_ge {Lo} (f : Lo -> bool) N (l : tid -> Lo) t x :
  N <= t -> count_lo f N (<[t := x]> l) = count_lo f N l.
Proof.
  induction N as [|N IH]; intros Ht; [done|].
  rewrite !count_lo_S, IH by lia. rewrite fn_lookup_insert_ne by lia. done.
Qed.

Lemma count_lo_insert {Lo} (f : Lo -> bool) N (l : tid -> Lo) t x :
  t < N -> count_lo f N (<[t := x]> l) + Nat.b2n (f (l t)) = count_lo f N l + Nat.b2n (f x).
Proof.
  induction N as [|N IH]; intros Ht; [lia|]. rewrite !count_lo_S.
  destruct (decide (t = N)) as [->|Hne].
  - rewrite count_lo_ge by lia. rewrite fn_lookup_insert. lia.
  - rewrite fn_lookup_insert_ne by lia. specialize (IH ltac:(lia)). lia.
Qed.

Lemma count_lo_le {Lo} (f : Lo -> bool) N (l : tid -> Lo) : count_lo f N l <= N.
Proof. induction N as [|N IH]; [done|]. rewrite count_lo_S. destruct (f (l N)); simpl; lia. Qed.

Lemma count_lo_pos {Lo} (f : Lo -> bool) N (l : tid -> Lo) t :
  t < N -> f (l t) = true -> 0 < count_lo f N l.
Proof.
  intros Ht Hf. induction N as [|N IH]; [lia|]. rewrite count_lo_S.
  destruct (decide (t = N)) as [->|Hne]; [rewrite Hf; simpl; lia|]. specialize (IH ltac:(lia)). lia.
Qed.

Lemma count_lo_zero {Lo} (f : Lo -> bool) N (l : tid -> Lo) :
  (forall t, f (l t) = false) -> count_lo f N l = 0.
Proof. intros H. induction N as [|N IH]; [done|]. by rewrite count_lo_S, IH, H. Qed.

(** A duplicate-free list of threads of one kind is no longer than their number. *)
Lemma count_lo_nodup {Lo} (f : Lo -> bool) N (l : tid -> Lo) (q : list tid) :
  base.NoDup q -> (forall t, t ∈ q -> t < N /\ f (l t) = true) -> length q <= count_lo f N l.
Proof.
  intros Hnd Hq. unfold count_lo. apply submseteq_length. apply NoDup_submseteq; [done|].
  intros t Ht. destruct (Hq t Ht). apply list_elem_of_filter. split; [done|]. apply elem_of_seq. lia.
Qed.

(** What the threads [0 .. N-1] hold. *)
Definition collect {Lo A} (f : Lo -> list A) (N : nat) (l : tid -> Lo) : list A :=
  seq 0 N ≫= fun t => f (l t).

Lemma collect_S {Lo A} (f : Lo -> list A) N l : collect f (S N) l = collect f N l ++ f (l N).
Proof. unfold collect. rewrite seq_S, bind_app. simpl. by rewrite app_nil_r. Qed.

Lemma collect_insert_ge {Lo A} (f : Lo -> list A) N l t x :
  N <= t -> collect f N (<[t := x]> l) = collect f N l.
Proof.
  induction N as [|N IH]; intros Ht; [done|].
  rewrite !collect_S, IH by lia. by rewrite fn_lookup_insert_ne by lia.
Qed.

Lemma collect_insert {Lo A} (f : Lo -> list A) N l t x :
  t < N -> collect f N (<[t := x]> l) ++ f (l t) ≡ₚ collect f N l ++ f x.
Proof.
  induction N as [|N IH]; intros Ht; [lia|]. rewrite !collect_S.
  destruct (decide (t = N)) as [->|Hne].
  - rewrite collect_insert_ge by lia. rewrite fn_lookup_insert. solve_Permutation.
  - rewrite fn_lookup_insert_ne by lia. specialize (IH ltac:(lia)).
    transitivity ((collect f N (<[t:=x]> l) ++ f (l t)) ++ f (l N)); [solve_Permutation|].
    rewrite IH. solve_Permutation.
Qed.

Lemma collect_nil {Lo A} (f : Lo -> list A) N l : (forall t, t < N -> f (l t) = []) -> collect f N l = [].
Proof.
  induction N as [|N IH]; intros H; [done|]. rewrite collect_S, IH, H; [done|lia|].
  intros t Ht. apply H. lia.
Qed.

(** ** Linearizability *)

(** A sequential specification: which result [r] an invocation [i] may give
    in a state, and the state after it. *)
Record seq_spec (I R : Type) := SeqSpec {
  ss_state : Type;
  ss_init : ss_state;
  ss_step : ss_state -> I -> R -> ss_state -> Prop;
}.
Arguments ss_state {I R} _.
Arguments ss_init {I R} _.
Arguments ss_step {I R} _ _ _ _ _.

(** What a thread shows: a call, the point where its effect takes place, and
    its return. *)
Inductive event (I R : Type) :=
| Inv (i : I)
| Lin (i : I) (r : R)
| Ret (r : R).
Arguments Inv {I R} _.
Arguments Lin {I R} _ _.
Arguments Ret {I R} _.

(** Where a thread stands in its current call. *)
Inductive status (I R : Type) :=
| Idle
| Pending (i : I)
| Committed (i : I) (r : R).
Arguments Idle {I R}.
Arguments Pending {I R} _.
Arguments Committed {I R} _ _.

Section linearizability.
Context {I R : Type} (spec : seq_spec I R).

Inductive status_step : status I R -> event I R -> status I R -> Prop :=
| st_inv i : status_step Idle (Inv i) (Pending i)
| st_lin i r : status_step (Pending i) (Lin i r) (Committed i r)
| st_ret i r : status_step (Committed i r) (Ret r) Idle.

(** The events of one thread, read left to right, are a sequence of
    [Inv i; Lin i r; Ret r] blocks, the last one possibly unfinished. *)
Inductive status_steps : status I R -> list (event I R) -> status I R -> Prop :=
| sts_nil st : status_steps st [] st
| sts_cons st e st' es st'' :
    status_step st e st' -> status_steps st' es st'' ->
    status_steps st (e :: es) st''.

Definition thread_events (t : tid) (tr : list (tid * event I R)) : list (event I R) :=
  map snd (filter (fun p => p.1 = t) tr).

Fixpoint lin_ops (es : list (event I R)) : list (I * R) :=
  match es with
  | [] => []
  | Lin i r :: es' => (i, r) :: lin_ops es'
  | _ :: es' => lin_ops es'
  end.

(** The operations, in order, are a legal sequential history. *)
Inductive legal : ss_state spec -> list (I * R) -> ss_state spec -> Prop :=
| legal_nil s : legal s [] s
| legal_cons s i r s' ops s'' :
    ss_step spec s i r s' -> legal s' ops s'' -> legal s ((i, r) :: ops) s''.

Definition is_lin (e : event I R) : bool :=
  match e with Lin _ _ => true | _ => false end.

(** The observable history: calls and returns only. *)
Definition history (tr : list (tid * event I R)) : list (tid * event I R) :=
  filter (fun p => is_lin p.2 = false) tr.

(** A history is linearizable when one point can be inserted between every
    call and its return (pending calls may or may not have one) such that the
    operations, taken in the order of these points and with the results the
    calls return, form a legal sequential history. *)
Definition linearizable (h : list (tid * event I R)) : Prop :=
  exists tr,
    history tr = h /\
    (forall t, exists st, status_steps Idle (thread_events t tr) st) /\
    exists s, legal (ss_init spec) (lin_ops (map snd tr)) s.

Lemma status_steps_app st es st' es' st'' :
  status_steps st es st' -> status_steps st' es' st'' ->
  status_steps st (es ++ es') st''.
Proof. induction 1; simpl; eauto using status_steps. Qed.

Lemma legal_app s ops s' ops' s'' :
  legal s ops s' -> legal s' ops' s'' -> legal s (ops ++ ops') s''.
Proof. induction 1; simpl; eauto using legal. Qed.

Lemma lin_ops_app es es' : lin_ops (es ++ es') = lin_ops es ++ lin_ops es'.
Proof. induction es as [|[] es IH]; simpl; by rewrite ?IH. Qed.

Lemma thread_events_app t tr tr' :
  thread_events t (tr ++ tr') = thread_events t tr ++ thread_events t tr'.
Proof. unfold thread_events. by rewrite list.filter_app, map_app. Qed.

Lemma thread_events_self t es : thread_events t (map (pair t) es) = es.
Proof.
  unfold thread_events. induction es as [|e es IH]; [done|].
  simpl. rewrite filter_cons_True by done. simpl. by rewrite IH.
Qed.

Lemma thread_events_other t u es :
  t <> u -> thread_events t (map (pair u) es) = [].
Proof.
  intros Hne. unfold thread_events. induction es as [|e es IH]; [done|].
  simpl. rewrite filter_cons_False by (simpl; congruence). done.
Qed.
End linearizability.

(** ** Refinement of specifications

    A client that only knows a more abstract specification: the histories of
    an object that is linearizable against a specification are linearizable
    against every specification that simulates it. *)
Section refinement.
Context {I R : Type} (spec1 spec2 : seq_spec I R).
Context (Rel : ss_state spec1 -> ss_state spec2 -> Prop).
Context (Hinit : Rel (ss_init spec1) (ss_init spec2)).
Context (Hstep : forall s1 s2 i r s1', Rel s1 s2 -> ss_step spec1 s1 i r s1' ->
  exists s2', ss_step spec2 s2 i r s2' /\ Rel s1' s2').

Lemma legal_refine s1 ops s1' : legal spec1 s1 ops s1' ->
  forall s2, Rel s1 s2 -> exists s2', legal spec2 s2 ops s2' /\ Rel s1' s2'.
Proof.
  induction 1 as [s|s i r s' ops s'' Hs _ IH]; intros s2 HR; [eauto using legal|].
  destruct (Hstep _ _ _ _ _ HR Hs) as (s2' & ? & HR').
  destruct (IH _ HR') as (s2'' & ? & ?). eauto using legal.
Qed.

Lemma linearizable_refine h : linearizable spec1 h -> linearizable spec2 h.
Proof.
  intros (tr & Hh & Hst & s & Hleg). destruct (legal_refine _ _ _ Hleg _ Hinit) as (s2 & ? & _).
  exists tr. eauto.
Qed.
End refinement.

(** ** Linearization points

    The interface an object offers to be proved linearizable.  [lp_status]
    reads the call status off the thread's local state; [lp_sim] relates the
    trace so far and the concrete configuration to a specification state.
    [lp_ok] restricts the traces considered (a bound on counters, say); it
    must be closed under prefixes. *)
Class LinPoints {Sh Lo Act I R : Type}
    (tstep : tid -> Act -> Lo -> Sh -> option (Lo * Sh * list (event I R)))
    (spec : seq_spec I R) (c0 : config Sh Lo)
    (lp_ok : list (tid * event I R) -> Prop) := {
  lp_status : Lo -> status I R;
  lp_sim : list (tid * event I R) -> config Sh Lo -> ss_state spec -> Prop;
  lp_ok_prefix : forall tr tr', lp_ok (tr ++ tr') -> lp_ok tr;
  lp_idle : forall t, lp_status (lo c0 t) = Idle;
  lp_init : lp_sim [] c0 (ss_init spec);
  lp_step : forall tr c a t x c' es,
    lp_sim tr c a -> cstep tstep t x c = Some (c', es) ->
    lp_ok (tr ++ map (pair t) es) ->
    exists a',
      lp_sim (tr ++ map (pair t) es) c' a' /\
      legal spec a (lin_ops es) a' /\
      status_steps (lp_status (lo c t)) es (lp_status (lo c' t));
}.

Section soundness.
Context {Sh Lo Act I R : Type}.
Context {tstep : tid -> Act -> Lo -> Sh -> option (Lo * Sh * list (event I R))}.
Context {spec : seq_spec I R} {c0 : config Sh Lo} {lp_ok : list (tid * event I R) -> Prop}.
Context (LP : LinPoints tstep spec c0 lp_ok).

Lemma lin_points_steps tr c :
  steps tstep c0 tr c -> lp_ok tr ->
  exists a, lp_sim tr c a /\ legal spec (ss_init spec) (lin_ops (map snd tr)) a /\
    forall t, status_steps Idle (thread_events t tr) (lp_status (lo c t)).
Proof.
  induction 1 as [|tr c t x c' es Hs IH Hc]; intros Hok.
  - exists (ss_init spec). repeat split; [apply lp_init|constructor|].
    intros t. rewrite lp_idle. constructor.
  - destruct IH as (a & Hsim & Hleg & Hst); [by eapply lp_ok_prefix|].
    destruct (lp_step _ _ _ _ _ _ _ Hsim Hc Hok) as (a' & Hsim' & Hleg' & Hst').
    exists a'. split; [done|]. split.
    + rewrite map_app, map_map, lin_ops_app. simpl. rewrite map_id.
      by eapply legal_app.
    + intros u. rewrite thread_events_app. eapply status_steps_app; [apply Hst|].
      destruct (cstep_inv _ _ _ _ _ _ Hc) as (l' & s' & _ & Hc'). subst c'; simpl in *.
      destruct (decide (u = t)) as [->|Hne].
      * by rewrite thread_events_self.
      * rewrite thread_events_other, fn_lookup_insert_ne by done. constructor.
Qed.

Lemma lin_points_sound tr c :
  steps tstep c0 tr c -> lp_ok tr -> linearizable spec (history tr).
Proof.
  intros Hs Hok. destruct (lin_points_steps _ _ Hs Hok) as (a & _ & Hleg & Hst).
  exists tr. split; [done|]. split; eauto.
Qed.
End soundness.

(** ** Linearization points in the past

    A read-only call may learn only later that it took effect when it looked.  [lr_sim]
    also carries what each thread has observed: [obs t = Some (i, r)] when at some
    moment since the last event of [t] the call [i] would have given [r] and changed
    nothing.  Such a call may be committed at any later step. *)
Class LinPointsRO {Sh Lo Act I R : Type}
    (tstep : tid -> Act -> Lo -> Sh -> option (Lo * Sh * list (event I R)))
    (spec : seq_spec I R) (c0 : config Sh Lo) (ok : tid -> Act -> config Sh Lo -> Prop) := {
  lr_status : Lo -> status I R;
  lr_sim : config Sh Lo -> ss_state spec -> (tid -> option (I * R)) -> Prop;
  lr_det : forall s i r s1 s2, ss_step spec s i r s1 -> ss_step spec s i r s2 -> s1 = s2;
  lr_idle : forall t, lr_status (lo c0 t) = Idle;
  lr_init : lr_sim c0 (ss_init spec) (fun _ => None);
  lr_step : forall c a obs t x c' es,
    lr_sim c a obs -> ok t x c -> cstep tstep t x c = Some (c', es) ->
    exists a' o,
      lr_sim c' a' (<[t := o]> obs) /\
      legal spec a (lin_ops es) a' /\
      (forall i r, o = Some (i, r) -> ss_step spec a' i r a' \/ (obs t = Some (i, r) /\ es = [])) /\
      (status_steps (lr_status (lo c t)) es (lr_status (lo c' t)) \/
       exists i r, obs t = Some (i, r) /\ lr_status (lo c t) = Pending i /\ o = None /\
         status_steps (Committed i r) es (lr_status (lo c' t)));
}.

Section past.
Context {I R : Type} (spec : seq_spec I R).
Context (Hdet : forall s i r s1 s2, ss_step spec s i r s1 -> ss_step spec s i r s2 -> s1 = s2).

Lemma legal_det s ops s1 s2 : legal spec s ops s1 -> legal spec s ops s2 -> s1 = s2.
Proof using Hdet.
  intros H. revert s2. induction H as [s|s i r s' ops s'' Hs _ IH]; intros s2 H2; inversion H2; subst; [done|].
  apply IH. by rewrite (Hdet _ _ _ _ _ Hs ltac:(eassumption)).
Qed.

Lemma legal_app_inv s ops ops' s'' :
  legal spec s (ops ++ ops') s'' -> exists s', legal spec s ops s' /\ legal spec s' ops' s''.
Proof.
  revert s. induction ops as [|[i r] ops IH]; intros s H; simpl in *; [eauto using legal|].
  inversion H; subst. destruct (IH _ ltac:(eassumption)) as (s1 & ? & ?). eauto using legal.
Qed.

(** At some moment since the last event of [t], the call [i] would have given [r]. *)
Definition seen (tr : list (tid * event I R)) (t : tid) (i : I) (r : R) : Prop :=
  exists tr1 tr2 s, tr = tr1 ++ tr2 /\ legal spec (ss_init spec) (lin_ops (map snd tr1)) s /\
    ss_step spec s i r s /\ thread_events t tr2 = [].

Lemma seen_now tr t i r a :
  legal spec (ss_init spec) (lin_ops (map snd tr)) a -> ss_step spec a i r a -> seen tr t i r.
Proof. intros ??. exists tr, [], a. by rewrite app_nil_r. Qed.

Lemma seen_snoc tr t u es i r : seen tr t i r -> u <> t \/ es = [] -> seen (tr ++ map (pair u) es) t i r.
Proof.
  intros (tr1 & tr2 & s & -> & ? & ? & Ht) Hu. exists tr1, (tr2 ++ map (pair u) es), s.
  rewrite app_assoc. split; [done|]. split; [done|]. split; [done|]. rewrite thread_events_app, Ht. simpl.
  destruct Hu as [Hu| ->]; [by apply thread_events_other|done].
Qed.

(** The trace with the point of a past read-only call put in. *)
Lemma past_insert tr t i r a :
  seen tr t i r -> legal spec (ss_init spec) (lin_ops (map snd tr)) a ->
  exists tr', history tr' = history tr /\ legal spec (ss_init spec) (lin_ops (map snd tr')) a /\
    thread_events t tr' = thread_events t tr ++ [Lin i r] /\
    (forall u, u <> t -> thread_events u tr' = thread_events u tr) /\
    (forall u j q, u <> t -> seen tr u j q -> seen tr' u j q).
Proof using Hdet.
  intros (tr1 & tr2 & s & -> & Hl1 & Hs & Ht) Hl. exists (tr1 ++ (t, Lin i r) :: tr2).
  rewrite map_app, lin_ops_app in Hl. destruct (legal_app_inv _ _ _ _ Hl) as (s0 & Hl1' & Hl2).
  pose proof (legal_det _ _ _ _ Hl1 Hl1'). subst s0. split_and!.
  - unfold history. rewrite !list.filter_app. by f_equal.
  - rewrite map_app, lin_ops_app. simpl. eapply legal_app; [done|]. by econstructor.
  - rewrite !thread_events_app, Ht, app_nil_r. f_equal.
    change ((t, Lin i r) :: tr2) with (map (pair t) [Lin (R := R) i r] ++ tr2). by rewrite thread_events_app, thread_events_self, Ht.
  - intros u Hu. rewrite !thread_events_app. f_equal.
    change ((t, Lin i r) :: tr2) with (map (pair t) [Lin (R := R) i r] ++ tr2). by rewrite thread_events_app, thread_events_other.
  - intros u j q Hu (tr1' & tr2' & s' & Heq & Hl' & Hs' & Ht').
    apply app_eq_app in Heq as (k & [[-> ->]|[-> ->]]).
    + exists tr1', (k ++ (t, Lin i r) :: tr2), s'. rewrite <- app_assoc. split_and!; try done.
      rewrite thread_events_app in Ht' |- *. apply app_eq_nil in Ht' as [-> Ht'].
      change ((t, Lin i r) :: tr2) with (map (pair t) [Lin (R := R) i r] ++ tr2).
      by rewrite thread_events_app, thread_events_other, Ht' by done.
    + exists (tr1 ++ (t, Lin i r) :: k), tr2', s'. rewrite <- app_assoc. split_and!; try done.
      rewrite map_app, lin_ops_app in Hl' |- *. destruct (legal_app_inv _ _ _ _ Hl') as (s0 & Hl0 & Hlk).
      pose proof (legal_det _ _ _ _ Hl1 Hl0). subst s0. eapply legal_app; [done|]. simpl. by econstructor.
Qed.
End past.

Section past_soundness.
Context {Sh Lo Act I R : Type}.
Context {tstep : tid -> Act -> Lo -> Sh -> option (Lo * Sh * list (event I R))}.
Context {spec : seq_spec I R} {c0 : config Sh Lo} {ok : tid -> Act -> config Sh Lo -> Prop}.
Context (LR : LinPointsRO tstep spec c0 ok).

Lemma lin_past_steps tr c :
  gsteps tstep ok c0 tr c ->
  exists tr' a obs, history tr' = history tr /\ lr_sim c a obs /\ legal spec (ss_init spec) (lin_ops (map snd tr')) a /\
    (forall t, status_steps Idle (thread_events t tr') (lr_status (lo c t))) /\
    forall t i r, obs t = Some (i, r) -> seen spec tr' t i r.
Proof.
  induction 1 as [|tr c t x c' es Hs (tr' & a & obs & Hh & Hsim & Hleg & Hst & Hseen) Hok Hc].
  - exists [], (ss_init spec), (fun _ => None). repeat split; [apply lr_init|constructor| |done].
    intros t. rewrite lr_idle. constructor.
  - destruct (lr_step _ _ _ _ _ _ _ Hsim Hok Hc) as (a' & o & Hsim' & Hl & Ho & Hstep).
    destruct (cstep_inv _ _ _ _ _ _ Hc) as (l' & s' & _ & Hc'). subst c'. simpl in Hstep. rewrite fn_lookup_insert in Hstep.
    (* the trace before [es], with the past point of [t] when there is one *)
    assert (exists tr1 st, history tr1 = history tr' /\ legal spec (ss_init spec) (lin_ops (map snd tr1)) a /\
      status_steps Idle (thread_events t tr1) st /\ status_steps st es (lr_status l') /\
      (forall u, u <> t -> thread_events u tr1 = thread_events u tr') /\
      (forall u j q, (u <> t \/ o = Some (j, q)) -> seen spec tr' u j q -> seen spec tr1 u j q))
      as (tr1 & st & Hh1 & Hl1 & Hst1 & Hst2 & Hoth & Hseen1).
    { destruct Hstep as [Hstep|(i & r & Hobs & Hp & Hn & Hstep)]; [exists tr', (lr_status (lo c t)); by split_and!|].
      destruct (past_insert spec lr_det tr' t i r a (Hseen _ _ _ Hobs) Hleg) as (tr1 & ? & ? & Hte & ? & ?).
      exists tr1, (Committed i r). split_and!; try done; [|intros u j q [Hu|Hu]; [auto|congruence]]. rewrite Hte. eapply status_steps_app; [apply Hst|].
      rewrite Hp. econstructor; constructor. }
    exists (tr1 ++ map (pair t) es), a', (<[t := o]> obs). split_and!.
    + unfold history in *. by rewrite !list.filter_app, Hh1, Hh.
    + done.
    + rewrite map_app, map_map, lin_ops_app. simpl. rewrite map_id. by eapply legal_app.
    + intros u. rewrite thread_events_app. simpl. destruct (decide (u = t)) as [->|Hne].
      * rewrite thread_events_self, fn_lookup_insert. by eapply status_steps_app.
      * rewrite thread_events_other, app_nil_r, Hoth, fn_lookup_insert_ne by done. apply Hst.
    + intros u j q. destruct (decide (u = t)) as [->|Hne].
      * rewrite fn_lookup_insert. intros ->. destruct (Ho j q eq_refl) as [Hnow|[Hobs ->]].
        -- eapply seen_now; [|exact Hnow]. rewrite map_app, map_map, lin_ops_app. simpl. rewrite map_id. by eapply legal_app.
        -- apply seen_snoc; [|by right]. apply Hseen1; [by right|]. by apply Hseen.
      * rewrite fn_lookup_insert_ne by done. intros Hobs. apply seen_snoc; [|left; congruence]. apply Hseen1; [by left|]. by apply Hseen.
Qed.

Lemma lin_past_sound tr c : gsteps tstep ok c0 tr c -> linearizable spec (history tr).
Proof.
  intros Hs. destruct (lin_past_steps _ _ Hs) as (tr' & a & obs & Hh & _ & Hl & Hst & _). exists tr'. eauto.
Qed.
End past_soundness.
