(* ===== verification/WorkStealingQueue.v ===== *)
(** The per-worker task queue of the fast thread pool:
    src/src/exe/sched/tp/fast/queues/work_stealing_queue.hpp.

    A single producer (the owning worker) and any number of consumers (the
    owner and the thieves) share a ring buffer through two 64-bit counters.
    Every atomic access of [TryPush], [TryPop], [Grab] and [SizeEstimate] is
    one step of [wsq_step]; the theorem at the end is that all concurrent
    histories are linearizable with respect to a bounded FIFO queue. *)

From S2P Require Import Prelude Conc.
Local Open Scope Z_scope.

(** The shared fields of [WorkStealingQueue<Capacity>]; a task is the address
    of a [TaskBase], and [nullptr] is [0]. *)
Record WSQ := mkWSQ { wsq_head : Z; wsq_tail : Z; wsq_buffer : list Z }.

(** The calls and their results.  [IGrab n] is a call with an [out_buffer] of
    size [n]; its result is the grabbed prefix of that buffer. *)
Inductive wsq_inv :=
| ITryPush (task : Z)
| ITryPop
| IGrab (size : Z)
| ISizeEstimate.

Inductive wsq_res :=
| RBool (b : bool)
| RTask (task : Z)
| RGrab (tasks : list Z)
| RSize (n : Z).

(** Program points, named after the next shared access, with the C++ locals
    that are live there. *)
Inductive wsq_pc :=
| WIdle
| TryPush_load_tail (task : Z)
| TryPush_load_head (task current_tail : Z)
| TryPush_store (task current_tail : Z)
| TryPush_fetch_add (task : Z)
| TryPop_load_head
| TryPop_load_tail (old_head : Z)
| TryPop_load_slot (old_head : Z)
| TryPop_cas (old_head task : Z)
| Grab_load_tail (size : Z)
| Grab_load_head (size new_head : Z)
| Grab_copy (size max_grab new_head old_head i : Z) (out : list Z)
| Grab_cas (size max_grab new_head old_head : Z) (out : list Z)
| Size_load_head
| Size_load_tail (old_head : Z)
| WRet (i : wsq_inv) (r : wsq_res).

Inductive wsq_act := ACall (i : wsq_inv) | AGo.

Section wsq.
(** The template parameter, and the thread that owns the queue. *)
Context (Capacity : Z) (owner : tid).

Definition wsq_empty : WSQ := mkWSQ 0 0 (replicate (Z.to_nat Capacity) 0).

Definition slot_load (b : list Z) (pos : Z) : Z := zget b (pos mod Capacity).
Definition slot_store (b : list Z) (pos v : Z) : list Z := zset b (pos mod Capacity) v.

Definition wsq_result := option (wsq_pc * WSQ * list (event wsq_inv wsq_res)).

Definition wsq_TryPush (l : wsq_pc) (s : WSQ) : wsq_result :=
  match l with
  | TryPush_load_tail task =>
      Some (TryPush_load_head task (wsq_tail s), s, [])
  | TryPush_load_head task current_tail =>
      if u64 (current_tail - wsq_head s) =? Capacity
      then Some (WRet (ITryPush task) (RBool false), s,
                 [Lin (ITryPush task) (RBool false)])
      else Some (TryPush_store task current_tail, s, [])
  | TryPush_store task current_tail =>
      Some (TryPush_fetch_add task,
            mkWSQ (wsq_head s) (wsq_tail s) (slot_store (wsq_buffer s) current_tail task), [])
  | TryPush_fetch_add task =>
      Some (WRet (ITryPush task) (RBool true),
            mkWSQ (wsq_head s) (u64 (wsq_tail s + 1)) (wsq_buffer s),
            [Lin (ITryPush task) (RBool true)])
  | _ => None
  end.

Definition wsq_TryPop (l : wsq_pc) (s : WSQ) : wsq_result :=
  match l with
  | TryPop_load_head => Some (TryPop_load_tail (wsq_head s), s, [])
  | TryPop_load_tail old_head =>
      if wsq_tail s =? old_head
      then Some (WRet ITryPop (RTask 0), s, [Lin ITryPop (RTask 0)])
      else Some (TryPop_load_slot old_head, s, [])
  | TryPop_load_slot old_head =>
      Some (TryPop_cas old_head (slot_load (wsq_buffer s) old_head), s, [])
  | TryPop_cas old_head task =>
      if wsq_head s =? old_head
      then Some (WRet ITryPop (RTask task),
                 mkWSQ (u64 (old_head + 1)) (wsq_tail s) (wsq_buffer s),
                 [Lin ITryPop (RTask task)])
      else Some (TryPop_load_tail (wsq_head s), s, [])
  | _ => None
  end.

(** The caller's [out_buffer] is a local list: [Grab] writes every cell it
    returns, so what the buffer held before is immaterial and it starts as
    zeros.  The final loop of [Grab] is
    [for (i = 0; i < n; ++i) out[i] = out[off + i];]. *)
Fixpoint shift_down (n : nat) (i off : Z) (out : list Z) : list Z :=
  match n with
  | O => out
  | S n' => shift_down n' (i + 1) off (zset out i (zget out (off + i)))
  end.

(** After the copy loop and after a failed exchange: the [while] test, and
    the [continue] to the start of the outer loop. *)
Definition grab_loop (size max_grab new_head old_head : Z) (out : list Z) : wsq_pc :=
  if old_head <? new_head
  then Grab_cas size max_grab new_head old_head out
  else Grab_load_tail size.

Definition wsq_Grab (l : wsq_pc) (s : WSQ) : wsq_result :=
  match l with
  | Grab_load_tail size => Some (Grab_load_head size (wsq_tail s), s, [])
  | Grab_load_head size new_head =>
      let old_head := wsq_head s in
      let max_grab := Z.min size (u64 (new_head - old_head)) in
      let new_head := Z.min new_head (u64 (old_head + max_grab)) in
      if max_grab =? 0
      then Some (WRet (IGrab size) (RGrab []), s, [Lin (IGrab size) (RGrab [])])
      else Some (Grab_copy size max_grab new_head old_head 0
                   (replicate (Z.to_nat size) 0), s, [])
  | Grab_copy size max_grab new_head old_head i out =>
      let out := zset out i (slot_load (wsq_buffer s) (u64 (old_head + i))) in
      if i + 1 <? max_grab
      then Some (Grab_copy size max_grab new_head old_head (i + 1) out, s, [])
      else Some (grab_loop size max_grab new_head old_head out, s, [])
  | Grab_cas size max_grab new_head old_head out =>
      if wsq_head s =? old_head
      then let grabbed := u64 (new_head - old_head) in
           let out := shift_down (Z.to_nat grabbed) 0 (max_grab - grabbed) out in
           let r := RGrab (take (Z.to_nat grabbed) out) in
           Some (WRet (IGrab size) r, mkWSQ new_head (wsq_tail s) (wsq_buffer s),
                 [Lin (IGrab size) r])
      else Some (grab_loop size max_grab new_head (wsq_head s) out, s, [])
  | _ => None
  end.

Definition wsq_SizeEstimate (l : wsq_pc) (s : WSQ) : wsq_result :=
  match l with
  | Size_load_head => Some (Size_load_tail (wsq_head s), s, [])
  | Size_load_tail old_head =>
      let r := RSize (u64 (wsq_tail s - old_head)) in
      Some (WRet ISizeEstimate r, s, [Lin ISizeEstimate r])
  | _ => None
  end.

(** [TryPush] is the producer's; the other methods are open to every thread. *)
Definition wsq_call (t : tid) (i : wsq_inv) : option wsq_pc :=
  match i with
  | ITryPush task => if decide (t = owner) then Some (TryPush_load_tail task) else None
  | ITryPop => Some TryPop_load_head
  | IGrab size => if (0 <=? size) && (size <? 2^64) then Some (Grab_load_tail size) else None
  | ISizeEstimate => Some Size_load_head
  end.

Definition wsq_step (t : tid) (a : wsq_act) (l : wsq_pc) (s : WSQ) : wsq_result :=
  match a, l with
  | ACall i, WIdle => pc ← wsq_call t i; Some (pc, s, [Inv i])
  | AGo, WRet i r => Some (WIdle, s, [Ret r])
  | AGo, (TryPush_load_tail _ | TryPush_load_head _ _ | TryPush_store _ _
         | TryPush_fetch_add _) => wsq_TryPush l s
  | AGo, (TryPop_load_head | TryPop_load_tail _ | TryPop_load_slot _
         | TryPop_cas _ _) => wsq_TryPop l s
  | AGo, (Grab_load_tail _ | Grab_load_head _ _ | Grab_copy _ _ _ _ _ _
         | Grab_cas _ _ _ _ _) => wsq_Grab l s
  | AGo, (Size_load_head | Size_load_tail _) => wsq_SizeEstimate l s
  | _, _ => None
  end.

Definition wsq_init : config WSQ wsq_pc := Cfg wsq_empty (fun _ => WIdle).

(** ** The sequential specification: a bounded FIFO queue.  [Grab] may take
    any prefix that fits the caller's buffer, possibly none; [SizeEstimate]
    never underestimates. *)
Inductive fifo_step : list Z -> wsq_inv -> wsq_res -> list Z -> Prop :=
| fifo_push q x : zlen q < Capacity -> fifo_step q (ITryPush x) (RBool true) (q ++ [x])
| fifo_full q x : zlen q = Capacity -> fifo_step q (ITryPush x) (RBool false) q
| fifo_pop q x : fifo_step (x :: q) ITryPop (RTask x) q
| fifo_pop_empty : fifo_step [] ITryPop (RTask 0) []
| fifo_grab q xs n : zlen xs <= n -> fifo_step (xs ++ q) (IGrab n) (RGrab xs) q
| fifo_size q n : zlen q <= n -> fifo_step q ISizeEstimate (RSize n) q.

Definition fifo_spec : seq_spec wsq_inv wsq_res :=
  {| ss_state := list Z; ss_init := []; ss_step := fifo_step |}.
End wsq.

(** ** Linearizability *)

Section wsq_proof.
Context (Capacity : Z) (owner : tid).
Hypothesis Capacity_pos : 0 < Capacity < 2^64.

Local Abbreviation trace := (list (tid * event wsq_inv wsq_res)).

(** The tasks pushed so far, oldest first, and the status of a thread. *)
Definition push_of (op : wsq_inv * wsq_res) : list Z :=
  match op with (ITryPush x, RBool true) => [x] | _ => [] end.

Definition pushed (tr : trace) : list Z :=
  flat_map push_of (lin_ops (map snd tr)).

Definition wsq_status (l : wsq_pc) : status wsq_inv wsq_res :=
  match l with
  | WIdle => Idle
  | TryPush_load_tail task | TryPush_load_head task _ | TryPush_store task _
  | TryPush_fetch_add task => Pending (ITryPush task)
  | TryPop_load_head | TryPop_load_tail _ | TryPop_load_slot _
  | TryPop_cas _ _ => Pending ITryPop
  | Grab_load_tail size | Grab_load_head size _ | Grab_copy size _ _ _ _ _
  | Grab_cas size _ _ _ _ => Pending (IGrab size)
  | Size_load_head | Size_load_tail _ => Pending ISizeEstimate
  | WRet i r => Committed i r
  end.

(** What each program point knows: [P] are the tasks pushed so far, [h] the
    current head.  A copied slot is right as long as the head has not passed
    its position. *)
Definition copied (P : list Z) (h base n : Z) (out : list Z) : Prop :=
  forall j, 0 <= j < n -> base + j < h \/ zget P (base + j) = zget out j.

Definition wsq_local (P : list Z) (h : Z) (buf : list Z) (t : tid) (l : wsq_pc) : Prop :=
  match l with
  | TryPush_load_tail _ => t = owner
  | TryPush_load_head _ ct => t = owner /\ ct = zlen P
  | TryPush_store _ ct => t = owner /\ ct = zlen P /\ zlen P < h + Capacity
  | TryPush_fetch_add task =>
      t = owner /\ zlen P < h + Capacity /\ slot_load Capacity buf (zlen P) = task
  | TryPop_load_tail oh => 0 <= oh <= h
  | TryPop_load_slot oh => 0 <= oh <= h /\ oh < zlen P
  | TryPop_cas oh task => 0 <= oh <= h /\ oh < zlen P /\ (oh < h \/ zget P oh = task)
  | Grab_load_tail size => 0 <= size < 2^64
  | Grab_load_head size nh => 0 <= size < 2^64 /\ 0 <= nh <= zlen P
  | Grab_copy size mg nh oh i out =>
      0 <= size < 2^64 /\ 0 <= oh <= h /\ nh <= zlen P /\ 0 <= i < mg /\ mg <= size /\
      zlen out = size /\ (nh <= oh \/ mg = nh - oh /\ copied P h oh i out)
  | Grab_cas size mg nh oh out =>
      0 <= size < 2^64 /\ 0 <= oh <= h /\ oh < nh <= zlen P /\ mg <= size /\
      zlen out = size /\ 0 <= nh - mg <= oh /\ copied P h (nh - mg) mg out
  | Size_load_tail oh => 0 <= oh <= h
  | _ => True
  end.

Record wsq_sim (tr : trace) (c : config WSQ wsq_pc) (q : list Z) : Prop := {
  sim_head : 0 <= wsq_head (sh c) <= zlen (pushed tr);
  sim_tail : wsq_tail (sh c) = zlen (pushed tr);
  sim_room : zlen (pushed tr) <= wsq_head (sh c) + Capacity;
  sim_word : zlen (pushed tr) < 2^64;
  sim_buf : zlen (wsq_buffer (sh c)) = Capacity;
  sim_queue : q = drop (Z.to_nat (wsq_head (sh c))) (pushed tr);
  sim_slots : forall i, wsq_head (sh c) <= i < zlen (pushed tr) ->
    slot_load Capacity (wsq_buffer (sh c)) i = zget (pushed tr) i;
  sim_local : forall t, wsq_local (pushed tr) (wsq_head (sh c)) (wsq_buffer (sh c)) t (lo c t);
}.

Definition few_pushes (tr : trace) : Prop := zlen (pushed tr) < 2^64.

Lemma pushed_app tr t es :
  pushed (tr ++ map (pair t) es) = pushed tr ++ flat_map push_of (lin_ops es).
Proof.
  unfold pushed. by rewrite map_app, map_map, map_id, lin_ops_app, flat_map_app.
Qed.

Lemma slot_distinct a b :
  0 <= a -> a < b < a + Capacity -> a mod Capacity <> b mod Capacity.
Proof.
  intros Ha Hb Heq.
  assert (Hd : (b - a) mod Capacity = 0).
  { rewrite Zminus_mod, Heq, Z.sub_diag. apply Z.mod_0_l. lia. }
  rewrite Z.mod_small in Hd; lia.
Qed.

Lemma slot_store_other buf a b v :
  0 <= a -> a < b < a + Capacity ->
  slot_load Capacity (slot_store Capacity buf b v) a = slot_load Capacity buf a.
Proof.
  intros Ha Hb. unfold slot_load, slot_store.
  pose proof (Z.mod_pos_bound a Capacity). pose proof (Z.mod_pos_bound b Capacity).
  apply zget_zset_ne; [lia|lia|]. apply not_eq_sym. by apply slot_distinct.
Qed.

Lemma slot_store_self buf b v :
  zlen buf = Capacity -> slot_load Capacity (slot_store Capacity buf b v) b = v.
Proof.
  intros Hl. unfold slot_load, slot_store. apply zget_zset_eq.
  rewrite Hl. apply Z.mod_pos_bound. lia.
Qed.

Lemma shift_down_spec n i off out :
  0 <= i -> 0 <= off -> i + Z.of_nat n + off <= zlen out ->
  zlen (shift_down n i off out) = zlen out /\
  forall z, 0 <= z ->
    zget (shift_down n i off out) z =
    if decide (i <= z < i + Z.of_nat n) then zget out (off + z) else zget out z.
Proof.
  revert i out. induction n as [|n IH]; intros i out Hi Ho Hl; simpl.
  - split; [done|]. intros z Hz. case_decide; [lia|done].
  - destruct (IH (i + 1) (zset out i (zget out (off + i)))) as [IHl IHz];
      [lia|lia|rewrite zlen_zset; lia|].
    split; [by rewrite IHl, zlen_zset|]. intros z Hz. rewrite IHz by done.
    case_decide; case_decide; try lia.
    + by rewrite zget_zset_ne by lia.
    + replace z with i by lia. rewrite zget_zset_eq; [done|lia].
    + by rewrite zget_zset_ne by lia.
Qed.

(** The prefix [Grab] hands back is the run of tasks it took. *)
Lemma grab_result P h nh mg oh out :
  0 <= oh -> oh = h -> oh < nh <= zlen P -> 0 <= nh - mg <= oh -> mg <= zlen out ->
  copied P h (nh - mg) mg out ->
  take (Z.to_nat (nh - oh)) (shift_down (Z.to_nat (nh - oh)) 0 (mg - (nh - oh)) out) =
  take (Z.to_nat (nh - oh)) (drop (Z.to_nat oh) P).
Proof.
  intros Hoh -> Hnh Hb Hl Hc.
  destruct (shift_down_spec (Z.to_nat (nh - h)) 0 (mg - (nh - h)) out) as [Hsl Hsz]; [lia..|].
  assert (Hd : zlen (drop (Z.to_nat h) P) = zlen P - h) by (apply zlen_drop; lia).
  apply zlist_ext.
  - rewrite !zlen_take; lia.
  - intros z. rewrite zlen_take by lia. intros Hz.
    rewrite !zget_take, zget_drop, Hsz by lia. rewrite decide_True by lia.
    destruct (Hc (mg - (nh - h) + z)) as [|Hcz]; [lia|lia|].
    rewrite <- Hcz. f_equal. lia.
Qed.

(** The other threads' knowledge survives: the head only advances, tasks are
    only appended, and only the owner writes slots. *)
Lemma copied_mono P xs h h' base n out :
  0 <= base -> base + n <= zlen P -> h <= h' ->
  copied P h base n out -> copied (P ++ xs) h' base n out.
Proof.
  intros Hb Hn Hh Hc j Hj. destruct (Hc j Hj) as [|Heq]; [lia|].
  right. rewrite zget_app_l; [done|lia].
Qed.

Lemma local_mono P xs h h' buf buf' t l :
  wsq_local P h buf t l -> h <= h' ->
  t <> owner \/ xs = [] /\ buf' = buf ->
  wsq_local (P ++ xs) h' buf' t l.
Proof.
  pose proof (zlen_nonneg xs).
  intros Hl Hh Ho.
  assert (t = owner -> wsq_local P h' buf t l -> wsq_local (P ++ xs) h' buf' t l) as Hown.
  { intros -> ?. destruct Ho as [|[-> ->]]; [done|]. by rewrite app_nil_r. }
  destruct l; simpl in *; try (by apply Hown; intuition lia);
    autorewrite with zlist; try (lia || done).
  - destruct Hl as (? & ? & Hl). repeat split; [lia..|].
    destruct Hl as [|Hl]; [lia|]. right. rewrite zget_app_l; [done|lia].
  - destruct Hl as (? & ? & ? & ? & ? & ? & Hl). repeat split; try lia.
    destruct Hl as [|[-> Hl]]; [lia|]. right. split; [done|].
    eapply copied_mono; [..|done]; lia.
  - destruct Hl as (? & ? & ? & ? & ? & ? & Hl). repeat split; try lia.
    eapply copied_mono; [..|done]; lia.
Qed.

(** One step of thread [t] that pushes [xs] and moves to [l'] and [s']. *)
Lemma sim_update tr c q t es xs l' s' q' :
  wsq_sim tr c q -> flat_map push_of (lin_ops es) = xs ->
  q' = drop (Z.to_nat (wsq_head s')) (pushed tr ++ xs) ->
  zlen (pushed tr ++ xs) < 2^64 ->
  wsq_head (sh c) <= wsq_head s' <= zlen (pushed tr ++ xs) ->
  wsq_tail s' = zlen (pushed tr ++ xs) ->
  zlen (pushed tr ++ xs) <= wsq_head s' + Capacity ->
  zlen (wsq_buffer s') = Capacity ->
  (forall i, wsq_head s' <= i < zlen (pushed tr ++ xs) ->
     slot_load Capacity (wsq_buffer s') i = zget (pushed tr ++ xs) i) ->
  t = owner \/ xs = [] /\ wsq_buffer s' = wsq_buffer (sh c) ->
  wsq_local (pushed tr ++ xs) (wsq_head s') (wsq_buffer s') t l' ->
  wsq_sim (tr ++ map (pair t) es) (Cfg s' (<[t := l']> (lo c))) q'.
Proof.
  intros [] Hxs. intros. constructor; simpl; rewrite ?pushed_app, ?Hxs; try done; try lia.
  intros u. destruct (decide (u = t)) as [->|Hne].
  - by rewrite fn_lookup_insert.
  - rewrite fn_lookup_insert_ne by done. eapply local_mono; [eauto|lia|].
    naive_solver.
Qed.

(** Steps that touch no shared field. *)
Lemma sim_local_step tr c q t es l' :
  wsq_sim tr c q -> flat_map push_of (lin_ops es) = [] ->
  wsq_local (pushed tr) (wsq_head (sh c)) (wsq_buffer (sh c)) t l' ->
  wsq_sim (tr ++ map (pair t) es) (Cfg (sh c) (<[t := l']> (lo c))) q.
Proof.
  intros Hsim Hxs Hl. pose proof Hsim as []. eapply sim_update; rewrite ?app_nil_r; eauto; try lia.
Qed.

Lemma sim_TryPush tr c q t l' s' es :
  wsq_sim tr c q -> wsq_TryPush Capacity (lo c t) (sh c) = Some (l', s', es) ->
  few_pushes (tr ++ map (pair t) es) ->
  exists q', wsq_sim (tr ++ map (pair t) es) (Cfg s' (<[t := l']> (lo c))) q' /\
    legal (fifo_spec Capacity) q (lin_ops es) q' /\
    status_steps (wsq_status (lo c t)) es (wsq_status l').
Proof.
  intros Hsim Hst Hok. pose proof Hsim as [? ? ? ? ? -> ? Hloc]. specialize (Hloc t).
  set (q := drop _ _) in *. assert (Hq : zlen q = zlen (pushed tr) - wsq_head (sh c)) by (apply zlen_drop; lia).
  unfold few_pushes in Hok. rewrite pushed_app in Hok.
  unfold wsq_TryPush in Hst.
  destruct (lo c t) eqn:El; simplify_eq; cbn [wsq_local wsq_status] in *.
  - exists q. split; [by apply sim_local_step|]. repeat econstructor.
  - destruct Hloc as [Ho ->]. rewrite u64_id in Hst by lia.
    case_match; simplify_eq; bool_hyps;
      (exists q; split; [apply sim_local_step; simpl; auto with lia|]; repeat econstructor).
    lia.
  - destruct Hloc as (Ho & -> & Hroom). exists q. split; [|repeat econstructor].
    eapply (sim_update _ _ _ _ _ []); rewrite ?app_nil_r; eauto; simpl; try lia.
    + unfold slot_store. by rewrite zlen_zset.
    + intros i Hi. rewrite slot_store_other by lia. eauto.
    + by rewrite slot_store_self.
  - destruct Hloc as (Ho & Hroom & Hslot). exists (q ++ [task]). simpl in Hok.
    autorewrite with zlist in *. split; [|repeat econstructor; lia].
    eapply (sim_update _ _ _ _ _ [task]); simpl; eauto; autorewrite with zlist;
      rewrite ?u64_id by lia; try lia.
    + by rewrite drop_app_le by (unfold zlen in *; lia).
    + intros i Hi. destruct (decide (i = zlen (pushed tr))) as [->|].
      * by rewrite zget_app_r.
      * rewrite zget_app_l by lia. auto with lia.
Qed.

(** A successful exchange of the head, from [head_] to [h']. *)
Lemma sim_take tr c q t es l' h' :
  wsq_sim tr c q -> flat_map push_of (lin_ops es) = [] ->
  wsq_head (sh c) <= h' <= zlen (pushed tr) ->
  wsq_local (pushed tr) h' (wsq_buffer (sh c)) t l' ->
  wsq_sim (tr ++ map (pair t) es)
    (Cfg (mkWSQ h' (wsq_tail (sh c)) (wsq_buffer (sh c))) (<[t := l']> (lo c)))
    (drop (Z.to_nat (h' - wsq_head (sh c))) q).
Proof.
  intros Hsim Hxs Hh Hl. pose proof Hsim as [].
  eapply sim_update; rewrite ?app_nil_r; simpl; eauto; try lia.
  - subst q. rewrite drop_drop. f_equal. lia.
  - auto with lia.
Qed.

Lemma zlen_zero {A} (l : list A) : zlen l = 0 -> l = [].
Proof. unfold zlen. destruct l; simpl; [done|lia]. Qed.

Lemma drop_zget (l : list Z) n :
  0 <= n < zlen l -> drop (Z.to_nat n) l = zget l n :: drop (Z.to_nat (n + 1)) l.
Proof.
  intros Hn. unfold zget. rewrite (drop_S l (nth (Z.to_nat n) l 0)).
  - do 2 f_equal. lia.
  - unfold zlen in Hn. destruct (lookup_lt_is_Some_2 l (Z.to_nat n)) as [x Hx]; [lia|].
    by rewrite Hx, (nth_lookup_Some _ _ _ _ Hx).
Qed.

Ltac sim_open t Hsim q :=
  pose proof Hsim as [? ? ? ? ? -> ? Hloc]; specialize (Hloc t);
  set (q := drop _ _) in *.

Lemma sim_TryPop tr c q t l' s' es :
  wsq_sim tr c q -> wsq_TryPop Capacity (lo c t) (sh c) = Some (l', s', es) ->
  exists q', wsq_sim (tr ++ map (pair t) es) (Cfg s' (<[t := l']> (lo c))) q' /\
    legal (fifo_spec Capacity) q (lin_ops es) q' /\
    status_steps (wsq_status (lo c t)) es (wsq_status l').
Proof.
  intros Hsim Hst. sim_open t Hsim q. unfold wsq_TryPop in Hst.
  destruct (lo c t) eqn:El; simplify_eq; cbn [wsq_local wsq_status] in *.
  - exists q. split; [apply sim_local_step; simpl; try done; lia|]. repeat econstructor.
  - case_match; simplify_eq; bool_hyps; exists q.
    + assert (q = []) as ->.
      { apply zlen_zero. unfold q. rewrite zlen_drop; lia. }
      split; [by apply sim_local_step|]. repeat econstructor.
    + split; [apply sim_local_step; simpl; try done; lia|]. repeat econstructor.
  - exists q. split; [apply sim_local_step; simpl; try done|repeat econstructor].
    repeat split; try lia. destruct (decide (old_head < wsq_head (sh c))); [by left|].
    right. rewrite sim_slots0; [done|lia].
  - destruct Hloc as (Hoh & Hlt & Htask). case_match; simplify_eq; bool_hyps.
    + rewrite u64_id by lia.
      assert (q = task :: drop (Z.to_nat (old_head + 1)) (pushed tr)) as Hq.
      { unfold q. rewrite drop_zget by lia. destruct Htask; [lia|]. congruence. }
      eexists. split; [apply sim_take; simpl; done || lia|].
      rewrite Hq. replace (old_head + 1 - _) with 1 by lia. split; repeat econstructor.
    + exists q. split; [apply sim_local_step; simpl; try done; lia|]. repeat econstructor.
Qed.

Lemma sim_SizeEstimate tr c q t l' s' es :
  wsq_sim tr c q -> wsq_SizeEstimate (lo c t) (sh c) = Some (l', s', es) ->
  exists q', wsq_sim (tr ++ map (pair t) es) (Cfg s' (<[t := l']> (lo c))) q' /\
    legal (fifo_spec Capacity) q (lin_ops es) q' /\
    status_steps (wsq_status (lo c t)) es (wsq_status l').
Proof.
  intros Hsim Hst. sim_open t Hsim q. unfold wsq_SizeEstimate in Hst. exists q.
  destruct (lo c t) eqn:El; simplify_eq; cbn [wsq_local wsq_status] in *.
  - split; [apply sim_local_step; simpl; try done; lia|]. repeat econstructor.
  - split; [by apply sim_local_step|]. repeat econstructor.
    rewrite u64_id by lia. unfold q. rewrite zlen_drop; lia.
Qed.

Lemma copied_snoc P h base n out v :
  0 <= n < zlen out -> copied P h base n out ->
  base + n < h \/ zget P (base + n) = v -> copied P h base (n + 1) (zset out n v).
Proof.
  intros Hn Hc Hv j Hj. destruct (decide (j = n)) as [->|].
  - rewrite zget_zset_eq by lia. done.
  - rewrite zget_zset_ne by lia. apply Hc. lia.
Qed.

Lemma grab_loop_local P h buf t size mg nh oh out :
  0 <= size < 2^64 -> 0 <= oh <= h -> nh <= zlen P -> mg <= size -> zlen out = size ->
  (oh < nh -> 0 <= nh - mg <= oh /\ copied P h (nh - mg) mg out) ->
  wsq_local P h buf t (grab_loop size mg nh oh out).
Proof.
  intros Hs Ho Hn Hm Hl Hc. unfold grab_loop. destruct (oh <? nh) eqn:E; bool_hyps; simpl; [|lia].
  destruct (Hc E) as [Hb Hcp]. repeat split; try lia. done.
Qed.

Lemma grab_loop_status size mg nh oh out :
  wsq_status (grab_loop size mg nh oh out) = Pending (IGrab size).
Proof. unfold grab_loop. by case_match. Qed.

Lemma sim_Grab tr c q t l' s' es :
  wsq_sim tr c q -> wsq_Grab Capacity (lo c t) (sh c) = Some (l', s', es) ->
  exists q', wsq_sim (tr ++ map (pair t) es) (Cfg s' (<[t := l']> (lo c))) q' /\
    legal (fifo_spec Capacity) q (lin_ops es) q' /\
    status_steps (wsq_status (lo c t)) es (wsq_status l').
Proof.
  intros Hsim Hst. sim_open t Hsim q. unfold wsq_Grab in Hst.
  destruct (lo c t) eqn:El; simplify_eq; cbn [wsq_local wsq_status] in *.
  - exists q. split; [apply sim_local_step; simpl; try done; lia|]. repeat econstructor.
  - exists q. case_match; simplify_eq; bool_hyps.
    + split; [by apply sim_local_step|]. repeat econstructor.
      apply (fifo_grab _ _ []). rewrite zlen_nil. lia.
    + split; [apply sim_local_step; [done..|]|repeat econstructor].
      pose proof (u64_range (new_head - wsq_head (sh c))).
      pose proof (u64_range (wsq_head (sh c) + Z.min size (u64 (new_head - wsq_head (sh c))))).
      simpl. repeat split; try lia.
      * unfold zlen. rewrite length_replicate. lia.
      * destruct (decide (new_head <= wsq_head (sh c))); [left; lia|right].
        rewrite (u64_id (new_head - _)) in * by lia. rewrite u64_id in * by lia.
        split; [lia|]. intros j Hj. lia.
  - destruct Hloc as (Hsz & Hoh & Hnh & Hi & Hmg & Hout & Hcp). exists q.
    assert (new_head <= old_head \/ max_grab = new_head - old_head /\
      copied (pushed tr) (wsq_head (sh c)) old_head (i + 1)
        (zset out i (slot_load Capacity (wsq_buffer (sh c)) (u64 (old_head + i))))) as Hcp'.
    { destruct Hcp as [|[-> Hcp]]; [lia|]. right. split; [done|].
      apply copied_snoc; [lia|done|]. rewrite u64_id by lia.
      destruct (decide (old_head + i < wsq_head (sh c))); [by left|].
      right. symmetry. apply sim_slots0. lia. }
    case_match; simplify_eq; bool_hyps.
    + split; [apply sim_local_step; [done..|]|repeat econstructor].
      simpl. rewrite zlen_zset. repeat split; try lia. done.
    + split; [apply sim_local_step; [done..|]|rewrite grab_loop_status; repeat econstructor].
      apply grab_loop_local; rewrite ?zlen_zset; try lia.
      intros Hlt. destruct Hcp' as [|[-> Hcp']]; [lia|].
      replace (i + 1) with (new_head - old_head) in Hcp' by lia.
      replace (new_head - (new_head - old_head)) with old_head by lia. split; [lia|done].
  - destruct Hloc as (Hsz & Hoh & Hnh & Hmg & Hout & Hb & Hcp). case_match; simplify_eq; bool_hyps.
    + rewrite u64_id by lia. erewrite grab_result; [|..|exact Hcp]; [|lia..].
      eexists. split; [apply sim_take; simpl; done || lia|]. split; [|repeat econstructor].
      econstructor; [|constructor]. subst old_head. fold q.
      rewrite <- (take_drop (Z.to_nat (new_head - wsq_head (sh c))) q) at 1.
      apply fifo_grab. unfold q. rewrite zlen_take; rewrite ?zlen_drop; lia.
    + exists q. split; [apply sim_local_step; [done..|]|rewrite grab_loop_status; repeat econstructor].
      apply grab_loop_local; try lia. intros Hlt. split; [lia|done].
Qed.

Lemma sim_step tr c q t a c' es :
  wsq_sim tr c q -> cstep (wsq_step Capacity owner) t a c = Some (c', es) ->
  few_pushes (tr ++ map (pair t) es) ->
  exists q', wsq_sim (tr ++ map (pair t) es) c' q' /\
    legal (fifo_spec Capacity) q (lin_ops es) q' /\
    status_steps (wsq_status (lo c t)) es (wsq_status (lo c' t)).
Proof.
  intros Hsim (l' & s' & Hst & ->)%cstep_inv Hok. simpl lo. rewrite fn_lookup_insert.
  destruct a as [i|].
  - destruct (lo c t) eqn:El; try discriminate Hst. simpl in Hst.
    destruct (wsq_call owner t i) as [pc|] eqn:Ec; simpl in Hst; simplify_eq.
    exists q. split.
    + apply sim_local_step; [done..|]. unfold wsq_call in Ec.
      repeat case_match; simplify_eq; bool_hyps; simpl; done.
    + unfold wsq_call in Ec. repeat case_match; simplify_eq; repeat econstructor.
  - unfold wsq_step in Hst. destruct (lo c t) eqn:El; try discriminate Hst;
      try (rewrite <- El in Hst |- *; first [by eapply sim_TryPush|by eapply sim_TryPop|by eapply sim_Grab|by eapply sim_SizeEstimate]).
    simplify_eq. exists q. split; [by apply sim_local_step|]. repeat econstructor.
Qed.

Lemma sim_init : wsq_sim [] (wsq_init Capacity) [].
Proof.
  constructor; simpl; unfold pushed; simpl; rewrite ?zlen_nil; try (lia || done).
  - unfold zlen. rewrite length_replicate. lia.
  - intros i Hi. unfold zlen in Hi. simpl in Hi. lia.
Qed.

#[export] Instance wsq_lin_points :
  LinPoints (wsq_step Capacity owner) (fifo_spec Capacity) (wsq_init Capacity) few_pushes.
Proof.
  refine (@Build_LinPoints _ _ _ _ _ (wsq_step Capacity owner) (fifo_spec Capacity)
    (wsq_init Capacity) few_pushes wsq_status wsq_sim _ _ _ sim_step); try done.
  - intros tr tr'. unfold few_pushes, pushed.
    rewrite map_app, lin_ops_app, flat_map_app, zlen_app.
    pose proof (zlen_nonneg (flat_map push_of (lin_ops (map snd tr')))). lia.
  - apply sim_init.
Defined.

(** C3: Every concurrent history of the work-stealing queue, with one
    producer and any number of consumers interleaved at the level of single
    atomic accesses, is linearizable with respect to a FIFO queue bounded by
    [Capacity]: no task is lost, duplicated or reordered, [TryPush] fails only
    when the queue holds [Capacity] tasks, and [TryPop] returns [nullptr] only
    when it is empty.  (Fewer than [2^64] pushes, so that the counters do not
    wrap.) *)
Theorem wsq_linearizable tr c :
  steps (wsq_step Capacity owner) (wsq_init Capacity) tr c -> few_pushes tr ->
  linearizable (fifo_spec Capacity) (history tr).
Proof. apply (lin_points_sound wsq_lin_points). Qed.

(** C4: The queue never holds more than [Capacity] tasks and the counters
    never cross, in every reachable state. *)
Theorem wsq_bounded tr c :
  steps (wsq_step Capacity owner) (wsq_init Capacity) tr c -> few_pushes tr ->
  wsq_head (sh c) <= wsq_tail (sh c) <= wsq_head (sh c) + Capacity.
Proof.
  intros Hs Hok. destruct (lin_points_steps wsq_lin_points _ _ Hs Hok) as (q & [] & _). lia.
Qed.
End wsq_proof.

(** ** Witnesses *)

(** Two pushes by the owner, a steal of one task interleaved with a pop: the
    thief's exchange fails because the owner's pop moved the head, and the
    thief retries with the rest of what it had copied. *)
Definition wsq_demo_schedule : list (tid * wsq_act) :=
  [(0, ACall (ITryPush 11)); (0, AGo); (0, AGo); (0, AGo); (0, AGo); (0, AGo);
   (0, ACall (ITryPush 22)); (0, AGo); (0, AGo); (0, AGo); (0, AGo); (0, AGo);
   (1, ACall (IGrab 2)); (1, AGo); (1, AGo); (1, AGo); (1, AGo);
   (0, ACall ITryPop); (0, AGo); (0, AGo); (0, AGo); (0, AGo);
   (1, AGo); (1, AGo); (1, AGo); (0, AGo)]%nat.

Definition wsq_demo := run (wsq_step 7 0) wsq_demo_schedule (wsq_init 7).

Lemma wsq_demo_results :
  (fun '(_, tr) => history tr) <$> wsq_demo =
  Some [(0, Inv (ITryPush 11)); (0, Ret (RBool true));
        (0, Inv (ITryPush 22)); (0, Ret (RBool true));
        (1, Inv (IGrab 2)); (0, Inv ITryPop);
        (1, Ret (RGrab [22%Z])); (0, Ret (RTask 11))]%nat.
Proof. vm_compute. reflexivity. Qed.

Lemma wsq_linearizable_witness :
  exists c tr, wsq_demo = Some (c, tr) /\ linearizable (fifo_spec 7) (history tr).
Proof.
  destruct wsq_demo as [[c tr]|] eqn:E; [|exfalso; vm_compute in E; discriminate E].
  exists c, tr. split; [done|].
  apply (wsq_linearizable 7 0 ltac:(lia) tr c).
  - exact (run_steps0 _ _ _ _ _ E).
  - vm_compute in E. injection E as <- <-. vm_compute. reflexivity.
Defined.

Lemma wsq_bounded_witness :
  exists c tr, wsq_demo = Some (c, tr) /\
    wsq_head (sh c) <= wsq_tail (sh c) <= wsq_head (sh c) + 7.
Proof.
  destruct wsq_demo as [[c tr]|] eqn:E; [|exfalso; vm_compute in E; discriminate E].
  exists c, tr. split; [done|].
  apply (wsq_bounded 7 0 ltac:(lia) tr c).
  - exact (run_steps0 _ _ _ _ _ E).
  - vm_compute in E. injection E as <- <-. vm_compute. reflexivity.
Defined.
