(* ===== verification/StampedPtr.v ===== *)
(** Stamped pointers: src/src/exe/util/stamped_ptr.hpp.

    A 48-bit pointer and a 16-bit stamp share one 64-bit word, so that both
    can be exchanged atomically.  The packing is modelled bit by bit; the
    theorems say which (pointer, stamp) pairs survive it and what a
    compare-exchange on the packed word compares.  [AtomicStampedPtr] is then
    proved linearizable as a register of pairs with 16-bit stamps. *)

From S2P Require Import Prelude Conc.
Local Open Scope Z_scope.

(** [raw_ptr] is an address (a 64-bit word), [stamp] a [uint64_t]. *)
Record StampedPtr := mkStamped { raw_ptr : Z; stamp : Z }.
#[export] Instance StampedPtr_eq_dec : EqDecision StampedPtr.
Proof. solve_decision. Defined.

Definition sp_IncrementStamp (p : StampedPtr) : StampedPtr :=
  mkStamped (raw_ptr p) (u64 (stamp p + 1)).

(** [assert(stamp > 0)]: [None] when it fails. *)
Definition sp_DecrementStamp (p : StampedPtr) : option StampedPtr :=
  if 0 <? stamp p then Some (mkStamped (raw_ptr p) (u64 (stamp p - 1))) else None.

Definition sp_bool (p : StampedPtr) : bool := negb (raw_ptr p =? 0).

Definition sp_eqb (lhs rhs : StampedPtr) : bool :=
  (raw_ptr lhs =? raw_ptr rhs) && (stamp lhs =? stamp rhs).

(** ** [detail::Packer] *)

Definition kFreeBits : Z := 16.
Definition kFreeBitsShift : Z := 64 - kFreeBits.
Definition kFreeBitsMask : Z := u64 (Z.shiftl (Z.shiftl 1 kFreeBits - 1) kFreeBitsShift).
Definition kMaxStamp : Z := Z.shiftl 1 kFreeBits - 1.

(** [~m] at width 64. *)
Definition not64 (m : Z) : Z := 2^64 - 1 - m.

Definition GetBit (mask index : Z) : Z := Z.land (Z.shiftr mask index) 1.
Definition SetFreeBits (mask : Z) : Z := Z.lor mask kFreeBitsMask.
Definition ClearFreeBits (mask : Z) : Z := Z.land mask (not64 kFreeBitsMask).

Definition ToCanonicalForm (ptr : Z) : Z :=
  if negb (GetBit ptr 47 =? 0) then SetFreeBits ptr else ClearFreeBits ptr.

Definition GetStamp (packed_ptr : Z) : Z := Z.shiftr packed_ptr kFreeBitsShift.
Definition GetRawPointer (packed_ptr : Z) : Z := ToCanonicalForm packed_ptr.

Definition Pack (p : StampedPtr) : Z :=
  Z.lor (ClearFreeBits (raw_ptr p)) (u64 (Z.shiftl (stamp p) kFreeBitsShift)).

Definition Unpack (packed_ptr : Z) : StampedPtr :=
  mkStamped (GetRawPointer packed_ptr) (GetStamp packed_ptr).

(** ** [AtomicStampedPtr]: operations on the packed word

    Each is one access to [packed_ptr_]; [spurious] resolves a weak
    compare-exchange.  The second component is the new word. *)

Definition asp_Store (ptr : StampedPtr) (w : Z) : Z := Pack ptr.
Definition asp_Load (w : Z) : StampedPtr := Unpack w.
Definition asp_Exchange (target : StampedPtr) (w : Z) : StampedPtr * Z :=
  (Unpack w, Pack target).

(** Success flag, [expected] after the call, new word. *)
Definition asp_CompareExchangeWeakImpl (spurious : bool) (expected desired : StampedPtr) (w : Z)
  : bool * StampedPtr * Z :=
  let expected_packed := Pack expected in
  if (w =? expected_packed) && negb spurious
  then (true, expected, Pack desired)
  else (false, Unpack w, w).

(** Which pointers survive packing: the addresses in canonical form. *)
Definition word64 (w : Z) : Prop := 0 <= w < 2^64.
Definition canonical (p : Z) : Prop := 0 <= p < 2 ^ 47 \/ 2^64 - 2 ^ 47 <= p < 2^64.

(** ** Arithmetic form of the bit operations *)

Lemma lor_disjoint a b n : 0 <= n -> 0 <= a < 2 ^ n -> Z.lor a (b * 2 ^ n) = a + b * 2 ^ n.
Proof.
  intros Hn Ha. rewrite <- Z.shiftl_mul_pow2 by lia.
  symmetry. rewrite Z.add_nocarry_lxor; [apply Z.lxor_lor|];
    apply Z.bits_inj'; intros k Hk;
    rewrite Z.land_spec, Z.shiftl_spec, Z.bits_0 by lia;
    (destruct (Z.lt_ge_cases k n);
     [rewrite (Z.testbit_neg_r _ (k - n)) by lia; by rewrite andb_false_r
     |rewrite <- (Z.mod_small a (2 ^ n)), Z.mod_pow2_bits_high by lia; done]).
Qed.

Lemma ClearFreeBits_spec w : word64 w -> ClearFreeBits w = w mod 2 ^ 48.
Proof.
  intros _. unfold ClearFreeBits. change (not64 kFreeBitsMask) with (Z.ones 48).
  by rewrite Z.land_ones.
Qed.

Lemma SetFreeBits_spec w : word64 w -> SetFreeBits w = w mod 2 ^ 48 + 65535 * 2 ^ 48.
Proof.
  unfold word64. intros Hw. unfold SetFreeBits. change kFreeBitsMask with (65535 * 2 ^ 48).
  rewrite <- lor_disjoint by (pose proof (Z.mod_pos_bound w (2 ^ 48)); lia).
  rewrite (Z.div_mod w (2 ^ 48)) at 1 by lia.
  rewrite (Z.add_comm (_ * _)), (Z.mul_comm (2 ^ 48)).
  rewrite <- lor_disjoint by (pose proof (Z.mod_pos_bound w (2 ^ 48)); lia).
  rewrite <- Z.lor_assoc, <- !Z.shiftl_mul_pow2, <- Z.shiftl_lor by lia. do 2 f_equal.
  apply Z.bits_inj'. intros k Hk. rewrite Z.lor_spec.
  change 65535 with (Z.ones 16). destruct (Z.lt_ge_cases k 16).
  - rewrite Z.ones_spec_low by lia. apply orb_true_r.
  - rewrite Z.ones_spec_high by lia. rewrite orb_false_r.
    rewrite <- (Z.mod_small (w / 2 ^ 48) (2 ^ 16)) by (split; [apply Z.div_pos|apply Z.div_lt_upper_bound]; lia).
    by rewrite Z.mod_pow2_bits_high by lia.
Qed.

Lemma GetBit_spec w i : 0 <= i -> GetBit w i = (w / 2 ^ i) mod 2.
Proof.
  intros Hi. unfold GetBit. rewrite Z.shiftr_div_pow2 by lia.
  change 1 with (Z.ones 1). by rewrite Z.land_ones.
Qed.

Lemma GetStamp_spec w : GetStamp w = w / 2 ^ 48.
Proof. unfold GetStamp. by rewrite Z.shiftr_div_pow2. Qed.

Lemma shifted_stamp s : u64 (Z.shiftl s kFreeBitsShift) = (s mod 2 ^ 16) * 2 ^ 48.
Proof.
  rewrite u64_unfold. change kFreeBitsShift with 48. rewrite Z.shiftl_mul_pow2 by lia.
  change 2^64 with (2 ^ 16 * 2 ^ 48). by rewrite Zmult_mod_distr_r.
Qed.

Lemma Pack_spec p :
  word64 (raw_ptr p) -> Pack p = raw_ptr p mod 2 ^ 48 + (stamp p mod 2 ^ 16) * 2 ^ 48.
Proof.
  intros Hw. unfold Pack. rewrite ClearFreeBits_spec, shifted_stamp by done.
  apply lor_disjoint; [lia|]. apply Z.mod_pos_bound. lia.
Qed.

Lemma ToCanonicalForm_spec w :
  word64 w ->
  ToCanonicalForm w =
    if decide (w mod 2 ^ 48 < 2 ^ 47) then w mod 2 ^ 48 else w mod 2 ^ 48 + 65535 * 2 ^ 48.
Proof.
  intros Hw. unfold ToCanonicalForm. rewrite GetBit_spec by lia. unfold word64 in Hw.
  destruct ((w / 2 ^ 47) mod 2 =? 0) eqn:E; bool_hyps; simpl.
  - rewrite ClearFreeBits_spec by done. rewrite decide_True; [done|].
    change (2 ^ 48) with 281474976710656. change (2 ^ 47) with 140737488355328 in *.
    Z.to_euclidean_division_equations; lia.
  - rewrite SetFreeBits_spec by done. rewrite decide_False; [done|].
    change (2 ^ 48) with 281474976710656. change (2 ^ 47) with 140737488355328 in *.
    Z.to_euclidean_division_equations; lia.
Qed.

(** The pair as the packed word keeps it. *)
Definition sp_norm (p : StampedPtr) : StampedPtr :=
  mkStamped (raw_ptr p) (stamp p mod 2 ^ 16).

Lemma canonical_word p : canonical p -> word64 p.
Proof. unfold canonical, word64. lia. Qed.

Lemma Pack_word p : word64 (raw_ptr p) -> word64 (Pack p).
Proof.
  intros Hw. rewrite Pack_spec by done. unfold word64.
  pose proof (Z.mod_pos_bound (raw_ptr p) (2 ^ 48)).
  pose proof (Z.mod_pos_bound (stamp p) (2 ^ 16)). lia.
Qed.

Lemma packed_parts a s :
  0 <= a < 2 ^ 48 -> (a + s * 2 ^ 48) mod 2 ^ 48 = a /\ (a + s * 2 ^ 48) / 2 ^ 48 = s.
Proof.
  intros Ha. rewrite Z_mod_plus_full, Z.div_add by lia.
  rewrite Z.mod_small, Z.div_small by done. lia.
Qed.

Lemma Unpack_Pack p : canonical (raw_ptr p) -> Unpack (Pack p) = sp_norm p.
Proof.
  intros Hc. pose proof (canonical_word _ Hc) as Hw.
  unfold Unpack, GetRawPointer. rewrite ToCanonicalForm_spec by (by apply Pack_word).
  rewrite GetStamp_spec, Pack_spec by done.
  destruct (packed_parts (raw_ptr p mod 2 ^ 48) (stamp p mod 2 ^ 16)) as [-> ->];
    [apply Z.mod_pos_bound; lia|].
  unfold sp_norm. f_equal. unfold canonical in Hc.
  change (2 ^ 48) with 281474976710656. change (2 ^ 47) with 140737488355328 in *.
  case_decide; Z.to_euclidean_division_equations; lia.
Qed.

Lemma Pack_Unpack w : word64 w -> Pack (Unpack w) = w.
Proof.
  intros Hw. rewrite Pack_spec; simpl; unfold GetRawPointer; rewrite ?GetStamp_spec.
  - rewrite ToCanonicalForm_spec by done. unfold word64 in Hw.
    change (2 ^ 48) with 281474976710656. change (2 ^ 47) with 140737488355328.
    change (2 ^ 16) with 65536.
    case_decide; Z.to_euclidean_division_equations; lia.
  - rewrite ToCanonicalForm_spec by done. unfold word64 in *.
    pose proof (Z.mod_pos_bound w (2 ^ 48)). case_decide; lia.
Qed.

Lemma Unpack_canonical w : word64 w -> canonical (raw_ptr (Unpack w)).
Proof.
  intros Hw. simpl. unfold GetRawPointer. rewrite ToCanonicalForm_spec by done.
  pose proof (Z.mod_pos_bound w (2 ^ 48)). unfold canonical. case_decide; lia.
Qed.

Lemma Unpack_stamp w : word64 w -> 0 <= stamp (Unpack w) < 2 ^ 16.
Proof.
  unfold word64. intros Hw. simpl. rewrite GetStamp_spec.
  change (2 ^ 48) with 281474976710656. change (2 ^ 16) with 65536.
  Z.to_euclidean_division_equations; lia.
Qed.

Lemma sp_norm_Unpack w : word64 w -> sp_norm (Unpack w) = Unpack w.
Proof.
  intros Hw. pose proof (Unpack_stamp w Hw). destruct (Unpack w) as [r s]. unfold sp_norm.
  simpl in *. by rewrite Z.mod_small.
Qed.

Lemma word_eq_Pack w p :
  word64 w -> canonical (raw_ptr p) -> w = Pack p <-> Unpack w = sp_norm p.
Proof.
  intros Hw Hc. split; [intros ->; by apply Unpack_Pack|]. intros Heq.
  rewrite <- (Pack_Unpack w), Heq by done.
  rewrite !Pack_spec by (by apply canonical_word). simpl. by rewrite Zmod_mod.
Qed.

(** Unpacking a packed pair gives back the pointer, for every canonical
    address, and the stamp modulo [2^16]; packing an unpacked word gives back
    the word. *)
Theorem stamped_ptr_roundtrip p w :
  canonical (raw_ptr p) -> word64 w ->
  Unpack (Pack p) = mkStamped (raw_ptr p) (stamp p mod (kMaxStamp + 1)) /\
  Pack (Unpack w) = w.
Proof. intros Hc Hw. split; [by apply Unpack_Pack|by apply Pack_Unpack]. Qed.

Lemma stamped_ptr_roundtrip_witness :
  Unpack (Pack (mkStamped 0xffff800000001230 70000)) = mkStamped 0xffff800000001230 4464 /\
  Pack (Unpack 0xbeef7fffdeadbee0) = 0xbeef7fffdeadbee0.
Proof.
  apply (stamped_ptr_roundtrip (mkStamped 0xffff800000001230 70000) 0xbeef7fffdeadbee0);
    unfold canonical, word64; simpl; lia.
Defined.

(** What the compare-exchange of [AtomicStampedPtr] compares: two pairs of
    canonical pointers have the same packed word exactly when the pointers are
    equal and the stamps agree modulo [2^16].  A stamp protects against ABA
    for at most 65535 updates. *)
Theorem stamped_ptr_pack_eq p q :
  canonical (raw_ptr p) -> canonical (raw_ptr q) ->
  Pack p = Pack q <-> raw_ptr p = raw_ptr q /\ stamp p mod 2 ^ 16 = stamp q mod 2 ^ 16.
Proof.
  intros Hp Hq. rewrite word_eq_Pack by (done || by apply Pack_word, canonical_word).
  rewrite Unpack_Pack by done. unfold sp_norm. split; [naive_solver|]. intros [-> ->]. done.
Qed.

Lemma stamped_ptr_pack_eq_witness :
  Pack (mkStamped 0x7f0012345678 3) = Pack (mkStamped 0x7f0012345678 65539).
Proof.
  apply (stamped_ptr_pack_eq (mkStamped 0x7f0012345678 3) (mkStamped 0x7f0012345678 65539));
    unfold canonical; simpl; lia || done.
Defined.

(** ** The atomic register *)

Inductive asp_inv :=
| IStore (ptr : StampedPtr)
| ILoad
| IExchange (target : StampedPtr)
| ICompareExchangeWeak (expected desired : StampedPtr)
| IFetchIncrement.

Inductive asp_res :=
| RUnit
| RPtr (p : StampedPtr)
| RCas (succeeded : bool) (expected : StampedPtr).

(** [FetchIncrement] loads and then retries the exchange; every other
    operation is one access. *)
Inductive asp_pc :=
| PIdle
| POne (i : asp_inv)
| PFetchIncrement_load
| PFetchIncrement_cas (old : StampedPtr)
| PRet (i : asp_inv) (r : asp_res).

Inductive asp_act := PCall (i : asp_inv) | PGo (spurious : bool).

Definition asp_one (spurious : bool) (i : asp_inv) (w : Z) : asp_res * Z :=
  match i with
  | IStore ptr => (RUnit, asp_Store ptr w)
  | ILoad => (RPtr (asp_Load w), w)
  | IExchange target => let '(r, w') := asp_Exchange target w in (RPtr r, w')
  | ICompareExchangeWeak e d =>
      let '(ok, e', w') := asp_CompareExchangeWeakImpl spurious e d w in (RCas ok e', w')
  | IFetchIncrement => (RUnit, w)
  end.

Definition asp_FetchIncrement (spurious : bool) (l : asp_pc) (w : Z)
  : option (asp_pc * Z * list (event asp_inv asp_res)) :=
  match l with
  | PFetchIncrement_load => Some (PFetchIncrement_cas (asp_Load w), w, [])
  | PFetchIncrement_cas old =>
      match asp_CompareExchangeWeakImpl spurious old (sp_IncrementStamp old) w with
      | (true, old', w') =>
          Some (PRet IFetchIncrement (RPtr old'), w', [Lin IFetchIncrement (RPtr old')])
      | (false, old', w') => Some (PFetchIncrement_cas old', w', [])
      end
  | _ => None
  end.

(** Pointers given to the register are real addresses. *)
Definition canonicalb (p : Z) : bool :=
  (0 <=? p) && (p <? 2 ^ 47) || (2^64 - 2 ^ 47 <=? p) && (p <? 2^64).

Definition asp_args_ok (i : asp_inv) : bool :=
  match i with
  | IStore p | IExchange p => canonicalb (raw_ptr p)
  | ICompareExchangeWeak e d => canonicalb (raw_ptr e) && canonicalb (raw_ptr d)
  | _ => true
  end.

Definition asp_step (t : tid) (a : asp_act) (l : asp_pc) (w : Z)
  : option (asp_pc * Z * list (event asp_inv asp_res)) :=
  match a, l with
  | PCall i, PIdle =>
      if asp_args_ok i then
        Some (match i with IFetchIncrement => PFetchIncrement_load | _ => POne i end, w, [Inv i])
      else None
  | PGo _, PRet i r => Some (PIdle, w, [Ret r])
  | PGo spurious, POne i =>
      let '(r, w') := asp_one spurious i w in Some (PRet i r, w', [Lin i r])
  | PGo spurious, _ => asp_FetchIncrement spurious l w
  | _, _ => None
  end.

Definition asp_init (p : StampedPtr) : config Z asp_pc := Cfg (Pack p) (fun _ => PIdle).

(** The specification: a register of pairs whose stamp has 16 bits. *)
Inductive register_step : StampedPtr -> asp_inv -> asp_res -> StampedPtr -> Prop :=
| reg_store s p : register_step s (IStore p) RUnit (sp_norm p)
| reg_load s : register_step s ILoad (RPtr s) s
| reg_exchange s p : register_step s (IExchange p) (RPtr s) (sp_norm p)
| reg_cas_ok s e d : s = sp_norm e ->
    register_step s (ICompareExchangeWeak e d) (RCas true e) (sp_norm d)
| reg_cas_fail s e d : register_step s (ICompareExchangeWeak e d) (RCas false s) s
| reg_fetch_increment s :
    register_step s IFetchIncrement (RPtr s) (sp_norm (sp_IncrementStamp s)).

Definition register_spec (p : StampedPtr) : seq_spec asp_inv asp_res :=
  {| ss_state := StampedPtr; ss_init := sp_norm p; ss_step := register_step |}.

Definition asp_status (l : asp_pc) : status asp_inv asp_res :=
  match l with
  | PIdle => Idle
  | POne i => Pending i
  | PFetchIncrement_load | PFetchIncrement_cas _ => Pending IFetchIncrement
  | PRet i r => Committed i r
  end.

Definition asp_local (l : asp_pc) : Prop :=
  match l with
  | POne i => asp_args_ok i = true /\ i <> IFetchIncrement
  | PFetchIncrement_cas old => canonical (raw_ptr old) /\ sp_norm old = old
  | _ => True
  end.

Definition asp_sim (c : config Z asp_pc) (s : StampedPtr) : Prop :=
  word64 (sh c) /\ s = Unpack (sh c) /\ forall t, asp_local (lo c t).

Lemma canonicalb_spec p : canonicalb p = true <-> canonical p.
Proof. unfold canonicalb, canonical. lia. Qed.

Lemma cas_cases spurious e d w :
  word64 w -> canonical (raw_ptr e) ->
  asp_CompareExchangeWeakImpl spurious e d w = (true, e, Pack d) /\ Unpack w = sp_norm e \/
  asp_CompareExchangeWeakImpl spurious e d w = (false, Unpack w, w).
Proof.
  intros Hw Hc. unfold asp_CompareExchangeWeakImpl.
  destruct ((w =? Pack e) && negb spurious) eqn:E; bool_hyps; [|by right].
  left. split; [done|]. by apply word_eq_Pack.
Qed.

Lemma asp_one_spec spurious i w r w' :
  word64 w -> asp_args_ok i = true -> i <> IFetchIncrement ->
  asp_one spurious i w = (r, w') ->
  word64 w' /\ register_step (Unpack w) i r (Unpack w').
Proof.
  intros Hw Hok Hi Hs. destruct i as [p| |p|e d|]; simpl in *; simplify_eq;
    try rewrite ?andb_true_iff, ?canonicalb_spec in Hok; unfold asp_Store, asp_Load.
  - rewrite Unpack_Pack by done. split; [by apply Pack_word, canonical_word|constructor].
  - split; [done|constructor].
  - rewrite Unpack_Pack by done. split; [by apply Pack_word, canonical_word|constructor].
  - destruct Hok as [He Hd].
    destruct (cas_cases spurious e d w) as [[E Heq]|E]; try done; rewrite E in Hs; simplify_eq.
    + rewrite Unpack_Pack by done. split; [by apply Pack_word, canonical_word|by constructor].
    + split; [done|constructor].
Qed.

Lemma asp_FetchIncrement_spec spurious l w l' w' es :
  word64 w -> asp_local l -> asp_FetchIncrement spurious l w = Some (l', w', es) ->
  word64 w' /\ asp_local l' /\ status_steps (asp_status l) es (asp_status l') /\
  forall p, legal (register_spec p) (Unpack w) (lin_ops es) (Unpack w').
Proof.
  intros Hw Hl Hs. destruct l as [| | |old|]; simpl in *; simplify_eq.
  - split; [done|]. split; [|split; repeat econstructor].
    split; [by apply Unpack_canonical|by apply sp_norm_Unpack].
  - destruct Hl as [Hc Hn].
    destruct (cas_cases spurious old (sp_IncrementStamp old) w) as [[E Heq]|E]; try done;
      rewrite E in Hs; simplify_eq.
    + split; [by apply Pack_word, canonical_word|]. split; [done|]. split; [repeat econstructor|].
      intros p. rewrite Unpack_Pack by done. rewrite Heq, Hn. repeat econstructor.
    + split; [done|]. split; [|split; repeat econstructor].
      split; [by apply Unpack_canonical|by apply sp_norm_Unpack].
Qed.

Lemma asp_sim_step p c s t a c' es :
  asp_sim c s -> cstep asp_step t a c = Some (c', es) ->
  exists s', asp_sim c' s' /\ legal (register_spec p) s (lin_ops es) s' /\
    status_steps (asp_status (lo c t)) es (asp_status (lo c' t)).
Proof.
  intros (Hw & -> & Hl) (l' & w' & Hst & ->)%cstep_inv. simpl lo. rewrite fn_lookup_insert.
  specialize (Hl t) as Hlt.
  assert (word64 w' /\ asp_local l' /\ status_steps (asp_status (lo c t)) es (asp_status l') /\
    legal (register_spec p) (Unpack (sh c)) (lin_ops es) (Unpack w')) as (Hw' & Hl' & Hst' & Hleg).
  { destruct a as [i|sp].
    - destruct (lo c t); simpl in Hst; simplify_eq. destruct (asp_args_ok i) eqn:Eok; simplify_eq.
      split; [done|]. destruct i; (split; [done|split; repeat econstructor]).
    - destruct (lo c t) as [|i| |old|] eqn:El; [done|..].
      + simpl in Hst. destruct (asp_one sp i (sh c)) as [r w''] eqn:E1. simplify_eq.
        destruct Hlt as [Ha Hi]. destruct (asp_one_spec _ _ _ _ _ Hw Ha Hi E1) as [? ?].
        split; [done|]. split; [done|split; repeat econstructor; done].
      + destruct (asp_FetchIncrement_spec sp _ _ _ _ _ Hw Hlt Hst) as (?&?&?&?); eauto.
      + destruct (asp_FetchIncrement_spec sp _ _ _ _ _ Hw Hlt Hst) as (?&?&?&?); eauto.
      + simpl in Hst. simplify_eq. split; [done|]. split; [done|split; repeat econstructor]. }
  exists (Unpack w'). split; [|done]. split; [done|]. split; [done|]. intros u. simpl.
  destruct (decide (u = t)) as [->|]; [by rewrite fn_lookup_insert|].
  by rewrite fn_lookup_insert_ne.
Qed.

#[export] Instance asp_lin_points p (Hp : canonical (raw_ptr p)) :
  LinPoints asp_step (register_spec p) (asp_init p) (fun _ => True).
Proof.
  refine (@Build_LinPoints _ _ _ _ _ asp_step (register_spec p) (asp_init p) (fun _ => True)
    asp_status (fun _ => asp_sim) _ _ _ _); try done.
  - split; [by apply Pack_word, canonical_word|]. split; [|done]. simpl. by rewrite Unpack_Pack.
  - eauto using asp_sim_step.
Defined.

(** [AtomicStampedPtr] is linearizable as an atomic register of
    (pointer, 16-bit stamp) pairs: loads, stores, exchanges, weak
    compare-exchanges and the [FetchIncrement] retry loop, in every
    interleaving of any number of threads and with any spurious failures. *)
Theorem stamped_ptr_linearizable p tr c :
  canonical (raw_ptr p) -> steps asp_step (asp_init p) tr c ->
  linearizable (register_spec p) (history tr).
Proof. intros Hp Hs. by apply (lin_points_sound (asp_lin_points p Hp) tr c). Qed.

Definition asp_demo := run asp_step
  [(0, PCall IFetchIncrement); (0, PGo false);
   (1, PCall (IStore (mkStamped 4096 65535))); (1, PGo false);
   (0, PGo false); (0, PGo true); (0, PGo false); (0, PGo false); (1, PGo false);
   (1, PCall ILoad); (1, PGo false); (1, PGo false)]%nat (asp_init (mkStamped 0 0)).

Lemma stamped_ptr_linearizable_witness :
  exists c tr, asp_demo = Some (c, tr) /\
    history tr = [(0, Inv IFetchIncrement); (1, Inv (IStore (mkStamped 4096 65535)));
      (0, Ret (RPtr (mkStamped 4096 65535))); (1, Ret RUnit);
      (1, Inv ILoad); (1, Ret (RPtr (mkStamped 4096 0)))]%nat /\
    linearizable (register_spec (mkStamped 0 0)) (history tr).
Proof.
  destruct asp_demo as [[c tr]|] eqn:E; [|exfalso; vm_compute in E; discriminate E].
  exists c, tr. split; [done|].
  pose proof (run_steps0 _ _ _ _ _ E) as Hs.
  split; [vm_compute in E; injection E as <- <-; vm_compute; reflexivity|].
  apply (stamped_ptr_linearizable (mkStamped 0 0) tr c); [unfold canonical; simpl; lia|done].
Defined.
