(* ===== verification/Result.v ===== *)
(** Fallible values: src/src/exe/result.

    [Result<T>] is [std::expected<T, std::error_code>]; an error code is a
    number.  The combinators are those of [std::expected], applied through the
    pipe operator. *)

From S2P Require Import Prelude.

Definition Error := Z.

Inductive Result (T : Type) :=
| Value (v : T)
| Unexpected (e : Error).
Arguments Value {T} _.
Arguments Unexpected {T} _.

Definition Status := Result unit.

Definition result_Ok {T} (value : T) : Result T := Value value.
Definition result_OkStatus : Status := Value tt.
Definition result_Err {T} (error : Error) : Result T := Unexpected error.

(** The function objects the pipe operator applies ([c.Pipe(r)]). *)
Definition result_Map {T U} (user : T -> U) (r : Result T) : Result U :=
  match r with Value v => Value (user v) | Unexpected e => Unexpected e end.

Definition result_AndThen {T U} (user : T -> Result U) (r : Result T) : Result U :=
  match r with Value v => user v | Unexpected e => Unexpected e end.

Definition result_OrElse {T} (user : Error -> Result T) (r : Result T) : Result T :=
  match r with Value v => Value v | Unexpected e => user e end.

Definition result_pipe {T C} (r : Result T) (c : Result T -> C) : C := c r.

Notation "r '||>' c" := (result_pipe r c) (at level 50, left associativity) : exe_scope.

(** [Result] with [Ok] and [AndThen] is a monad, [Map] is its functor
    action, [OrElse] is the dual bind on errors, and errors short-circuit
    every later [Map] and [AndThen]. *)
Theorem result_monad_laws {T U V} (r : Result T) (x : T) (e : Error)
    (f : T -> Result U) (g : U -> Result V) (m : T -> U) (h h' : Error -> Result T) :
  (result_Ok x ||> result_AndThen f = f x) /\
  (r ||> result_AndThen result_Ok = r) /\
  (r ||> result_AndThen f ||> result_AndThen g =
   r ||> result_AndThen (fun v => f v ||> result_AndThen g)) /\
  (r ||> result_Map m = r ||> result_AndThen (fun v => result_Ok (m v))) /\
  (result_Err e ||> result_OrElse h = h e) /\
  (r ||> result_OrElse result_Err = r) /\
  (r ||> result_OrElse h ||> result_OrElse h' =
   r ||> result_OrElse (fun e => h e ||> result_OrElse h')) /\
  (result_Err e ||> result_AndThen f ||> result_AndThen g = result_Err e) /\
  (result_Ok x ||> result_OrElse h = result_Ok x).
Proof. by destruct r. Qed.
