(* ===== verification/Future.v ===== *)
(** Lazy futures: src/src/exe/future.

    A future is a thunk; [Materialize] connects it with the continuation that
    consumes its value and yields a computation, and [Start] runs it.  The
    C++ templates are defunctionalised: every thunk, continuation and
    computation class of the source is a constructor carrying the fields of
    the class, and every method is a definition named after it.

    The machine below runs the method calls of many threads.  An activity is
    a call stack: the thread that called [Get] or [Detach], or a task that a
    scheduler runs.  [exec] executes the call on top of one stack; where a
    method performs two shared accesses in a row, the second one is a call of
    its own, so that other threads can run in between.  Objects whose address
    escapes live in a heap of cells, and every call records the cell that
    owns the object it runs on: a call on a deleted object crashes. *)

From S2P Require Import Prelude Result.

(** [sched::task::IScheduler*], by identity; [State] of
    future/model/state.hpp ([None] is a null scheduler). *)
Definition sched_id := nat.
Definition State := option sched_id.

(** Function objects: the user's, and the lambdas of the combinators that
    wrap one. *)
Inductive Fn :=
| UserFn (id : nat)
| AndThenFn (userfunc : Fn)
| OrElseFn (userfunc : Fn)
| AsTryFn.

(** Thunks, and the values that flow through futures: [VOk] and [VErr] are the
    two states of a [Result], [VCode] an [Error], [VThunk] a future used as a
    value. *)
Inductive Thunk :=
| Ready (value : Val)
| JustThunk
| SubmitThunk (scheduler : sched_id) (func : Fn)
| MapThunk (producer : Thunk) (func : Fn)
| MapOkThunk (producer : Thunk) (func : Fn)
| ViaThunk (producer : Thunk) (scheduler : sched_id)
| FlattenThunk (producer : Thunk)
| BothThunk (prod1 prod2 : Thunk)
| FirstThunk (prod1 prod2 : Thunk)
| ContractThunk (cont_state : nat)
| StartThunk (comp : nat)
| Box (producer : Thunk)
with Val :=
| VUnit
| VInt (z : Z)
| VCode (e : Error)
| VOk (v : Val)
| VErr (e : Error)
| VPair (a b : Val)
| VThunk (t : Thunk).

(** ** Constructors and combinators (make, combine, syntax) *)

Definition fut_Ready (value : Val) : Thunk := Ready value.
Definition fut_Value (v : Val) : Thunk := fut_Ready v.
Definition fut_Return (value : Val) : Thunk := fut_Ready value.
Definition fut_Ok (value : Val) : Thunk := fut_Ready (VOk value).
Definition fut_Err (e : Error) : Thunk := fut_Ready (VErr e).
Definition fut_Just : Thunk := JustThunk.
Definition fut_Submit (scheduler : sched_id) (user : Fn) : Thunk := SubmitThunk scheduler user.
Definition fut_Map (user : Fn) (future : Thunk) : Thunk := MapThunk future user.
Definition fut_MapOk (user : Fn) (future : Thunk) : Thunk := MapOkThunk future user.
Definition fut_Via (scheduler : sched_id) (future : Thunk) : Thunk := ViaThunk future scheduler.
Definition fut_Flatten (future : Thunk) : Thunk := FlattenThunk future.
Definition fut_FlatMap (user : Fn) (future : Thunk) : Thunk :=
  fut_Flatten (fut_Map user future).
Definition fut_AndThen (user : Fn) (future : Thunk) : Thunk :=
  fut_FlatMap (AndThenFn user) future.
Definition fut_OrElse (user : Fn) (future : Thunk) : Thunk :=
  fut_FlatMap (OrElseFn user) future.
Definition fut_AsTryFuture (f : Thunk) : Thunk := fut_Map AsTryFn f.
Definition fut_Box (f : Thunk) : Thunk := Box f.
Definition fut_Both (f1 f2 : Thunk) : Thunk := BothThunk f1 f2.
Definition fut_First (prod1 prod2 : Thunk) : Thunk := FirstThunk prod1 prod2.
Definition fut_pipe (f : Thunk) (c : Thunk -> Thunk) : Thunk := c f.

Notation "f '|>' c" := (fut_pipe f c) (at level 50, left associativity) : exe_scope.

(** ** Continuations and computations *)

Inductive Cont :=
| FuncDemand (get : nat)                       (** the lambda of [Get] *)
| DestructingDemand (addr : nat)
| MapContinuation (consumer : Cont) (func : Fn)
| MapOkContinuation (consumer : Cont) (func : Fn)
| ViaContinuation (consumer : Cont) (scheduler : sched_id)
| FlattenContinuation (consumer : Cont)
| InnerFlattenContinuation (consumer : Cont) (s : State)
| BothBinder (cont : nat) (first : bool)
| FirstBinder (cont : nat) (first : bool)
| StartContinuation (comp : nat)
| BoxConsumer (consumer : Cont).

Inductive Comp :=
| ReadyComputation (consumer : Cont) (value : Val)
| JustComputation (consumer : Cont)
| SubmitComputation (consumer : Cont) (scheduler : sched_id) (func : Fn)
| ContractComputation (consumer : Cont) (cont_state : nat)
| BothComputation (comp1 comp2 : Comp)
| FirstComputation (self : nat) (comp1 comp2 : Comp)
| StartComputationWithConsumer (consumer : Cont) (comp : nat)
| BoxComputation (computation : Comp).

(** Objects with an identity. *)
Inductive Cell :=
| GetFrame (res : option Val) (fired : Z)      (** the locals of [Get] *)
| SelfDestructingComputation
| BothContinuation (owner : nat) (a b : option Val) (consumer : Cont) (finished : Z)
| FirstContinuation (consumer : Cont) (finished : Z)
| StartComputation (ready : Z) (val : option Val) (s : State)
| ContractState (value : option Val) (callback : option (nat * Cont)) (state : Z).

(** Addresses are indices; a deleted object is [None] and its address is not
    used again. *)
Abbreviation Heap := (list (option Cell)).

Definition cell (h : Heap) (n : nat) : option Cell := mjoin (h !! n).
Definition new (c : Cell) (h : Heap) : nat * Heap := (length h, h ++ [Some c]).
Definition put (n : nat) (c : Cell) (h : Heap) : Heap := <[n := Some c]> h.
Definition free (n : nat) (h : Heap) : Heap := <[n := None]> h.

(** ** [Materialize] *)

Definition Ready_Materialize (value : Val) (c : Cont) : Comp := ReadyComputation c value.
Definition JustThunk_Materialize (consumer : Cont) : Comp := JustComputation consumer.
Definition SubmitThunk_Materialize (scheduler : sched_id) (func : Fn) (consumer : Cont) : Comp :=
  SubmitComputation consumer scheduler func.
Definition ContractThunk_Materialize (cont_state : nat) (consumer : Cont) : Comp :=
  ContractComputation consumer cont_state.
Definition StartThunk_Materialize (comp : nat) (consumer : Cont) : Comp :=
  StartComputationWithConsumer consumer comp.

(** In these the producer's own [Materialize] is the argument [producer].  A
    computation object is built inside the object [owner]. *)
Abbreviation materializer := (nat -> Cont -> Heap -> Comp * Heap).

Definition MapThunk_Materialize (producer : materializer) (func : Fn) : materializer :=
  fun owner consumer h => producer owner (MapContinuation consumer func) h.

Definition MapOkThunk_Materialize (producer : materializer) (func : Fn) : materializer :=
  fun owner consumer h => producer owner (MapOkContinuation consumer func) h.

Definition ViaThunk_Materialize (producer : materializer) (scheduler : sched_id) : materializer :=
  fun owner consumer h => producer owner (ViaContinuation consumer scheduler) h.

Definition FlattenThunk_Materialize (producer : materializer) : materializer :=
  fun owner consumer h => producer owner (FlattenContinuation consumer) h.

Definition Box_Materialize (producer : materializer) : materializer :=
  fun owner consumer h =>
    let '(c, h) := producer owner (BoxConsumer consumer) h in (BoxComputation c, h).

Definition BothThunk_Materialize (prod1 prod2 : materializer) : materializer :=
  fun owner consumer h =>
    let '(n, h) := new (BothContinuation owner None None consumer 0) h in
    let '(comp1, h) := prod1 owner (BothBinder n true) h in
    let '(comp2, h) := prod2 owner (BothBinder n false) h in
    (BothComputation comp1 comp2, h).

(** [new FirstComputation]: the consumer and both computations are members of
    the new object. *)
Definition FirstThunk_Materialize (prod1 prod2 : materializer) : materializer :=
  fun owner consumer h =>
    let '(n, h) := new (FirstContinuation consumer 0) h in
    let '(comp1, h) := prod1 n (FirstBinder n true) h in
    let '(comp2, h) := prod2 n (FirstBinder n false) h in
    (FirstComputation n comp1 comp2, h).

Fixpoint Materialize (t : Thunk) : materializer :=
  match t with
  | Ready v => fun _ k h => (Ready_Materialize v k, h)
  | JustThunk => fun _ k h => (JustThunk_Materialize k, h)
  | SubmitThunk s f => fun _ k h => (SubmitThunk_Materialize s f k, h)
  | MapThunk p f => MapThunk_Materialize (Materialize p) f
  | MapOkThunk p f => MapOkThunk_Materialize (Materialize p) f
  | ViaThunk p s => ViaThunk_Materialize (Materialize p) s
  | FlattenThunk p => FlattenThunk_Materialize (Materialize p)
  | BothThunk p1 p2 => BothThunk_Materialize (Materialize p1) (Materialize p2)
  | FirstThunk p1 p2 => FirstThunk_Materialize (Materialize p1) (Materialize p2)
  | ContractThunk n => fun _ k h => (ContractThunk_Materialize n k, h)
  | StartThunk n => fun _ k h => (StartThunk_Materialize n k, h)
  | Box p => Box_Materialize (Materialize p)
  end.

(** ** Calls

    A frame is a method call that has not been executed yet; a stack is the
    list of calls still to be made by one thread, innermost first.  [o] is the
    object that holds the continuation or computation the call is made on. *)

(** Subclasses of [TaskBase]: what [Run] finds in the fields. *)
Inductive Task :=
| SubmitTask (consumer : Cont) (scheduler : sched_id) (func : Fn)
| MapTask (consumer : Cont) (func : Fn) (val : Val) (s : State)
| MapOkTask (consumer : Cont) (func : Fn) (val : Val) (s : State).

Inductive Frame :=
| Start (o : nat) (c : Comp)
| Resume (o : nat) (k : Cont) (v : Val) (s : State)
| Run (o : nat) (t : Task)
| BothCheck (o : nat) (cont : nat) (first : bool)
| EventFire (get : nat)
| GetWait (get : nat)
| StoreReady (comp : nat)
| AwaitReady (o : nat) (consumer : Cont) (comp : nat)
| DeleteComp (o : nat) (comp : nat)
| RendezvousProduce (st : nat)
| RendezvousConsume (st : nat)
| DeleteState (st : nat)
(** client calls *)
| Get (t : Thunk)
| Detach (t : Thunk)
| PipeStart (t : Thunk)
| PromiseSet (st : nat) (v : Val).

(** One call of a user function: the function, its argument, the state the
    continuation was resumed with. *)
Record Call := MkCall { c_fun : Fn; c_arg : Val; c_state : State }.

(** What executing one call does: the calls it makes in turn on its own
    stack, the task it submits to a scheduler, the new heap, the user
    functions it called and the value [Get] returns to its caller. *)
Record Effect := MkEffect {
  e_calls : list Frame;
  e_submit : list (sched_id * Frame);
  e_heap : Heap;
  e_log : list Call;
  e_ret : option Val;
}.

Inductive Outcome :=
| Next (e : Effect)
| Blocked
| Crash.

Definition tail (fs : list Frame) (h : Heap) : Outcome := Next (MkEffect fs [] h [] None).

(** ** [IScheduler::Submit]

    [sched::Inline] runs the task at once; the other schedulers run it on a
    thread of their own, at any later time. *)

Definition kInline : sched_id := 0.

Definition Inline_Submit (task : Frame) (h : Heap) : Outcome := tail [task] h.

Definition Submit (scheduler : sched_id) (task : Frame) (h : Heap) : Outcome :=
  if decide (scheduler = kInline) then Inline_Submit task h
  else Next (MkEffect [] [(scheduler, task)] h [] None).

Section methods.
Context (user : nat -> Val -> Val).

(** Calling a function object; the lambdas of [AndThen], [OrElse] and
    [AsTryFuture] included. *)
Fixpoint call (f : Fn) (v : Val) : Val :=
  match f with
  | UserFn i => user i v
  | AndThenFn userfunc =>
      match v with
      | VOk x => call userfunc x
      | VErr e => VThunk (fut_Err e)
      | _ => VUnit
      end
  | OrElseFn userfunc =>
      match v with
      | VOk x => VThunk (fut_Ok x)
      | VErr e => call userfunc (VCode e)
      | _ => VUnit
      end
  | AsTryFn => VOk v
  end.

(** The call [func(v)] followed by [consumer.Resume(res, s)]. *)
Definition call_then (f : Fn) (v : Val) (s : State) (h : Heap)
    (k : Val -> Frame) : Outcome :=
  Next (MkEffect [k (call f v)] [] h [MkCall f v s] None).

(** *** Continuations *)

Definition MapContinuation_Resume (o : nat) (consumer : Cont) (func : Fn)
    (val : Val) (s : State) (h : Heap) : Outcome :=
  match s with
  | None => call_then func val s h (fun res => Resume o consumer res s)
  | Some scheduler => Submit scheduler (Run o (MapTask consumer func val s)) h
  end.

Definition MapContinuation_Run (o : nat) (consumer : Cont) (func : Fn)
    (val : Val) (s : State) (h : Heap) : Outcome :=
  call_then func val s h (fun res => Resume o consumer res s).

Definition MapOkContinuation_Run (o : nat) (consumer : Cont) (func : Fn)
    (val : Val) (s : State) (h : Heap) : Outcome :=
  match val with
  | VOk x => call_then func x s h (fun res => Resume o consumer (VOk res) s)
  | VErr e => tail [Resume o consumer (VErr e) s] h
  | _ => Crash
  end.

Definition MapOkContinuation_Resume (o : nat) (consumer : Cont) (func : Fn)
    (val : Val) (s : State) (h : Heap) : Outcome :=
  match s with
  | None => tail [Run o (MapOkTask consumer func val s)] h
  | Some scheduler => Submit scheduler (Run o (MapOkTask consumer func val s)) h
  end.

Definition ViaContinuation_Resume (o : nat) (consumer : Cont) (scheduler : sched_id)
    (val : Val) (s : State) (h : Heap) : Outcome :=
  tail [Resume o consumer val (Some scheduler)] h.

Definition InnerFlattenContinuation_Resume (o : nat) (consumer : Cont) (s_ : State)
    (val : Val) (h : Heap) : Outcome :=
  tail [Resume o consumer val s_] h.

(** The inner computation is built inside the continuation itself. *)
Definition FlattenContinuation_Resume (o : nat) (consumer : Cont)
    (future_val : Val) (s : State) (h : Heap) : Outcome :=
  match future_val with
  | VThunk t =>
      let '(computation, h) := Materialize t o (InnerFlattenContinuation consumer s) h in
      tail [Start o computation] h
  | _ => Crash
  end.

Definition BoxConsumer_Resume (o : nat) (consumer : Cont) (val : Val) (s : State)
    (h : Heap) : Outcome :=
  tail [Resume o consumer val s] h.

(** [ResumeA] and [ResumeB]: store the value; [Check] comes after. *)
Definition BothContinuation_ResumeA (o cont : nat) (val : Val) (h : Heap) : Outcome :=
  match cell h cont with
  | Some (BothContinuation ow a b k fin) =>
      tail [BothCheck o cont true] (put cont (BothContinuation ow (Some val) b k fin) h)
  | _ => Crash
  end.

Definition BothContinuation_ResumeB (o cont : nat) (val : Val) (h : Heap) : Outcome :=
  match cell h cont with
  | Some (BothContinuation ow a b k fin) =>
      tail [BothCheck o cont false] (put cont (BothContinuation ow a (Some val) k fin) h)
  | _ => Crash
  end.

Definition BothBinder_Resume (o cont : nat) (first : bool) (val : Val) (s : State)
    (h : Heap) : Outcome :=
  if first then BothContinuation_ResumeA o cont val h
  else BothContinuation_ResumeB o cont val h.

(** [optional::value] of an empty optional throws. *)
Definition BothContinuation_Check (o cont : nat) (h : Heap) : Outcome :=
  match cell h cont with
  | Some (BothContinuation ow a b k fin) =>
      let h' := put cont (BothContinuation ow a b k (u32 (fin + 1))) h in
      if (fin =? 1)%Z then
        match a, b with
        | Some va, Some vb => tail [Resume o k (VPair va vb) None] h'
        | _, _ => Crash
        end
      else tail [] h'
  | _ => Crash
  end.

(** The [fetch_add] decides; the loser deletes the whole computation. *)
Definition FirstContinuation_Resume (cont : nat) (val : Val) (s : State) (h : Heap) : Outcome :=
  match cell h cont with
  | Some (FirstContinuation k fin) =>
      let h' := put cont (FirstContinuation k (u32 (fin + 1))) h in
      if (fin =? 0)%Z then tail [Resume cont k val None] h'
      else tail [] (free cont h')
  | _ => Crash
  end.

Definition FirstBinder_Resume (cont : nat) (first : bool) (val : Val) (s : State)
    (h : Heap) : Outcome :=
  if first then FirstContinuation_Resume cont val s h
  else FirstContinuation_Resume cont val s h.

(** [StartContinuation::Resume] calls [StartComputation::Resume]; the store
    to [ready_] comes after. *)
Definition StartComputation_Resume (comp : nat) (val : Val) (s : State) (h : Heap) : Outcome :=
  match cell h comp with
  | Some (StartComputation ready _ _) =>
      tail [StoreReady comp] (put comp (StartComputation ready (Some val) s) h)
  | _ => Crash
  end.

Definition StartComputation_StoreReady (comp : nat) (h : Heap) : Outcome :=
  match cell h comp with
  | Some (StartComputation _ v s) => tail [] (put comp (StartComputation 1 v s) h)
  | _ => Crash
  end.

(** The lambda of [Get]: [res.emplace], then [ready.Fire()]. *)
Definition Get_lambda (get : nat) (val : Val) (h : Heap) : Outcome :=
  match cell h get with
  | Some (GetFrame _ fired) => tail [EventFire get] (put get (GetFrame (Some val) fired) h)
  | _ => Crash
  end.

Definition DestructingDemand_Resume (addr : nat) (h : Heap) : Outcome :=
  match cell h addr with
  | Some _ => tail [] (free addr h)
  | None => Crash
  end.

Definition Cont_Resume (o : nat) (k : Cont) (v : Val) (s : State) (h : Heap) : Outcome :=
  match k with
  | FuncDemand get => Get_lambda get v h
  | DestructingDemand addr => DestructingDemand_Resume addr h
  | MapContinuation k f => MapContinuation_Resume o k f v s h
  | MapOkContinuation k f => MapOkContinuation_Resume o k f v s h
  | ViaContinuation k sc => ViaContinuation_Resume o k sc v s h
  | FlattenContinuation k => FlattenContinuation_Resume o k v s h
  | InnerFlattenContinuation k s_ => InnerFlattenContinuation_Resume o k s_ v h
  | BothBinder cont first => BothBinder_Resume o cont first v s h
  | FirstBinder cont first => FirstBinder_Resume cont first v s h
  | StartContinuation comp => StartComputation_Resume comp v s h
  | BoxConsumer k => BoxConsumer_Resume o k v s h
  end.

(** *** Tasks *)

Definition SubmitComputation_Run (o : nat) (consumer : Cont) (scheduler : sched_id)
    (func : Fn) (h : Heap) : Outcome :=
  call_then func VUnit (Some scheduler) h (fun res => Resume o consumer res (Some scheduler)).

Definition Task_Run (o : nat) (t : Task) (h : Heap) : Outcome :=
  match t with
  | SubmitTask k sc f => SubmitComputation_Run o k sc f h
  | MapTask k f v s => MapContinuation_Run o k f v s h
  | MapOkTask k f v s => MapOkContinuation_Run o k f v s h
  end.

(** *** The contract state *)

Definition kEmpty : Z := 0.
Definition kProduced : Z := 1.
Definition kConsumed : Z := 2.

(** [fetch_or]; true means rendezvous. *)
Definition RendezvousStateMachine_Produce (state : Z) : bool * Z :=
  ((state =? kConsumed)%Z, Z.lor state kProduced).
Definition RendezvousStateMachine_Consume (state : Z) : bool * Z :=
  ((state =? kProduced)%Z, Z.lor state kConsumed).

Definition ContractState_New (h : Heap) : nat * Heap :=
  new (ContractState None None kEmpty) h.

(** [callback_(std::move(value_.Access())); delete this]: the callback is the
    lambda of [ContractComputation::Start]. *)
Definition ContractState_rendezvous (st : nat) (v : option Val)
    (cb : option (nat * Cont)) (h : Heap) : Outcome :=
  match v, cb with
  | Some val, Some (o, consumer) => tail [Resume o consumer val None; DeleteState st] h
  | _, _ => Crash
  end.

Definition ContractState_Produce (st : nat) (value : Val) (h : Heap) : Outcome :=
  match cell h st with
  | Some (ContractState _ cb state) =>
      tail [RendezvousProduce st] (put st (ContractState (Some value) cb state) h)
  | _ => Crash
  end.

Definition ContractState_Produce2 (st : nat) (h : Heap) : Outcome :=
  match cell h st with
  | Some (ContractState v cb state) =>
      let '(meet, state') := RendezvousStateMachine_Produce state in
      let h' := put st (ContractState v cb state') h in
      if meet then ContractState_rendezvous st v cb h' else tail [] h'
  | _ => Crash
  end.

Definition ContractState_Consume (st : nat) (callback : nat * Cont) (h : Heap) : Outcome :=
  match cell h st with
  | Some (ContractState v _ state) =>
      tail [RendezvousConsume st] (put st (ContractState v (Some callback) state) h)
  | _ => Crash
  end.

Definition ContractState_Consume2 (st : nat) (h : Heap) : Outcome :=
  match cell h st with
  | Some (ContractState v cb state) =>
      let '(meet, state') := RendezvousStateMachine_Consume state in
      let h' := put st (ContractState v cb state') h in
      if meet then ContractState_rendezvous st v cb h' else tail [] h'
  | _ => Crash
  end.

Definition ContractState_delete (st : nat) (h : Heap) : Outcome :=
  match cell h st with
  | Some (ContractState _ _ _) => tail [] (free st h)
  | _ => Crash
  end.

(** *** Computations *)

Definition ReadyComputation_Start (o : nat) (consumer : Cont) (value : Val) (h : Heap) : Outcome :=
  tail [Resume o consumer value None] h.
Definition JustComputation_Start (o : nat) (consumer : Cont) (h : Heap) : Outcome :=
  tail [Resume o consumer VUnit None] h.
Definition SubmitComputation_Start (o : nat) (consumer : Cont) (scheduler : sched_id)
    (func : Fn) (h : Heap) : Outcome :=
  Submit scheduler (Run o (SubmitTask consumer scheduler func)) h.
Definition ContractComputation_Start (o : nat) (consumer : Cont) (st : nat) (h : Heap) : Outcome :=
  ContractState_Consume st (o, consumer) h.
Definition BothComputation_Start (o : nat) (comp1 comp2 : Comp) (h : Heap) : Outcome :=
  tail [Start o comp1; Start o comp2] h.
Definition FirstComputation_Start (self : nat) (comp1 comp2 : Comp) (h : Heap) : Outcome :=
  match cell h self with
  | Some (FirstContinuation _ _) => tail [Start self comp1; Start self comp2] h
  | _ => Crash
  end.
Definition BoxComputation_Start (o : nat) (computation : Comp) (h : Heap) : Outcome :=
  tail [Start o computation] h.

(** [futex::Wait(comp_->ready_, 0)], then [consumer_.Resume(...)], then
    [delete comp_]: the last statement reads the member [comp_] again. *)
Definition StartComputationWithConsumer_Start (o : nat) (consumer : Cont) (comp : nat)
    (h : Heap) : Outcome :=
  tail [AwaitReady o consumer comp] h.

Definition StartComputationWithConsumer_Await (o : nat) (consumer : Cont) (comp : nat)
    (h : Heap) : Outcome :=
  match cell h comp with
  | Some (StartComputation ready v s) =>
      if (ready =? 0)%Z then Blocked
      else match v with
           | Some val => tail [Resume o consumer val s; DeleteComp o comp] h
           | None => Crash
           end
  | _ => Crash
  end.

Definition StartComputationWithConsumer_delete (comp : nat) (h : Heap) : Outcome :=
  match cell h comp with
  | Some (StartComputation _ _ _) => tail [] (free comp h)
  | _ => Crash
  end.

Definition Comp_Start (o : nat) (c : Comp) (h : Heap) : Outcome :=
  match c with
  | ReadyComputation k v => ReadyComputation_Start o k v h
  | JustComputation k => JustComputation_Start o k h
  | SubmitComputation k sc f => SubmitComputation_Start o k sc f h
  | ContractComputation k st => ContractComputation_Start o k st h
  | BothComputation c1 c2 => BothComputation_Start o c1 c2 h
  | FirstComputation self c1 c2 => FirstComputation_Start self c1 c2 h
  | StartComputationWithConsumer k n => StartComputationWithConsumer_Start o k n h
  | BoxComputation c => BoxComputation_Start o c h
  end.

(** *** The client's calls *)

(** [Get]: the locals, [Materialize], [Start], then [ready.Wait()]. *)
Definition future_Get (t : Thunk) (h : Heap) : Outcome :=
  let '(n, h) := new (GetFrame None 0) h in
  let '(computation, h) := Materialize t n (FuncDemand n) h in
  tail [Start n computation; GetWait n] h.

Definition thread_Event_Fire (get : nat) (h : Heap) : Outcome :=
  match cell h get with
  | Some (GetFrame res _) => tail [] (put get (GetFrame res 1) h)
  | _ => Crash
  end.

(** [ready.Wait()], [return std::move(res.value())]: the locals, the
    computation among them, are destroyed. *)
Definition future_Get_Wait (get : nat) (h : Heap) : Outcome :=
  match cell h get with
  | Some (GetFrame res fired) =>
      if (fired =? 0)%Z then Blocked
      else match res with
           | Some v => Next (MkEffect [] [] (free get h) [] (Some v))
           | None => Crash
           end
  | _ => Crash
  end.

Definition future_Detach (t : Thunk) (h : Heap) : Outcome :=
  let '(n, h) := new SelfDestructingComputation h in
  let '(computation, h) := Materialize t n (DestructingDemand n) h in
  tail [Start n computation] h.

(** [StartThunk]'s constructor: [new StartComputation], which starts the
    computation; the thunk is [StartThunk] of the new address. *)
Definition StartThunk_ctor (t : Thunk) (h : Heap) : Outcome :=
  let '(n, h) := new (StartComputation 0 None None) h in
  let '(computation, h) := Materialize t n (StartContinuation n) h in
  tail [Start n computation] h.

Definition Promise_Set (st : nat) (val : Val) (h : Heap) : Outcome :=
  ContractState_Produce st val h.

(** ** Executing the call on top of a stack *)

(** The object a call reads; it must not have been deleted. *)
Definition owner_of (f : Frame) : option nat :=
  match f with
  | Start o _ | Resume o _ _ _ | Run o _ | BothCheck o _ _
  | AwaitReady o _ _ | DeleteComp o _ => Some o
  | _ => None
  end.

Definition alive (h : Heap) (n : nat) : bool :=
  match cell h n with Some _ => true | None => false end.

Definition exec (f : Frame) (h : Heap) : Outcome :=
  if match owner_of f with Some o => negb (alive h o) | None => false end then Crash
  else match f with
       | Start o c => Comp_Start o c h
       | Resume o k v s => Cont_Resume o k v s h
       | Run o t => Task_Run o t h
       | BothCheck o n _ => BothContinuation_Check o n h
       | EventFire n => thread_Event_Fire n h
       | GetWait n => future_Get_Wait n h
       | StoreReady n => StartComputation_StoreReady n h
       | AwaitReady o k n => StartComputationWithConsumer_Await o k n h
       | DeleteComp o n => StartComputationWithConsumer_delete n h
       | RendezvousProduce n => ContractState_Produce2 n h
       | RendezvousConsume n => ContractState_Consume2 n h
       | DeleteState n => ContractState_delete n h
       | Get t => future_Get t h
       | Detach t => future_Detach t h
       | PipeStart t => StartThunk_ctor t h
       | PromiseSet n v => Promise_Set n v h
       end.

(** ** The machine *)

(** A thread: the scheduler it belongs to ([None]: the client), and its
    stack of calls. *)
Record Activity := MkAct { act_sched : State; act_stack : list Frame }.

Record Machine := MkMachine {
  acts : list Activity;
  heap : Heap;
  log : list (Call * State);   (** with the scheduler whose thread called *)
  returned : list Val;         (** values [Get] returned *)
  crashed : bool;
}.

Definition boot (h : Heap) (clients : list (list Frame)) : Machine :=
  MkMachine (map (MkAct None) clients) h [] [] false.

Definition spawn (p : sched_id * Frame) : Activity := MkAct (Some p.1) [p.2].

(** One call of thread [i]; [None] when the thread has nothing to do or
    waits, or the program has crashed. *)
Definition mstep (i : nat) (m : Machine) : option Machine :=
  if crashed m then None else
  match acts m !! i with
  | Some (MkAct sc (f :: fs)) =>
      match exec f (heap m) with
      | Next e =>
          Some (MkMachine
            (<[i := MkAct sc (e_calls e ++ fs)]> (acts m) ++ map spawn (e_submit e))
            (e_heap e)
            (log m ++ map (fun c => (c, sc)) (e_log e))
            (returned m ++ option_list (e_ret e)) false)
      | Blocked => None
      | Crash => Some (MkMachine (acts m) (heap m) (log m) (returned m) true)
      end
  | _ => None
  end.

Inductive msteps (m : Machine) : nat -> Machine -> Prop :=
| msteps_refl : msteps m 0 m
| msteps_snoc n m' i m'' : msteps m n m' -> mstep i m' = Some m'' -> msteps m (S n) m''.

Fixpoint mrun (sched : list nat) (m : Machine) : option Machine :=
  match sched with
  | [] => Some m
  | i :: sched => match mstep i m with Some m' => mrun sched m' | None => None end
  end.

Lemma mrun_msteps_from sched m n m' m'' :
  msteps m n m' -> mrun sched m' = Some m'' -> msteps m (n + length sched) m''.
Proof.
  revert n m'. induction sched as [|i sched IH]; intros n m' Hs Hr; simpl in Hr.
  - simplify_eq. by rewrite Nat.add_0_r.
  - destruct (mstep i m') as [m1|] eqn:E; [|done].
    simpl. rewrite Nat.add_succ_r. apply (IH (S n) m1); [by econstructor|done].
Qed.

Lemma mrun_msteps sched m m' : mrun sched m = Some m' -> msteps m (length sched) m'.
Proof. apply (mrun_msteps_from sched m 0). constructor. Qed.

(** No thread can take a step. *)
Definition quiescent (m : Machine) : Prop := forall i, mstep i m = None.

(** All machines reachable in exactly [n] steps. *)
Definition succs (m : Machine) : list Machine :=
  omap (fun i => mstep i m) (seq 0 (length (acts m))).

Fixpoint level (n : nat) (m : Machine) : list Machine :=
  match n with 0 => [m] | S n => level n m ≫= succs end.

Lemma mstep_lt i m m' : mstep i m = Some m' -> i < length (acts m).
Proof.
  unfold mstep. destruct (crashed m); [done|].
  destruct (acts m !! i) eqn:E; [|done]. intros _. by eapply lookup_lt_Some.
Qed.

Lemma mstep_succs i m m' : mstep i m = Some m' -> m' ∈ succs m.
Proof.
  intros H. apply list_elem_of_omap. exists i. split; [|done].
  apply elem_of_seq. apply mstep_lt in H. lia.
Qed.

Lemma msteps_level m n m' : msteps m n m' -> m' ∈ level n m.
Proof.
  induction 1 as [|n m' i m'' _ IH Hi]; [left|]. simpl.
  apply list_elem_of_bind. exists m'. split; [by eapply mstep_succs|done].
Qed.

Lemma quiescent_succs m : quiescent m -> succs m = [].
Proof.
  intros Hq. unfold succs. induction (seq 0 (length (acts m))) as [|i l IH]; [done|].
  simpl. by rewrite Hq.
Qed.

(** Exhaustive exploration: a property of every reachable machine, and of the
    ones without successor, checked level by level. *)
Fixpoint all_of {A} (P : A -> Prop) (l : list A) : Prop :=
  match l with [] => True | x :: l => P x /\ all_of P l end.

Lemma all_of_elem {A} (P : A -> Prop) l x : all_of P l -> x ∈ l -> P x.
Proof. induction l as [|y l IH]; intros H Hx; [by apply elem_of_nil in Hx|].
  apply elem_of_cons in Hx as [->|Hx]; [apply H|apply IH; [apply H|done]]. Qed.

Definition all_levels (N : nat) (P Q : Machine -> Prop) (m : Machine) : Prop :=
  all_of (fun n => all_of (fun m' => P m' /\ match succs m' with [] => Q m' | _ => True end)
                          (level n m)) (seq 0 (S N)) /\
  level (S N) m = [].

Lemma level_empty N n m : level N m = [] -> N <= n -> level n m = [].
Proof.
  intros H Hle. induction Hle as [|n Hle IH]; [done|]. simpl. by rewrite IH.
Qed.

Lemma explore_sound N P Q m : all_levels N P Q m ->
  forall n m', msteps m n m' -> n <= N /\ P m' /\ (quiescent m' -> Q m').
Proof.
  intros [Hall Hend] n m' Hs. apply msteps_level in Hs.
  assert (Hn : n <= N).
  { destruct (decide (n <= N)); [done|]. rewrite (level_empty (S N)) in Hs by (done || lia).
    by apply elem_of_nil in Hs. }
  assert (Hin : n ∈ seq 0 (S N)) by (apply elem_of_seq; lia).
  destruct (all_of_elem _ _ _ (all_of_elem _ _ _ Hall Hin) Hs) as [HP HQ].
  split_and!; [done..|]. intros Hq. by rewrite (quiescent_succs _ Hq) in HQ.
Qed.
End methods.
