(* ===== verification/FutureCorrect.v ===== *)
(** Correctness of the futures: the value a future denotes, and the theorem
    that every schedule of the machine of Future.v computes it.

    [eval] reads a thunk as the mathematical description of a value, of the
    scheduler its continuation inherits, and of the user functions it calls.
    The theorems show that [Get] and [Detach] implement that reading under
    every interleaving of the client thread and of the threads of the
    schedulers: no call is made on a deleted object, no schedule is longer
    than a bound that depends on the future only, nothing gets stuck, [Get]
    returns the denoted value and nothing else, every user function is called
    exactly as often as the denotation says and with its arguments.

    [eval] covers the deterministic fragment: [Ready], [Just], [Submit],
    [Map], [MapOk], [Via], [Flatten], [Both], [Box] and everything the
    combinators build from them.

    The invariant splits the machine's future into resources.  Every pending
    call, and every [BothContinuation] that has not fired, owns the list of
    steps it will take ([W_frame], [W_cell]), and the sinks it feeds: the
    root consumer, or one side of a [BothContinuation]. *)

From S2P Require Import Prelude Result Future.

#[local] Arguments cell : simpl never.
#[local] Arguments put : simpl never.
#[local] Arguments free : simpl never.
#[local] Arguments alive : simpl never.

Section denotation.
Context (user : nat -> Val -> Val).

Fixpoint eval (fuel : nat) (t : Thunk) : option (Val * State * list Call) :=
  match fuel with
  | 0 => None
  | S fuel =>
      match t with
      | Ready v => Some (v, None, [])
      | JustThunk => Some (VUnit, None, [])
      | SubmitThunk sc f => Some (call user f VUnit, Some sc, [MkCall f VUnit (Some sc)])
      | MapThunk p f =>
          '(v, s, L) ← eval fuel p; Some (call user f v, s, L ++ [MkCall f v s])
      | MapOkThunk p f =>
          '(v, s, L) ← eval fuel p;
          match v with
          | VOk x => Some (VOk (call user f x), s, L ++ [MkCall f x s])
          | VErr e => Some (VErr e, s, L)
          | _ => None
          end
      | ViaThunk p sc => '(v, _, L) ← eval fuel p; Some (v, Some sc, L)
      | FlattenThunk p =>
          '(v, s, L) ← eval fuel p;
          match v with
          | VThunk t' => '(v', _, L') ← eval fuel t'; Some (v', s, L ++ L')
          | _ => None
          end
      | BothThunk p1 p2 =>
          '(v1, _, L1) ← eval fuel p1; '(v2, _, L2) ← eval fuel p2;
          Some (VPair v1 v2, None, L1 ++ L2)
      | Box p => eval fuel p
      | FirstThunk _ _ | ContractThunk _ | StartThunk _ => None
      end
  end.

(** The same as a relation that also counts steps: one item per call the
    machine executes, [Some c] when the call invokes a user function. *)
Definition item := option Call.

Definition map_items (f : Fn) (v : Val) (s : State) : list item :=
  match s with
  | None => [Some (MkCall f v s)]
  | Some _ => [None; Some (MkCall f v s)]
  end.

Definition mapok_item (f : Fn) (v : Val) (s : State) : item :=
  match v with VOk x => Some (MkCall f x s) | _ => None end.

Definition mapok_val (f : Fn) (v : Val) : Val :=
  match v with VOk x => VOk (call user f x) | _ => v end.

Definition is_result (v : Val) : Prop :=
  match v with VOk _ | VErr _ => True | _ => False end.

Inductive ev : Thunk -> Val -> State -> list item -> Prop :=
| ev_ready v : ev (Ready v) v None [None]
| ev_just : ev JustThunk VUnit None [None]
| ev_submit sc f :
    ev (SubmitThunk sc f) (call user f VUnit) (Some sc) [None; Some (MkCall f VUnit (Some sc))]
| ev_map p f v s R : ev p v s R -> ev (MapThunk p f) (call user f v) s (R ++ map_items f v s)
| ev_mapok p f v s R : ev p v s R -> is_result v ->
    ev (MapOkThunk p f) (mapok_val f v) s (R ++ [None; mapok_item f v s])
| ev_via p sc v s R : ev p v s R -> ev (ViaThunk p sc) v (Some sc) (R ++ [None])
| ev_flatten p t v s s' R R' : ev p (VThunk t) s R -> ev t v s' R' ->
    ev (FlattenThunk p) v s (R ++ [None] ++ R' ++ [None])
| ev_both p1 p2 v1 v2 s1 s2 R1 R2 : ev p1 v1 s1 R1 -> ev p2 v2 s2 R2 ->
    ev (BothThunk p1 p2) (VPair v1 v2) None (None :: (R1 ++ [None; None]) ++ (R2 ++ [None; None]))
| ev_box p v s R : ev p v s R -> ev (Box p) v s (None :: R ++ [None]).

Definition calls (R : list item) : list Call := omap id R.

Lemma calls_app R R' : calls (R ++ R') = calls R ++ calls R'.
Proof. apply omap_app. Qed.

Lemma calls_map_items f v s : calls (map_items f v s) = [MkCall f v s].
Proof. by destruct s. Qed.

Lemma eval_ev fuel t v s L :
  eval fuel t = Some (v, s, L) -> exists R, ev t v s R /\ calls R = L.
Proof.
  revert t v s L. induction fuel as [|fuel IH]; [done|]. intros t v s L H.
  destruct t; simpl in H; simplify_option_eq;
    repeat match goal with
    | p : (_ * _ * _)%type |- _ => destruct p as [[? ?] ?]; simplify_eq/=
    | H : eval fuel _ = Some _ |- _ => apply IH in H as (? & ? & <-)
    | H : context [match ?v with VUnit => _ | _ => _ end] |- _ => destruct v; simplify_eq/=
    | H : _ ≫= _ = Some _ |- _ => apply bind_Some in H as (? & ? & ?)
    end;
    (eexists; split;
     [first [by econstructor | eapply ev_both; done
            | eapply (ev_mapok _ _ (VOk _)); done | eapply (ev_mapok _ _ (VErr _)); done]|]);
    rewrite ?calls_app, ?calls_map_items; simpl; rewrite ?calls_app; simpl;
    rewrite ?app_nil_r; try done.
  all: by rewrite ?omap_app, ?app_nil_r.
Qed.

(** ** Sums of resources *)

(** [Wsum P l R]: the elements of [l] own pairwise disjoint parts of [R], as
    [P] says, and nothing is left over. *)
Inductive Wsum {A} (P : A -> list item -> Prop) : list A -> list item -> Prop :=
| Wsum_nil : Wsum P [] []
| Wsum_cons x l R1 R2 R : P x R1 -> Wsum P l R2 -> R ≡ₚ R1 ++ R2 -> Wsum P (x :: l) R.

Section wsum.
Context {A : Type} (P : A -> list item -> Prop).

Lemma Wsum_perm_r l R R' : Wsum P l R -> R ≡ₚ R' -> Wsum P l R'.
Proof.
  destruct 1 as [|x l R1 R2 R ? ? HR]; intros HP.
  - apply Permutation_nil in HP as ->. constructor.
  - econstructor; [done..|]. by rewrite <- HP.
Qed.

Lemma Wsum_cons_inv x l R :
  Wsum P (x :: l) R -> exists R1 R2, P x R1 /\ Wsum P l R2 /\ R ≡ₚ R1 ++ R2.
Proof. inversion 1; subst. eauto 10. Qed.

Lemma Wsum_perm_l l l' R : l ≡ₚ l' -> Wsum P l R -> Wsum P l' R.
Proof.
  intros HP. revert R. induction HP as [|x l l' _ IH|x y l|l l' l'' _ IH _ IH']; intros R H.
  - done.
  - apply Wsum_cons_inv in H as (R1 & R2 & ? & ? & ?). econstructor; eauto.
  - apply Wsum_cons_inv in H as (R1 & R2 & ? & H & HR).
    apply Wsum_cons_inv in H as (R3 & R4 & ? & ? & HR').
    econstructor; [done|econstructor; done|]. rewrite HR, HR'. solve_Permutation.
  - eauto.
Qed.

Lemma Wsum_app l l' R R' : Wsum P l R -> Wsum P l' R' -> Wsum P (l ++ l') (R ++ R').
Proof.
  intros H H'. induction H as [|x l R1 R2 R ? ? IH HR]; [done|].
  simpl. econstructor; [done..|]. by rewrite HR, <- app_assoc.
Qed.

Lemma Wsum_singleton x R : P x R -> Wsum P [x] R.
Proof. intros H. econstructor; [done|constructor|]. by rewrite app_nil_r. Qed.

Lemma Wsum_impl (Q : A -> list item -> Prop) l R :
  (forall x R, x ∈ l -> P x R -> Q x R) -> Wsum P l R -> Wsum Q l R.
Proof.
  intros HPQ H. induction H as [|x l R1 R2 R ? ? IH ?]; [constructor|].
  econstructor; [|apply IH|done].
  - apply HPQ; [left|done].
  - intros y Ry Hy. apply HPQ. by right.
Qed.

Lemma Wsum_nil_items l R : (forall x R, x ∈ l -> P x R -> R = []) -> Wsum P l R -> R = [].
Proof.
  intros HP H. induction H as [|x l R1 R2 R Hx ? IH HR]; [done|].
  rewrite (HP _ _ ltac:(left) Hx), IH in HR.
  - by apply Permutation_nil_r in HR.
  - intros y Ry Hy. apply HP. by right.
Qed.
End wsum.

(** ** Sinks *)

(** [SRoot] is the consumer [Get] or [Detach] passed to [Materialize];
    [SBoth n first] is one side of the [BothContinuation] at [n].  The flag
    tells whether the value has been stored, so that only the last access
    ([Fire], [Check]) is still to come. *)
Inductive Sink :=
| SRoot (stored : bool)
| SBoth (n : nat) (first stored : bool).

#[export] Instance Sink_eq_dec : EqDecision Sink.
Proof. solve_decision. Defined.

Fixpoint sink_of (k : Cont) : Sink :=
  match k with
  | MapContinuation k _ | MapOkContinuation k _ | ViaContinuation k _
  | FlattenContinuation k | InnerFlattenContinuation k _ | BoxConsumer k => sink_of k
  | BothBinder n first => SBoth n first false
  | FuncDemand _ | DestructingDemand _ | FirstBinder _ _ | StartContinuation _ => SRoot false
  end.

Fixpoint comp_sinks (c : Comp) : list Sink :=
  match c with
  | ReadyComputation k _ | JustComputation k | SubmitComputation k _ _
  | ContractComputation k _ | StartComputationWithConsumer k _ => [sink_of k]
  | BothComputation c1 c2 | FirstComputation _ c1 c2 => comp_sinks c1 ++ comp_sinks c2
  | BoxComputation c => comp_sinks c
  end.

Definition task_sink (t : Task) : Sink :=
  match t with SubmitTask k _ _ | MapTask k _ _ _ | MapOkTask k _ _ _ => sink_of k end.

Definition frame_sinks (f : Frame) : list Sink :=
  match f with
  | Start _ c => comp_sinks c
  | Resume _ k _ _ => [sink_of k]
  | Run _ t => [task_sink t]
  | BothCheck _ n first => [SBoth n first true]
  | EventFire _ => [SRoot true]
  | _ => []
  end.

Definition cell_sinks (h : Heap) (n : nat) : list Sink :=
  match cell h n with
  | Some (BothContinuation _ _ _ k fin) => if (fin <? 2)%Z then [sink_of k] else []
  | _ => []
  end.

(** The sinks that the pending calls [F] and the unfired cells of [h] feed. *)
Definition sinks (F : list Frame) (h : Heap) : list Sink :=
  (F ≫= frame_sinks) ++ (seq 0 (length h) ≫= cell_sinks h).

Definition occ (x : Sink) (l : list Sink) : nat := length (filter (x =.) l).

Lemma occ_app x l l' : occ x (l ++ l') = occ x l + occ x l'.
Proof. unfold occ. by rewrite list.filter_app, length_app. Qed.

Lemma occ_cons x y l : occ x (y :: l) = (if decide (x = y) then 1 else 0) + occ x l.
Proof. unfold occ. rewrite list.filter_cons. by destruct (decide (x = y)). Qed.

Lemma occ_nil x : occ x [] = 0.
Proof. done. Qed.

Lemma occ_perm x l l' : l ≡ₚ l' -> occ x l = occ x l'.
Proof. intros H. unfold occ. by rewrite H. Qed.

Lemma occ_pos x l : 0 < occ x l <-> x ∈ l.
Proof.
  induction l as [|y l IH]; [rewrite occ_nil; split; [lia|by intros ?%elem_of_nil]|].
  rewrite occ_cons, elem_of_cons. destruct (decide (x = y)); [split; [auto|lia]|].
  rewrite Nat.add_0_l, IH. naive_solver.
Qed.

(** ** The steps each call and each cell will take

    [get] tells whether the root consumer is [Get]'s; [G n] is the pair the
    [BothContinuation] at [n] will be given. *)
Section resources.
Context (get : bool) (v0 : Val).
Implicit Types G : nat -> Val * Val.

Definition pick (first : bool) (p : Val * Val) : Val := if first then p.1 else p.2.

Inductive W_cont G : Cont -> Val -> State -> list item -> Prop :=
| W_get s : get = true -> W_cont G (FuncDemand 0) v0 s [None; None]
| W_detach s : get = false -> W_cont G (DestructingDemand 0) v0 s [None]
| W_map k f v s R : W_cont G k (call user f v) s R ->
    W_cont G (MapContinuation k f) v s (map_items f v s ++ R)
| W_mapok k f v s R : is_result v -> W_cont G k (mapok_val f v) s R ->
    W_cont G (MapOkContinuation k f) v s (None :: mapok_item f v s :: R)
| W_via k sc v s R : W_cont G k v (Some sc) R -> W_cont G (ViaContinuation k sc) v s (None :: R)
| W_flatten k t v s s' R R' : ev t v s' R' -> W_cont G k v s R ->
    W_cont G (FlattenContinuation k) (VThunk t) s (None :: R' ++ None :: R)
| W_inner k v s s' R : W_cont G k v s R ->
    W_cont G (InnerFlattenContinuation k s) v s' (None :: R)
| W_both n first s : W_cont G (BothBinder n first) (pick first (G n)) s [None; None]
| W_box k v s R : W_cont G k v s R -> W_cont G (BoxConsumer k) v s (None :: R).

Lemma W_both_eq G n first v s : v = pick first (G n) -> W_cont G (BothBinder n first) v s [None; None].
Proof. intros ->. constructor. Qed.

Inductive W_comp G : Comp -> list item -> Prop :=
| W_ready k v R : W_cont G k v None R -> W_comp G (ReadyComputation k v) (None :: R)
| W_just k R : W_cont G k VUnit None R -> W_comp G (JustComputation k) (None :: R)
| W_submit k sc f R : W_cont G k (call user f VUnit) (Some sc) R ->
    W_comp G (SubmitComputation k sc f) (None :: Some (MkCall f VUnit (Some sc)) :: R)
| W_bothcomp c1 c2 R1 R2 : W_comp G c1 R1 -> W_comp G c2 R2 ->
    W_comp G (BothComputation c1 c2) (None :: R1 ++ R2)
| W_boxcomp c R : W_comp G c R -> W_comp G (BoxComputation c) (None :: R).

Inductive W_task G : Task -> list item -> Prop :=
| W_submittask k sc f R : W_cont G k (call user f VUnit) (Some sc) R ->
    W_task G (SubmitTask k sc f) (Some (MkCall f VUnit (Some sc)) :: R)
| W_maptask k f v s R : W_cont G k (call user f v) s R ->
    W_task G (MapTask k f v s) (Some (MkCall f v s) :: R)
| W_mapoktask k f v s R : is_result v -> W_cont G k (mapok_val f v) s R ->
    W_task G (MapOkTask k f v s) (mapok_item f v s :: R).

Inductive W_frame G : Frame -> list item -> Prop :=
| W_start c R : W_comp G c R -> W_frame G (Start 0 c) R
| W_resume k v s R : W_cont G k v s R -> W_frame G (Resume 0 k v s) R
| W_run t R : W_task G t R -> W_frame G (Run 0 t) R
| W_check n first : W_frame G (BothCheck 0 n first) [None]
| W_fire : get = true -> W_frame G (EventFire 0) [None]
| W_wait : get = true -> W_frame G (GetWait 0) [None].

Definition W_cell G (h : Heap) (n : nat) (R : list item) : Prop :=
  match cell h n with
  | Some (BothContinuation _ _ _ k fin) =>
      if (fin <? 2)%Z then W_cont G k (VPair (G n).1 (G n).2) None R else R = []
  | _ => R = []
  end.

(** The resources depend on [G] only at the cells the sinks name. *)
Definition agree (S : list Sink) G G' : Prop :=
  forall n first b, SBoth n first b ∈ S -> G n = G' n.

Lemma W_cont_agree G G' k v s R :
  agree [sink_of k] G G' -> W_cont G k v s R -> W_cont G' k v s R.
Proof.
  intros HA H. induction H; try (by econstructor; eauto).
  rewrite (HA n first false); [constructor|]. simpl. set_solver.
Qed.

Lemma W_comp_agree G G' c R : agree (comp_sinks c) G G' -> W_comp G c R -> W_comp G' c R.
Proof.
  intros HA H. induction H; constructor; eauto using W_cont_agree.
  - apply IHW_comp1. intros n f b Hin. apply (HA n f b), elem_of_app. auto.
  - apply IHW_comp2. intros n f b Hin. apply (HA n f b), elem_of_app. auto.
Qed.

Lemma W_frame_agree G G' f R : agree (frame_sinks f) G G' -> W_frame G f R -> W_frame G' f R.
Proof.
  intros HA H. destruct H as [| |t R Ht| | |]; try (constructor; eauto using W_cont_agree, W_comp_agree; fail).
  constructor. destruct Ht; constructor; eauto using W_cont_agree.
Qed.

Lemma W_comp_sinks G c R : W_comp G c R -> comp_sinks c <> [].
Proof. induction 1; simpl; try done. by destruct (comp_sinks c1). Qed.

Lemma W_frame_sinks G f R : W_frame G f R -> f = GetWait 0 \/ frame_sinks f <> [].
Proof. destruct 1; simpl; eauto using W_comp_sinks. Qed.

(** ** [Materialize] *)

Lemma cell_app_l h cs n : n < length h -> cell (h ++ cs) n = cell h n.
Proof. intros H. unfold cell. by rewrite lookup_app_l. Qed.

Lemma cell_mid h c cs : cell (h ++ Some c :: cs) (length h) = Some c.
Proof. unfold cell. by rewrite lookup_app_r, Nat.sub_diag. Qed.

Lemma cell_sinks_app h cs n : n < length h -> cell_sinks (h ++ cs) n = cell_sinks h n.
Proof. intros H. unfold cell_sinks. by rewrite cell_app_l. Qed.

Lemma W_cell_app G h cs n R : n < length h -> W_cell G (h ++ cs) n R = W_cell G h n R.
Proof. intros H. unfold W_cell. by rewrite cell_app_l. Qed.

(** A sink that exists in a heap of [len] cells. *)
Definition sink_lt (len : nat) (x : Sink) : Prop :=
  match x with SRoot _ => True | SBoth n _ _ => 0 < n < len end.

Definition sides (n : nat) : list Sink := [SBoth n true false; SBoth n false false].

Definition fresh_both (h : Heap) (n : nat) : Prop :=
  exists k, cell h n = Some (BothContinuation 0 None None k 0) /\ sink_lt n (sink_of k).

Lemma bind_sinks_ext (f g : nat -> list Sink) a b :
  (forall n, a <= n < a + b -> f n = g n) -> seq a b ≫= f = seq a b ≫= g.
Proof.
  revert a. induction b as [|b IH]; intros a H; [done|]. cbn. f_equal.
  - apply H. lia.
  - apply IH. intros n Hn. apply H. lia.
Qed.

Definition mat_ok G (h : Heap) (k : Cont) (R : list item) (res : Comp * Heap) : Prop :=
  exists G' cs R1 R2,
    res.2 = h ++ cs /\
    (forall n, n < length h -> G' n = G n) /\
    W_comp G' res.1 R1 /\
    Wsum (W_cell G' (h ++ cs)) (seq (length h) (length cs)) R2 /\
    R1 ++ R2 ≡ₚ R /\
    (forall n, length h <= n < length (h ++ cs) -> fresh_both (h ++ cs) n) /\
    comp_sinks res.1 ++ (seq (length h) (length cs) ≫= cell_sinks (h ++ cs))
      ≡ₚ sink_of k :: (seq (length h) (length cs) ≫= sides).

(** A computation that needs no cell of its own. *)
Lemma mat_ok_leaf G h k R c :
  W_comp G c R -> comp_sinks c = [sink_of k] -> mat_ok G h k R (c, h).
Proof.
  intros Hc Hs. exists G, [], R, []. simpl. rewrite !app_nil_r.
  split_and!; try done; [constructor|lia|by rewrite Hs].
Qed.

Lemma mat_ok_items G h k R R' res : R ≡ₚ R' -> mat_ok G h k R res -> mat_ok G h k R' res.
Proof.
  intros HR (G' & cs & R1 & R2 & ? & ? & ? & ? & HR' & ? & ?).
  exists G', cs, R1, R2. by rewrite <- HR.
Qed.

Lemma mat_ok_sink G h k k' R res : sink_of k = sink_of k' -> mat_ok G h k R res -> mat_ok G h k' R res.
Proof. intros HR (G' & cs & R1 & R2 & H). exists G', cs, R1, R2. by rewrite <- HR. Qed.

Lemma mat_ok_box G h k R c h' :
  mat_ok G h k R (c, h') -> mat_ok G h k (None :: R) (BoxComputation c, h').
Proof.
  intros (G' & cs & R1 & R2 & ? & ? & ? & ? & HR' & ? & ?). simplify_eq/=.
  exists G', cs, (None :: R1), R2. split_and!; try done; [by constructor|].
  simpl. by rewrite HR'.
Qed.

Lemma sides_agree G G' (h : Heap) k : (forall n, n < length h -> G' n = G n) ->
  sink_lt (length h) (sink_of k) -> agree [sink_of k] G G'.
Proof.
  intros HG Hk n first b Hin. apply list_elem_of_singleton in Hin. rewrite <- Hin in Hk.
  symmetry. apply HG. simpl in Hk. lia.
Qed.

Lemma seq_bind_app {B} (f : nat -> list B) a b c :
  seq a (b + c) ≫= f = (seq a b ≫= f) ++ (seq (a + b) c ≫= f).
Proof. by rewrite seq_app, bind_app. Qed.

(** Two computations materialized one after the other inside a fresh
    [BothContinuation]. *)
Lemma mat_ok_both G h k v1 v2 R R1 R2 c1 c2 h2 h3 :
  0 < length h ->
  W_cont G k (VPair v1 v2) None R -> sink_lt (length h) (sink_of k) ->
  let n := length h in
  let h1 := h ++ [Some (BothContinuation 0 None None k 0)] in
  mat_ok (<[n := (v1, v2)]> G) h1 (BothBinder n true) R1 (c1, h2) ->
  (forall G', (forall m, m < length h1 -> G' m = <[n := (v1, v2)]> G m) ->
     mat_ok G' h2 (BothBinder n false) R2 (c2, h3)) ->
  mat_ok G h k (None :: R1 ++ R2 ++ R) (BothComputation c1 c2, h3).
Proof.
  intros Hpos Hk Hlt n h1 (G1 & cs1 & Ra & Rb & Hh2 & HG1 & Hc1 & Hcell1 & HP1 & Hf1 & Hs1) H2.
  destruct (H2 G1 HG1) as (G2 & cs2 & Rc & Rd & Hh3 & HG2 & Hc2 & Hcell2 & HP2 & Hf2 & Hs2).
  clear H2. simpl in *. subst h2 h3.
  set (c := BothContinuation 0 None None k 0) in *.
  assert (Hlen1 : length h1 = S n) by (unfold h1; rewrite length_app; simpl; lia).
  assert (Hlen2 : length (h1 ++ cs1) = S n + length cs1) by (rewrite length_app; lia).
  assert (Hh : (h1 ++ cs1) ++ cs2 = h ++ (Some c :: cs1 ++ cs2)).
  { unfold h1. by rewrite <- !app_assoc. }
  assert (Hcn : cell ((h1 ++ cs1) ++ cs2) n = Some c).
  { rewrite Hh. apply cell_mid. }
  assert (HGn : forall m, m < n -> G2 m = G m).
  { intros m Hm. rewrite HG2 by lia. rewrite HG1 by lia. rewrite fn_lookup_insert_ne; [done|lia]. }
  assert (HGnn : G2 n = (v1, v2)).
  { rewrite HG2 by lia. rewrite HG1 by lia. by rewrite fn_lookup_insert. }
  exists G2, (Some c :: cs1 ++ cs2), (None :: Ra ++ Rc), (R ++ Rb ++ Rd).
  assert (Hseq : seq n (length (Some c :: cs1 ++ cs2)) =
                 n :: seq (S n) (length cs1) ++ seq (S n + length cs1) (length cs2)).
  { simpl. by rewrite length_app, <- seq_app. }
  assert (Hag : agree (comp_sinks c1) G1 G2).
  { intros m first b Hin. symmetry. apply HG2.
    assert (Hin' : SBoth m first b ∈ comp_sinks c1 ++ (seq (length h1) (length cs1) ≫= cell_sinks (h1 ++ cs1)))
      by (apply elem_of_app; auto).
    rewrite Hs1 in Hin'. apply elem_of_cons in Hin' as [[= -> -> ->]|Hin']; [lia|].
    apply list_elem_of_bind in Hin' as (m' & Hin' & Hm').
    apply elem_of_seq in Hm'. unfold sides in Hin'.
    assert (m = m') as -> by set_solver. lia. }
  split_and!.
  - by rewrite Hh.
  - done.
  - constructor; [by eapply W_comp_agree|done].
  - fold n. rewrite <- Hh, Hseq. econstructor; [| |reflexivity].
    + unfold W_cell. rewrite Hcn. unfold c. simpl. rewrite HGnn. simpl.
      eapply W_cont_agree; [|done]. by eapply sides_agree.
    + apply Wsum_app; [|by rewrite <- Hlen2].
      rewrite <- Hlen1. eapply Wsum_impl; [|apply Hcell1].
      intros m R' Hm%elem_of_seq HW. rewrite W_cell_app by lia.
      destruct (Hf1 m) as (k' & Hck & Hltk); [lia|].
      unfold W_cell in *. rewrite Hck in *. simpl in *.
      rewrite HG2 by lia. eapply W_cont_agree; [|done].
      eapply (sides_agree _ _ (h1 ++ cs1)); [done|].
      destruct (sink_of k'); simpl in *; [done|lia].
  - simpl. apply perm_skip. rewrite <- HP1, <- HP2. solve_Permutation.
  - rewrite <- Hh. intros m Hm. destruct (decide (m = n)) as [->|Hne].
    { exists k. split; [by rewrite Hcn|done]. }
    destruct (decide (m < length (h1 ++ cs1))) as [Hl|Hl].
    + destruct (Hf1 m) as (k' & ? & ?); [lia|].
      exists k'. by rewrite cell_app_l.
    + apply Hf2. lia.
  - fold n. rewrite <- Hh, Hseq. simpl. rewrite !bind_app.
    rewrite (bind_sinks_ext (cell_sinks ((h1 ++ cs1) ++ cs2)) (cell_sinks (h1 ++ cs1)) (S n)).
    2:{ intros m Hm. apply cell_sinks_app. lia. }
    change (S (n + length cs1)) with (S n + length cs1). rewrite <- Hlen2, <- Hlen1.
    transitivity (cell_sinks ((h1 ++ cs1) ++ cs2) n ++
      (comp_sinks c1 ++ (seq (length h1) (length cs1) ≫= cell_sinks (h1 ++ cs1))) ++
      (comp_sinks c2 ++ (seq (length (h1 ++ cs1)) (length cs2) ≫= cell_sinks ((h1 ++ cs1) ++ cs2)))).
    { solve_Permutation. }
    rewrite Hs1, Hs2. unfold cell_sinks at 1. rewrite Hcn. unfold c. simpl. solve_Permutation.
Qed.

Lemma materialize_ok t v s R : ev t v s R ->
  forall G k h R', W_cont G k v s R' -> 0 < length h -> sink_lt (length h) (sink_of k) ->
  mat_ok G h k (R ++ R') (Materialize t 0 k h).
Proof.
  intros H. induction H; intros G k h R0 HW Hpos Hlt; simpl.
  - apply mat_ok_leaf; [by constructor|done].
  - apply mat_ok_leaf; [by constructor|done].
  - apply mat_ok_leaf; [by constructor|done].
  - rewrite <- app_assoc. eapply (mat_ok_sink _ _ (MapContinuation k f)); [done|].
    apply IHev; [by constructor|done..].
  - rewrite <- app_assoc. eapply (mat_ok_sink _ _ (MapOkContinuation k f)); [done|].
    apply IHev; [by constructor|done..].
  - rewrite <- app_assoc. eapply (mat_ok_sink _ _ (ViaContinuation k sc)); [done|].
    apply IHev; [by constructor|done..].
  - replace ((R ++ None :: R' ++ [None]) ++ R0) with (R ++ (None :: R' ++ None :: R0))
      by (simpl; by rewrite <- !app_assoc; simpl; rewrite <- app_assoc).
    eapply (mat_ok_sink _ _ (FlattenContinuation k)); [done|].
    apply IHev1; [by econstructor|done..].
  - unfold BothThunk_Materialize, new.
    set (n := length h). set (h1 := h ++ [Some (BothContinuation 0 None None k 0)]).
    destruct (Materialize p1 0 (BothBinder n true) h1) as [c1 h2] eqn:E1.
    destruct (Materialize p2 0 (BothBinder n false) h2) as [c2 h3] eqn:E2.
    assert (Hlen1 : length h1 = S n) by (unfold h1; rewrite length_app; simpl; lia).
    assert (M1 : mat_ok (<[n := (v1, v2)]> G) h1 (BothBinder n true) (R1 ++ [None; None]) (c1, h2)).
    { rewrite <- E1. apply IHev1; [|lia|simpl; lia].
      apply W_both_eq. by rewrite fn_lookup_insert. }
    eapply mat_ok_items; [|eapply (mat_ok_both G h k v1 v2 R0 (R1 ++ [None; None]) (R2 ++ [None; None]));
      [done..|exact M1|]].
    { simpl. rewrite <- !app_assoc. reflexivity. }
    intros G' HG'. rewrite <- E2.
    destruct M1 as (G1 & cs1 & _ & _ & Hh2 & _). simpl in Hh2.
    apply IHev2; [|rewrite Hh2, length_app; lia|simpl; rewrite Hh2, length_app; lia].
    apply W_both_eq. rewrite HG'; [by rewrite fn_lookup_insert|]. fold n h1. lia.
  - unfold Box_Materialize.
    destruct (Materialize p 0 (BoxConsumer k) h) as [c h'] eqn:E.
    rewrite <- app_assoc. apply mat_ok_box.
    eapply (mat_ok_sink _ _ (BoxConsumer k)); [done|]. rewrite <- E.
    apply IHev; [by constructor|done..].
Qed.

(** ** The invariant *)

Lemma cell_put_eq h n c : n < length h -> cell (put n c h) n = Some c.
Proof. intros H. unfold cell, put. by rewrite list_lookup_insert_eq. Qed.

Lemma cell_put_ne h n m c : n <> m -> cell (put n c h) m = cell h m.
Proof. intros H. unfold cell, put. by rewrite list_lookup_insert_ne. Qed.

Lemma cell_free_ne h n m : n <> m -> cell (free n h) m = cell h m.
Proof. intros H. unfold cell, free. by rewrite list_lookup_insert_ne. Qed.

Lemma cell_free_eq h n : n < length h -> cell (free n h) n = None.
Proof. intros H. unfold cell, free. by rewrite list_lookup_insert_eq. Qed.

Lemma seq_split_at n len : n < len ->
  seq 0 len ≡ₚ n :: seq 0 n ++ seq (S n) (len - S n).
Proof.
  intros H. replace len with (n + S (len - S n)) at 1 by lia.
  rewrite seq_app. simpl. solve_Permutation.
Qed.

(** Two heaps of the same length that differ at one address only. *)
Definition differ_at (n : nat) (h h' : Heap) : Prop :=
  length h' = length h /\ n < length h /\ forall m, m <> n -> cell h' m = cell h m.

Lemma differ_put n c h : n < length h -> differ_at n h (put n c h).
Proof.
  intros H. split_and!; [apply length_insert|done|].
  intros m Hm. apply cell_put_ne. done.
Qed.

Lemma differ_free n h : n < length h -> differ_at n h (free n h).
Proof.
  intros H. split_and!; [apply length_insert|done|].
  intros m Hm. apply cell_free_ne. done.
Qed.

Lemma bind_cells_differ n h h' : differ_at n h h' ->
  exists L, (seq 0 (length h) ≫= cell_sinks h) ≡ₚ cell_sinks h n ++ L /\
            (seq 0 (length h') ≫= cell_sinks h') ≡ₚ cell_sinks h' n ++ L.
Proof.
  intros (Hl & Hn & Hc). exists ((seq 0 n ++ seq (S n) (length h - S n)) ≫= cell_sinks h).
  rewrite Hl, (seq_split_at n (length h)) by done. split; [done|].
  simpl. apply Permutation_app_head. rewrite !bind_app.
  rewrite (bind_sinks_ext (cell_sinks h') (cell_sinks h) 0),
          (bind_sinks_ext (cell_sinks h') (cell_sinks h) (S n)); [done|..].
  all: intros m Hm; unfold cell_sinks; by rewrite Hc by lia.
Qed.

Lemma Wsum_cells_differ G n h h' R R2 (P : list item -> Prop) : differ_at n h h' ->
  Wsum (W_cell G h) (seq 0 (length h)) R2 ->
  (forall R1, W_cell G h n R1 ->
     exists R1' R', W_cell G h' n R1' /\ P R' /\ R1 ++ R ≡ₚ R1' ++ R') ->
  exists R2' R', Wsum (W_cell G h') (seq 0 (length h')) R2' /\ P R' /\ R2 ++ R ≡ₚ R2' ++ R'.
Proof.
  intros (Hl & Hn & Hc) HW Hcell.
  eapply Wsum_perm_l in HW; [|by apply (seq_split_at n)].
  apply Wsum_cons_inv in HW as (R1 & R3 & Hx & HW & HP).
  destruct (Hcell _ Hx) as (R1' & R' & Hx' & HR' & HP').
  exists (R1' ++ R3), R'. split_and!; [|done|].
  - eapply Wsum_perm_l; [symmetry; apply (seq_split_at n); lia|].
    econstructor; [done| |reflexivity]. rewrite Hl.
    eapply Wsum_impl; [|apply HW]. intros m Rm Hm Hcm.
    unfold W_cell in *. rewrite Hc; [done|].
    intros ->. apply elem_of_app in Hm as [Hm%elem_of_seq|Hm%elem_of_seq]; lia.
  - rewrite HP. transitivity ((R1 ++ R) ++ R3); [solve_Permutation|]. rewrite HP'. solve_Permutation.
Qed.

(** Who will call, and what is still to be called. *)
Definition work G (F : list Frame) (h : Heap) (T : list item) : Prop :=
  exists R1 R2, Wsum (W_frame G) F R1 /\ Wsum (W_cell G h) (seq 0 (length h)) R2 /\ T ≡ₚ R1 ++ R2.

Definition root_ok (h : Heap) (a b : nat) : Prop :=
  if get then
    exists res fired, cell h 0 = Some (GetFrame res fired) /\ (a = 0 -> res = Some v0) /\
      ((fired = 0%Z /\ a + b = 1) \/ (fired = 1%Z /\ a + b = 0))
  else (a = 1 /\ b = 0 /\ cell h 0 = Some SelfDestructingComputation) \/
       (a = 0 /\ b = 0 /\ cell h 0 = None).

(** The cell counts the sides that have passed [Check]; the others are fed by
    exactly one pending call or cell. *)
Definition both_ok G (h : Heap) (S : list Sink) (n : nat) : Prop :=
  exists a b k fin,
    cell h n = Some (BothContinuation 0 a b k fin) /\ sink_lt n (sink_of k) /\
    (fin + Z.of_nat (occ (SBoth n true true) S + occ (SBoth n true false) S +
                     occ (SBoth n false true) S + occ (SBoth n false false) S) = 2)%Z /\
    occ (SBoth n true true) S + occ (SBoth n true false) S <= 1 /\
    occ (SBoth n false true) S + occ (SBoth n false false) S <= 1 /\
    (occ (SBoth n true false) S = 0 -> a = Some (G n).1) /\
    (occ (SBoth n false false) S = 0 -> b = Some (G n).2).

Record shape G (S : list Sink) (h : Heap) : Prop := {
  sh_len : 0 < length h;
  sh_root : root_ok h (occ (SRoot false) S) (occ (SRoot true) S);
  sh_both n : 0 < n < length h -> both_ok G h S n;
  sh_lt x : x ∈ S -> sink_lt (length h) x;
}.

Definition inv G F h T : Prop := work G F h T /\ shape G (sinks F h) h.

Lemma shape_perm G S S' h : S ≡ₚ S' -> shape G S h -> shape G S' h.
Proof.
  intros HP [? Hr Hb Hl]. constructor.
  - done.
  - by rewrite <- !(occ_perm _ _ _ HP).
  - intros n Hn. destruct (Hb n Hn) as (a & b & k & fin & H). exists a, b, k, fin.
    by rewrite <- !(occ_perm _ _ _ HP).
  - intros x. rewrite <- HP. auto.
Qed.

Lemma work_cons G f F h T :
  work G (f :: F) h T <-> exists R T0, W_frame G f R /\ work G F h T0 /\ T ≡ₚ R ++ T0.
Proof.
  split.
  - intros (R1 & R2 & H1 & H2 & HT). apply Wsum_cons_inv in H1 as (R & R' & ? & ? & HR).
    exists R, (R' ++ R2). split_and!; [done|by exists R', R2|]. by rewrite HT, HR, app_assoc.
  - intros (R & T0 & ? & (R1 & R2 & ? & ? & HT0) & HT). exists (R ++ R1), R2.
    split_and!; [by econstructor|done|]. by rewrite HT, HT0, app_assoc.
Qed.

Lemma work_perm G F F' h T T' : F ≡ₚ F' -> T ≡ₚ T' -> work G F h T -> work G F' h T'.
Proof.
  intros HF HT (R1 & R2 & ? & ? & HR). exists R1, R2.
  split_and!; [by eapply Wsum_perm_l|done|by rewrite <- HT].
Qed.

Lemma sinks_cons f F h : sinks (f :: F) h = frame_sinks f ++ sinks F h.
Proof. unfold sinks. simpl. by rewrite <- app_assoc. Qed.

Lemma sinks_perm F F' h : F ≡ₚ F' -> sinks F h ≡ₚ sinks F' h.
Proof. intros HF. unfold sinks. by rewrite HF. Qed.

Lemma inv_perm G F F' h T T' : F ≡ₚ F' -> T ≡ₚ T' -> inv G F h T -> inv G F' h T'.
Proof.
  intros HF HT [? ?]. split; [by eapply work_perm|].
  eapply shape_perm; [|done]. by apply sinks_perm.
Qed.

(** ** Every sink leads to the root *)

Lemma cell_sink_in F h n a b k fin ow :
  n < length h -> cell h n = Some (BothContinuation ow a b k fin) -> (fin < 2)%Z ->
  sink_of k ∈ sinks F h.
Proof.
  intros Hn Hc Hfin. unfold sinks. apply elem_of_app. right.
  apply list_elem_of_bind. exists n. split; [|apply elem_of_seq; lia].
  unfold cell_sinks. rewrite Hc. apply Z.ltb_lt in Hfin. rewrite Hfin. left.
Qed.

Lemma shape_unfired G S h n first b : shape G S h -> SBoth n first b ∈ S ->
  exists va vb k fin, cell h n = Some (BothContinuation 0 va vb k fin) /\ (fin < 2)%Z /\
    sink_lt n (sink_of k) /\ 0 < n < length h.
Proof.
  intros Hs Hin. pose proof (sh_lt _ _ _ Hs _ Hin) as Hn. simpl in Hn.
  destruct (sh_both _ _ _ Hs n Hn) as (va & vb & k & fin & Hc & Hk & Hfin & _).
  exists va, vb, k, fin. split_and!; try done || lia.
  apply occ_pos in Hin. destruct first, b; lia.
Qed.

Lemma sinks_lead_to_root G F h : shape G (sinks F h) h ->
  occ (SRoot false) (sinks F h) = 0 -> occ (SRoot true) (sinks F h) = 0 -> sinks F h = [].
Proof.
  intros Hs Hf Ht.
  assert (Hno : forall n first b, SBoth n first b ∉ sinks F h).
  { intros n. induction (lt_wf n) as [n _ IH]. intros first b Hin.
    destruct (shape_unfired _ _ _ _ _ _ Hs Hin) as (va & vb & k & fin & Hc & Hfin & Hk & Hn).
    pose proof (cell_sink_in F _ _ _ _ _ _ _ (proj2 Hn) Hc Hfin) as Hin'.
    destruct (sink_of k) as [[]|m first' b'] eqn:E; simpl in Hk.
    - apply occ_pos in Hin'. lia.
    - apply occ_pos in Hin'. lia.
    - eapply IH; [|exact Hin']. lia. }
  destruct (sinks F h) as [|[[]|n first b] S] eqn:E; [done|..].
  - rewrite occ_cons, decide_True in Ht by done. lia.
  - rewrite occ_cons, decide_True in Hf by done. lia.
  - exfalso. eapply (Hno n first b). left.
Qed.

Lemma inv_alive G f F h T : inv G (f :: F) h T -> frame_sinks f <> [] -> alive h 0 = true.
Proof.
  intros [_ Hs] Hf. pose proof (sh_root _ _ _ Hs) as Hr. unfold root_ok, alive in *.
  destruct get; [by destruct Hr as (? & ? & -> & _)|].
  destruct Hr as [(_ & _ & ->)|(H1 & H2 & _)]; [done|].
  pose proof (sinks_lead_to_root _ _ _ Hs H1 H2) as H. rewrite sinks_cons in H.
  apply app_eq_nil in H as [? _]. done.
Qed.

(** ** One call preserves the invariant *)

(** Executing [f] takes the one step [it] that its resources announce. *)
Definition next_ok G f F h T : Prop :=
  exists e it T' G',
    exec user f h = Next e /\ e_ret e = None /\ e_log e = option_list it /\ T ≡ₚ it :: T' /\
    inv G' (e_calls e ++ map snd (e_submit e) ++ F) (e_heap e) T' /\
    Forall (fun f => f <> GetWait 0) (e_calls e ++ map snd (e_submit e)).

(** A call that only makes other calls, for the same sinks. *)
Lemma next_pure G f F h T T0 e it fs R :
  shape G (sinks (f :: F) h) h -> work G F h T0 ->
  T ≡ₚ it :: R ++ T0 -> exec user f h = Next e -> e_ret e = None ->
  e_log e = option_list it -> e_heap e = h -> e_calls e ++ map snd (e_submit e) = fs ->
  Wsum (W_frame G) fs R -> frame_sinks f ≡ₚ (fs ≫= frame_sinks) ->
  Forall (fun f => f <> GetWait 0) fs -> next_ok G f F h T.
Proof.
  intros Hs (R1 & R2 & H1 & H2 & HT0) HT He Hr Hl Hh Hfs HR Hsk Hw.
  exists e, it, (R ++ T0), G. split_and!; try done; [|by rewrite Hfs].
  rewrite app_assoc, Hfs, Hh. split.
  - exists (R ++ R1), R2. split_and!; [by apply Wsum_app|done|]. by rewrite HT0, app_assoc.
  - eapply shape_perm; [|exact Hs]. rewrite sinks_cons, Hsk. unfold sinks.
    by rewrite bind_app, app_assoc.
Qed.

Lemma next_pure1 G f F h T T0 e it f' R :
  shape G (sinks (f :: F) h) h -> work G F h T0 ->
  T ≡ₚ it :: R ++ T0 -> exec user f h = Next e -> e_ret e = None ->
  e_log e = option_list it -> e_heap e = h -> e_calls e ++ map snd (e_submit e) = [f'] ->
  W_frame G f' R -> frame_sinks f = frame_sinks f' -> f' <> GetWait 0 -> next_ok G f F h T.
Proof.
  intros ???????? HW Hf ?. eapply next_pure; try done.
  - by apply Wsum_singleton.
  - simpl. by rewrite app_nil_r, Hf.
  - by repeat constructor.
Qed.

Lemma submit_next sc task h : exists e, Submit sc task h = Next e /\ e_ret e = None /\
  e_log e = [] /\ e_heap e = h /\ e_calls e ++ map snd (e_submit e) = [task].
Proof. unfold Submit. case_decide; eexists; split_and!; reflexivity. Qed.

Ltac pure_next it f' :=
  lazymatch goal with Ha : alive ?h 0 = true |- next_ok _ ?f _ ?h _ =>
    let H := fresh in
    eassert (H : exec user f h = Next _) by (cbv [exec owner_of]; rewrite Ha; reflexivity);
    eapply (next_pure1 _ _ _ _ _ _ _ it f' _ ltac:(eassumption) ltac:(eassumption)
              ltac:(eassumption) H); try reflexivity; try done;
    by repeat constructor
  end.

Lemma next_task G t R F h T T0 :
  alive h 0 = true -> W_task G t R -> work G F h T0 -> T ≡ₚ R ++ T0 ->
  shape G (sinks (Run 0 t :: F) h) h -> next_ok G (Run 0 t) F h T.
Proof.
  intros Ha HW HT0 HT Hs. destruct HW as [k sc f R HW|k f v s R HW|k f v s R Hv HW].
  - pure_next (Some (MkCall f VUnit (Some sc))) (Resume 0 k (call user f VUnit) (Some sc)).
  - pure_next (Some (MkCall f v s)) (Resume 0 k (call user f v) s).
  - destruct v as [| | |x|e| |]; try done.
    + pure_next (Some (MkCall f x s)) (Resume 0 k (VOk (call user f x)) s).
    + pure_next (@None Call) (Resume 0 k (VErr e) s).
Qed.

Lemma next_start G c R F h T T0 :
  alive h 0 = true -> W_comp G c R -> work G F h T0 -> T ≡ₚ R ++ T0 ->
  shape G (sinks (Start 0 c :: F) h) h -> next_ok G (Start 0 c) F h T.
Proof.
  intros Ha HW HT0 HT Hs. destruct HW as [k v R HW|k R HW|k sc f R HW|c1 c2 R1 R2 H1 H2|c R HW].
  - pure_next (@None Call) (Resume 0 k v None).
  - pure_next (@None Call) (Resume 0 k VUnit None).
  - destruct (submit_next sc (Run 0 (SubmitTask k sc f)) h) as (e & He & ? & Hlog & ? & ?).
    eapply (next_pure1 _ _ _ _ _ _ e None); try eassumption; try done.
    + cbv [exec owner_of]. by rewrite Ha.
    + by repeat constructor.
  - eassert (H : exec user (Start 0 (BothComputation c1 c2)) h = Next _)
      by (cbv [exec owner_of]; rewrite Ha; reflexivity).
    eapply (next_pure _ _ _ _ _ _ _ None [Start 0 c1; Start 0 c2] (R1 ++ R2) Hs HT0 HT H); try done.
    + econstructor; [by constructor|by apply Wsum_singleton; constructor|done].
    + simpl. by rewrite app_nil_r.
    + by repeat constructor.
  - pure_next (@None Call) (Start 0 c).
Qed.

Lemma both_ok_occ G h h' S S' n :
  cell h' n = cell h n ->
  (forall first b, occ (SBoth n first b) S' = occ (SBoth n first b) S) ->
  both_ok G h S n -> both_ok G h' S' n.
Proof.
  intros Hc HS (a & b & k & fin & H). exists a, b, k, fin. by rewrite Hc, !HS.
Qed.

(** How the sinks change when one cell and one call change. *)
Lemma occ_update x f fs F h h' n : differ_at n h h' ->
  occ x (sinks (fs ++ F) h') + occ x (frame_sinks f) + occ x (cell_sinks h n)
  = occ x (sinks (f :: F) h) + occ x (fs ≫= frame_sinks) + occ x (cell_sinks h' n).
Proof.
  intros Hd. destruct (bind_cells_differ n h h' Hd) as (L & H1 & H2).
  rewrite sinks_cons. unfold sinks. rewrite bind_app, !occ_app.
  rewrite (occ_perm _ _ _ H1), (occ_perm _ _ _ H2), !occ_app. lia.
Qed.

(** The cell at [n] changes, the call [f] is replaced by [fs], nothing else. *)
Lemma next_cell G f fs F h h' T T0 n R :
  work G F h T0 -> T ≡ₚ R ++ T0 -> exec user f h = tail fs h' -> differ_at n h h' ->
  (forall Rc, W_cell G h n Rc -> exists Rc' Rf, W_cell G h' n Rc' /\
     Wsum (W_frame G) fs Rf /\ Rc ++ R ≡ₚ Rc' ++ None :: Rf) ->
  shape G (sinks (fs ++ F) h') h' ->
  Forall (fun f => f <> GetWait 0) fs -> next_ok G f F h T.
Proof.
  intros (R1 & R2 & H1 & H2 & HT0) HT He Hd Hc Hs' Hw.
  destruct (Wsum_cells_differ G n h h' R R2
    (fun R' => exists Rf, R' = None :: Rf /\ Wsum (W_frame G) fs Rf) Hd H2)
    as (R2' & R' & Hcells & (Rf & -> & Hf) & HP).
  { intros Rc HRc. destruct (Hc Rc HRc) as (Rc' & Rf & ? & ? & ?). eauto 10. }
  eexists _, None, (Rf ++ R1 ++ R2'), G. split_and!; [exact He|done..| | |].
  - rewrite HT, HT0. transitivity ((R2 ++ R) ++ R1); [solve_Permutation|]. rewrite HP. solve_Permutation.
  - simpl. split; [|done].
    exists (Rf ++ R1), R2'. split_and!; [by apply Wsum_app|done|by rewrite app_assoc].
  - simpl. by rewrite app_nil_r.
Qed.

Definition about (n : nat) (x : Sink) : Prop :=
  match x with SRoot _ => n = 0 | SBoth m _ _ => m = n /\ 0 < n end.

(** The shape is kept when only the cell at [n] changes, only the sinks into
    it are counted differently, and its own clause holds again. *)
Lemma shape_update G f fs F h h' n :
  shape G (sinks (f :: F) h) h -> differ_at n h h' ->
  (forall x, ~ about n x ->
     occ x (frame_sinks f) + occ x (cell_sinks h n) =
     occ x (fs ≫= frame_sinks) + occ x (cell_sinks h' n)) ->
  (n = 0 -> root_ok h' (occ (SRoot false) (sinks (fs ++ F) h')) (occ (SRoot true) (sinks (fs ++ F) h'))) ->
  (0 < n -> both_ok G h' (sinks (fs ++ F) h') n) ->
  shape G (sinks (fs ++ F) h') h'.
Proof.
  intros [Hl Hr Hb Hlt] Hd Hx Hroot Hboth.
  assert (Hocc : forall x, ~ about n x -> occ x (sinks (fs ++ F) h') = occ x (sinks (f :: F) h)).
  { intros x Hn. specialize (Hx x Hn). pose proof (occ_update x f fs F h h' n Hd). lia. }
  pose proof Hd as (Hlen & Hn & Hcc). constructor.
  - by rewrite Hlen.
  - destruct (decide (n = 0)) as [->|Hne]; [by apply Hroot|].
    rewrite !Hocc by done. unfold root_ok in *. by rewrite Hcc.
  - intros m Hm. destruct (decide (m = n)) as [->|Hne]; [apply Hboth; lia|].
    eapply both_ok_occ; [by apply Hcc| |apply Hb; lia].
    intros first b. apply Hocc. simpl. lia.
  - intros x Hin. rewrite Hlen. destruct x as [?|m first b]; [done|].
    destruct (decide (m = n /\ 0 < n)) as [[-> ?]|Hne]; [simpl; lia|].
    apply Hlt, occ_pos. rewrite <- Hocc by done. by apply occ_pos.
Qed.

Ltac occ_cases :=
  cbn [mbind list_bind app frame_sinks sink_of] in *; rewrite ?occ_cons, ?occ_nil in *;
  repeat case_decide; simplify_eq.

(** [BothBinder::Resume] stores the value of one side. *)
Lemma next_both_resume G n first s F h T T0 :
  shape G (sinks (Resume 0 (BothBinder n first) (pick first (G n)) s :: F) h) h ->
  alive h 0 = true -> work G F h T0 -> T ≡ₚ [None; None] ++ T0 ->
  next_ok G (Resume 0 (BothBinder n first) (pick first (G n)) s) F h T.
Proof.
  set (f := Resume 0 (BothBinder n first) (pick first (G n)) s).
  intros Hs Ha HT0 HT.
  assert (Hin : SBoth n first false ∈ sinks (f :: F) h) by (rewrite sinks_cons; left).
  pose proof (sh_lt _ _ _ Hs _ Hin) as Hn. simpl in Hn.
  destruct (sh_both _ _ _ Hs n Hn) as (a & b & k & fin & Hc & Hk & Hfin & H1 & H2 & Hav & Hbv).
  set (c' := if first then BothContinuation 0 (Some (pick first (G n))) b k fin
             else BothContinuation 0 a (Some (pick first (G n))) k fin).
  assert (Hd : differ_at n h (put n c' h)) by (apply differ_put; lia).
  assert (Hc' : cell (put n c' h) n = Some c') by (apply cell_put_eq; lia).
  assert (Hcs : cell_sinks (put n c' h) n = cell_sinks h n).
  { unfold cell_sinks. rewrite Hc, Hc'. unfold c'. by destruct first. }
  eapply (next_cell _ _ [BothCheck 0 n first] _ _ (put n c' h)); [done..| |exact Hd| | |].
  - cbv [exec owner_of f]. rewrite Ha. simpl.
    unfold BothBinder_Resume, BothContinuation_ResumeA, BothContinuation_ResumeB.
    rewrite Hc. unfold c'. by destruct first.
  - intros Rc HRc. exists Rc, [None]. split_and!.
    + unfold W_cell in *. rewrite Hc in HRc. rewrite Hc'. unfold c'. by destruct first.
    + apply Wsum_singleton. constructor.
    + solve_Permutation.
  - apply (shape_update G f _ F h _ n); [done..| |lia|].
    + intros x Hx. rewrite Hcs. unfold f. occ_cases; try lia. all: simpl in Hx; lia.
    + intros _.
      assert (Hocc : forall x, occ x (sinks (BothCheck 0 n first :: F) (put n c' h)) +
            occ x [SBoth n first false] = occ x (sinks (f :: F) h) + occ x [SBoth n first true]).
      { intros x. pose proof (occ_update x f [BothCheck 0 n first] F h _ n Hd) as Ho.
        rewrite Hcs in Ho. unfold f in *. cbn [mbind list_bind app frame_sinks sink_of] in Ho. lia. }
      exists (if first then Some (G n).1 else a), (if first then b else Some (G n).2), k, fin.
      pose proof (Hocc (SBoth n true true)) as O1. pose proof (Hocc (SBoth n true false)) as O2.
      pose proof (Hocc (SBoth n false true)) as O3. pose proof (Hocc (SBoth n false false)) as O4.
      clear Hocc Hs HT0 Hin. cbn [app] in *.
      set (S' := sinks (BothCheck 0 n first :: F) (put n c' h)) in *. clearbody S'.
      set (S := sinks (f :: F) h) in *. clearbody S.
      rewrite Hc'. unfold c'.
      destruct first; rewrite !occ_cons, !occ_nil in O1, O2, O3, O4;
        repeat case_decide; simplify_eq; split_and!; try done; try lia; intros;
        match goal with H : _ -> ?x = _ |- ?x = _ => apply H; lia end.
  - by repeat constructor.
Qed.

(** [Check] by the side that comes first: it only counts. *)
Lemma next_check_first G n first a b k F h T T0 :
  shape G (sinks (BothCheck 0 n first :: F) h) h ->
  alive h 0 = true -> work G F h T0 -> T ≡ₚ [None] ++ T0 ->
  cell h n = Some (BothContinuation 0 a b k 0) -> 0 < n < length h ->
  next_ok G (BothCheck 0 n first) F h T.
Proof.
  set (f := BothCheck 0 n first). intros Hs Ha HT0 HT Hc Hn.
  destruct (sh_both _ _ _ Hs n Hn) as (a' & b' & k' & fin & Hc0 & Hk & Hfin & H1 & H2 & Hav & Hbv).
  simplify_eq. set (c' := BothContinuation 0 a b k 1).
  assert (Hd : differ_at n h (put n c' h)) by (apply differ_put; lia).
  assert (Hc' : cell (put n c' h) n = Some c') by (apply cell_put_eq; lia).
  assert (Hcs : cell_sinks (put n c' h) n = cell_sinks h n).
  { unfold cell_sinks. by rewrite Hc, Hc'. }
  eapply (next_cell _ _ [] _ _ (put n c' h)); [done..| |exact Hd| | |].
  - cbv [exec owner_of f]. rewrite Ha. unfold BothContinuation_Check. by rewrite Hc.
  - intros Rc HRc. exists Rc, []. split_and!; [|constructor|solve_Permutation].
    unfold W_cell in *. rewrite Hc in HRc. by rewrite Hc'.
  - apply (shape_update G f _ F h _ n); [done..| |lia|].
    + intros x Hx. rewrite Hcs. unfold f. occ_cases; try lia. simpl in Hx. lia.
    + intros _.
      assert (Hocc : forall x, occ x (sinks ([] ++ F) (put n c' h)) + occ x [SBoth n first true] =
                               occ x (sinks (f :: F) h)).
      { intros x. pose proof (occ_update x f [] F h _ n Hd) as Ho.
        rewrite Hcs in Ho. unfold f in *. cbn [mbind list_bind app frame_sinks sink_of] in *.
        rewrite occ_nil in Ho. lia. }
      exists a, b, k, 1%Z.
      pose proof (Hocc (SBoth n true true)) as O1. pose proof (Hocc (SBoth n true false)) as O2.
      pose proof (Hocc (SBoth n false true)) as O3. pose proof (Hocc (SBoth n false false)) as O4.
      clear Hocc Hs HT0.
      set (S' := sinks ([] ++ F) (put n c' h)) in *. clearbody S'.
      set (S := sinks (f :: F) h) in *. clearbody S.
      destruct first; rewrite !occ_cons, !occ_nil in O1, O2, O3, O4;
        repeat case_decide; simplify_eq; split_and!; try done; try lia; intros;
        match goal with H : _ -> ?x = _ |- ?x = _ => apply H; lia end.
  - constructor.
Qed.

(** [Check] by the side that comes last: it resumes the consumer. *)
Lemma next_check_last G n first a b k F h T T0 :
  shape G (sinks (BothCheck 0 n first :: F) h) h ->
  alive h 0 = true -> work G F h T0 -> T ≡ₚ [None] ++ T0 ->
  cell h n = Some (BothContinuation 0 a b k 1) -> 0 < n < length h ->
  next_ok G (BothCheck 0 n first) F h T.
Proof.
  set (f := BothCheck 0 n first). intros Hs Ha HT0 HT Hc Hn.
  destruct (sh_both _ _ _ Hs n Hn) as (a' & b' & k' & fin & Hc0 & Hk & Hfin & H1 & H2 & Hav & Hbv).
  simplify_eq. set (c' := BothContinuation 0 a b k 2).
  assert (Hd : differ_at n h (put n c' h)) by (apply differ_put; lia).
  assert (Hc' : cell (put n c' h) n = Some c') by (apply cell_put_eq; lia).
  set (f' := Resume 0 k (VPair (G n).1 (G n).2) None).
  assert (Hcs : cell_sinks h n = [sink_of k] /\ cell_sinks (put n c' h) n = []).
  { unfold cell_sinks. by rewrite Hc, Hc'. }
  assert (Hocc : forall x, occ x (sinks ([f'] ++ F) (put n c' h)) + occ x [SBoth n first true] =
                           occ x (sinks (f :: F) h)).
  { intros x. pose proof (occ_update x f [f'] F h _ n Hd) as Ho.
    destruct Hcs as [E1 E2]. rewrite E1, E2 in Ho. unfold f, f' in *.
    cbn [mbind list_bind app frame_sinks sink_of] in *. rewrite occ_nil in Ho. lia. }
  assert (Hab : occ (SBoth n true false) (sinks (f :: F) h) = 0 /\
                occ (SBoth n false false) (sinks (f :: F) h) = 0).
  { pose proof (Hocc (SBoth n first true)) as O1. rewrite occ_cons, decide_True in O1 by done.
    destruct first; lia. }
  destruct Hab as [Hx1 Hx2]. specialize (Hav Hx1). specialize (Hbv Hx2).
  eapply (next_cell _ _ [f'] _ _ (put n c' h)); [done..| |exact Hd| | |].
  - cbv [exec owner_of f]. rewrite Ha. unfold BothContinuation_Check. rewrite Hc.
    rewrite Hav, Hbv. unfold c'. by rewrite Hav, Hbv.
  - intros Rc HRc. exists [], Rc. unfold W_cell in *. rewrite Hc in HRc. rewrite Hc'.
    split_and!; [done|by apply Wsum_singleton; constructor|solve_Permutation].
  - apply (shape_update G f _ F h _ n); [done..| |lia|].
    + intros x Hx. destruct Hcs as [-> ->]. unfold f, f'.
      cbn [mbind list_bind app frame_sinks]. rewrite !occ_cons, !occ_nil.
      destruct (decide (x = SBoth n first true)) as [->|]; [simpl in Hx; lia|lia].
    + intros _. exists a, b, k, 2%Z.
      pose proof (Hocc (SBoth n true true)) as O1. pose proof (Hocc (SBoth n true false)) as O2.
      pose proof (Hocc (SBoth n false true)) as O3. pose proof (Hocc (SBoth n false false)) as O4.
      clear Hocc Hs HT0.
      set (S' := sinks ([f'] ++ F) (put n c' h)) in *. clearbody S'.
      set (S := sinks (f :: F) h) in *. clearbody S.
      destruct first; rewrite !occ_cons, !occ_nil in O1, O2, O3, O4;
        repeat case_decide; simplify_eq; split_and!; try done; lia.
  - by repeat constructor.
Qed.

Lemma next_check G n first F h T T0 :
  shape G (sinks (BothCheck 0 n first :: F) h) h ->
  alive h 0 = true -> work G F h T0 -> T ≡ₚ [None] ++ T0 ->
  next_ok G (BothCheck 0 n first) F h T.
Proof.
  intros Hs Ha HT0 HT.
  assert (Hin : SBoth n first true ∈ sinks (BothCheck 0 n first :: F) h) by (rewrite sinks_cons; left).
  pose proof (sh_lt _ _ _ Hs _ Hin) as Hn. simpl in Hn.
  destruct (sh_both _ _ _ Hs n Hn) as (a & b & k & fin & Hc & Hk & Hfin & H1 & H2 & _).
  apply occ_pos in Hin.
  assert (fin = 0 \/ fin = 1)%Z as [-> | ->] by (destruct first; lia).
  - by eapply next_check_first.
  - by eapply next_check_last.
Qed.

(** The lambda of [Get], and [Fire]. *)
Lemma next_get_lambda G s F h T T0 : get = true ->
  shape G (sinks (Resume 0 (FuncDemand 0) v0 s :: F) h) h ->
  alive h 0 = true -> work G F h T0 -> T ≡ₚ [None; None] ++ T0 ->
  next_ok G (Resume 0 (FuncDemand 0) v0 s) F h T.
Proof.
  set (f := Resume 0 (FuncDemand 0) v0 s). intros Hget Hs Ha HT0 HT.
  pose proof (sh_len _ _ _ Hs) as Hl. pose proof (sh_root _ _ _ Hs) as Hr.
  unfold root_ok in Hr. rewrite Hget in Hr. destruct Hr as (res & fired & Hc & _ & Hf).
  set (c' := GetFrame (Some v0) fired).
  assert (Hd : differ_at 0 h (put 0 c' h)) by (apply differ_put; lia).
  assert (Hc' : cell (put 0 c' h) 0 = Some c') by (apply cell_put_eq; lia).
  assert (Hcs : cell_sinks h 0 = [] /\ cell_sinks (put 0 c' h) 0 = []).
  { unfold cell_sinks. by rewrite Hc, Hc'. }
  eapply (next_cell _ _ [EventFire 0] _ _ (put 0 c' h)); [done..| |exact Hd| | |].
  - cbv [exec owner_of f]. rewrite Ha. simpl. unfold Get_lambda. by rewrite Hc.
  - intros Rc HRc. exists [], [None]. unfold W_cell in *. rewrite Hc in HRc. rewrite Hc', HRc.
    split_and!; [done|by apply Wsum_singleton; constructor|done].
  - apply (shape_update G f _ F h _ 0); [done..| | |lia].
    + intros x Hx. destruct Hcs as [-> ->]. unfold f. occ_cases; try lia. all: by simpl in Hx.
    + intros _. pose proof (occ_update (SRoot false) f [EventFire 0] F h _ 0 Hd) as O1.
      pose proof (occ_update (SRoot true) f [EventFire 0] F h _ 0 Hd) as O2.
      destruct Hcs as [E1 E2]. rewrite E1, E2 in O1, O2. unfold f in *.
      unfold root_ok. rewrite Hget, Hc'. exists (Some v0), fired. split_and!; [done..|].
      clear Hs. cbn [mbind list_bind app frame_sinks sink_of] in *.
      rewrite ?occ_cons, ?occ_nil in O1, O2.
      repeat case_decide; simplify_eq. destruct Hf as [[-> Hf]|[-> Hf]]; [left|right]; lia.
  - by repeat constructor.
Qed.

Lemma next_fire G F h T T0 : get = true ->
  shape G (sinks (EventFire 0 :: F) h) h -> work G F h T0 -> T ≡ₚ [None] ++ T0 ->
  next_ok G (EventFire 0) F h T.
Proof.
  set (f := EventFire 0). intros Hget Hs HT0 HT.
  pose proof (sh_len _ _ _ Hs) as Hl. pose proof (sh_root _ _ _ Hs) as Hr.
  unfold root_ok in Hr. rewrite Hget in Hr. destruct Hr as (res & fired & Hc & Hres & Hf).
  set (c' := GetFrame res 1).
  assert (Hd : differ_at 0 h (put 0 c' h)) by (apply differ_put; lia).
  assert (Hc' : cell (put 0 c' h) 0 = Some c') by (apply cell_put_eq; lia).
  assert (Hcs : cell_sinks h 0 = [] /\ cell_sinks (put 0 c' h) 0 = []).
  { unfold cell_sinks. by rewrite Hc, Hc'. }
  eapply (next_cell _ _ [] _ _ (put 0 c' h)); [done..| |exact Hd| | |].
  - cbv [exec owner_of f]. unfold thread_Event_Fire. by rewrite Hc.
  - intros Rc HRc. exists [], []. unfold W_cell in *. rewrite Hc in HRc. rewrite Hc', HRc.
    split_and!; [done|constructor|done].
  - apply (shape_update G f _ F h _ 0); [done..| | |lia].
    + intros x Hx. destruct Hcs as [-> ->]. unfold f. occ_cases; try lia. by simpl in Hx.
    + intros _. pose proof (occ_update (SRoot false) f [] F h _ 0 Hd) as O1.
      pose proof (occ_update (SRoot true) f [] F h _ 0 Hd) as O2.
      destruct Hcs as [E1 E2]. rewrite E1, E2 in O1, O2. unfold f in *.
      unfold root_ok. rewrite Hget, Hc'. exists res, 1%Z.
      clear Hs. cbn [mbind list_bind app frame_sinks sink_of] in *.
      rewrite ?occ_cons, ?occ_nil in O1, O2. repeat case_decide; simplify_eq.
      split_and!; [done|intros; apply Hres; lia|right; lia].
  - constructor.
Qed.

Lemma next_destruct G s F h T T0 : get = false ->
  shape G (sinks (Resume 0 (DestructingDemand 0) v0 s :: F) h) h ->
  alive h 0 = true -> work G F h T0 -> T ≡ₚ [None] ++ T0 ->
  next_ok G (Resume 0 (DestructingDemand 0) v0 s) F h T.
Proof.
  set (f := Resume 0 (DestructingDemand 0) v0 s). intros Hget Hs Ha HT0 HT.
  pose proof (sh_len _ _ _ Hs) as Hl. pose proof (sh_root _ _ _ Hs) as Hr.
  unfold root_ok in Hr. rewrite Hget in Hr.
  destruct Hr as [(Hf & Ht & Hc)|(_ & _ & Hc)]; [|unfold alive in Ha; by rewrite Hc in Ha].
  assert (Hd : differ_at 0 h (free 0 h)) by (apply differ_free; lia).
  assert (Hc' : cell (free 0 h) 0 = None) by (apply cell_free_eq; lia).
  assert (Hcs : cell_sinks h 0 = [] /\ cell_sinks (free 0 h) 0 = []).
  { unfold cell_sinks. by rewrite Hc, Hc'. }
  eapply (next_cell _ _ [] _ _ (free 0 h)); [done..| |exact Hd| | |].
  - cbv [exec owner_of f]. rewrite Ha. simpl. unfold DestructingDemand_Resume. by rewrite Hc.
  - intros Rc HRc. exists [], []. unfold W_cell in *. rewrite Hc in HRc. rewrite Hc', HRc.
    split_and!; [done|constructor|done].
  - apply (shape_update G f _ F h _ 0); [done..| | |lia].
    + intros x Hx. destruct Hcs as [-> ->]. unfold f. occ_cases; try lia. by simpl in Hx.
    + intros _. pose proof (occ_update (SRoot false) f [] F h _ 0 Hd) as O1.
      pose proof (occ_update (SRoot true) f [] F h _ 0 Hd) as O2.
      destruct Hcs as [E1 E2]. rewrite E1, E2 in O1, O2. unfold f in *.
      unfold root_ok. rewrite Hget, Hc'. right.
      clear Hs. cbn [mbind list_bind app frame_sinks sink_of] in *.
      rewrite ?occ_cons, ?occ_nil in O1, O2. repeat case_decide; simplify_eq.
      split_and!; [lia|lia|done].
  - constructor.
Qed.

Lemma occ_sides n first b a len :
  occ (SBoth n first b) (seq a len ≫= sides) =
  if b then 0 else if decide (a <= n < a + len) then 1 else 0.
Proof.
  revert a. induction len as [|len IH]; intros a.
  - destruct b; [done|]. simpl. case_decide; [lia|done].
  - cbn [seq mbind list_bind]. rewrite occ_app.
    change (occ (SBoth n first b) (list_bind nat Sink sides (seq (S a) len)))
      with (occ (SBoth n first b) (seq (S a) len ≫= sides)).
    rewrite IH. unfold sides. rewrite !occ_cons, occ_nil.
    destruct (decide (n = a)) as [->|Hne]; destruct first, b;
      repeat case_decide; simplify_eq; lia.
Qed.

Lemma occ_root_sides b a len : occ (SRoot b) (seq a len ≫= sides) = 0.
Proof.
  destruct (decide (0 < occ (SRoot b) (seq a len ≫= sides))) as [Hin|]; [|lia].
  apply occ_pos, list_elem_of_bind in Hin as (n & Hin & _). unfold sides in Hin. set_solver.
Qed.

(** New cells, each fed from both sides by what was just materialized. *)
Lemma shape_extend G G' h cs S S' :
  shape G S h ->
  (forall n, n < length h -> G' n = G n) ->
  (forall n, length h <= n < length (h ++ cs) -> fresh_both (h ++ cs) n) ->
  S' ≡ₚ S ++ (seq (length h) (length cs) ≫= sides) ->
  shape G' S' (h ++ cs).
Proof.
  intros [Hl Hr Hb Hlt] HG Hfresh HS. eapply shape_perm; [symmetry; exact HS|].
  assert (Hlen : length (h ++ cs) = length h + length cs) by apply length_app.
  assert (Hno : forall n first b, length h <= n -> occ (SBoth n first b) S = 0).
  { intros n first b Hn. destruct (decide (0 < occ (SBoth n first b) S)) as [Hin|]; [|lia].
    apply occ_pos, Hlt in Hin. simpl in Hin. lia. }
  constructor.
  - lia.
  - rewrite !occ_app, !occ_root_sides, !Nat.add_0_r. unfold root_ok in *. by rewrite cell_app_l.
  - intros n Hn. destruct (decide (n < length h)) as [Hold|Hnew].
    + destruct (Hb n) as (a & b & k & fin & H); [lia|]. exists a, b, k, fin.
      rewrite cell_app_l, HG, !occ_app, !occ_sides by done.
      case_decide; [lia|]. by rewrite !Nat.add_0_r.
    + destruct (Hfresh n) as (k & Hc & Hk); [lia|]. exists None, None, k, 0%Z.
      rewrite !occ_app, !occ_sides, !Hno by lia.
      case_decide; [|lia]. split_and!; try done; lia.
  - intros x. rewrite elem_of_app. intros [Hin|Hin].
    + apply Hlt in Hin. destruct x; simpl in *; [done|lia].
    + destruct x as [b|n first b]; [done|]. apply occ_pos in Hin. rewrite occ_sides in Hin.
      destruct b; [lia|]. case_decide; [simpl; lia|lia].
Qed.

(** [FlattenContinuation::Resume] materializes and starts the inner future. *)
Lemma next_flatten G k t v s s' R R' F h T T0 :
  ev t v s' R' -> W_cont G k v s R ->
  shape G (sinks (Resume 0 (FlattenContinuation k) (VThunk t) s :: F) h) h ->
  alive h 0 = true -> work G F h T0 -> T ≡ₚ (None :: R' ++ None :: R) ++ T0 ->
  next_ok G (Resume 0 (FlattenContinuation k) (VThunk t) s) F h T.
Proof.
  intros Hev HW Hs Ha (R1 & R2 & HR1 & HR2 & HT0) HT.
  assert (Hk : sink_lt (length h) (sink_of k)).
  { apply (sh_lt _ _ _ Hs). rewrite sinks_cons. left. }
  pose proof (sh_len _ _ _ Hs) as Hl.
  pose proof (materialize_ok t v s' R' Hev G (InnerFlattenContinuation k s) h (None :: R)
                (W_inner _ _ _ _ _ _ HW) Hl Hk) as HM.
  destruct (Materialize t 0 (InnerFlattenContinuation k s) h) as [c h'] eqn:EM.
  destruct HM as (G' & cs & Rc & Rn & Hh & HG & Hc & Hcells & HP & Hf & Hsk). simpl in *. subst h'.
  assert (HagF : forall f, f ∈ F -> agree (frame_sinks f) G G').
  { intros f Hf' n first b Hin. symmetry. apply HG.
    assert (Hx : SBoth n first b ∈ sinks (Resume 0 (FlattenContinuation k) (VThunk t) s :: F) h).
    { rewrite sinks_cons. apply elem_of_app. right. apply elem_of_app. left.
      apply list_elem_of_bind. eauto. }
    apply (sh_lt _ _ _ Hs) in Hx. simpl in Hx. lia. }
  exists (MkEffect [Start 0 c] [] (h ++ cs) [] None), None, (Rc ++ Rn ++ R1 ++ R2), G'.
  split_and!; try done.
  - cbv [exec owner_of]. rewrite Ha. simpl. by rewrite EM.
  - rewrite HT, HT0. simpl. apply perm_skip. rewrite <- HP. solve_Permutation.
  - split.
    + exists (Rc ++ R1), (R2 ++ Rn). split_and!.
      * econstructor; [by constructor| |reflexivity].
        eapply Wsum_impl; [|exact HR1]. intros f Rf Hf' HWf.
        eapply W_frame_agree; [by apply HagF|done].
      * cbn [e_heap]. rewrite length_app, seq_app. apply Wsum_app; [|done].
        eapply Wsum_impl; [|exact HR2]. intros n Rx Hn%elem_of_seq HWn.
        rewrite W_cell_app by lia. unfold W_cell in *.
        destruct (cell h n) as [[| |ow a b k' fin| | |]|] eqn:Ec; try done.
        destruct (decide (n = 0)) as [->|Hn0].
        { pose proof (sh_root _ _ _ Hs) as Hr. unfold root_ok in Hr. rewrite Ec in Hr.
          destruct get; naive_solver. }
        destruct (fin <? 2)%Z eqn:Efin; [|done]. rewrite HG by lia.
        destruct (sh_both _ _ _ Hs n) as (a2 & b2 & k2 & fin2 & Hc2 & Hlt2 & _); [lia|].
        simplify_eq. eapply W_cont_agree; [|exact HWn].
        eapply sides_agree; [exact HG|]. destruct (sink_of k'); simpl in *; [done|lia].
      * solve_Permutation.
    + eapply shape_extend; [exact Hs|done|done|]. rewrite sinks_cons. cbn [e_heap e_calls e_submit map app].
      unfold sinks at 1. cbn [mbind list_bind frame_sinks]. rewrite length_app, seq_app, bind_app.
      change (seq (0 + length h)) with (seq (length h)).
      rewrite (bind_sinks_ext (cell_sinks (h ++ cs)) (cell_sinks h) 0).
      2:{ intros n Hn. apply cell_sinks_app. lia. }
      transitivity ((comp_sinks c ++ (seq (length h) (length cs) ≫= cell_sinks (h ++ cs))) ++ sinks F h).
      { unfold sinks. solve_Permutation. }
      rewrite Hsk. simpl. solve_Permutation.
  - by repeat constructor.
Qed.

Lemma exec_live G f F h T : inv G (f :: F) h T -> f <> GetWait 0 -> next_ok G f F h T.
Proof.
  intros Hinv Hf. pose proof Hinv as [HT Hs]. apply work_cons in HT as (R & T0 & HW & HT0 & HT).
  destruct (W_frame_sinks _ _ _ HW) as [?|Hsk]; [done|].
  pose proof (inv_alive _ _ _ _ _ Hinv Hsk) as Ha. clear Hinv Hsk.
  destruct HW as [c R HW|k v s R HW|t R HW|n first|?|?].
  - by eapply next_start.
  - destruct HW as [s ?|s ?|k f v s R HW|k f v s R Hv HW|k sc v s R HW|k t v s s' R R' He HW
                   |k v s s' R HW|n first s|k v s R HW].
    + by eapply next_get_lambda.
    + by eapply next_destruct.
    + destruct s as [sc|]; cbn [map_items app] in HT;
        [|pure_next (Some (MkCall f v None)) (Resume 0 k (call user f v) None)].
      destruct (submit_next sc (Run 0 (MapTask k f v (Some sc))) h) as (e & He & ? & Hlog & ? & ?).
      eapply (next_pure1 _ _ _ _ _ _ e None _ (Some (MkCall f v (Some sc)) :: R)); try eassumption; try done.
      * cbv [exec owner_of]. by rewrite Ha.
      * by repeat constructor.
    + destruct s as [sc|]; [|pure_next (@None Call) (Run 0 (MapOkTask k f v None))].
      destruct (submit_next sc (Run 0 (MapOkTask k f v (Some sc))) h) as (e & He & ? & Hlog & ? & ?).
      eapply (next_pure1 _ _ _ _ _ _ e None _ (mapok_item f v (Some sc) :: R)); try eassumption; try done.
      * cbv [exec owner_of]. by rewrite Ha.
      * by repeat constructor.
    + pure_next (@None Call) (Resume 0 k v (Some sc)).
    + by eapply next_flatten.
    + pure_next (@None Call) (Resume 0 k v s).
    + by eapply next_both_resume.
    + pure_next (@None Call) (Resume 0 k v s).
  - by eapply next_task.
  - by eapply next_check.
  - by eapply next_fire.
  - done.
Qed.

(** When no call is pending but [Get]'s own, every cell has fired. *)
Lemma no_calls_no_sinks G F h : shape G (sinks F h) h -> F ≫= frame_sinks = [] -> sinks F h = [].
Proof.
  intros Hs HF.
  assert (Hin : forall x, x ∈ sinks F h -> exists n k, x = sink_of k /\ n < length h /\
            exists ow a b fin, cell h n = Some (BothContinuation ow a b k fin) /\ (fin < 2)%Z).
  { intros x Hx. unfold sinks in Hx. rewrite HF in Hx. simpl in Hx.
    apply list_elem_of_bind in Hx as (n & Hx & Hn%elem_of_seq).
    unfold cell_sinks in Hx. destruct (cell h n) as [[| |ow a b k fin| | |]|] eqn:Ec;
      try (by apply elem_of_nil in Hx).
    destruct (fin <? 2)%Z eqn:E; [|by apply elem_of_nil in Hx].
    apply list_elem_of_singleton in Hx as ->. bool_hyps. exists n, k. split_and!; [done|lia|]. eauto 10. }
  assert (Hno : forall d n k ow a b fin, length h - n <= d -> n < length h ->
            cell h n = Some (BothContinuation ow a b k fin) -> (fin < 2)%Z -> False).
  { induction d as [|d IH]; intros n k ow a b fin Hd Hn Hc Hfin; [lia|].
    destruct (decide (n = 0)) as [->|Hn0].
    { pose proof (sh_root _ _ _ Hs) as Hr. unfold root_ok in Hr. rewrite Hc in Hr.
      destruct get; naive_solver. }
    destruct (sh_both _ _ _ Hs n) as (a2 & b2 & k2 & fin2 & Hc2 & _ & Hsum & _); [lia|].
    simplify_eq.
    assert (exists first st, SBoth n first st ∈ sinks F h) as (first & st & Hx).
    { destruct (decide (0 < occ (SBoth n true true) (sinks F h))) as [?%occ_pos|?]; [eauto|].
      destruct (decide (0 < occ (SBoth n true false) (sinks F h))) as [?%occ_pos|?]; [eauto|].
      destruct (decide (0 < occ (SBoth n false true) (sinks F h))) as [?%occ_pos|?]; [eauto|].
      destruct (decide (0 < occ (SBoth n false false) (sinks F h))) as [?%occ_pos|?]; [eauto|]. lia. }
    apply Hin in Hx as (m & k' & Hk' & Hm & ow' & a' & b' & fin' & Hcm & Hfin').
    destruct (decide (m = 0)) as [->|Hm0].
    { pose proof (sh_root _ _ _ Hs) as Hr. unfold root_ok in Hr. rewrite Hcm in Hr.
      destruct get; naive_solver. }
    destruct (sh_both _ _ _ Hs m) as (a3 & b3 & k3 & fin3 & Hc3 & Hlt & _); [lia|].
    simplify_eq. rewrite <- Hk' in Hlt. simpl in Hlt. eapply (IH m); [lia|done..]. }
  destruct (sinks F h) as [|x S] eqn:E; [done|]. exfalso.
  destruct (Hin x) as (n & k & _ & Hn & ow & a & b & fin & Hc & Hfin); [left|].
  by eapply (Hno _ n).
Qed.

(** The work that is left when the sinks are exhausted. *)
Lemma no_sinks_work G F h T : inv G F h T -> sinks F h = [] ->
  (forall f, f ∈ F -> f = GetWait 0) /\ T ≡ₚ replicate (length F) None.
Proof.
  intros [(R1 & R2 & H1 & H2 & HT) Hs] Hsk. unfold sinks in Hsk.
  apply app_eq_nil in Hsk as [HF Hc].
  assert (HR2 : R2 = []).
  { eapply Wsum_nil_items; [|exact H2]. intros n R Hn HW. unfold W_cell in HW.
    destruct (cell h n) as [[| |ow a b k fin| | |]|] eqn:Ec; try done.
    destruct (fin <? 2)%Z eqn:E; [|done]. exfalso.
    assert (Hin : sink_of k ∈ seq 0 (length h) ≫= cell_sinks h).
    { apply list_elem_of_bind. exists n. split; [|done]. unfold cell_sinks. rewrite Ec, E. left. }
    rewrite Hc in Hin. by apply elem_of_nil in Hin. }
  subst R2. rewrite app_nil_r in HT.
  assert (HFw : forall f R, f ∈ F -> W_frame G f R -> f = GetWait 0 /\ R = [None]).
  { intros f R Hf HW. destruct (W_frame_sinks _ _ _ HW) as [->|Hne].
    - split; [done|]. by inversion HW.
    - exfalso. destruct (frame_sinks f) as [|x l] eqn:E; [done|].
      assert (Hin : x ∈ F ≫= frame_sinks).
      { apply list_elem_of_bind. exists f. split; [|done]. rewrite E. left. }
      rewrite HF in Hin. by apply elem_of_nil in Hin. }
  clear HF Hc Hs H2. split.
  - intros f Hf. revert f Hf HFw. clear HT. induction H1 as [|x l Ra Rb R Hx _ IH _]; intros f Hf HFw.
    + by apply elem_of_nil in Hf.
    + apply elem_of_cons in Hf as [->|Hf]; [apply (HFw x Ra); [left|done]|].
      apply IH; [done|]. intros g Rg Hg. apply HFw. by right.
  - rewrite HT. clear HT. induction H1 as [|x l Ra Rb R Hx _ IH HR]; [done|].
    rewrite HR. destruct (HFw x Ra) as [_ ->]; [left|done|]. simpl. apply perm_skip, IH.
    intros g Rg Hg. apply HFw. by right.
Qed.

(** ** The machine *)

Definition frames (m : Machine) : list Frame := acts m ≫= act_stack.

Lemma frames_split m i sc f fs :
  acts m !! i = Some (MkAct sc (f :: fs)) ->
  exists F, frames m ≡ₚ f :: F /\
    forall cs sub, (<[i := MkAct sc (cs ++ fs)]> (acts m) ++ map spawn sub) ≫= act_stack
                   ≡ₚ cs ++ map snd sub ++ F.
Proof.
  intros Hi. unfold frames. pose proof (lookup_lt_Some _ _ _ Hi) as Hlt.
  exists (fs ++ (take i (acts m) ≫= act_stack) ++ (drop (S i) (acts m) ≫= act_stack)). split.
  - rewrite <- (take_drop_middle (acts m) i (MkAct sc (f :: fs))) at 1 by done.
    rewrite bind_app. simpl. solve_Permutation.
  - intros cs sub. rewrite insert_take_drop by done. rewrite !bind_app. cbn [mbind list_bind act_stack].
    assert (Hsub : map spawn sub ≫= act_stack = map snd sub).
    { induction sub as [|[? ?] sub IH]; [done|]. simpl. f_equal. exact IH. }
    rewrite Hsub. solve_Permutation.
Qed.

(** [GetWait] is the last call of its stack. *)
Fixpoint wait_last (st : list Frame) : Prop :=
  match st with
  | [] => True
  | f :: st => (f = GetWait 0 -> st = []) /\ wait_last st
  end.

Definition stacks_ok (m : Machine) : Prop := Forall (fun a => wait_last (act_stack a)) (acts m).

Lemma wait_last_app cs fs : Forall (fun f => f <> GetWait 0) cs -> wait_last fs -> wait_last (cs ++ fs).
Proof. induction 1; simpl; naive_solver. Qed.

Lemma wait_dec (f : Frame) : f = GetWait 0 \/ f <> GetWait 0.
Proof.
  destruct f as [| | | | |n| | | | | | | | | |]; try (by right).
  destruct (decide (n = 0)) as [->|]; [by left|right; naive_solver].
Qed.

(** A live machine: [n] steps were taken, the rest of the work is known. *)
Definition live (N : nat) (L : list Call) (n : nat) (m : Machine) : Prop :=
  crashed m = false /\ returned m = [] /\ stacks_ok m /\
  exists G T, inv G (frames m) (heap m) T /\ n + length T = N /\
    map fst (log m) ++ calls T ≡ₚ L /\
    (exists F, frames m ≡ₚ (if get then [GetWait 0] else []) ++ F /\ GetWait 0 ∉ F).

Lemma calls_perm T T' : T ≡ₚ T' -> calls T ≡ₚ calls T'.
Proof. intros H. unfold calls. by rewrite H. Qed.

(** A step of a live machine, other than the return from [Get]. *)
Lemma live_step N L n m i sc f fs :
  live N L n m -> acts m !! i = Some (MkAct sc (f :: fs)) -> f <> GetWait 0 ->
  exists m', mstep user i m = Some m' /\ live N L (S n) m'.
Proof.
  intros (Hcr & Hret & Hst & G & T & Hinv & HN & HL & F0 & HF0 & Hno) Hi Hf.
  destruct (frames_split _ _ _ _ _ Hi) as (F & HF & HF').
  apply (inv_perm _ _ (f :: F) _ _ T) in Hinv; [|done..].
  destruct (exec_live _ _ _ _ _ Hinv Hf) as (e & it & T' & G' & He & Hr & Hlog & HT & Hinv' & Hnw).
  unfold mstep. rewrite Hcr, Hi, He. eexists. split; [done|].
  rewrite Hr, Hlog. split_and!; [done|by rewrite Hret| |].
  - unfold stacks_ok in *. simpl. apply Forall_app. split.
    + apply Forall_insert; [done|]. simpl.
      pose proof (Forall_lookup_1 _ _ _ _ Hst Hi) as [_ Hw].
      apply wait_last_app; [|done]. by apply Forall_app in Hnw as [? _].
    + apply Forall_app in Hnw as [_ Hnw]. clear -Hnw.
      induction (e_submit e) as [|[? g] l IH]; constructor.
      * simpl. split; [done|done].
      * apply IH. by inversion Hnw.
  - exists G', T'. simpl. unfold frames. simpl. split_and!.
    + eapply inv_perm; [symmetry; apply HF'|done|]. done.
    + rewrite HT in HN. simpl in HN. lia.
    + rewrite map_app, map_map. simpl. rewrite map_id, <- HL, (calls_perm _ _ HT), <- app_assoc.
      apply Permutation_app_head. by destruct it.
    + assert (Hx : exists F1, F ≡ₚ (if get then [GetWait 0] else []) ++ F1 /\ GetWait 0 ∉ F1).
      { rewrite HF in HF0. destruct get.
        - simpl in HF0. assert (Hin : f ∈ GetWait 0 :: F0) by (rewrite <- HF0; left).
          apply elem_of_cons in Hin as [?|Hin]; [done|].
          apply elem_of_Permutation in Hin as (F1 & HF1). exists F1. split.
          + apply (Permutation_cons_inv (a := f)). rewrite HF0, HF1. apply perm_swap.
          + intros Hx. apply Hno. rewrite HF1. by right.
        - exists F. split; [done|]. intros Hx. apply Hno. rewrite <- HF0. by right. }
      destruct Hx as (F1 & HF1 & Hno1).
      exists (e_calls e ++ map snd (e_submit e) ++ F1). split.
      * rewrite HF'. rewrite HF1. solve_Permutation.
      * rewrite app_assoc. intros [Hx|Hx]%elem_of_app; [|done].
        by apply (proj1 (list.Forall_forall _ _) Hnw) in Hx.
Qed.

(** The return from [Get]: only when everything else is done. *)
Lemma live_wait N L n m i sc fs :
  live N L n m -> acts m !! i = Some (MkAct sc (GetWait 0 :: fs)) ->
  mstep user i m = None \/
  exists m', mstep user i m = Some m' /\ crashed m' = false /\ frames m' = [] /\
    returned m' = [v0] /\ map fst (log m') ≡ₚ L /\ S n = N.
Proof.
  intros (Hcr & Hret & Hst & G & T & Hinv & HN & HL & F0 & HF0 & Hno) Hi.
  destruct (frames_split _ _ _ _ _ Hi) as (F & HF & HF').
  assert (Hget : get = true).
  { rewrite HF in HF0. destruct get; [done|]. exfalso. apply Hno. simpl in HF0. rewrite <- HF0. left. }
  assert (HF0F : F ≡ₚ F0).
  { rewrite HF in HF0. rewrite Hget in HF0. simpl in HF0. by apply Permutation_cons_inv in HF0. }
  pose proof Hinv as [_ Hs]. pose proof (sh_root _ _ _ Hs) as Hr. unfold root_ok in Hr.
  rewrite Hget in Hr. destruct Hr as (res & fired & Hc & Hres & [[-> _]|[-> Hz]]).
  - left. unfold mstep. rewrite Hcr, Hi. cbv [exec owner_of]. unfold future_Get_Wait. by rewrite Hc.
  - right. assert (Hsk : sinks (frames m) (heap m) = []) by (eapply sinks_lead_to_root; [done|lia|lia]).
    destruct (no_sinks_work _ _ _ _ Hinv Hsk) as [Hall HT].
    assert (F = []) as ->.
    { destruct F as [|g F]; [done|]. exfalso. apply Hno. rewrite <- HF0F.
      rewrite (Hall g); [left|]. rewrite HF. right. left. }
    unfold mstep. rewrite Hcr, Hi. cbv [exec owner_of]. unfold future_Get_Wait. rewrite Hc.
    rewrite Hres by lia. eexists. split; [done|]. simpl. rewrite Hret.
    rewrite HF in HT. simpl in HT. split_and!; try done.
    + apply Permutation_nil_r. exact (HF' [] []).
    + rewrite app_nil_r. rewrite (calls_perm _ _ HT) in HL. simpl in HL. by rewrite app_nil_r in HL.
    + rewrite HT in HN. simpl in HN. lia.
Qed.

Lemma live_quiescent N L n m : live N L n m -> quiescent user m ->
  get = false /\ frames m = [] /\ map fst (log m) ≡ₚ L /\ cell (heap m) 0 = None.
Proof.
  intros Hlive Hq. pose proof Hlive as (Hcr & Hret & Hst & G & T & Hinv & HN & HL & F0 & HF0 & Hno).
  assert (Hall : forall f, f ∈ frames m -> f = GetWait 0).
  { intros f Hf. apply list_elem_of_bind in Hf as ([sc st] & Hf & Ha).
    apply list_elem_of_lookup in Ha as (i & Hi). simpl in Hf.
    destruct st as [|g st]; [by apply elem_of_nil in Hf|].
    destruct (wait_dec g) as [->|Hg].
    - pose proof (Forall_lookup_1 _ _ _ _ Hst Hi) as [Hw _]. simpl in Hw.
      rewrite Hw in Hf by done. by apply list_elem_of_singleton in Hf.
    - exfalso. destruct (live_step _ _ _ _ _ _ _ _ Hlive Hi Hg) as (m' & Hm & _).
      by rewrite (Hq i) in Hm. }
  assert (HFs : frames m ≫= frame_sinks = []).
  { clear -Hall. induction (frames m) as [|f F IH]; [done|]. simpl.
    rewrite (Hall f) by left. apply IH. intros g Hg. apply Hall. by right. }
  pose proof Hinv as [_ Hs]. pose proof (no_calls_no_sinks _ _ _ Hs HFs) as Hsk.
  destruct (no_sinks_work _ _ _ _ Hinv Hsk) as [_ HT].
  pose proof (sh_root _ _ _ Hs) as Hr. rewrite Hsk, !occ_nil in Hr. unfold root_ok in Hr.
  destruct get eqn:Hget.
  - exfalso. destruct Hr as (res & fired & Hc & Hres & [[-> Hz]|[-> _]]); [lia|].
    assert (Hin : GetWait 0 ∈ frames m) by (rewrite HF0; left).
    apply list_elem_of_bind in Hin as ([sc st] & Hf & Ha).
    apply list_elem_of_lookup in Ha as (i & Hi). simpl in Hf.
    destruct st as [|g st]; [by apply elem_of_nil in Hf|].
    assert (g = GetWait 0) as ->.
    { apply Hall. apply list_elem_of_bind. eexists. split; [|by eapply list_elem_of_lookup_2]. left. }
    specialize (Hq i). unfold mstep in Hq. rewrite Hcr, Hi in Hq. cbv [exec owner_of] in Hq.
    unfold future_Get_Wait in Hq. by rewrite Hc, Hres in Hq.
  - assert (Hnil : frames m = []).
    { simpl in HF0. destruct (frames m) as [|g F]; [done|]. exfalso. apply Hno. rewrite <- HF0.
      rewrite (Hall g) by left. left. }
    rewrite Hnil in HT. simpl in HT. apply Permutation_nil_r in HT as ->.
    rewrite app_nil_r in HL. split_and!; try done. naive_solver lia.
Qed.

(** The state after the client's call. *)
Definition root_cell : Cell := if get then GetFrame None 0 else SelfDestructingComputation.
Definition root_cont : Cont := if get then FuncDemand 0 else DestructingDemand 0.
Definition client (t : Thunk) : Frame := if get then Get t else Detach t.

Lemma client_exec t h : exec user (client t) h =
  let '(c, h') := Materialize t (length h) (if get then FuncDemand (length h) else DestructingDemand (length h))
                    (h ++ [Some root_cell]) in
  tail (Start (length h) c :: if get then [GetWait (length h)] else []) h'.
Proof. unfold client, root_cell. by destruct get. Qed.

Lemma live_boot t s R : ev t v0 s R ->
  exists N, (exists m, mstep user 0 (boot [] [[client t]]) = Some m /\ live N (calls R) 1 m).
Proof.
  intros Hev. set (h := [Some root_cell]). set (G := fun _ : nat => (VUnit, VUnit)).
  set (tl := if get then [None] else [] : list item).
  assert (HW : W_cont G root_cont v0 s (None :: tl)).
  { unfold root_cont, tl. destruct get eqn:E; by constructor. }
  assert (Hsr : sink_of root_cont = SRoot false) by (unfold root_cont; by destruct get).
  pose proof (materialize_ok t v0 s R Hev G root_cont h _ HW) as HM.
  specialize (HM ltac:(simpl; lia)). rewrite Hsr in HM. specialize (HM I).
  destruct (Materialize t 0 root_cont h) as [c h'] eqn:EM.
  destruct HM as (G' & cs & Rc & Rn & Hh & HG & Hc & Hcells & HP & Hf & Hsk).
  cbn [fst snd] in *. subst h'. rewrite Hsr in Hsk.
  exists (2 + length R + 2 * length tl). eexists. split.
  { unfold mstep. cbn [boot crashed acts map lookup list_lookup heap]. rewrite client_exec.
    cbn [length app]. fold h.
    change (if get then FuncDemand 0 else DestructingDemand 0) with root_cont.
    rewrite EM. reflexivity. }
  split_and!; [done|done| |].
  { unfold stacks_ok. simpl. constructor; [|done]. destruct get; simpl; done. }
  exists G', (Rc ++ Rn ++ tl). split_and!.
  - simpl. unfold frames. simpl. rewrite !app_nil_r. split.
    + exists (Rc ++ tl), Rn. split_and!.
      * econstructor; [by constructor| |reflexivity].
        unfold tl. destruct get eqn:E; [apply Wsum_singleton; by constructor|constructor].
      * cbn [app length seq]. econstructor; [|exact Hcells|].
        -- unfold W_cell. change (cell (h ++ cs) 0) with (Some root_cell).
           unfold root_cell. destruct get; reflexivity.
        -- done.
      * solve_Permutation.
    + eapply (shape_extend G G' h cs [SRoot false]); [|done|done|].
      * constructor.
        -- simpl. lia.
        -- unfold root_ok, h, root_cell. destruct get; [|left; done].
           exists None, 0%Z. split_and!; [done|done|left; done].
        -- simpl. lia.
        -- intros x ->%list_elem_of_singleton. done.
      * transitivity (comp_sinks c ++ (seq (length h) (length cs) ≫= cell_sinks (h ++ cs)));
          [|by rewrite Hsk].
        rewrite sinks_cons. unfold sinks.
        assert (Hw : (if get then [GetWait 0] else []) ≫= frame_sinks = []) by (by destruct get).
        rewrite Hw. cbn [app length seq mbind list_bind].
        assert (Hc0 : cell_sinks (Some root_cell :: cs) 0 = []).
        { unfold cell_sinks, cell, root_cell. simpl. by destruct get. }
        change (h ++ cs) with (Some root_cell :: cs). by rewrite Hc0.
  - apply Permutation_length in HP. rewrite !length_app in *. simpl in *. unfold item in *. lia.
  - rewrite app_assoc, !calls_app, <- calls_app, (calls_perm _ _ HP), calls_app.
    unfold tl. destruct get; simpl; by rewrite !app_nil_r.
  - exists [Start 0 c]. unfold frames. simpl. rewrite app_nil_r.
    split; [destruct get; solve_Permutation|set_solver].
Qed.

Lemma mstep_boot i t m : mstep user i (boot [] [[client t]]) = Some m -> i = 0.
Proof. destruct i as [|[|]]; by cbn. Qed.


(** Everything a run of one client call can reach. *)
Lemma client_runs t s R : ev t v0 s R ->
  exists N, forall n m, msteps user (boot [] [[client t]]) n m ->
    (n = 0 /\ m = boot [] [[client t]]) \/ live N (calls R) n m \/
    (get = true /\ n <= N /\ crashed m = false /\ frames m = [] /\ returned m = [v0] /\
     map fst (log m) ≡ₚ calls R).
Proof.
  intros Hev. destruct (live_boot t s R Hev) as (N & m1 & Hm1 & Hlive1). exists N.
  intros n m Hs. induction Hs as [|n m i m' Hs IH Hi]; [by left|]. right.
  destruct IH as [[-> ->]|[Hlive|(Hg & Hn & Hcr & Hfr & Hret & Hlog)]].
  - assert (i = 0) as -> by by eapply mstep_boot. simplify_eq. by left.
  - assert (Hx : exists sc f fs, acts m !! i = Some (MkAct sc (f :: fs))).
    { unfold mstep in Hi. destruct (crashed m); [done|].
      destruct (acts m !! i) as [[sc [|f fs]]|]; try done. eauto. }
    destruct Hx as (sc & f & fs & Ha). destruct (wait_dec f) as [->|Hf].
    + destruct (live_wait _ _ _ _ _ _ _ Hlive Ha) as [Hn|(m2 & Hm2 & ? & ? & ? & ? & ?)]; [congruence|].
      simplify_eq. right. split_and!; try done; try lia.
      destruct Hlive as (_ & _ & _ & G & T & _ & _ & _ & F0 & HF0 & Hno).
      destruct get; [done|]. exfalso. apply Hno. simpl in HF0. rewrite <- HF0.
      apply list_elem_of_bind. eexists. split; [|by eapply list_elem_of_lookup_2]. left.
    + left. destruct (live_step _ _ _ _ _ _ _ _ Hlive Ha Hf) as (m2 & Hm2 & Hl2).
      by simplify_eq.
  - exfalso. unfold mstep in Hi. rewrite Hcr in Hi.
    destruct (acts m !! i) as [[sc [|f fs]]|] eqn:Ha; try done.
    assert (Hin : f ∈ frames m).
    { apply list_elem_of_bind. eexists. split; [|by eapply list_elem_of_lookup_2]. left. }
    rewrite Hfr in Hin. by apply elem_of_nil in Hin.
Qed.
End resources.

Lemma live_bound get v0 N L n m : live get v0 N L n m -> n <= N.
Proof. intros (_ & _ & _ & G & T & _ & ? & _). lia. Qed.

(** C1: [Get] is correct and total.  For a future that denotes the value [v]
    and the user calls [L], under every interleaving of the client with the
    schedulers' threads: no call is made on a destroyed object, every run is
    at most [N] steps long, [Get] returns nothing but [v], and when no step
    is left [Get] has returned [v], no call is pending, and the user functions
    called, with their arguments and states, are exactly those of [L]. *)
Theorem future_get_correct fuel t v s L :
  eval fuel t = Some (v, s, L) ->
  exists N, forall n m, msteps user (boot [] [[Get t]]) n m ->
    n <= N /\ crashed m = false /\ (returned m = [] \/ returned m = [v]) /\
    (quiescent user m -> returned m = [v] /\ frames m = [] /\ map fst (log m) ≡ₚ L).
Proof.
  intros (R & Hev & <-)%eval_ev. destruct (client_runs true v t s R Hev) as (N & HN).
  exists N. intros n m Hs. destruct (HN n m Hs) as [[-> ->]|[Hl|(_ & ? & ? & ? & ? & ?)]].
  - split_and!; [lia|done|by left|]. intros Hq. exfalso. specialize (Hq 0).
    unfold mstep in Hq. cbn [boot crashed acts map lookup list_lookup heap] in Hq.
    change (Get t) with (client true t) in Hq. rewrite client_exec in Hq.
    by destruct (Materialize _ _ _ _).
  - split_and!; [by eapply live_bound|by apply Hl|left; by apply Hl|].
    intros Hq. by destruct (live_quiescent _ _ _ _ _ _ Hl Hq) as [? _].
  - split_and!; auto.
Qed.

(** C2: [Detach] runs a future to the end and then destroys it, for the futures that [eval]
    denotes: those without [Start] (which reads the deleted computation, see
    [detach_start_use_after_free]), [First] and contracts.  Under every interleaving no call is made
    on the destroyed computation, every run is finite, and when no step is left the computation
    object is deleted and the user functions called are exactly those the future denotes. *)
Theorem future_detach_correct fuel t v s L :
  eval fuel t = Some (v, s, L) ->
  exists N, forall n m, msteps user (boot [] [[Detach t]]) n m ->
    n <= N /\ crashed m = false /\
    (quiescent user m -> alive (heap m) 0 = false /\ frames m = [] /\ map fst (log m) ≡ₚ L).
Proof.
  intros (R & Hev & <-)%eval_ev. destruct (client_runs false v t s R Hev) as (N & HN).
  exists N. intros n m Hs. destruct (HN n m Hs) as [[-> ->]|[Hl|(? & _)]]; [| |done].
  - split_and!; [lia|done|]. intros Hq. exfalso. specialize (Hq 0).
    unfold mstep in Hq. cbn [boot crashed acts map lookup list_lookup heap] in Hq.
    change (Detach t) with (client false t) in Hq. rewrite client_exec in Hq.
    by destruct (Materialize _ _ _ _).
  - split_and!; [by eapply live_bound|by apply Hl|].
    intros Hq. destruct (live_quiescent _ _ _ _ _ _ Hl Hq) as (_ & ? & ? & Hc).
    split_and!; try done. unfold alive. by rewrite Hc.
Qed.
End denotation.

(** ** Examples *)

Definition demo_user (i : nat) (v : Val) : Val :=
  match v with
  | VInt z => VInt (z + Z.of_nat i)
  | VPair (VInt a) (VOk (VInt b)) => VInt (a * b)
  | VCode _ => VThunk (fut_Ok (VInt 7))
  | _ => VInt (Z.of_nat i)
  end.

(** [(Submit(1, f3) | Map(f1)) * (Err | OrElse(..) | MapOk(..)) | Via(2) | Map(f0)] *)
Definition demo_future : Thunk :=
  fut_Both (fut_Submit 1 (UserFn 3) |> fut_Map (UserFn 1))
           (fut_Err 5%Z |> fut_OrElse (UserFn 0) |> fut_Via 2 |> fut_MapOk (UserFn 1))
  |> fut_Via 2 |> fut_Map (UserFn 9).

Definition demo_value : Val := VInt 32.

Lemma future_get_correct_witness :
  exists v s L, eval demo_user 20 demo_future = Some (v, s, L) /\ v = demo_value /\
  exists N, forall n m, msteps demo_user (boot [] [[Get demo_future]]) n m ->
    n <= N /\ crashed m = false /\ (returned m = [] \/ returned m = [v]) /\
    (quiescent demo_user m -> returned m = [v] /\ frames m = [] /\ map fst (log m) ≡ₚ L).
Proof.
  do 3 eexists. split; [vm_compute; reflexivity|]. split; [reflexivity|].
  apply (future_get_correct demo_user 20 demo_future _ (Some 2)). vm_compute. reflexivity.
Defined.

Lemma future_detach_correct_witness :
  exists v s L, eval demo_user 20 demo_future = Some (v, s, L) /\
  exists N, forall n m, msteps demo_user (boot [] [[Detach demo_future]]) n m ->
    n <= N /\ crashed m = false /\
    (quiescent demo_user m -> alive (heap m) 0 = false /\ frames m = [] /\ map fst (log m) ≡ₚ L).
Proof.
  do 3 eexists. split; [vm_compute; reflexivity|].
  apply (future_detach_correct demo_user 20 demo_future demo_value (Some 2)). vm_compute. reflexivity.
Defined.

(** ** Functions run on the scheduler they were sent to *)

Definition task_state (t : Task) : State :=
  match t with SubmitTask _ sc _ => Some sc | MapTask _ _ _ s | MapOkTask _ _ _ s => s end.

(** A thread of [ctx] may run the call, as far as [Via] and [Submit] say. *)
Definition runs_on (ctx : State) (s : State) : Prop :=
  match s with
  | Some sc => sc = kInline \/ ctx = Some sc
  | None => True
  end.

Definition affine_frame (ctx : State) (f : Frame) : Prop :=
  match f with Run _ t => runs_on ctx (task_state t) | _ => True end.

Section affinity.
Context (user : nat -> Val -> Val).

(** What a call may do from a thread of [ctx]. *)
Definition affine_effect (ctx : State) (e : Effect) : Prop :=
  Forall (affine_frame ctx) (e_calls e) /\
  Forall (fun p => affine_frame (Some p.1) p.2) (e_submit e) /\
  Forall (fun c => runs_on ctx (c_state c)) (e_log e).

Lemma submit_affine ctx sc o t h e :
  Submit sc (Run o t) h = Next e -> task_state t = Some sc -> affine_effect ctx e.
Proof.
  unfold Submit, Inline_Submit, tail. intros H Ht. unfold affine_effect.
  case_decide; simplify_eq; simpl; split_and!; repeat constructor; simpl; rewrite Ht; simpl; auto.
Qed.

Lemma rendezvous_affine ctx st v cb h e :
  ContractState_rendezvous st v cb h = Next e -> affine_effect ctx e.
Proof.
  unfold ContractState_rendezvous, tail. destruct v, cb as [[]|]; intros; simplify_eq.
  split_and!; by repeat constructor.
Qed.

Ltac affine_leaf H :=
  unfold tail, call_then in H; try discriminate H; injection H as <-;
  (split; [|split]); simpl; repeat first [apply Forall_nil_2 | apply Forall_cons_2]; simpl; auto.

Lemma exec_affine ctx f h e :
  affine_frame ctx f -> exec user f h = Next e -> affine_effect ctx e.
Proof.
  intros Hf H. unfold exec in H.
  destruct (match owner_of f with Some o => negb (alive h o) | None => false end); [done|].
  destruct f as [o []|o []|o []| | | | | | | | | | | | |]; simpl in H.
  all: repeat match type of H with
    | Submit _ _ _ = Next _ => by eapply submit_affine in H
    | ContractState_rendezvous _ _ _ _ = Next _ => by eapply rendezvous_affine in H
    | (let '(_, _) := ?x in _) = _ => destruct x
    | (if ?x then _ else _) = _ => destruct x
    | match ?x with _ => _ end = _ => destruct x; try done
    | ?l = Next _ => let l' := eval cbv beta zeta delta
        [ReadyComputation_Start JustComputation_Start SubmitComputation_Start ContractComputation_Start
         BothComputation_Start FirstComputation_Start BoxComputation_Start
         StartComputationWithConsumer_Start StartComputationWithConsumer_Await
         StartComputationWithConsumer_delete MapContinuation_Resume MapOkContinuation_Resume
         ViaContinuation_Resume InnerFlattenContinuation_Resume FlattenContinuation_Resume
         BoxConsumer_Resume BothBinder_Resume BothContinuation_ResumeA BothContinuation_ResumeB
         BothContinuation_Check FirstBinder_Resume FirstContinuation_Resume StartComputation_Resume
         StartComputation_StoreReady Get_lambda DestructingDemand_Resume SubmitComputation_Run
         MapContinuation_Run MapOkContinuation_Run ContractState_Produce ContractState_Produce2
         ContractState_Consume ContractState_Consume2 ContractState_delete future_Get
         thread_Event_Fire future_Get_Wait future_Detach StartThunk_ctor Promise_Set
         RendezvousStateMachine_Produce RendezvousStateMachine_Consume new] in l in
        progress change (l' = Next e) in H
    end.
  all: affine_leaf H.
Qed.

(** Every user function that a future sends to a scheduler runs there: a
    function whose continuation was resumed with scheduler [sc] (by [Submit]
    or [Via]) is only ever called by a thread of [sc], except that
    [sched::Inline] runs it on the spot.  This holds for every client program
    and every interleaving. *)
Theorem future_scheduler_affinity h clients n m :
  Forall (Forall (affine_frame None)) clients ->
  msteps user (boot h clients) n m ->
  Forall (fun p => runs_on p.2 (c_state p.1)) (log m).
Proof.
  intros Hc Hs.
  assert (Hinv : Forall (fun a => Forall (affine_frame (act_sched a)) (act_stack a)) (acts m) /\
                 Forall (fun p => runs_on p.2 (c_state p.1)) (log m)); [|apply Hinv].
  induction Hs as [|n m i m' Hs [IHa IHl] Hi].
  - split; [|constructor]. simpl. by apply Forall_map.
  - unfold mstep in Hi. destruct (crashed m); [done|].
    destruct (acts m !! i) as [[sc [|f fs]]|] eqn:Ha; try done.
    pose proof (Forall_lookup_1 _ _ _ _ IHa Ha) as Hst. simpl in Hst.
    apply Forall_cons_1 in Hst as [Hf Hst].
    destruct (exec user f (heap m)) as [e| |] eqn:He; simplify_eq; [|done].
    destruct (exec_affine _ _ _ _ Hf He) as (H1 & H2 & H3). simpl. split.
    + apply Forall_app. split.
      * apply Forall_insert; [done|]. simpl. by apply Forall_app.
      * apply Forall_map. eapply Forall_impl; [|exact H2]. intros [s' f'] Hx. simpl in *.
        by repeat constructor.
    + apply Forall_app. split; [done|]. apply Forall_map. exact H3.
Qed.
End affinity.

(** A complete run: the client first, then the schedulers' threads. *)
Definition demo_schedule : list nat :=
  [0; 0; 0; 0; 0; 0; 0; 0; 0; 0; 1; 1; 2; 2; 2; 3; 3; 3; 3; 3; 4; 4; 4; 0].

Lemma future_scheduler_affinity_witness :
  exists m, msteps demo_user (boot [] [[Get demo_future]]) 24 m /\
    returned m = [demo_value] /\ length (log m) = 5 /\
    Forall (fun p => runs_on p.2 (c_state p.1)) (log m).
Proof.
  eexists. eassert (Hs : msteps demo_user (boot [] [[Get demo_future]]) 24 _).
  { apply (mrun_msteps demo_user demo_schedule). vm_compute. reflexivity. }
  split; [exact Hs|]. split; [reflexivity|]. split; [reflexivity|].
  eapply (future_scheduler_affinity demo_user []); [|exact Hs]. repeat constructor.
Defined.

(** ** Contracts, races and eager futures, explored exhaustively *)

Ltac explore :=
  vm_compute; repeat match goal with |- _ /\ _ => split end; auto; try (intros; discriminate).

(** [Contract]: under every interleaving of [Promise::Set(v)] with
    [Get(f)], the rendezvous happens exactly once: nothing crashes, runs have
    at most 9 steps, [Get] returns [v], and the shared [ContractState] has
    been deleted when both are done. *)
Theorem contract_rendezvous user v :
  let boot := boot (ContractState_New []).2 [[Get (ContractThunk 0)]; [PromiseSet 0 v]] in
  forall n m, msteps user boot n m ->
    n <= 9 /\ (crashed m = false /\ (returned m = [] \/ returned m = [v])) /\
    (quiescent user m -> returned m = [v] /\ alive (heap m) 0 = false).
Proof. intros b. apply (explore_sound user 9). unfold b. explore. Qed.

Lemma contract_rendezvous_witness :
  exists m, msteps demo_user
      (boot (ContractState_New []).2 [[Get (ContractThunk 0)]; [PromiseSet 0 (VInt 7)]]) 9 m /\
    returned m = [VInt 7] /\ 9 <= 9 /\ crashed m = false.
Proof.
  eexists. eassert (Hs : msteps demo_user
      (boot (ContractState_New []).2 [[Get (ContractThunk 0)]; [PromiseSet 0 (VInt 7)]]) 9 _).
  { apply (mrun_msteps demo_user [0; 0; 0; 1; 1; 1; 1; 0; 1]). vm_compute. reflexivity. }
  split; [exact Hs|]. split; [reflexivity|].
  destruct (contract_rendezvous demo_user (VInt 7) _ _ Hs) as (H1 & (H2 & _) & _).
  exact (conj H1 H2).
Defined.

(** [Start]: the eager future [!Submit(p, f)] consumed by [Get].  Under
    every interleaving of the client with the pool, [f] is called once, [Get]
    returns its value, and the [StartComputation] is deleted. *)
Theorem start_get user f p :
  forall n m, msteps user (boot [] [[PipeStart (fut_Submit (S p) f); Get (StartThunk 0)]]) n m ->
    n <= 12 /\
    (crashed m = false /\ (returned m = [] \/ returned m = [call user f VUnit])) /\
    (quiescent user m -> returned m = [call user f VUnit] /\ alive (heap m) 0 = false /\
       log m = [(MkCall f VUnit (Some (S p)), Some (S p))]).
Proof. apply (explore_sound user 12). explore. Qed.

Lemma start_get_witness :
  exists m, msteps demo_user
      (boot [] [[PipeStart (fut_Submit 1 (UserFn 3)); Get (StartThunk 0)]]) 12 m /\
    returned m = [VInt 3] /\ 12 <= 12 /\ crashed m = false.
Proof.
  eexists. eassert (Hs : msteps demo_user
      (boot [] [[PipeStart (fut_Submit 1 (UserFn 3)); Get (StartThunk 0)]]) 12 _).
  { apply (mrun_msteps demo_user [0; 0; 0; 0; 1; 1; 1; 0; 0; 0; 0; 0]). vm_compute. reflexivity. }
  split; [exact Hs|]. split; [reflexivity|].
  destruct (start_get demo_user (UserFn 3) 0 _ _ Hs) as (H1 & (H2 & _) & _).
  exact (conj H1 H2).
Defined.

(** ** Destruction-order defects *)

(** [First] races with itself.  [FirstContinuation::Resume] announces with
    [fetch_add] that it will use [consumer_] and uses it afterwards; when the
    other future finishes between the two, it deletes the object that
    [consumer_] is a member of.  For any two functions on any two pools the
    run below ends in a call on the destroyed object. *)
Theorem first_race_use_after_free user f g p q :
  exists n m,
    msteps user (boot [] [[Get (fut_First (fut_Submit (S p) f) (fut_Submit (S q) g))]]) n m /\
    crashed m = true.
Proof.
  do 2 eexists. split.
  - apply (mrun_msteps user [0; 0; 0; 0; 1; 1; 2; 2; 1]). vm_compute. reflexivity.
  - reflexivity.
Qed.

(** When both futures finish on the thread that starts them, [First] is
    correct: [Get] returns the value of the left one, nothing crashes and the
    [FirstComputation] is deleted. *)
Theorem first_inline user v w :
  forall n m, msteps user (boot [] [[Get (fut_First (fut_Value v) (fut_Value w))]]) n m ->
    n <= 9 /\ (crashed m = false /\ (returned m = [] \/ returned m = [v])) /\
    (quiescent user m -> returned m = [v] /\ alive (heap m) 1 = false).
Proof. apply (explore_sound user 9). explore. Qed.

Lemma first_inline_witness :
  exists m, msteps demo_user
      (boot [] [[Get (fut_First (fut_Value (VInt 1)) (fut_Value (VInt 2)))]]) 9 m /\
    returned m = [VInt 1] /\ 9 <= 9 /\ crashed m = false.
Proof.
  eexists. eassert (Hs : msteps demo_user
      (boot [] [[Get (fut_First (fut_Value (VInt 1)) (fut_Value (VInt 2)))]]) 9 _).
  { apply (mrun_msteps demo_user (replicate 9 0)). vm_compute. reflexivity. }
  split; [exact Hs|]. split; [reflexivity|].
  destruct (first_inline demo_user (VInt 1) (VInt 2) _ _ Hs) as (H1 & (H2 & _) & _).
  exact (conj H1 H2).
Defined.

(** [First(a, b) | Via(pool) | Map(f)] can use a destroyed object: the
    [MapContinuation] is a member of the [FirstComputation]; the first future
    to finish submits it to the pool as a task, the second one to finish
    deletes the [FirstComputation], and the pool then runs the task. *)
Theorem first_via_map_use_after_free user f g h :
  exists n m,
    msteps user (boot [] [[Get (fut_First (fut_Submit 1 f) (fut_Submit 1 g)
                                |> fut_Via 1 |> fut_Map h)]]) n m /\ crashed m = true.
Proof.
  do 2 eexists. split.
  - apply (mrun_msteps user [0; 0; 0; 0; 1; 1; 1; 1; 2; 2; 3]). vm_compute. reflexivity.
  - reflexivity.
Qed.

(** [Detach(Start(f))] uses a destroyed object: [Start] of the consuming
    computation resumes the [DestructingDemand], which deletes the object the
    computation is a member of, and then reads its member [comp_]. *)
Theorem detach_start_use_after_free user v :
  exists n m,
    msteps user (boot [] [[PipeStart (fut_Value v); Detach (StartThunk 0)]]) n m /\
    crashed m = true.
Proof.
  do 2 eexists. split.
  - apply (mrun_msteps user [0; 0; 0; 0; 0; 0; 0; 0; 0]). vm_compute. reflexivity.
  - reflexivity.
Qed.
