(* ===== verification/SpinLock.v ===== *)
(** The spin lock and the objects it guards: src/src/exe/thread/spinlock.hpp.

    [lk_tstep] runs a method of a sequential object between [Lock] and
    [Unlock].  The lock is modelled at its atomic accesses (the exchange, the
    relaxed load of the inner loop, the releasing store), and the method body
    is an arbitrary step function, so that other threads run between any two
    of its accesses.  Two results: mutual exclusion, and linearizability of
    the guarded object against its own sequential behaviour, which the models
    of the lock-protected queues use. *)

From S2P Require Import Prelude Conc.

(** A sequential method body: where it starts, and one step of it, which
    either goes on or returns. *)
Class Body (D I R BL : Type) := {
  body_start : I -> BL;
  body_step : BL -> D -> (BL + R) * D;
}.

Inductive body_runs {D I R BL} `{Body D I R BL} : BL -> D -> R -> D -> Prop :=
| body_ret b d r d' : body_step b d = (inr r, d') -> body_runs b d r d'
| body_go b d b' d' r d'' :
    body_step b d = (inl b', d') -> body_runs b' d' r d'' -> body_runs b d r d''.

Inductive body_partial {D I R BL} `{Body D I R BL} : BL -> D -> BL -> D -> Prop :=
| bp_refl b d : body_partial b d b d
| bp_snoc b d b' d' b'' d'' :
    body_partial b d b' d' -> body_step b' d' = (inl b'', d'') -> body_partial b d b'' d''.

Section lock.
Context {D I R BL : Type} `{!Body D I R BL} (d0 : D).

(** [locked_] and the guarded data. *)
Record Lk := mkLk { locked : bool; data : D }.

(** Where a thread stands: outside, at the exchange, in the inner loop, in
    the critical section, at the releasing store. *)
Inductive lk_pc :=
| LkIdle
| LkExchange (i : I)
| LkSpin (i : I)
| LkCritical (i : I) (b : BL)
| LkRelease (i : I) (r : R).

(** [Lock]: [locked_.exchange(true)]; on failure spin on [load]. *)
Definition SpinLock_exchange (s : Lk) : bool * Lk := (locked s, mkLk true (data s)).
Definition SpinLock_load (s : Lk) : bool := locked s.
Definition SpinLock_Unlock (s : Lk) : Lk := mkLk false (data s).

Definition lk_tstep (t : tid) (a : I) (pc : lk_pc) (s : Lk)
  : option (lk_pc * Lk * list (event I R)) :=
  match pc with
  | LkIdle => Some (LkExchange a, s, [Inv a])
  | LkExchange i =>
      let '(was, s') := SpinLock_exchange s in
      Some (if was then LkSpin i else LkCritical i (body_start i), s', [])
  | LkSpin i => Some (if SpinLock_load s then LkSpin i else LkExchange i, s, [])
  | LkCritical i b =>
      match body_step b (data s) with
      | (inl b', d') => Some (LkCritical i b', mkLk (locked s) d', [])
      | (inr r, d') => Some (LkRelease i r, mkLk (locked s) d', [Lin i r])
      end
  | LkRelease i r => Some (LkIdle, SpinLock_Unlock s, [Ret r])
  end.

Definition lk_init : config Lk lk_pc := Cfg (mkLk false d0) (fun _ => LkIdle).

Definition holds (pc : lk_pc) : bool :=
  match pc with LkCritical _ _ | LkRelease _ _ => true | _ => false end.

(** At most one thread is in its critical section, and [locked_] tells. *)
Definition lk_inv (c : config Lk lk_pc) : Prop :=
  (locked (sh c) = false -> forall t, holds (lo c t) = false) /\
  (forall t u, holds (lo c t) = true -> holds (lo c u) = true -> t = u).

Lemma lk_inv_step t a c c' es :
  lk_inv c -> cstep lk_tstep t a c = Some (c', es) -> lk_inv c'.
Proof.
  intros [Hfree Hone] (pc' & s' & Ht & ->)%cstep_inv.
  assert (Hset : forall pc, (forall u, u <> t -> holds (lo c u) = true -> holds pc = false) ->
            (forall t1 u, holds ((<[t := pc]> (lo c)) t1) = true ->
                          holds ((<[t := pc]> (lo c)) u) = true -> t1 = u)).
  { intros pc Hpc t1 u. destruct (decide (t1 = t)) as [->|H1]; destruct (decide (u = t)) as [->|H2];
      rewrite ?fn_lookup_insert, ?fn_lookup_insert_ne by done; [done|..].
    - intros Hp Hu. specialize (Hpc u H2 Hu). congruence.
    - intros Hu Hp. specialize (Hpc t1 H1 Hu). congruence.
    - apply Hone. }
  assert (Hother : holds (lo c t) = true -> forall u, u <> t -> holds (lo c u) = false).
  { intros Hh u Hu. destruct (holds (lo c u)) eqn:E; [|done]. exfalso. apply Hu. by apply Hone. }
  assert (Hidle : forall pc, holds pc = false -> (locked s' = false -> locked (sh c) = false \/ holds (lo c t) = true) ->
            lk_inv (Cfg s' (<[t := pc]> (lo c)))).
  { intros pc Hpc Hl. split; simpl.
    - intros Hf u. destruct (decide (u = t)) as [->|Hne]; [by rewrite fn_lookup_insert|].
      rewrite fn_lookup_insert_ne by done. destruct (Hl Hf) as [?|?]; eauto.
    - apply Hset. done. }
  assert (Hhold : forall pc, locked s' = true -> (forall u, u <> t -> holds (lo c u) = false) ->
            lk_inv (Cfg s' (<[t := pc]> (lo c)))).
  { intros pc Hl Hno. split; simpl; [congruence|]. apply Hset. intros u Hu Hh.
    rewrite Hno in Hh; done. }
  destruct (lo c t) as [|i|i|i b|i r] eqn:Epc; simpl in *.
  - simplify_eq. apply Hidle; auto.
  - destruct (locked (sh c)) eqn:El; simplify_eq; simpl in *.
    + apply Hidle; auto.
    + apply Hhold; auto.
  - simplify_eq. unfold SpinLock_load. destruct (locked (sh c)) eqn:El; apply Hidle; auto.
  - assert (Hl : locked (sh c) = true).
    { destruct (locked (sh c)); [done|]. specialize (Hfree eq_refl t). by rewrite Epc in Hfree. }
    destruct (body_step b (data (sh c))) as [[b'|r] d']; simplify_eq; simpl in *; apply Hhold; auto.
  - simplify_eq. apply Hidle; auto.
Qed.

Lemma lk_inv_init : lk_inv lk_init.
Proof. split; [done|]. by intros t u. Qed.

Lemma lk_inv_reachable tr c : steps lk_tstep lk_init tr c -> lk_inv c.
Proof. apply (steps_invariant _ lk_inv); [apply lk_inv_init|]. eauto using lk_inv_step. Qed.

(** *** Linearizability of the guarded object *)

Definition lk_spec : seq_spec I R :=
  SeqSpec I R D d0 (fun d i r d' => body_runs (body_start i) d r d').

(** While a thread is inside its body, the abstract state is the data the
    body started from. *)
Definition lk_sim (tr : list (tid * event I R)) (c : config Lk lk_pc) (d : D) : Prop :=
  lk_inv c /\
  (forall t i b, lo c t = LkCritical i b -> body_partial (body_start i) d b (data (sh c))) /\
  ((forall t i b, lo c t <> LkCritical i b) -> d = data (sh c)).

Definition lk_status (pc : lk_pc) : status I R :=
  match pc with
  | LkIdle => Idle
  | LkExchange i | LkSpin i | LkCritical i _ => Pending i
  | LkRelease i r => Committed i r
  end.

Lemma body_partial_runs b d b' d' r d'' :
  body_partial b d b' d' -> body_runs b' d' r d'' -> body_runs b d r d''.
Proof. intros H. revert r d''. induction H; [done|]. intros. eauto using body_runs. Qed.

Lemma critical_other c t : lk_inv c -> holds (lo c t) = true ->
  forall u i b, u <> t -> lo c u <> LkCritical i b.
Proof.
  intros [_ Hone] Ht u i b Hu E. apply Hu. apply Hone; [|done]. by rewrite E.
Qed.

(** A step outside the critical section leaves the simulation alone. *)
Lemma lk_sim_outside tr tr' c d t s' pc :
  lk_sim tr c d -> lk_inv (Cfg s' (<[t := pc]> (lo c))) -> data s' = data (sh c) ->
  (forall i b, lo c t <> LkCritical i b) -> (forall i b, pc <> LkCritical i b) ->
  lk_sim tr' (Cfg s' (<[t := pc]> (lo c))) d.
Proof.
  intros (_ & Hin & Hout) Hinv Hd H1 H2. split; [done|]. simpl. rewrite Hd. split.
  - intros u i b. destruct (decide (u = t)) as [->|Hne].
    + rewrite fn_lookup_insert. intros ->. by destruct (H2 i b).
    + rewrite fn_lookup_insert_ne by done. apply Hin.
  - intros Hno. apply Hout. intros u i b E. destruct (decide (u = t)) as [->|Hne].
    + by destruct (H1 i b).
    + apply (Hno u i b). by rewrite fn_lookup_insert_ne.
Qed.

Lemma lk_lin_step tr c d t a c' es :
  lk_sim tr c d -> cstep lk_tstep t a c = Some (c', es) ->
  exists d', lk_sim (tr ++ map (pair t) es) c' d' /\ legal lk_spec d (lin_ops es) d' /\
    status_steps (lk_status (lo c t)) es (lk_status (lo c' t)).
Proof.
  intros Hsim Hc. pose proof Hsim as (Hinv & Hin & Hout).
  pose proof (lk_inv_step _ _ _ _ _ Hinv Hc) as Hinv'.
  apply cstep_inv in Hc as (pc' & s' & Ht & ->). simpl. rewrite fn_lookup_insert.
  destruct (lo c t) as [|i|i|i b|i r] eqn:Epc; simpl in Ht.
  - simplify_eq. exists d. split_and!; [|constructor|by repeat econstructor].
    eapply lk_sim_outside; [eassumption..|reflexivity|by rewrite Epc|done].
  - destruct (locked (sh c)) eqn:El; simplify_eq; exists d; (split_and!; [|constructor|constructor]).
    + eapply lk_sim_outside; [eassumption..|reflexivity|by rewrite Epc|done].
    + split; [done|]. pose proof Hinv as [Hfree _].
      assert (Hno : forall u i b, lo c u <> LkCritical i b).
      { intros u i' b' E. specialize (Hfree El u). by rewrite E in Hfree. }
      rewrite (Hout Hno). simpl. split.
      * intros u i' b'. destruct (decide (u = t)) as [->|Hne].
        -- rewrite fn_lookup_insert. intros [= <- <-]. constructor.
        -- rewrite fn_lookup_insert_ne by done. intros E. by destruct (Hno u i' b').
      * intros Hn. by destruct (Hn t i (body_start i)); rewrite fn_lookup_insert.
  - simplify_eq. exists d. split_and!; [|constructor|].
    + unfold SpinLock_load in *. destruct (locked (sh c));
        (eapply lk_sim_outside; [eassumption..|reflexivity|by rewrite Epc|done]).
    + unfold SpinLock_load. destruct (locked (sh c)); constructor.
  - pose proof (Hin t i b Epc) as Hp.
    assert (Hoth : forall u i b, u <> t -> lo c u <> LkCritical i b).
    { apply critical_other; [done|]. by rewrite Epc. }
    destruct (body_step b (data (sh c))) as [[b'|r] d'] eqn:Eb; simplify_eq.
    + exists d. split_and!; [|constructor|constructor]. split; [done|]. simpl. split.
      * intros u i' b''. destruct (decide (u = t)) as [->|Hne].
        -- rewrite fn_lookup_insert. intros [= <- <-]. by econstructor.
        -- rewrite fn_lookup_insert_ne by done. intros E. by destruct (Hoth u i' b'').
      * intros Hn. by destruct (Hn t i b'); rewrite fn_lookup_insert.
    + exists d'. split_and!.
      * split; [done|]. simpl. split; [|done]. intros u i' b''.
        destruct (decide (u = t)) as [->|Hne]; [by rewrite fn_lookup_insert|].
        rewrite fn_lookup_insert_ne by done. intros E. by destruct (Hoth u i' b'').
      * econstructor; [|constructor]. simpl. eapply body_partial_runs; [done|by constructor].
      * by repeat econstructor.
  - simplify_eq. exists d. split_and!; [|constructor|by repeat econstructor].
    eapply lk_sim_outside; [eassumption..|reflexivity|by rewrite Epc|done].
Qed.

#[export] Instance lk_lin_points : LinPoints lk_tstep lk_spec lk_init (fun _ => True).
Proof.
  refine (@Build_LinPoints _ _ _ _ _ lk_tstep lk_spec lk_init (fun _ => True) lk_status lk_sim _ _ _ _).
  - done.
  - done.
  - split; [apply lk_inv_init|]. by split.
  - intros. by eapply lk_lin_step.
Defined.

Lemma lk_linearizable tr c : steps lk_tstep lk_init tr c -> linearizable lk_spec (history tr).
Proof. intros Hs. by eapply (lin_points_sound lk_lin_points). Qed.
End lock.

Arguments lk_pc : clear implicits.
Arguments Lk : clear implicits.

(** *** A counter guarded by the lock, as an example *)

(** [++counter] as a read and a write. *)
Inductive incr_body := IncRead | IncWrite (seen : nat).

#[export] Instance incr_Body : Body nat unit nat incr_body := {
  body_start _ := IncRead;
  body_step b d :=
    match b with
    | IncRead => (inl (IncWrite d), d)
    | IncWrite seen => (inr seen, S seen)
    end;
}.

(** The spin lock gives mutual exclusion, for any guarded object: in
    every reachable state at most one thread is between the end of [Lock] and
    the store of [Unlock], and the lock word is [false] only when none is. *)
Theorem spinlock_mutual_exclusion {D I R BL} `{!Body D I R BL} (d0 : D) tr c :
  steps lk_tstep (lk_init d0) tr c ->
  (forall t u, holds (lo c t) = true -> holds (lo c u) = true -> t = u) /\
  (locked (sh c) = false -> forall t, holds (lo c t) = false).
Proof. intros Hs. by destruct (lk_inv_reachable _ _ _ Hs) as [? ?]. Qed.

(** Every object whose methods run between [Lock] and [Unlock], in any
    number of steps, is linearizable: its concurrent histories are those of
    its sequential methods run one at a time. *)
Theorem spinlock_object_linearizable {D I R BL} `{!Body D I R BL} (d0 : D) tr c :
  steps lk_tstep (lk_init d0) tr c -> linearizable (lk_spec d0) (history tr).
Proof. apply lk_linearizable. Qed.

(** Two threads contend for the counter; thread 1 spins while 0 is inside. *)
Definition lock_demo : list (tid * unit) :=
  map (fun t => (t, tt)) [0; 1; 0; 1; 0; 1; 0; 0; 1; 1; 1; 1; 1].

Lemma spinlock_mutual_exclusion_witness :
  exists tr c, steps lk_tstep (lk_init 5) tr c /\ data (sh c) = 7 /\
    (forall t u, holds (lo c t) = true -> holds (lo c u) = true -> t = u).
Proof.
  do 2 eexists. eassert (Hs : steps lk_tstep (lk_init 5) _ _).
  { apply (run_steps0 lk_tstep lock_demo). vm_compute. reflexivity. }
  split; [exact Hs|]. split; [reflexivity|]. apply (spinlock_mutual_exclusion 5 _ _ Hs).
Defined.

Lemma spinlock_object_linearizable_witness :
  exists tr, history tr = [(0, Inv tt); (1, Inv tt); (0, Ret 5); (1, Ret 6)] /\
    linearizable (lk_spec 5) (history tr).
Proof.
  eexists. eassert (Hs : steps lk_tstep (lk_init 5) _ _).
  { apply (run_steps0 lk_tstep lock_demo). vm_compute. reflexivity. }
  split; [|exact (spinlock_object_linearizable 5 _ _ Hs)]. reflexivity.
Defined.
