(* ===== verification/GlobalQueue.v ===== *)
(** The queue shared by the workers of the fast pool:
    src/src/exe/sched/tp/fast/queues/global_queue.hpp.

    The methods are the pointer-level operations of ForwardList.v, run under
    the spin lock of SpinLock.v.  Two refinements are composed: the lock makes
    the object linearizable against its own methods, and the list
    representation turns those into the operations of a FIFO sequence. *)

From S2P Require Import Prelude Conc ForwardList SpinLock.
Local Open Scope Z_scope.

(** The nodes of all tasks and the member [queue_]. *)
Record GlobalQueue := mkGQ { gq_nodes : node_heap; gq_queue : IntrusiveForwardList }.

(** [None] is undefined behaviour: a stray pointer was followed. *)
Definition gq_PushOne (task : Z) (q : GlobalQueue) : option GlobalQueue :=
  '(h, l) ← fl_PushBack (gq_nodes q) (gq_queue q) task; Some (mkGQ h l).

(** The loop that links the tasks of [buffer] into the local [buf_list].  The
    nodes are the caller's until [Append]; it is run together with it. *)
Fixpoint gq_link (h : node_heap) (buf_list : IntrusiveForwardList) (buffer : list Z)
  : option (node_heap * IntrusiveForwardList) :=
  match buffer with
  | [] => Some (h, buf_list)
  | task :: rest => '(h, l) ← fl_PushBack h buf_list task; gq_link h l rest
  end.

Definition gq_PushMany (buffer : list Z) (q : GlobalQueue) : option GlobalQueue :=
  '(h, buf_list) ← gq_link (gq_nodes q) fl_new buffer;
  '(h, l, _) ← fl_Append h (gq_queue q) buf_list; Some (mkGQ h l).

Definition gq_TryPopOne (q : GlobalQueue) : option (Z * GlobalQueue) :=
  '(h, l, task) ← fl_PopFront (gq_nodes q) (gq_queue q); Some (task, mkGQ h l).

Fixpoint gq_grab_loop (n : nat) (q : GlobalQueue) : option (list Z * GlobalQueue) :=
  match n with
  | O => Some ([], q)
  | S n => '(task, q) ← gq_TryPopOne q; '(out, q) ← gq_grab_loop n q; Some (task :: out, q)
  end.

(** [Grab] into a buffer of [size] slots; the result is what was written. *)
Definition gq_Grab (size : Z) (q : GlobalQueue) : option (list Z * GlobalQueue) :=
  gq_grab_loop (Z.to_nat (Z.min size (fl_Size (gq_queue q)))) q.

(** ** The concurrent object *)

Inductive gq_inv := GPushOne (task : Z) | GPushMany (buffer : list Z) | GTryPopOne | GGrab (size : Z).
Inductive gq_res := GDone | GTask (task : Z) | GTasks (out : list Z).

(** One method under the lock. *)
Definition gq_method (i : gq_inv) (q : GlobalQueue) : option (gq_res * GlobalQueue) :=
  match i with
  | GPushOne task => q ← gq_PushOne task q; Some (GDone, q)
  | GPushMany buffer => q ← gq_PushMany buffer q; Some (GDone, q)
  | GTryPopOne => '(task, q) ← gq_TryPopOne q; Some (GTask task, q)
  | GGrab size => '(out, q) ← gq_Grab size q; Some (GTasks out, q)
  end.

#[export] Instance gq_Body : Body (option GlobalQueue) gq_inv gq_res gq_inv := {
  body_start i := i;
  body_step i d :=
    match d ≫= gq_method i with
    | Some (r, q) => (inr r, Some q)
    | None => (inr GDone, None)
    end;
}.

(** ** The FIFO specification

    [live] are the task nodes.  Pushing a task that is already queued, or
    that is no task, is undefined: the state [None], from which anything may
    happen. *)
Section spec.
Context (live : gset Z).

Definition pushable (xs : list Z) (ts : list Z) : Prop :=
  base.NoDup ts /\ Forall (fun t => t <> 0 /\ t ∉ xs /\ t ∈ live) ts.

Inductive fifo_step : option (list Z) -> gq_inv -> gq_res -> option (list Z) -> Prop :=
| ff_push xs t : pushable xs [t] -> fifo_step (Some xs) (GPushOne t) GDone (Some (xs ++ [t]))
| ff_pushmany xs ts : pushable xs ts ->
    fifo_step (Some xs) (GPushMany ts) GDone (Some (xs ++ ts))
| ff_pop xs : fifo_step (Some xs) GTryPopOne (GTask (hd 0 xs)) (Some (tl xs))
| ff_grab xs size : 0 <= size ->
    fifo_step (Some xs) (GGrab size) (GTasks (take (Z.to_nat size) xs)) (Some (drop (Z.to_nat size) xs))
| ff_bad_push xs t r : ~ pushable xs [t] -> fifo_step (Some xs) (GPushOne t) r None
| ff_bad_pushmany xs ts r : ~ pushable xs ts -> fifo_step (Some xs) (GPushMany ts) r None
| ff_bad_grab xs size r : size < 0 -> fifo_step (Some xs) (GGrab size) r None
| ff_undefined i r : fifo_step None i r None.

Definition fifo_spec : seq_spec gq_inv gq_res := SeqSpec gq_inv gq_res (option (list Z)) (Some []) fifo_step.

(** The queue object represents [xs]; all its nodes are tasks. *)
Definition gq_rep (q : GlobalQueue) (xs : list Z) : Prop :=
  is_flist (gq_nodes q) (gq_queue q) xs /\ (forall t, t ∈ live -> is_Some (gq_nodes q !! t)) /\
  (forall t, t ∈ xs -> t ∈ live).

Context (Hlive : Z.of_nat (size live) < 2^64).

Lemma gq_rep_size q xs : gq_rep q xs -> fl_Size (gq_queue q) = zlen xs.
Proof.
  intros (Hl & _ & Hsub). unfold fl_Size. rewrite (fl_rep_size _ _ _ Hl). apply u64_id.
  unfold zlen. split; [lia|].
  assert (Hnd : base.NoDup xs) by apply NoDup_ListNoDup, Hl.
  assert (Hs : size (list_to_set xs : gset Z) = length xs) by by apply size_list_to_set.
  assert (Hle : (size (list_to_set xs : gset Z) <= size live)%nat).
  { apply subseteq_size. intros t. rewrite elem_of_list_to_set. apply Hsub. }
  lia.
Qed.

(** A list segment of private nodes is built beside the queue. *)
Lemma gq_link_refines ts h l b xs ys :
  is_flist h l xs -> is_flist h b ys -> (forall x, In x xs -> ~ In x ys) ->
  (forall t, t ∈ live -> is_Some (h !! t)) -> pushable (xs ++ ys) ts ->
  exists h' b', gq_link h b ts = Some (h', b') /\ is_flist h' l xs /\ is_flist h' b' (ys ++ ts) /\
    (forall t, t ∈ live -> is_Some (h' !! t)).
Proof.
  revert h b ys. induction ts as [|t ts IH]; intros h b ys Hl Hb Hdis Hh [Hnd Hp]; simpl.
  { rewrite app_nil_r. eauto 10. }
  apply list.NoDup_cons in Hnd as [Hnt Hnd]. apply Forall_cons_1 in Hp as [(Ht0 & Htn & Htl) Hp].
  rewrite elem_of_app in Htn.
  destruct (fl_PushBack_refines h b ys t) as (h1 & b1 & -> & Hb1 & _ & Hfr); try done.
  { rewrite <- list_elem_of_In. naive_solver. } { auto. }
  cbn. destruct (IH h1 b1 (ys ++ [t])) as (h' & b' & Hk & ? & ? & ?); try done.
  - eapply is_flist_frame; [|exact Hl]. intros x Hx. apply Hfr; [|auto].
    intros ->. apply Htn. left. by apply list_elem_of_In.
  - intros x Hx. rewrite in_app_iff. intros [Hy|[->|[]]]; [by apply (Hdis x)|].
    apply Htn. left. by apply list_elem_of_In.
  - intros u Hu. destruct (decide (u = t)) as [->|Hut].
    + eapply chain_in; [apply Hb1|]. apply in_or_app. right. by left.
    + destruct (decide (u ∈ ys)) as [Hi|Hi].
      * eapply chain_in; [apply Hb1|]. apply in_or_app. left. by apply list_elem_of_In.
      * rewrite Hfr; [auto|done|]. by rewrite <- list_elem_of_In.
  - split; [done|]. rewrite list.Forall_forall in *. intros u Hu.
    destruct (Hp u Hu) as (? & Hx & ?). split_and!; [done| |done].
    rewrite !elem_of_app in *. rewrite list_elem_of_singleton. intros [?|[?| ->]]; naive_solver.
  - rewrite <- app_assoc in *. eauto 10.
Qed.

Lemma gq_PushOne_refines q xs t : gq_rep q xs -> pushable xs [t] ->
  exists q', gq_PushOne t q = Some q' /\ gq_rep q' (xs ++ [t]).
Proof.
  intros (Hl & Hh & Hsub) [_ Hp]. apply Forall_cons_1 in Hp as [(Ht0 & Htn & Htl) _].
  unfold gq_PushOne.
  destruct (fl_PushBack_refines _ _ _ t Hl) as (h1 & l1 & -> & Hl1 & _ & Hfr); try done.
  { by rewrite <- list_elem_of_In. } { auto. }
  cbn. eexists. split; [done|]. split_and!; [done| |].
  - intros u Hu. destruct (decide (u ∈ xs ++ [t])) as [Hi|Hi].
    + eapply chain_in; [apply Hl1|]. by apply list_elem_of_In.
    + rewrite elem_of_app, list_elem_of_singleton in Hi. simpl. rewrite Hfr; [auto|naive_solver|].
      rewrite <- list_elem_of_In. naive_solver.
  - intros u. rewrite elem_of_app, list_elem_of_singleton. intros [?| ->]; auto.
Qed.

Lemma gq_PushMany_refines q xs ts : gq_rep q xs -> pushable xs ts ->
  exists q', gq_PushMany ts q = Some q' /\ gq_rep q' (xs ++ ts).
Proof.
  intros (Hl & Hh & Hsub) Hp. unfold gq_PushMany.
  destruct (gq_link_refines ts _ _ fl_new xs [] Hl (flist_nil _)) as (h1 & b & -> & Hl1 & Hb & Hh1);
    [by intros ? ? []|done|by rewrite app_nil_r|].
  cbn. destruct (fl_Append_refines h1 (gq_queue q) xs b ts) as (h2 & l2 & l3 & -> & Hl2 & _ & Hfr);
    [done|done| |].
  { destruct Hp as [_ Hp]. rewrite list.Forall_forall in Hp. intros x Hx Hx'.
    destruct (Hp x) as (_ & Hn & _); [by apply list_elem_of_In|]. apply Hn. by apply list_elem_of_In. }
  cbn. eexists. split; [done|]. split_and!; [done| |].
  - intros u Hu. destruct (decide (u ∈ xs)) as [Hi|Hi].
    + eapply chain_in; [apply Hl2|]. apply in_or_app. left. by apply list_elem_of_In.
    + simpl. rewrite Hfr; [auto|]. by rewrite <- list_elem_of_In.
  - intros u. rewrite elem_of_app. intros [?|Hu]; [auto|].
    destruct Hp as [_ Hp]. rewrite list.Forall_forall in Hp. by apply Hp.
Qed.

Lemma gq_TryPopOne_refines q xs : gq_rep q xs ->
  exists q', gq_TryPopOne q = Some (hd 0 xs, q') /\ gq_rep q' (tl xs).
Proof.
  intros (Hl & Hh & Hsub). unfold gq_TryPopOne. destruct xs as [|x xs].
  - destruct (flist_cases _ _ _ Hl) as [[He _]|[_ ?]]; [|done].
    unfold fl_PopFront. rewrite He. cbn. eexists. split; [done|]. done.
  - destruct (fl_PopFront_refines _ _ _ _ Hl) as (h1 & l1 & -> & Hl1 & ->). cbn.
    eexists. split; [done|]. split_and!; [done| |].
    + intros u Hu. simpl. destruct (decide (u = x)) as [->|]; [rewrite lookup_insert_eq; eauto|].
      rewrite lookup_insert_ne by done. auto.
    + intros u Hu. apply Hsub. by right.
Qed.

Lemma gq_grab_loop_refines n q xs : gq_rep q xs -> (n <= length xs)%nat ->
  exists q', gq_grab_loop n q = Some (take n xs, q') /\ gq_rep q' (drop n xs).
Proof.
  revert q xs. induction n as [|n IH]; intros q xs Hq Hn; simpl.
  - rewrite drop_0. eauto.
  - destruct (gq_TryPopOne_refines q xs Hq) as (q1 & -> & Hq1). cbn.
    destruct xs as [|x xs]; [simpl in Hn; lia|]. simpl in Hn.
    destruct (IH q1 xs Hq1) as (q2 & Hg & Hq2); [lia|]. simpl. rewrite Hg. cbn. eauto.
Qed.

Lemma gq_Grab_refines k q xs : gq_rep q xs -> 0 <= k ->
  exists q', gq_Grab k q = Some (take (Z.to_nat k) xs, q') /\ gq_rep q' (drop (Z.to_nat k) xs).
Proof.
  intros Hq Hk. unfold gq_Grab. rewrite (gq_rep_size _ _ Hq). unfold zlen.
  destruct (decide (Z.to_nat k <= length xs)%nat) as [Hle|Hgt].
  - rewrite Z.min_l by lia. by apply gq_grab_loop_refines.
  - rewrite Z.min_r, Nat2Z.id by lia.
    destruct (gq_grab_loop_refines (length xs) q xs Hq) as (q' & -> & Hq'); [lia|].
    exists q'. rewrite !take_ge, !drop_ge in * by lia. done.
Qed.

(** ** The queue against the specification *)

Definition gq_sim (d : option GlobalQueue) (a : option (list Z)) : Prop :=
  match a with
  | Some xs => exists q, d = Some q /\ gq_rep q xs
  | None => True
  end.

Lemma gq_sim_step d a i r d' :
  gq_sim d a -> body_runs (body_start i) d r d' ->
  exists a', fifo_step a i r a' /\ gq_sim d' a'.
Proof.
  intros Hs Hr. destruct a as [xs|]; [|exists None; split; [constructor|done]].
  destruct Hs as (q & -> & Hq). inversion Hr as [? ? ? ? Hb|? ? ? ? ? ? Hb]; subst; simpl in Hb.
  2:{ exfalso. destruct (gq_method i q) as [[]|]; simplify_eq. }
  destruct i as [t|ts| |k]; simpl in Hb.
  - destruct (decide (pushable xs [t])) as [Hp|Hp]; [|exists None; by split; [constructor|]].
    destruct (gq_PushOne_refines q xs t Hq Hp) as (q' & Hq' & ?). rewrite Hq' in Hb. simplify_eq/=.
    eexists. split; [by constructor|]. simpl. eauto.
  - destruct (decide (pushable xs ts)) as [Hp|Hp]; [|exists None; by split; [constructor|]].
    destruct (gq_PushMany_refines q xs ts Hq Hp) as (q' & Hq' & ?). rewrite Hq' in Hb. simplify_eq/=.
    eexists. split; [by constructor|]. simpl. eauto.
  - destruct (gq_TryPopOne_refines q xs Hq) as (q' & Hq' & ?). rewrite Hq' in Hb. simplify_eq/=.
    eexists. split; [by constructor|]. simpl. eauto.
  - destruct (decide (0 <= k)) as [Hk|Hk]; [|exists None; split; [constructor; lia|done]].
    destruct (gq_Grab_refines k q xs Hq Hk) as (q' & Hq' & ?). rewrite Hq' in Hb. simplify_eq/=.
    eexists. split; [by constructor|]. simpl. eauto.
Qed.

Lemma gq_linearizable_spec h0 tr c :
  (forall t, t ∈ live -> is_Some (h0 !! t)) ->
  steps lk_tstep (lk_init (Some (mkGQ h0 fl_new))) tr c -> linearizable fifo_spec (history tr).
Proof.
  intros Hh Hs. apply lk_linearizable in Hs. revert Hs. apply (linearizable_refine (lk_spec (Some (mkGQ h0 fl_new))) fifo_spec gq_sim).
  - exists (mkGQ h0 fl_new). split; [done|]. split_and!; [apply flist_nil|done|].
    intros t Ht. by apply elem_of_nil in Ht.
  - intros d a i r d' Hsim Hr. by eapply gq_sim_step.
Qed.
End spec.

(** The global queue is linearizable as a FIFO queue: whatever the
    threads do, [PushOne], [PushMany], [TryPopOne] and [Grab] behave as if run
    one at a time on a sequence of tasks ([PushMany] appends its tasks in
    order and in one piece, [Grab] takes the first [size] tasks or all), as
    long as no task is pushed that is already queued.  This includes the
    pointer manipulations of the intrusive list and the spin lock. *)
Theorem global_queue_linearizable (live : gset Z) (h0 : node_heap) tr c :
  Z.of_nat (size live) < 2^64 -> (forall t, t ∈ live -> is_Some (h0 !! t)) ->
  steps lk_tstep (lk_init (Some (mkGQ h0 fl_new))) tr c ->
  linearizable (fifo_spec live) (history tr).
Proof. intros. by eapply gq_linearizable_spec. Qed.

Definition gq_demo : list (tid * gq_inv) :=
  [(0%nat, GPushMany [8; 16; 24]); (1%nat, GGrab 2); (0%nat, GTryPopOne); (1%nat, GTryPopOne);
   (0%nat, GTryPopOne); (1%nat, GTryPopOne); (0%nat, GTryPopOne); (1%nat, GTryPopOne);
   (1%nat, GTryPopOne); (1%nat, GTryPopOne); (1%nat, GTryPopOne)].

Lemma global_queue_linearizable_witness :
  exists tr, history tr = [(0%nat, Inv (GPushMany [8; 16; 24])); (1%nat, Inv (GGrab 2));
                           (0%nat, Ret GDone); (1%nat, Ret (GTasks [8; 16]))] /\
    linearizable (fifo_spec (list_to_set [8; 16; 24])) (history tr).
Proof.
  eexists. eassert (Hs : steps lk_tstep
      (lk_init (Some (mkGQ (list_to_map [(8, 0); (16, 0); (24, 0)]) fl_new))) _ _).
  { apply (run_steps0 lk_tstep gq_demo). vm_compute. reflexivity. }
  split; [|eapply global_queue_linearizable; [| |exact Hs]].
  - reflexivity.
  - vm_compute. reflexivity.
  - intros t Ht. rewrite elem_of_list_to_set in Ht.
    repeat (apply elem_of_cons in Ht as [->|Ht]; [vm_compute; eauto|]). by apply elem_of_nil in Ht.
Defined.
