(* ===== verification/ThreadSync.v ===== *)
(** Blocking synchronization of operating-system threads: src/src/exe/thread.

    [Event] is modelled at its atomic accesses and futex calls.  [WaitGroup]
    and [IntrusiveUnboundedBlockingQueue] are monitors: every region under
    [std::mutex] is one step, and a condition variable is the list of the
    threads that sleep on it; a notified (or spuriously woken) thread has to
    get the mutex again and re-evaluates its predicate, as [wait(lock, pred)]
    does.  The mutex, the condition variable and the futex are twist's; what
    is used of them is their documented behaviour. *)

From S2P Require Import Prelude Conc.

(** ** Sleeping threads *)

Definition wake_one (t : tid) (q : list tid) : list tid := filter (fun u => u <> t) q.

Lemma elem_of_wake_one t u q : u ∈ wake_one t q <-> u ∈ q /\ u <> t.
Proof. unfold wake_one. rewrite list_elem_of_filter. naive_solver. Qed.

(** ** thread::Event *)

Module Event.

(** [fired_], and the threads parked on its address. *)
Record Event := mkEvent { fired : Z; parked : list tid }.

Inductive pc :=
| EvIdle
| EvStore            (** [Fire]: at [fired_.store(1)] *)
| EvWake             (** [Fire]: at [WakeOne] *)
| EvLoad             (** [Wait]: at [fired_.load()] *)
| EvSysWait          (** [futex::Wait]: at the system call *)
| EvParked
| EvReload.          (** [futex::Wait]: re-reading the atomic *)

(** What the environment decides: which method to call, whom [WakeOne] wakes. *)
Inductive act := DoFire | DoWait | Choose (t : tid) | Go.

(** [Returned true] is a return from [Wait]. *)
Inductive ev := Called (wait : bool) | Returned (wait : bool).

Definition event_Fire_store (s : Event) : Event := mkEvent 1 (parked s).
Definition event_Fire_wake (u : tid) (s : Event) : Event := mkEvent (fired s) (wake_one u (parked s)).
Definition event_Wait_load (s : Event) : bool := (fired s =? 0)%Z.

Definition tstep (t : tid) (a : act) (p : pc) (s : Event) : option (pc * Event * list ev) :=
  match p, a with
  | EvIdle, DoFire => Some (EvStore, s, [Called false])
  | EvIdle, DoWait => Some (EvLoad, s, [Called true])
  | EvStore, Go => Some (EvWake, event_Fire_store s, [])
  | EvWake, Choose u =>
      (* some parked thread, if there is one *)
      if decide (u ∈ parked s \/ parked s = []) then Some (EvIdle, event_Fire_wake u s, [Returned false])
      else None
  | EvLoad, Go => Some (if event_Wait_load s then (EvSysWait, s, []) else (EvIdle, s, [Returned true]))
  | EvSysWait, Go =>
      if (fired s =? 0)%Z then Some (EvParked, mkEvent (fired s) (parked s ++ [t]), [])
      else Some (EvReload, s, [])
  | EvParked, Go => if decide (t ∈ parked s) then None else Some (EvReload, s, [])
  | EvReload, Go => Some (if (fired s =? 0)%Z then (EvSysWait, s, []) else (EvIdle, s, [Returned true]))
  | _, _ => None
  end.

Definition init : config Event pc := Cfg (mkEvent 0 []) (fun _ => EvIdle).

(** A parked thread is in [futex::Wait]; the word is set before anyone is woken. *)
Definition waiting (p : pc) : bool :=
  match p with EvLoad | EvSysWait | EvParked | EvReload => true | _ => false end.

Record inv (w : tid) (c : config Event pc) : Prop := {
  i_fired : fired (sh c) = 0%Z \/ fired (sh c) = 1%Z;
  i_wake t : lo c t = EvWake -> fired (sh c) = 1%Z;
  i_parked t : t ∈ parked (sh c) -> t = w /\ lo c t = EvParked;
  i_lost : fired (sh c) = 1%Z -> w ∈ parked (sh c) -> exists t, lo c t = EvWake;
  i_only t : waiting (lo c t) = true -> t = w;
}.

(** Steps in which only [w] waits. *)
Definition steps1 (w : tid) : list (tid * ev) -> config Event pc -> Prop :=
  gsteps tstep (fun t a _ => a = DoWait -> t = w) init.

Lemma event_inv_step w c t a c' es :
  inv w c -> cstep tstep t a c = Some (c', es) -> (a = DoWait -> t = w) -> inv w c'.
Proof.
  intros [Hf Hw Hp Hl Ho] (p' & s' & Ht & ->)%cstep_inv Ha.
  assert (Hlo : forall u p, (<[t := p]> (lo c)) u = if decide (u = t) then p else lo c u).
  { intros u p. case_decide as E; [subst; by rewrite fn_lookup_insert|by rewrite fn_lookup_insert_ne]. }
  unfold tstep in Ht. destruct (lo c t) eqn:Ep, a; try done; simpl in *.
  - simplify_eq. constructor; simpl; try done.
    + intros u. rewrite Hlo. case_decide; [done|eauto].
    + intros u Hu. rewrite Hlo. case_decide as E; [|eauto]. subst. destruct (Hp t Hu). congruence.
    + intros H1 H2. destruct (Hl H1 H2) as (u & Hu). exists u. rewrite Hlo. case_decide; [congruence|done].
    + intros u. rewrite Hlo. case_decide; [done|eauto].
  - simplify_eq. constructor; simpl; try done.
    + intros u. rewrite Hlo. case_decide; [done|eauto].
    + intros u Hu. rewrite Hlo. case_decide as E; [|eauto]. subst. destruct (Hp t Hu). congruence.
    + intros H1 H2. destruct (Hl H1 H2) as (u & Hu). exists u. rewrite Hlo. case_decide; [congruence|done].
    + intros u. rewrite Hlo. case_decide as E; [subst; auto|eauto].
  - simplify_eq. constructor; simpl; try done.
    + by right.
    + intros u Hu. rewrite Hlo. case_decide as E; [|eauto]. subst. destruct (Hp t Hu). congruence.
    + intros _ _. exists t. rewrite Hlo. by case_decide.
    + intros u. rewrite Hlo. case_decide; [done|eauto].
  - case_decide as Hch; simplify_eq. pose proof (Hw t Ep) as Hf1. constructor; simpl; try done.
    + intros u Hu. apply elem_of_wake_one in Hu as [Hu _]. rewrite Hlo.
      case_decide as E; [|eauto]. subst. destruct (Hp t Hu). congruence.
    + intros _ Hin. apply elem_of_wake_one in Hin as [Hin Hne].
      destruct Hch as [Hch|Hch]; [by destruct (Hp _ Hch)|].
      rewrite Hch in Hin. by apply elem_of_nil in Hin.
    + intros u. rewrite Hlo. case_decide; [done|eauto].
  - simplify_eq. unfold event_Wait_load in Ht.
    assert (t = w) as -> by (apply Ho; by rewrite Ep).
    assert (Hnp : w ∉ parked (sh c)) by (intros Hx; destruct (Hp w Hx); congruence).
    destruct (fired (sh c) =? 0)%Z; simplify_eq; constructor; simpl; try done.
    all: try (intros u; rewrite Hlo; case_decide; [done|eauto]).
    all: try (intros u Hu; rewrite Hlo; case_decide as E; [subst; done|eauto]).
  - assert (t = w) as -> by (apply Ho; by rewrite Ep).
    assert (Hnp : w ∉ parked (sh c)) by (intros Hx; destruct (Hp w Hx); congruence).
    destruct (fired (sh c) =? 0)%Z eqn:Ef; simplify_eq; constructor; simpl; try done.
    all: try (intros u; rewrite Hlo; case_decide; [done|eauto]; fail).
    + intros u. rewrite elem_of_app, list_elem_of_singleton. rewrite Hlo.
      intros [Hu| ->]; case_decide; try done; eauto.
    + bool_hyps. lia.
    + intros u Hu. rewrite Hlo. case_decide as E; [subst; done|eauto].
  - assert (t = w) as -> by (apply Ho; by rewrite Ep).
    case_decide as Hin; simplify_eq. constructor; simpl; try done.
    all: try (intros u; rewrite Hlo; case_decide; [done|eauto]; fail).
    intros u Hu. rewrite Hlo. case_decide as E; [subst; done|eauto].
  - simplify_eq. assert (t = w) as -> by (apply Ho; by rewrite Ep).
    assert (Hnp : w ∉ parked (sh c)) by (intros Hx; destruct (Hp w Hx); congruence).
    destruct (fired (sh c) =? 0)%Z; simplify_eq; constructor; simpl; try done.
    all: try (intros u; rewrite Hlo; case_decide; [done|eauto]; fail).
    all: intros u Hu; rewrite Hlo; case_decide as E; [subst; done|eauto].
Qed.

Lemma event_inv_init w : inv w init.
Proof. constructor; simpl; try done; [by left|]. intros t Ht. by apply elem_of_nil in Ht. Qed.

Lemma event_inv_reachable w tr c : steps1 w tr c -> inv w c.
Proof. induction 1 as [|tr c t a c' es _ IH Ha Hc]; [apply event_inv_init|]. by eapply event_inv_step. Qed.

(** [Wait] returns only after the store of [Fire]. *)
Lemma wait_after_fire tr c : steps tstep init tr c ->
  (fired (sh c) = 0%Z -> forall t, (t, Returned true) ∉ tr) /\ (fired (sh c) = 0%Z \/ fired (sh c) = 1%Z).
Proof.
  induction 1 as [|tr c t a c' es _ [IH IHf] Hc].
  { split; [|by left]. intros _ t Ht. by apply elem_of_nil in Ht. }
  apply cstep_inv in Hc as (p' & s' & Ht & ->). simpl.
  assert (Hes : fired s' = 0%Z -> fired (sh c) = 0%Z /\ (Returned true ∉ es)).
  { unfold tstep, event_Wait_load in Ht. destruct (lo c t), a; try done; simplify_eq/=;
      repeat (case_decide || case_match); simplify_eq/=; bool_hyps; intros; try (exfalso; lia);
      (split; [done || lia|]);
      intros Hx; repeat (apply elem_of_cons in Hx as [Hx|Hx]; [congruence|]); by apply elem_of_nil in Hx. }
  split.
  - intros H0 u. destruct (Hes H0) as [H1 H2]. rewrite elem_of_app, list_elem_of_fmap.
    intros [Hu|(e & [= -> <-] & Hin)]; [by eapply IH|done].
  - unfold tstep in Ht. destruct (lo c t), a; try done; simplify_eq/=;
      repeat (case_decide || case_match); simplify_eq/=; auto.
Qed.
End Event.

(** ** thread::WaitGroup *)

Module WaitGroup.

Record WaitGroup := mkWG { counter : Z; contention : Z; wg_sleep : list tid }.

Inductive pc := WgIdle | WgWait.
Inductive act := DoAdd (count : Z) | DoDone | DoWait | Go | Spurious.
Inductive ev := Added (count : Z) | Decremented | Waited.

Definition wg_Add (count : Z) (s : WaitGroup) : WaitGroup :=
  mkWG (u64 (counter s + count)) (contention s) (wg_sleep s).

Definition wg_Done (s : WaitGroup) : WaitGroup :=
  let counter' := u64 (counter s - 1) in
  mkWG counter' (contention s)
    (if (counter' =? 0)%Z && negb (contention s =? 0)%Z then [] else wg_sleep s).

(** [CV.wait]'s predicate under the lock: leave, or sleep on. *)
Definition wg_Wait_check (t : tid) (s : WaitGroup) : pc * WaitGroup * list ev :=
  if (counter s =? 0)%Z then (WgIdle, mkWG (counter s) (u64 (contention s - 1)) (wg_sleep s), [Waited])
  else (WgWait, mkWG (counter s) (contention s) (wg_sleep s ++ [t]), []).

Definition wg_Wait_enter (s : WaitGroup) : WaitGroup :=
  mkWG (counter s) (u64 (contention s + 1)) (wg_sleep s).

Definition tstep (t : tid) (a : act) (p : pc) (s : WaitGroup) : option (pc * WaitGroup * list ev) :=
  match p, a with
  | WgIdle, DoAdd n => Some (WgIdle, wg_Add n s, [Added n])
  | WgIdle, DoDone => Some (WgIdle, wg_Done s, [Decremented])
  | WgIdle, DoWait => Some (wg_Wait_check t (wg_Wait_enter s))
  | WgWait, Go => if decide (t ∈ wg_sleep s) then None else Some (wg_Wait_check t s)
  | WgWait, Spurious =>
      Some (WgWait, mkWG (counter s) (contention s) (wake_one t (wg_sleep s)), [])
  | _, _ => None
  end.

Definition init : config WaitGroup pc := Cfg (mkWG 0 0 []) (fun _ => WgIdle).

(** The client's side: [N] threads; the counter neither overflows nor is
    decremented below zero. *)
Definition allowed (N : nat) (t : tid) (a : act) (s : WaitGroup) : Prop :=
  t < N /\
  match a with
  | DoAdd n => (0 <= n)%Z /\ (counter s + n < 2^64)%Z
  | DoDone => (0 < counter s)%Z
  | _ => True
  end.

Definition wsteps (N : nat) : list (tid * ev) -> config WaitGroup pc -> Prop :=
  gsteps tstep (fun t a c => allowed N t a (sh c)) init.

(** What the group counts: the events of the trace. *)
Fixpoint balance (tr : list (tid * ev)) : Z :=
  match tr with
  | [] => 0
  | (_, Added n) :: tr => n + balance tr
  | (_, Decremented) :: tr => balance tr - 1
  | (_, Waited) :: tr => balance tr
  end.

Lemma balance_app tr tr' : balance (tr ++ tr') = (balance tr + balance tr')%Z.
Proof. induction tr as [|[t []] tr IH]; simpl; lia. Qed.

Definition is_wait (p : pc) : bool := match p with WgWait => true | WgIdle => false end.

Record inv (N : nat) (tr : list (tid * ev)) (c : config WaitGroup pc) : Prop := {
  i_counter : counter (sh c) = balance tr /\ (0 <= balance tr < 2^64)%Z;
  i_contention : contention (sh c) = Z.of_nat (count_lo is_wait N (lo c));
  i_sleep t : t ∈ wg_sleep (sh c) -> t < N /\ lo c t = WgWait;
  i_awake : wg_sleep (sh c) <> [] -> counter (sh c) <> 0%Z;
}.

Lemma fn_insert_if {A} (f : tid -> A) t x u :
  (<[t := x]> f) u = if decide (u = t) then x else f u.
Proof. case_decide as E; [subst; by rewrite fn_lookup_insert|by rewrite fn_lookup_insert_ne]. Qed.

Lemma wg_inv_step N tr c t a c' es : (Z.of_nat N < 2^64)%Z ->
  inv N tr c -> allowed N t a (sh c) -> cstep tstep t a c = Some (c', es) ->
  inv N (tr ++ map (pair t) es) c'.
Proof.
  intros HN [[Hc Hcb] Hk Hs Ha] [Ht Hal] (p' & s' & Hst & ->)%cstep_inv.
  pose proof (count_lo_le is_wait N (lo c)) as Hle.
  pose proof (fun p => count_lo_insert is_wait N (lo c) t p Ht) as Hcnt.
  unfold tstep in Hst. destruct (lo c t) eqn:Ep, a as [n| | | |]; try done; simpl in *.
  - simplify_eq. destruct Hal. constructor; simpl; rewrite ?balance_app; simpl.
    + rewrite u64_id by lia. lia.
    + specialize (Hcnt WgIdle). simpl in Hcnt. lia.
    + intros u Hu. rewrite fn_insert_if. destruct (Hs u Hu) as [? Hw]. case_decide; [congruence|done].
    + intros Hne. specialize (Ha Hne). rewrite u64_id by lia. lia.
  - simplify_eq. unfold wg_Done. rewrite (u64_id (counter (sh c) - 1)) by lia.
    set (b := (counter (sh c) - 1 =? 0)%Z && negb (contention (sh c) =? 0)%Z).
    constructor; simpl; rewrite ?balance_app; simpl.
    + lia.
    + specialize (Hcnt WgIdle). simpl in Hcnt. lia.
    + intros u Hu. destruct b; [by apply elem_of_nil in Hu|].
      rewrite fn_insert_if. destruct (Hs u Hu) as [? Hw]. case_decide; [congruence|done].
    + unfold b. destruct (counter (sh c) - 1 =? 0)%Z eqn:E; simpl; [|bool_hyps; done].
      destruct (contention (sh c) =? 0)%Z eqn:E2; simpl; [|done]. bool_hyps.
      intros Hne. destruct (wg_sleep (sh c)) as [|u q] eqn:Eq; [done|].
      destruct (Hs u ltac:(left)) as [Hu Hw].
      pose proof (count_lo_pos is_wait N (lo c) u Hu ltac:(by rewrite Hw)). lia.
  - simplify_eq. unfold wg_Wait_check, wg_Wait_enter in Hst. simpl in Hst.
    pose proof (count_lo_le is_wait N (<[t := WgWait]> (lo c))) as Hle'.
    pose proof (Hcnt WgWait) as Hcw. simpl in Hcw.
    destruct (counter (sh c) =? 0)%Z eqn:E; simplify_eq; bool_hyps;
      constructor; simpl; rewrite ?balance_app; simpl; try done; try lia.
    + specialize (Hcnt WgIdle). simpl in Hcnt. rewrite (u64_id (_ + 1)) by lia. rewrite u64_id by lia. lia.
    + intros u Hu. rewrite fn_insert_if. destruct (Hs u Hu) as [? Hw]. case_decide; [congruence|done].
    + specialize (Hcnt WgWait). simpl in Hcnt.
      pose proof (count_lo_le is_wait N (<[t := WgWait]> (lo c))). rewrite u64_id by lia. lia.
    + intros u. rewrite elem_of_app, list_elem_of_singleton, fn_insert_if.
      intros [Hu| ->]; case_decide; naive_solver.
  - case_decide as Hin; simplify_eq. unfold wg_Wait_check in Hst.
    destruct (counter (sh c) =? 0)%Z eqn:E; simplify_eq; bool_hyps;
      constructor; simpl; rewrite ?balance_app; simpl; try done; try lia.
    + specialize (Hcnt WgIdle). simpl in Hcnt.
      rewrite u64_id by lia. lia.
    + intros u Hu. rewrite fn_insert_if. case_decide; [by subst|eauto].
    + specialize (Hcnt WgWait). simpl in Hcnt. lia.
    + intros u. rewrite elem_of_app, list_elem_of_singleton, fn_insert_if.
      intros [Hu| ->]; case_decide; naive_solver.
  - simplify_eq. constructor; simpl; rewrite ?balance_app; simpl; try done; try lia.
    + specialize (Hcnt WgWait). simpl in Hcnt. lia.
    + intros u Hu. apply elem_of_wake_one in Hu as [Hu _]. rewrite fn_insert_if.
      case_decide; [by subst|eauto].
    + intros Hne. apply Ha. intros E. by rewrite E in Hne.
Qed.

Lemma wg_inv_reachable N tr c : (Z.of_nat N < 2^64)%Z -> wsteps N tr c -> inv N tr c.
Proof.
  intros HN. induction 1 as [|tr c t a c' es _ IH Hal Hc]; [|by eapply wg_inv_step].
  constructor; simpl; try done; [by rewrite count_lo_zero|]. intros t Ht. by apply elem_of_nil in Ht.
Qed.
End WaitGroup.

(** ** Main results *)

(** [Event]: [Wait] returns only after [Fire] has set the event, and with
    a single waiting thread no wake-up is lost: if the waiter is parked while
    the event is set, some [Fire] is about to wake a parked thread. *)
Theorem event_no_lost_wakeup w tr c :
  Event.steps1 w tr c ->
  (Event.fired (sh c) = 1%Z -> w ∈ Event.parked (sh c) -> exists t, lo c t = Event.EvWake) /\
  (Event.fired (sh c) = 0%Z -> forall t, (t, Event.Returned true) ∉ tr).
Proof.
  intros Hs. split; [apply (Event.event_inv_reachable _ _ _ Hs)|].
  apply (Event.wait_after_fire tr c). by eapply gsteps_steps.
Qed.

(** With two waiting threads [Fire], which calls [WakeOne], wakes only one
    of them: a reachable state in which the event is set, nobody is about to
    wake anyone, and a thread is parked for good. *)
Theorem event_two_waiters_stuck :
  exists tr c, steps Event.tstep Event.init tr c /\ Event.fired (sh c) = 1%Z /\
    lo c 2 = Event.EvParked /\ 2 ∈ Event.parked (sh c) /\
    forall t, t <> 2 -> lo c t = Event.EvIdle.
Proof.
  do 2 eexists. split.
  - apply (run_steps0 Event.tstep
      [(1, Event.DoWait); (2, Event.DoWait); (1, Event.Go); (2, Event.Go); (1, Event.Go); (2, Event.Go);
       (0, Event.DoFire); (0, Event.Go); (0, Event.Choose 1); (1, Event.Go); (1, Event.Go)]).
    vm_compute. reflexivity.
  - split; [reflexivity|]. split; [reflexivity|]. split; [simpl; left|].
    intros [|[|[|t]]] Ht; done.
Qed.

(** [WaitGroup]: the counter is the number of [Add]ed minus [Done] units;
    while a thread sleeps in [Wait] the counter is not zero, so no wake-up is
    lost (the last [Done] wakes all, although it looks at [contention_] first). *)
Theorem wait_group_no_lost_wakeup N tr c :
  (Z.of_nat N < 2^64)%Z -> WaitGroup.wsteps N tr c ->
  WaitGroup.counter (sh c) = WaitGroup.balance tr /\
  (WaitGroup.wg_sleep (sh c) <> [] -> WaitGroup.counter (sh c) <> 0%Z) /\
  WaitGroup.contention (sh c) = Z.of_nat (count_lo WaitGroup.is_wait N (lo c)).
Proof.
  intros HN Hs. destruct (WaitGroup.wg_inv_reachable _ _ _ HN Hs) as [[? _] ? _ ?]. done.
Qed.

(** [Wait] returns only when the counter is zero. *)
Theorem wait_group_wait_returns N tr c t a c' es :
  (Z.of_nat N < 2^64)%Z -> WaitGroup.wsteps N tr c ->
  cstep WaitGroup.tstep t a c = Some (c', es) -> WaitGroup.Waited ∈ es ->
  WaitGroup.balance tr = 0%Z.
Proof.
  intros HN Hs (p & s & Hst & ->)%cstep_inv Hin.
  destruct (WaitGroup.wg_inv_reachable _ _ _ HN Hs) as [[<- _] _ _ _].
  unfold WaitGroup.tstep, WaitGroup.wg_Wait_check in Hst.
  destruct (lo c t), a; try done; repeat case_decide; simplify_eq/=;
    try (destruct (WaitGroup.counter (sh c) =? 0)%Z eqn:E; bool_hyps; simplify_eq/=; [done|]);
    repeat (apply elem_of_cons in Hin as [Hin|Hin]; [done|]); by apply elem_of_nil in Hin.
Qed.

(** The waiter parks, then the event fires. *)
Definition event_demo : list (tid * Event.act) :=
  [(1, Event.DoWait); (1, Event.Go); (1, Event.Go); (0, Event.DoFire); (0, Event.Go)].

Lemma event_no_lost_wakeup_witness :
  exists tr c, Event.steps1 1 tr c /\ Event.fired (sh c) = 1%Z /\ 1 ∈ Event.parked (sh c) /\
    exists t, lo c t = Event.EvWake.
Proof.
  do 2 eexists. eassert (Hs : Event.steps1 1 _ _).
  { apply (run_gsteps0 Event.tstep _ event_demo); [by vm_compute|]. vm_compute. reflexivity. }
  split; [exact Hs|]. split; [reflexivity|]. split; [simpl; left|].
  apply (event_no_lost_wakeup 1 _ _ Hs); [reflexivity|]. simpl. left.
Defined.

(** Thread 0 adds one unit and waits; thread 1 finishes it. *)
Definition wg_demo : list (tid * WaitGroup.act) :=
  [(0, WaitGroup.DoAdd 1); (0, WaitGroup.DoWait); (1, WaitGroup.DoDone)].

Lemma wait_group_no_lost_wakeup_witness :
  exists tr c, WaitGroup.wsteps 2 tr c /\ WaitGroup.wg_sleep (sh c) = [0] /\
    WaitGroup.counter (sh c) <> 0%Z.
Proof.
  do 2 eexists. eassert (Hs : WaitGroup.wsteps 2 _ _).
  { apply (run_gsteps0 WaitGroup.tstep _ (take 2 wg_demo)); [|vm_compute; reflexivity].
    vm_compute. repeat split; first [discriminate | repeat constructor]. }
  split; [exact Hs|]. split; [reflexivity|].
  apply (wait_group_no_lost_wakeup 2 _ _ ltac:(lia) Hs). done.
Defined.

Lemma wait_group_wait_returns_witness :
  exists tr c, WaitGroup.wsteps 2 tr c /\ WaitGroup.balance tr = 0%Z.
Proof.
  do 2 eexists. eassert (Hs : WaitGroup.wsteps 2 _ _).
  { apply (run_gsteps0 WaitGroup.tstep _ wg_demo); [|vm_compute; reflexivity].
    vm_compute. repeat split; first [discriminate | repeat constructor]. }
  split; [exact Hs|].
  eapply (wait_group_wait_returns 2 _ _ 0 WaitGroup.Go); [lia|exact Hs|vm_compute; reflexivity|left].
Defined.
