(* ===== verification/BlockingQueue.v ===== *)
(** The blocking queue of the compute pool: src/src/exe/thread/queue.hpp.

    A monitor: every region under [mutex_] is one step; [CV] is the list of
    sleeping threads.  Results: linearizability against an unbounded FIFO
    queue that can be closed, and the absence of lost wake-ups, which rests on
    the counter [waiters_] that [Push] consults before notifying. *)

From S2P Require Import Prelude Conc ThreadSync.

Section bq.
Context {T : Type}.

Record BQ := mkBQ {
  bq_queue : list T;
  bq_closed : bool;
  bq_waiters : Z;
  bq_sleep : list tid;      (** threads sleeping on [CV] *)
}.

Inductive bq_inv := BPush (node : T) | BPop | BClose.
Inductive bq_res := BUnit | BNode (r : option T).

(** [Push]; [u] is the thread [notify_one] picks. *)
Definition bq_Push (node : T) (u : tid) (q : BQ) : BQ :=
  if bq_closed q then q
  else mkBQ (bq_queue q ++ [node]) (bq_closed q) (bq_waiters q)
         (if (0 <? bq_waiters q)%Z then wake_one u (bq_sleep q) else bq_sleep q).

Definition bq_Close (q : BQ) : BQ := mkBQ (bq_queue q) true (bq_waiters q) [].

(** The predicate of [CV.wait], with its side effect on [waiters_]. *)
Definition bq_stop (q : BQ) : bool * BQ :=
  let stop := match bq_queue q with [] => bq_closed q | _ => true end in
  (stop, if stop then mkBQ (bq_queue q) (bq_closed q) (u64 (bq_waiters q - 1)) (bq_sleep q) else q).

Definition bq_Pop_enter (q : BQ) : BQ :=
  mkBQ (bq_queue q) (bq_closed q) (u64 (bq_waiters q + 1)) (bq_sleep q).

(** After the wait: [nullopt] if closed and empty, else [PopFront]. *)
Definition bq_Pop_take (q : BQ) : option T * BQ :=
  match bq_queue q with
  | [] => (None, q)
  | x :: xs => (Some x, mkBQ xs (bq_closed q) (bq_waiters q) (bq_sleep q))
  end.

Inductive bq_pc :=
| BqIdle
| BqCall (i : bq_inv)
| BqSleep
| BqRet (i : bq_inv) (r : bq_res).

Inductive bq_act := BqInvoke (i : bq_inv) | BqNotify (u : tid) | BqSpurious.

Definition bq_wait (t : tid) (q : BQ) : bq_pc * BQ * list (event bq_inv bq_res) :=
  let '(stop, q) := bq_stop q in
  if stop then let '(r, q) := bq_Pop_take q in (BqRet BPop (BNode r), q, [Lin BPop (BNode r)])
  else (BqSleep, mkBQ (bq_queue q) (bq_closed q) (bq_waiters q) (bq_sleep q ++ [t]), []).

Definition bq_tstep (t : tid) (a : bq_act) (p : bq_pc) (q : BQ)
  : option (bq_pc * BQ * list (event bq_inv bq_res)) :=
  match p, a with
  | BqIdle, BqInvoke i => Some (BqCall i, q, [Inv i])
  | BqCall (BPush x), BqNotify u =>
      (* [notify_one] wakes a sleeping thread if there is one *)
      if decide (u ∈ bq_sleep q \/ bq_sleep q = []) then
        Some (BqRet (BPush x) BUnit, bq_Push x u q, [Lin (BPush x) BUnit])
      else None
  | BqCall BClose, BqNotify _ => Some (BqRet BClose BUnit, bq_Close q, [Lin BClose BUnit])
  | BqCall BPop, BqNotify _ => Some (bq_wait t (bq_Pop_enter q))
  | BqSleep, BqNotify _ => if decide (t ∈ bq_sleep q) then None else Some (bq_wait t q)
  | BqSleep, BqSpurious =>
      Some (BqSleep, mkBQ (bq_queue q) (bq_closed q) (bq_waiters q) (wake_one t (bq_sleep q)), [])
  | BqRet i r, BqNotify _ => Some (BqIdle, q, [Ret r])
  | _, _ => None
  end.

Definition bq_empty : BQ := mkBQ [] false 0 [].
Definition bq_init : config BQ bq_pc := Cfg bq_empty (fun _ => BqIdle).

(** ** Specification *)

Inductive bq_spec_step : list T * bool -> bq_inv -> bq_res -> list T * bool -> Prop :=
| bs_push xs x : bq_spec_step (xs, false) (BPush x) BUnit (xs ++ [x], false)
| bs_push_closed xs x : bq_spec_step (xs, true) (BPush x) BUnit (xs, true)
| bs_close xs b : bq_spec_step (xs, b) BClose BUnit (xs, true)
| bs_pop x xs b : bq_spec_step (x :: xs, b) BPop (BNode (Some x)) (xs, b)
| bs_pop_closed : bq_spec_step ([], true) BPop (BNode None) ([], true).

Definition bq_spec : seq_spec bq_inv bq_res := SeqSpec bq_inv bq_res (list T * bool) ([], false) bq_spec_step.

Definition bq_abs (q : BQ) : list T * bool := (bq_queue q, bq_closed q).

Definition bq_status (p : bq_pc) : status bq_inv bq_res :=
  match p with
  | BqIdle => Idle
  | BqCall i => Pending i
  | BqSleep => Pending BPop
  | BqRet i r => Committed i r
  end.

Lemma bq_wait_lin t q p q' es :
  bq_wait t q = (p, q', es) ->
  legal bq_spec (bq_abs q) (lin_ops es) (bq_abs q') /\ status_steps (Pending BPop) es (bq_status p).
Proof.
  unfold bq_wait, bq_stop, bq_Pop_take, bq_abs. destruct q as [[|x xs] b w sl]; simpl.
  - destruct b; intros [= <- <- <-]; simpl; (split; [|by repeat econstructor]);
      [repeat econstructor|constructor].
  - intros [= <- <- <-]. simpl. split; by repeat econstructor.
Qed.

Lemma bq_lin_step c t x c' es :
  cstep bq_tstep t x c = Some (c', es) ->
  legal bq_spec (bq_abs (sh c)) (lin_ops es) (bq_abs (sh c')) /\
  status_steps (bq_status (lo c t)) es (bq_status (lo c' t)).
Proof.
  intros (p & q & Hs & ->)%cstep_inv. simpl. rewrite fn_lookup_insert.
  destruct (lo c t) as [|[n| |]| |i r], x; simpl in Hs; try done; simplify_eq/=.
  - split; [constructor|by repeat econstructor].
  - case_decide; simplify_eq/=. split; [|by repeat econstructor].
    unfold bq_Push, bq_abs. destruct (sh c) as [xs [] w sl]; simpl; repeat econstructor.
  - by apply bq_wait_lin in Hs.
  - split; [|by repeat econstructor]. unfold bq_abs. destruct (sh c); simpl. repeat econstructor.
  - case_decide; simplify_eq/=. by apply bq_wait_lin in Hs.
  - split; constructor.
  - split; [constructor|by repeat econstructor].
Qed.

#[export] Instance bq_lin_points : LinPoints bq_tstep bq_spec bq_init (fun _ => True).
Proof.
  refine (@Build_LinPoints _ _ _ _ _ bq_tstep bq_spec bq_init (fun _ => True) bq_status
            (fun _ c a => bq_abs (sh c) = a) _ _ _ _).
  - done.
  - done.
  - done.
  - intros tr c a t x c' es <- Hc _. apply bq_lin_step in Hc as [? ?]. eauto.
Defined.

(** ** No lost wake-ups *)

Definition is_sleep (p : bq_pc) : bool := match p with BqSleep => true | _ => false end.

(** [waiters_] counts the threads inside [CV.wait]; while someone sleeps the
    queue is open and every queued task has a woken thread on its way. *)
Record bq_ok (N : nat) (c : config BQ bq_pc) : Prop := {
  bo_waiters : bq_waiters (sh c) = Z.of_nat (count_lo is_sleep N (lo c));
  bo_sleep t : t ∈ bq_sleep (sh c) -> t < N /\ lo c t = BqSleep;
  bo_nodup : base.NoDup (bq_sleep (sh c));
  bo_open : bq_sleep (sh c) <> [] -> bq_closed (sh c) = false /\
    length (bq_queue (sh c)) + length (bq_sleep (sh c)) <= count_lo is_sleep N (lo c);
}.

Definition bsteps (N : nat) : list (tid * event bq_inv bq_res) -> config BQ bq_pc -> Prop :=
  gsteps bq_tstep (fun t _ _ => t < N) bq_init.

Lemma wake_one_notin u q : u ∉ q -> wake_one u q = q.
Proof.
  intros Hn. unfold wake_one. induction q as [|x q IH]; [done|].
  rewrite not_elem_of_cons in Hn. rewrite list.filter_cons, decide_True, IH; naive_solver.
Qed.

Lemma wake_one_length u q : base.NoDup q -> u ∈ q -> S (length (wake_one u q)) = length q.
Proof.
  intros Hnd Hin. induction q as [|x q IH]; [by apply elem_of_nil in Hin|].
  apply list.NoDup_cons in Hnd as [Hx Hnd]. unfold wake_one in *.
  rewrite list.filter_cons. case_decide as E.
  - apply elem_of_cons in Hin as [->|Hin]; [done|]. simpl. by rewrite IH.
  - assert (x = u) as -> by (destruct (decide (x = u)); naive_solver).
    fold (wake_one u q). by rewrite wake_one_notin.
Qed.

Lemma wake_one_nodup u q : base.NoDup q -> base.NoDup (wake_one u q).
Proof. apply list.NoDup_filter. Qed.

(** [bq_wait], from the entry of [Pop] or after a wake-up, when [w] threads
    are counted inside [CV.wait], the caller among them. *)
Lemma bq_wait_ok N (c : config BQ bq_pc) t q p q' es :
  (Z.of_nat N < 2^64)%Z -> t < N ->
  bq_wait t q = (p, q', es) ->
  bq_waiters q = Z.of_nat (S (count_lo is_sleep N (<[t := BqIdle]> (lo c)))) ->
  (forall u, u ∈ bq_sleep q -> u < N /\ u <> t /\ lo c u = BqSleep) ->
  base.NoDup (bq_sleep q) ->
  (bq_sleep q <> [] -> bq_closed q = false /\
     length (bq_queue q) + length (bq_sleep q) <= S (count_lo is_sleep N (<[t := BqIdle]> (lo c)))) ->
  bq_ok N (Cfg q' (<[t := p]> (lo c))).
Proof.
  intros HN Ht Hw Hcnt Hsl Hnd Hopen.
  assert (Hbase : forall x, count_lo is_sleep N (<[t := x]> (lo c)) =
            count_lo is_sleep N (<[t := BqIdle]> (lo c)) + Nat.b2n (is_sleep x)).
  { intros x. pose proof (count_lo_insert is_sleep N (lo c) t x Ht).
    pose proof (count_lo_insert is_sleep N (lo c) t BqIdle Ht). simpl in *. lia. }
  pose proof (count_lo_le is_sleep N (<[t := BqSleep]> (lo c))) as Hle.
  rewrite (Hbase BqSleep) in Hle. simpl in Hle.
  assert (Hout : forall r xs, p = BqRet BPop r ->
            q' = mkBQ xs (bq_closed q) (u64 (bq_waiters q - 1)) (bq_sleep q) ->
            length xs <= length (bq_queue q) - 1 -> (bq_queue q <> [] \/ bq_closed q = true) ->
            bq_ok N (Cfg q' (<[t := p]> (lo c)))).
  { intros r xs -> -> Hxs Hor. pose proof (Hbase (BqRet BPop r)) as Hb.
    constructor; simpl; rewrite ?Hb; simpl.
    - rewrite Hcnt, u64_id by lia. lia.
    - intros u Hu. destruct (Hsl u Hu) as (? & ? & ?). by rewrite fn_lookup_insert_ne.
    - done.
    - intros Hne. destruct (Hopen Hne) as [? ?]. split; [done|].
      destruct Hor as [Hq|?]; [|congruence]. destruct (bq_queue q); [done|]. simpl in *. lia. }
  unfold bq_wait, bq_stop, bq_Pop_take in Hw. destruct (bq_queue q) as [|x xs] eqn:Eq; simpl in Hw.
  - destruct (bq_closed q) eqn:Ec; simplify_eq/=.
    + eapply (Hout _ []); simpl; eauto.
    + pose proof (Hbase BqSleep) as Hb. constructor; simpl; rewrite ?Hb; simpl.
      * rewrite Hcnt. lia.
      * intros u. rewrite elem_of_app, list_elem_of_singleton. intros [Hu| ->].
        -- destruct (Hsl u Hu) as (? & ? & ?). by rewrite fn_lookup_insert_ne.
        -- by rewrite fn_lookup_insert.
      * apply list.NoDup_app. split_and!; [done| |apply NoDup_singleton].
        intros u Hu. rewrite list_elem_of_singleton. by destruct (Hsl u Hu) as (? & ? & ?).
      * intros _. split; [done|]. rewrite length_app, Eq. simpl.
        pose proof (count_lo_nodup is_sleep N (<[t := BqIdle]> (lo c)) (bq_sleep q) Hnd) as Hl.
        enough (length (bq_sleep q) <= count_lo is_sleep N (<[t := BqIdle]> (lo c))) by lia.
        apply Hl. intros u Hu. destruct (Hsl u Hu) as (? & ? & Hlo).
        rewrite fn_lookup_insert_ne by done. by rewrite Hlo.
  - simplify_eq/=. eapply (Hout _ xs); simpl; eauto; lia.
Qed.

Lemma bq_ok_step N c t a c' es :
  (Z.of_nat N < 2^64)%Z -> bq_ok N c -> t < N -> cstep bq_tstep t a c = Some (c', es) -> bq_ok N c'.
Proof.
  intros HN [Hw Hsl Hnd Hopen] Ht (p & q & Hs & ->)%cstep_inv.
  pose proof (fun x => count_lo_insert is_sleep N (lo c) t x Ht) as Hcnt.
  assert (Hkeep : forall x s', is_sleep (lo c t) = false -> is_sleep x = false ->
     s' = sh c -> bq_ok N (Cfg s' (<[t := x]> (lo c)))).
  { intros x s' H1 H2 ->. specialize (Hcnt x). rewrite H1, H2 in Hcnt. simpl in Hcnt.
    rewrite !Nat.add_0_r in Hcnt. constructor; simpl; rewrite ?Hcnt; try done.
    intros u Hu. destruct (Hsl u Hu) as [? Hlo]. rewrite fn_lookup_insert_ne; [done|].
    intros ->. by rewrite Hlo in H1. }
  destruct (lo c t) as [|[n| |]| |i r] eqn:Ep, a as [i0|u|]; simpl in Hs; try done; simplify_eq/=.
  - by apply Hkeep.
  - case_decide as Hu; simplify_eq. unfold bq_Push. destruct (bq_closed (sh c)) eqn:Ec; [by apply Hkeep|].
    specialize (Hcnt (BqRet (BPush n) BUnit)). simpl in Hcnt. rewrite !Nat.add_0_r in Hcnt.
    constructor; simpl; rewrite ?Hcnt; try done.
    + intros v Hv. assert (Hv' : v ∈ bq_sleep (sh c)).
      { destruct (0 <? bq_waiters (sh c))%Z; [by apply elem_of_wake_one in Hv as [? _]|done]. }
      destruct (Hsl v Hv') as [? Hlo]. rewrite fn_lookup_insert_ne; [done|]. intros ->. congruence.
    + destruct (0 <? _)%Z; [by apply wake_one_nodup|done].
    + rewrite length_app. simpl. destruct (0 <? bq_waiters (sh c))%Z eqn:E; bool_hyps.
      * intros Hne. destruct Hu as [Hu|Hu]; [|by rewrite Hu in Hne].
        destruct Hopen as [_ Hl]; [intros E'; rewrite E' in Hu; by apply elem_of_nil in Hu|].
        split; [done|]. pose proof (wake_one_length u _ Hnd Hu). lia.
      * intros Hne. exfalso. destruct (bq_sleep (sh c)) as [|v l] eqn:Eq; [done|].
        destruct (Hsl v ltac:(left)) as [Hv Hlo].
        pose proof (count_lo_pos is_sleep N (lo c) v Hv ltac:(by rewrite Hlo)). lia.
  - pose proof (Hcnt BqIdle) as Hci. simpl in Hci. rewrite !Nat.add_0_r in Hci.
    pose proof (count_lo_le is_sleep N (<[t := BqSleep]> (lo c))) as Hle.
    pose proof (Hcnt BqSleep) as Hcs. simpl in Hcs.
    eapply (bq_wait_ok N c t); [done|done|exact Hs|..]; simpl; rewrite ?Hci; try done.
    + rewrite u64_id by lia. lia.
    + intros v Hv. destruct (Hsl v Hv) as [? Hlo]. split_and!; try done. intros ->. congruence.
    + intros Hne. destruct (Hopen Hne). split; [done|lia].
  - specialize (Hcnt (BqRet BClose BUnit)). simpl in Hcnt. rewrite !Nat.add_0_r in Hcnt.
    constructor; simpl; rewrite ?Hcnt; try done; [|apply NoDup_nil_2].
    intros v Hv. by apply elem_of_nil in Hv.
  - case_decide as Hin; simplify_eq.
    pose proof (Hcnt BqIdle) as Hci. simpl in Hci.
    eapply (bq_wait_ok N c t); [done|done|exact Hs|..]; try done.
    + lia.
    + intros v Hv. destruct (Hsl v Hv) as [? Hlo]. split_and!; try done. by intros ->.
    + intros Hne. destruct (Hopen Hne). split; [done|lia].
  - specialize (Hcnt BqSleep). simpl in Hcnt.
    assert (Hc : count_lo is_sleep N (<[t := BqSleep]> (lo c)) = count_lo is_sleep N (lo c)) by lia.
    constructor; simpl; rewrite ?Hc; try done.
    + intros v Hv. apply elem_of_wake_one in Hv as [Hv Hne]. by rewrite fn_lookup_insert_ne by done; apply Hsl.
    + by apply wake_one_nodup.
    + intros Hne. destruct Hopen as [? Hl]; [intros E; by rewrite E in Hne|]. split; [done|].
      enough (length (wake_one t (bq_sleep (sh c))) <= length (bq_sleep (sh c))) by lia.
      apply length_filter.
  - by apply Hkeep.
Qed.

Lemma bq_ok_reachable N tr c : (Z.of_nat N < 2^64)%Z -> bsteps N tr c -> bq_ok N c.
Proof.
  intros HN. induction 1 as [|tr c t a c' es _ IH Ht Hc]; [|by eapply bq_ok_step].
  constructor; simpl; try done; [by rewrite count_lo_zero| |apply NoDup_nil_2].
  intros t Ht. by apply elem_of_nil in Ht.
Qed.
End bq.
Arguments BQ : clear implicits.
Arguments bq_inv : clear implicits.
Arguments bq_res : clear implicits.
Arguments bq_pc : clear implicits.
Arguments bq_act : clear implicits.

(** C39: The blocking queue is linearizable as an unbounded FIFO queue that can
    be closed: pushes after [Close] are dropped, [Pop] takes the oldest
    element, waits while the queue is open and empty, and returns [nullopt]
    only when the queue is closed and empty. *)
Theorem blocking_queue_linearizable {T} tr (c : config (BQ T) (bq_pc T)) :
  steps bq_tstep bq_init tr c -> linearizable bq_spec (history tr).
Proof. intros Hs. by eapply (lin_points_sound bq_lin_points). Qed.

(** C40: No wake-up is lost.  With [N] threads: [waiters_] is the number of
    threads inside [CV.wait], so [Push] never skips a notification that is
    needed: whenever a thread sleeps un-notified in [Pop], the queue is open
    and for every queued element another thread has been woken and is about to
    take it. *)
Theorem blocking_queue_no_lost_wakeup {T} N tr (c : config (BQ T) (bq_pc T)) :
  (Z.of_nat N < 2^64)%Z -> bsteps N tr c ->
  bq_waiters (sh c) = Z.of_nat (count_lo is_sleep N (lo c)) /\
  (bq_sleep (sh c) <> [] ->
     bq_closed (sh c) = false /\
     length (bq_queue (sh c)) <= count_lo is_sleep N (lo c) - length (bq_sleep (sh c))).
Proof.
  intros HN Hs. destruct (bq_ok_reachable _ _ _ HN Hs) as [Hw _ _ Ho]. split; [done|].
  intros Hne. destruct (Ho Hne). split; [done|lia].
Qed.

(** Two consumers go to sleep, one element is pushed, then the queue is closed. *)
Definition bq_demo : list (tid * bq_act nat) :=
  [(0, BqInvoke BPop); (1, BqInvoke BPop); (0, BqNotify 0); (1, BqNotify 0);
   (2, BqInvoke (BPush 5)); (2, BqNotify 1); (1, BqNotify 0); (1, BqNotify 0); (2, BqNotify 0);
   (2, BqInvoke BClose); (2, BqNotify 0); (0, BqNotify 0); (0, BqNotify 0)].

Lemma blocking_queue_linearizable_witness :
  exists tr, history tr = [(0, Inv BPop); (1, Inv BPop); (2, Inv (BPush 5)); (1, Ret (BNode (Some 5)));
                           (2, Ret BUnit); (2, Inv BClose); (0, Ret (BNode None))] /\
    linearizable bq_spec (history tr).
Proof.
  eexists. eassert (Hs : steps bq_tstep bq_init _ _).
  { apply (run_steps0 bq_tstep bq_demo). vm_compute. reflexivity. }
  split; [|exact (blocking_queue_linearizable _ _ Hs)]. reflexivity.
Defined.

Lemma blocking_queue_no_lost_wakeup_witness :
  exists tr (c : config (BQ nat) (bq_pc nat)), bsteps 3 tr c /\ bq_sleep (sh c) = [0] /\ bq_queue (sh c) = [5] /\
    length (bq_queue (sh c)) <= count_lo is_sleep 3 (lo c) - length (bq_sleep (sh c)).
Proof.
  do 2 eexists. eassert (Hs : bsteps 3 _ _).
  { apply (run_gsteps0 bq_tstep _ (take 6 bq_demo)); [simpl; lia|]. vm_compute. reflexivity. }
  split; [exact Hs|]. split; [reflexivity|]. split; [reflexivity|].
  apply (blocking_queue_no_lost_wakeup 3 _ _ ltac:(lia) Hs). done.
Defined.
