(* ===== verification/ComputePool.v ===== *)
(** The compute thread pool: src/src/exe/sched/tp/compute.

    [N] workers (threads [0 .. N-1]) pop tasks from the blocking queue of
    BlockingQueue.v and run them; a task may submit further tasks.  Any number
    of other threads submit tasks; one of them may stop the pool, which closes
    the queue and joins the workers.  The theorems: a submitted task is
    dropped if the queue is already closed, and is otherwise run exactly once;
    when [Stop] returns every accepted task has been run. *)

From S2P Require Import Prelude Conc ThreadSync BlockingQueue.

Abbreviation task := nat (only parsing).

Record Pool := mkPool {
  task_queue : BQ task;
  exited : list tid;       (** worker threads that have returned *)
}.

Inductive cp_pc :=
(** the worker lambda of [Start] *)
| CpWorker (p : bq_pc task)                (** at [task_queue_.Pop()] *)
| CpRun (x : task)                         (** in [Run()] of a task *)
| CpSubmit (x : task) (p : bq_pc task)     (** in [Submit], called by the task *)
| CpExited
(** clients *)
| CpClient (p : bq_pc task)                (** in [Submit] *)
| CpClose (p : bq_pc task)                 (** in [Stop], at [task_queue_.Close()] *)
| CpJoin (i : tid)                         (** in [Stop], at [thread.join()] of thread [i] *)
| CpStopped.

Inductive cp_act :=
| CpQueue (a : bq_act task)                (** a step of the queue *)
| CpCallSubmit (x : task)
| CpCallStop
| CpGo.

Inductive cp_ev :=
| Accepted (x : task) | Dropped (x : task) | Executed (x : task) | StopReturned.

(** What a queue step means for the pool. *)
Definition cp_events (q : BQ task) (es : list (event (bq_inv task) (bq_res task))) : list cp_ev :=
  omap (fun e => match e with
                 | Lin (BPush x) _ => Some (if bq_closed q then Dropped x else Accepted x)
                 | _ => None
                 end) es.

Definition cp_queue_step (t : tid) (a : bq_act task) (p : bq_pc task) (s : Pool)
  : option (bq_pc task * Pool * list cp_ev) :=
  match bq_tstep t a p (task_queue s) with
  | Some (p', q', es) => Some (p', mkPool q' (exited s), cp_events (task_queue s) es)
  | None => None
  end.

(** [ThreadPool::Submit]: [task_queue_.Push(task)]. *)
Definition cp_Submit (x : task) : bq_pc task := BqCall (BPush x).

(** The worker's loop body. *)
Definition cp_worker (t : tid) (a : cp_act) (p : bq_pc task) (s : Pool)
  : option (cp_pc * Pool * list cp_ev) :=
  match p, a with
  | BqIdle, CpGo => Some (CpWorker (BqCall BPop), s, [])
  | BqRet BPop (BNode None), CpGo => Some (CpExited, mkPool (task_queue s) (exited s ++ [t]), [])
  | BqRet BPop (BNode (Some x)), CpGo => Some (CpRun x, s, [])
  | (BqCall BPop | BqSleep), CpQueue a =>
      match cp_queue_step t a p s with
      | Some (p', s', es) => Some (CpWorker p', s', es)
      | None => None
      end
  | _, _ => None
  end.

(** [ThreadPool::Stop]: close, join the [N] threads in order, set [stopped_]. *)
Definition cp_Stop (N : nat) (t : tid) (a : cp_act) (pc : cp_pc) (s : Pool)
  : option (cp_pc * Pool * list cp_ev) :=
  match pc, a with
  | CpClose (BqRet _ _), CpGo => Some (CpJoin 0, s, [])
  | CpClose p, CpQueue a =>
      match p, cp_queue_step t a p s with
      | BqCall BClose, Some (p', s', es) => Some (CpClose p', s', es)
      | _, _ => None
      end
  | CpJoin i, CpGo =>
      if decide (i < N) then if decide (i ∈ exited s) then Some (CpJoin (S i), s, []) else None
      else Some (CpStopped, s, [StopReturned])
  | _, _ => None
  end.

Definition cp_tstep (N : nat) (t : tid) (a : cp_act) (pc : cp_pc) (s : Pool)
  : option (cp_pc * Pool * list cp_ev) :=
  match pc with
  | CpWorker p => cp_worker t a p s
  | CpRun x =>
      match a with
      | CpCallSubmit y => Some (CpSubmit x (cp_Submit y), s, [])
      | CpGo => Some (CpWorker BqIdle, s, [Executed x])
      | _ => None
      end
  | CpSubmit x p =>
      match p, a with
      | BqRet _ _, CpGo => Some (CpRun x, s, [])
      | BqCall (BPush _), CpQueue a =>
          match cp_queue_step t a p s with
          | Some (p', s', es) => Some (CpSubmit x p', s', es)
          | None => None
          end
      | _, _ => None
      end
  | CpClient p =>
      match p, a with
      | BqIdle, CpCallSubmit y => Some (CpClient (cp_Submit y), s, [])
      | BqIdle, CpCallStop => Some (CpClose (BqCall BClose), s, [])
      | BqRet _ _, CpGo => Some (CpClient BqIdle, s, [])
      | BqCall (BPush _), CpQueue a =>
          match cp_queue_step t a p s with
          | Some (p', s', es) => Some (CpClient p', s', es)
          | None => None
          end
      | _, _ => None
      end
  | CpClose _ | CpJoin _ => cp_Stop N t a pc s
  | CpExited | CpStopped => None
  end.

(** [Start]: the workers enter their loops. *)
Definition cp_Start (N : nat) : config Pool cp_pc :=
  Cfg (mkPool bq_empty []) (fun t => if decide (t < N) then CpWorker BqIdle else CpClient BqIdle).

(** ** The account of the tasks *)

Definition accepted (tr : list (tid * cp_ev)) : list task :=
  omap (fun p => match p.2 with Accepted x => Some x | _ => None end) tr.
Definition executed (tr : list (tid * cp_ev)) : list task :=
  omap (fun p => match p.2 with Executed x => Some x | _ => None end) tr.

(** The task a worker holds. *)
Definition hand (pc : cp_pc) : list task :=
  match pc with
  | CpWorker (BqRet BPop (BNode (Some x))) => [x]
  | CpRun x | CpSubmit x _ => [x]
  | _ => []
  end.

Definition is_worker (pc : cp_pc) : bool :=
  match pc with CpWorker _ | CpRun _ | CpSubmit _ _ | CpExited => true | _ => false end.

(** The worker has been told that the queue is closed and empty. *)
Definition told (pc : cp_pc) : bool :=
  match pc with CpWorker (BqRet BPop (BNode None)) | CpExited => true | _ => false end.

Record cp_inv (N : nat) (tr : list (tid * cp_ev)) (c : config Pool cp_pc) : Prop := {
  ci_tasks : accepted tr ≡ₚ bq_queue (task_queue (sh c)) ++ collect hand N (lo c) ++ executed tr;
  ci_worker t : is_worker (lo c t) = true <-> t < N;
  ci_told t : told (lo c t) = true ->
    bq_closed (task_queue (sh c)) = true /\ bq_queue (task_queue (sh c)) = [];
  ci_exited t : t ∈ exited (sh c) -> lo c t = CpExited;
  ci_join t i : lo c t = CpJoin i -> i <= N /\ forall j, j < i -> j ∈ exited (sh c);
  ci_stopped t : (t, StopReturned) ∈ tr -> forall j, j < N -> j ∈ exited (sh c);
}.

(** What a queue step does to the account: a closed queue stays closed, an
    empty closed queue stays empty. *)
Lemma cp_queue_account t a p s p' s' es :
  cp_queue_step t a p s = Some (p', s', es) ->
  (match p with BqIdle | BqRet _ _ => False | _ => True end) ->
  exists add got,
    omap (fun e => match e with Accepted x => Some x | _ => None end) es = add /\
    omap (fun e => match e with Executed x => Some x | _ => None end) es = [] /\
    StopReturned ∉ es /\ exited s' = exited s /\
    hand (CpWorker p') = got /\
    bq_queue (task_queue s) ++ add ≡ₚ got ++ bq_queue (task_queue s') /\
    (bq_closed (task_queue s) = true -> bq_closed (task_queue s') = true /\
       (bq_queue (task_queue s) = [] -> bq_queue (task_queue s') = [])) /\
    (told (CpWorker p') = true ->
       bq_closed (task_queue s') = true /\ bq_queue (task_queue s') = []) /\
    (match p' with BqRet BPop _ => match p with BqCall (BPush _) | BqCall BClose => False | _ => True end
     | _ => True end).
Proof.
  unfold cp_queue_step. destruct s as [q ex]. simpl.
  destruct (bq_tstep t a p q) as [[[p1 q1] es1]|] eqn:Hs; [|done]. intros [= -> <- <-] Hp.
  assert (Hwait : forall q0, bq_wait t q0 = (p', q1, es1) -> bq_queue q0 = bq_queue q ->
            bq_closed q0 = bq_closed q ->
            cp_events q es1 = [] /\ bq_queue q ≡ₚ hand (CpWorker p') ++ bq_queue q1 /\
            bq_closed q1 = bq_closed q /\ (bq_queue q = [] -> bq_queue q1 = []) /\
            (told (CpWorker p') = true -> bq_closed q1 = true /\ bq_queue q1 = []) /\
            (p' = BqSleep \/ exists r, p' = BqRet BPop r)).
  { intros q0 Hw Eq Ec. unfold bq_wait, bq_stop, bq_Pop_take in Hw. rewrite Eq, Ec in Hw.
    destruct (bq_queue q) as [|x xs] eqn:Exs; simpl in Hw.
    - destruct (bq_closed q) eqn:Ecl; simplify_eq/=; rewrite ?Eq, ?Ec, ?Exs; split_and!; try done; eauto.
    - simplify_eq/=. split_and!; try done; eauto. }
  destruct p as [|[x| |]| |i r]; try done; destruct a as [i0|u|]; simpl in Hs; try done.
  - case_decide; simplify_eq/=. unfold bq_Push. destruct (bq_closed q) eqn:Ec; simpl.
    + eexists [], []. rewrite Ec. split_and!; try done; [|by rewrite app_nil_r].
      by intros [?|?%elem_of_nil]%elem_of_cons.
    + eexists [x], []. split_and!; try done. by intros [?|?%elem_of_nil]%elem_of_cons.
  - simplify_eq. destruct (Hwait _ Hs) as (-> & Hq & Hc & He & Ht & Hor); [done..|].
    eexists [], _. split_and!; try done.
    + by intros ?%elem_of_nil.
    + by rewrite app_nil_r.
    + intros Hx. simpl. rewrite Hc. eauto.
    + destruct Hor as [->|[r ->]]; done.
  - simplify_eq/=. eexists [], []. split_and!; try done; [by intros ?%elem_of_nil|by rewrite app_nil_r].
  - case_decide; simplify_eq. destruct (Hwait _ Hs) as (-> & Hq & Hc & He & Ht & Hor); [done..|].
    eexists [], _. split_and!; try done.
    + by intros ?%elem_of_nil.
    + by rewrite app_nil_r.
    + intros Hx. simpl. rewrite Hc. eauto.
    + destruct Hor as [->|[r ->]]; done.
  - simplify_eq/=. eexists [], []. split_and!; try done; [by intros ?%elem_of_nil|by rewrite app_nil_r].
Qed.

Definition acc_of (es : list cp_ev) : list task :=
  omap (fun e => match e with Accepted x => Some x | _ => None end) es.
Definition exe_of (es : list cp_ev) : list task :=
  omap (fun e => match e with Executed x => Some x | _ => None end) es.

Lemma accepted_app tr t es : accepted (tr ++ map (pair t) es) = accepted tr ++ acc_of es.
Proof.
  unfold accepted, acc_of. rewrite omap_app. f_equal.
  induction es as [|[] es IH]; [done|..]; simpl; first [exact IH | f_equal; exact IH].
Qed.

Lemma executed_app tr t es : executed (tr ++ map (pair t) es) = executed tr ++ exe_of es.
Proof.
  unfold executed, exe_of. rewrite omap_app. f_equal.
  induction es as [|[] es IH]; [done|..]; simpl; first [exact IH | f_equal; exact IH].
Qed.

Lemma hand_worker pc : is_worker pc = false -> hand pc = [].
Proof. by destruct pc. Qed.

(** One thread moves: what has to be checked. *)
Lemma cp_inv_upd N tr c t pc' s' es :
  cp_inv N tr c -> is_worker pc' = is_worker (lo c t) ->
  bq_queue (task_queue (sh c)) ++ acc_of es ++ hand (lo c t)
    ≡ₚ bq_queue (task_queue s') ++ hand pc' ++ exe_of es ->
  (bq_closed (task_queue (sh c)) = true -> bq_closed (task_queue s') = true /\
     (bq_queue (task_queue (sh c)) = [] -> bq_queue (task_queue s') = [])) ->
  (told pc' = true -> bq_closed (task_queue s') = true /\ bq_queue (task_queue s') = []) ->
  (exited s' = exited (sh c) /\ lo c t <> CpExited \/ exited s' = exited (sh c) ++ [t] /\ pc' = CpExited) ->
  (forall i, pc' = CpJoin i -> i <= N /\ forall j, j < i -> j ∈ exited s') ->
  (StopReturned ∈ es -> forall j, j < N -> j ∈ exited s') ->
  cp_inv N (tr ++ map (pair t) es) (Cfg s' (<[t := pc']> (lo c))).
Proof.
  intros [Htasks Hwk Htold Hex Hjoin Hstop] Hw Hacc Hcl Htl Hexd Hj Hst.
  assert (Hmono : forall u, u ∈ exited (sh c) -> u ∈ exited s').
  { intros u Hu. destruct Hexd as [[-> _]|[-> _]]; [done|]. apply elem_of_app. by left. }
  assert (Hlo : forall u, (<[t := pc']> (lo c)) u = if decide (u = t) then pc' else lo c u).
  { intros u. apply WaitGroup.fn_insert_if. }
  constructor; simpl.
  - rewrite accepted_app, executed_app.
    assert (Hcol : collect hand N (<[t := pc']> (lo c)) ++ hand (lo c t) ≡ₚ collect hand N (lo c) ++ hand pc').
    { destruct (decide (t < N)) as [Ht|Ht]; [by apply collect_insert|].
      rewrite collect_insert_ge by lia.
      assert (is_worker (lo c t) = false).
      { destruct (is_worker (lo c t)) eqn:E; [|done]. apply Hwk in E. lia. }
      by rewrite !hand_worker by congruence. }
    apply (Permutation_app_inv_r (hand (lo c t))).
    transitivity (accepted tr ++ acc_of es ++ hand (lo c t)); [solve_Permutation|].
    rewrite Htasks.
    transitivity ((bq_queue (task_queue (sh c)) ++ acc_of es ++ hand (lo c t)) ++
                  collect hand N (lo c) ++ executed tr); [solve_Permutation|].
    rewrite Hacc.
    transitivity (bq_queue (task_queue s') ++ (collect hand N (lo c) ++ hand pc') ++
                  executed tr ++ exe_of es); [solve_Permutation|].
    rewrite <- Hcol. solve_Permutation.
  - intros u. rewrite Hlo. case_decide as E; [subst; rewrite Hw|]; apply Hwk.
  - intros u. rewrite Hlo. case_decide as E; [auto|]. intros Hu. destruct (Htold u Hu) as [H1 H2].
    destruct (Hcl H1). auto.
  - intros u Hu. rewrite Hlo. destruct Hexd as [[He Hne]|[He ->]]; rewrite He in Hu.
    + case_decide as E; [|auto]. subst. by destruct Hne; apply Hex.
    + case_decide as E; [done|]. apply elem_of_app in Hu as [Hu|Hu]; [auto|].
      by apply list_elem_of_singleton in Hu.
  - intros u i. rewrite Hlo. case_decide as E; [auto|]. intros Hu. destruct (Hjoin u i Hu). split; [done|auto].
  - intros u Hu j Hjn. apply elem_of_app in Hu as [Hu|Hu]; [by eapply Hmono, Hstop|].
    apply list_elem_of_fmap in Hu as (e & [= -> <-] & Hin). auto.
Qed.

Lemma cp_inv_local N tr c t pc' es :
  cp_inv N tr c -> is_worker pc' = is_worker (lo c t) ->
  hand (lo c t) ≡ₚ hand pc' ++ exe_of es -> acc_of es = [] ->
  (told pc' = true -> told (lo c t) = true) -> lo c t <> CpExited ->
  (forall i, pc' = CpJoin i -> i <= N /\ forall j, j < i -> j ∈ exited (sh c)) ->
  (StopReturned ∈ es -> forall j, j < N -> j ∈ exited (sh c)) ->
  cp_inv N (tr ++ map (pair t) es) (Cfg (sh c) (<[t := pc']> (lo c))).
Proof.
  intros Hi ? Hh Ha Ht ? ? ?. apply cp_inv_upd; try done.
  - rewrite Ha. simpl. by rewrite Hh.
  - intros Htl. eapply ci_told; [done|]. by apply Ht.
  - by left.
Qed.

(** A queue step, seen from the pool: the worker's [Pop], a [Submit], the [Close]. *)
Lemma cp_inv_queue N tr c t a p s' p' es pc' :
  cp_inv N tr c -> cp_queue_step t a p (sh c) = Some (p', s', es) ->
  (match p with BqIdle | BqRet _ _ => False | _ => True end) ->
  is_worker pc' = is_worker (lo c t) -> lo c t <> CpExited -> (forall i, pc' <> CpJoin i) ->
  hand pc' ≡ₚ hand (lo c t) ++ hand (CpWorker p') ->
  (told pc' = true -> told (CpWorker p') = true) ->
  cp_inv N (tr ++ map (pair t) es) (Cfg s' (<[t := pc']> (lo c))).
Proof.
  intros Hi Hq Hp Hw Hne Hj Hh Ht.
  destruct (cp_queue_account _ _ _ _ _ _ _ Hq Hp)
    as (add & got & Hadd & Hexe & Hns & Hex & Hgot & Hperm & Hcl & Htl & _).
  apply cp_inv_upd; try done.
  - fold (acc_of es) in Hadd. fold (exe_of es) in Hexe. rewrite Hadd, Hexe, app_nil_r, Hh, Hgot.
    rewrite app_assoc, Hperm. solve_Permutation.
  - auto.
  - by left.
  - intros i E. by destruct (Hj i).
Qed.

Ltac cp_local Ep :=
  apply cp_inv_local; rewrite ?Ep; try done; try (by intros ?%elem_of_nil).

Lemma cp_inv_step N tr c t a c' es :
  cp_inv N tr c -> cstep (cp_tstep N) t a c = Some (c', es) -> cp_inv N (tr ++ map (pair t) es) c'.
Proof.
  intros Hi (pc' & s' & Hs & ->)%cstep_inv.
  destruct (lo c t) as [p|x|x p| |p|p|i|] eqn:Ep; simpl in Hs; try done.
  - destruct p as [|[y| |]| |[y| |] [|[x|]]]; destruct a; simpl in Hs; try done.
    + simplify_eq. cp_local Ep.
    + destruct (cp_queue_step t a (BqCall BPop) (sh c)) as [[[p' s1] es1]|] eqn:Eq; simplify_eq.
      eapply cp_inv_queue; rewrite ?Ep; try done; by rewrite ?app_nil_l.
    + destruct (cp_queue_step t a BqSleep (sh c)) as [[[p' s1] es1]|] eqn:Eq; simplify_eq.
      eapply cp_inv_queue; rewrite ?Ep; try done; by rewrite ?app_nil_l.
    + simplify_eq. cp_local Ep.
    + simplify_eq. apply cp_inv_upd; rewrite ?Ep; try done; try (by intros ?%elem_of_nil).
      * intros _. eapply (ci_told _ _ _ Hi t). by rewrite Ep.
      * by right.
  - destruct a; try done; simplify_eq.
    + cp_local Ep.
    + cp_local Ep. by intros [?|?%elem_of_nil]%elem_of_cons.
  - destruct p as [|[y| |]| |i r]; destruct a; simpl in Hs; try done.
    + destruct (cp_queue_step t a (BqCall (BPush y)) (sh c)) as [[[p' s1] es1]|] eqn:Eq; simplify_eq.
      destruct (cp_queue_account _ _ _ _ _ _ _ Eq I) as (_ & _ & _ & _ & _ & _ & _ & _ & _ & _ & Hp').
      eapply cp_inv_queue; rewrite ?Ep; try done. simpl.
      destruct p' as [| | |[] [|[]]]; done.
    + simplify_eq. cp_local Ep.
  - destruct p as [|[y| |]| |i r]; destruct a; simpl in Hs; try done; simplify_eq.
    + cp_local Ep.
    + cp_local Ep.
    + destruct (cp_queue_step t a (BqCall (BPush y)) (sh c)) as [[[p' s1] es1]|] eqn:Eq; simplify_eq.
      destruct (cp_queue_account _ _ _ _ _ _ _ Eq I) as (_ & _ & _ & _ & _ & _ & _ & _ & _ & _ & Hp').
      eapply cp_inv_queue; rewrite ?Ep; try done. simpl. destruct p' as [| | |[] [|[]]]; done.
    + cp_local Ep.
  - destruct p as [|[y| |]| |i r]; destruct a; simpl in Hs; try done; simplify_eq.
    + destruct (cp_queue_step t a (BqCall BClose) (sh c)) as [[[p' s1] es1]|] eqn:Eq; simplify_eq.
      destruct (cp_queue_account _ _ _ _ _ _ _ Eq I) as (_ & _ & _ & _ & _ & _ & _ & _ & _ & _ & Hp').
      eapply cp_inv_queue; rewrite ?Ep; try done. simpl. destruct p' as [| | |[] [|[]]]; done.
    + cp_local Ep. intros i' [= <-]. split; [lia|]. lia.
  - destruct a; try done. destruct (ci_join _ _ _ Hi t i Ep) as [HiN Hjs].
    repeat case_decide; simplify_eq.
    + cp_local Ep. intros i' [= <-]. split; [lia|].
      intros j Hj. destruct (decide (j = i)) as [->|]; [done|]. apply Hjs. lia.
    + cp_local Ep. intros _ j Hj. apply Hjs. lia.
Qed.

Lemma cp_inv_reachable N tr c : steps (cp_tstep N) (cp_Start N) tr c -> cp_inv N tr c.
Proof.
  induction 1 as [|tr c t a c' es _ IH Hc]; [|by eapply cp_inv_step].
  constructor; simpl; try done.
  - rewrite collect_nil; [done|]. intros t Ht. by case_decide.
  - intros t. case_decide; simpl; split; done || lia.
  - intros t. by case_decide.
  - intros t Ht. by apply elem_of_nil in Ht.
  - intros t i. by case_decide.
  - intros t Ht. by apply elem_of_nil in Ht.
Qed.

(** C27: The compute pool runs every accepted task exactly once and loses none:
    in every reachable state, the tasks accepted so far are exactly the tasks
    already run, the ones workers hold and the ones still queued (each with
    its multiplicity). *)
Theorem compute_pool_exactly_once N tr c :
  steps (cp_tstep N) (cp_Start N) tr c ->
  accepted tr ≡ₚ executed tr ++ collect hand N (lo c) ++ bq_queue (task_queue (sh c)).
Proof. intros Hs. rewrite (ci_tasks _ _ _ (cp_inv_reachable _ _ _ Hs)). solve_Permutation. Qed.

(** C26: [Stop] drains the pool: if the pool has at least one worker, then once
    [Stop] has returned every task that was accepted has been run, also the
    ones that running tasks submitted, and the queue is empty. *)
Theorem compute_pool_stop_drains N tr c t :
  0 < N -> steps (cp_tstep N) (cp_Start N) tr c -> (t, StopReturned) ∈ tr ->
  executed tr ≡ₚ accepted tr /\ bq_queue (task_queue (sh c)) = [].
Proof.
  intros HN Hs Hin. pose proof (cp_inv_reachable _ _ _ Hs) as Hi.
  pose proof (ci_stopped _ _ _ Hi t Hin) as Hall.
  assert (Hlo : forall j, j < N -> lo c j = CpExited) by (intros j Hj; eapply ci_exited; eauto).
  assert (Hq : bq_queue (task_queue (sh c)) = []).
  { eapply (ci_told _ _ _ Hi 0). by rewrite Hlo. }
  split; [|done]. rewrite (ci_tasks _ _ _ Hi), Hq, collect_nil; [done|].
  intros j Hj. by rewrite Hlo.
Qed.

(** One worker, thread 0; thread 1 submits task 7, which submits task 9 when it
    runs, and stops the pool. *)
Definition cp_demo : list (tid * cp_act) :=
  let q := CpQueue (BqNotify 0) in
  [(0, CpGo); (0, q); (1, CpCallSubmit 7); (1, q); (1, CpGo); (0, q); (0, CpGo);
   (0, CpCallSubmit 9); (0, q); (0, CpGo); (1, CpCallStop); (0, CpGo); (1, q); (1, CpGo);
   (0, CpGo); (0, q); (0, CpGo); (0, CpGo); (0, CpGo); (0, q); (0, CpGo); (1, CpGo); (1, CpGo)].

Lemma compute_pool_exactly_once_witness :
  exists tr c, steps (cp_tstep 1) (cp_Start 1) tr c /\ executed tr = [7; 9] /\
    accepted tr ≡ₚ executed tr ++ collect hand 1 (lo c) ++ bq_queue (task_queue (sh c)).
Proof.
  do 2 eexists. eassert (Hs : steps (cp_tstep 1) (cp_Start 1) _ _).
  { apply (run_steps0 (cp_tstep 1) cp_demo). vm_compute. reflexivity. }
  split; [exact Hs|]. split; [reflexivity|]. exact (compute_pool_exactly_once 1 _ _ Hs).
Defined.

Lemma compute_pool_stop_drains_witness :
  exists tr c, steps (cp_tstep 1) (cp_Start 1) tr c /\ (1, StopReturned) ∈ tr /\
    executed tr ≡ₚ accepted tr /\ bq_queue (task_queue (sh c)) = [].
Proof.
  do 2 eexists. eassert (Hs : steps (cp_tstep 1) (cp_Start 1) _ _).
  { apply (run_steps0 (cp_tstep 1) cp_demo). vm_compute. reflexivity. }
  split; [exact Hs|].
  match type of Hs with steps _ _ ?tr _ =>
    assert (Hin : (1, StopReturned) ∈ tr) by (apply list_elem_of_In; vm_compute; tauto) end.
  split; [exact Hin|]. apply (compute_pool_stop_drains 1 _ _ 1); [lia|exact Hs|exact Hin].
Defined.
