(* ===== verification/Task.v ===== *)
(** Tasks and the single-threaded scheduler: src/src/exe/sched/task and
    src/src/exe/sched/run_loop.{hpp,cpp}.

    A task is a program that submits further tasks when it runs; [RunLoop]
    keeps submitted tasks in a queue and runs them on the calling thread. *)

From S2P Require Import Prelude.

(** sched/task/hint.hpp *)
Inductive SchedulerHint := UpToYou | Next | Yield.

(** ** RunLoop

    [tasks t] is what task [t] submits to the loop when it runs, in order (a
    task ends after finitely many calls). The state is [task_queue_] and the
    tasks run so far. *)
Section run_loop.
Context (tasks : nat -> list (nat * SchedulerHint)).

Record RunLoop := mkRunLoop { task_queue : list nat; ran : list nat }.

Definition RunLoop_IsEmpty (l : RunLoop) : bool := bool_decide (task_queue l = []).
Definition RunLoop_NonEmpty (l : RunLoop) : bool := negb (RunLoop_IsEmpty l).

Definition RunLoop_Submit (l : RunLoop) (t : nat) (_ : SchedulerHint) : RunLoop :=
  mkRunLoop (task_queue l ++ [t]) (ran l).

(** [task_queue_.PopFront()->Run()] *)
Definition run_front (l : RunLoop) : RunLoop :=
  match task_queue l with
  | [] => l
  | t :: q =>
      fold_left (fun l c => RunLoop_Submit l c.1 c.2) (tasks t) (mkRunLoop q (ran l ++ [t]))
  end.

Fixpoint RunLoop_RunAtMost (limit : nat) (l : RunLoop) : nat * RunLoop :=
  match limit with
  | 0 => (0, l)
  | S limit =>
      if RunLoop_NonEmpty l then
        let '(runs, l') := RunLoop_RunAtMost limit (run_front l) in (S runs, l')
      else (0, l)
  end.

Definition RunLoop_RunNext (l : RunLoop) : bool * RunLoop :=
  let '(runs, l') := RunLoop_RunAtMost 1 l in (bool_decide (runs = 1), l').

(** [Run] loops until the queue is empty: [None] when the fuel is used up. *)
Fixpoint RunLoop_Run (fuel : nat) (l : RunLoop) : option (nat * RunLoop) :=
  if RunLoop_NonEmpty l then
    match fuel with
    | 0 => None
    | S fuel =>
        match RunLoop_Run fuel (run_front l) with
        | Some (runs, l') => Some (S runs, l')
        | None => None
        end
    end
  else Some (0, l).

Lemma submit_fold cs l :
  fold_left (fun l c => RunLoop_Submit l c.1 c.2) cs l =
  mkRunLoop (task_queue l ++ map fst cs) (ran l).
Proof.
  revert l. induction cs as [|c cs IH]; intros [q r]; simpl; [by rewrite app_nil_r|].
  rewrite IH. simpl. by rewrite <- app_assoc.
Qed.

Lemma run_front_cons t q r :
  run_front (mkRunLoop (t :: q) r) = mkRunLoop (q ++ map fst (tasks t)) (r ++ [t]).
Proof. unfold run_front. simpl. by rewrite submit_fold. Qed.

(** The specification: breadth-first execution. A task list grows at its end
    by what its head submits; [n] steps run its first [n] elements. *)
Definition step_spec (q : list nat) : list nat :=
  match q with [] => [] | t :: q => q ++ map fst (tasks t) end.

Lemma run_at_most_spec limit l runs l' :
  RunLoop_RunAtMost limit l = (runs, l') ->
  runs <= limit /\ (runs < limit -> task_queue l' = []) /\
  task_queue l' = Nat.iter runs step_spec (task_queue l) /\
  length (ran l') = length (ran l) + runs /\
  exists fresh, ran l' = ran l ++ fresh /\
    task_queue l ++ (fresh ≫= fun t => map fst (tasks t)) = fresh ++ task_queue l'.
Proof.
  revert l runs l'. induction limit as [|limit IH]; intros [q r] runs l' Hr; simpl in Hr.
  { simplify_eq/=. repeat split; [lia|lia|lia|]. exists []. by rewrite !app_nil_r. }
  destruct q as [|t q]; simpl in Hr.
  { simplify_eq/=. repeat split; [lia|lia|]. exists []. by rewrite !app_nil_r. }
  rewrite run_front_cons in Hr.
  destruct (RunLoop_RunAtMost limit _) as [runs1 l1] eqn:E. simplify_eq.
  destruct (IH _ _ _ E) as (Hle & Hlt & Hq & Hl & fresh & Hran & Hbfs). simpl in *.
  repeat split; [lia|intros; apply Hlt; lia| | |].
  - rewrite Hq. symmetry. exact (Nat.iter_succ_r runs1 _ step_spec (t :: q)).
  - rewrite Hl, length_app. simpl. lia.
  - exists (t :: fresh). rewrite Hran, <- app_assoc. split; [done|].
    simpl. rewrite <- Hbfs. by rewrite !app_assoc.
Qed.

Lemma run_run_at_most fuel l runs l' :
  RunLoop_Run fuel l = Some (runs, l') -> RunLoop_RunAtMost fuel l = (runs, l') /\ task_queue l' = [].
Proof.
  revert l runs l'. induction fuel as [|fuel IH]; intros l runs l' Hr; simpl in *.
  - unfold RunLoop_NonEmpty, RunLoop_IsEmpty in Hr. case_bool_decide; simplify_eq/=. done.
  - unfold RunLoop_NonEmpty, RunLoop_IsEmpty in *. case_bool_decide; simplify_eq/=; [done|].
    destruct (RunLoop_Run fuel (run_front l)) as [[runs1 l1]|] eqn:E; simplify_eq.
    destruct (IH _ _ _ E) as [-> ?]. done.
Qed.

(** The number of tasks a finite task tree holds. *)
Definition sum_list (w : nat -> nat) (q : list nat) : nat := foldr (fun t n => w t + n) 0 q.

Lemma sum_list_app w q q' : sum_list w (q ++ q') = sum_list w q + sum_list w q'.
Proof. induction q as [|t q IH]; simpl; [done|]. unfold sum_list in *. lia. Qed.

Lemma run_terminates w fuel l :
  (forall t, w t = S (sum_list w (map fst (tasks t)))) -> sum_list w (task_queue l) <= fuel ->
  exists l', RunLoop_Run fuel l = Some (sum_list w (task_queue l), l').
Proof.
  intros Hw. revert l. induction fuel as [|fuel IH]; intros [[|t q] r] Hf;
    cbn [RunLoop_Run RunLoop_NonEmpty RunLoop_IsEmpty task_queue negb sum_list foldr] in *.
  - eauto.
  - specialize (Hw t). lia.
  - eauto.
  - change (RunLoop_NonEmpty (mkRunLoop (t :: q) r)) with true. cbv iota.
    rewrite run_front_cons. fold (sum_list w q) in *.
    destruct (IH (mkRunLoop (q ++ map fst (tasks t)) (r ++ [t]))) as [l' Hl'].
    { cbn [task_queue]. rewrite sum_list_app. specialize (Hw t). lia. }
    rewrite Hl'. cbn [task_queue]. exists l'. f_equal. f_equal. rewrite sum_list_app. specialize (Hw t). lia.
Qed.
End run_loop.

(** [RunAtMost] runs tasks in submission order: it runs at most [limit]
    tasks, fewer only when the queue runs empty, counts them, and the tasks run
    followed by the tasks left are the old queue followed by what the run tasks
    submitted, in the order of submission. *)
Theorem run_loop_fifo tasks limit l runs l' :
  RunLoop_RunAtMost tasks limit l = (runs, l') ->
  runs <= limit /\ (runs < limit -> task_queue l' = []) /\
  exists fresh, ran l' = ran l ++ fresh /\ length fresh = runs /\
    fresh ++ task_queue l' = task_queue l ++ (fresh ≫= fun t => map fst (tasks t)).
Proof.
  intros (? & ? & ? & Hl & fresh & Hr & Hf)%run_at_most_spec. repeat split; [done..|].
  exists fresh. repeat split; [done| |done]. rewrite Hr, length_app in Hl. lia.
Qed.

(** [Run] terminates when the tasks form finite trees ([w t] counts the
    tasks of the tree below [t]): it runs every queued task and everything these
    submit, returns their number, and leaves the queue empty. *)
Theorem run_loop_run_terminates tasks w l :
  (forall t, w t = S (sum_list w (map fst (tasks t)))) ->
  exists l', RunLoop_Run tasks (sum_list w (task_queue l)) l = Some (sum_list w (task_queue l), l') /\
    task_queue l' = [] /\ length (ran l') = length (ran l) + sum_list w (task_queue l).
Proof.
  intros Hw. destruct (run_terminates tasks w _ l Hw (le_n _)) as [l' Hl']. exists l'. split; [done|].
  destruct (run_run_at_most _ _ _ _ _ Hl') as [Ha Hq]. split; [done|].
  by destruct (run_at_most_spec _ _ _ _ _ Ha) as (_ & _ & _ & ? & _).
Qed.

(** Task 0 submits 1 and 2, task 1 submits 3. *)
Definition rl_tasks (t : nat) : list (nat * SchedulerHint) :=
  match t with 0 => [(1, UpToYou); (2, Yield)] | 1 => [(3, Next)] | _ => [] end.

Lemma run_loop_fifo_witness :
  exists runs l', RunLoop_RunAtMost rl_tasks 3 (mkRunLoop [0; 5] []) = (runs, l') /\ ran l' = [0; 5; 1] /\
  runs <= 3 /\ (runs < 3 -> task_queue l' = []) /\
  exists fresh, ran l' = [] ++ fresh /\ length fresh = runs /\
    fresh ++ task_queue l' = [0; 5] ++ (fresh ≫= fun t => map fst (rl_tasks t)).
Proof.
  do 2 eexists. eassert (Hr : RunLoop_RunAtMost rl_tasks 3 (mkRunLoop [0; 5] []) = _) by (vm_compute; reflexivity).
  split; [exact Hr|]. split; [reflexivity|]. exact (run_loop_fifo rl_tasks 3 (mkRunLoop [0; 5] []) _ _ Hr).
Defined.

Lemma run_loop_run_terminates_witness :
  exists l', RunLoop_Run rl_tasks 5 (mkRunLoop [0; 5] []) = Some (5, l') /\
    task_queue l' = [] /\ length (ran l') = 5.
Proof.
  apply (run_loop_run_terminates rl_tasks (fun t => match t with 0 => 4 | 1 => 2 | _ => 1 end) (mkRunLoop [0; 5] [])).
  intros [|[|t]]; reflexivity.
Defined.
