(* ===== verification/FastPool.v ===== *)
(** The work-stealing thread pool: src/src/exe/sched/tp/fast (worker.cpp,
    thread_pool.cpp).

    The methods of [Worker] and [ThreadPool] are programs over the atomic
    operations of the pool ([fp_op]), written in the order of the source; the
    machine runs one operation of one thread at a time.  The local queues and
    the global queue appear as the sequential objects they are linearizable to
    (WorkStealingQueue.v, GlobalQueue.v): [Grab] may return any prefix that
    fits, [SizeEstimate] any number that is not too small.

    A small program logic ([wp]) tracks the tasks a thread holds and an upper
    bound on the length of its own local queue.  It gives: no task is lost or
    run twice, whatever the threads do, and [TryStealTasks] never reaches its
    [abort].  A run of the machine shows that [Stop] can lose tasks. *)

From S2P Require Import Prelude Conc Task.

Abbreviation task := nat (only parsing).
Abbreviation worker_id := nat (only parsing).

(** ** Operations *)

Inductive fp_op : Type -> Type :=
(** [global_tasks_] *)
| GlobalPushOne (t : task) : fp_op unit
| GlobalPushMany (ts : list task) : fp_op unit
| GlobalTryPopOne : fp_op (option task)
(** [local_tasks_] of the calling worker, or of a victim *)
| LocalTryPush (t : task) : fp_op bool
| LocalTryPop : fp_op (option task)
| LocalGrab (w : worker_id) (n : nat) : fp_op (list task)
| LocalSize (w : worker_id) : fp_op nat
(** fields of the calling worker *)
| SwapLifo (t : option task) : fp_op (option task)
| IncIter : fp_op nat
| ShuffleOrder : fp_op (list worker_id)
(** parking *)
| AddSpinning (d : Z) : fp_op unit
| LoadSpinning : fp_op Z
| AddParked (d : Z) : fp_op Z
| LoadParked : fp_op Z
| LoadWakeups : fp_op Z
| AddWakeups (w : worker_id) : fp_op unit
| AwaitWakeups (old : Z) : fp_op unit
| PushWaiterOp (w : worker_id) : fp_op unit
| PopWaiterOp : fp_op (option worker_id)
(** stopping *)
| StoreReady : fp_op unit
| LoadReady : fp_op bool
| StoreStopped : fp_op unit
| LoadStopped : fp_op bool
| AwaitStopped : fp_op unit
| StoreWorkerStop (w : worker_id) : fp_op unit
| LoadWorkerStop : fp_op bool
| JoinThread (w : worker_id) : fp_op unit
(** the user's code *)
| Execute (t : task) : fp_op unit
| Spawn (t : task) : fp_op unit
| Abort : fp_op unit.

Inductive fp_prog (A : Type) : Type :=
| Ret (a : A)
| Step {B : Type} (o : fp_op B) (k : B -> fp_prog A).
Arguments Ret {A} _.
Arguments Step {A B} _ _.

Fixpoint fp_bind {A B} (p : fp_prog A) (f : A -> fp_prog B) : fp_prog B :=
  match p with
  | Ret a => f a
  | Step o k => Step o (fun r => fp_bind (k r) f)
  end.

Definition do {B} (o : fp_op B) : fp_prog B := Step o Ret.

Declare Scope prog_scope.
Delimit Scope prog_scope with prog.
Notation "x <~ p ;> q" := (fp_bind p (fun x => q))
  (at level 100, p at next level, q at level 200, right associativity) : prog_scope.
Notation "p ;> q" := (fp_bind p (fun _ => q))
  (at level 100, q at level 200, right associativity) : prog_scope.
Local Open Scope prog_scope.

Section pool.
(** [kLocalQueueCapacity], [threads_], and what the tasks submit. *)
Context (cap threads : nat) (children : task -> list (task * SchedulerHint)).

(** ** Worker *)

(** [task_buffer[0 .. n_grab]] holds the grabbed tasks and the overflowed one. *)
Definition OffloadTasksToGlobalQueue (me : worker_id) (overflowed_task : task) : fp_prog unit :=
  grabbed <~ do (LocalGrab me (cap / 2)) ;>
  do (GlobalPushMany (grabbed ++ [overflowed_task])).

Definition Worker_push_local (me : worker_id) (t : task) : fp_prog unit :=
  ok <~ do (LocalTryPush t) ;>
  if ok : bool then Ret tt else OffloadTasksToGlobalQueue me t.

Definition Worker_Push (me : worker_id) (t : task) (hint : SchedulerHint) : fp_prog unit :=
  match hint with
  | Yield => do (GlobalPushOne t)
  | Next =>
      old <~ do (SwapLifo (Some t)) ;>
      match old with
      | None => Ret tt
      | Some t' => Worker_push_local me t'
      end
  | UpToYou => Worker_push_local me t
  end.

Definition StealTasks (victim : worker_id) (out_size : nat) : fp_prog (list task) :=
  n <~ do (LocalSize victim) ;>
  let n_grab := Nat.min ((n + 1) / 2) out_size in
  if decide (n_grab = 0) then Ret [] else do (LocalGrab victim n_grab).

(** The loop that keeps all stolen tasks but the last. *)
Fixpoint push_stolen (ts : list task) : fp_prog unit :=
  match ts with
  | [] => Ret tt
  | t :: ts =>
      ok <~ do (LocalTryPush t) ;>
      if ok : bool then push_stolen ts else do Abort
  end.

Definition try_steal_from (victim : worker_id) : fp_prog (option task) :=
  stolen <~ StealTasks victim (cap / 2) ;>
  match List.rev stolen with
  | [] => Ret None
  | last :: front => push_stolen (List.rev front) ;> Ret (Some last)
  end.

Fixpoint steal_loop (me : worker_id) (order : list worker_id) : fp_prog (option task) :=
  match order with
  | [] => Ret None
  | victim :: order =>
      t <~ try_steal_from (if decide (victim = me) then threads - 1 else victim) ;>
      match t with
      | Some t => Ret (Some t)
      | None => steal_loop me order
      end
  end.

Definition TryStealTasks (me : worker_id) : fp_prog (option task) :=
  if decide (threads <= 1) then Ret None
  else order <~ do ShuffleOrder ;> steal_loop me order.

Definition TryPickTaskFromGlobalQueue : fp_prog (option task) := do GlobalTryPopOne.
Definition TryPickTaskFromLifoSlot : fp_prog (option task) := do (SwapLifo None).
Definition TryPickTaskFromLocalQueue : fp_prog (option task) := do LocalTryPop.

(** [auto task = p; if (task != nullptr) return task; q] *)
Definition or_else (p q : fp_prog (option task)) : fp_prog (option task) :=
  t <~ p ;> match t with Some t => Ret (Some t) | None => q end.

Definition TryPickTask (iter : nat) : fp_prog (option task) :=
  let poll := or_else TryPickTaskFromLifoSlot
                (or_else TryPickTaskFromLocalQueue TryPickTaskFromGlobalQueue) in
  if decide (iter mod 61 = 0) then or_else TryPickTaskFromGlobalQueue poll else poll.

(** [Wake]: bump [wakeups_], then wake the worker parked on it. *)
Definition Worker_Wake (w : worker_id) : fp_prog unit := do (AddWakeups w).
Definition Worker_StoppingWake (w : worker_id) : fp_prog unit :=
  do (StoreWorkerStop w) ;> Worker_Wake w.

(** ** ThreadPool *)

Definition PushWaiter (w : worker_id) : fp_prog unit := do (PushWaiterOp w).
Definition PopWaiter : fp_prog (option worker_id) := do PopWaiterOp.

Definition wake_waiter : fp_prog unit :=
  w <~ PopWaiter ;> match w with Some w => Worker_Wake w | None => Ret tt end.

Definition TryWakeOneWorker : fp_prog unit := wake_waiter ;> wake_waiter ;> wake_waiter.

(** [Submit]; [me] is the worker that calls, [None] for a foreign thread.  The
    deferred wake-up runs on both exits. *)
Definition ThreadPool_Submit (me : option worker_id) (t : task) (hint : SchedulerHint) : fp_prog unit :=
  match me with None => do (GlobalPushOne t) | Some w => Worker_Push w t hint end ;>
  n <~ do LoadSpinning ;>
  if decide (n = 0%Z) then wake_waiter else Ret tt.

Definition SignalStop : fp_prog unit :=
  r <~ do LoadReady ;> if r : bool then do StoreStopped else Ret tt.

Fixpoint for_workers (f : worker_id -> fp_prog unit) (ws : list worker_id) : fp_prog unit :=
  match ws with [] => Ret tt | w :: ws => f w ;> for_workers f ws end.

Definition ThreadPool_Stop : fp_prog unit :=
  do StoreReady ;>
  n <~ do LoadParked ;>
  (if decide (n <> Z.of_nat threads) then do AwaitStopped else do StoreStopped) ;>
  for_workers Worker_StoppingWake (seq 0 threads) ;>
  for_workers (fun w => do (JoinThread w)) (seq 0 threads).

(** ** The worker's loop *)

Definition TryPickTaskBeforePark (me : worker_id) (iter : nat) : fp_prog (option task) :=
  do (AddSpinning 1) ;>
  t <~ TryStealTasks me ;>
  match t with
  | Some t => do (AddSpinning (-1)) ;> TryWakeOneWorker ;> Ret (Some t)
  | None =>
      old_wakeups <~ do LoadWakeups ;>
      PushWaiter me ;>
      do (AddSpinning (-1)) ;>
      t <~ TryPickTaskFromGlobalQueue ;>
      match t with
      | Some t => TryWakeOneWorker ;> TryWakeOneWorker ;> Ret (Some t)
      | None =>
          t <~ TryStealTasks me ;>
          match t with
          | Some t => TryWakeOneWorker ;> TryWakeOneWorker ;> Ret (Some t)
          | None =>
              old_n_parked <~ do (AddParked 1) ;>
              (* [old_n_parked == threads_ && ready_to_stop_.load()] *)
              last <~ (if decide (old_n_parked + 1 = Z.of_nat threads)%Z then do LoadReady else Ret false) ;>
              if last : bool then
                do (StoreWorkerStop me) ;> SignalStop ;>
                for_workers Worker_StoppingWake (seq 0 threads) ;> Ret None
              else
                stopped <~ do LoadStopped ;>
                if stopped : bool then do (StoreWorkerStop me) ;> Ret None
                else do (AwaitWakeups old_wakeups) ;> do (AddParked (-1)) ;> TryPickTask iter
          end
      end
  end.

Definition PickTask (me : worker_id) : fp_prog (option task) :=
  iter <~ do IncIter ;>
  t <~ TryPickTask iter ;>
  match t with
  | Some t => Ret (Some t)
  | None => TryPickTaskBeforePark me iter
  end.

(** Running a task: the user's code, which submits its children. *)
Fixpoint submit_all (me : option worker_id) (cs : list (task * SchedulerHint)) : fp_prog unit :=
  match cs with
  | [] => Ret tt
  | (t, hint) :: cs => do (Spawn t) ;> ThreadPool_Submit me t hint ;> submit_all me cs
  end.

Definition run_task (me : worker_id) (t : task) : fp_prog unit :=
  do (Execute t) ;> submit_all (Some me) (children t).

(** One iteration of [while (!worker_stop_.load())]; [false] ends the loop. *)
Definition Work_iteration (me : worker_id) : fp_prog bool :=
  stop <~ do LoadWorkerStop ;>
  if stop : bool then Ret false
  else next <~ PickTask me ;>
       match next with
       | Some t => run_task me t ;> Ret true
       | None => Ret true
       end.

(** ** The machine *)

Record FP := mkFP {
  fp_global : list task;
  fp_local : worker_id -> list task;
  fp_spinning : Z;
  fp_parked : Z;
  fp_wakeups : worker_id -> Z;
  fp_waiters : list worker_id;
  fp_ready : bool;
  fp_stopped : bool;
  fp_worker_stop : worker_id -> bool;
  fp_exited : worker_id -> bool;
}.

(** A thread: worker [t < threads] in an iteration of its loop, a client
    between or inside calls.  [lifo_slot_] and [iter_] belong to the worker. *)
Inductive fp_pc :=
| FWorker (p : fp_prog bool)
| FExited
| FClient
| FCall (stop : bool) (p : fp_prog unit).

Record FL := mkFL { f_pc : fp_pc; f_lifo : option task; f_iter : nat }.

(** What the environment decides. *)
Record choice := mkChoice { ch_num : nat; ch_order : list worker_id }.
Inductive fp_act := FSubmit (t : task) (hint : SchedulerHint) | FStop | FGo (ch : choice).

Inductive fp_ev := FAccepted (t : task) | FExecuted (t : task) | FStopReturned | FAborted.

(** One atomic operation by thread [me]: the result, the shared state, the
    thread's own fields, the events; [None] while it blocks. *)
Definition fp_exec_op (me : tid) (ch : choice) (s : FP) (l : option task * nat) {B} (o : fp_op B)
  : option (B * FP * (option task * nat) * list fp_ev) :=
  let 'mkFP g loc sp pk wk wt rd st ws ex := s in
  match o in fp_op B return option (B * FP * (option task * nat) * list fp_ev) with
  | GlobalPushOne t => Some (tt, mkFP (g ++ [t]) loc sp pk wk wt rd st ws ex, l, [])
  | GlobalPushMany ts => Some (tt, mkFP (g ++ ts) loc sp pk wk wt rd st ws ex, l, [])
  | GlobalTryPopOne => Some (hd_error g, mkFP (tl g) loc sp pk wk wt rd st ws ex, l, [])
  | LocalTryPush t =>
      if decide (length (loc me) < cap) then
        Some (true, mkFP g (<[me := loc me ++ [t]]> loc) sp pk wk wt rd st ws ex, l, [])
      else Some (false, s, l, [])
  | LocalTryPop => Some (hd_error (loc me), mkFP g (<[me := tl (loc me)]> loc) sp pk wk wt rd st ws ex, l, [])
  | LocalGrab w n =>
      let k := Nat.min n (ch_num ch) in
      Some (take k (loc w), mkFP g (<[w := drop k (loc w)]> loc) sp pk wk wt rd st ws ex, l, [])
  | LocalSize w => Some (length (loc w) + ch_num ch, s, l, [])
  | SwapLifo t => Some (l.1, s, (t, l.2), [])
  | IncIter => Some (S l.2, s, (l.1, S l.2), [])
  | ShuffleOrder =>
      if decide (ch_order ch ≡ₚ seq 0 (threads - 1)) then Some (ch_order ch, s, l, []) else None
  | AddSpinning d => Some (tt, mkFP g loc (u64 (sp + d)) pk wk wt rd st ws ex, l, [])
  | LoadSpinning => Some (sp, s, l, [])
  | AddParked d => Some (pk, mkFP g loc sp (u64 (pk + d)) wk wt rd st ws ex, l, [])
  | LoadParked => Some (pk, s, l, [])
  | LoadWakeups => Some (wk me, s, l, [])
  | AddWakeups w => Some (tt, mkFP g loc sp pk (<[w := u32 (wk w + 1)]> wk) wt rd st ws ex, l, [])
  | AwaitWakeups old => if decide (wk me = old) then None else Some (tt, s, l, [])
  | PushWaiterOp w => Some (tt, mkFP g loc sp pk wk (wt ++ [w]) rd st ws ex, l, [])
  | PopWaiterOp => Some (hd_error wt, mkFP g loc sp pk wk (tl wt) rd st ws ex, l, [])
  | StoreReady => Some (tt, mkFP g loc sp pk wk wt true st ws ex, l, [])
  | LoadReady => Some (rd, s, l, [])
  | StoreStopped => Some (tt, mkFP g loc sp pk wk wt rd true ws ex, l, [])
  | LoadStopped => Some (st, s, l, [])
  | AwaitStopped => if st then Some (tt, s, l, []) else None
  | StoreWorkerStop w => Some (tt, mkFP g loc sp pk wk wt rd st (<[w := true]> ws) ex, l, [])
  | LoadWorkerStop => Some (ws me, s, l, [])
  | JoinThread w => if ex w then Some (tt, s, l, []) else None
  | Execute t => Some (tt, s, l, [FExecuted t])
  | Spawn t => Some (tt, s, l, [FAccepted t])
  | Abort => Some (tt, s, l, [FAborted])
  end.

Definition fp_tstep (me : tid) (a : fp_act) (l : FL) (s : FP) : option (FL * FP * list fp_ev) :=
  match f_pc l, a with
  | FClient, FSubmit t hint =>
      Some (mkFL (FCall false (ThreadPool_Submit None t hint)) (f_lifo l) (f_iter l), s, [FAccepted t])
  | FClient, FStop => Some (mkFL (FCall true ThreadPool_Stop) (f_lifo l) (f_iter l), s, [])
  | FCall stop (Ret _), FGo _ =>
      Some (mkFL FClient (f_lifo l) (f_iter l), s, if stop then [FStopReturned] else [])
  | FCall stop (Step o k), FGo ch =>
      match fp_exec_op me ch s (f_lifo l, f_iter l) o with
      | Some (r, s', l', es) => Some (mkFL (FCall stop (k r)) l'.1 l'.2, s', es)
      | None => None
      end
  | FWorker (Ret true), FGo _ => Some (mkFL (FWorker (Work_iteration me)) (f_lifo l) (f_iter l), s, [])
  | FWorker (Ret false), FGo _ =>
      Some (mkFL FExited (f_lifo l) (f_iter l),
            mkFP (fp_global s) (fp_local s) (fp_spinning s) (fp_parked s) (fp_wakeups s) (fp_waiters s)
              (fp_ready s) (fp_stopped s) (fp_worker_stop s) (<[me := true]> (fp_exited s)), [])
  | FWorker (Step o k), FGo ch =>
      match fp_exec_op me ch s (f_lifo l, f_iter l) o with
      | Some (r, s', l', es) => Some (mkFL (FWorker (k r)) l'.1 l'.2, s', es)
      | None => None
      end
  | _, _ => None
  end.

(** [Start] *)
Definition ThreadPool_Start : config FP FL :=
  Cfg (mkFP [] (fun _ => []) 0 0 (fun _ => 0%Z) [] false false (fun _ => false) (fun _ => false))
      (fun t => mkFL (if decide (t < threads) then FWorker (Ret true) else FClient) None 0).
End pool.

(** ** Program logic

    [H] are the tasks the thread holds, [U] bounds the length of its own local
    queue (others can only shorten it). *)
Section logic.
Context (cap threads : nat) (children : task -> list (task * SchedulerHint)).

Definition op_held {B} (o : fp_op B) : B -> list task -> list task -> Prop :=
  match o in fp_op B return B -> list task -> list task -> Prop with
  | GlobalPushOne t | Execute t => fun _ H H' => H ≡ₚ t :: H'
  | GlobalPushMany ts => fun _ H H' => H ≡ₚ ts ++ H'
  | LocalTryPush t => fun r H H' => if r then H ≡ₚ t :: H' else H' = H
  | GlobalTryPopOne | LocalTryPop => fun r H H' => H' ≡ₚ option_list r ++ H
  | LocalGrab _ _ => fun r H H' => H' ≡ₚ r ++ H
  | SwapLifo t => fun r H H' => option_list r ++ H ≡ₚ option_list t ++ H'
  | Spawn t => fun _ H H' => H' ≡ₚ t :: H
  | Abort => fun _ _ _ => False
  | _ => fun _ H H' => H' = H
  end.

(** What the queues guarantee about results. *)
Definition res_ok (U : nat) {B} (o : fp_op B) : B -> Prop :=
  match o in fp_op B return B -> Prop with
  | LocalTryPush _ => fun r => r = false -> cap <= U
  | LocalGrab _ n => fun r => length r <= n
  | _ => fun _ => True
  end.

Definition bound (U : nat) {B} (o : fp_op B) : B -> nat :=
  match o in fp_op B return B -> nat with
  | LocalTryPush _ => fun r => if r then S U else U
  | LocalTryPop => fun r => match r with None => 0 | Some _ => U end
  | _ => fun _ => U
  end.

Fixpoint wp {A} (p : fp_prog A) (H : list task) (U : nat) (Q : A -> list task -> nat -> Prop) : Prop :=
  match p with
  | Ret a => Q a H U
  | Step o k =>
      forall r, res_ok U o r -> exists H', op_held o r H H' /\ wp (k r) H' (bound U o r) Q
  end.

Lemma fp_wp_bind {A B} (p : fp_prog A) (f : A -> fp_prog B) H U Q :
  wp p H U (fun a H' U' => wp (f a) H' U' Q) -> wp (fp_bind p f) H U Q.
Proof.
  revert H U. induction p as [a|C o k IH]; intros H U Hp; simpl in *; [done|].
  intros r Hr. destruct (Hp r Hr) as (H' & ? & ?). eauto.
Qed.

Lemma fp_wp_mono {A} (p : fp_prog A) H U (Q Q' : A -> list task -> nat -> Prop) :
  wp p H U Q -> (forall a H' U', Q a H' U' -> Q' a H' U') -> wp p H U Q'.
Proof.
  revert H U. induction p as [a|C o k IH]; intros H U Hp HQ; simpl in *; [auto|].
  intros r Hr. destruct (Hp r Hr) as (H' & ? & ?). eauto.
Qed.

(** The specifications below have the form: if the continuation is fine with
    every outcome, so is the call. *)

Definition neutral {B} (o : fp_op B) : Prop :=
  (forall r H, op_held o r H H) /\ forall U r, bound U o r = U.

Lemma wp_neutral {B} (o : fp_op B) H U Q :
  neutral o -> (forall r, Q r H U) -> wp (do o) H U Q.
Proof. intros [Hh Hb] HQ r _. exists H. split; [apply Hh|]. simpl. rewrite Hb. apply HQ. Qed.

Ltac neutral := apply wp_neutral; [split; done|intros].

Lemma wp_push_one t F H U Q :
  H ≡ₚ t :: F -> (forall H', H' ≡ₚ F -> Q tt H' U) -> wp (do (GlobalPushOne t)) H U Q.
Proof. intros HF HQ [] _. exists F. split; [done|]. simpl. by apply HQ. Qed.

Lemma wp_pop_global H U Q :
  (forall r H', H' ≡ₚ option_list r ++ H -> Q r H' U) -> wp (do GlobalTryPopOne) H U Q.
Proof. intros HQ r _. exists (option_list r ++ H). split; [by simpl|]. simpl. by apply HQ. Qed.

Lemma wp_push_many ts F H U Q :
  H ≡ₚ ts ++ F -> (forall H', H' ≡ₚ F -> Q tt H' U) -> wp (do (GlobalPushMany ts)) H U Q.
Proof. intros HF HQ [] _. exists F. split; [done|]. simpl. by apply HQ. Qed.

Lemma wp_push_local me t F H U Q :
  H ≡ₚ t :: F -> (forall H' U', H' ≡ₚ F -> Q tt H' U') -> wp (Worker_push_local cap me t) H U Q.
Proof.
  intros HF HQ. unfold Worker_push_local. simpl. intros ok _. destruct ok; simpl.
  - exists F. split; [done|]. by apply HQ.
  - exists H. split; [done|]. intros grabbed _. exists (grabbed ++ H). split; [done|].
    intros [] _. exists F. split; [|by apply HQ]. rewrite HF. solve_Permutation.
Qed.

Lemma wp_Push me t hint F H U Q :
  H ≡ₚ t :: F -> (forall H' U', H' ≡ₚ F -> Q tt H' U') -> wp (Worker_Push cap me t hint) H U Q.
Proof.
  intros HF HQ. destruct hint; simpl.
  - by eapply wp_push_local.
  - intros old _. exists (option_list old ++ F). split; [rewrite HF; simpl; solve_Permutation|].
    destruct old as [t'|]; simpl; [|by apply HQ]. by eapply wp_push_local.
  - eapply wp_push_one; [done|]. auto.
Qed.

Lemma wp_wake_waiter H U Q : Q tt H U -> wp wake_waiter H U Q.
Proof.
  intros HQ. unfold wake_waiter, PopWaiter. apply fp_wp_bind. neutral. destruct r; [|done].
  unfold Worker_Wake. neutral. by destruct r.
Qed.

Lemma wp_TryWakeOneWorker H U Q : Q tt H U -> wp TryWakeOneWorker H U Q.
Proof. intros HQ. unfold TryWakeOneWorker. by repeat (apply fp_wp_bind, wp_wake_waiter || apply wp_wake_waiter). Qed.

Lemma wp_Submit me t hint F H U Q :
  H ≡ₚ t :: F -> (forall H' U', H' ≡ₚ F -> Q tt H' U') -> wp (ThreadPool_Submit cap me t hint) H U Q.
Proof.
  intros HF HQ. unfold ThreadPool_Submit. apply fp_wp_bind.
  assert (Hk : forall H' U', H' ≡ₚ F ->
    wp (n <~ do LoadSpinning ;> if decide (n = 0%Z) then wake_waiter else Ret tt)%prog H' U' Q).
  { intros H' U' HH. apply fp_wp_bind. neutral. case_decide; [by apply wp_wake_waiter, HQ|by apply HQ]. }
  destruct me as [w|]; [by eapply wp_Push|]. eapply wp_push_one; [done|]. auto.
Qed.

Lemma wp_push_stolen ts F H U Q :
  H ≡ₚ ts ++ F -> U + length ts <= cap -> (forall H' U', H' ≡ₚ F -> Q tt H' U') ->
  wp (push_stolen ts) H U Q.
Proof.
  revert H U. induction ts as [|t ts IH]; intros H U HF Hl HQ; simpl in *.
  - by apply HQ.
  - intros ok Hok. destruct ok; simpl in *.
    + exists (ts ++ F). split; [done|]. apply IH; [done|lia|done].
    + specialize (Hok eq_refl). lia.
Qed.

Lemma wp_StealTasks v n H U Q :
  (forall ts H', length ts <= n -> H' ≡ₚ ts ++ H -> Q ts H' U) -> wp (StealTasks v n) H U Q.
Proof.
  intros HQ. unfold StealTasks. apply fp_wp_bind. neutral. simpl. case_decide; simpl.
  - apply HQ; simpl; [lia|done].
  - intros ts Hts. exists (ts ++ H). split; [done|]. apply HQ; [lia|done].
Qed.

Lemma wp_try_steal_from v H Q :
  (forall r H' U', H' ≡ₚ option_list r ++ H -> (r = None -> U' = 0) -> Q r H' U') ->
  wp (try_steal_from cap v) H 0 Q.
Proof.
  intros HQ. unfold try_steal_from. apply fp_wp_bind, wp_StealTasks. intros ts H' Hl HH'.
  destruct (List.rev ts) as [|last front] eqn:Er.
  - simpl. apply HQ; [|done]. apply (f_equal (@List.rev _)) in Er. rewrite rev_involutive in Er. simpl in Er. by subst ts.
  - assert (ts = List.rev front ++ [last]) as ->.
    { rewrite <- (rev_involutive ts), Er. done. }
    rewrite length_app, length_rev in Hl. cbn [length] in Hl.
    apply fp_wp_bind. eapply (wp_push_stolen _ (last :: H)).
    + rewrite HH'. solve_Permutation.
    + rewrite length_rev. assert (cap / 2 <= cap) by (apply Nat.Div0.div_le_upper_bound; lia). lia.
    + intros H'' U' HH''. simpl. by apply HQ.
Qed.

Lemma wp_steal_loop me order H Q :
  (forall r H' U', H' ≡ₚ option_list r ++ H -> (r = None -> U' = 0) -> Q r H' U') ->
  wp (steal_loop cap threads me order) H 0 Q.
Proof.
  revert H Q. induction order as [|v order IH]; intros H Q HQ; cbn [steal_loop].
  - by apply HQ.
  - apply fp_wp_bind, wp_try_steal_from. intros r H' U' HH' HU. destruct r as [t|]; simpl.
    + by apply HQ.
    + rewrite (HU eq_refl). apply IH. intros r H'' U'' HH'' HU'. apply HQ; [|done].
      rewrite HH'', HH'. done.
Qed.

Lemma wp_TryStealTasks me H Q :
  (forall r H' U', H' ≡ₚ option_list r ++ H -> (r = None -> U' = 0) -> Q r H' U') ->
  wp (TryStealTasks cap threads me) H 0 Q.
Proof.
  intros HQ. unfold TryStealTasks. case_decide; [by apply HQ|].
  apply fp_wp_bind. neutral. by apply wp_steal_loop.
Qed.

Lemma wp_or_else p q H U Q :
  wp p H U (fun r H' U' => match r with Some t => Q (Some t) H' U' | None => wp q H' U' Q end) ->
  wp (or_else p q) H U Q.
Proof. intros Hp. apply fp_wp_bind. eapply fp_wp_mono; [exact Hp|]. intros [t|] H' U' ?; done. Qed.

(** The polls: the picked task is held; after an unsuccessful poll the own
    local queue is empty. *)
Definition picks (H : list task) (Q : option task -> list task -> nat -> Prop) : Prop :=
  forall r H' U', H' ≡ₚ option_list r ++ H -> (r = None -> U' = 0) -> Q r H' U'.

Lemma wp_poll H U Q : picks H Q ->
  wp (or_else TryPickTaskFromLifoSlot (or_else TryPickTaskFromLocalQueue TryPickTaskFromGlobalQueue)) H U Q.
Proof.
  intros HQ. apply wp_or_else. simpl. intros r _. exists (option_list r ++ H). split; [done|].
  destruct r as [t|]; simpl; [by apply HQ|].
  intros r _. exists (option_list r ++ H). split; [done|].
  destruct r as [t|]; simpl; [by apply HQ|].
  intros r _. exists (option_list r ++ H). split; [done|]. by apply HQ.
Qed.

Lemma wp_TryPickTask iter H U Q : picks H Q -> wp (TryPickTask iter) H U Q.
Proof.
  intros HQ. unfold TryPickTask. case_decide; [|by apply wp_poll].
  apply wp_or_else. simpl. intros r _. exists (option_list r ++ H). split; [done|].
  destruct r as [t|]; simpl; [by apply HQ|]. by apply wp_poll.
Qed.

Lemma wp_for_workers f ws H U Q :
  (forall w Q, (forall a, Q a H U) -> wp (f w) H U Q) -> (forall a, Q a H U) -> wp (for_workers f ws) H U Q.
Proof.
  intros Hf. revert Q. induction ws as [|w ws IH]; intros Q HQ; simpl; [apply HQ|].
  apply fp_wp_bind, Hf. intros _. by apply IH.
Qed.

Lemma wp_StoppingWake w H U Q : (forall a, Q a H U) -> wp (Worker_StoppingWake w) H U Q.
Proof. intros HQ. unfold Worker_StoppingWake, Worker_Wake. apply fp_wp_bind. neutral. neutral. auto. Qed.

Lemma wp_BeforePark me iter H Q : picks H Q ->
  wp (TryPickTaskBeforePark cap threads me iter) H 0 Q.
Proof.
  intros HQ. unfold TryPickTaskBeforePark, PushWaiter, TryPickTaskFromGlobalQueue.
  apply fp_wp_bind. neutral. apply fp_wp_bind, wp_TryStealTasks. intros [t|] H1 U1 HH1 HU1.
  { apply fp_wp_bind. neutral. apply fp_wp_bind, wp_TryWakeOneWorker. by apply HQ. }
  rewrite (HU1 eq_refl). simpl in HH1. clear HU1 U1.
  apply fp_wp_bind. neutral. apply fp_wp_bind. neutral. apply fp_wp_bind. neutral.
  apply fp_wp_bind, wp_pop_global. intros [t|] Hg HHg; simpl in HHg.
  { apply fp_wp_bind, wp_TryWakeOneWorker, fp_wp_bind, wp_TryWakeOneWorker. apply HQ; [|done].
    by rewrite HHg, HH1. }
  rewrite <- HHg in HH1. clear HHg H1. rename Hg into H1.
  apply fp_wp_bind, wp_TryStealTasks. intros [t|] H2 U2 HH2 HU2.
  { apply fp_wp_bind, wp_TryWakeOneWorker, fp_wp_bind, wp_TryWakeOneWorker. apply HQ; [|done].
    by rewrite HH2, HH1. }
  rewrite (HU2 eq_refl). simpl in HH2. rewrite HH1 in HH2. clear HU2 U2.
  apply fp_wp_bind. neutral. apply fp_wp_bind.
  assert (Hrest : forall last : bool, wp (if last then
       do (StoreWorkerStop me) ;> SignalStop ;>
       for_workers Worker_StoppingWake (seq 0 threads) ;> Ret None
     else stopped <~ do LoadStopped ;>
       if stopped : bool then do (StoreWorkerStop me) ;> Ret None
       else do (AwaitWakeups r0) ;> do (AddParked (-1)) ;> TryPickTask iter)%prog H2 0 Q).
  { intros []; unfold SignalStop.
    - apply fp_wp_bind. neutral. apply fp_wp_bind, fp_wp_bind. neutral.
      assert (Hend : wp (for_workers Worker_StoppingWake (seq 0 threads) ;> Ret None)%prog H2 0 Q).
      { apply fp_wp_bind, wp_for_workers; [by intros; apply wp_StoppingWake|]. intros. by apply HQ. }
      match goal with |- wp (if ?b then _ else _) _ _ _ => destruct b end; [neutral|]; exact Hend.
    - apply fp_wp_bind. neutral. match goal with |- wp (if ?b then _ else _) _ _ _ => destruct b end.
      + apply fp_wp_bind. neutral. by apply HQ.
      + apply fp_wp_bind. neutral. apply fp_wp_bind. neutral. apply wp_TryPickTask.
        intros r' H3 U3 HH3 HU3. apply HQ; [|done]. by rewrite HH3, HH2. }
  case_decide; [neutral; apply Hrest|apply Hrest].
Qed.

Lemma wp_PickTask me H U Q : picks H Q -> wp (PickTask cap threads me) H U Q.
Proof.
  intros HQ. unfold PickTask. apply fp_wp_bind. neutral. apply fp_wp_bind, wp_TryPickTask.
  intros [t|] H1 U1 HH1 HU1; [by apply HQ|]. rewrite (HU1 eq_refl). apply wp_BeforePark.
  intros r' H2 U2 HH2 HU2. apply HQ; [|done]. by rewrite HH2, HH1.
Qed.

Lemma wp_submit_all me cs H U Q :
  (forall H' U', H' ≡ₚ H -> Q tt H' U') -> wp (submit_all cap me cs) H U Q.
Proof.
  revert H U. induction cs as [|[t hint] cs IH]; intros H U HQ; simpl; [by apply HQ|].
  intros [] _. exists (t :: H). split; [done|]. apply fp_wp_bind. eapply wp_Submit; [done|].
  intros H' U' HH'. apply IH. intros H'' U'' HH''. apply HQ. by rewrite HH'', HH'.
Qed.

(** One iteration of the worker's loop ends with empty hands. *)
Lemma wp_Work_iteration me U :
  wp (Work_iteration cap threads children me) [] U (fun _ H _ => H = []).
Proof.
  unfold Work_iteration. apply fp_wp_bind. neutral. destruct r; [done|].
  apply fp_wp_bind, wp_PickTask. intros [t|] H1 U1 HH1 _; simpl in *.
  - intros [] _. exists []. split; [done|]. apply fp_wp_bind, wp_submit_all.
    intros H2 U2 HH2. simpl. by apply Permutation_nil_r.
  - by apply Permutation_nil_r.
Qed.

Lemma wp_Stop U : wp (ThreadPool_Stop threads) [] U (fun _ H _ => H = []).
Proof.
  unfold ThreadPool_Stop. apply fp_wp_bind. neutral. apply fp_wp_bind. neutral. apply fp_wp_bind.
  case_decide; neutral.
  all: apply fp_wp_bind, wp_for_workers; [by intros; apply wp_StoppingWake|]; intros.
  all: apply wp_for_workers; [intros; neutral; auto|done].
Qed.
End logic.

(** ** Soundness of the program logic *)

Definition acc_of (es : list fp_ev) : list task :=
  omap (fun e => match e with FAccepted x => Some x | _ => None end) es.
Definition exe_of (es : list fp_ev) : list task :=
  omap (fun e => match e with FExecuted x => Some x | _ => None end) es.

(** The tasks handed to the pool, by clients and by running tasks; the tasks run. *)
Definition accepted (tr : list (tid * fp_ev)) : list task := acc_of (map snd tr).
Definition executed (tr : list (tid * fp_ev)) : list task := exe_of (map snd tr).

Lemma fp_accepted_app tr t es : accepted (tr ++ map (pair t) es) = accepted tr ++ acc_of es.
Proof. unfold accepted, acc_of. by rewrite map_app, omap_app, map_map, map_id. Qed.

Lemma fp_executed_app tr t es : executed (tr ++ map (pair t) es) = executed tr ++ exe_of es.
Proof. unfold executed, exe_of. by rewrite map_app, omap_app, map_map, map_id. Qed.

(** The tasks in the queues of the pool; [M] bounds the thread identifiers. *)
Definition queued (M : nat) (s : FP) : list task :=
  fp_global s ++ collect id M (fp_local s).

Lemma collect_remove M (loc : tid -> list task) w x d :
  (M <= w -> loc w = []) -> loc w ≡ₚ d ++ x ->
  collect id M loc ≡ₚ collect id M (<[w := x]> loc) ++ d.
Proof.
  intros Hge Hw. destruct (decide (w < M)) as [Hlt|Hlt].
  - pose proof (collect_insert id M loc w x Hlt) as Hc. unfold id in Hc at 2 4. rewrite Hw in Hc.
    apply (Permutation_app_inv_r x). rewrite <- Hc. solve_Permutation.
  - rewrite Hge in Hw by lia. apply Permutation_nil_l in Hw. symmetry in Hw. apply app_eq_nil in Hw as [-> ->].
    rewrite collect_insert_ge by lia. by rewrite app_nil_r.
Qed.

Lemma collect_push M (loc : tid -> list task) w t :
  w < M -> collect id M (<[w := loc w ++ [t]]> loc) ≡ₚ collect id M loc ++ [t].
Proof.
  intros Hlt. pose proof (collect_insert id M loc w (loc w ++ [t]) Hlt) as Hc. unfold id in Hc at 2 4.
  apply (Permutation_app_inv_r (loc w)). rewrite Hc. solve_Permutation.
Qed.

Lemma hd_tl {A} (l : list A) : l = option_list (hd_error l) ++ tl l.
Proof. by destruct l. Qed.

Section soundness.
Context (cap threads : nat) (children : task -> list (task * SchedulerHint)) (M : nat).

Record local_ok (me : tid) (s s' : FP) (U' : nat) := {
  lk_out : forall w, M <= w -> fp_local s' w = [];
  lk_me : length (fp_local s' me) <= U';
  lk_other : forall w, w <> me -> length (fp_local s' w) <= length (fp_local s w);
}.

Lemma exec_res_ok me ch s l {B} (o : fp_op B) r s' l' es U :
  length (fp_local s me) <= U ->
  fp_exec_op cap threads me ch s l o = Some (r, s', l', es) -> res_ok cap U o r.
Proof.
  destruct s as [g loc sp pk wk wt rd st ws ex]. intros HU He.
  destruct o; cbn [res_ok]; try exact I; cbn [fp_exec_op fp_local] in *.
  - intros ->. case_decide; simplify_eq. lia.
  - simplify_eq. rewrite length_take. lia.
Qed.

Lemma local_ok_same me s s' U :
  (forall w, M <= w -> fp_local s w = []) -> length (fp_local s me) <= U ->
  fp_local s' = fp_local s -> local_ok me s s' U.
Proof. intros ?? E. split; rewrite E; auto. Qed.

Lemma exec_local me ch s l {B} (o : fp_op B) r s' l' es U :
  me < M -> (forall w, M <= w -> fp_local s w = []) -> length (fp_local s me) <= U ->
  fp_exec_op cap threads me ch s l o = Some (r, s', l', es) -> local_ok me s s' (bound U o r).
Proof.
  destruct s as [g loc sp pk wk wt rd st ws ex]. intros Hme Hout HU He.
  destruct o; cbn [bound]; cbn [fp_exec_op fp_local] in *; repeat case_decide; repeat case_match;
    simplify_eq; try (by apply local_ok_same); split; cbn [fp_local]; intros.
  all: try (match goal with |- context [<[?w := _]> _ ?v] =>
     destruct (decide (w = v)) as [->|]; [rewrite fn_lookup_insert|rewrite fn_lookup_insert_ne by done] end).
  all: rewrite ?length_app, ?length_drop; try done; simpl; try lia; try (by rewrite Hout by lia); auto.
  all: try (rewrite Hout by lia; by rewrite ?drop_nil).
  all: rewrite fn_lookup_insert, ?length_app; destruct (loc me); simpl in *; done || lia.
Qed.

Lemma exec_account me ch s l {B} (o : fp_op B) r s' l' es H H' :
  me < M -> (forall w, M <= w -> fp_local s w = []) ->
  fp_exec_op cap threads me ch s l o = Some (r, s', l', es) -> op_held o r H H' ->
  queued M s ++ option_list l.1 ++ H ++ acc_of es ≡ₚ queued M s' ++ option_list l'.1 ++ H' ++ exe_of es.
Proof.
  destruct s as [g loc sp pk wk wt rd st ws ex]. intros Hme Hout He Hh. unfold queued.
  destruct o; cbn [op_held fp_exec_op fp_local fp_global] in *; repeat case_decide; repeat case_match;
    simplify_eq/=; try done; rewrite ?Hh, ?app_nil_r; try (solve_Permutation).
  - rewrite (hd_tl g) at 1. solve_Permutation.
  - rewrite collect_push by done. solve_Permutation.
  - rewrite (collect_remove M loc me (tl (loc me)) (option_list (hd_error (loc me))) (Hout me)) by (by rewrite <- hd_tl).
    solve_Permutation.
  - rewrite (collect_remove M loc w _ (take (Nat.min n (ch_num ch)) (loc w)) (Hout w)) by (by rewrite take_drop).
    solve_Permutation.
  - by rewrite Hh.
Qed.

(** A thread between two operations of the pool. *)
Definition resting (pc : fp_pc) : bool :=
  match pc with
  | FWorker (Ret _) | FCall _ (Ret _) | FExited | FClient => true
  | _ => false
  end.

Definition lifo_slot (l : FL) : list task := option_list (f_lifo l).

Definition thread_ok (l : FL) (H : list task) (U : nat) : Prop :=
  match f_pc l with
  | FWorker p => wp cap p H U (fun _ H _ => H = [])
  | FCall _ p => wp cap p H U (fun _ H _ => H = [])
  | FExited | FClient => H = []
  end.

Lemma thread_ok_resting l H U : thread_ok l H U -> resting (f_pc l) = true -> H = [].
Proof. unfold thread_ok. destruct (f_pc l) as [[]| | |? []]; done. Qed.

(** What a step of thread [me] does to the tasks, wherever they are. *)
Record step_ok (me : tid) (l l' : FL) (s s' : FP) (es : list fp_ev) (H H' : list task) (U' : nat) := {
  so_thread : thread_ok l' H' U';
  so_local : local_ok me s s' U';
  so_account : queued M s ++ lifo_slot l ++ H ++ acc_of es ≡ₚ queued M s' ++ lifo_slot l' ++ H' ++ exe_of es;
  so_abort : FAborted ∉ es;
}.

Lemma exec_no_abort me ch s l {B} (o : fp_op B) r s' l' es H H' :
  fp_exec_op cap threads me ch s l o = Some (r, s', l', es) -> op_held o r H H' -> FAborted ∉ es.
Proof.
  destruct s. intros He Hh. destruct o; cbn [fp_exec_op op_held] in *; repeat case_decide; repeat case_match;
    simplify_eq; try done; set_solver.
Qed.

Lemma step_ok_exec me ch s l {A B} (o : fp_op B) (k : B -> fp_prog A) r s' l' es H U pc pc' :
  me < M -> (forall w, M <= w -> fp_local s w = []) -> length (fp_local s me) <= U ->
  wp cap (Step o k) H U (fun _ H _ => H = []) ->
  (forall H' U', wp cap (k r) H' U' (fun _ H _ => H = []) -> thread_ok (mkFL pc' l'.1 l'.2) H' U') ->
  fp_exec_op cap threads me ch s l o = Some (r, s', l', es) ->
  exists H' U', step_ok me (mkFL pc l.1 l.2) (mkFL pc' l'.1 l'.2) s s' es H H' U'.
Proof.
  intros Hme Hout HU Hwp Hth He.
  destruct (Hwp r (exec_res_ok _ _ _ _ _ _ _ _ _ _ HU He)) as (H' & Hh & Hk).
  exists H', (bound U o r). split.
  - by apply Hth.
  - by eapply exec_local.
  - by eapply exec_account.
  - by eapply exec_no_abort.
Qed.

(** A step that only changes the program counter. *)
Lemma step_ok_rest me l l' s s' es U :
  (forall w, M <= w -> fp_local s w = []) -> length (fp_local s me) <= U ->
  fp_local s' = fp_local s -> fp_global s' = fp_global s -> f_lifo l' = f_lifo l ->
  thread_ok l' (acc_of es) U -> exe_of es = [] -> FAborted ∉ es ->
  step_ok me l l' s s' es [] (acc_of es) U.
Proof.
  intros Hout HU El Eg Elf Hth Hex Hab. split; [done|by apply local_ok_same| |done].
  unfold queued, lifo_slot. by rewrite El, Eg, Elf, Hex, app_nil_r.
Qed.

Lemma fp_step_ok me a l s l' s' es H U :
  me < M -> (forall w, M <= w -> fp_local s w = []) -> length (fp_local s me) <= U ->
  thread_ok l H U -> fp_tstep cap threads children me a l s = Some (l', s', es) ->
  exists H' U', step_ok me l l' s s' es H H' U'.
Proof.
  intros Hme Hout HU Hth Hst. destruct l as [pc lifo iter]. unfold fp_tstep in Hst. cbn [f_pc f_lifo f_iter] in Hst.
  destruct pc as [[b|B o k]| | |stop [b|B o k]], a as [t hint| |ch];
    try discriminate Hst; try (destruct b; discriminate Hst).
  - assert (H = []) as -> by exact Hth. destruct b; injection Hst as <- <- <-.
    + exists [], U. apply (step_ok_rest _ _ _ _ _ []); try done; [apply wp_Work_iteration|set_solver].
    + exists [], U. apply (step_ok_rest _ _ _ _ _ []); done || set_solver.
  - destruct (fp_exec_op _ _ _ _ _ _ _) as [[[[r s1] l1] es1]|] eqn:He; simplify_eq.
    eapply (step_ok_exec me ch s (lifo, iter) o k); [done..|exact Hth| |exact He]. by intros.
  - assert (H = []) as -> by exact Hth. injection Hst as <- <- <-.
    exists [t], U. apply (step_ok_rest _ _ _ _ _ [FAccepted t]); try done; [|set_solver].
    eapply (wp_Submit _ _ _ _ []); [reflexivity|]. intros H' U' HH. by apply Permutation_nil_r.
  - assert (H = []) as -> by exact Hth. injection Hst as <- <- <-.
    exists [], U. apply (step_ok_rest _ _ _ _ _ []); try done; [apply wp_Stop|set_solver].
  - assert (H = []) as -> by exact Hth. injection Hst as <- <- <-.
    exists [], U. destruct stop; [apply (step_ok_rest _ _ _ _ _ [FStopReturned])|apply (step_ok_rest _ _ _ _ _ [])]; done || set_solver.
  - destruct (fp_exec_op _ _ _ _ _ _ _) as [[[[r s1] l1] es1]|] eqn:He; simplify_eq.
    eapply (step_ok_exec me ch s (lifo, iter) o k); [done..|exact Hth| |exact He]. by intros.
Qed.

Record fp_inv (tr : list (tid * fp_ev)) (c : config FP FL) (Hd : tid -> list task) (Ub : tid -> nat) := {
  fi_out : forall w, M <= w -> fp_local (sh c) w = [];
  fi_len : forall w, length (fp_local (sh c) w) <= Ub w;
  fi_thread : forall t, thread_ok (lo c t) (Hd t) (Ub t);
  fi_abort : forall t, (t, FAborted) ∉ tr;
  fi_account : accepted tr ≡ₚ executed tr ++ queued M (sh c) ++ collect lifo_slot M (lo c) ++ collect id M Hd;
}.

Lemma fp_inv_reachable tr c :
  gsteps (fp_tstep cap threads children) (fun t _ _ => t < M) (ThreadPool_Start threads) tr c ->
  exists Hd Ub, fp_inv tr c Hd Ub.
Proof.
  induction 1 as [|tr c t a c' es _ (Hd & Ub & [Hout Hlen Hth Hab Hac]) Ht Hst].
  { exists (fun _ => []), (fun _ => 0). split; try done.
    - intros t. unfold thread_ok. simpl. by case_decide.
    - set_solver.
    - unfold queued. cbn. rewrite !collect_nil; done. }
  apply cstep_inv in Hst as (l' & s' & Hst & ->).
  destruct (fp_step_ok _ _ _ _ _ _ _ _ _ Ht Hout (Hlen t) (Hth t) Hst) as (H' & U' & [Hth' [Hout' Hme' Hoth'] Hacc Hab']).
  exists (<[t := H']> Hd), (<[t := U']> Ub). split; cbn [sh lo].
  - done.
  - intros w. destruct (decide (w = t)) as [->|Hne]; [by rewrite fn_lookup_insert|].
    rewrite fn_lookup_insert_ne by done. etrans; [by apply Hoth'|done].
  - intros w. destruct (decide (w = t)) as [->|Hne]; [by rewrite !fn_lookup_insert|].
    by rewrite !fn_lookup_insert_ne by done.
  - intros w. rewrite elem_of_app. intros [?|(e & E & He)%list_elem_of_fmap]; [by eapply Hab|]. by simplify_eq.
  - rewrite fp_accepted_app, fp_executed_app, Hac.
    pose proof (collect_insert lifo_slot M (lo c) t l' Ht) as Hl.
    pose proof (collect_insert id M Hd t H' Ht) as Hh. unfold id in Hh at 2 4.
    apply (Permutation_app_inv_r (lifo_slot (lo c t) ++ Hd t)).
    transitivity (executed tr ++ (queued M (sh c) ++ lifo_slot (lo c t) ++ Hd t ++ acc_of es) ++
                  collect lifo_slot M (lo c) ++ collect id M Hd); [solve_Permutation|].
    rewrite Hacc.
    transitivity (executed tr ++ exe_of es ++ queued M s' ++ (collect lifo_slot M (lo c) ++ lifo_slot l') ++
                  (collect id M Hd ++ H')); [solve_Permutation|].
    rewrite <- Hl, <- Hh. solve_Permutation.
Qed.
End soundness.

(** ** Main theorems *)

(** C28: The work-stealing pool loses no task and runs none twice, however its
    workers and clients interleave: at every moment the accepted tasks are,
    with multiplicities, the executed ones, those in the global and local
    queues and the LIFO slots, and those in the hands of threads that are in the
    middle of an operation. *)
Theorem fast_pool_exactly_once cap threads children M tr c :
  gsteps (fp_tstep cap threads children) (fun t _ _ => t < M) (ThreadPool_Start threads) tr c ->
  exists held : tid -> list task,
    (forall t, resting (f_pc (lo c t)) = true -> held t = []) /\
    accepted tr ≡ₚ executed tr ++ queued M (sh c) ++ collect lifo_slot M (lo c) ++ collect id M held.
Proof.
  intros (Hd & Ub & Hi)%fp_inv_reachable. exists Hd. split; [|by destruct Hi].
  intros t. eapply thread_ok_resting. by destruct Hi.
Qed.

(** C29: [TryStealTasks] never reaches its [std::abort]: a worker steals only
    when its own queue is empty, and half a queue fits. *)
Theorem fast_pool_steal_never_aborts cap threads children M tr c :
  gsteps (fp_tstep cap threads children) (fun t _ _ => t < M) (ThreadPool_Start threads) tr c ->
  forall t, (t, FAborted) ∉ tr.
Proof. intros (Hd & Ub & Hi)%fp_inv_reachable. by destruct Hi. Qed.

(** C30: [Stop] can lose a task: a client submits two tasks and stops the pool;
    [Stop] returns, the only worker has exited, and the second task sits in the
    global queue for ever. *)
Theorem fast_pool_stop_loses_task :
  exists tr c, steps (fp_tstep 7 1 (fun _ => [])) (ThreadPool_Start 1) tr c /\
    accepted tr = [10; 11] /\ executed tr = [10] /\ (1, FStopReturned) ∈ tr /\
    fp_global (sh c) = [11] /\ f_pc (lo c 0) = FExited.
Proof.
  pose (go := FGo (mkChoice 0 [])).
  pose (sched := repeat (0, go) 14 ++ [(1, FSubmit 10 UpToYou)] ++ repeat (1, go) 5 ++
    [(1, FSubmit 11 UpToYou)] ++ repeat (1, go) 4 ++ [(1, FStop)] ++ repeat (1, go) 5 ++
    repeat (0, go) 9 ++ repeat (1, go) 2).
  do 2 eexists. split.
  { apply (run_steps0 _ sched). vm_compute. reflexivity. }
  split; [reflexivity|]. split; [reflexivity|]. split; [apply list_elem_of_In; vm_compute; tauto|].
  split; reflexivity.
Qed.

(** Two workers and a client: worker 0 runs task 1, which submits tasks 2 and 3
    to its own queue; worker 1 steals one of them. *)
Definition fp_demo_children (t : task) : list (task * SchedulerHint) :=
  if decide (t = 1) then [(2, UpToYou); (3, UpToYou); (4, Next); (5, Next)] else [].

Definition fp_demo : list (tid * fp_act) :=
  let go := FGo (mkChoice 2 [0]) in
  [(2, FSubmit 1 UpToYou)] ++ repeat (2, go) 4 ++ repeat (0, go) 24 ++ repeat (1, go) 18.

Lemma fast_pool_exactly_once_witness :
  exists tr c, gsteps (fp_tstep 7 2 fp_demo_children) (fun t _ _ => t < 3) (ThreadPool_Start 2) tr c /\
    executed tr = [1; 3] /\ fp_local (sh c) 1 = [2] /\
    exists held : tid -> list task,
      (forall t, resting (f_pc (lo c t)) = true -> held t = []) /\
      accepted tr ≡ₚ executed tr ++ queued 3 (sh c) ++ collect lifo_slot 3 (lo c) ++ collect id 3 held.
Proof.
  do 2 eexists.
  eassert (Hs : gsteps (fp_tstep 7 2 fp_demo_children) (fun t _ _ => t < 3) (ThreadPool_Start 2) _ _).
  { apply (run_gsteps0 _ _ fp_demo); vm_compute; [repeat split; lia|reflexivity]. }
  split; [exact Hs|]. split; [reflexivity|]. split; [reflexivity|].
  exact (fast_pool_exactly_once 7 2 fp_demo_children 3 _ _ Hs).
Defined.

Lemma fast_pool_steal_never_aborts_witness :
  exists tr c, gsteps (fp_tstep 7 2 fp_demo_children) (fun t _ _ => t < 3) (ThreadPool_Start 2) tr c /\
    (1, FExecuted 3) ∈ tr /\ forall t, (t, FAborted) ∉ tr.
Proof.
  do 2 eexists.
  eassert (Hs : gsteps (fp_tstep 7 2 fp_demo_children) (fun t _ _ => t < 3) (ThreadPool_Start 2) _ _).
  { apply (run_gsteps0 _ _ fp_demo); vm_compute; [repeat split; lia|reflexivity]. }
  split; [exact Hs|]. split; [apply list_elem_of_In; vm_compute; tauto|].
  exact (fast_pool_steal_never_aborts 7 2 fp_demo_children 3 _ _ Hs).
Defined.
