(* ===== verification/Fiber.v ===== *)
(** Fibers and coroutines: src/src/exe/fiber/core, src/src/exe/fiber/sched,
    src/src/exe/coro/go.hpp and src/src/exe/coro/sched.

    A fiber (or a stackless coroutine) is a program over the operations of the
    runtime and of one shared object ([St], with its spin lock).  The machine
    has worker threads that pick fibers from the scheduler, resume them, and
    after a suspension run the awaiter on the worker's own stack.  The scheduler
    is a bag: a worker may pick any submitted fiber.

    The second half is a program logic for such programs.  Two kinds of
    resources are passed around: handles of suspended fibers (linear, each with
    the permissions its fiber is waiting for) and permissions of the object.
    [wp_sound] shows for all programs that satisfy it: a fiber is never resumed
    twice or lost, the object's invariants hold in every reachable state, and
    when nothing runs and nothing is scheduled, the fibers that have not
    completed are exactly the ones waiting in the object. *)

From S2P Require Import Prelude Conc Task.

Abbreviation fid := nat (only parsing).

(** ** Programs *)
Section programs.
Context {St Ev : Type}.

Inductive op : Type -> Type :=
(** the object's [thread::SpinLock] *)
| Lock : op unit
| Unlock : op unit
(** [FiberHandle::Schedule], [Waiter::Schedule] *)
| Schedule (f : fid) (hint : SchedulerHint) : op unit
(** an access of the object's fields, or of an atomic; emits events *)
| Access {B : Type} (a : St -> St * B * list Ev) : op B.

Inductive prog : Type -> Type :=
| Ret {A : Type} (a : A) : prog A
| Act {A B : Type} (o : op B) (k : B -> prog A) : prog A
(** a loop with state [i]: [inl] iterates, [inr] leaves *)
| Iter {A I B : Type} (body : I -> prog (I + B)) (i : I) (k : B -> prog A) : prog A
(** suspend: the awaiter runs on the worker; its result tells whether the fiber
    stays suspended.  [k true] runs when the fiber has been scheduled, [k false]
    when it was not suspended after all. *)
| Suspend {A : Type} (aw : fid -> prog bool) (k : bool -> prog A) : prog A
| Spawn {A : Type} (b : prog unit) (k : prog A) : prog A.

Fixpoint bind {A B} (p : prog A) : (A -> prog B) -> prog B :=
  match p in prog A return (A -> prog B) -> prog B with
  | Ret a => fun f => f a
  | Act o k => fun f => Act o (fun b => bind (k b) f)
  | Iter body i k => fun f => Iter body i (fun b => bind (k b) f)
  | Suspend aw k => fun f => Suspend aw (fun b => bind (k b) f)
  | Spawn b k => fun f => Spawn b (bind k f)
  end.

Definition act {B} (o : op B) : prog B := Act o Ret.
Definition access {B} (a : St -> St * B * list Ev) : prog B := act (Access a).
(** The client's code announces a point of its execution. *)
Definition mark (e : Ev) : prog unit := access (fun st => (st, tt, [e])).
Definition loop {I B} (i : I) (body : I -> prog (I + B)) : prog B := Iter body i Ret.

(** ** fiber/sched and coro/sched *)

(** [fiber::Suspend]: the awaiter always leaves the fiber suspended. *)
Definition fiber_Suspend (awaiter : fid -> prog unit) : prog unit :=
  Suspend (fun self => bind (awaiter self) (fun _ => Ret true)) (fun _ => Ret tt).

Definition fiber_Yield : prog unit := fiber_Suspend (fun handle => act (Schedule handle Yield)).

(** [co_await] of an awaiter with a [bool await_suspend]. *)
Definition co_await (await_suspend : fid -> prog bool) : prog unit := Suspend await_suspend (fun _ => Ret tt).

(** [coro::Yield()]: a coroutine without scheduler goes on at once. *)
Definition coro_Yield (has_sched : fid -> bool) : prog unit :=
  co_await (fun self =>
    if has_sched self then bind (act (Schedule self Yield)) (fun _ => Ret true) else Ret false).

(** [coro::JumpTo] *)
Definition coro_JumpTo : prog unit :=
  co_await (fun self => bind (act (Schedule self UpToYou)) (fun _ => Ret true)).

(** ** The machine *)

Record FS := mkFS {
  fs_lock : bool;
  fs_st : St;
  (** submitted fibers *)
  fs_rq : list fid;
  (** where a suspended or new fiber goes on *)
  fs_cont : fid -> prog unit;
  (** the next new fiber *)
  fs_next : fid;
}.

(** A worker's stack: fibers it has resumed, or an awaiter after the fiber has
    suspended (with the coroutine's continuation if it is not suspended). *)
Inductive frame :=
| FFiber (f : fid) (p : prog unit)
| FAwait (f : fid) (p : prog bool) (kf : prog unit).

Inductive wact := Pick (i : nat) | Step.
Inductive wev := User (e : Ev) | Completed (f : fid).

(** Coroutines without scheduler are resumed inside [Schedule]. *)
Context (inline : fid -> bool).

(** One operation: the result, the state, the events and the fiber to resume
    in place; [None] while the lock is taken. *)
Definition fiber_exec (s : FS) {B} (o : op B) : option (B * FS * list Ev * option fid) :=
  let 'mkFS lk st rq cont next := s in
  match o in op B return option (B * FS * list Ev * option fid) with
  | Lock => if lk then None else Some (tt, mkFS true st rq cont next, [], None)
  | Unlock => Some (tt, mkFS false st rq cont next, [], None)
  | Schedule f _ =>
      if inline f then Some (tt, s, [], Some f)
      else Some (tt, mkFS lk st (rq ++ [f]) cont next, [], None)
  | Access a => let '(st', b, es) := a st in Some (b, mkFS lk st' rq cont next, es, None)
  end.

(** A step of a program that does not suspend. *)
Definition pstep {A} (s : FS) (p : prog A) : option (prog A * FS * list Ev * option fid) :=
  match p in prog A return option (prog A * FS * list Ev * option fid) with
  | Act o k =>
      match fiber_exec s o with
      | Some (b, s', es, r) => Some (k b, s', es, r)
      | None => None
      end
  | Iter body i k =>
      Some (bind (body i) (fun r => match r with inl i' => Iter body i' k | inr b => k b end), s, [], None)
  | Spawn b k =>
      let 'mkFS lk st rq cont next := s in
      (* [NewFiber], [Schedule(UpToYou)] *)
      Some (k, mkFS lk st (rq ++ [next]) (<[next := b]> cont) (S next), [], None)
  | _ => None
  end.

Definition resume (s : FS) (r : option fid) (fr : frame) (stk : list frame) : list frame :=
  match r with None => fr :: stk | Some f => FFiber f (fs_cont s f) :: fr :: stk end.

(** Whether a program has returned, or is about to suspend. *)
Definition returned {A} (p : prog A) : option A :=
  match p with Ret a => Some a | _ => None end.
Definition suspending {A} (p : prog A) : option ((fid -> prog bool) * (bool -> prog A)) :=
  match p with Suspend aw k => Some (aw, k) | _ => None end.

Definition wstep (w : tid) (a : wact) (stk : list frame) (s : FS)
  : option (list frame * FS * list wev) :=
  match a, stk with
  | Pick i, [] =>
      (* [Fiber::Run]: [current_fiber = this; coroutine_.Resume()] *)
      match fs_rq s !! i with
      | Some f => Some ([FFiber f (fs_cont s f)],
                        mkFS (fs_lock s) (fs_st s) (delete i (fs_rq s)) (fs_cont s) (fs_next s), [])
      | None => None
      end
  | Step, FFiber f p :: stk =>
      match returned p, suspending p, pstep s p with
      (* [IsCompleted()]: [delete this] *)
      | Some _, _, _ => Some (stk, s, [Completed f])
      (* [Fiber::Suspend], [awaiter_->Await(FiberHandle(this))] *)
      | _, Some (aw, k), _ =>
          Some (FAwait f (aw f) (k false) :: stk,
                mkFS (fs_lock s) (fs_st s) (fs_rq s) (<[f := k true]> (fs_cont s)) (fs_next s), [])
      | _, _, Some (p', s', es, r) => Some (resume s' r (FFiber f p') stk, s', map User es)
      | _, _, _ => None
      end
  | Step, FAwait f p kf :: stk =>
      match returned p, pstep s p with
      | Some true, _ => Some (stk, s, [])
      | Some false, _ => Some (FFiber f kf :: stk, s, [])
      | _, Some (p', s', es, r) => Some (resume s' r (FAwait f p' kf) stk, s', map User es)
      | _, _ => None
      end
  | _, _ => None
  end.

(** [Go(scheduler, func)] for every function of a list, on a fresh object. *)
Definition Go_all (st : St) (bodies : list (prog unit)) : config FS (list frame) :=
  Cfg (mkFS false st (seq 0 (length bodies)) (fun f => nth f bodies (Ret tt)) (length bodies)) (fun _ => []).
End programs.
Arguments op : clear implicits.
Arguments prog : clear implicits.
Arguments FS : clear implicits.
Arguments frame : clear implicits.
Arguments wev : clear implicits.

Declare Scope fiber_scope.
Delimit Scope fiber_scope with fiber.
Notation "x <~ p ;> q" := (bind p (fun x => q))
  (at level 100, p at next level, q at level 200, right associativity) : fiber_scope.
Notation "p ;> q" := (bind p (fun _ => q))
  (at level 100, q at level 200, right associativity) : fiber_scope.

(** ** The program logic *)

(** What an object promises to the logic: the permissions it hands out, the
    part of its state that its lock protects and the invariant of that part
    while the lock is free, the handles that wait in it (each with the
    permissions its fiber is to get), and an invariant of the whole execution
    over events, state and outstanding permissions. *)
Class Discipline (St Ev : Type) := {
  perm : Type;
  view_t : Type;
  view : St -> view_t;
  obj_inv : view_t -> Prop;
  (** auxiliary state that only the proof sees *)
  ghost : Type;
  waiting : St -> ghost -> list (fid * list perm);
  trace_inv : list Ev -> St -> ghost -> list perm -> Prop;
  trace_inv_perm : forall tr st gh P P', P ≡ₚ P' -> trace_inv tr st gh P -> trace_inv tr st gh P';
}.

Section logic.
Context {St Ev : Type} `{D : !Discipline St Ev}.

Abbreviation handle := (fid * list perm)%type (only parsing).
(** The view of a lock holder. *)
Abbreviation mode := (option view_t) (only parsing).

Definition wp_op {B} (o : op St Ev B) (m : mode) (hs : list handle) (ps : list perm)
  : (B -> mode -> list handle -> list perm -> Prop) -> Prop :=
  match o in op _ _ B return (B -> mode -> list handle -> list perm -> Prop) -> Prop with
  | Lock => fun Q => m = None /\ forall v, obj_inv v -> Q tt (Some v) hs ps
  | Unlock => fun Q => exists v, m = Some v /\ obj_inv v /\ Q tt None hs ps
  | Schedule f _ => fun Q => exists g hs' ps', hs ≡ₚ (f, g) :: hs' /\ ps ≡ₚ g ++ ps' /\ Q tt m hs' ps'
  | Access a => fun Q =>
      forall st gh, (forall v, m = Some v -> view st = v) -> (exists tr P, trace_inv tr st gh (ps ++ P)) ->
      exists gh' hs' ps',
        waiting st gh ++ hs ≡ₚ waiting (a st).1.1 gh' ++ hs' /\
        (m = None -> view (a st).1.1 = view st) /\
        (forall tr P, trace_inv tr st gh (ps ++ P) -> trace_inv (tr ++ (a st).2) (a st).1.1 gh' (ps' ++ P)) /\
        Q (a st).1.2 (match m with None => None | Some _ => Some (view (a st).1.1) end) hs' ps'
  end.

(** A fiber ends with the lock released and nothing in its hands. *)
Definition ends (m : mode) (hs : list handle) (ps : list perm) : Prop :=
  m = None /\ hs = [] /\ ps = [].

Fixpoint wp (self : fid) {A} (p : prog St Ev A) (m : mode) (hs : list handle) (ps : list perm)
  : (A -> mode -> list handle -> list perm -> Prop) -> Prop :=
  match p in prog _ _ A return (A -> mode -> list handle -> list perm -> Prop) -> Prop with
  | Ret a => fun Q => Q a m hs ps
  | Act o k => fun Q => wp_op o m hs ps (fun b m' hs' ps' => wp self (k b) m' hs' ps' Q)
  | Iter body i k => fun Q =>
      exists J : _ -> mode -> list handle -> list perm -> Prop,
        J i m hs ps /\
        forall i m hs ps, J i m hs ps ->
          wp self (body i) m hs ps (fun r m' hs' ps' =>
            match r with inl i' => J i' m' hs' ps' | inr b => wp self (k b) m' hs' ps' Q end)
  | Suspend aw k => fun Q =>
      exists g,
        wp self (aw self) m ((self, g) :: hs) ps (fun b m' hs' ps' =>
          if b then ends m' hs' ps'
          else m' = None /\ exists hs'', hs' ≡ₚ (self, g) :: hs'' /\ wp self (k false) None hs'' ps' Q) /\
        wp self (k true) None [] g Q
  | Spawn b k => fun Q =>
      exists g ps', ps ≡ₚ g ++ ps' /\ (forall n, wp n b None [] g (fun _ => ends)) /\ wp self k m hs ps' Q
  end.

Lemma wp_op_mono {B} (o : op St Ev B) m hs ps (Q Q' : B -> mode -> list handle -> list perm -> Prop) :
  wp_op o m hs ps Q -> (forall b m hs ps, Q b m hs ps -> Q' b m hs ps) -> wp_op o m hs ps Q'.
Proof.
  destruct o; simpl.
  - intros [? H] HQ. eauto.
  - intros (v & ? & ? & ?) HQ. eauto.
  - intros (g & hs' & ps' & ? & ? & ?) HQ. eauto 10.
  - intros H HQ st gh Hv Ht. destruct (H st gh Hv Ht) as (gh' & hs' & ps' & ? & ? & ? & ?). eauto 10.
Qed.

Lemma wp_mono self {A} (p : prog St Ev A) m hs ps (Q Q' : A -> mode -> list handle -> list perm -> Prop) :
  wp self p m hs ps Q -> (forall a m hs ps, Q a m hs ps -> Q' a m hs ps) -> wp self p m hs ps Q'.
Proof.
  revert m hs ps. induction p as [A a|A B o k IH|A I B body IHb i k IH|A aw IHa k IH|A b IHb k IH];
    intros m hs ps Hp HQ; simpl in *.
  - auto.
  - eapply wp_op_mono; [exact Hp|]. simpl. eauto.
  - destruct Hp as (J & HJ & Hb). exists J. split; [done|]. intros i' m' hs' ps' HJ'.
    eapply IHb; [by apply Hb|]. intros [] ? ? ? ?; eauto.
  - destruct Hp as (g & Ha & Hk). exists g. split; [|eauto].
    eapply IHa; [exact Ha|]. intros [] ? ? ? Hb; [done|].
    destruct Hb as (? & hs'' & ? & ?). eauto 10.
  - destruct Hp as (g & ps' & ? & ? & ?). eauto 10.
Qed.

Lemma wp_bind self {A B} (p : prog St Ev A) (f : A -> prog St Ev B) m hs ps Q :
  wp self p m hs ps (fun a m' hs' ps' => wp self (f a) m' hs' ps' Q) -> wp self (bind p f) m hs ps Q.
Proof.
  revert f m hs ps Q. induction p as [A a|A C o k IH|A I C body IHb i k IH|A aw IHa k IH|A b IHb k IH];
    intros f m hs ps Q Hp; simpl in *.
  - done.
  - eapply wp_op_mono; [exact Hp|]. simpl. eauto.
  - destruct Hp as (J & HJ & Hb). exists J. split; [done|]. intros i' m' hs' ps' HJ'.
    eapply wp_mono; [by apply Hb|]. intros [] ? ? ? ?; eauto.
  - destruct Hp as (g & Ha & Hk). exists g. split; [|eauto].
    eapply wp_mono; [exact Ha|]. intros [] ? ? ? Hb; [done|].
    destruct Hb as (? & hs'' & ? & ?). eauto 10.
  - destruct Hp as (g & ps' & ? & ? & ?). eauto 10.
Qed.

Lemma wp_iter_unfold self {A I B} (body : I -> prog St Ev (I + B)) i (k : B -> prog St Ev A) m hs ps Q :
  wp self (Iter body i k) m hs ps Q ->
  wp self (bind (body i) (fun r => match r with inl i' => Iter body i' k | inr b => k b end)) m hs ps Q.
Proof.
  intros (J & HJ & Hb). apply wp_bind. eapply wp_mono; [by apply Hb|].
  intros [i'|b] m' hs' ps' Hr; simpl; [|done]. exists J. auto.
Qed.

(** ** Soundness *)

Abbreviation fs := (FS St Ev) (only parsing).

Definition fiber_ok (f : fid) (p : prog St Ev unit) (g : list perm) : Prop :=
  wp f p None [] g (fun _ => ends).

Definition await_post (f : fid) (g : list perm) (kf : prog St Ev unit) (b : bool)
    (m : mode) (hs : list handle) (ps : list perm) : Prop :=
  if b then ends m hs ps
  else m = None /\ exists hs', hs ≡ₚ (f, g) :: hs' /\ wp f kf None hs' ps (fun _ => ends).

Definition stack_ok (stk : list (frame St Ev)) (m : mode) (hs : list handle) (ps : list perm) : Prop :=
  match stk with
  | [] => ends m hs ps
  | [FFiber f p] => wp f p m hs ps (fun _ => ends)
  | [FAwait f p kf] => exists g, wp f p m hs ps (await_post f g kf)
  | _ => False
  end.

Definition running (stk : list (frame St Ev)) : list fid :=
  match stk with FFiber f _ :: _ => [f] | _ => [] end.

Definition completed (es : list (wev Ev)) : list fid :=
  omap (fun e => match e with Completed f => Some f | _ => None end) es.
Definition user (es : list (wev Ev)) : list Ev :=
  omap (fun e => match e with User e => Some e | _ => None end) es.

(** How one worker's mode and the lock move together. *)
Inductive lock_step (s s' : fs) : mode -> mode -> Prop :=
| ls_free : fs_lock s' = fs_lock s -> view (fs_st s') = view (fs_st s) -> lock_step s s' None None
| ls_lock : fs_lock s = false -> fs_lock s' = true -> view (fs_st s') = view (fs_st s) ->
    lock_step s s' None (Some (view (fs_st s')))
| ls_held v : fs_lock s' = fs_lock s -> lock_step s s' (Some v) (Some (view (fs_st s')))
| ls_unlock v : fs_lock s' = false -> obj_inv (view (fs_st s')) -> lock_step s s' (Some v) None.

Record lock_inv (md : tid -> mode) (s : fs) : Prop := {
  li_view : forall w v, md w = Some v -> fs_lock s = true /\ view (fs_st s) = v;
  li_one : forall w w', md w <> None -> md w' <> None -> w = w';
  li_free : fs_lock s = false -> obj_inv (view (fs_st s));
  li_held : fs_lock s = true -> exists w, md w <> None;
}.

Lemma lock_inv_step md s s' w m' :
  lock_inv md s -> lock_step s s' (md w) m' -> lock_inv (<[w := m']> md) s'.
Proof.
  intros [Hv H1 Hf Hh] Hl. destruct (md w) as [v|] eqn:Ew.
  - destruct (Hv _ _ Ew) as [Hlk Hview].
    assert (Hot : forall w', w' <> w -> md w' = None).
    { intros w' Hne. destruct (md w') eqn:E; [|done]. destruct Hne. apply H1; congruence. }
    inversion Hl; subst; split.
    + intros w' v'. destruct (decide (w' = w)) as [->|Hne];
        [rewrite fn_lookup_insert|rewrite fn_lookup_insert_ne by done]; [|by rewrite Hot].
      intros [= <-]. split; [congruence|done].
    + intros w1 w2. destruct (decide (w1 = w)) as [->|?], (decide (w2 = w)) as [->|?];
        rewrite ?fn_lookup_insert, ?fn_lookup_insert_ne by done; try done; by rewrite ?Hot by done.
    + congruence.
    + intros _. exists w. by rewrite fn_lookup_insert.
    + intros w' v'. destruct (decide (w' = w)) as [->|Hne];
        [by rewrite fn_lookup_insert|rewrite fn_lookup_insert_ne by done]. by rewrite Hot.
    + intros w1 w2. destruct (decide (w1 = w)) as [->|?], (decide (w2 = w)) as [->|?];
        rewrite ?fn_lookup_insert, ?fn_lookup_insert_ne by done; try done; by rewrite ?Hot by done.
    + done.
    + congruence.
  - inversion Hl as [Elk Eview HA HB|Elk Elk' Eview HA HB| |]; subst; split.
    + intros w' v'. destruct (decide (w' = w)) as [->|Hne];
        [by rewrite fn_lookup_insert|rewrite fn_lookup_insert_ne by done].
      rewrite Elk, Eview. apply Hv.
    + intros w1 w2. destruct (decide (w1 = w)) as [->|?], (decide (w2 = w)) as [->|?];
        rewrite ?fn_lookup_insert, ?fn_lookup_insert_ne by done; try done. apply H1.
    + rewrite Elk, Eview. done.
    + rewrite Elk. intros (w' & Hw')%Hh. exists w'. rewrite fn_lookup_insert_ne by congruence. done.
    + assert (Hot : forall w', md w' = None).
      { intros w'. destruct (md w') eqn:E; [|done]. destruct (Hv _ _ E). congruence. }
      intros w' v'. destruct (decide (w' = w)) as [->|Hne];
        [rewrite fn_lookup_insert|rewrite fn_lookup_insert_ne by done]; [|by rewrite Hot].
      intros [= <-]. done.
    + assert (Hot : forall w', md w' = None).
      { intros w'. destruct (md w') eqn:E; [|done]. destruct (Hv _ _ E). congruence. }
      intros w1 w2. destruct (decide (w1 = w)) as [->|?], (decide (w2 = w)) as [->|?];
        rewrite ?fn_lookup_insert, ?fn_lookup_insert_ne by done; try done; by rewrite ?Hot.
    + congruence.
    + intros _. exists w. by rewrite fn_lookup_insert.
Qed.

(** The hypotheses about the part of the world a step of a worker can see: its
    mode, what it holds, and the scheduled handles [RQ]. *)
Record sees (s : fs) (gh : ghost) (RQ : list handle) (m : mode) (hs : list handle) (ps : list perm) : Prop := {
  se_rq : map fst RQ = fs_rq s;
  se_view : forall v, m = Some v -> fs_lock s = true /\ view (fs_st s) = v;
  se_free : fs_lock s = false -> obj_inv (view (fs_st s));
  se_trace : exists tr P, trace_inv tr (fs_st s) gh (ps ++ P);
}.

(** What a step does to the world: [new] are fibers it creates. *)
Record moves (s s' : fs) (gh gh' : ghost) (es : list Ev) (RQ RQ' : list handle) (m m' : mode)
    (hs hs' : list handle) (ps ps' : list perm) (new : list handle) : Prop := {
  mv_rq : map fst RQ' = fs_rq s';
  mv_lock : lock_step s s' m m';
  mv_handles : RQ ++ waiting (fs_st s) gh ++ hs ++ new ≡ₚ RQ' ++ waiting (fs_st s') gh' ++ hs';
  mv_trace : forall tr P, trace_inv tr (fs_st s) gh (concat (map snd RQ) ++ ps ++ P) ->
    trace_inv (tr ++ es) (fs_st s') gh' (concat (map snd RQ') ++ ps' ++ P);
  mv_new : map fst new = seq (fs_next s) (fs_next s' - fs_next s) /\ fs_next s <= fs_next s';
  mv_cont : forall f, f < fs_next s -> fs_cont s' f = fs_cont s f;
  mv_fresh : forall f g, (f, g) ∈ new -> fiber_ok f (fs_cont s' f) g;
}.

Lemma trace_swap tr st gh (A B C : list perm) :
  trace_inv tr st gh (A ++ B ++ C) -> trace_inv tr st gh (B ++ A ++ C).
Proof. apply trace_inv_perm. solve_Permutation. Qed.

Lemma concat_snd_app (RQ RQ' : list handle) :
  concat (map snd (RQ ++ RQ')) = concat (map snd RQ) ++ concat (map snd RQ').
Proof. by rewrite map_app, concat_app. Qed.

Lemma exec_op_moves {B} (o : op St Ev B) s gh b s' es r RQ m hs ps Q :
  sees s gh RQ m hs ps -> fiber_exec (fun _ => false) s o = Some (b, s', es, r) -> wp_op o m hs ps Q ->
  r = None /\ exists gh' m' hs' ps' RQ', moves s s' gh gh' es RQ RQ' m m' hs hs' ps ps' [] /\ Q b m' hs' ps'.
Proof.
  intros [Hrq Hv Hf Ht] He Hw. destruct s as [lk st rq cont next].
  assert (Hnew : map fst (@nil handle) = seq next (next - next) /\ next <= next).
  { rewrite Nat.sub_diag. done. }
  destruct o; simpl in *.
  - destruct Hw as [-> HQ]. destruct lk; simplify_eq. split; [done|].
    exists gh, (Some (view st)), hs, ps, RQ. split; [|auto]. split; try done.
    + by constructor.
    + by rewrite app_nil_r.
    + intros tr P. by rewrite app_nil_r.
    + intros f g Hfg. by apply elem_of_nil in Hfg.
  - destruct Hw as (v & -> & Hi & HQ). simplify_eq. split; [done|].
    destruct (Hv v eq_refl) as [-> Hview]. simpl in *.
    exists gh, None, hs, ps, RQ. split; [|auto]. split; try done.
    + constructor; [done|]. simpl. by rewrite Hview.
    + by rewrite app_nil_r.
    + intros tr P. by rewrite app_nil_r.
    + intros f g Hfg. by apply elem_of_nil in Hfg.
  - destruct Hw as (g & hs' & ps' & Hh & Hp & HQ). simplify_eq. split; [done|].
    exists gh, m, hs', ps', (RQ ++ [(f, g)]). split; [|auto]. split; try done; simpl.
    + by rewrite map_app.
    + destruct m as [v|]; [|by constructor]. destruct (Hv v eq_refl) as [-> <-].
      by apply (ls_held (mkFS true st _ cont next)).
    + rewrite Hh. solve_Permutation.
    + intros tr P. rewrite app_nil_r, concat_snd_app. cbn. apply trace_inv_perm. rewrite Hp. solve_Permutation.
    + intros f' g' Hfg. by apply elem_of_nil in Hfg.
  - destruct (a st) as [[st' b'] es'] eqn:Ea. simplify_eq. split; [done|].
    destruct (Hw st gh (fun v Hm => proj2 (Hv v Hm)) Ht) as (gh' & hs' & ps' & Hh & Hvw & Htr & HQ).
    rewrite Ea in *. simpl in *. exists gh', (match m with None => None | Some _ => Some (view st') end), hs', ps', RQ.
    split; [|done]. split; try done; simpl.
    + destruct m; [by apply (ls_held _ (mkFS lk st' _ cont next))|]. apply ls_free; simpl; auto.
    + rewrite app_nil_r. by rewrite Hh.
    + intros tr P Hi. apply trace_swap, Htr, trace_swap, Hi.
    + intros f' g' Hfg. by apply elem_of_nil in Hfg.
Qed.

Lemma moves_refl s gh RQ m hs ps : sees s gh RQ m hs ps -> moves s s gh gh [] RQ RQ m m hs hs ps ps [].
Proof.
  intros [Hrq Hv Hf Ht]. split; try done.
  - destruct m as [v|]; [|by constructor]. destruct (Hv v eq_refl) as [_ <-]. by constructor.
  - by rewrite app_nil_r.
  - intros tr P. by rewrite app_nil_r.
  - rewrite Nat.sub_diag. done.
  - intros f g Hfg. by apply elem_of_nil in Hfg.
Qed.

Lemma pstep_moves self {A} (p : prog St Ev A) s gh p' s' es r RQ m hs ps Q :
  sees s gh RQ m hs ps -> pstep (fun _ => false) s p = Some (p', s', es, r) -> wp self p m hs ps Q ->
  r = None /\ exists gh' m' hs' ps' RQ' new,
    moves s s' gh gh' es RQ RQ' m m' hs hs' ps ps' new /\ wp self p' m' hs' ps' Q.
Proof.
  intros Hs Hp Hw. destruct p as [A a|A B o k|A I B body i k|A aw k|A b k]; simpl in Hp; try done.
  - destruct (fiber_exec _ s o) as [[[[b s1] es1] r1]|] eqn:He; simplify_eq.
    destruct (exec_op_moves _ _ _ _ _ _ _ _ _ _ _ _ Hs He Hw) as (-> & gh' & m' & hs' & ps' & RQ' & ? & ?).
    split; [done|]. eauto 10.
  - simplify_eq. split; [done|]. exists gh, m, hs, ps, RQ, []. split; [by apply moves_refl|]. by apply wp_iter_unfold.
  - destruct Hw as (g & ps' & Hps & Hb & Hk). destruct s as [lk st rq cont next]. simplify_eq. split; [done|].
    exists gh, m, hs, ps', (RQ ++ [(next, g)]), [(next, g)]. split; [|done].
    destruct Hs as [Hrq Hv Hf Ht]. simpl in *. split; simpl.
    + rewrite map_app. by rewrite Hrq.
    + destruct m as [v|]; [|by constructor]. destruct (Hv v eq_refl) as [-> <-].
      by apply (ls_held (mkFS true st _ cont next)).
    + solve_Permutation.
    + intros tr P. rewrite app_nil_r, concat_snd_app. cbn. apply trace_inv_perm. rewrite Hps. solve_Permutation.
    + replace (S next - next) with 1 by lia. split; [done|lia].
    + intros f Hlt. by rewrite fn_lookup_insert_ne by lia.
    + intros f g' [= -> ->]%list_elem_of_singleton. rewrite fn_lookup_insert. apply Hb.
Qed.

Record worker_moves (s s' : fs) (gh gh' : ghost) (stk stk' : list (frame St Ev)) (es : list (wev Ev)) (RQ RQ' : list handle)
    (m m' : mode) (hs hs' : list handle) (ps ps' : list perm) (new : list fid) : Prop := {
  wm_stack : stack_ok stk' m' hs' ps';
  wm_rq : map fst RQ' = fs_rq s';
  wm_lock : lock_step s s' m m';
  wm_ids : completed es ++ running stk' ++ map fst (RQ' ++ waiting (fs_st s') gh' ++ hs') ≡ₚ
           running stk ++ map fst (RQ ++ waiting (fs_st s) gh ++ hs) ++ new;
  wm_ok : forall f g, (f, g) ∈ RQ' ++ waiting (fs_st s') gh' ++ hs' -> fiber_ok f (fs_cont s' f) g;
  wm_cont : forall f, f < fs_next s -> f ∉ running stk -> fs_cont s' f = fs_cont s f;
  wm_new : new = seq (fs_next s) (fs_next s' - fs_next s) /\ fs_next s <= fs_next s';
  wm_trace : forall tr P, trace_inv tr (fs_st s) gh (concat (map snd RQ) ++ ps ++ P) ->
    trace_inv (tr ++ user es) (fs_st s') gh' (concat (map snd RQ') ++ ps' ++ P);
}.

(** The fibers a worker can see, each at one place and fit to run. *)
Record fibers_ok (s : fs) (gh : ghost) (stk : list (frame St Ev)) (RQ hs : list handle) : Prop := {
  fo_nodup : base.NoDup (running stk ++ map fst (RQ ++ waiting (fs_st s) gh ++ hs));
  fo_lt : forall f, f ∈ running stk ++ map fst (RQ ++ waiting (fs_st s) gh ++ hs) -> f < fs_next s;
  fo_ok : forall f g, (f, g) ∈ RQ ++ waiting (fs_st s) gh ++ hs -> fiber_ok f (fs_cont s f) g;
}.

Lemma user_map es : user (map User es) = es.
Proof. induction es as [|e es IH]; [done|]. cbn. f_equal. exact IH. Qed.
Lemma completed_map es : completed (map User es) = [].
Proof. induction es as [|e es IH]; [done|]. exact IH. Qed.

(** A step inside the running program. *)
Lemma inner_moves s s' gh gh' stk stk' es RQ RQ' m m' hs hs' ps ps' new :
  fibers_ok s gh stk RQ hs -> moves s s' gh gh' es RQ RQ' m m' hs hs' ps ps' new ->
  running stk' = running stk -> stack_ok stk' m' hs' ps' ->
  worker_moves s s' gh gh' stk stk' (map User es) RQ RQ' m m' hs hs' ps ps' (map fst new).
Proof.
  intros [Hnd Hlt Hok] [Hrq Hlk Hh Htr Hnew Hc Hfr] Hrun Hst. split; try done.
  - rewrite completed_map, Hrun. simpl. rewrite <- Hh, <- map_app, <- !app_assoc. done.
  - intros f g. rewrite <- Hh, !app_assoc, elem_of_app, <- app_assoc. intros [Hin|Hin]; [|auto].
    rewrite Hc; [auto|]. apply Hlt, elem_of_app. right. by apply (list_elem_of_fmap_2 fst _ (f, g)).
  - auto.
  - by rewrite user_map.
Qed.

Lemma fibers_run_nin s gh f p stk RQ hs :
  fibers_ok s gh (FFiber f p :: stk) RQ hs -> f ∉ map fst (RQ ++ waiting (fs_st s) gh ++ hs).
Proof. intros [Hnd _ _]. simpl in Hnd. by apply list.NoDup_cons_1_1 in Hnd. Qed.

Lemma list_delete_perm {A} (l : list A) i x : l !! i = Some x -> l ≡ₚ x :: delete i l.
Proof. intros H. apply delete_Permutation in H. done. Qed.

Lemma pick_moves s gh RQ i f :
  sees s gh RQ None [] [] -> fibers_ok s gh [] RQ [] -> fs_rq s !! i = Some f ->
  exists g RQ', worker_moves s (mkFS (fs_lock s) (fs_st s) (delete i (fs_rq s)) (fs_cont s) (fs_next s)) gh gh
    [] [FFiber f (fs_cont s f)] [] RQ RQ' None None [] [] [] g [].
Proof.
  intros [Hrq Hv Hf Ht] [Hnd Hlt Hok] Hi. rewrite <- Hrq in Hi.
  apply list_lookup_fmap_Some in Hi as ([f' g] & ? & Hi). simpl in *. subst f'.
  pose proof (list_delete_perm _ _ _ Hi) as Hd.
  exists g, (delete i RQ). split; simpl.
  - apply Hok. rewrite elem_of_app. left. by eapply list_elem_of_lookup_2.
  - rewrite <- Hrq. by rewrite list_fmap_delete.
  - by constructor.
  - rewrite Hd at 2. rewrite !app_nil_r. done.
  - intros f' g' Hin. apply Hok. rewrite Hd. set_solver.
  - done.
  - rewrite Nat.sub_diag. done.
  - intros tr P. rewrite app_nil_r. apply trace_inv_perm. rewrite Hd at 1. simpl. solve_Permutation.
Qed.

Lemma suspend_moves s gh RQ m hs ps f aw k p :
  sees s gh RQ m hs ps -> fibers_ok s gh [FFiber f p] RQ hs -> p = Suspend aw k ->
  wp f p m hs ps (fun _ => ends) ->
  exists hs', worker_moves s (mkFS (fs_lock s) (fs_st s) (fs_rq s) (<[f := k true]> (fs_cont s)) (fs_next s)) gh gh
    [FFiber f p] [FAwait f (aw f) (k false)] [] RQ RQ m m hs hs' ps ps [].
Proof.
  intros [Hrq Hv Hf Ht] Hfib -> Hw. pose proof (fibers_run_nin _ _ _ _ _ _ _ Hfib) as Hnin.
  destruct Hfib as [Hnd Hlt Hok]. destruct Hw as (g & Ha & Hk).
  exists ((f, g) :: hs). split; simpl.
  - exists g. eapply wp_mono; [exact Ha|]. unfold await_post. intros [] ? ? ? ?; done.
  - done.
  - destruct m as [v|]; [|by constructor]. destruct (Hv v eq_refl) as [_ <-].
    by apply (ls_held _ (mkFS _ _ _ _ _)).
  - rewrite !map_app. simpl. solve_Permutation.
  - intros f' g' Hin. assert ((f', g') = (f, g) \/ (f', g') ∈ RQ ++ waiting (fs_st s) gh ++ hs) as [[= -> ->]|Hin'] by set_solver.
    + by rewrite fn_lookup_insert.
    + rewrite fn_lookup_insert_ne; [by apply Hok|]. intros ->. apply Hnin.
      by apply (list_elem_of_fmap_2 fst _ (f', g')).
  - intros f' Hlt' Hne. rewrite fn_lookup_insert_ne; [done|]. set_solver.
  - rewrite Nat.sub_diag. done.
  - intros tr P. by rewrite app_nil_r.
Qed.

Lemma returned_inv {A} (p : prog St Ev A) a : returned p = Some a -> p = Ret a.
Proof. destruct p; simpl; by intros; simplify_eq. Qed.
Lemma suspending_inv {A} (p : prog St Ev A) aw k : suspending p = Some (aw, k) -> p = Suspend aw k.
Proof. destruct p; simpl; by intros; simplify_eq. Qed.

Lemma wstep_moves w a stk s gh stk' s' es RQ m hs ps :
  sees s gh RQ m hs ps -> fibers_ok s gh stk RQ hs -> stack_ok stk m hs ps ->
  wstep (fun _ => false) w a stk s = Some (stk', s', es) ->
  exists gh' m' hs' ps' RQ' new, worker_moves s s' gh gh' stk stk' es RQ RQ' m m' hs hs' ps ps' new.
Proof.
  intros Hs Hf Hst Hw. destruct a as [i|], stk as [|[f p|f p kf] stk]; simpl in Hw; try done.
  - destruct (fs_rq s !! i) as [f|] eqn:Hi; simplify_eq. destruct Hst as (-> & -> & ->).
    destruct (pick_moves _ _ _ _ _ Hs Hf Hi) as (g & RQ' & ?). eauto 10.
  - destruct stk; [|done]. simpl in Hst. destruct (returned p) as [u|] eqn:Er.
    + apply returned_inv in Er as ->. simplify_eq/=. destruct Hst as (-> & -> & ->). exists gh, None, [], [], RQ, [].
      destruct Hs as [Hrq _ _ _]. destruct Hf as [_ _ Hok]. split; try done.
      * by constructor.
      * by rewrite !app_nil_r.
      * rewrite Nat.sub_diag. done.
      * intros tr P. by rewrite !app_nil_r.
    + destruct (suspending p) as [[aw k]|] eqn:Es.
      * simplify_eq. pose proof (suspending_inv _ _ _ Es) as E.
        destruct (suspend_moves _ _ _ _ _ _ _ _ _ _ Hs Hf E Hst) as [hs' ?]. eauto 10.
      * destruct (pstep _ s p) as [[[[p' s1] es1] r]|] eqn:Ep; simplify_eq.
        destruct (pstep_moves _ _ _ _ _ _ _ _ _ _ _ _ _ Hs Ep Hst) as (-> & gh' & m' & hs' & ps' & RQ' & new & Hm & Hw').
        do 6 eexists. by eapply inner_moves.
  - destruct stk; [|done]. destruct Hst as [g Hst]. destruct (returned p) as [b|] eqn:Er.
    + apply returned_inv in Er as ->. destruct Hs as [Hrq _ _ _]. destruct Hf as [_ _ Hok]. destruct b; simplify_eq/=.
      * destruct Hst as (-> & -> & ->). exists gh, None, [], [], RQ, []. split; try done.
        -- by constructor.
        -- by rewrite !app_nil_r.
        -- rewrite Nat.sub_diag. done.
        -- intros tr P. by rewrite !app_nil_r.
      * destruct Hst as (-> & hs'' & Hh & Hk). exists gh, None, hs'', ps, RQ, []. split; try done; simpl.
        -- by constructor.
        -- rewrite app_nil_r, Hh, !map_app. simpl. solve_Permutation.
        -- intros f' g' Hin. apply Hok. rewrite Hh. set_solver.
        -- rewrite Nat.sub_diag. done.
        -- intros tr P. by rewrite !app_nil_r.
    + destruct (pstep _ s p) as [[[[p' s1] es1] r]|] eqn:Ep; simplify_eq.
      destruct (pstep_moves _ _ _ _ _ _ _ _ _ _ _ _ _ Hs Ep Hst) as (-> & gh' & m' & hs' & ps' & RQ' & new & Hm & Hw').
      do 6 eexists. eapply inner_moves; [done..|]. simpl. eauto.
Qed.

(** The invariant of the machine. *)
Record fiber_inv (M : nat) (tr : list (tid * wev Ev)) (c : config fs (list (frame St Ev)))
    (md : tid -> mode) (hd : tid -> list handle) (pd : tid -> list perm) (RQ : list handle) (gh : ghost) : Prop := {
  fi_rq : map fst RQ = fs_rq (sh c);
  fi_stack : forall w, stack_ok (lo c w) (md w) (hd w) (pd w);
  fi_out : forall w, M <= w -> lo c w = [];
  fi_lock : lock_inv md (sh c);
  fi_ids : completed (map snd tr) ++ collect running M (lo c) ++
           map fst (RQ ++ waiting (fs_st (sh c)) gh ++ collect id M hd) ≡ₚ seq 0 (fs_next (sh c));
  fi_ok : forall f g, (f, g) ∈ RQ ++ waiting (fs_st (sh c)) gh ++ collect id M hd ->
            fiber_ok f (fs_cont (sh c) f) g;
  fi_trace : trace_inv (user (map snd tr)) (fs_st (sh c)) gh (concat (map snd RQ) ++ collect id M pd);
}.

Lemma collect_split {Lo A} (f : Lo -> list A) M (l : tid -> Lo) w :
  w < M -> exists R, collect f M l ≡ₚ f (l w) ++ R /\ forall x, collect f M (<[w := x]> l) ≡ₚ f x ++ R.
Proof.
  induction M as [|M IH]; intros Hw; [lia|]. destruct (decide (w = M)) as [->|Hne].
  - exists (collect f M l). split; [rewrite collect_S; solve_Permutation|].
    intros x. rewrite collect_S, collect_insert_ge by lia. rewrite fn_lookup_insert. solve_Permutation.
  - destruct IH as (R & H1 & H2); [lia|]. exists (R ++ f (l M)). split.
    + rewrite collect_S, H1. solve_Permutation.
    + intros x. rewrite collect_S, H2, fn_lookup_insert_ne by lia. solve_Permutation.
Qed.

Lemma seq_nodup_lt n (l : list nat) : l ≡ₚ seq 0 n -> base.NoDup l /\ forall x, x ∈ l -> x < n.
Proof.
  intros E. split.
  - rewrite E. apply NoDup_seq.
  - intros x. rewrite E, elem_of_seq. lia.
Qed.

Lemma fiber_inv_step M tr c w a c' es md hd pd RQ gh :
  w < M -> fiber_inv M tr c md hd pd RQ gh -> cstep (wstep (fun _ => false)) w a c = Some (c', es) ->
  exists md' hd' pd' RQ' gh', fiber_inv M (tr ++ map (pair w) es) c' md' hd' pd' RQ' gh'.
Proof.
  intros Hw [Hrq Hst Hout Hlk Hids Hok Htr] (stk' & s' & Hstep & ->)%cstep_inv.
  destruct (collect_split id M hd w Hw) as (Rh & Eh & Eh').
  destruct (collect_split id M pd w Hw) as (Rp & Ep & Ep').
  destruct (collect_split running M (lo c) w Hw) as (Rr & Er & Er').
  unfold id in Eh at 2, Ep at 2. setoid_rewrite Eh in Hok.
  rewrite Er, Eh in Hids. destruct (seq_nodup_lt _ _ Hids) as [Hnd Hlt].
  assert (Hsee : sees (sh c) gh RQ (md w) (hd w) (pd w)).
  { destruct Hlk. split; eauto. exists (user (map snd tr)), (Rp ++ concat (map snd RQ)).
    eapply trace_inv_perm; [|exact Htr]. rewrite Ep. solve_Permutation. }
  assert (Hfib : fibers_ok (sh c) gh (lo c w) RQ (hd w)).
  { assert (Hsub : (running (lo c w) ++ map fst (RQ ++ waiting (fs_st (sh c)) gh ++ hd w)) ++
       completed (map snd tr) ++ Rr ++ map fst Rh ≡ₚ seq 0 (fs_next (sh c))).
    { rewrite <- Hids, !map_app. solve_Permutation. }
    split.
    - apply seq_nodup_lt in Hsub as [Hn _]. by apply list.NoDup_app in Hn as [? _].
    - intros f Hin. apply seq_nodup_lt in Hsub as [_ Hl]. apply Hl. set_solver.
    - intros f g. rewrite !elem_of_app. intros Hin. apply Hok. rewrite !elem_of_app. tauto. }
  destruct (wstep_moves _ _ _ _ _ _ _ _ _ _ _ _ Hsee Hfib (Hst w) Hstep)
    as (gh' & m' & hs' & ps' & RQ' & new & [Hst' Hrq' Hlk' Hids' Hok' Hc' [Hn1 Hn2] Htr']).
  exists (<[w := m']> md), (<[w := hs']> hd), (<[w := ps']> pd), RQ', gh'. split; cbn [sh lo].
  - done.
  - intros w'. destruct (decide (w' = w)) as [->|Hne]; [by rewrite !fn_lookup_insert|].
    by rewrite !fn_lookup_insert_ne by done.
  - intros w' Hw'. rewrite fn_lookup_insert_ne by lia. auto.
  - by eapply lock_inv_step.
  - rewrite map_app, map_map, map_id. unfold completed in *. rewrite omap_app, Er', Eh'.
    unfold id. transitivity ((completed es ++ running stk' ++ map fst (RQ' ++ waiting (fs_st s') gh' ++ hs')) ++
      completed (map snd tr) ++ Rr ++ map fst Rh); [rewrite !map_app; unfold completed; solve_Permutation|].
    unfold completed. rewrite Hids'.
    replace (fs_next s') with (fs_next (sh c) + (fs_next s' - fs_next (sh c))) by lia.
    rewrite seq_app, <- Hids, Hn1. rewrite !map_app. solve_Permutation.
  - intros f g. setoid_rewrite Eh'. unfold id. intros Hin.
    assert ((f, g) ∈ RQ' ++ waiting (fs_st s') gh' ++ hs' \/ (f, g) ∈ Rh) as [?|HR] by set_solver; [by apply Hok'|].
    assert (f ∈ map fst Rh) as Hf by (by apply (list_elem_of_fmap_2 fst _ (f, g))).
    rewrite Hc'.
    + apply Hok. rewrite !elem_of_app. tauto.
    + apply Hlt. rewrite !map_app, !elem_of_app. tauto.
    + intros Hrun. rewrite <- app_assoc in Hnd. apply list.NoDup_app in Hnd as (_ & _ & Hnd).
      apply list.NoDup_app in Hnd as (_ & Hdis & _). apply (Hdis f Hrun). rewrite !map_app, !elem_of_app. tauto.
  - rewrite map_app, map_map, map_id. unfold user. rewrite omap_app.
    eapply trace_inv_perm; [|apply (Htr' (user (map snd tr)) Rp)].
    + rewrite Ep'. unfold id. solve_Permutation.
    + eapply trace_inv_perm; [|exact Htr]. rewrite Ep. done.
Qed.

(** Clients that keep to the discipline, each fiber starting with some permissions. *)
Record clients_ok (st : St) (bodies : list (prog St Ev unit)) (grants : list (list perm)) (gh : ghost) : Prop := {
  co_len : length grants = length bodies;
  co_body : forall f b g, bodies !! f = Some b -> grants !! f = Some g -> fiber_ok f b g;
  co_wait : waiting st gh = [];
  co_inv : obj_inv (view st);
  co_trace : trace_inv [] st gh (concat grants);
}.

Definition fsteps (M : nat) := gsteps (wstep (St := St) (Ev := Ev) (fun _ => false)) (fun w _ _ => w < M).

Lemma fiber_inv_init M st bodies grants gh :
  clients_ok st bodies grants gh ->
  fiber_inv M [] (Go_all st bodies) (fun _ => None) (fun _ => []) (fun _ => [])
    (zip (seq 0 (length bodies)) grants) gh.
Proof.
  intros [Hl Hb Hw Hi Ht]. split; cbn [Go_all sh lo fs_rq fs_st fs_lock fs_next fs_cont]; try done.
  - apply fst_zip. rewrite length_seq. lia.
  - rewrite Hw, !collect_nil by done. simpl. rewrite app_nil_r.
    rewrite (fst_zip (seq 0 _)) by (rewrite length_seq; lia). done.
  - intros f g. rewrite Hw, collect_nil by done. rewrite app_nil_r.
    intros [i Hlk]%list_elem_of_lookup. apply lookup_zip_with_Some in Hlk as (f' & g' & [= -> ->] & Hf & Hg).
    apply lookup_seq in Hf as [-> Hlt]. simpl. destruct (lookup_lt_is_Some_2 bodies i Hlt) as [b Hbi].
    rewrite (nth_lookup_Some _ _ _ _ Hbi). eauto.
  - rewrite collect_nil, app_nil_r by done. rewrite (snd_zip _ grants) by (rewrite length_seq; lia). done.
Qed.

Lemma wp_sound M st bodies grants gh tr c :
  clients_ok st bodies grants gh -> fsteps M (Go_all st bodies) tr c ->
  exists md hd pd RQ gh', fiber_inv M tr c md hd pd RQ gh'.
Proof.
  intros Hc. induction 1 as [|tr c w a c' es _ (md & hd & pd & RQ & gh' & Hi) Hw Hs].
  - do 5 eexists. by apply fiber_inv_init.
  - by eapply fiber_inv_step.
Qed.

(** No fiber is at two places: a fiber that runs is not scheduled and runs on
    one worker only, no fiber is scheduled twice, a completed one is gone. *)
Lemma fibers_unique M st bodies grants gh tr c :
  clients_ok st bodies grants gh -> fsteps M (Go_all st bodies) tr c ->
  base.NoDup (completed (map snd tr) ++ collect running M (lo c) ++ fs_rq (sh c)).
Proof.
  intros Hc (md & hd & pd & RQ & gh' & [Hrq _ _ _ Hids _ _])%(wp_sound _ _ _ _ _ _ _ Hc).
  rewrite map_app, Hrq in Hids. destruct (seq_nodup_lt _ _ Hids) as [Hnd _].
  rewrite !app_assoc in Hnd. rewrite !app_assoc. by apply list.NoDup_app in Hnd as [? _].
Qed.

(** Nothing runs and nothing is scheduled. *)
Definition quiescent (M : nat) (c : config fs (list (frame St Ev))) : Prop :=
  (forall w, w < M -> lo c w = []) /\ fs_rq (sh c) = [].

(** In a quiescent state the lock is free, no permission is outstanding, and
    every fiber has completed or waits in the object. *)
Lemma quiescent_waiting M st bodies grants gh tr c :
  clients_ok st bodies grants gh -> fsteps M (Go_all st bodies) tr c -> quiescent M c ->
  obj_inv (view (fs_st (sh c))) /\ exists gh, trace_inv (user (map snd tr)) (fs_st (sh c)) gh [] /\
  completed (map snd tr) ++ map fst (waiting (fs_st (sh c)) gh) ≡ₚ seq 0 (fs_next (sh c)).
Proof.
  intros Hc (md & hd & pd & RQ & gh' & [Hrq Hst Hout Hlk Hids _ Htr])%(wp_sound _ _ _ _ _ _ _ Hc) [Hidle Hnil].
  assert (Hends : forall w, ends (md w) (hd w) (pd w)).
  { intros w. specialize (Hst w). destruct (decide (w < M)); [rewrite Hidle in Hst by done|rewrite Hout in Hst by lia]; done. }
  assert (RQ = []) as -> by (rewrite Hnil in Hrq; by destruct RQ).
  rewrite (collect_nil id M hd) in Hids by (intros w _; apply Hends).
  rewrite (collect_nil id M pd) in Htr by (intros w _; apply Hends).
  rewrite (collect_nil running M) in Hids by (intros w Hw; by rewrite Hidle by done).
  split; [|exists gh'; split; [done|]].
  - apply (li_free _ _ Hlk). destruct (fs_lock (sh c)) eqn:E; [|done].
    destruct (li_held _ _ Hlk E) as [w Hw]. by destruct (Hends w) as (? & _).
  - simpl in Hids. by rewrite app_nil_r in Hids.
Qed.

(** Clients that start with no permission. *)
Lemma clients_ok_nil st bodies gh :
  (forall f b, bodies !! f = Some b -> fiber_ok f b []) -> waiting st gh = [] -> obj_inv (view st) ->
  trace_inv [] st gh [] -> clients_ok st bodies (replicate (length bodies) []) gh.
Proof.
  intros Hb Hw Hi Ht. split; [by rewrite length_replicate| |done..|].
  - intros f b g Hf Hg. apply lookup_replicate in Hg as [-> _]. eauto.
  - assert (concat (replicate (length bodies) []) = @nil perm) as -> by (induction (length bodies) as [|n IH]; [done|exact IH]). done.
Qed.

Lemma trace_holds M st bodies grants gh tr c :
  clients_ok st bodies grants gh -> fsteps M (Go_all st bodies) tr c ->
  exists gh P, trace_inv (user (map snd tr)) (fs_st (sh c)) gh P.
Proof. intros Hc (md & hd & pd & RQ & gh' & [])%(wp_sound _ _ _ _ _ _ _ Hc). eauto. Qed.
End logic.


(** ** Running examples *)
Section driver.
Context {St Ev : Type} (inline : fid -> bool).

(** The workers of a list step in turn: an idle one picks the first scheduled
    fiber, a blocked one is skipped. *)
Fixpoint drive_with (ws : list tid) (c : config (FS St Ev) (list (frame St Ev)))
  : config (FS St Ev) (list (frame St Ev)) * list (tid * wev Ev) :=
  match ws with
  | [] => (c, [])
  | w :: ws =>
      let a := match lo c w with [] => Pick 0 | _ => Step end in
      match cstep (wstep inline) w a c with
      | Some (c', es) => let '(c'', tr) := drive_with ws c' in (c'', map (pair w) es ++ tr)
      | None => drive_with ws c
      end
  end.

Abbreviation steps M := (gsteps (wstep (St := St) (Ev := Ev) inline) (fun w _ _ => w < M)).

Lemma drive_steps M ws c0 tr0 c :
  forallb (fun w => w <? M) ws = true -> steps M c0 tr0 c ->
  steps M c0 (tr0 ++ (drive_with ws c).2) (drive_with ws c).1.
Proof.
  revert tr0 c. induction ws as [|w ws IH]; intros tr0 c Hw Hs; simpl in *; [by rewrite app_nil_r|].
  bool_hyps. destruct (cstep _ w _ c) as [[c' es]|] eqn:Ec; [|by apply IH].
  destruct (drive_with ws c') as [c'' tr] eqn:Ed. simpl.
  assert (Hs' : steps M c0 (tr0 ++ map (pair w) es) c') by (eapply gsteps_snoc; [exact Hs|simpl; lia|exact Ec]).
  specialize (IH _ _ H0 Hs'). rewrite Ed in IH. simpl in IH. by rewrite <- app_assoc in IH.
Qed.

Lemma drive_with_run M ws c :
  forallb (fun w => w <? M) ws = true -> steps M c (drive_with ws c).2 (drive_with ws c).1.
Proof. intros Hw. apply (drive_steps M ws c [] c Hw). constructor. Qed.
End driver.

(** All fibers have a scheduler. *)
Abbreviation drive := (drive_with (fun _ => false)).

Lemma drive_run {St Ev} M ws (c : config (FS St Ev) (list (frame St Ev))) :
  forallb (fun w => w <? M) ws = true -> fsteps M c (drive ws c).2 (drive ws c).1.
Proof. apply drive_with_run. Qed.
