(* ===== verification/FiberSync.v ===== *)
(** Synchronization of fibers: src/src/exe/fiber/sync/mutex.hpp, event.hpp and
    wait_group.hpp.

    Each object is a record with its methods as fiber programs, line by line;
    accesses of the fields between two calls are one step, as the object's spin
    lock is held (SpinLock.v).  The correctness theorems come from the program
    logic of Fiber.v: an instance of [Discipline] per object, a specification
    per method, and clients that use the methods in any number and order. *)

From S2P Require Import Prelude Conc Task Fiber.
Local Open Scope fiber_scope.

(** ** Rules of the logic that the objects share *)
Section rules.
Context {St Ev : Type} `{D : !Discipline St Ev}.

Lemma wp_lock self {A} (k : unit -> prog St Ev A) hs ps Q :
  (forall v, obj_inv v -> wp self (k tt) (Some v) hs ps Q) -> wp self (bind (act Lock) k) None hs ps Q.
Proof. intros H. simpl. auto. Qed.

Lemma wp_unlock self {A} (k : unit -> prog St Ev A) v hs ps Q :
  obj_inv v -> wp self (k tt) None hs ps Q -> wp self (bind (act Unlock) k) (Some v) hs ps Q.
Proof. intros Hv H. simpl. eauto. Qed.

Lemma wp_schedule self f hint g {A} (k : unit -> prog St Ev A) m hs hs' ps ps' Q :
  hs ≡ₚ (f, g) :: hs' -> ps ≡ₚ g ++ ps' -> wp self (k tt) m hs' ps' Q ->
  wp self (bind (act (Schedule f hint)) k) m hs ps Q.
Proof. intros Hh Hp H. simpl. eauto 10. Qed.

(** The lock holder's access of the fields. *)
Lemma wp_access self {A B} (a : St -> St * B * list Ev) (k : B -> prog St Ev A) v hs ps Q :
  (forall st gh, view st = v -> (exists tr P, trace_inv tr st gh (ps ++ P)) ->
    exists hs' ps', waiting st gh ++ hs ≡ₚ waiting (a st).1.1 gh ++ hs' /\
      (forall tr P, trace_inv tr st gh (ps ++ P) -> trace_inv (tr ++ (a st).2) (a st).1.1 gh (ps' ++ P)) /\
      wp self (k (a st).1.2) (Some (view (a st).1.1)) hs' ps' Q) ->
  wp self (bind (access a) k) (Some v) hs ps Q.
Proof.
  intros H. simpl. intros st gh Hv Ht. destruct (H st gh (Hv v eq_refl) Ht) as (hs' & ps' & ? & ? & ?).
  exists gh, hs', ps'. repeat split; done.
Qed.

Lemma wp_mark self e {A} (k : unit -> prog St Ev A) m hs ps ps' Q :
  (forall tr st gh P, trace_inv tr st gh (ps ++ P) -> trace_inv (tr ++ [e]) st gh (ps' ++ P)) ->
  wp self (k tt) m hs ps' Q -> wp self (bind (mark e) k) m hs ps Q.
Proof.
  intros Ht H. simpl. intros st gh Hv _. exists gh, hs, ps'. split; [done|]. split; [done|]. split; [auto|].
  destruct m as [v|]; [|done]. by rewrite (Hv v eq_refl).
Qed.

(** A suspension whose awaiter gives the handle away; the fiber goes on with
    the permissions [g]. *)
Lemma wp_suspend self g (aw : fid -> prog St Ev unit) m hs ps Q :
  wp self (aw self) m ((self, g) :: hs) ps (fun _ => ends) -> Q tt None [] g ->
  wp self (fiber_Suspend aw) m hs ps Q.
Proof.
  intros Ha Hk. simpl. exists g. split; [|done]. apply wp_bind. eapply wp_mono; [exact Ha|]. done.
Qed.

(** A loop with the invariant [J]. *)
Lemma wp_loop self {I B} (body : I -> prog St Ev (I + B)) i (J : I -> list (fid * list perm) -> list perm -> Prop)
    hs ps (Q : B -> option view_t -> list (fid * list perm) -> list perm -> Prop) :
  J i hs ps ->
  (forall i hs ps, J i hs ps -> wp self (body i) None hs ps (fun r m' hs' ps' =>
    match r with inl i' => m' = None /\ J i' hs' ps' | inr b => Q b m' hs' ps' end)) ->
  wp self (loop i body) None hs ps Q.
Proof.
  intros Hi Hb. exists (fun i m hs ps => m = None /\ J i hs ps). split; [done|].
  intros i' m hs' ps' [-> HJ]. eapply wp_mono; [by apply Hb|]. by intros [].
Qed.

(** A fiber keeps its permissions over a yield. *)
Lemma wp_yield self ps Q : Q tt None [] ps -> wp self fiber_Yield None [] ps Q.
Proof.
  intros H. apply (wp_suspend self ps); [|done]. simpl. exists ps, [], []. rewrite app_nil_r. done.
Qed.
End rules.

(** ** Mutex *)
Module FMutex.
Record FiberMutex := mkMutex { locked : bool; waiters : list fid }.

(** What clients announce: client [i] enters or leaves its critical section. *)
Inductive ev := Enter (i : nat) | Leave (i : nat).
Abbreviation code := (prog FiberMutex ev).

Definition fiber_mutex_Lock : code unit :=
  fiber_Suspend (fun handle =>
    act Lock ;>
    acquired <~ access (fun m =>
      if locked m then (mkMutex true (waiters m ++ [handle]), false, [])
      else (mkMutex true (waiters m), true, [])) ;>
    (if acquired : bool then act (Schedule handle UpToYou) else Ret tt) ;>
    act Unlock).

Definition fiber_mutex_TryLock : code bool :=
  act Lock ;>
  acquired <~ access (fun m =>
    if locked m then (m, false, []) else (mkMutex true (waiters m), true, [])) ;>
  act Unlock ;>
  Ret acquired.

Definition fiber_mutex_Unlock : code unit :=
  act Lock ;>
  next <~ access (fun m =>
    match waiters m with
    | [] => (mkMutex false [], None, [])
    | w :: ws => (mkMutex true ws, Some w, [])
    end) ;>
  match next with Some w => act (Schedule w UpToYou) | None => Ret tt end ;>
  act Unlock.

(** Clients: any number of critical sections, by [Lock] or by [TryLock], with
    yields inside and outside. *)
Inductive client_op := WithLock (yields : nat) | WithTryLock (yields : nat) | DoYield.

Fixpoint yields (n : nat) : code unit :=
  match n with 0 => Ret tt | S n => fiber_Yield ;> yields n end.

Definition section (i n : nat) : code unit :=
  mark (Enter i) ;> yields n ;> mark (Leave i) ;> fiber_mutex_Unlock.

Definition client_step (i : nat) (o : client_op) : code unit :=
  match o with
  | WithLock n => fiber_mutex_Lock ;> section i n
  | WithTryLock n => ok <~ fiber_mutex_TryLock ;> if ok : bool then section i n else Ret tt
  | DoYield => fiber_Yield
  end.

Fixpoint client (i : nat) (ops : list client_op) : code unit :=
  match ops with [] => Ret tt | o :: ops => client_step i o ;> client i ops end.

(** The client inside, as far as the events tell; [None] on a violation. *)
Fixpoint inside (tr : list ev) (o : option nat) : option (option nat) :=
  match tr with
  | [] => Some o
  | Enter i :: tr => match o with None => inside tr (Some i) | Some _ => None end
  | Leave i :: tr => match o with Some j => if decide (i = j) then inside tr None else None | None => None end
  end.

Lemma inside_app tr tr' o : inside (tr ++ tr') o = match inside tr o with Some o' => inside tr' o' | None => None end.
Proof.
  revert o. induction tr as [|[i|i] tr IH]; intros o; simpl; [done|..]; destruct o; try done.
  case_decide; done.
Qed.

(** The permission to be in the critical section. *)
Inductive mperm := Own | InCS (i : nat).

Definition cs_perm (o : option nat) : mperm := match o with None => Own | Some i => InCS i end.

Definition mutex_trace (tr : list ev) (m : FiberMutex) (P : list mperm) : Prop :=
  exists o, inside tr None = Some o /\
    if locked m then P ≡ₚ [cs_perm o] else o = None /\ P ≡ₚ [].

#[export, refine] Instance mutex_discipline : Discipline FiberMutex ev := {
  perm := mperm;
  view := fun m => m;
  obj_inv := fun m => locked m = false -> waiters m = [];
  ghost := unit;
  waiting := fun m _ => map (fun f => (f, [Own])) (waiters m);
  trace_inv := fun tr st _ P => mutex_trace tr st P;
}.
Proof. intros tr m _ P P' HP (o & Ho & Hm). exists o. split; [done|]. destruct (locked m); by rewrite <- HP. Defined.

(** Whoever holds a permission holds the only one, and the mutex is locked. *)
Lemma mutex_trace_own tr m x P :
  mutex_trace tr m ([x] ++ P) -> locked m = true /\ P = [] /\ exists o, inside tr None = Some o /\ x = cs_perm o.
Proof.
  intros (o & Ho & Hm). destruct (locked m).
  - apply Permutation_singleton_r in Hm. simplify_eq/=. eauto.
  - destruct Hm as [_ Hm]. by apply Permutation_nil_r in Hm.
Qed.

Lemma wp_Lock self Q : Q tt None [] [Own] -> wp self fiber_mutex_Lock None [] [] Q.
Proof.
  intros Hk. apply (wp_suspend (D := mutex_discipline) self [Own]); [|done].
  apply wp_lock. intros m Hinv. apply wp_access. intros m' gh Hm _. simpl in Hm. subst m'. destruct m as [[] ws]; simpl in *.
  - exists [], []. split; [rewrite map_app; solve_Permutation|]. split; [|eexists; repeat split; done].
    intros tr P. rewrite app_nil_r. done.
  - exists [(self, [Own])], [Own]. split; [done|]. split; [|exists [Own], [], []; repeat split; [done..|]; eexists; repeat split; done].
    intros tr P (o & Ho & -> & HP). rewrite app_nil_r. exists None. split; [done|]. simpl in *. by rewrite HP.
Qed.

Lemma wp_TryLock self Q :
  Q true None [] [Own] -> Q false None [] [] -> wp self fiber_mutex_TryLock None [] [] Q.
Proof.
  intros Ht Hf. apply wp_lock. intros m Hinv. apply wp_access. intros m' gh Hm _. simpl in Hm. subst m'.
  destruct m as [[] ws]; simpl in *.
  - exists [], []. split; [done|]. split; [intros tr P; by rewrite app_nil_r|]. eexists. repeat split; done.
  - exists [], [Own]. split; [done|]. split; [|eexists; repeat split; done].
    intros tr P (o & Ho & -> & HP). rewrite app_nil_r. exists None. split; [done|]. simpl in *. by rewrite HP.
Qed.

Lemma wp_Unlock self Q : Q tt None [] [] -> wp self fiber_mutex_Unlock None [] [Own] Q.
Proof.
  intros Hk. apply wp_lock. intros m Hinv. apply wp_access. intros m' gh Hm (tr0 & P0 & Hown).
  simpl in Hm. subst m'. apply mutex_trace_own in Hown as (Hl & _ & _).
  destruct m as [l [|w ws]]; simpl in *; subst l.
  - exists [], []. split; [done|]. split; [|eexists; repeat split; done].
    intros tr P (_ & -> & o & Ho & Hx)%mutex_trace_own. rewrite app_nil_r.
    exists None. destruct o; [done|]. done.
  - exists [(w, [Own])], [Own]. split; [solve_Permutation|].
    split; [intros tr P; by rewrite app_nil_r|].
    exists [Own], [], []. repeat split; [done..|]. eexists. repeat split; done.
Qed.

Lemma mutex_wp_yields self n ps Q : Q tt None [] ps -> wp self (yields n) None [] ps Q.
Proof. intros HQ. induction n as [|n IH]; [done|]. by apply wp_bind, wp_yield. Qed.

Lemma wp_section self i n : wp self (section i n) None [] [Own] (fun _ => ends).
Proof.
  apply (wp_mark (D := mutex_discipline) _ _ _ _ _ _ [InCS i]).
  { intros tr m gh P (Hl & -> & o & Ho & Hx)%mutex_trace_own. exists (Some i). rewrite inside_app, Ho.
    rewrite Hl. by destruct o. }
  apply wp_bind, mutex_wp_yields. apply (wp_mark (D := mutex_discipline) _ _ _ _ _ _ [Own]).
  { intros tr m gh P (Hl & -> & o & Ho & Hx)%mutex_trace_own. exists None. rewrite inside_app, Ho.
    rewrite Hl. destruct o; simplify_eq/=. by rewrite decide_True. }
  by apply wp_Unlock.
Qed.

Lemma mutex_wp_client self i ops : wp self (client i ops) None [] [] (fun _ => ends).
Proof.
  induction ops as [|o ops IH]; [done|]. cbn [client]. apply wp_bind.
  destruct o as [n|n|]; cbn [client_step].
  - apply wp_bind, wp_Lock. eapply wp_mono; [apply wp_section|]. by intros _ m hs ps (-> & -> & ->).
  - apply wp_bind, wp_TryLock; [|done]. eapply wp_mono; [apply wp_section|]. by intros _ m hs ps (-> & -> & ->).
  - by apply wp_yield.
Qed.

Lemma mutex_clients clients :
  clients_ok (mkMutex false []) (imap client clients) (replicate (length (imap client clients)) []) tt.
Proof.
  apply clients_ok_nil; [|done..|by exists None].
  intros f b (ops & _ & ->)%list_lookup_imap_Some. apply mutex_wp_client.
Qed.
End FMutex.

(** ** Event *)
Module FEvent.
Record FiberEvent := mkEvent { fired : bool; waiters : list fid }.

(** The event is fired; client [i] has returned from [Wait]. *)
Inductive ev := Fired | Returned (i : nat).
Abbreviation code := (prog FiberEvent ev).

Definition fiber_event_Wait : code unit :=
  fiber_Suspend (fun handle =>
    act Lock ;>
    was_fired <~ access (fun e =>
      if fired e then (e, true, []) else (mkEvent false (waiters e ++ [handle]), false, [])) ;>
    if was_fired : bool then act Unlock ;> act (Schedule handle UpToYou) else act Unlock).

(** [PopFront], and whether the list is empty after it. *)
Definition event_pop_waiter : code (option fid * bool) :=
  access (fun e =>
    match waiters e with
    | [] => (e, (None, true), [])
    | w :: ws => (mkEvent (fired e) ws, (Some w, bool_decide (ws = [])), [])
    end).

Definition event_schedule_waiter (w : option fid) : code unit :=
  match w with Some w => act (Schedule w UpToYou) | None => Ret tt end.

Definition fiber_event_Fire : code unit :=
  act Lock ;>
  access (fun e => (mkEvent true (waiters e), tt, [Fired])) ;>
  loop tt (fun _ =>
    p <~ event_pop_waiter ;>
    (if p.2 then act Unlock else Ret tt) ;>
    event_schedule_waiter p.1 ;>
    Ret (if p.2 then inr tt else inl tt)).

Inductive client_op := DoWait | DoFire | DoYield.

Definition client_step (i : nat) (o : client_op) : code unit :=
  match o with
  | DoWait => fiber_event_Wait ;> mark (Returned i)
  | DoFire => fiber_event_Fire
  | DoYield => fiber_Yield
  end.

Fixpoint client (i : nat) (ops : list client_op) : code unit :=
  match ops with [] => Ret tt | o :: ops => client_step i o ;> client i ops end.

(** Every return from [Wait] comes after the event was fired. *)
Fixpoint returns_ok (tr : list ev) (f : bool) : bool :=
  match tr with
  | [] => true
  | Fired :: tr => returns_ok tr true
  | Returned _ :: tr => f && returns_ok tr f
  end.

Definition is_fired (tr : list ev) : bool := existsb (fun e => match e with Fired => true | _ => false end) tr.

Lemma returns_ok_app tr tr' f : returns_ok (tr ++ tr') f = returns_ok tr f && returns_ok tr' (f || is_fired tr).
Proof.
  revert f. induction tr as [|[|i] tr IH]; intros f; simpl; [by rewrite orb_false_r|..].
  - by rewrite IH, orb_true_r.
  - rewrite IH. by destruct f.
Qed.

(** The permission to return from [Wait]. *)
Inductive eperm := Passed.

Definition event_trace (tr : list ev) (e : FiberEvent) (P : list eperm) : Prop :=
  returns_ok tr false = true /\ is_fired tr = fired e /\ (P <> [] -> fired e = true).

#[export, refine] Instance event_discipline : Discipline FiberEvent ev := {
  perm := eperm;
  view := fun e => e;
  obj_inv := fun e => fired e = true -> waiters e = [];
  ghost := unit;
  waiting := fun e _ => map (fun f => (f, [Passed])) (waiters e);
  trace_inv := fun tr st _ P => event_trace tr st P;
}.
Proof. intros tr e _ P P' HP (? & ? & Hf). repeat split; [done..|]. intros Hne. apply Hf. intros ->. by apply Permutation_nil_l in HP. Defined.

Lemma event_wp_Wait self Q : Q tt None [] [Passed] -> wp self fiber_event_Wait None [] [] Q.
Proof.
  intros Hk. apply (wp_suspend (D := event_discipline) self [Passed]); [|done].
  apply wp_lock. intros e Hinv. apply wp_access. intros e' gh He _. simpl in He. subst e'.
  destruct e as [[] ws]; simpl in *.
  - exists [(self, [Passed])], [Passed]. split; [done|]. split.
    + intros tr P (? & ? & ?). rewrite app_nil_r. done.
    + eexists. split; [done|]. split; [done|]. exists [Passed], [], []. done.
  - exists [], []. split; [rewrite map_app; solve_Permutation|]. split; [intros tr P; by rewrite app_nil_r|].
    eexists. done.
Qed.

Lemma wp_Fire self Q : Q tt None [] [] -> wp self fiber_event_Fire None [] [] Q.
Proof.
  intros HQ. apply wp_lock. intros e Hinv. apply wp_access. intros e' gh He _. simpl in He. subst e'.
  exists [], []. split; [done|]. split.
  { intros tr P (Hr & Hf & HP). split; [|split; [|done]]; simpl.
    - by rewrite returns_ok_app, Hr.
    - unfold is_fired. rewrite existsb_app. simpl. by rewrite orb_true_r. }
  exists (fun _ m hs ps => exists ws, m = Some (mkEvent true ws) /\ hs = [] /\ ps = []).
  split; [by exists (waiters e)|]. intros [] m hs ps (ws & -> & -> & ->).
  apply (wp_access (D := event_discipline)). intros e' gh' He' _. simpl in He'. subst e'. destruct ws as [|w ws]; simpl.
  - exists [], []. split; [done|]. split; [intros tr P; by rewrite app_nil_r|]. eexists. done.
  - exists [(w, [Passed])], [Passed]. split; [solve_Permutation|].
    split. { intros tr P (? & ? & ?). rewrite app_nil_r. done. }
    destruct ws as [|w' ws]; simpl.
    + eexists. split; [done|]. split; [done|]. exists [Passed], [], []. done.
    + exists [Passed], [], []. eauto 10.
Qed.

Lemma event_wp_client self i ops : wp self (client i ops) None [] [] (fun _ => ends).
Proof.
  induction ops as [|o ops IH]; [done|]. cbn [client]. apply wp_bind. destruct o; cbn [client_step].
  - apply wp_bind, event_wp_Wait. simpl. intros e gh _ _. exists gh, [], []. split; [done|]. split; [done|]. split; [|done].
    intros tr P (Hr & Hf & HP). assert (fired e = true) as Hfe by (by apply HP). rewrite Hfe in *. repeat split; [|..].
    + rewrite returns_ok_app, Hr, Hf. done.
    + unfold is_fired in *. rewrite existsb_app, Hf. by rewrite Hfe.
    + done.
  - by apply wp_Fire.
  - by apply wp_yield.
Qed.

Lemma event_clients clients :
  clients_ok (mkEvent false []) (imap client clients) (replicate (length (imap client clients)) []) tt.
Proof.
  apply clients_ok_nil; [|done..]. intros f b (ops & _ & ->)%list_lookup_imap_Some. apply event_wp_client.
Qed.
End FEvent.

(** ** WaitGroup *)
Module FWaitGroup.
Record FiberWaitGroup := mkWG { running : Z; waiters : list fid }.

(** [Add(n)] and [Done()] take effect; client [i] calls [Wait], returns from it. *)
Inductive ev := Added (n : nat) | Finished | WaitBegin (i : nat) | WaitEnd (i : nat).
Abbreviation code := (prog FiberWaitGroup ev).

Definition fiber_wg_Add (count : nat) : code unit :=
  act Lock ;>
  access (fun g => (mkWG (u64 (running g + Z.of_nat count)) (waiters g), tt, [Added count])) ;>
  act Unlock.

Definition wg_pop_waiter : code (option fid * bool) :=
  access (fun g =>
    match waiters g with
    | [] => (g, (None, true), [])
    | w :: ws => (mkWG (running g) ws, (Some w, bool_decide (ws = [])), [])
    end).

Definition wg_schedule_waiter (w : option fid) : code unit :=
  match w with Some w => act (Schedule w UpToYou) | None => Ret tt end.

Definition fiber_wg_Done : code unit :=
  act Lock ;>
  zero <~ access (fun g =>
    let r := u64 (running g - 1) in (mkWG r (waiters g), bool_decide (r = 0%Z), [Finished])) ;>
  if zero : bool then
    loop tt (fun _ =>
      p <~ wg_pop_waiter ;>
      (if p.2 then act Unlock else Ret tt) ;>
      wg_schedule_waiter p.1 ;>
      Ret (if p.2 then inr tt else inl tt))
  else act Unlock.

Definition fiber_wg_Wait : code unit :=
  fiber_Suspend (fun handle =>
    act Lock ;>
    zero <~ access (fun g =>
      if decide (running g = 0%Z) then (g, true, [])
      else (mkWG (running g) (waiters g ++ [handle]), false, [])) ;>
    if zero : bool then act Unlock ;> act (Schedule handle UpToYou) else act Unlock).

(** Clients: start groups of jobs ([Add] for the group, then one fiber per job,
    which yields some times and calls [Done]), then wait any number of times. *)
Fixpoint yields (n : nat) : code unit :=
  match n with 0 => Ret tt | S n => fiber_Yield ;> yields n end.

Definition job (n : nat) : code unit := yields n ;> fiber_wg_Done.

Fixpoint spawn_jobs (js : list nat) : code unit :=
  match js with [] => Ret tt | n :: js => Spawn (job n) (spawn_jobs js) end.

Fixpoint fork_groups (gs : list (list nat)) : code unit :=
  match gs with
  | [] => Ret tt
  | js :: gs => fiber_wg_Add (length js) ;> spawn_jobs js ;> fork_groups gs
  end.

Fixpoint waits (i n : nat) : code unit :=
  match n with
  | 0 => Ret tt
  | S n => mark (WaitBegin i) ;> fiber_wg_Wait ;> mark (WaitEnd i) ;> waits i n
  end.

Record client_spec := mkClient { groups : list (list nat); num_waits : nat }.

Definition client (i : nat) (c : client_spec) : code unit :=
  fork_groups (groups c) ;> waits i (num_waits c).

(** The jobs of a client, of all clients. *)
Definition jobs (c : client_spec) : nat := length (concat (groups c)).
Definition total_jobs (cs : list client_spec) : nat := length (concat (cs ≫= groups)).

(** *** What the events say *)

Definition added (tr : list ev) : nat := foldr (fun e n => match e with Added k => k + n | _ => n end) 0 tr.
Definition finished (tr : list ev) : nat := foldr (fun e n => match e with Finished => S n | _ => n end) 0 tr.
(** All added work is done. *)
Definition balanced (tr : list ev) : Prop := added tr = finished tr.

(** Client [i] has called [Wait] (the last call is meant). *)
Definition begun (tr : list ev) (i : nat) : Prop :=
  exists a b, tr = a ++ WaitBegin i :: b /\ WaitBegin i ∉ b.
(** ... and since then there was a moment when all work was done. *)
Definition passed (tr : list ev) (i : nat) : Prop :=
  exists a b c, tr = (a ++ WaitBegin i :: b) ++ c /\ WaitBegin i ∉ b ++ c /\ balanced (a ++ WaitBegin i :: b).
Definition waits_ok (tr : list ev) : Prop :=
  forall a i b, tr = a ++ WaitEnd i :: b -> passed a i.

Lemma added_app tr tr' : added (tr ++ tr') = added tr + added tr'.
Proof. unfold added. induction tr as [|[] tr IH]; simpl; lia. Qed.
Lemma finished_app tr tr' : finished (tr ++ tr') = finished tr + finished tr'.
Proof. unfold finished. induction tr as [|[] tr IH]; simpl; lia. Qed.

Lemma begun_snoc tr e i : begun tr i -> e <> WaitBegin i -> begun (tr ++ [e]) i.
Proof.
  intros (a & b & -> & Hb) He. exists a, (b ++ [e]). rewrite <- app_assoc. split; [done|]. set_solver.
Qed.
Lemma passed_snoc tr e i : passed tr i -> e <> WaitBegin i -> passed (tr ++ [e]) i.
Proof.
  intros (a & b & c & -> & Hb & Hbal) He. exists a, b, (c ++ [e]). rewrite <- !app_assoc. split; [done|].
  split; [set_solver|done].
Qed.
Lemma begun_passed tr i : begun tr i -> balanced tr -> passed tr i.
Proof. intros (a & b & -> & Hb) Hbal. exists a, b, []. rewrite !app_nil_r. done. Qed.
Lemma waits_ok_snoc tr e :
  waits_ok tr -> (forall i, e = WaitEnd i -> passed tr i) -> waits_ok (tr ++ [e]).
Proof.
  intros Hw He a i b Heq. destruct b as [|x b] using rev_ind.
  - apply app_inj_tail in Heq as [-> ->]. by apply He.
  - clear IHb. rewrite app_comm_cons, app_assoc in Heq. apply app_inj_tail in Heq as [-> _]. by eapply Hw.
Qed.

(** *** Permissions: to add one unit of work, the obligation to finish one, and
    where client [i] stands. *)
Inductive wperm := Credit | Work | Idle (i : nat) | Begun (i : nat) | Passed (i : nat).
#[export] Instance wperm_eq_dec : EqDecision wperm.
Proof. solve_decision. Defined.

Definition client_of (p : wperm) : option nat :=
  match p with Idle i | Begun i | Passed i => Some i | _ => None end.
Definition count (p : wperm) (P : list wperm) : nat := length (filter (.= p) P).

Record wg_trace (N : nat) (tr : list ev) (g : FiberWaitGroup) (P : list wperm) : Prop := {
  wt_one : base.NoDup (omap client_of P ++ waiters g);
  wt_count : added tr = finished tr + count Work P;
  wt_running : running g = Z.of_nat (count Work P);
  wt_bound : count Work P + count Credit P <= N;
  wt_begun : forall i, i ∈ waiters g \/ Begun i ∈ P -> begun tr i;
  wt_passed : forall i, Passed i ∈ P -> passed tr i;
  wt_waits : waits_ok tr;
}.

Lemma count_app p P P' : count p (P ++ P') = count p P + count p P'.
Proof. unfold count. by rewrite list.filter_app, length_app. Qed.
Lemma count_cons p q P : count p (q :: P) = (if decide (q = p) then 1 else 0) + count p P.
Proof. unfold count. rewrite list.filter_cons. by case_decide. Qed.
Lemma count_replicate p q n : count p (replicate n q) = if decide (q = p) then n else 0.
Proof. induction n as [|n IH]; simpl; [by case_decide|]. rewrite count_cons, IH. by case_decide. Qed.
Lemma client_of_replicate q n : client_of q = None -> omap client_of (replicate n q) = [].
Proof. intros H. induction n as [|n IH]; [done|]. simpl. by rewrite H. Qed.
#[export] Instance count_proper p : Proper (Permutation ==> eq) (count p).
Proof. intros P P' HP. unfold count. by rewrite HP. Qed.

Lemma wg_trace_perm N tr g P P' : P ≡ₚ P' -> wg_trace N tr g P -> wg_trace N tr g P'.
Proof.
  intros HP [H1 H2 H3 H4 H5 H6 H7]. split; try done.
  - by rewrite <- HP.
  - by rewrite <- HP.
  - by rewrite <- HP.
  - by rewrite <- !HP.
  - intros i. rewrite <- HP. apply H5.
  - intros i. rewrite <- HP. apply H6.
Qed.

(** *** How the methods and the marks move the permissions *)
Section moves.
Context (N : nat) (HN : (Z.of_nat N < 2^64)%Z).

Local Ltac counts := rewrite ?count_app, ?count_cons, ?count_replicate in *; repeat case_decide; simplify_eq/=.

Lemma trace_add n tr g P :
  wg_trace N tr g (replicate n Credit ++ P) ->
  wg_trace N (tr ++ [Added n]) (mkWG (u64 (running g + Z.of_nat n)) (waiters g)) (replicate n Work ++ P).
Proof.
  intros [H1 H2 H3 H4 H5 H6 H7]. rewrite omap_app, client_of_replicate in H1 by done.
  counts. split; cbn [running waiters]; counts.
  - by rewrite omap_app, client_of_replicate.
  - rewrite added_app, finished_app. simpl. lia.
  - rewrite u64_id; lia.
  - lia.
  - intros i Hi. apply begun_snoc; [|done]. apply H5.
    destruct Hi as [?|[Hi|?]%elem_of_app]; [by left|by apply elem_of_replicate in Hi as [? _]|set_solver].
  - intros i Hi. apply passed_snoc; [|done]. apply H6. apply elem_of_app in Hi as [Hi|]; [|set_solver].
    by apply elem_of_replicate in Hi as [? _].
  - by apply waits_ok_snoc.
Qed.

Lemma trace_done tr g P :
  wg_trace N tr g (Work :: P) ->
  wg_trace N (tr ++ [Finished]) (mkWG (u64 (running g - 1)) (waiters g)) P /\ (1 <= running g < 2^64)%Z.
Proof.
  intros [H1 H2 H3 H4 H5 H6 H7]. counts. split; [|lia]. split; cbn [running waiters].
  - done.
  - rewrite added_app, finished_app. simpl. lia.
  - rewrite u64_id; lia.
  - lia.
  - intros i Hi. apply begun_snoc; [|done]. apply H5. set_solver.
  - intros i Hi. apply passed_snoc; [|done]. apply H6. set_solver.
  - by apply waits_ok_snoc.
Qed.

Lemma trace_begin i tr g P :
  wg_trace N tr g (Idle i :: P) -> wg_trace N (tr ++ [WaitBegin i]) g (Begun i :: P).
Proof.
  intros [H1 H2 H3 H4 H5 H6 H7]. counts. simpl in H1. apply list.NoDup_cons in H1 as [Hni H1].
  split; counts; try done.
  - by apply list.NoDup_cons.
  - rewrite added_app, finished_app. simpl. lia.
  - intros j Hj. destruct (decide (j = i)) as [->|Hne]; [by exists tr, []; split; [done|set_solver]|].
    apply begun_snoc; [|congruence]. apply H5. set_solver.
  - intros j Hj. assert (Passed j ∈ P) as Hp by set_solver. apply passed_snoc; [apply H6; set_solver|].
    intros [= ->]. apply Hni, elem_of_app. left. apply list_elem_of_omap. by exists (Passed j).
  - by apply waits_ok_snoc.
Qed.

Lemma trace_end i tr g P :
  wg_trace N tr g (Passed i :: P) -> wg_trace N (tr ++ [WaitEnd i]) g (Idle i :: P).
Proof.
  intros [H1 H2 H3 H4 H5 H6 H7]. counts. split; counts; try done.
  - rewrite added_app, finished_app. simpl. lia.
  - intros j Hj. apply begun_snoc; [|done]. apply H5. set_solver.
  - intros j Hj. apply passed_snoc; [|done]. apply H6. set_solver.
  - apply waits_ok_snoc; [done|]. intros j [= ->]. apply H6. set_solver.
Qed.

Lemma trace_push i tr r ws P :
  wg_trace N tr (mkWG r ws) (Begun i :: P) -> wg_trace N tr (mkWG r (ws ++ [i])) P.
Proof.
  intros [H1 H2 H3 H4 H5 H6 H7]. counts. split; cbn [running waiters] in *; try done.
  - simpl in H1. assert (omap client_of P ++ ws ++ [i] ≡ₚ i :: omap client_of P ++ ws) as -> by solve_Permutation. done.
  - intros j Hj. apply H5. set_solver.
  - intros j Hj. apply H6. set_solver.
Qed.

Lemma trace_drop i tr g P : wg_trace N tr g (Idle i :: P) -> wg_trace N tr g P.
Proof.
  intros [H1 H2 H3 H4 H5 H6 H7]. counts. split; try done.
  - by apply list.NoDup_cons in H1 as [_ ?].
  - intros j Hj. apply H5. set_solver.
  - intros j Hj. apply H6. set_solver.
Qed.

Lemma trace_balanced tr g P : wg_trace N tr g P -> running g = 0%Z -> balanced tr.
Proof. intros [_ H2 H3 _ _ _ _] Hr. unfold balanced. lia. Qed.

Lemma trace_zero i tr g P :
  wg_trace N tr g (Begun i :: P) -> running g = 0%Z -> wg_trace N tr g (Passed i :: P).
Proof.
  intros Ht Hr. pose proof (trace_balanced _ _ _ Ht Hr) as Hb. destruct Ht as [H1 H2 H3 H4 H5 H6 H7].
  counts. split; counts; try done.
  - intros j Hj. apply H5. set_solver.
  - intros j Hj. destruct (decide (j = i)) as [->|Hne]; [|apply H6; set_solver].
    apply begun_passed; [|done]. apply H5. set_solver.
Qed.

Lemma trace_pop w tr r ws P :
  wg_trace N tr (mkWG r (w :: ws)) P -> r = 0%Z -> wg_trace N tr (mkWG r ws) (Passed w :: P).
Proof.
  intros Ht Hr. pose proof (trace_balanced _ _ _ Ht Hr) as Hb. destruct Ht as [H1 H2 H3 H4 H5 H6 H7].
  split; cbn [running waiters] in *; counts; try done.
  - assert (w :: omap client_of P ++ ws ≡ₚ omap client_of P ++ w :: ws) as -> by solve_Permutation. done.
  - intros j Hj. apply H5. set_solver.
  - intros j Hj. apply elem_of_cons in Hj as [[= ->]|Hj]; [|by apply H6].
    apply begun_passed; [|done]. apply H5. set_solver.
Qed.
End moves.

(** *** Specifications *)
Section specs.
Context (N : nat) (HN : (Z.of_nat N < 2^64)%Z).

#[local, refine] Instance wg_discipline : Discipline FiberWaitGroup ev := {
  perm := wperm;
  view := fun g => g;
  obj_inv := fun g => running g = 0%Z -> waiters g = [];
  ghost := unit;
  waiting := fun g _ => map (fun f => (f, [Passed f])) (waiters g);
  trace_inv := fun tr st _ P => wg_trace N tr st P;
}.
Proof. intros. by eapply wg_trace_perm. Defined.

Lemma wp_Add self n ps Q :
  Q tt None [] (replicate n Work ++ ps) -> wp self (fiber_wg_Add n) None [] (replicate n Credit ++ ps) Q.
Proof.
  intros HQ. apply wp_lock. intros g Hinv. apply wp_access. intros g' gh Hg (tr0 & P0 & H0).
  simpl in Hg. subst g'. exists [], (replicate n Work ++ ps). split; [done|]. split.
  { intros tr P Ht. simpl in *. rewrite <- app_assoc in *. by apply trace_add. }
  eexists. split; [done|]. split; [|exact HQ]. simpl. intros Hz. apply Hinv.
  rewrite <- app_assoc in H0. destruct H0 as [_ _ H3 H4 _ _ _].
  rewrite !count_app, count_replicate, decide_False in H3 by done.
  rewrite !count_app, !count_replicate, decide_False, decide_True in H4 by done.
  rewrite u64_id in Hz; lia.
Qed.

(** The wake-up loop of [Done], entered with the counter at zero. *)
Lemma wp_wake_loop self ws Q :
  Q tt None [] [] ->
  wp self (loop tt (fun _ => p <~ wg_pop_waiter ;> (if p.2 then act Unlock else Ret tt) ;>
                     wg_schedule_waiter p.1 ;> Ret (if p.2 then inr tt else inl tt)))
    (Some (mkWG 0 ws)) [] [] Q.
Proof.
  intros HQ. exists (fun _ m hs ps => exists ws, m = Some (mkWG 0 ws) /\ hs = [] /\ ps = []).
  split; [by exists ws|]. clear ws. intros [] m hs ps (ws & -> & -> & ->).
  apply (wp_access (D := wg_discipline)). intros g' gh Hg _. simpl in Hg. subst g'. destruct ws as [|w ws]; simpl.
  - exists [], []. split; [done|]. split; [intros tr P; by rewrite app_nil_r|]. eexists. done.
  - exists [(w, [Passed w])], [Passed w]. split; [solve_Permutation|].
    split. { intros tr P Ht. rewrite app_nil_r. by apply trace_pop. }
    destruct ws as [|w' ws]; simpl.
    + eexists. split; [done|]. split; [done|]. exists [Passed w], [], []. done.
    + exists [Passed w], [], []. eauto 10.
Qed.

Lemma wp_Done self Q : Q tt None [] [] -> wp self fiber_wg_Done None [] [Work] Q.
Proof.
  intros HQ. apply wp_lock. intros g Hinv. apply wp_access. intros g' gh Hg _. simpl in Hg. subst g'.
  exists [], []. split; [done|]. split.
  { intros tr P Ht. by apply trace_done. }
  cbn [fst snd view]. case_bool_decide as Hz.
  - rewrite Hz. by apply wp_wake_loop.
  - eexists. split; [done|]. split; [|done]. intros Hr. by destruct Hz.
Qed.

Lemma wg_wp_Wait self Q : Q tt None [] [Passed self] -> wp self fiber_wg_Wait None [] [Begun self] Q.
Proof.
  intros HQ. apply (wp_suspend (D := wg_discipline) self [Passed self]); [|done].
  apply wp_lock. intros g Hinv. apply wp_access. intros g' gh Hg _. simpl in Hg. subst g'.
  case_decide as Hz; simpl.
  - exists [(self, [Passed self])], [Passed self]. split; [done|]. split.
    + intros tr P Ht. rewrite app_nil_r. by apply trace_zero.
    + eexists. split; [done|]. split; [done|]. exists [Passed self], [], []. done.
  - exists [], []. split; [rewrite map_app; solve_Permutation|]. split.
    + intros tr P Ht. rewrite app_nil_r. apply trace_push; [done|]. by destruct g.
    + eexists. done.
Qed.

Lemma wg_wp_yields self n ps Q : Q tt None [] ps -> wp self (yields n) None [] ps Q.
Proof. intros HQ. induction n as [|n IH]; [done|]. by apply wp_bind, wp_yield. Qed.

Lemma wp_job self n : wp self (job n) None [] [Work] (fun _ => ends).
Proof. apply wp_bind, wg_wp_yields. by apply wp_Done. Qed.

Lemma wp_spawn_jobs self js ps Q :
  Q tt None [] ps -> wp self (spawn_jobs js) None [] (replicate (length js) Work ++ ps) Q.
Proof.
  intros HQ. induction js as [|n js IH]; [done|]. exists [Work], (replicate (length js) Work ++ ps).
  split; [done|]. split; [intros; apply wp_job|done].
Qed.

Lemma wp_fork_groups self gs ps Q :
  Q tt None [] ps -> wp self (fork_groups gs) None [] (replicate (length (concat gs)) Credit ++ ps) Q.
Proof.
  intros HQ. induction gs as [|js gs IH]; [done|]. cbn [fork_groups concat].
  rewrite length_app, replicate_add, <- app_assoc. apply wp_bind, wp_Add, wp_bind, wp_spawn_jobs. done.
Qed.

(** A client with waits to come holds the permission to begin one. *)
Definition idle (i n : nat) : list wperm := match n with 0 => [] | S _ => [Idle i] end.

Lemma wp_waits self n : wp self (waits self n) None [] (idle self n) (fun _ => ends).
Proof.
  induction n as [|n IH]; [done|].
  apply (wp_mark (D := wg_discipline) _ _ _ _ _ _ [Begun self]). { intros tr st gh P. by apply trace_begin. }
  apply wp_bind, wg_wp_Wait.
  apply (wp_mark (D := wg_discipline) _ _ _ _ _ _ (idle self n)); [|done].
  intros tr st gh P Ht%trace_end; [|done]. destruct n; [|done]. simpl in *. by apply (trace_drop _ HN self).
Qed.

Lemma wg_wp_client self c :
  wp self (client self c) None [] (replicate (jobs c) Credit ++ idle self (num_waits c)) (fun _ => ends).
Proof. apply wp_bind, wp_fork_groups, wp_waits. Qed.

End specs.

(** What the clients start with. *)
Fixpoint grants (k : nat) (cs : list client_spec) : list (list wperm) :=
  match cs with
  | [] => []
  | c :: cs => (replicate (jobs c) Credit ++ idle k (num_waits c)) :: grants (S k) cs
  end.

Lemma grants_lookup k cs i c : cs !! i = Some c ->
  grants k cs !! i = Some (replicate (jobs c) Credit ++ idle (k + i) (num_waits c)).
Proof.
  revert k i. induction cs as [|c' cs IH]; intros k [|i] Hi; simplify_eq/=.
  - by rewrite Nat.add_0_r.
  - rewrite (IH (S k) _ Hi). by rewrite Nat.add_succ_r.
Qed.

Lemma grants_length k cs : length (grants k cs) = length cs.
Proof. revert k. induction cs as [|c cs IH]; intros k; simpl; [done|]. by rewrite IH. Qed.

Lemma grants_clients k cs : omap client_of (concat (grants k cs)) `sublist_of` seq k (length cs).
Proof.
  revert k. induction cs as [|c cs IH]; intros k; simpl; [done|].
  rewrite !omap_app, client_of_replicate by done. destruct (num_waits c); simpl.
  - by apply sublist_cons.
  - by apply sublist_skip.
Qed.

Lemma grants_kind k cs p : p ∈ concat (grants k cs) -> p = Credit \/ exists i, p = Idle i.
Proof.
  revert k. induction cs as [|c cs IH]; intros k; simpl; [set_solver|].
  rewrite !elem_of_app, elem_of_replicate. intros [[[-> _]|Hi]|Hp]; [by left| |by eapply IH].
  destruct (num_waits c); simpl in Hi; [set_solver|]. apply list_elem_of_singleton in Hi as ->. eauto.
Qed.

Lemma count_idle p k n : client_of p = None -> count p (idle k n) = 0.
Proof. intros Hp. destruct n; [done|]. simpl. rewrite count_cons, decide_False; [done|]. by intros <-. Qed.

Lemma grants_count k cs :
  count Credit (concat (grants k cs)) = total_jobs cs /\ count Work (concat (grants k cs)) = 0.
Proof.
  revert k. induction cs as [|c cs IH]; intros k; [done|]. cbn [grants concat].
  destruct (IH (S k)) as [IHc IHw].
  rewrite !count_app, !count_idle, !count_replicate by done. rewrite decide_True, decide_False by done.
  unfold total_jobs, jobs in *. cbn [mbind list_bind]. rewrite concat_app, length_app. lia.
Qed.

Lemma wg_trace_init cs : wg_trace (total_jobs cs) [] (mkWG 0 []) (concat (grants 0 cs)).
Proof.
  destruct (grants_count 0 cs) as [Hc Hw]. split; cbn [running waiters]; rewrite ?Hc, ?Hw; try done || lia.
  - rewrite app_nil_r. eapply sublist_NoDup; [apply NoDup_seq|apply grants_clients].
  - intros i [Hi|[?|[? ?]]%grants_kind]; [set_solver|done..].
  - intros i [?|[? ?]]%grants_kind; done.
  - intros a i b Ha. by destruct a.
Qed.

Lemma wg_clients cs : (Z.of_nat (total_jobs cs) < 2^64)%Z ->
  clients_ok (D := wg_discipline (total_jobs cs)) (mkWG 0 []) (imap client cs) (grants 0 cs) tt.
Proof.
  intros HN. split; [by rewrite grants_length, length_imap| |done..|apply wg_trace_init].
  intros f b g (c & Hc & ->)%list_lookup_imap_Some Hg. apply (eq_trans (eq_sym (grants_lookup 0 _ _ _ Hc))) in Hg.
  injection Hg as <-. by apply wg_wp_client.
Qed.
End FWaitGroup.

(** C32: Fibers that use the mutex in any way ([Lock], [TryLock], with
    suspensions inside the critical section) are never two in the critical
    section, on any number of workers; and when nothing runs and nothing is
    scheduled any more, every fiber has completed: nobody waits for ever. *)
Theorem fiber_mutex_correct M (clients : list (list FMutex.client_op)) tr c :
  fsteps M (Go_all (FMutex.mkMutex false []) (imap FMutex.client clients)) tr c ->
  FMutex.inside (user (map snd tr)) None <> None /\
  (quiescent M c -> completed (map snd tr) ≡ₚ seq 0 (fs_next (sh c))).
Proof.
  intros Hs. pose proof (FMutex.mutex_clients clients) as Hc. split.
  - destruct (trace_holds _ _ _ _ _ _ _ Hc Hs) as (_ & P & o & -> & _). done.
  - intros Hq. destruct (quiescent_waiting _ _ _ _ _ _ _ Hc Hs Hq) as (Hinv & gh & (o & _ & Hm) & <-).
    simpl in *. destruct (FMutex.locked _); [by apply Permutation_nil_l in Hm|]. by rewrite Hinv, app_nil_r.
Qed.

(** [Wait] returns only after [Fire], and [Fire] wakes every waiter: when
    nothing runs and nothing is scheduled and the event was fired, every fiber
    has completed. *)
Theorem fiber_event_correct M (clients : list (list FEvent.client_op)) tr c :
  fsteps M (Go_all (FEvent.mkEvent false []) (imap FEvent.client clients)) tr c ->
  FEvent.returns_ok (user (map snd tr)) false = true /\
  (quiescent M c -> FEvent.Fired ∈ user (map snd tr) -> completed (map snd tr) ≡ₚ seq 0 (fs_next (sh c))).
Proof.
  intros Hs. pose proof (FEvent.event_clients clients) as Hc. split.
  - by destruct (trace_holds _ _ _ _ _ _ _ Hc Hs) as (_ & P & ? & _).
  - intros Hq Hin. destruct (quiescent_waiting _ _ _ _ _ _ _ Hc Hs Hq) as (Hinv & gh & (_ & Hf & _) & <-).
    simpl in *. rewrite Hinv; [by rewrite app_nil_r|]. rewrite <- Hf. apply existsb_exists.
    exists FEvent.Fired. split; [|done]. by apply list_elem_of_In.
Qed.

(** With fewer than 2^64 jobs in all, the wait group's counter is the number
    of added and unfinished units of work (it never wraps around); a [Wait] returns
    only if there was a moment since its call when all added work was done; and
    when nothing runs and nothing is scheduled any more, every fiber has completed. *)
Theorem fiber_wait_group_correct M (clients : list FWaitGroup.client_spec) tr c :
  (Z.of_nat (FWaitGroup.total_jobs clients) < 2^64)%Z ->
  fsteps M (Go_all (FWaitGroup.mkWG 0 []) (imap FWaitGroup.client clients)) tr c ->
  let evs := user (map snd tr) in
  (FWaitGroup.running (fs_st (sh c)) + Z.of_nat (FWaitGroup.finished evs) = Z.of_nat (FWaitGroup.added evs))%Z /\
  FWaitGroup.waits_ok evs /\
  (quiescent M c -> completed (map snd tr) ≡ₚ seq 0 (fs_next (sh c))).
Proof.
  intros HN Hs evs. pose proof (FWaitGroup.wg_clients clients HN) as Hc. split; [|split].
  - destruct (trace_holds _ _ _ _ _ _ _ Hc Hs) as (gh & P & Ht). destruct Ht as [_ Ha Hr _ _ _ _]. subst evs. lia.
  - destruct (trace_holds _ _ _ _ _ _ _ Hc Hs) as (gh & P & Ht). by destruct Ht.
  - intros Hq. destruct (quiescent_waiting _ _ _ _ _ _ _ Hc Hs Hq) as (Hinv & gh & Ht & <-).
    simpl in *. rewrite Hinv; [by rewrite app_nil_r|]. by destruct Ht as [_ _ -> _ _ _ _].
Qed.

(** *** Runs *)

(** Two workers. *)
Definition two_workers (n : nat) : list tid := concat (replicate n [0; 1]).

Definition fiber_mutex_demo := [[FMutex.WithLock 1]; [FMutex.WithLock 0; FMutex.DoYield]; [FMutex.WithTryLock 1]].

Lemma fiber_mutex_correct_witness :
  exists tr c, fsteps 2 (Go_all (FMutex.mkMutex false []) (imap FMutex.client fiber_mutex_demo)) tr c /\
    user (map snd tr) = [FMutex.Enter 0; FMutex.Leave 0; FMutex.Enter 1; FMutex.Leave 1] /\
    FMutex.inside (user (map snd tr)) None <> None /\ completed (map snd tr) ≡ₚ seq 0 (fs_next (sh c)).
Proof.
  pose (r := drive (two_workers 30) (Go_all (FMutex.mkMutex false []) (imap FMutex.client fiber_mutex_demo))).
  assert (Hs : fsteps 2 (Go_all (FMutex.mkMutex false []) (imap FMutex.client fiber_mutex_demo)) r.2 r.1)
    by (apply drive_run; reflexivity).
  exists r.2, r.1. split; [exact Hs|]. split; [vm_compute; reflexivity|].
  destruct (fiber_mutex_correct 2 fiber_mutex_demo _ _ Hs) as [H1 H2]. split; [exact H1|]. apply H2.
  split; [|vm_compute; reflexivity]. intros [|[|w]] Hw; [vm_compute; reflexivity..|lia].
Defined.

Definition fiber_event_demo :=
  [[FEvent.DoWait]; [FEvent.DoWait]; [FEvent.DoYield; FEvent.DoFire; FEvent.DoWait]].

Lemma fiber_event_correct_witness :
  exists tr c, fsteps 2 (Go_all (FEvent.mkEvent false []) (imap FEvent.client fiber_event_demo)) tr c /\
    FEvent.returns_ok (user (map snd tr)) false = true /\ FEvent.Returned 1 ∈ user (map snd tr) /\
    completed (map snd tr) ≡ₚ seq 0 (fs_next (sh c)).
Proof.
  pose (r := drive (two_workers 40) (Go_all (FEvent.mkEvent false []) (imap FEvent.client fiber_event_demo))).
  assert (Hs : fsteps 2 (Go_all (FEvent.mkEvent false []) (imap FEvent.client fiber_event_demo)) r.2 r.1)
    by (apply drive_run; reflexivity).
  exists r.2, r.1. split; [exact Hs|].
  destruct (fiber_event_correct 2 fiber_event_demo _ _ Hs) as [H1 H2]. split; [exact H1|].
  split; [apply list_elem_of_In; vm_compute; tauto|]. apply H2.
  - split; [|vm_compute; reflexivity]. intros [|[|w]] Hw; [vm_compute; reflexivity..|lia].
  - apply list_elem_of_In. vm_compute. tauto.
Defined.

Definition fiber_wait_group_demo := [FWaitGroup.mkClient [[1; 2]; [0]] 2; FWaitGroup.mkClient [] 1].

Lemma fiber_wait_group_correct_witness :
  exists tr c, fsteps 2 (Go_all (FWaitGroup.mkWG 0 []) (imap FWaitGroup.client fiber_wait_group_demo)) tr c /\
    FWaitGroup.added (user (map snd tr)) = 3 /\ FWaitGroup.waits_ok (user (map snd tr)) /\
    FWaitGroup.WaitEnd 0 ∈ user (map snd tr) /\ completed (map snd tr) ≡ₚ seq 0 (fs_next (sh c)).
Proof.
  pose (r := drive (two_workers 60) (Go_all (FWaitGroup.mkWG 0 []) (imap FWaitGroup.client fiber_wait_group_demo))).
  assert (Hs : fsteps 2 (Go_all (FWaitGroup.mkWG 0 []) (imap FWaitGroup.client fiber_wait_group_demo)) r.2 r.1)
    by (apply drive_run; reflexivity).
  exists r.2, r.1. split; [exact Hs|]. split; [vm_compute; reflexivity|].
  destruct (fiber_wait_group_correct 2 fiber_wait_group_demo _ _ ltac:(vm_compute; reflexivity) Hs) as (_ & H1 & H2).
  split; [exact H1|]. split; [apply list_elem_of_In; vm_compute; tauto|]. apply H2.
  split; [|vm_compute; reflexivity]. intros [|[|w]] Hw; [vm_compute; reflexivity..|lia].
Defined.
