(* ===== verification/Channel.v ===== *)
(** The buffered channel of fibers: src/src/exe/fiber/sync/channel/buffered.hpp.

    The ring buffer of [capacity + 1] slots, the lists of suspended senders and
    receivers, and [Send] and [Recv] as fiber programs.  The ring is shown to
    represent a bounded queue; the program logic of Fiber.v lifts this to all
    interleavings of any number of clients. *)

From S2P Require Import Prelude Conc Task Fiber FiberSync.
Local Open Scope fiber_scope.

Abbreviation value := nat (only parsing).

Record Chan := mkChan {
  senders : list fid;
  recvs : list fid;
  head : nat;
  tail : nat;
  data : list value;
}.

Inductive chan_ev := Sent (v : value) | Received (v : value).

Section channel.
Context (capacity : nat).

(** ** The ring *)

(** The slots are [0 .. capacity]; [size_t] does not wrap as long as
    [capacity + 1] fits. *)
Definition chan_Next (ptr : nat) : nat := (ptr + 1) mod (capacity + 1).
Definition chan_IsEmpty (c : Chan) : bool := bool_decide (tail c = head c).
Definition chan_IsFull (c : Chan) : bool := bool_decide (chan_Next (tail c) = head c).

(** [emplace_back] while the vector grows, [Place] afterwards; then [tail_]. *)
Definition chan_put (c : Chan) (v : value) : Chan :=
  mkChan (senders c) (recvs c) (head c) (chan_Next (tail c))
    (if decide (length (data c) < capacity + 1) then data c ++ [v] else <[tail c := v]> (data c)).

(** [std::move(data_[head_])]; then [head_].  ([0] stands for a read outside the
    vector, which does not happen.) *)
Definition chan_get (c : Chan) : Chan * value :=
  (mkChan (senders c) (recvs c) (chan_Next (head c)) (tail c) (data c), nth (head c) (data c) 0).

Definition push_sender (f : fid) (c : Chan) : Chan :=
  mkChan (senders c ++ [f]) (recvs c) (head c) (tail c) (data c).
Definition push_recv (f : fid) (c : Chan) : Chan :=
  mkChan (senders c) (recvs c ++ [f]) (head c) (tail c) (data c).
(** [if (recvs_.NonEmpty()) recvs_.PopFront()] *)
Definition pop_recv (c : Chan) : Chan * option fid :=
  (mkChan (senders c) (List.tl (recvs c)) (head c) (tail c) (data c), hd_error (recvs c)).
Definition pop_sender (c : Chan) : Chan * option fid :=
  (mkChan (List.tl (senders c)) (recvs c) (head c) (tail c) (data c), hd_error (senders c)).

(** ** Send and Recv *)
Abbreviation code := (prog Chan chan_ev).

(** [while (cond()) { Suspend(push; unlock); lock; }], entered with the lock. *)
Definition wait_while (cond : Chan -> bool) (push : fid -> Chan -> Chan) : code unit :=
  loop tt (fun _ =>
    blocked <~ access (fun c => (c, cond c, [])) ;>
    if blocked : bool then
      fiber_Suspend (fun handle =>
        access (fun c => (push handle c, tt, [])) ;>
        act Unlock) ;>
      act Lock ;>
      Ret (inl tt)
    else Ret (inr tt)).

Definition wake (w : option fid) : code unit :=
  match w with Some w => act (Schedule w Next) | None => Ret tt end.

Definition chan_Send (v : value) : code unit :=
  act Lock ;>
  wait_while chan_IsFull push_sender ;>
  w <~ access (fun c => let '(c', w) := pop_recv (chan_put c v) in (c', w, [Sent v])) ;>
  wake w ;>
  act Unlock.

Definition chan_Recv : code value :=
  act Lock ;>
  wait_while chan_IsEmpty push_recv ;>
  r <~ access (fun c =>
    let '(c1, v) := chan_get c in let '(c2, w) := pop_sender c1 in (c2, (v, w), [Received v])) ;>
  wake r.2 ;>
  act Unlock ;>
  Ret r.1.

(** Clients: any sequence of sends and receives. *)
Inductive chan_op := DoSend (v : value) | DoRecv | DoYield.

Definition chan_client_step (o : chan_op) : code unit :=
  match o with
  | DoSend v => chan_Send v
  | DoRecv => chan_Recv ;> Ret tt
  | DoYield => fiber_Yield
  end.

Fixpoint chan_client (ops : list chan_op) : code unit :=
  match ops with [] => Ret tt | o :: ops => chan_client_step o ;> chan_client ops end.

(** [BufferedChannel(capacity)] *)
Definition new_chan : Chan := mkChan [] [] 0 0 [].

(** ** The ring represents a queue *)

Definition size (c : Chan) : nat := (tail c + (capacity + 1) - head c) mod (capacity + 1).

Definition slot (c : Chan) (k : nat) : nat := (head c + k) mod (capacity + 1).

Definition contents (c : Chan) : list value :=
  map (fun k => nth (slot c k) (data c) 0) (seq 0 (size c)).

Record ring_ok (c : Chan) : Prop := {
  ro_head : head c < capacity + 1;
  ro_tail : tail c < capacity + 1;
  ro_len : length (data c) <= capacity + 1;
  (** while the vector grows it has no gaps *)
  ro_grow : length (data c) < capacity + 1 -> tail c = length (data c) /\ head c <= tail c;
}.

Lemma size_cases c : ring_ok c ->
  size c = if decide (head c <= tail c) then tail c - head c else tail c + (capacity + 1) - head c.
Proof.
  intros [Hh Ht _ _]. unfold size. case_decide.
  - replace (tail c + (capacity + 1) - head c) with (tail c - head c + 1 * (capacity + 1)) by lia.
    rewrite Nat.Div0.mod_add. apply Nat.mod_small. lia.
  - apply Nat.mod_small. lia.
Qed.

Lemma next_cases p : p < capacity + 1 -> chan_Next p = if decide (p = capacity) then 0 else p + 1.
Proof.
  intros Hp. unfold chan_Next. case_decide as E.
  - subst p. apply Nat.Div0.mod_same.
  - apply Nat.mod_small. lia.
Qed.

Lemma slot_cases c k : ring_ok c -> k < capacity + 1 ->
  slot c k = if decide (head c + k < capacity + 1) then head c + k else head c + k - (capacity + 1).
Proof.
  intros [Hh _ _ _] Hk. unfold slot. case_decide; [by apply Nat.mod_small|].
  replace (head c + k) with (head c + k - (capacity + 1) + 1 * (capacity + 1)) at 1 by lia.
  rewrite Nat.Div0.mod_add. apply Nat.mod_small. lia.
Qed.

Lemma size_le c : ring_ok c -> size c <= capacity.
Proof. intros Hok. rewrite size_cases by done. destruct Hok. case_decide; lia. Qed.

Lemma length_contents c : length (contents c) = size c.
Proof. unfold contents. by rewrite length_map, length_seq. Qed.

Lemma is_empty_spec c : ring_ok c -> chan_IsEmpty c = bool_decide (size c = 0).
Proof.
  intros Hok. unfold chan_IsEmpty. apply bool_decide_ext. rewrite size_cases by done.
  destruct Hok. case_decide; lia.
Qed.

Lemma is_full_spec c : ring_ok c -> chan_IsFull c = bool_decide (size c = capacity).
Proof.
  intros Hok. unfold chan_IsFull. apply bool_decide_ext. rewrite size_cases by done.
  destruct Hok. rewrite next_cases by done. repeat case_decide; lia.
Qed.

Lemma put_ok c v : ring_ok c -> size c <> capacity ->
  ring_ok (chan_put c v) /\ contents (chan_put c v) = contents c ++ [v].
Proof.
  intros Hok Hsz. pose proof (size_cases _ Hok) as Es. pose proof (slot_cases c) as Hslot.
  destruct Hok as [Hh Ht Hl Hg].
  assert (Hok' : ring_ok (chan_put c v)).
  { clear Es Hsz. split; simpl; rewrite ?next_cases by done; [done|case_decide; lia|..].
    - case_decide; rewrite ?length_app, ?length_insert; simpl; lia.
    - case_decide as Hd; rewrite ?length_app, ?length_insert; simpl; intros Hlt; [|lia].
      destruct (Hg Hd). case_decide; lia. }
  split; [done|].
  assert (Es' : size (chan_put c v) = S (size c)).
  { rewrite (size_cases _ Hok'), Es. simpl. rewrite next_cases by done. repeat case_decide; lia. }
  unfold contents. rewrite Es', seq_S, map_app. f_equal.
  - apply map_ext_in. intros k Hk%in_seq. change (slot (chan_put c v) k) with (slot c k).
    assert (slot c k <> tail c /\ (length (data c) < capacity + 1 -> slot c k < length (data c))) as [Hne Hlt].
    { rewrite Hslot; [|done|]; repeat case_decide; lia. }
    clear Es. simpl. case_decide.
    + rewrite app_nth1 by auto. done.
    + rewrite !nth_lookup, list_lookup_insert_ne by done. done.
  - simpl. f_equal. change (slot (chan_put c v) (size c)) with (slot c (size c)).
    assert (slot c (size c) = tail c) as -> by (rewrite Hslot; [|done|]; repeat case_decide; lia).
    clear Es. case_decide as Hgr.
    + destruct (Hg Hgr) as [-> _]. rewrite app_nth2 by lia. by rewrite Nat.sub_diag.
    + rewrite nth_lookup, list_lookup_insert_eq by lia. done.
Qed.

Lemma get_ok c : ring_ok c -> size c <> 0 ->
  ring_ok (chan_get c).1 /\ contents c = (chan_get c).2 :: contents (chan_get c).1.
Proof.
  intros Hok Hsz. pose proof (size_cases _ Hok) as Es. pose proof Hok as [Hh Ht Hl Hg].
  assert (Hok' : ring_ok (chan_get c).1).
  { clear Hok. split; simpl; rewrite ?next_cases by done; [repeat case_decide; lia|done..|].
    intros Hgr. destruct (Hg Hgr). repeat case_decide; lia. }
  split; [done|].
  assert (Es' : S (size (chan_get c).1) = size c).
  { rewrite (size_cases _ Hok'), Es. simpl. rewrite next_cases by done. repeat case_decide; lia. }
  unfold contents. rewrite <- Es'. cbn [seq map]. f_equal.
  - rewrite slot_cases by (done || lia). simpl. rewrite decide_True, Nat.add_0_r by lia. done.
  - rewrite <- seq_shift, map_map. apply map_ext_in. intros k Hk%in_seq.
    pose proof (size_le _ Hok).
    rewrite !slot_cases by (done || lia). simpl. rewrite next_cases by done.
    f_equal. repeat case_decide; lia.
Qed.

(** ** Discipline *)

(** A sender or a receiver that has been woken and not yet looked. *)
Inductive cperm := SWake | RWake.
#[local] Instance cperm_eq_dec : EqDecision cperm.
Proof. solve_decision. Defined.

Definition woken (p : cperm) (P : list cperm) : nat := length (filter (.= p) P).

Definition sent (tr : list chan_ev) : list value :=
  omap (fun e => match e with Sent v => Some v | _ => None end) tr.
Definition received (tr : list chan_ev) : list value :=
  omap (fun e => match e with Received v => Some v | _ => None end) tr.

Record chan_trace (tr : list chan_ev) (c : Chan) (P : list cperm) : Prop := {
  ct_ring : ring_ok c;
  ct_fifo : sent tr = received tr ++ contents c;
  (** whoever waits waits for a reason, or has been woken *)
  ct_recvs : recvs c <> [] -> size c <= woken RWake P;
  ct_senders : senders c <> [] -> capacity - size c <= woken SWake P;
}.

#[local] Instance woken_proper p : Proper (Permutation ==> eq) (woken p).
Proof. intros P P' HP. unfold woken. by rewrite HP. Qed.

Lemma woken_cons p q P : woken p (q :: P) = (if decide (q = p) then 1 else 0) + woken p P.
Proof. unfold woken. rewrite list.filter_cons. by case_decide. Qed.

#[local, refine] Instance chan_discipline : Discipline Chan chan_ev := {
  perm := cperm;
  view := fun c => c;
  obj_inv := fun _ => True;
  ghost := unit;
  waiting := fun c _ => map (fun f => (f, [SWake])) (senders c) ++ map (fun f => (f, [RWake])) (recvs c);
  trace_inv := fun tr st _ P => chan_trace tr st P;
}.
Proof. intros tr c _ P P' HP [H1 H2 H3 H4]. split; [done..|by rewrite <- HP|by rewrite <- HP]. Defined.

(** A wait leaves the lock taken, the condition false, and the wake-up that led
    here, if any, still to be used. *)
Lemma wp_wait_while self cond push p v Q :
  (forall f c, waiting (push f c) tt ≡ₚ (f, [p]) :: waiting c tt) ->
  (forall f c tr (o : list cperm) P, o = [] \/ o = [p] ->
     cond c = true -> chan_trace tr c (o ++ P) -> chan_trace tr (push f c) P) ->
  (forall c o, o = [] \/ o = [p] -> cond c = false -> Q tt (Some c) [] o) ->
  wp self (wait_while cond push) (Some v) [] [] Q.
Proof.
  intros Hw Ht HQ. exists (fun _ m hs ps => (exists c, m = Some c) /\ hs = [] /\ (ps = [] \/ ps = [p])).
  split; [eauto|]. intros [] m hs ps ([c ->] & -> & Hps).
  apply (wp_access (D := chan_discipline)). intros c' gh Hc _. simpl in Hc. subst c'.
  exists [], ps. split; [done|]. split; [intros tr P; by rewrite app_nil_r|].
  cbn [fst snd view]. destruct (cond c) eqn:Ec; [|by apply HQ].
  apply wp_bind, (wp_suspend (D := chan_discipline) self [p]).
  - apply wp_access. intros c' [] Hc _. simpl in Hc. subst c'. exists [], []. split.
    { rewrite app_nil_r. cbn [fst snd]. rewrite Hw. solve_Permutation. }
    split; [|eexists; done]. intros tr P Hi. rewrite app_nil_r. by eapply Ht.
  - split; [done|]. intros c' _. split; [eauto|]. auto.
Qed.

Lemma size_eq c c' : head c' = head c -> tail c' = tail c -> size c' = size c.
Proof. intros Hh Ht. unfold size. by rewrite Hh, Ht. Qed.

Lemma contents_eq c c' :
  head c' = head c -> tail c' = tail c -> data c' = data c -> ring_ok c ->
  ring_ok c' /\ contents c' = contents c.
Proof.
  intros Hh Ht Hd [H1 H2 H3 H4]. split.
  - split; rewrite ?Hh, ?Ht, ?Hd; done.
  - unfold contents, slot. by rewrite (size_eq c c'), Hh, Hd.
Qed.

(** Fields other than the ring do not matter to the queue. *)
Lemma chan_trace_lists c tr c' P :
  ring_ok c -> sent tr = received tr ++ contents c ->
  head c' = head c -> tail c' = tail c -> data c' = data c ->
  (recvs c' <> [] -> size c <= woken RWake P) ->
  (senders c' <> [] -> capacity - size c <= woken SWake P) -> chan_trace tr c' P.
Proof.
  intros H1 H2 Hh Ht Hd Hr Hs. destruct (contents_eq _ _ Hh Ht Hd H1) as [Hok Hc].
  split; [done|by rewrite Hc|..]; by rewrite (size_eq c c').
Qed.

Lemma trace_push_sender f c tr o P : o = [] \/ o = [SWake] ->
  chan_IsFull c = true -> chan_trace tr c (o ++ P) -> chan_trace tr (push_sender f c) P.
Proof.
  intros Ho Hf Ht. pose proof Ht as [H1 H2 H3 H4]. rewrite is_full_spec in Hf by done. apply bool_decide_eq_true in Hf.
  apply (chan_trace_lists c); [done..| |lia]. intros Hne. specialize (H3 Hne).
  destruct Ho as [->| ->]; simpl in H3; rewrite ?woken_cons, ?decide_False in H3 by done; done.
Qed.

Lemma trace_push_recv f c tr o P : o = [] \/ o = [RWake] ->
  chan_IsEmpty c = true -> chan_trace tr c (o ++ P) -> chan_trace tr (push_recv f c) P.
Proof.
  intros Ho Hf Ht. pose proof Ht as [H1 H2 H3 H4]. rewrite is_empty_spec in Hf by done. apply bool_decide_eq_true in Hf.
  apply (chan_trace_lists c); [done..|lia|]. intros Hne. specialize (H4 Hne).
  destruct Ho as [->| ->]; simpl in H4; rewrite ?woken_cons, ?decide_False in H4 by done; done.
Qed.

(** The permission that goes with a popped waiter. *)
Definition grant (p : cperm) (w : option fid) : list cperm := match w with Some _ => [p] | None => [] end.

Lemma woken_grant p q w P : woken p (grant q w ++ P) = (if decide (q = p) then length (option_list w) else 0) + woken p P.
Proof. destruct w; simpl; rewrite ?woken_cons; by case_decide. Qed.

Lemma trace_send v c tr o P : o = [] \/ o = [SWake] ->
  chan_IsFull c = false -> chan_trace tr c (o ++ P) ->
  chan_trace (tr ++ [Sent v]) (pop_recv (chan_put c v)).1 (grant RWake (hd_error (recvs c)) ++ P).
Proof.
  intros Ho Hf [H1 H2 H3 H4]. rewrite is_full_spec in Hf by done. apply bool_decide_eq_false in Hf.
  destruct (put_ok c v H1 Hf) as [Hok Hc].
  assert (Hsz : size (chan_put c v) = S (size c)).
  { rewrite <- !length_contents, Hc, length_app. simpl. lia. }
  assert (woken RWake (o ++ P) = woken RWake P) as Er by (destruct Ho as [->| ->]; [done|]; simpl; by rewrite woken_cons).
  assert (woken SWake (o ++ P) <= S (woken SWake P)) as Es
    by (destruct Ho as [->| ->]; simpl; rewrite ?woken_cons; simpl; lia).
  apply (chan_trace_lists (chan_put c v)); [done| |done..| |]; rewrite ?Hsz, ?woken_grant; cbn [pop_recv fst recvs senders].
  - unfold sent, received in *. rewrite !omap_app, H2, Hc. simpl. by rewrite app_nil_r, app_assoc.
  - cbn [chan_put recvs]. destruct (recvs c) as [|w ws]; [done|]. intros _. specialize (H3 ltac:(done)). simpl. lia.
  - intros Hne. specialize (H4 Hne). simpl. lia.
Qed.

Lemma trace_recv c tr o P : o = [] \/ o = [RWake] ->
  chan_IsEmpty c = false -> chan_trace tr c (o ++ P) ->
  chan_trace (tr ++ [Received (chan_get c).2]) (pop_sender (chan_get c).1).1 (grant SWake (hd_error (senders c)) ++ P).
Proof.
  intros Ho Hf [H1 H2 H3 H4]. rewrite is_empty_spec in Hf by done. apply bool_decide_eq_false in Hf.
  destruct (get_ok c H1 Hf) as [Hok Hc].
  assert (Hsz : size c = S (size (chan_get c).1)).
  { rewrite <- !length_contents, Hc. done. }
  assert (woken SWake (o ++ P) = woken SWake P) as Es by (destruct Ho as [->| ->]; [done|]; simpl; by rewrite woken_cons).
  assert (woken RWake (o ++ P) <= S (woken RWake P)) as Er
    by (destruct Ho as [->| ->]; simpl; rewrite ?woken_cons; simpl; lia).
  apply (chan_trace_lists (chan_get c).1); [done| |done..| |]; rewrite ?woken_grant; cbn [pop_sender fst recvs senders].
  - unfold sent, received in *. rewrite !omap_app, H2, Hc. simpl. by rewrite app_nil_r, <- app_assoc.
  - intros Hne. specialize (H3 Hne). rewrite decide_False by done. lia.
  - change (senders (chan_get c).1) with (senders c). destruct (senders c) as [|w ws]; [done|]. intros _. specialize (H4 ltac:(done)). rewrite decide_True by done.
    change (length (option_list (hd_error (w :: ws)))) with 1. lia.
Qed.

(** The end of [Send] and [Recv]: the woken fiber gets its permission. *)
Lemma wp_wake self w p {A} (k : unit -> code A) m hs Q :
  wp self (k tt) m hs [] Q ->
  wp self (bind (wake w) k) m (map (fun f => (f, [p])) (option_list w) ++ hs) (grant p w) Q.
Proof.
  intros Hk. destruct w as [w|]; [|done]. simpl. exists [p], hs, []. done.
Qed.

Lemma wp_Send self v Q : Q tt None [] [] -> wp self (chan_Send v) None [] [] Q.
Proof.
  intros HQ. apply wp_lock. intros c0 _. apply wp_bind.
  apply (wp_wait_while _ _ _ SWake).
  { intros f c. simpl. rewrite map_app. solve_Permutation. }
  { intros. by eapply trace_push_sender. }
  intros c o Ho Hf. apply (wp_access (D := chan_discipline)). intros c' gh Hc _. simpl in Hc. subst c'.
  exists (map (fun f => (f, [RWake])) (option_list (hd_error (recvs c))) ++ []), (grant RWake (hd_error (recvs c))).
  split. { simpl. destruct (recvs c); simpl; solve_Permutation. }
  split. { intros tr P Ht. by eapply trace_send. }
  apply (wp_wake _ (hd_error (recvs c))). eexists. done.
Qed.

Lemma wp_Recv self Q : (forall v, Q v None [] []) -> wp self chan_Recv None [] [] Q.
Proof.
  intros HQ. apply wp_lock. intros c0 _. apply wp_bind.
  apply (wp_wait_while _ _ _ RWake).
  { intros f c. simpl. rewrite map_app. solve_Permutation. }
  { intros. by eapply trace_push_recv. }
  intros c o Ho Hf. apply (wp_access (D := chan_discipline)). intros c' gh Hc _. simpl in Hc. subst c'.
  exists (map (fun f => (f, [SWake])) (option_list (hd_error (senders c))) ++ []), (grant SWake (hd_error (senders c))).
  split. { simpl. destruct (senders c); simpl; solve_Permutation. }
  split. { intros tr P Ht. by eapply trace_recv. }
  apply (wp_wake _ (hd_error (senders c))). simpl. eexists. eauto.
Qed.

Lemma wp_chan_client self ops : wp self (chan_client ops) None [] [] (fun _ => ends).
Proof.
  induction ops as [|o ops IH]; [done|]. cbn [chan_client]. apply wp_bind. destruct o; cbn [chan_client_step].
  - by apply wp_Send.
  - apply wp_bind, wp_Recv. done.
  - by apply wp_yield.
Qed.

Lemma chan_clients clients :
  clients_ok new_chan (map chan_client clients) (replicate (length (map chan_client clients)) []) tt.
Proof.
  apply clients_ok_nil; [|done..|].
  - intros f b (ops & -> & _)%list_lookup_fmap_Some. apply wp_chan_client.
  - assert (ring_ok new_chan) as Hok by (split; simpl; lia).
    assert (size new_chan = 0) as Hsz by (rewrite size_cases by done; done).
    split; [done| |done..]. symmetry. exact (nil_length_inv (contents new_chan) (eq_trans (length_contents _) Hsz)).
Qed.
End channel.

(** C33: The buffered channel is a bounded FIFO queue for any number of senders
    and receivers on any number of workers: the values received are, in order,
    the first ones sent, the rest are in the buffer, which never holds more than
    [capacity] values. *)
Theorem channel_fifo capacity M clients tr c :
  fsteps M (Go_all new_chan (map (chan_client capacity) clients)) tr c ->
  let evs := user (map snd tr) in
  sent evs = received evs ++ contents capacity (fs_st (sh c)) /\
  length (contents capacity (fs_st (sh c))) <= capacity.
Proof.
  intros Hs evs. destruct (trace_holds _ _ _ _ _ _ _ (chan_clients capacity clients) Hs) as (_ & P & [Hr Hf _ _]).
  split; [done|]. rewrite length_contents. by apply size_le.
Qed.

(** C34: No wake-up is lost: when nothing runs and nothing is scheduled any more,
    every fiber has completed or waits, a receiver waits only if the buffer is
    empty, a sender only if it is full; so (with room for one value) never both. *)
Theorem channel_no_lost_wakeup capacity M clients tr c :
  0 < capacity -> fsteps M (Go_all new_chan (map (chan_client capacity) clients)) tr c -> quiescent M c ->
  let ch := fs_st (sh c) in
  completed (map snd tr) ++ senders ch ++ recvs ch ≡ₚ seq 0 (fs_next (sh c)) /\
  (recvs ch <> [] -> contents capacity ch = [] /\ senders ch = []) /\
  (senders ch <> [] -> length (contents capacity ch) = capacity /\ recvs ch = []).
Proof.
  intros Hcap Hs Hq ch.
  destruct (quiescent_waiting _ _ _ _ _ _ _ (chan_clients capacity clients) Hs Hq) as (_ & gh & [Hr _ H3 H4] & Hids).
  fold ch in Hr, H3, H4, Hids. pose proof (size_le _ _ Hr) as Hle. simpl in H3, H4.
  split.
  { rewrite <- Hids. simpl. rewrite map_app, !map_map, !map_id. done. }
  rewrite length_contents. split; intros Hne.
  - specialize (H3 Hne). split; [apply nil_length_inv; rewrite length_contents; cbn in H3; lia|].
    destruct (senders ch); [done|]. specialize (H4 ltac:(done)). cbn in *. lia.
  - specialize (H4 Hne). split; [cbn in H4; lia|].
    destruct (recvs ch); [done|]. specialize (H3 ltac:(done)). cbn in *. lia.
Qed.

(** Capacity 1; a sender of three values, two receivers of two each. *)
Definition chan_demo := [[DoSend 5; DoSend 6; DoSend 7]; [DoRecv; DoRecv]; [DoRecv; DoRecv]].

Lemma channel_fifo_witness :
  exists tr c, fsteps 2 (Go_all new_chan (map (chan_client 1) chan_demo)) tr c /\
    received (user (map snd tr)) = [5; 6; 7] /\
    sent (user (map snd tr)) = received (user (map snd tr)) ++ contents 1 (fs_st (sh c)) /\
    length (contents 1 (fs_st (sh c))) <= 1.
Proof.
  pose (r := drive (two_workers 60) (Go_all new_chan (map (chan_client 1) chan_demo))).
  assert (Hs : fsteps 2 (Go_all new_chan (map (chan_client 1) chan_demo)) r.2 r.1)
    by (apply drive_run; reflexivity).
  exists r.2, r.1. split; [exact Hs|]. split; [vm_compute; reflexivity|].
  exact (channel_fifo 1 2 chan_demo _ _ Hs).
Defined.

Lemma channel_no_lost_wakeup_witness :
  exists tr c, fsteps 2 (Go_all new_chan (map (chan_client 1) chan_demo)) tr c /\
    recvs (fs_st (sh c)) <> [] /\
    completed (map snd tr) ++ senders (fs_st (sh c)) ++ recvs (fs_st (sh c)) ≡ₚ seq 0 (fs_next (sh c)) /\
    contents 1 (fs_st (sh c)) = [] /\ senders (fs_st (sh c)) = [].
Proof.
  pose (r := drive (two_workers 60) (Go_all new_chan (map (chan_client 1) chan_demo))).
  assert (Hs : fsteps 2 (Go_all new_chan (map (chan_client 1) chan_demo)) r.2 r.1)
    by (apply drive_run; reflexivity).
  assert (Hne : recvs (fs_st (sh r.1)) <> []) by (vm_compute; discriminate).
  exists r.2, r.1. split; [exact Hs|]. split; [exact Hne|].
  edestruct (channel_no_lost_wakeup 1 2 chan_demo _ _ ltac:(lia) Hs) as (H1 & H2 & _).
  { split; [|vm_compute; reflexivity]. intros [|[|w]] Hw; [vm_compute; reflexivity..|lia]. }
  split; [exact H1|]. exact (H2 Hne).
Defined.
