(* ===== verification/Strand.v ===== *)
(** The strand: src/src/exe/fiber/sync/strand.hpp.

    A lock-free combiner.  [waiters_head_] is a machine word: null (free), the
    dummy (owned, nobody waits), a waiter's address with the busy bit (owned,
    waiters are stacked), or a waiter's address without it (waiters are stacked
    and nobody is the owner).  Waiters live on the stacks of the suspended fibers
    that call [Combine]; the owner runs their critical sections.

    [addr f] is the address of the waiter on fiber [f]'s stack; it is the same
    for every call of [f], so that addresses are reused. *)

From S2P Require Import Prelude Conc Task Fiber FiberSync.
Local Open Scope fiber_scope.
Local Open Scope Z_scope.

Definition kWaiterDummy : Z := 0xffffffffffffffff.
Definition kWaiterMsk : Z := 0x7fffffffffffffff.
Definition kBusyBit : Z := 0x8000000000000000.

Definition AddBusyBit (waiter : Z) : Z := Z.lor waiter kBusyBit.
Definition StripBusyBit (waiter : Z) : Z := Z.land waiter kWaiterMsk.
Definition GetDummyWaiter : Z := kWaiterDummy.
Definition IsBusy (waiter : Z) : bool := negb (Z.land waiter kBusyBit =? 0).

(** A critical section: the client and the number of its call. *)
Abbreviation task := (nat * nat)%type (only parsing).

(** [Waiter]: the link of the intrusive list, the critical section [f_] and the
    handle [fiber_]. *)
Record Waiter := mkWaiter { w_next : Z; w_task : task; w_fiber : fid }.

(** The strand, the memory that holds the waiters, and the locals [owner] and
    [maybe_batch_head] of each fiber, which its awaiter writes. *)
Record Strand := mkStrand {
  waiters_head : Z;
  mem : Z -> Waiter;
  owner : fid -> bool;
  maybe_batch_head : fid -> Z;
}.

Inductive sev := SEnter (t : task) | SLeave (t : task) | SReturned (t : task).

Section strand.
Context (addr : fid -> Z).
Abbreviation code := (prog Strand sev).

Definition load_head : code Z := access (fun s => (s, waiters_head s, [])).

Definition set_head (s : Strand) (h : Z) : Strand :=
  mkStrand h (mem s) (owner s) (maybe_batch_head s).

(** [compare_exchange_strong]: success, and the value seen. *)
Definition cas_head (expected desired : Z) : code (bool * Z) :=
  access (fun s =>
    if waiters_head s =? expected
    then (set_head s desired, (true, expected), [])
    else (s, (false, waiters_head s), [])).

Definition RunTask (waiter : Z) : code unit :=
  t <~ access (fun s => (s, w_task (mem s waiter), [])) ;>
  mark (SEnter t) ;>
  mark (SLeave t).

Definition waiter_Schedule (waiter : Z) : code unit :=
  f <~ access (fun s => (s, w_fiber (mem s waiter), [])) ;>
  act (Schedule f UpToYou).

Definition SetNext (waiter next : Z) : code unit :=
  access (fun s =>
    let w := mem s waiter in
    (mkStrand (waiters_head s) (<[waiter := mkWaiter next (w_task w) (w_fiber w)]> (mem s))
       (owner s) (maybe_batch_head s), tt, [])).

(** The CAS loop that takes the stack of waiters, or gives the strand back when
    there is none ([None]). *)
Definition take_batch (batch_head : Z) : code (option Z) :=
  loop batch_head (fun batch_head =>
    if decide (batch_head = GetDummyWaiter) then
      r <~ cas_head batch_head 0 ;>
      Ret (if r.1 : bool then inr None else inl r.2)
    else
      r <~ cas_head batch_head GetDummyWaiter ;>
      Ret (if r.1 : bool then inr (Some batch_head) else inl r.2)).

(** The CAS loop after the last waiter of a batch. *)
Definition release (old_head : Z) : code unit :=
  loop old_head (fun old_head =>
    r <~ cas_head old_head (if decide (old_head = GetDummyWaiter) then 0 else StripBusyBit old_head) ;>
    Ret (if r.1 : bool then inr tt else inl r.2)).

(** [while (batch_head_node != nullptr)] *)
Definition run_batch (batch_head : Z) : code unit :=
  loop batch_head (fun waiter =>
    if decide (waiter = 0) then Ret (inr tt)
    else
      next <~ access (fun s => (s, w_next (mem s waiter), [])) ;>
      RunTask waiter ;>
      (if decide (next = 0) then old_head <~ load_head ;> release old_head else Ret tt) ;>
      waiter_Schedule waiter ;>
      Ret (inl next)).

Definition ProcessBatch (maybe_batch_head : Z) : code unit :=
  if decide (maybe_batch_head = 0) then
    h <~ load_head ;>
    b <~ take_batch h ;>
    match b with
    | None => Ret tt
    | Some batch_head => run_batch (StripBusyBit batch_head)
    end
  else run_batch (StripBusyBit maybe_batch_head).

(** [owner = true; maybe_batch_head = b; waiter.Schedule()] *)
Definition become_owner (self : fid) (b : Z) : code unit :=
  access (fun s =>
    (mkStrand (waiters_head s) (mem s) (<[self := true]> (owner s))
       (<[self := b]> (maybe_batch_head s)), tt, [])) ;>
  waiter_Schedule (addr self).

(** The awaiter of [Combine]. *)
Definition combine_awaiter (self : fid) : code unit :=
  h <~ load_head ;>
  loop h (fun old_head =>
    if decide (old_head = 0) then
      r <~ cas_head old_head GetDummyWaiter ;>
      if r.1 : bool then become_owner self 0 ;> Ret (inr tt) else Ret (inl r.2)
    else if decide (old_head = GetDummyWaiter) then
      SetNext (addr self) 0 ;>
      r <~ cas_head old_head (AddBusyBit (addr self)) ;>
      Ret (if r.1 : bool then inr tt else inl r.2)
    else if IsBusy old_head then
      SetNext (addr self) (StripBusyBit old_head) ;>
      r <~ cas_head old_head (AddBusyBit (addr self)) ;>
      Ret (if r.1 : bool then inr tt else inl r.2)
    else
      r <~ cas_head old_head GetDummyWaiter ;>
      if r.1 : bool then become_owner self old_head ;> Ret (inr tt) else Ret (inl r.2)).

(** [Combine] once its fiber has been resumed. *)
Definition after_suspend (self : fid) : code unit :=
  locals <~ access (fun s => (s, (owner s self, maybe_batch_head s self), [])) ;>
  if locals.1 : bool then RunTask (addr self) ;> ProcessBatch locals.2
  else
    old_head <~ load_head ;>
    if negb (old_head =? 0) && negb (IsBusy old_head) then
      r <~ cas_head old_head GetDummyWaiter ;>
      if r.1 : bool then ProcessBatch old_head else Ret tt
    else Ret tt.

Definition Combine (self : fid) (critical : task) : code unit :=
  (* [Waiter waiter(...)], [owner = false], [maybe_batch_head = nullptr] *)
  access (fun s =>
    (mkStrand (waiters_head s) (<[addr self := mkWaiter 0 critical self]> (mem s))
       (<[self := false]> (owner s)) (<[self := 0]> (maybe_batch_head s)), tt, [])) ;>
  maybe_nullptr <~ load_head ;>
  fast <~ (if decide (maybe_nullptr = 0) then r <~ cas_head 0 GetDummyWaiter ;> Ret r.1 else Ret false) ;>
  if fast : bool then RunTask (addr self) ;> ProcessBatch 0
  else
    fiber_Suspend (fun _ => combine_awaiter self) ;>
    after_suspend self.

(** Clients: [n] calls each. *)
Fixpoint combine_calls (self : fid) (k n : nat) : code unit :=
  match n with
  | O => Ret tt
  | S n => Combine self (self, k) ;> mark (SReturned (self, k)) ;> combine_calls self (S k) n
  end.

Definition strand_client (self : fid) (n : nat) : code unit := combine_calls self 0 n.
End strand.

(** A free strand. *)
Definition new_strand : Strand :=
  mkStrand 0 (fun _ => mkWaiter 0 (0%nat, 0%nat) 0) (fun _ => false) (fun _ => 0).

(** ** The words *)

Lemma busy_add a : 0 <= a < 2 ^ 63 -> AddBusyBit a = a + 2 ^ 63.
Proof.
  intros Ha. unfold AddBusyBit, kBusyBit. change 0x8000000000000000 with (1 * 2 ^ 63).
  rewrite <- Z.add_lor_land. rewrite Z.mul_1_l.
  assert (Z.land a (2 ^ 63) = 0) as ->; [|lia].
  apply Z.bits_inj'. intros n Hn. rewrite Z.land_spec, Z.bits_0, Z.pow2_bits_eqb by lia.
  destruct (Z.eqb_spec 63 n) as [<-|]; [|by rewrite andb_false_r].
  rewrite Z.testbit_eqb by lia. rewrite Z.div_small by lia. done.
Qed.

Lemma strip_mod w : 0 <= w -> StripBusyBit w = w mod 2 ^ 63.
Proof. intros Hw. unfold StripBusyBit. change kWaiterMsk with (Z.ones 63). by rewrite Z.land_ones. Qed.

Lemma strip_add a : 0 <= a < 2 ^ 63 -> StripBusyBit (AddBusyBit a) = a.
Proof.
  intros Ha. rewrite busy_add, strip_mod by lia.
  replace (a + 2 ^ 63) with (a + 1 * 2 ^ 63) by lia. rewrite Z_mod_plus_full. by apply Z.mod_small.
Qed.

Lemma strip_id a : 0 <= a < 2 ^ 63 -> StripBusyBit a = a.
Proof. intros Ha. rewrite strip_mod by lia. by apply Z.mod_small. Qed.

Lemma is_busy_bit w : 0 <= w -> IsBusy w = Z.testbit w 63.
Proof.
  intros Hw. unfold IsBusy, kBusyBit. change 0x8000000000000000 with (2 ^ 63).
  destruct (Z.testbit w 63) eqn:E.
  - destruct (Z.eqb_spec (Z.land w (2 ^ 63)) 0) as [E0|]; [|done].
    apply (f_equal (fun z => Z.testbit z 63)) in E0. rewrite Z.land_spec, E, Z.bits_0 in E0. done.
  - assert (Z.land w (2 ^ 63) = 0) as ->; [|done].
    apply Z.bits_inj'. intros n Hn. rewrite Z.land_spec, Z.bits_0, Z.pow2_bits_eqb by lia.
    destruct (Z.eqb_spec 63 n) as [<-|]; [by rewrite E|by rewrite andb_false_r].
Qed.

Lemma not_busy a : 0 <= a < 2 ^ 63 -> IsBusy a = false.
Proof. intros Ha. rewrite is_busy_bit, Z.testbit_eqb, Z.div_small by lia. done. Qed.

Lemma is_busy a : 0 <= a < 2 ^ 63 -> IsBusy (AddBusyBit a) = true.
Proof.
  intros Ha. rewrite busy_add, is_busy_bit, Z.testbit_eqb by lia.
  replace ((a + 2 ^ 63) / 2 ^ 63) with 1; [done|].
  apply Z.div_unique with a; lia.
Qed.

Lemma busy_not_dummy a : 0 <= a < 2 ^ 63 - 1 -> AddBusyBit a <> GetDummyWaiter.
Proof. intros Ha. rewrite busy_add by lia. unfold GetDummyWaiter, kWaiterDummy. lia. Qed.

(** ** What the events say *)

(** The critical section being run; [None] on a violation of mutual exclusion. *)
Fixpoint cs_inside (tr : list sev) (o : option task) : option (option task) :=
  match tr with
  | [] => Some o
  | SEnter t :: tr => match o with None => cs_inside tr (Some t) | Some _ => None end
  | SLeave t :: tr =>
      match o with Some t' => if decide (t = t') then cs_inside tr None else None | None => None end
  | SReturned _ :: tr => cs_inside tr o
  end.

Definition entered (tr : list sev) : list task :=
  omap (fun e => match e with SEnter t => Some t | _ => None end) tr.

(** A call returns only after its critical section has been run. *)
Definition returns_after (tr : list sev) : Prop :=
  forall a t b, tr = a ++ SReturned t :: b -> SLeave t ∈ a.

Lemma cs_inside_app tr tr' o :
  cs_inside (tr ++ tr') o = match cs_inside tr o with Some o' => cs_inside tr' o' | None => None end.
Proof.
  revert o. induction tr as [|[t|t|t] tr IH]; intros o; simpl; [done|..]; try destruct o; try done.
  case_decide; done.
Qed.

Lemma entered_app tr tr' : entered (tr ++ tr') = entered tr ++ entered tr'.
Proof. unfold entered. by rewrite omap_app. Qed.

Lemma returns_after_snoc tr e :
  returns_after tr -> (forall t, e = SReturned t -> SLeave t ∈ tr) -> returns_after (tr ++ [e]).
Proof.
  intros Hr He a t b Heq. destruct b as [|x b] using rev_ind.
  - apply app_inj_tail in Heq as [-> ->]. by apply He.
  - clear IHb. rewrite app_comm_cons, app_assoc in Heq. apply app_inj_tail in Heq as [-> _]. by eapply Hr.
Qed.

(** Fiber [f] has not begun its critical section number [k] or a later one. *)
Definition fresh (tr : list sev) (f : fid) (k : nat) : Prop := forall k', (k <= k')%nat -> (f, k') ∉ entered tr.
(** ... has finished number [k] and begun no later one. *)
Definition served (tr : list sev) (f : fid) (k : nat) : Prop := SLeave (f, k) ∈ tr /\ fresh tr f (S k).

(** ** Permissions

    Each carries the waiter of its fiber, except [Own]. *)
Inductive sperm :=
(** between calls; about to make call [k] *)
| Idle (f : fid) (k : nat)
(** the waiter is set up and private; [w]: its fiber is suspended as a waiter *)
| Ready (w : bool) (f : fid) (k : nat)
(** ... and linked to [n] *)
| Linked (f : fid) (k : nat) (n : Z)
(** ... and its critical section is being run *)
| Running (w : bool) (f : fid) (k : nat)
(** to be resumed: as the owner, or served *)
| Resume (f : fid) (k : nat)
(** served and to look at the head once more; has seen [h] *)
| Duty (f : fid) (k : nat)
| DutyAt (f : fid) (k : nat) (h : Z)
(** served *)
| Served (f : fid) (k : nat)
(** the ownership of the strand: the critical section being run and the rest
    of the batch, with its first waiter *)
| Own (cs : option task) (p : Z) (batch : list task).

(** The waiters stacked below the head, those of the owner's batch, and who is
    to look after waiters that were left without an owner. *)
Record sghost := mkGhost { g_stack : list task; g_batch : list task; g_resp : fid }.

Definition tok (p : sperm) : list fid :=
  match p with
  | Idle f _ | Ready _ f _ | Linked f _ _ | Running _ f _ | Resume f _ | Duty f _ | DutyAt f _ _ | Served f _ => [f]
  | Own _ _ _ => []
  end.

Definition own_tok (s : Strand) (p : sperm) : bool :=
  match p with Own _ _ _ => true | Resume f _ => owner s f | _ => false end.
Definition owners (s : Strand) (P : list sperm) : nat := length (filter (fun p => own_tok s p = true) P).

Definition duty_of (p : sperm) : option fid :=
  match p with Resume f _ | Duty f _ | DutyAt f _ _ => Some f | _ => None end.

Section proof.
Context (addr : fid -> Z) (F : nat).
Context (Hinj : forall f f', (f < F)%nat -> (f' < F)%nat -> addr f = addr f' -> f = f').
Context (Hrange : forall f, (f < F)%nat -> 0 < addr f < 2 ^ 63 - 1).

(** A list of waiters in memory. *)
Fixpoint chain (m : Z -> Waiter) (p : Z) (l : list task) : Prop :=
  match l with
  | [] => p = 0
  | (f, k) :: l => p = addr f /\ chain m (w_next (m p)) l
  end.

Definition node_ok (s : Strand) (f : fid) (k : nat) : Prop :=
  w_task (mem s (addr f)) = (f, k) /\ w_fiber (mem s (addr f)) = f.

(** Waiters without an owner. *)
Definition left_over (s : Strand) : Prop := waiters_head s <> 0 /\ IsBusy (waiters_head s) = false.

Definition perm_ok (tr : list sev) (s : Strand) (gh : sghost) (p : sperm) : Prop :=
  match p with
  | Idle f k => fresh tr f k
  | Ready w f k => fresh tr f k /\ node_ok s f k /\ (w = true -> owner s f = false)
  | Linked f k n => fresh tr f k /\ node_ok s f k /\ owner s f = false /\ w_next (mem s (addr f)) = n
  | Running w f k => fresh tr f (S k) /\ node_ok s f k /\ (w = true -> owner s f = false)
  | Resume f k =>
      node_ok s f k /\
      if owner s f then fresh tr f k /\ chain (mem s) (maybe_batch_head s f) (g_batch gh) /\ cs_inside tr None = Some None
      else served tr f k
  | Duty f k => served tr f k
  | DutyAt f k h => served tr f k /\ (g_resp gh = f -> left_over s -> waiters_head s = h)
  | Served f k => served tr f k
  | Own cs p B => g_batch gh = B /\ chain (mem s) p B /\ cs_inside tr None = Some cs
  end.

Definition queued_ok (tr : list sev) (s : Strand) (t : task) : Prop :=
  fresh tr t.1 t.2 /\ node_ok s t.1 t.2 /\ owner s t.1 = false.

Inductive head_ok (s : Strand) (gh : sghost) (P : list sperm) : Prop :=
| head_free : waiters_head s = 0 -> g_stack gh = [] -> g_batch gh = [] -> owners s P = 0%nat -> head_ok s gh P
| head_owned : waiters_head s = GetDummyWaiter -> g_stack gh = [] -> owners s P = 1%nat -> head_ok s gh P
| head_busy p : waiters_head s = AddBusyBit p -> p <> 0 -> chain (mem s) p (g_stack gh) ->
    owners s P = 1%nat -> head_ok s gh P
| head_left : waiters_head s <> 0 -> chain (mem s) (waiters_head s) (g_stack gh) -> g_batch gh = [] ->
    owners s P = 0%nat -> (exists p, p ∈ P /\ duty_of p = Some (g_resp gh)) -> head_ok s gh P.

Definition tokens (gh : sghost) (P : list sperm) : list fid :=
  (P ≫= tok) ++ map fst (g_stack gh ++ g_batch gh).

Record strand_trace (tr : list sev) (s : Strand) (gh : sghost) (P : list sperm) : Prop := {
  st_nodup : base.NoDup (tokens gh P);
  st_lt : forall f, f ∈ tokens gh P -> (f < F)%nat;
  st_perm : Forall (perm_ok tr s gh) P;
  st_queue : Forall (queued_ok tr s) (g_stack gh ++ g_batch gh);
  st_head : head_ok s gh P;
  st_cs : owners s P = 0%nat -> cs_inside tr None = Some None;
  st_once : base.NoDup (entered tr);
  st_returns : returns_after tr;
}.

(** ** Counting owners *)

Lemma owners_app s P P' : owners s (P ++ P') = (owners s P + owners s P')%nat.
Proof. unfold owners. by rewrite list.filter_app, length_app. Qed.
Lemma owners_cons s p P : owners s (p :: P) = ((if own_tok s p then 1 else 0) + owners s P)%nat.
Proof. unfold owners. rewrite list.filter_cons. by destruct (own_tok s p) eqn:E; case_decide. Qed.
Lemma owners_nil s : owners s [] = 0%nat.
Proof. reflexivity. Qed.

#[local] Instance owners_proper s : Proper (Permutation ==> eq) (owners s).
Proof. intros P P' HP. unfold owners. by rewrite HP. Qed.

Lemma owners_none s P p : owners s P = 0%nat -> p ∈ P -> own_tok s p = false.
Proof.
  intros H0 Hp. destruct (own_tok s p) eqn:E; [|done]. unfold owners in H0.
  apply nil_length_inv in H0. assert (p ∈ filter (fun p => own_tok s p = true) P) as Hin by (by apply list_elem_of_filter).
  rewrite H0 in Hin. by apply elem_of_nil in Hin.
Qed.

Lemma owners_zero s P : (forall p, p ∈ P -> own_tok s p = false) -> owners s P = 0%nat.
Proof.
  induction P as [|p P IH]; intros H; [done|]. rewrite owners_cons, H, IH by set_solver. done.
Qed.

Lemma owners_le s gh P : head_ok s gh P -> (owners s P <= 1)%nat.
Proof. intros []; lia. Qed.

Lemma owners_same s s' P :
  (forall p f, p ∈ P -> f ∈ tok p -> owner s' f = owner s f) -> owners s' P = owners s P.
Proof.
  intros H. induction P as [|p P IH]; [done|]. rewrite !owners_cons, IH
    by (intros q f Hq Hf; apply (H q f); [set_solver|done]).
  f_equal. destruct p; simpl; try done. rewrite (H (Resume f k) f); [done|set_solver|simpl; set_solver].
Qed.

Lemma head_ok_perm s gh P P' : P ≡ₚ P' -> head_ok s gh P -> head_ok s gh P'.
Proof.
  intros HP [H1 H2 H3 H4|H1 H2 H3|p H1 H2 H3 H4|H1 H2 H3 H4 (q & Hq & Hd)].
  - apply head_free; [done..|by rewrite <- HP].
  - apply head_owned; [done..|by rewrite <- HP].
  - eapply head_busy; [done..|by rewrite <- HP].
  - apply head_left; [done..|by rewrite <- HP|]. exists q. by rewrite <- HP.
Qed.

Lemma strand_trace_perm tr s gh P P' : P ≡ₚ P' -> strand_trace tr s gh P -> strand_trace tr s gh P'.
Proof.
  intros HP [H1 H2 H3 H4 H5 H6 H7 H8].
  assert (Ht : tokens gh P ≡ₚ tokens gh P') by (unfold tokens; by rewrite HP).
  split; try done.
  - by rewrite <- Ht.
  - intros f. rewrite <- Ht. apply H2.
  - by rewrite <- HP.
  - by eapply head_ok_perm.
  - by rewrite <- HP.
Qed.

(** ** Steps and their frame *)

Lemma waiters_chain_frame m m' p l :
  (forall f, f ∈ map fst l -> m' (addr f) = m (addr f)) -> chain m p l -> chain m' p l.
Proof.
  revert p. induction l as [|[f k] l IH]; intros p Hm Hc; [done|]. destruct Hc as [-> Hc].
  split; [done|]. rewrite Hm by set_solver. apply IH; [|done]. intros f' Hf. apply Hm. set_solver.
Qed.

Lemma Forall_two {A} (Q : A -> Prop) x y : Q x -> Q y -> Forall Q [x; y].
Proof. intros. by repeat constructor. Qed.

(** What a step must leave alone for a permission in other hands. *)
Lemma perm_frame tr tr' s s' gh gh' p :
  perm_ok tr s gh p ->
  (forall f, f ∈ tok p -> mem s' (addr f) = mem s (addr f) /\ owner s' f = owner s f /\
     maybe_batch_head s' f = maybe_batch_head s f) ->
  (forall f k, f ∈ tok p -> fresh tr f k -> fresh tr' f k) ->
  (forall t, SLeave t ∈ tr -> SLeave t ∈ tr') ->
  (own_tok s p = true -> g_batch gh' = g_batch gh /\ (forall q, chain (mem s) q (g_batch gh) -> chain (mem s') q (g_batch gh)) /\
     cs_inside tr' None = cs_inside tr None) ->
  (forall f, f ∈ tok p -> g_resp gh' = f -> left_over s' ->
     g_resp gh = f /\ left_over s /\ waiters_head s' = waiters_head s) ->
  perm_ok tr' s' gh' p.
Proof.
  intros Hp Hm Hf Hl Ho Hd.
  destruct p as [f k|w f k|f k n|w f k|f k|f k|f k h|f k|cs p B]; cbn [perm_ok tok own_tok] in *; unfold node_ok, served in *.
  all: try (destruct (Hm f ltac:(set_solver)) as (Em & Eo & Eb); rewrite ?Em, ?Eo, ?Eb).
  all: try (assert (Hff : forall k, fresh tr f k -> fresh tr' f k) by (intros k0; apply Hf; set_solver)).
  - by apply Hff.
  - destruct Hp as (? & ? & ?). split; [by apply Hff|done].
  - destruct Hp as (? & ? & ? & ?). split; [by apply Hff|done].
  - destruct Hp as (? & ? & ?). split; [by apply Hff|done].
  - destruct Hp as (? & Hp). split; [done|]. destruct (owner s f).
    + destruct Hp as (? & ? & ?). destruct (Ho eq_refl) as (-> & Hc & ->). split; [by apply Hff|]. auto.
    + destruct Hp. split; [by apply Hl|by apply Hff].
  - destruct Hp. split; [by apply Hl|by apply Hff].
  - destruct Hp as ((? & ?) & Hh). split; [split; [by apply Hl|by apply Hff]|].
    intros Hr Hlo. destruct (Hd f ltac:(set_solver) Hr Hlo) as (? & ? & ->). auto.
  - destruct Hp. split; [by apply Hl|by apply Hff].
  - destruct Hp as (<- & ? & <-). destruct (Ho eq_refl) as (-> & ? & ->). auto.
Qed.

Lemma queued_frame tr tr' s s' t :
  queued_ok tr s t -> mem s' (addr t.1) = mem s (addr t.1) -> owner s' t.1 = owner s t.1 ->
  (forall k, fresh tr t.1 k -> fresh tr' t.1 k) -> queued_ok tr' s' t.
Proof. intros (? & ? & ?) Hm Ho Hf. unfold queued_ok, node_ok in *. rewrite Hm, Ho. auto. Qed.

Section step.
Context (tr : list sev) (s : Strand) (gh : sghost) (ps R : list sperm).
Context (Ht : strand_trace tr s gh (ps ++ R)).

Lemma rest_tok p f : p ∈ R -> f ∈ tok p -> f ∉ (ps ≫= tok) /\ f ∉ map fst (g_stack gh ++ g_batch gh) /\ (f < F)%nat.
Proof.
  intros Hp Hf. assert (Hin : f ∈ R ≫= tok) by (apply list_elem_of_bind; eauto).
  destruct Ht as [Hnd Hlt _ _ _ _ _ _]. unfold tokens in *. rewrite bind_app in *. split; [|split].
  - intros Hf'. rewrite <- app_assoc in Hnd. apply list.NoDup_app in Hnd as (_ & Hd & _). apply (Hd f Hf'). set_solver.
  - intros Hf'. apply list.NoDup_app in Hnd as (_ & Hd & _). apply (Hd f); [|done]. set_solver.
  - apply Hlt. set_solver.
Qed.

Lemma mine_lt f : f ∈ (ps ≫= tok) ++ map fst (g_stack gh ++ g_batch gh) -> (f < F)%nat.
Proof. intros Hf. apply (st_lt _ _ _ _ Ht). unfold tokens. rewrite bind_app. set_solver. Qed.

Lemma rest_owners : owners s ps = 1%nat -> owners s R = 0%nat.
Proof.
  intros H1. pose proof (owners_le _ _ _ (st_head _ _ _ _ Ht)) as Hle. rewrite owners_app in Hle. lia.
Qed.

Lemma rest_ok p : p ∈ R -> perm_ok tr s gh p.
Proof. intros Hp. pose proof (st_perm _ _ _ _ Ht) as H. rewrite list.Forall_forall in H. apply H. set_solver. Qed.

Lemma mine_ok p : p ∈ ps -> perm_ok tr s gh p.
Proof. intros Hp. pose proof (st_perm _ _ _ _ Ht) as H. rewrite list.Forall_forall in H. apply H. set_solver. Qed.

Lemma strand_step tr' s' gh' ps' dropped :
  tokens gh' ps' ++ dropped ≡ₚ tokens gh ps ->
  Forall (perm_ok tr' s' gh') ps' -> Forall (queued_ok tr' s') (g_stack gh' ++ g_batch gh') ->
  (forall p, p ∈ R -> perm_ok tr' s' gh' p) -> head_ok s' gh' (ps' ++ R) ->
  (owners s' (ps' ++ R) = 0%nat -> cs_inside tr' None = Some None) ->
  base.NoDup (entered tr') -> returns_after tr' -> strand_trace tr' s' gh' (ps' ++ R).
Proof.
  intros Htok Hps Hq HR Hh Hcs He Hr.
  assert (Hall : tokens gh' (ps' ++ R) ++ dropped ≡ₚ tokens gh (ps ++ R)).
  { unfold tokens in *. rewrite !bind_app.
    transitivity (((ps' ≫= tok) ++ map fst (g_stack gh' ++ g_batch gh') ++ dropped) ++ (R ≫= tok)); [solve_Permutation|].
    rewrite <- app_assoc in Htok. rewrite Htok. solve_Permutation. }
  split; try done.
  - pose proof (st_nodup _ _ _ _ Ht) as Hnd. rewrite <- Hall in Hnd. by apply list.NoDup_app in Hnd as [? _].
  - intros f Hf. apply (st_lt _ _ _ _ Ht). rewrite <- Hall. set_solver.
  - apply list.Forall_app. split; [done|]. by apply list.Forall_forall.
Qed.
End step.

(** ** Reading the head *)

Lemma chain_range m p l : (forall f, f ∈ map fst l -> (f < F)%nat) -> p <> 0 -> chain m p l -> 0 < p < 2 ^ 63 - 1.
Proof. destruct l as [|[f k] l]; intros Hlt Hp Hc; [done|]. destruct Hc as [-> _]. apply Hrange, Hlt. set_solver. Qed.

Lemma stack_lt tr s gh P f : strand_trace tr s gh P -> f ∈ map fst (g_stack gh) -> (f < F)%nat.
Proof. intros Ht Hf. apply (st_lt _ _ _ _ Ht). unfold tokens. rewrite map_app. set_solver. Qed.

Lemma busy_range tr s gh P p : strand_trace tr s gh P -> p <> 0 -> chain (mem s) p (g_stack gh) -> 0 < p < 2 ^ 63 - 1.
Proof. intros Ht Hp Hc. eapply chain_range; [|done..]. intros f. by apply stack_lt with tr s P. Qed.

Lemma dummy_busy : IsBusy GetDummyWaiter = true.
Proof. reflexivity. Qed.

(** The four states of the head, told apart by what the code tests. *)
Lemma read_free tr s gh P : strand_trace tr s gh P -> waiters_head s = 0 ->
  g_stack gh = [] /\ g_batch gh = [] /\ owners s P = 0%nat.
Proof.
  intros Ht H0. destruct (st_head _ _ _ _ Ht) as [H1 H2 H3 H4|H1 H2 H3|p H1 H2 H3 H4|H1 H2 H3 H4 H5]; [done| | |done].
  - by rewrite H0 in H1.
  - pose proof (busy_range _ _ _ _ _ Ht H2 H3). rewrite H0, busy_add in H1 by lia. lia.
Qed.

Lemma read_left tr s gh P : strand_trace tr s gh P -> left_over s ->
  chain (mem s) (waiters_head s) (g_stack gh) /\ g_batch gh = [] /\ owners s P = 0%nat /\
  exists p, p ∈ P /\ duty_of p = Some (g_resp gh).
Proof.
  intros Ht [Hne Hb]. destruct (st_head _ _ _ _ Ht) as [H1 H2 H3 H4|H1 H2 H3|p H1 H2 H3 H4|H1 H2 H3 H4 H5]; [done| | |done].
  - by rewrite H1, dummy_busy in Hb.
  - pose proof (busy_range _ _ _ _ _ Ht H2 H3). rewrite H1, is_busy in Hb by lia. done.
Qed.

Lemma read_busy tr s gh P : strand_trace tr s gh P -> waiters_head s <> GetDummyWaiter ->
  IsBusy (waiters_head s) = true ->
  exists p, waiters_head s = AddBusyBit p /\ StripBusyBit (waiters_head s) = p /\ p <> 0 /\ chain (mem s) p (g_stack gh) /\
    owners s P = 1%nat.
Proof.
  intros Ht Hd Hb. destruct (st_head _ _ _ _ Ht) as [H1 H2 H3 H4|H1 H2 H3|p H1 H2 H3 H4|H1 H2 H3 H4 H5]; [|done| |].
  - by rewrite H1 in Hb.
  - pose proof (busy_range _ _ _ _ _ Ht H2 H3). exists p. rewrite H1, strip_add by lia. done.
  - pose proof (busy_range _ _ _ _ _ Ht H1 H2). rewrite not_busy in Hb by lia. done.
Qed.

Lemma read_dummy tr s gh P : strand_trace tr s gh P -> waiters_head s = GetDummyWaiter ->
  g_stack gh = [] /\ owners s P = 1%nat.
Proof.
  intros Ht Hd. destruct (st_head _ _ _ _ Ht) as [H1 H2 H3 H4|H1 H2 H3|p H1 H2 H3 H4|H1 H2 H3 H4 H5]; [|done| |].
  - by rewrite Hd in H1.
  - pose proof (busy_range _ _ _ _ _ Ht H2 H3). rewrite Hd in H1. symmetry in H1. by apply busy_not_dummy in H1; [|lia].
  - pose proof (busy_range _ _ _ _ _ Ht H1 H2). rewrite Hd in *. unfold GetDummyWaiter, kWaiterDummy in *. lia.
Qed.

(** The owner sees the dummy or a busy head. *)
Lemma read_owned tr s gh P : strand_trace tr s gh P -> owners s P = 1%nat -> IsBusy (waiters_head s) = true.
Proof.
  intros Ht Ho. destruct (st_head _ _ _ _ Ht) as [H1 H2 H3 H4|H1 H2 H3|p H1 H2 H3 H4|H1 H2 H3 H4 H5]; [congruence| | |congruence].
  - by rewrite H1.
  - pose proof (busy_range _ _ _ _ _ Ht H2 H3). rewrite H1. apply is_busy. lia.
Qed.

Lemma left_not_busy s : IsBusy (waiters_head s) = true -> ~ left_over s.
Proof. intros Hb [_ Hl]. congruence. Qed.

(** ** Moves that only retag a permission *)
Lemma retag tr s gh p ps' dropped R :
  strand_trace tr s gh (p :: R) -> Forall (perm_ok tr s gh) ps' ->
  (ps' ≫= tok) ++ dropped ≡ₚ tok p -> owners s ps' = owners s [p] ->
  (left_over s -> duty_of p = Some (g_resp gh) -> exists q, q ∈ ps' /\ duty_of q = Some (g_resp gh)) ->
  strand_trace tr s gh (ps' ++ R).
Proof.
  intros Ht Hps Htok Ho Hd. pose proof (Ht : strand_trace tr s gh ([p] ++ R)) as Ht'.
  pose proof Ht as [_ _ _ Hq Hh Hcs Hon Hre].
  assert (Eo : owners s (ps' ++ R) = owners s (p :: R)).
  { rewrite owners_app, Ho. change (p :: R) with ([p] ++ R). by rewrite owners_app. }
  apply (strand_step _ _ _ _ _ Ht' _ _ _ _ dropped); try done.
  - unfold tokens. cbn [mbind list_bind]. rewrite app_nil_r, <- Htok. solve_Permutation.
  - intros q Hq'. by apply (rest_ok _ _ _ _ _ Ht').
  - destruct Hh as [H1 H2 H3 H4|H1 H2 H3|q H1 H2 H3 H4|H1 H2 H3 H4 (q & Hin & Hdu)].
    + by apply head_free; [..|rewrite Eo].
    + by apply head_owned; [..|rewrite Eo].
    + by eapply head_busy; [..|rewrite Eo].
    + apply head_left; [done..|by rewrite Eo|]. apply elem_of_cons in Hin as [->|Hin]; [|set_solver].
      destruct Hd as (q' & ? & ?); [|done|set_solver].
      split; [done|]. apply not_busy. pose proof (busy_range _ _ _ _ _ Ht H1 H2). lia.
  - by rewrite Eo.
Qed.

(** ** Moves of the head *)

(** A compare-exchange, seen by permissions in other hands. *)
Lemma frame_head tr s gh gh' h p :
  perm_ok tr s gh p ->
  (own_tok s p = true -> g_batch gh' = g_batch gh) ->
  (forall f, f ∈ tok p -> g_resp gh' = f -> left_over (set_head s h) -> False) ->
  perm_ok tr (set_head s h) gh' p.
Proof.
  intros Hp Ho Hd. eapply perm_frame; [exact Hp|done..| |].
  - intros E. rewrite Ho by done. done.
  - intros f Hf Hr Hl. by destruct (Hd f).
Qed.

Lemma not_left_free s : ~ left_over (set_head s 0).
Proof. by intros [? _]. Qed.
Lemma not_left_dummy s : ~ left_over (set_head s GetDummyWaiter).
Proof. apply left_not_busy, dummy_busy. Qed.

Lemma owners_set_head s h P : owners (set_head s h) P = owners s P.
Proof. reflexivity. Qed.

(** Null to dummy: ownership with an empty batch. *)
Lemma move_take_free tr s gh R :
  strand_trace tr s gh R -> waiters_head s = 0 ->
  strand_trace tr (set_head s GetDummyWaiter) gh (Own None 0 [] :: R).
Proof.
  intros Ht H0. destruct (read_free _ _ _ _ Ht H0) as (Hs & Hb & Ho).
  pose proof Ht as [_ _ _ Hq _ Hcs Hon Hre].
  apply (strand_step tr s gh [] R Ht _ _ _ [_] []); try done.
  - by rewrite app_nil_r.
  - apply list.Forall_singleton. split; [done|]. split; [done|]. by apply Hcs.
  - intros p Hp. apply frame_head with gh; [by apply (rest_ok _ _ _ [] _ Ht)| |by intros ? ? ? ?%not_left_dummy].
    intros E. by rewrite (owners_none _ _ _ Ho Hp) in E.
  - apply head_owned; [done..|]. cbn [app]. rewrite owners_set_head, owners_cons. simpl. lia.
Qed.

(** A left-over stack to dummy: ownership with the stack as the batch. *)
Lemma move_take_left tr s gh R :
  strand_trace tr s gh R -> left_over s ->
  strand_trace tr (set_head s GetDummyWaiter) (mkGhost [] (g_stack gh) (g_resp gh))
    (Own None (waiters_head s) (g_stack gh) :: R).
Proof.
  intros Ht Hl. destruct (read_left _ _ _ _ Ht Hl) as (Hc & Hb & Ho & _).
  pose proof Ht as [_ _ _ Hq _ Hcs Hon Hre].
  apply (strand_step tr s gh [] R Ht _ _ _ [_] []); try done.
  - unfold tokens. simpl. by rewrite Hb, !app_nil_r.
  - apply list.Forall_singleton. split; [done|]. split; [done|]. by apply Hcs.
  - simpl. rewrite Hb, app_nil_r in Hq. done.
  - intros p Hp. apply frame_head with gh; [by apply (rest_ok _ _ _ [] _ Ht)| |by intros ? ? ? ?%not_left_dummy].
    intros E. by rewrite (owners_none _ _ _ Ho Hp) in E.
  - apply head_owned; [done..|]. cbn [app]. rewrite owners_set_head, owners_cons. simpl. lia.
Qed.

(** The owner takes the stack. *)
Lemma move_take_busy tr s gh R :
  strand_trace tr s gh (Own None 0 [] :: R) -> waiters_head s <> GetDummyWaiter ->
  strand_trace tr (set_head s GetDummyWaiter) (mkGhost [] (g_stack gh) (g_resp gh))
    (Own None (StripBusyBit (waiters_head s)) (g_stack gh) :: R).
Proof.
  intros Ht Hd. pose proof (Ht : strand_trace tr s gh ([_] ++ R)) as Ht'.
  assert (Ho : owners s R = 0%nat) by (by apply (rest_owners _ _ _ _ _ Ht')).
  assert (Ho1 : owners s (Own None 0 [] :: R) = 1%nat) by (rewrite owners_cons; simpl; lia).
  destruct (read_busy _ _ _ _ Ht Hd (read_owned _ _ _ _ Ht Ho1)) as (p & Hp & -> & Hne & Hc & _).
  pose proof (mine_ok _ _ _ _ _ Ht' _ ltac:(apply list_elem_of_here)) as (Hb & _ & Hcs).
  pose proof Ht as [_ _ _ Hq _ _ Hon Hre].
  apply (strand_step _ _ _ _ _ Ht' _ _ _ [_] []); try done.
  - unfold tokens. simpl. by rewrite Hb, !app_nil_r.
  - apply list.Forall_singleton. done.
  - simpl. rewrite Hb, app_nil_r in Hq. done.
  - intros q Hq'. apply frame_head with gh; [by apply (rest_ok _ _ _ _ _ Ht')| |by intros ? ? ? ?%not_left_dummy].
    intros E. by rewrite (owners_none _ _ _ Ho Hq') in E.
  - apply head_owned; [done..|]. cbn [app]. rewrite owners_set_head, owners_cons. simpl. lia.
Qed.

(** The owner gives the strand back. *)
Lemma move_free tr s gh R :
  strand_trace tr s gh (Own None 0 [] :: R) -> waiters_head s = GetDummyWaiter ->
  strand_trace tr (set_head s 0) gh R.
Proof.
  intros Ht Hd. pose proof (Ht : strand_trace tr s gh ([_] ++ R)) as Ht'.
  assert (Ho : owners s R = 0%nat) by (by apply (rest_owners _ _ _ _ _ Ht')).
  pose proof (mine_ok _ _ _ _ _ Ht' _ ltac:(apply list_elem_of_here)) as (Hb & _ & Hcs).
  destruct (read_dummy _ _ _ _ Ht Hd) as [Hs _]. pose proof Ht as [_ _ _ Hq _ _ Hon Hre].
  apply (strand_step _ _ _ _ _ Ht' _ _ _ [] []); try done.
  - by rewrite app_nil_r.
  - intros q Hq'. apply frame_head with gh; [by apply (rest_ok _ _ _ _ _ Ht')|done|by intros ? ? ? ?%not_left_free].
  - by apply head_free.
Qed.

(** The owner leaves the stack to the fiber it is about to resume. *)
Lemma move_leave_stack tr s gh f k R :
  strand_trace tr s gh (Own None 0 [] :: Resume f k :: R) -> waiters_head s <> GetDummyWaiter ->
  strand_trace tr (set_head s (StripBusyBit (waiters_head s))) (mkGhost (g_stack gh) (g_batch gh) f) (Resume f k :: R).
Proof.
  intros Ht Hd. pose proof (Ht : strand_trace tr s gh ([_; _] ++ R)) as Ht'.
  pose proof (owners_le _ _ _ (st_head _ _ _ _ Ht)) as Hle. rewrite !owners_cons in Hle. simpl in Hle.
  assert (owner s f = false /\ owners s R = 0%nat) as [Hof Ho] by (destruct (owner s f); [lia|split; [done|lia]]).
  assert (Ho1 : owners s (Own None 0 [] :: Resume f k :: R) = 1%nat).
  { rewrite !owners_cons. simpl. rewrite Hof. lia. }
  destruct (read_busy _ _ _ _ Ht Hd (read_owned _ _ _ _ Ht Ho1)) as (p & Hp & -> & Hne & Hc & _).
  pose proof (busy_range _ _ _ _ _ Ht Hne Hc) as Hr.
  pose proof (mine_ok _ _ _ _ _ Ht' _ ltac:(apply list_elem_of_here)) as (Hb & _ & Hcs).
  assert (HRes : perm_ok tr s gh (Resume f k)) by (apply (mine_ok _ _ _ _ _ Ht'); set_solver).
  pose proof Ht as [_ _ _ Hq _ _ Hon Hre].
  apply (strand_step _ _ _ _ _ Ht' _ _ _ [_] []); try done.
  - by rewrite app_nil_r.
  - apply list.Forall_singleton. cbn [perm_ok set_head owner node_ok mem] in *. rewrite Hof in *. done.
  - intros q Hq'. apply frame_head with gh; [by apply (rest_ok _ _ _ _ _ Ht')|done|].
    intros f' Hf' <- _. destruct (rest_tok _ _ _ _ _ Ht' _ _ Hq' Hf') as [Hn _]. apply Hn. simpl. set_solver.
  - apply head_left; simpl; [done..| |].
    + change (owners s (Resume f k :: R) = 0%nat). rewrite owners_cons. simpl. by rewrite Hof, Ho.
    + exists (Resume f k). split; [set_solver|done].
Qed.

(** A waiter is pushed on the stack of an owned strand. *)
Lemma move_push tr s gh f k n R :
  strand_trace tr s gh (Linked f k n :: R) ->
  (waiters_head s = GetDummyWaiter /\ n = 0) \/
  (waiters_head s <> GetDummyWaiter /\ IsBusy (waiters_head s) = true /\ n = StripBusyBit (waiters_head s)) ->
  strand_trace tr (set_head s (AddBusyBit (addr f))) (mkGhost ((f, k) :: g_stack gh) (g_batch gh) (g_resp gh)) R.
Proof.
  intros Ht Hh. pose proof (Ht : strand_trace tr s gh ([_] ++ R)) as Ht'.
  assert (Hf : (f < F)%nat) by (apply (mine_lt _ _ _ _ _ Ht'); simpl; set_solver).
  pose proof (Hrange f Hf) as Hr.
  assert (Hc : chain (mem s) n (g_stack gh) /\ owners s (Linked f k n :: R) = 1%nat).
  { destruct Hh as [[Hd ->]|(Hd & Hb & ->)].
    - destruct (read_dummy _ _ _ _ Ht Hd) as [-> ?]. done.
    - destruct (read_busy _ _ _ _ Ht Hd Hb) as (p & _ & -> & _ & ? & ?). done. }
  destruct Hc as [Hc Ho]. rewrite owners_cons in Ho. simpl in Ho.
  pose proof (mine_ok _ _ _ _ _ Ht' _ ltac:(apply list_elem_of_here)) as (Hfr & Hn & Hof & Hnx).
  pose proof Ht as [_ _ _ Hq _ Hcs Hon Hre].
  apply (strand_step _ _ _ _ _ Ht' _ _ _ [] []); try done.
  - unfold tokens. simpl. rewrite app_nil_r. done.
  - simpl. apply list.Forall_cons. split; [done|]. done.
  - intros q Hq'. apply frame_head with gh; [by apply (rest_ok _ _ _ _ _ Ht')|done|].
    intros f' Hf' _. apply left_not_busy. simpl. apply is_busy. lia.
  - apply head_busy with (addr f); simpl; [done|lia| |done]. split; [done|]. by rewrite Hnx.
Qed.

(** ** Moves of the owner *)

(** Take the next waiter of the batch. *)
Lemma move_pop tr s gh p f k B R :
  strand_trace tr s gh (Own None p ((f, k) :: B) :: R) ->
  p = addr f /\
  strand_trace tr s (mkGhost (g_stack gh) B (g_resp gh)) (Own None (w_next (mem s p)) B :: Ready true f k :: R).
Proof.
  intros Ht. pose proof (Ht : strand_trace tr s gh ([_] ++ R)) as Ht'.
  assert (Ho : owners s R = 0%nat) by (by apply (rest_owners _ _ _ _ _ Ht')).
  pose proof (mine_ok _ _ _ _ _ Ht' _ ltac:(apply list_elem_of_here)) as (Hb & [Hp Hc] & Hcs).
  split; [done|]. pose proof Ht as [_ _ _ Hq Hh _ Hon Hre]. rewrite Hb in Hq.
  apply list.Forall_app in Hq as [Hqs Hqb]. apply list.Forall_cons in Hqb as [(Hf1 & Hf2 & Hf3) Hqb].
  assert (Eo : owners s ([Own None (w_next (mem s p)) B; Ready true f k] ++ R) = owners s (Own None p ((f, k) :: B) :: R)).
  { simpl. by rewrite !owners_cons. }
  apply (strand_step _ _ _ _ _ Ht' _ _ _ [_; _] []); try done.
  - unfold tokens. simpl. rewrite Hb, !map_app. simpl. solve_Permutation.
  - by apply Forall_two.
  - by apply list.Forall_app.
  - intros q Hq'. eapply perm_frame; [by apply (rest_ok _ _ _ _ _ Ht')|done..| |done].
    intros E. by rewrite (owners_none _ _ _ Ho Hq') in E.
  - destruct Hh as [H1 H2 H3 H4|H1 H2 H3|q H1 H2 H3 H4|H1 H2 H3 H4 H5].
    + by rewrite Hb in H3.
    + apply head_owned; [done..|]. by rewrite Eo.
    + apply head_busy with q; [done..|]. by rewrite Eo.
    + by rewrite Hb in H3.
Qed.

Lemma fresh_snoc tr e f k : fresh tr f k -> (forall k', (k <= k')%nat -> e <> SEnter (f, k')) -> fresh (tr ++ [e]) f k.
Proof.
  intros Hf He k' Hk. rewrite entered_app, elem_of_app. intros [Hin|Hin]; [by apply (Hf k')|].
  destruct e as [t|t|t]; simpl in Hin; try by apply elem_of_nil in Hin.
  apply list_elem_of_singleton in Hin. subst t. by apply (He k').
Qed.

Lemma served_snoc tr e f k : served tr f k -> (forall k', e <> SEnter (f, k')) -> served (tr ++ [e]) f k.
Proof. intros [H1 H2] He. split; [set_solver|]. apply fresh_snoc; auto. Qed.

Lemma fresh_S tr f k : fresh tr f k -> fresh tr f (S k).
Proof. intros H k' Hk. apply H. lia. Qed.

(** An event of the critical section of [f], run by the owner. *)
Lemma move_event tr s gh cs cs' p B f q q' R e :
  strand_trace tr s gh (Own cs p B :: q :: R) -> tok q = [f] -> tok q' = [f] -> own_tok s q = false -> own_tok s q' = false ->
  (forall f' k, f' <> f -> e <> SEnter (f', k)) -> (forall t, e <> SReturned t) ->
  perm_ok (tr ++ [e]) s gh q' -> cs_inside (tr ++ [e]) None = Some cs' -> base.NoDup (entered (tr ++ [e])) ->
  strand_trace (tr ++ [e]) s gh (Own cs' p B :: q' :: R).
Proof.
  intros Ht Etq Etq' Eoq Eoq' He He' Hq' Hcs' Hon'. pose proof (Ht : strand_trace tr s gh ([_; _] ++ R)) as Ht'.
  assert (Ho : owners s R = 0%nat).
  { apply (rest_owners _ _ _ _ _ Ht'). rewrite !owners_cons, Eoq. done. }
  pose proof (mine_ok _ _ _ _ _ Ht' _ ltac:(apply list_elem_of_here)) as (Hb & Hc & Hcs).
  pose proof Ht as [_ _ _ Hq Hh _ Hon Hre].
  assert (Eo : owners s ([Own cs' p B; q'] ++ R) = 1%nat).
  { simpl. rewrite !owners_cons, Eoq'. simpl. lia. }
  assert (Hne : forall p0 f0, p0 ∈ R -> f0 ∈ tok p0 -> f0 <> f).
  { intros p0 f0 Hp0 Hf0 ->. destruct (rest_tok _ _ _ _ _ Ht' _ _ Hp0 Hf0) as [Hn _]. apply Hn. simpl. rewrite Etq. set_solver. }
  apply (strand_step _ _ _ _ _ Ht' _ _ _ [_; _] []); try done.
  - unfold tokens. simpl. rewrite Etq, Etq'. simpl. by rewrite app_nil_r.
  - by apply Forall_two.
  - apply list.Forall_forall. intros t Hin. pose proof (proj1 (list.Forall_forall _ _) Hq t Hin) as Hok.
    eapply queued_frame; [exact Hok|done..|]. intros k Hf. apply fresh_snoc; [done|]. intros k' _. apply He.
    intros Etf. pose proof (st_nodup _ _ _ _ Ht) as Hnd. unfold tokens in Hnd. simpl in Hnd. rewrite Etq in Hnd. simpl in Hnd.
    apply list.NoDup_cons_1_1 in Hnd. apply Hnd. rewrite <- Etf. apply elem_of_app. right. by apply list_elem_of_fmap_2.
  - intros p0 Hp0. eapply perm_frame; [by apply (rest_ok _ _ _ _ _ Ht')|done| |set_solver| |done].
    + intros f0 k Hf0 Hfr. apply fresh_snoc; [done|]. intros k' _. apply He. by eapply Hne.
    + intros E. by rewrite (owners_none _ _ _ Ho Hp0) in E.
  - destruct Hh as [H1 H2 H3 H4|H1 H2 H3|q0 H1 H2 H3 H4|H1 H2 H3 H4 H5].
    + rewrite owners_cons in H4. done.
    + by apply head_owned.
    + by apply head_busy with q0.
    + rewrite owners_cons in H4. done.
  - apply returns_after_snoc; [done|]. intros t Et. by destruct (He' t).
Qed.

Lemma move_enter tr s gh p B w f k R :
  strand_trace tr s gh (Own None p B :: Ready w f k :: R) ->
  strand_trace (tr ++ [SEnter (f, k)]) s gh (Own (Some (f, k)) p B :: Running w f k :: R).
Proof.
  intros Ht. pose proof (Ht : strand_trace tr s gh ([_; _] ++ R)) as Ht'.
  pose proof (mine_ok _ _ _ _ _ Ht' _ ltac:(apply list_elem_of_here)) as (Hb & Hc & Hcs).
  assert (perm_ok tr s gh (Ready w f k)) as (Hf & Hn & Hw) by (apply (mine_ok _ _ _ _ _ Ht'); set_solver).
  eapply (move_event _ _ _ _ _ _ _ f (Ready w f k)); try done.
  - intros f' k' Hne [= ? ?]. congruence.
  - split; [|done]. apply fresh_snoc; [by apply fresh_S|]. intros k' Hk [= ?]. lia.
  - by rewrite cs_inside_app, Hcs.
  - rewrite entered_app. apply list.NoDup_app. split; [by destruct Ht|]. split; [|by apply NoDup_singleton].
    intros t Hin. simpl. rewrite list_elem_of_singleton. intros ->. by apply (Hf k).
Qed.

Lemma move_leave tr s gh p B w f k R :
  strand_trace tr s gh (Own (Some (f, k)) p B :: Running w f k :: R) ->
  strand_trace (tr ++ [SLeave (f, k)]) s gh (Own None p B :: (if w then Resume f k else Served f k) :: R).
Proof.
  intros Ht. pose proof (Ht : strand_trace tr s gh ([_; _] ++ R)) as Ht'.
  pose proof (mine_ok _ _ _ _ _ Ht' _ ltac:(apply list_elem_of_here)) as (Hb & Hc & Hcs).
  assert (perm_ok tr s gh (Running w f k)) as (Hf & Hn & Hw) by (apply (mine_ok _ _ _ _ _ Ht'); set_solver).
  assert (Hs : served (tr ++ [SLeave (f, k)]) f k).
  { split; [set_solver|]. by apply fresh_snoc. }
  eapply (move_event _ _ _ _ _ _ _ f (Running w f k)); try done.
  - by destruct w.
  - destruct w; [|done]. simpl. auto.
  - destruct w; [|done]. simpl. rewrite Hw by done. done.
  - rewrite cs_inside_app, Hcs. simpl. by rewrite decide_True.
  - rewrite entered_app. simpl. rewrite app_nil_r. by destruct Ht.
Qed.

(** ** Moves in a fiber's own memory *)

Record same_except (f : fid) (s s' : Strand) : Prop := {
  se_head : waiters_head s' = waiters_head s;
  se_mem : forall f', (f' < F)%nat -> f' <> f -> mem s' (addr f') = mem s (addr f');
  se_owner : forall f', f' <> f -> owner s' f' = owner s f';
  se_batch : forall f', f' <> f -> maybe_batch_head s' f' = maybe_batch_head s f';
}.

Lemma private_step tr s s' gh f ps ps' R :
  strand_trace tr s gh (ps ++ R) -> ps ≫= tok = [f] -> ps' ≫= tok = [f] -> same_except f s s' ->
  Forall (perm_ok tr s' gh) ps' -> owners s' ps' = owners s ps -> (forall q, q ∈ ps -> duty_of q = None) ->
  strand_trace tr s' gh (ps' ++ R).
Proof.
  intros Ht Etp Etp' [Ehd Em Eo Eb] Hps Hown Hnd.
  assert (Hnq : f ∉ map fst (g_stack gh ++ g_batch gh)).
  { pose proof (st_nodup _ _ _ _ Ht) as Hn. unfold tokens in Hn. rewrite bind_app, Etp in Hn. simpl in Hn.
    apply list.NoDup_cons_1_1 in Hn. set_solver. }
  assert (Hlt : forall t, t ∈ g_stack gh ++ g_batch gh -> (t.1 < F)%nat /\ t.1 <> f).
  { intros t Hin. assert (t.1 ∈ map fst (g_stack gh ++ g_batch gh)) as Hin' by (by apply list_elem_of_fmap_2).
    split; [apply (mine_lt _ _ _ _ _ Ht); set_solver|]. intros E. by rewrite E in Hin'. }
  assert (Hch : forall q l, l ⊆ g_stack gh ++ g_batch gh -> chain (mem s) q l -> chain (mem s') q l).
  { intros q l Hl. apply waiters_chain_frame. intros f' (t & -> & Hin)%list_elem_of_fmap. apply Em; by apply Hlt, Hl. }
  assert (HoR : owners s' (ps' ++ R) = owners s (ps ++ R)).
  { rewrite !owners_app, Hown. f_equal. apply owners_same. intros p f' Hp Hf'. apply Eo. intros ->.
    destruct (rest_tok _ _ _ _ _ Ht _ _ Hp Hf') as [Hn _]. apply Hn. rewrite Etp. set_solver. }
  pose proof Ht as [_ _ _ Hq Hh Hcs Hon Hre].
  apply (strand_step _ _ _ _ _ Ht _ _ _ _ []); try done.
  - unfold tokens. by rewrite Etp, Etp', app_nil_r.
  - apply list.Forall_forall. intros t Hin. destruct (Hlt t Hin).
    eapply queued_frame; [by eapply (proj1 (list.Forall_forall _ _) Hq)|by apply Em|by apply Eo|done].
  - intros p Hp. assert (Hne : forall f', f' ∈ tok p -> (f' < F)%nat /\ f' <> f).
    { intros f' Hf'. destruct (rest_tok _ _ _ _ _ Ht _ _ Hp Hf') as (Hn & _ & ?). split; [done|].
      intros ->. apply Hn. rewrite Etp. set_solver. }
    eapply perm_frame; [by apply (rest_ok _ _ _ _ _ Ht)| |done..| |].
    + intros f' [? ?]%Hne. split; [by apply Em|]. split; [by apply Eo|by apply Eb].
    + intros _. split; [done|]. split; [|done]. intros q. apply Hch. set_solver.
    + intros f' Hf' Hr [H1 H2]. unfold left_over. rewrite Ehd in *. done.
  - destruct Hh as [H1 H2 H3 H4|H1 H2 H3|q H1 H2 H3 H4|H1 H2 H3 H4 (q & Hin & Hdu)].
    + apply head_free; [congruence|done..|congruence].
    + apply head_owned; [congruence|done|congruence].
    + apply head_busy with q; [congruence|done| |congruence]. apply Hch; [set_solver|done].
    + apply head_left; [congruence| |done|congruence|].
      * rewrite Ehd. apply Hch; [set_solver|done].
      * exists q. split; [|done]. apply elem_of_app in Hin as [Hin|Hin]; [|set_solver]. by rewrite Hnd in Hdu.
  - by rewrite HoR.
Qed.

Lemma addr_ne f f' : (f < F)%nat -> (f' < F)%nat -> f' <> f -> addr f <> addr f'.
Proof. intros Hf Hf' Hne E. by destruct Hne; apply Hinj. Qed.

Lemma own_lt tr s gh p f R : strand_trace tr s gh (p :: R) -> f ∈ tok p -> (f < F)%nat.
Proof. intros Ht Hf. apply (st_lt _ _ _ _ Ht). unfold tokens. simpl. set_solver. Qed.

(** [Combine] sets its waiter and its locals up. *)
Lemma move_init tr s gh f k R :
  strand_trace tr s gh (Idle f k :: R) ->
  strand_trace tr (mkStrand (waiters_head s) (<[addr f := mkWaiter 0 (f, k) f]> (mem s))
    (<[f := false]> (owner s)) (<[f := 0]> (maybe_batch_head s))) gh (Ready true f k :: R).
Proof.
  intros Ht. pose proof (own_lt _ _ _ _ f _ Ht ltac:(set_solver)) as Hf.
  apply (private_step _ _ _ _ f [Idle f k] [_] R Ht); try done.
  - split; simpl; [done|..]; intros; rewrite fn_lookup_insert_ne; [done|by apply addr_ne|done|congruence|done|congruence].
  - apply list.Forall_singleton. split; [by pose proof (st_perm _ _ _ _ Ht) as [? _]%list.Forall_cons|].
    unfold node_ok. simpl. rewrite !fn_lookup_insert. done.
  - intros q ->%list_elem_of_singleton. done.
Qed.

Lemma move_link tr s gh f k n R :
  strand_trace tr s gh (Ready true f k :: R) ->
  strand_trace tr (mkStrand (waiters_head s)
    (<[addr f := mkWaiter n (w_task (mem s (addr f))) (w_fiber (mem s (addr f)))]> (mem s))
    (owner s) (maybe_batch_head s)) gh (Linked f k n :: R).
Proof.
  intros Ht. pose proof (own_lt _ _ _ _ f _ Ht ltac:(set_solver)) as Hf.
  pose proof (st_perm _ _ _ _ Ht) as [(Hfr & [Hn1 Hn2] & Ho) _]%list.Forall_cons.
  apply (private_step _ _ _ _ f [Ready true f k] [_] R Ht); try done.
  - split; simpl; [done| |done..]. intros. rewrite fn_lookup_insert_ne; [done|by apply addr_ne].
  - apply list.Forall_singleton. unfold perm_ok, node_ok. simpl. rewrite !fn_lookup_insert. simpl. auto.
  - intros q ->%list_elem_of_singleton. done.
Qed.

(** The awaiter hands ownership to its own fiber. *)
Lemma move_become tr s gh f k b B R :
  strand_trace tr s gh (Ready true f k :: Own None b B :: R) ->
  strand_trace tr (mkStrand (waiters_head s) (mem s) (<[f := true]> (owner s))
    (<[f := b]> (maybe_batch_head s))) gh (Resume f k :: R).
Proof.
  intros Ht. pose proof (Ht : strand_trace tr s gh ([_; _] ++ R)) as Ht'.
  pose proof (st_perm _ _ _ _ Ht) as [(Hfr & Hn & Ho) [(Hb & Hc & Hcs) _]%list.Forall_cons]%list.Forall_cons.
  apply (private_step _ _ _ _ f _ [_] R Ht'); try done.
  - split; simpl; [done..| |]; intros; rewrite fn_lookup_insert_ne; congruence || done.
  - apply list.Forall_singleton. split; [done|]. simpl. rewrite !fn_lookup_insert, Hb. done.
  - rewrite !owners_cons. simpl. by rewrite fn_lookup_insert.
  - intros q. rewrite !elem_of_cons. by intros [->|[->|?%elem_of_nil]].
Qed.

(** ** Moves of a resumed fiber *)

Lemma move_resume tr s gh f k R :
  strand_trace tr s gh (Resume f k :: R) ->
  if owner s f
  then strand_trace tr s gh (Own None (maybe_batch_head s f) (g_batch gh) :: Ready false f k :: R)
  else strand_trace tr s gh (Duty f k :: R).
Proof.
  intros Ht. pose proof (st_perm _ _ _ _ Ht) as [(Hn & Hp) _]%list.Forall_cons. destruct (owner s f) eqn:E.
  - destruct Hp as (? & ? & ?). apply (retag _ _ _ (Resume f k) [_; _] [] R); try done.
    + by apply Forall_two.
    + rewrite !owners_cons. simpl. by rewrite E.
    + intros Hl. destruct (read_left _ _ _ _ Ht Hl) as (_ & _ & Ho & _). rewrite owners_cons in Ho. simpl in Ho.
      rewrite E in Ho. lia.
  - apply (retag _ _ _ (Resume f k) [_] [] R); try done.
    + by apply list.Forall_singleton.
    + rewrite !owners_cons. simpl. by rewrite E.
    + intros _ Hd. exists (Duty f k). split; [set_solver|done].
Qed.

Lemma move_look tr s gh f k R :
  strand_trace tr s gh (Duty f k :: R) ->
  (left_over s -> strand_trace tr s gh (DutyAt f k (waiters_head s) :: R)) /\
  (~ left_over s -> strand_trace tr s gh (Served f k :: R)).
Proof.
  intros Ht. pose proof (st_perm _ _ _ _ Ht) as [Hp _]%list.Forall_cons. split; intros Hl.
  - apply (retag _ _ _ (Duty f k) [_] [] R); try done; [by apply list.Forall_singleton|].
    intros _ Hd. exists (DutyAt f k (waiters_head s)). split; [set_solver|done].
  - by apply (retag _ _ _ (Duty f k) [_] [] R); try done; apply list.Forall_singleton.
Qed.

(** The second look found another head: the left-over waiters, if any, are
    somebody else's duty. *)
Lemma move_look_away tr s gh f k h R :
  strand_trace tr s gh (DutyAt f k h :: R) -> waiters_head s <> h -> strand_trace tr s gh (Served f k :: R).
Proof.
  intros Ht Hh. pose proof (st_perm _ _ _ _ Ht) as [[Hp1 Hp2] _]%list.Forall_cons.
  apply (retag _ _ _ (DutyAt f k h) [_] [] R); try done; [by apply list.Forall_singleton|].
  intros Hl [= Hr]. by destruct Hh; apply Hp2.
Qed.

Lemma move_look_take tr s gh f k R :
  strand_trace tr s gh (DutyAt f k (waiters_head s) :: R) -> left_over s ->
  strand_trace tr (set_head s GetDummyWaiter) (mkGhost [] (g_stack gh) (g_resp gh))
    (Own None (waiters_head s) (g_stack gh) :: Served f k :: R).
Proof.
  intros Ht Hl. pose proof (st_perm _ _ _ _ Ht) as [[Hp1 Hp2] _]%list.Forall_cons.
  pose proof (move_take_left _ _ _ _ Ht Hl) as Ht2.
  eapply strand_trace_perm; [apply perm_swap|].
  apply (retag _ _ _ (DutyAt f k (waiters_head s)) [_] [] (Own None (waiters_head s) (g_stack gh) :: R)); try done.
  - eapply strand_trace_perm; [apply perm_swap|exact Ht2].
  - by apply list.Forall_singleton.
  - by intros ?%not_left_dummy.
Qed.

Lemma move_returned tr s gh f k R :
  strand_trace tr s gh (Served f k :: R) -> strand_trace (tr ++ [SReturned (f, k)]) s gh (Idle f (S k) :: R).
Proof.
  intros Ht. pose proof (Ht : strand_trace tr s gh ([_] ++ R)) as Ht'.
  pose proof (st_perm _ _ _ _ Ht) as [[Hp1 Hp2] _]%list.Forall_cons. pose proof Ht as [_ _ _ Hq Hh Hcs Hon Hre].
  assert (Ecs : cs_inside (tr ++ [SReturned (f, k)]) None = cs_inside tr None).
  { rewrite cs_inside_app. by destruct (cs_inside tr None) as [[]|]. }
  apply (strand_step _ _ _ _ _ Ht' _ _ _ [_] []); try done.
  - by rewrite app_nil_r.
  - apply list.Forall_singleton. by apply fresh_snoc.
  - eapply Forall_impl; [|exact Hq]. intros t Hok. eapply queued_frame; [exact Hok|done..|].
    intros k' Hf. by apply fresh_snoc.
  - intros p Hp. eapply perm_frame; [by apply (rest_ok _ _ _ _ _ Ht')|done| |set_solver|done|done].
    intros f' k' _ Hf. by apply fresh_snoc.
  - destruct Hh as [H1 H2 H3 H4|H1 H2 H3|q H1 H2 H3 H4|H1 H2 H3 H4 (q & Hin & Hdu)].
    + by apply head_free.
    + by apply head_owned.
    + by apply head_busy with q.
    + apply head_left; [done..|]. exists q. split; [|done]. apply elem_of_cons in Hin as [->|Hin]; [done|set_solver].
  - by rewrite Ecs.
  - rewrite entered_app. simpl. by rewrite app_nil_r.
  - apply returns_after_snoc; [done|]. by intros t [= <-].
Qed.

Lemma move_done tr s gh f k R : strand_trace tr s gh (Idle f k :: R) -> strand_trace tr s gh R.
Proof. intros Ht. by apply (retag _ _ _ (Idle f k) [] [f] R). Qed.

Lemma move_unlink tr s gh f k n R : strand_trace tr s gh (Linked f k n :: R) -> strand_trace tr s gh (Ready true f k :: R).
Proof.
  intros Ht. pose proof (st_perm _ _ _ _ Ht) as [(? & ? & ? & ?) _]%list.Forall_cons.
  by apply (retag _ _ _ (Linked f k n) [_] [] R); try done; apply list.Forall_singleton.
Qed.

Lemma move_mine tr s gh w f k R : strand_trace tr s gh (Ready w f k :: R) -> strand_trace tr s gh (Ready false f k :: R).
Proof.
  intros Ht. pose proof (st_perm _ _ _ _ Ht) as [(? & ? & ?) _]%list.Forall_cons.
  by apply (retag _ _ _ (Ready w f k) [_] [] R); try done; apply list.Forall_singleton.
Qed.

(** ** Specifications *)

#[local, refine] Instance strand_discipline : Discipline Strand sev := {
  perm := sperm;
  view := fun _ => tt;
  obj_inv := fun _ => True;
  ghost := sghost;
  waiting := fun _ gh => map (fun t => (t.1, [Resume t.1 t.2])) (g_stack gh ++ g_batch gh);
  trace_inv := strand_trace;
}.
Proof. intros. by eapply strand_trace_perm. Defined.

Abbreviation post A := (A -> option unit -> list (fid * list sperm) -> list sperm -> Prop).
Abbreviation holds st gh ps := (exists tr P, strand_trace tr st gh (ps ++ P)).
Abbreviation keeps st gh ps st' gh' ps' := (forall tr P, strand_trace tr st gh (ps ++ P) -> strand_trace tr st' gh' (ps' ++ P)).

(** An atomic access without events. *)
Lemma wp_atomic self {A B} (a : Strand -> Strand * B) (k : B -> prog Strand sev A) hs ps (Q : post A) :
  (forall st gh, holds st gh ps ->
    exists gh' hs' ps', waiting st gh ++ hs ≡ₚ waiting (a st).1 gh' ++ hs' /\ keeps st gh ps (a st).1 gh' ps' /\
      wp self (k (a st).2) None hs' ps' Q) ->
  wp self (bind (access (fun st => (a st, []))) k) None hs ps Q.
Proof.
  intros H. simpl. intros st gh _ Ht. destruct (H st gh Ht) as (gh' & hs' & ps' & Hw & Hk & Hq).
  exists gh', hs', ps'. split; [done|]. split; [done|]. split; [|done]. intros tr P. rewrite app_nil_r. apply Hk.
Qed.

(** Reading only. *)
Lemma wp_read self {A B} (g : Strand -> B) (k : B -> prog Strand sev A) hs ps (Q : post A) :
  (forall st gh, holds st gh ps -> exists ps', keeps st gh ps st gh ps' /\ wp self (k (g st)) None hs ps' Q) ->
  wp self (bind (access (fun st => (st, g st, []))) k) None hs ps Q.
Proof.
  intros H. apply (wp_atomic self (fun st => (st, g st))). intros st gh Ht. destruct (H st gh Ht) as (ps' & ? & ?).
  exists gh, hs, ps'. done.
Qed.

Lemma wp_load self {A} (k : Z -> prog Strand sev A) hs ps (Q : post A) :
  (forall h, wp self (k h) None hs ps Q) -> wp self (bind load_head k) None hs ps Q.
Proof. intros H. apply (wp_read self waiters_head). eauto. Qed.

Lemma wp_cas self e d {A} (k : bool * Z -> prog Strand sev A) hs ps (Q : post A) :
  (forall st gh, holds st gh ps -> waiters_head st = e ->
    exists gh' hs' ps', waiting st gh ++ hs ≡ₚ waiting st gh' ++ hs' /\ keeps st gh ps (set_head st d) gh' ps' /\
      wp self (k (true, e)) None hs' ps' Q) ->
  (forall st gh, holds st gh ps -> waiters_head st <> e ->
    exists ps', keeps st gh ps st gh ps' /\ wp self (k (false, waiters_head st)) None hs ps' Q) ->
  wp self (bind (cas_head e d) k) None hs ps Q.
Proof.
  intros Hs Hf. simpl. intros st gh _ Ht. destruct (Z.eqb_spec (waiters_head st) e) as [He|He].
  - destruct (Hs st gh Ht He) as (gh' & hs' & ps' & ? & Hk & ?). exists gh', hs', ps'.
    split; [done|]. split; [done|]. split; [|done]. intros tr P. simpl. rewrite app_nil_r. apply Hk.
  - destruct (Hf st gh Ht He) as (ps' & Hk & ?). exists gh, hs, ps'.
    split; [done|]. split; [done|]. split; [|done]. intros tr P. simpl. rewrite app_nil_r. apply Hk.
Qed.

(** The rest of a batch that starts at [p]. *)
Definition batch_at (p : Z) (B : list task) : Prop := (p = 0 /\ B = []) \/ (p <> 0 /\ B <> [] /\ 0 < p < 2 ^ 63).

Lemma own_batch tr s gh cs p B P : strand_trace tr s gh (Own cs p B :: P) -> batch_at p B.
Proof.
  intros Ht. pose proof (st_perm _ _ _ _ Ht) as [(Hb & Hc & _) _]%list.Forall_cons. destruct B as [|[f k] B]; [by left|].
  right. destruct Hc as [-> _]. assert (f < F)%nat as Hf; [|pose proof (Hrange f Hf); repeat split; [lia|done|lia..]].
  apply (st_lt _ _ _ _ Ht). unfold tokens. rewrite Hb, map_app. set_solver.
Qed.

Lemma wp_RunTask self (w : bool) f k p B hs ps R0 (Q : post unit) :
  (forall st gh, keeps st gh ps st gh (Own None p B :: Ready w f k :: R0)) ->
  Q tt None hs (Own None p B :: (if w then Resume f k else Served f k) :: R0) ->
  wp self (RunTask (addr f)) None hs ps Q.
Proof.
  intros Hps HQ. apply (wp_read self (fun s => w_task (mem s (addr f)))). intros st gh (tr & P & Ht).
  eexists. split; [apply Hps|]. apply Hps in Ht.
  pose proof (st_perm _ _ _ _ Ht) as [_ [(_ & [-> _] & _) _]%list.Forall_cons]%list.Forall_cons.
  apply (wp_mark (D := strand_discipline) self (SEnter (f, k)) _ _ _ _ (Own (Some (f, k)) p B :: Running w f k :: R0)); [intros; by apply move_enter|].
  apply (wp_mark (D := strand_discipline) self _ (@Ret Strand sev unit) _ _ _ (Own None p B :: (if w then Resume f k else Served f k) :: R0)); [intros; by apply move_leave|done].
Qed.

Lemma wp_Schedule self f k hs ps R0 (Q : post unit) :
  ps ≡ₚ Resume f k :: R0 -> Q tt None hs R0 ->
  wp self (waiter_Schedule (addr f)) None ((f, [Resume f k]) :: hs) ps Q.
Proof.
  intros Hps HQ. apply (wp_read self (fun s => w_fiber (mem s (addr f)))). intros st gh (tr & P & Ht). exists ps. split; [done|].
  eapply strand_trace_perm in Ht; [|by rewrite Hps].
  pose proof (st_perm _ _ _ _ Ht) as [([_ ->] & _) _]%list.Forall_cons.
  by apply (wp_schedule (D := strand_discipline) self _ _ [Resume f k] (@Ret Strand sev unit) _ _ hs _ R0).
Qed.

Lemma wp_take_batch self h hs R0 (Q : post (option Z)) :
  Q None None hs R0 ->
  (forall h B, StripBusyBit h <> 0 -> Q (Some h) None hs (Own None (StripBusyBit h) B :: R0)) ->
  wp self (take_batch h) None hs (Own None 0 [] :: R0) Q.
Proof.
  intros HN HS. apply (wp_loop (D := strand_discipline) self _ _ (fun _ hs' ps => hs' = hs /\ ps = Own None 0 [] :: R0)); [done|].
  intros h' hs' ps [-> ->]. case_decide as Hd.
  - subst h'. apply wp_cas.
    + intros st gh _ He. exists gh, hs, R0. split; [done|]. split; [|done]. intros tr P Ht. by apply move_free.
    + intros st gh _ _. by exists (Own None 0 [] :: R0).
  - apply wp_cas.
    + intros st gh (tr & P & Ht) <-. exists (mkGhost [] (g_stack gh) (g_resp gh)), hs, (Own None (StripBusyBit (waiters_head st)) (g_stack gh) :: R0).
      assert (Hb : g_batch gh = []) by (by pose proof (st_perm _ _ _ _ Ht) as [(? & _) _]%list.Forall_cons).
      split; [simpl; by rewrite Hb, app_nil_r|]. split; [intros tr' P' Ht'; by apply move_take_busy|]. simpl. apply HS.
      assert (owners st (Own None 0 [] :: (R0 ++ P)) = 1%nat) as Ho1.
      { pose proof (owners_le _ _ _ (st_head _ _ _ _ Ht)) as Hle. cbn [app] in Hle. rewrite owners_cons in *. simpl in *. lia. }
      destruct (read_busy _ _ _ _ Ht Hd (read_owned _ _ _ _ Ht Ho1)) as (p & _ & -> & ? & _). done.
    + intros st gh _ _. by exists (Own None 0 [] :: R0).
Qed.

Lemma wp_release self h f k hs R0 (Q : post unit) :
  Q tt None hs (Resume f k :: R0) -> wp self (release h) None hs (Own None 0 [] :: Resume f k :: R0) Q.
Proof.
  intros HQ. apply (wp_loop (D := strand_discipline) self _ _ (fun _ hs' ps => hs' = hs /\ ps = Own None 0 [] :: Resume f k :: R0)); [done|].
  intros h' hs' ps [-> ->]. apply wp_cas.
  - intros st gh _ He. case_decide as Hd.
    + exists gh, hs, (Resume f k :: R0). split; [done|]. split; [|done]. intros tr P Ht. apply move_free; [done|congruence].
    + subst h'. exists (mkGhost (g_stack gh) (g_batch gh) f), hs, (Resume f k :: R0). split; [done|]. split; [|done].
      intros tr P Ht. by apply move_leave_stack.
  - intros st gh _ _. by exists (Own None 0 [] :: Resume f k :: R0).
Qed.

(** Read the link of the first waiter: it leaves the batch. *)
Lemma wp_pop self p B {A} (c : Z -> prog Strand sev A) hs R0 (Q : post A) :
  p <> 0 ->
  (forall f k n B', p = addr f -> batch_at n B' ->
    wp self (c n) None ((f, [Resume f k]) :: hs) (Own None n B' :: Ready true f k :: R0) Q) ->
  wp self (bind (access (fun s => (s, w_next (mem s p), []))) c) None hs (Own None p B :: R0) Q.
Proof.
  intros Hp HQ. apply (wp_atomic self (fun s => (s, w_next (mem s p)))). intros st gh (tr & P & Ht).
  destruct (own_batch _ _ _ _ _ _ _ Ht) as [[? _]|(_ & HB & _)]; [done|]. destruct B as [|[f k] B]; [done|].
  destruct (move_pop _ _ _ _ _ _ _ _ Ht) as [-> Ht'].
  assert (Hb : g_batch gh = (f, k) :: B) by (by pose proof (st_perm _ _ _ _ Ht) as [(? & _) _]%list.Forall_cons).
  exists (mkGhost (g_stack gh) B (g_resp gh)), ((f, [Resume f k]) :: hs), (Own None (w_next (mem st (addr f))) B :: Ready true f k :: R0).
  split; [|split].
  - simpl. rewrite Hb, !map_app. simpl. solve_Permutation.
  - intros tr0 P0 Ht0. exact (proj2 (move_pop _ _ _ _ _ _ _ _ Ht0)).
  - simpl. apply HQ; [done|]. by eapply own_batch.
Qed.

(** What the owner holds before the waiter [p] of its batch. *)
Definition at_batch (p : Z) (R0 ps : list sperm) : Prop :=
  if decide (p = 0) then ps = R0 else exists B, ps = Own None p B :: R0.

Lemma wp_run_batch self p hs R0 ps (Q : post unit) :
  at_batch p R0 ps -> Q tt None hs R0 -> wp self (run_batch p) None hs ps Q.
Proof.
  intros Hat HQ. apply (wp_loop (D := strand_discipline) self _ _ (fun p hs' ps => hs' = hs /\ at_batch p R0 ps)); [done|].
  clear p ps Hat. intros p hs' ps [-> Hat]. unfold at_batch in Hat. case_decide as Hp; [by subst ps|].
  destruct Hat as [B ->]. apply wp_pop; [done|]. intros f k n B' -> Hn. apply wp_bind.
  apply (wp_RunTask self true f k n B' _ _ R0); [done|]. apply wp_bind. destruct Hn as [[-> ->]|(Hn & _)].
  - rewrite decide_True by done. apply wp_load. intros h. apply wp_release, wp_bind. by eapply wp_Schedule.
  - rewrite decide_False by done. apply wp_bind. eapply wp_Schedule; [apply perm_swap|]. simpl.
    unfold at_batch. rewrite decide_False by done. eauto.
Qed.

(** [ProcessBatch(b)]: the owner gives the strand up. *)
Lemma wp_ProcessBatch self b B hs R0 (Q : post unit) :
  batch_at b B -> Q tt None hs R0 -> wp self (ProcessBatch b) None hs (Own None b B :: R0) Q.
Proof.
  intros Hb HQ. unfold ProcessBatch. destruct Hb as [[-> ->]|(Hb & _ & Hr)].
  - rewrite decide_True by done. apply wp_load. intros h. apply wp_bind, wp_take_batch; [done|].
    intros h' B Hne. apply wp_run_batch with R0; [|done]. unfold at_batch. rewrite decide_False by done. eauto.
  - rewrite decide_False, strip_id by lia || done. apply wp_run_batch with R0; [|done].
    unfold at_batch. rewrite decide_False by done. eauto.
Qed.

Lemma wp_become_owner self f k b B (Q : post unit) :
  Q tt None [] [] ->
  wp self (become_owner addr f b) None [(f, [Resume f k])] [Ready true f k; Own None b B] Q.
Proof.
  intros HQ. apply (wp_atomic self (fun s => (mkStrand (waiters_head s) (mem s) (<[f := true]> (owner s))
       (<[f := b]> (maybe_batch_head s)), tt))). intros st gh _. exists gh, [(f, [Resume f k])], [Resume f k].
  split; [done|]. split; [intros tr P; apply move_become|]. by eapply wp_Schedule.
Qed.

(** Null or a left-over stack taken: ownership. *)
Lemma wp_take self h {A} (c : bool * Z -> prog Strand sev A) hs p R0 (Q : post A) :
  h = 0 \/ (h <> 0 /\ IsBusy h = false) ->
  (forall B, batch_at h B -> wp self (c (true, h)) None hs (p :: Own None h B :: R0) Q) ->
  (forall h', wp self (c (false, h')) None hs (p :: R0) Q) ->
  wp self (bind (cas_head h GetDummyWaiter) c) None hs (p :: R0) Q.
Proof.
  intros Hh HS HF. apply wp_cas; [|eauto]. intros st gh (tr & P & Ht) <-. destruct Hh as [Hh|Hh].
  - rewrite Hh in *. exists gh, hs, (p :: Own None 0 [] :: R0). split; [done|]. split; [|apply HS; by left].
    intros tr' P' Ht'. eapply strand_trace_perm; [apply perm_swap|]. by apply move_take_free.
  - assert (Hl : left_over st) by done. pose proof (move_take_left _ _ _ _ Ht Hl) as Hown%own_batch.
    exists (mkGhost [] (g_stack gh) (g_resp gh)), hs, (p :: Own None (waiters_head st) (g_stack gh) :: R0). split; [|split; [|auto]].
    + destruct (read_left _ _ _ _ Ht Hl) as (_ & Hb & _). simpl. by rewrite Hb, app_nil_r.
    + intros tr' P' Ht'. eapply strand_trace_perm; [apply perm_swap|]. by apply move_take_left.
Qed.

(** Push on the stack of an owned strand. *)
Lemma wp_push self f k h n {A} (c : bool * Z -> prog Strand sev A) (Q : post A) :
  (h = GetDummyWaiter /\ n = 0) \/ (h <> GetDummyWaiter /\ IsBusy h = true /\ n = StripBusyBit h) ->
  wp self (c (true, h)) None [] [] Q ->
  (forall h', wp self (c (false, h')) None [(f, [Resume f k])] [Ready true f k] Q) ->
  wp self (SetNext (addr f) n ;> r <~ cas_head h (AddBusyBit (addr f)) ;> c r) None [(f, [Resume f k])] [Ready true f k] Q.
Proof.
  intros Hh HS HF. apply (wp_atomic self (fun s => let w := mem s (addr f) in
    (mkStrand (waiters_head s) (<[addr f := mkWaiter n (w_task w) (w_fiber w)]> (mem s))
       (owner s) (maybe_batch_head s), tt))). intros st gh _. exists gh, [(f, [Resume f k])], [Linked f k n].
  split; [done|]. split; [intros tr P; apply move_link|]. apply wp_cas.
  - intros st' gh' (tr & P & Ht) <-. exists (mkGhost ((f, k) :: g_stack gh') (g_batch gh') (g_resp gh')), [], [].
    split; [simpl; solve_Permutation|]. split; [|done]. intros tr' P' Ht'. by eapply move_push.
  - intros st' gh' _ _. exists [Ready true f k]. split; [|done]. intros tr P. apply move_unlink.
Qed.

Lemma wp_awaiter self f k :
  wp self (combine_awaiter addr f) None [(f, [Resume f k])] [Ready true f k] (fun _ => ends).
Proof.
  apply wp_load. intros h.
  apply (wp_loop (D := strand_discipline) self _ _ (fun _ hs' ps => hs' = [(f, [Resume f k])] /\ ps = [Ready true f k])); [done|].
  clear h. intros h hs' ps [-> ->]. case_decide as H0; [|case_decide as Hd; [|destruct (IsBusy h) eqn:Hb]].
  - apply wp_take; [auto| |done]. intros B _. subst h. by apply wp_bind, wp_become_owner.
  - apply wp_push; [auto|done..].
  - apply wp_push; [auto|done..].
  - apply wp_take; [auto| |done]. intros B _. by apply wp_bind, wp_become_owner.
Qed.

Lemma wp_after_suspend self k (Q : post unit) :
  Q tt None [] [Served self k] -> wp self (after_suspend addr self) None [] [Resume self k] Q.
Proof.
  intros HQ. apply (wp_read self (fun s => (owner s self, maybe_batch_head s self))). intros st gh (tr & P & Ht).
  pose proof (move_resume _ _ _ _ _ _ Ht) as Hm. destruct (owner st self) eqn:Eo.
  - exists [Own None (maybe_batch_head st self) (g_batch gh); Ready false self k].
    split; [intros tr' P' Ht'; apply move_resume in Ht'; by rewrite Eo in Ht'|]. cbn [fst snd]. apply wp_bind.
    apply (wp_RunTask self false self k (maybe_batch_head st self) (g_batch gh) _ _ []); [done|].
    apply wp_ProcessBatch; [|done]. by eapply own_batch.
  - exists [Duty self k]. split; [intros tr' P' Ht'; apply move_resume in Ht'; by rewrite Eo in Ht'|].
    cbn [fst snd]. clear tr P Ht Hm Eo st gh. apply (wp_read self waiters_head). intros st gh _.
    destruct (negb (waiters_head st =? 0) && negb (IsBusy (waiters_head st))) eqn:Hl.
    + exists [DutyAt self k (waiters_head st)]. assert (Hlo : left_over st).
      { unfold left_over. bool_hyps. split; [lia|]. by destruct (IsBusy _). }
      split; [intros tr P Ht; by apply (move_look _ _ _ _ _ _ Ht)|]. apply wp_cas.
      * intros st' gh' (tr & P & Ht) He. rewrite <- He in *.
        assert (Hlo' : left_over st') by (unfold left_over in *; rewrite He; done).
        exists (mkGhost [] (g_stack gh') (g_resp gh')), [], [Own None (waiters_head st') (g_stack gh'); Served self k].
        split; [|split].
        -- destruct (read_left _ _ _ _ Ht Hlo') as (_ & Hb & _). simpl. by rewrite Hb, !app_nil_r.
        -- intros tr' P' Ht'. by apply move_look_take.
        -- apply wp_ProcessBatch; [|done]. eapply own_batch, move_look_take; done.
      * intros st' gh' _ He. exists [Served self k]. split; [|done]. intros tr P Ht. by eapply move_look_away.
    + exists [Served self k]. split; [|done]. intros tr P Ht. apply (move_look _ _ _ _ _ _ Ht).
      intros [H1 H2]. rewrite H2 in Hl. destruct (Z.eqb_spec (waiters_head st) 0); done.
Qed.

Lemma wp_Combine self k (Q : post unit) :
  Q tt None [] [Served self k] -> wp self (Combine addr self (self, k)) None [] [Idle self k] Q.
Proof.
  intros HQ. apply (wp_atomic self (fun s =>
    (mkStrand (waiters_head s) (<[addr self := mkWaiter 0 (self, k) self]> (mem s))
       (<[self := false]> (owner s)) (<[self := 0]> (maybe_batch_head s)), tt))).
  intros st gh _. exists gh, [], [Ready true self k]. split; [done|]. split; [intros tr P; apply move_init|]. clear st gh.
  apply wp_load. intros h. apply wp_bind.
  assert (Hslow : wp self (fiber_Suspend (fun _ => combine_awaiter addr self) ;> after_suspend addr self) None [] [Ready true self k] Q).
  { apply wp_bind, (wp_suspend (D := strand_discipline) self [Resume self k]); [apply wp_awaiter|]. by apply wp_after_suspend. }
  case_decide as Hh; [|exact Hslow].
  apply wp_take; [by left| |intros; exact Hslow]. intros B Hb. cbn [fst snd]. apply wp_bind.
  apply (wp_RunTask self false self k 0 B _ _ []).
  - intros st gh tr P Ht. eapply strand_trace_perm; [apply perm_swap|]. eapply move_mine, Ht.
  - by apply wp_ProcessBatch.
Qed.

(** In every reachable state the events are those of a mutual exclusion. *)
Lemma inside_defined tr s gh P : strand_trace tr s gh P -> cs_inside tr None <> None.
Proof.
  intros Ht. destruct (decide (owners s P = 0%nat)) as [H0|H1].
  - by rewrite (st_cs _ _ _ _ Ht H0).
  - unfold owners in H1. destruct (filter (fun p => own_tok s p = true) P) as [|p l] eqn:E; [done|].
    assert (Hp : p ∈ filter (fun p => own_tok s p = true) P) by (rewrite E; set_solver).
    apply list_elem_of_filter in Hp as [Ho Hp]. pose proof (proj1 (list.Forall_forall _ _) (st_perm _ _ _ _ Ht) p Hp) as Hok.
    destruct p; simpl in *; try done.
    + rewrite Ho in Hok. by destruct Hok as (_ & _ & _ & ->).
    + by destruct Hok as (_ & _ & ->).
Qed.

(** With no permission outstanding nobody waits. *)
Lemma nothing_left tr s gh : strand_trace tr s gh [] -> g_stack gh ++ g_batch gh = [].
Proof.
  intros Ht. destruct (st_head _ _ _ _ Ht) as [? -> -> ?|? ? Ho|? ? ? ? Ho|? ? ? ? (p & Hp & _)]; [done|done|done|].
  by apply elem_of_nil in Hp.
Qed.

(** The permission of a client with [n] calls to go. *)
Definition calls_left (f : fid) (k n : nat) : list sperm := match n with O => [] | S _ => [Idle f k] end.

Lemma wp_client self k n : wp self (combine_calls addr self k n) None [] (calls_left self k n) (fun _ => ends).
Proof.
  revert k. induction n as [|n IH]; intros k; [done|]. apply wp_bind, wp_Combine.
  apply (wp_mark (D := strand_discipline) self _ _ _ _ _ (calls_left self (S k) n)); [|apply IH].
  intros tr st gh P Ht. apply move_returned in Ht. destruct n; [by eapply move_done|done].
Qed.

Lemma calls_left_tok (ns : list nat) o :
  base.NoDup (concat (imap (fun i n => calls_left (o + i) 0 n) ns) ≫= tok) /\
  (forall f, f ∈ concat (imap (fun i n => calls_left (o + i) 0 n) ns) ≫= tok -> (o <= f < o + length ns)%nat).
Proof.
  revert o. induction ns as [|n ns IH]; intros o; simpl.
  { split; [constructor|]. intros f Hf. by apply elem_of_nil in Hf. }
  assert (E : imap ((fun i n0 => calls_left (o + i) 0 n0) ∘ S) ns = imap (fun i n0 => calls_left (S o + i) 0 n0) ns).
  { apply imap_ext. intros i x _. simpl. by rewrite Nat.add_succ_r. }
  rewrite E, bind_app. destruct (IH (S o)) as [Hnd Hlt]. rewrite Nat.add_0_r. destruct n as [|n]; simpl.
  - split; [done|]. intros f Hf%Hlt. lia.
  - split.
    + apply list.NoDup_cons; split; [|done]. intros Hf%Hlt. lia.
    + intros f [->|Hf%Hlt]%elem_of_cons; lia.
Qed.

Lemma in_calls (ns : list nat) p : p ∈ concat (imap (fun f n => calls_left f 0 n) ns) -> exists f, p = Idle f 0.
Proof.
  rewrite list_elem_of_In, in_concat. intros (l & Hl & Hp). apply list_elem_of_In in Hl, Hp.
  apply elem_of_lookup_imap_1 in Hl as (i & n & -> & _). destruct n; simpl in Hp; [by apply elem_of_nil in Hp|].
  apply list_elem_of_singleton in Hp. eauto.
Qed.

Lemma strand_clients (ns : list nat) :
  length ns = F ->
  clients_ok new_strand (imap (strand_client addr) ns) (imap (fun f n => calls_left f 0 n) ns) (mkGhost [] [] 0).
Proof.
  intros HF. destruct (calls_left_tok ns 0) as [Hnd Hlt]. simpl in Hnd, Hlt.
  assert (Ho : owners new_strand (concat (imap (fun f n => calls_left f 0 n) ns)) = 0%nat).
  { apply owners_zero. by intros p (f & ->)%in_calls. }
  split.
  - by rewrite !length_imap.
  - intros f b g. rewrite !list_lookup_imap. destruct (ns !! f) as [n|]; [|done]. intros [= <-] [= <-]. apply wp_client.
  - done.
  - done.
  - split; try done.
    + unfold tokens. by rewrite app_nil_r.
    + intros f. unfold tokens. rewrite app_nil_r. intros Hf%Hlt. lia.
    + apply list.Forall_forall. intros p (f & ->)%in_calls. intros k' _. by apply not_elem_of_nil.
    + by apply head_free.
    + constructor.
    + intros a t b Hab. by destruct a.
Qed.
End proof.

(** C25: for any number of fibers that each make any number of [Combine] calls
    on one strand, in every execution on [M] workers: critical sections exclude
    one another, each is run at most once, a call returns only after its own
    critical section has been run, and when nothing is running or scheduled any
    more, every fiber has completed - no waiter is left on the strand.  [addr]
    gives the addresses of the waiters: distinct user-space pointers. *)
Theorem strand_correct (addr : fid -> Z) (ns : list nat) (M : nat) tr c :
  (forall f f', (f < length ns)%nat -> (f' < length ns)%nat -> addr f = addr f' -> f = f') ->
  (forall f, (f < length ns)%nat -> 0 < addr f < 2 ^ 63 - 1) ->
  fsteps M (Go_all new_strand (imap (strand_client addr) ns)) tr c ->
  cs_inside (user (map snd tr)) None <> None /\
  base.NoDup (entered (user (map snd tr))) /\
  returns_after (user (map snd tr)) /\
  (quiescent M c -> completed (map snd tr) ≡ₚ seq 0 (fs_next (sh c))).
Proof.
  intros Hinj Hrange Hs. pose proof (strand_clients addr (length ns) Hinj Hrange ns eq_refl) as Hc.
  destruct (trace_holds (D := strand_discipline addr (length ns)) _ _ _ _ _ _ _ Hc Hs) as (gh & P & Ht). split; [|split; [|split]].
  - by eapply inside_defined; [..|exact Ht].
  - by destruct Ht.
  - by destruct Ht.
  - intros Hq. destruct (quiescent_waiting (D := strand_discipline addr (length ns)) _ _ _ _ _ _ _ Hc Hs Hq) as (_ & gh' & Ht' & Hp).
    assert (g_stack gh' ++ g_batch gh' = []) as Hnil by (by eapply nothing_left; [..|exact Ht']).
    simpl in Hp. rewrite Hnil in Hp. simpl in Hp. by rewrite app_nil_r in Hp.
Qed.

(** Two workers run four clients; the third and fourth find the strand busy. *)
Definition demo_addr (f : fid) : Z := 16 * Z.of_nat f + 16.

Lemma strand_correct_witness :
  exists tr c, fsteps 2 (Go_all new_strand (imap (strand_client demo_addr) [2; 1; 2; 1]%nat)) tr c /\
    length (entered (user (map snd tr))) = 6%nat /\ base.NoDup (entered (user (map snd tr))) /\
    completed (map snd tr) ≡ₚ seq 0 (fs_next (sh c)).
Proof.
  pose (r := drive (two_workers 300) (Go_all new_strand (imap (strand_client demo_addr) [2; 1; 2; 1]%nat))).
  assert (Hs : fsteps 2 (Go_all new_strand (imap (strand_client demo_addr) [2; 1; 2; 1]%nat)) r.2 r.1)
    by (apply drive_run; reflexivity).
  destruct (strand_correct demo_addr [2; 1; 2; 1]%nat 2 r.2 r.1) as (_ & H1 & _ & H2).
  - unfold demo_addr. intros. lia.
  - unfold demo_addr. simpl. intros. lia.
  - exact Hs.
  - exists r.2, r.1. split; [exact Hs|]. split; [vm_compute; reflexivity|]. split; [exact H1|].
    apply H2. split; [|vm_compute; reflexivity]. intros [|[|w]] Hw; [vm_compute; reflexivity..|lia].
Defined.
