(* ===== verification/Coro.v ===== *)
(** Synchronization of stackless coroutines: src/src/exe/coro/sync (event.hpp,
    wait_group.hpp, mutex_flavor/scoped_lock.hpp, mutex_flavor/run.hpp).

    The coroutines are programs of the machine of Fiber.v; [co_await] of a waiter
    runs its [await_suspend], whose result tells whether the coroutine stays
    suspended.  [Waiter::Schedule] submits the waiter to the coroutine's scheduler,
    or resumes the coroutine in place when it has none (the machine's [inline]);
    the correctness theorems are about coroutines with a scheduler. *)

From S2P Require Import Prelude Conc Task Fiber FiberSync.
Local Open Scope fiber_scope.

(** ** Rules *)
Section rules.
Context {St Ev : Type} `{D : !Discipline St Ev}.

(** [co_await]: the coroutine goes on with [g], or at once. *)
Lemma wp_await self g {A} (aw : fid -> prog St Ev bool) (k : bool -> prog St Ev A) ps Q :
  wp self (aw self) None [(self, g)] ps (fun b m hs ps' =>
    if b then ends m hs ps' else m = None /\ hs = [(self, g)] /\ wp self (k false) None [] ps' Q) ->
  wp self (k true) None [] g Q -> wp self (Suspend aw k) None [] ps Q.
Proof.
  intros Ha Hk. exists g. split; [|done]. eapply wp_mono; [exact Ha|].
  intros [] m hs ps' Hb; [done|]. destruct Hb as (-> & -> & ?). split; [done|]. exists []. done.
Qed.

Lemma wp_coro_yield self ps Q : Q tt None [] ps -> wp self (coro_Yield (fun _ => true)) None [] ps Q.
Proof.
  intros HQ. apply (wp_await self ps); [|done]. simpl. exists ps, [], []. rewrite app_nil_r. done.
Qed.
End rules.

(** ** The scoped lock *)
Module CMutex.
Import FMutex.
Abbreviation code := (prog FiberMutex ev).

(** [ScopedLockMutex::Lock(waiter)] *)
Definition coro_mutex_Lock (waiter : fid) : code bool :=
  act Lock ;>
  acquired <~ access (fun m =>
    if locked m then (mkMutex (locked m) (waiters m ++ [waiter]), false, [])
    else (mkMutex true (waiters m), true, [])) ;>
  act Unlock ;>
  Ret acquired.

(** [ScopedLockMutex::Unlock]: the waiter is scheduled under the spin lock. *)
Definition coro_mutex_Unlock : code unit :=
  act Lock ;>
  next <~ access (fun m =>
    match waiters m with
    | [] => (mkMutex false [], None, [])
    | w :: ws => (mkMutex true ws, Some w, [])
    end) ;>
  match next with Some w => act (Schedule w UpToYou) | None => Ret tt end ;>
  act Unlock.

(** [co_await mutex.ScopedLock()]: the lock guard is the rest of the program's. *)
Definition ScopedLock : code unit :=
  co_await (fun self => acquired <~ coro_mutex_Lock self ;> Ret (negb acquired)).

(** Clients: critical sections with suspensions inside, and yields. *)
Inductive co_op := Section_ (yields : nat) | CoYield.

Fixpoint co_yields (n : nat) : code unit :=
  match n with 0 => Ret tt | S n => coro_Yield (fun _ => true) ;> co_yields n end.

Definition co_step (i : nat) (o : co_op) : code unit :=
  match o with
  | Section_ n => ScopedLock ;> mark (Enter i) ;> co_yields n ;> mark (Leave i) ;> coro_mutex_Unlock
  | CoYield => coro_Yield (fun _ => true)
  end.

Fixpoint co_client (i : nat) (ops : list co_op) : code unit :=
  match ops with [] => Ret tt | o :: ops => co_step i o ;> co_client i ops end.

Lemma wp_coLock self Q :
  Q true None [(self, [Own])] [Own] -> Q false None [] [] ->
  wp self (coro_mutex_Lock self) None [(self, [Own])] [] Q.
Proof.
  intros Ht Hf. apply wp_lock. intros m Hinv. apply (wp_access (D := mutex_discipline)).
  intros m' gh Hm _. simpl in Hm. subst m'. destruct m as [[] ws]; simpl in *.
  - exists [], []. split; [rewrite map_app; solve_Permutation|]. split; [intros tr P; by rewrite app_nil_r|].
    eexists. repeat split; done.
  - exists [(self, [Own])], [Own]. split; [done|]. split; [|eexists; repeat split; done].
    intros tr P (o & Ho & -> & HP). rewrite app_nil_r. exists None. split; [done|]. simpl in *. by rewrite HP.
Qed.

Lemma wp_coUnlock self hs Q : Q tt None hs [] -> wp self coro_mutex_Unlock None hs [Own] Q.
Proof.
  intros Hk. apply wp_lock. intros m Hinv. apply (wp_access (D := mutex_discipline)). intros m' gh Hm (tr0 & P0 & Hown).
  simpl in Hm. subst m'. apply mutex_trace_own in Hown as (Hl & _ & _).
  destruct m as [l [|w ws]]; simpl in *; subst l.
  - exists hs, []. split; [done|]. split; [|eexists; repeat split; done].
    intros tr P (_ & -> & o & Ho & Hx)%mutex_trace_own. rewrite app_nil_r.
    exists None. destruct o; [done|]. done.
  - exists ((w, [Own]) :: hs), [Own]. split; [solve_Permutation|].
    split; [intros tr P; by rewrite app_nil_r|].
    exists [Own], hs, []. repeat split; [done..|]. eexists. repeat split; done.
Qed.

(** Enter and leave. *)
Lemma wp_enter self i {A} (k : unit -> code A) hs Q :
  wp self (k tt) None hs [InCS i] Q -> wp self (bind (mark (Enter i)) k) None hs [Own] Q.
Proof.
  apply (wp_mark (D := mutex_discipline)). intros tr m gh P (Hl & -> & o & Ho & Hx)%mutex_trace_own.
  exists (Some i). rewrite inside_app, Ho, Hl. by destruct o.
Qed.

Lemma wp_leave self i {A} (k : unit -> code A) hs Q :
  wp self (k tt) None hs [Own] Q -> wp self (bind (mark (Leave i)) k) None hs [InCS i] Q.
Proof.
  apply (wp_mark (D := mutex_discipline)). intros tr m gh P (Hl & -> & o & Ho & Hx)%mutex_trace_own.
  exists None. rewrite inside_app, Ho, Hl. destruct o; simplify_eq/=. by rewrite decide_True.
Qed.

Lemma wp_co_yields self n ps Q : Q tt None [] ps -> wp self (co_yields n) None [] ps Q.
Proof. intros HQ. induction n as [|n IH]; [done|]. by apply wp_bind, wp_coro_yield. Qed.

Lemma wp_ScopedLock self Q : Q tt None [] [Own] -> wp self ScopedLock None [] [] Q.
Proof. intros HQ. apply (wp_await (D := mutex_discipline) self [Own]); [|done]. by apply wp_bind, wp_coLock. Qed.

Lemma wp_co_client self i ops : wp self (co_client i ops) None [] [] (fun _ => ends).
Proof.
  induction ops as [|[n|] ops IH]; [done|..]; cbn [co_client]; apply wp_bind; cbn [co_step].
  - apply wp_bind, wp_ScopedLock, wp_enter, wp_bind, wp_co_yields, wp_leave. by apply wp_coUnlock.
  - by apply wp_coro_yield.
Qed.

Lemma co_clients clients :
  clients_ok (mkMutex false []) (imap co_client clients) (replicate (length (imap co_client clients)) []) tt.
Proof.
  apply clients_ok_nil; [|done..|by exists None].
  intros f b (ops & _ & ->)%list_lookup_imap_Some. apply wp_co_client.
Qed.
End CMutex.

(** ** The mutex that runs critical sections

    A waiter is a [Waiter<F>], where [F] is the type of its critical section: a number here.
    [Unlock<F>] casts the next waiter to the type of its own call; a waiter of another type is
    then read as what it is not ([BadCast]; what follows is undefined, and the model leaves the
    waiter alone). *)
Module RMutex.
Import FMutex.
Record RunMutex := mkRun { rlocked : bool; rwaiters : list (fid * nat) }.
Inductive rev := Ev (e : ev) | BadCast.
Abbreviation code := (prog RunMutex rev).

Definition run_mutex_Lock (F : nat) (waiter : fid) : code bool :=
  act Lock ;>
  acquired <~ access (fun m =>
    if rlocked m then (mkRun (rlocked m) (rwaiters m ++ [(waiter, F)]), false, [])
    else (mkRun true (rwaiters m), true, [])) ;>
  act Unlock ;>
  Ret acquired.

(** The waiter is scheduled under the spin lock. *)
Definition run_mutex_Unlock (F : nat) : code unit :=
  act Lock ;>
  next <~ access (fun m =>
    match rwaiters m with
    | [] => (mkRun false [], None, [])
    | w :: ws => (mkRun true ws, Some w, [])
    end) ;>
  match next with
  | Some (w, G) => if G =? F then act (Schedule w UpToYou) else mark BadCast
  | None => Ret tt
  end ;>
  act Unlock.

(** [co_await mutex.Run(cs)]: the critical section is run in [await_suspend], or
    by [Waiter::Run] before the coroutine is resumed. *)
Definition run_mutex_Run (F : nat) (cs : code unit) : code unit :=
  Suspend (fun self =>
      acquired <~ run_mutex_Lock F self ;>
      if acquired : bool then cs ;> run_mutex_Unlock F ;> Ret false else Ret true)
    (fun scheduled => if scheduled then cs ;> run_mutex_Unlock F else Ret tt).

(** Clients run critical sections of several types, and yield. *)
Inductive run_op := RunSection (F : nat) | RunYield.
Definition run_step (i : nat) (o : run_op) : code unit :=
  match o with
  | RunSection F => run_mutex_Run F (mark (Ev (Enter i)) ;> mark (Ev (Leave i)))
  | RunYield => coro_Yield (fun _ => true)
  end.
Fixpoint run_client (i : nat) (ops : list run_op) : code unit :=
  match ops with [] => Ret tt | o :: ops => run_step i o ;> run_client i ops end.

Definition of_type (F : nat) (o : run_op) : Prop := match o with RunSection G => G = F | RunYield => True end.

Definition run_events (tr : list rev) : list ev := omap (fun e => match e with Ev e => Some e | BadCast => None end) tr.
(** The mutex without the types. *)
Definition untyped (m : RunMutex) : FiberMutex := mkMutex (rlocked m) (map fst (rwaiters m)).

Section one_type.
Context (F : nat).

Definition run_trace (tr : list rev) (m : RunMutex) (P : list mperm) : Prop :=
  BadCast ∉ tr /\ mutex_trace (run_events tr) (untyped m) P.

#[local, refine] Instance run_discipline : Discipline RunMutex rev := {
  perm := mperm;
  view := fun m => m;
  obj_inv := fun m => (rlocked m = false -> rwaiters m = []) /\ Forall (fun w => w.2 = F) (rwaiters m);
  ghost := unit;
  waiting := fun m _ => map (fun w => (w.1, [Own])) (rwaiters m);
  trace_inv := fun tr st _ P => run_trace tr st P;
}.
Proof. intros tr m _ P P' HP [Hb (o & Ho & Hm)]. split; [done|]. exists o. split; [done|]. destruct (locked _); by rewrite <- HP. Defined.

Lemma wp_run_Lock self Q :
  Q true None [(self, [Own])] [Own] -> Q false None [] [] ->
  wp self (run_mutex_Lock F self) None [(self, [Own])] [] Q.
Proof.
  intros Ht Hf. apply wp_lock. intros m Hinv. apply (wp_access (D := run_discipline)).
  intros m' gh Hm _. simpl in Hm. subst m'. destruct m as [[] ws], Hinv as [Hinv HF]; simpl in *.
  - exists [], []. split; [rewrite map_app; solve_Permutation|]. split; [intros tr P [Hb Ht']; rewrite app_nil_r; by split|].
    eexists. split; [done|]. split; [|done]. split; [done|]. apply Forall_app. by split; [|constructor].
  - exists [(self, [Own])], [Own]. split; [done|]. split; [|eexists; repeat split; done].
    intros tr P (Hb & o & Ho & -> & HP). rewrite app_nil_r. split; [done|]. exists None. split; [done|]. simpl in *. by rewrite HP.
Qed.

Lemma wp_run_Unlock self hs Q : Q tt None hs [] -> wp self (run_mutex_Unlock F) None hs [Own] Q.
Proof.
  intros Hk. apply wp_lock. intros m Hinv. apply (wp_access (D := run_discipline)). intros m' gh Hm (tr0 & P0 & _ & Hown).
  simpl in Hm. subst m'. apply mutex_trace_own in Hown as (Hl & _ & _).
  destruct m as [l [|[w G] ws]], Hinv as [Hinv HF]; simpl in *; subst l.
  - exists hs, []. split; [done|]. split; [|eexists; repeat split; done].
    intros tr P (Hb & (_ & -> & o & Ho & Hx)%mutex_trace_own). rewrite app_nil_r.
    split; [done|]. exists None. destruct o; [done|]. done.
  - apply Forall_cons_iff in HF as [HG HF]. simpl in HG. subst G.
    exists ((w, [Own]) :: hs), [Own]. split; [solve_Permutation|].
    split; [intros tr P [Hb Ht]; rewrite app_nil_r; by split|]. rewrite Nat.eqb_refl.
    exists [Own], hs, []. repeat split; [done..|]. eexists. repeat split; done.
Qed.

(** Enter and leave. *)
Lemma wp_run_mark self e (x y : mperm) {A} (k : unit -> code A) hs Q :
  (forall tr m P, mutex_trace tr m ([x] ++ P) -> mutex_trace (tr ++ [e]) m ([y] ++ P)) ->
  wp self (k tt) None hs [y] Q -> wp self (bind (mark (Ev e)) k) None hs [x] Q.
Proof.
  intros H. apply (wp_mark (D := run_discipline)). intros tr m gh P [Hb Ht]. split.
  - rewrite elem_of_app. intros [?|Hin]; [done|]. by apply list_elem_of_singleton in Hin.
  - unfold run_events. rewrite omap_app. by apply H.
Qed.
Lemma wp_run_section self i {A} (k : unit -> code A) hs Q :
  wp self (k tt) None hs [Own] Q -> wp self (bind (mark (Ev (Enter i)) ;> mark (Ev (Leave i))) k) None hs [Own] Q.
Proof.
  intros Hk. cbn [bind]. apply wp_bind, (wp_run_mark self (Enter i) Own (InCS i) (fun _ => mark (Ev (Leave i)))).
  { intros tr m P (Hl & -> & o & Ho & Hx)%mutex_trace_own. exists (Some i). rewrite inside_app, Ho, Hl. by destruct o. }
  apply (wp_run_mark self (Leave i) (InCS i) Own Ret); [|done].
  intros tr m P (Hl & -> & o & Ho & Hx)%mutex_trace_own. exists None. rewrite inside_app, Ho, Hl. destruct o; simplify_eq/=. by rewrite decide_True.
Qed.

Lemma wp_run self i Q : Q tt None [] [] -> wp self (run_mutex_Run F (mark (Ev (Enter i)) ;> mark (Ev (Leave i)))) None [] [] Q.
Proof.
  intros HQ. apply (wp_await (D := run_discipline) self [Own]).
  - apply wp_bind, wp_run_Lock; [|done]. apply wp_run_section. by apply wp_bind, wp_run_Unlock.
  - apply wp_run_section. by apply wp_run_Unlock.
Qed.

Lemma wp_run_client self i ops : Forall (of_type F) ops -> wp self (run_client i ops) None [] [] (fun _ => ends).
Proof.
  induction 1 as [|[G|] ops HG _ IH]; [done|..]; cbn [run_client]; apply wp_bind; cbn [run_step].
  - cbn in HG. subst G. by apply wp_run.
  - by apply wp_coro_yield.
Qed.

Lemma run_clients clients : Forall (Forall (of_type F)) clients ->
  clients_ok (mkRun false []) (imap run_client clients) (replicate (length (imap run_client clients)) []) tt.
Proof.
  intros HF. apply clients_ok_nil; [|done| |]; [|by split; [|constructor]|by split; [apply not_elem_of_nil|exists None]].
  intros f b (ops & Hops & ->)%list_lookup_imap_Some. apply wp_run_client. rewrite list.Forall_lookup in HF. by eapply HF.
Qed.
End one_type.
End RMutex.

(** ** Event *)
Module CEvent.
Record CoroEvent := mkEvent { fired : bool; waiters : list fid }.

(** The event is fired; a client has returned from [Wait]; a null waiter was
    dereferenced. *)
Inductive ev := Fired | Returned (i : nat) | NullWaiter.
Abbreviation code := (prog CoroEvent ev).

(** [co_await event.Wait()] *)
Definition coro_event_Wait : code unit :=
  co_await (fun self =>
    act Lock ;>
    was_fired <~ access (fun e =>
      if fired e then (e, true, []) else (mkEvent false (waiters e ++ [self]), false, [])) ;>
    act Unlock ;>
    Ret (negb was_fired)).

Definition coro_event_Size : code nat := access (fun e => (e, length (waiters e), [])).
Definition coro_event_PopFront : code (option fid) :=
  access (fun e =>
    match waiters e with
    | [] => (e, None, [])
    | w :: ws => (mkEvent (fired e) ws, Some w, [])
    end).
(** [static_cast<Waiter*>(w)->Schedule()] *)
Definition coro_event_Schedule (w : option fid) : code unit :=
  match w with Some w => act (Schedule w UpToYou) | None => mark NullWaiter end.

(** The waiters are popped after the lock has been released. *)
Definition coro_event_Fire : code unit :=
  act Lock ;>
  empty <~ access (fun e => (mkEvent true (waiters e), bool_decide (waiters e = []), [Fired])) ;>
  act Unlock ;>
  if empty : bool then Ret tt
  else
    loop tt (fun _ =>
      n <~ coro_event_Size ;>
      if 1 <? n then
        w <~ coro_event_PopFront ;>
        coro_event_Schedule w ;>
        Ret (inl tt)
      else Ret (inr tt)) ;>
    w <~ coro_event_PopFront ;>
    coro_event_Schedule w.

(** Clients wait any number of times; one of them fires, once. *)
Inductive client_op := DoWait | DoYield.

Definition client_step (i : nat) (o : client_op) : code unit :=
  match o with
  | DoWait => coro_event_Wait ;> mark (Returned i)
  | DoYield => coro_Yield (fun _ => true)
  end.

Fixpoint client (i : nat) (ops : list client_op) (k : code unit) : code unit :=
  match ops with [] => k | o :: ops => client_step i o ;> client i ops k end.

Definition firer (yields : nat) (post : list client_op) : code unit :=
  client 0 (replicate yields DoYield) (coro_event_Fire ;> client 0 post (Ret tt)).

Definition bodies (yields : nat) (post : list client_op) (clients : list (list client_op)) : list (code unit) :=
  firer yields post :: imap (fun i ops => client (S i) ops (Ret tt)) clients.

(** Every return from [Wait] comes after the event was fired. *)
Fixpoint returns_ok (tr : list ev) (f : bool) : bool :=
  match tr with
  | [] => true
  | Fired :: tr => returns_ok tr true
  | Returned _ :: tr => f && returns_ok tr f
  | NullWaiter :: _ => false
  end.

Definition is_fired (tr : list ev) : bool := existsb (fun e => match e with Fired => true | _ => false end) tr.

Lemma coro_returns_ok_app tr tr' f : returns_ok (tr ++ tr') f = returns_ok tr f && returns_ok tr' (f || is_fired tr).
Proof.
  revert f. induction tr as [|[|i|] tr IH]; intros f; simpl; [by rewrite orb_false_r|..|done].
  - by rewrite IH, orb_true_r.
  - rewrite IH. by destruct f.
Qed.

(** To fire; to pop the waiters [ws]; to return from [Wait]. *)
Inductive eperm := MayFire | Firing (ws : list fid) | Passed.
#[export] Instance eperm_eq_dec : EqDecision eperm.
Proof. solve_decision. Defined.

(** The permissions that can be outstanding in a state. *)
Definition fire_perm (e : CoroEvent) (P : list eperm) : Prop :=
  if fired e then
    (waiters e = [] /\ filter (.≠ Passed) P ≡ₚ []) \/ filter (.≠ Passed) P ≡ₚ [Firing (waiters e)]
  else P ≡ₚ [MayFire].

Record coro_event_trace (tr : list ev) (e : CoroEvent) (P : list eperm) : Prop := {
  ce_returns : returns_ok tr false = true;
  ce_fired : is_fired tr = fired e;
  ce_perm : fire_perm e P;
}.

Lemma coro_event_trace_perm tr e P P' : P ≡ₚ P' -> coro_event_trace tr e P -> coro_event_trace tr e P'.
Proof. intros HP [H1 H2 H3]. split; [done..|]. unfold fire_perm in *. destruct (fired e); by rewrite <- HP. Qed.

(** While the event is fired, its waiters are the firing coroutine's. *)
#[export, refine] Instance coro_event_discipline : Discipline CoroEvent ev := {
  perm := eperm;
  view := fun e => (fired e, if fired e then [] else waiters e);
  obj_inv := fun _ => True;
  ghost := unit;
  waiting := fun e _ => map (fun f => (f, [Passed])) (waiters e);
  trace_inv := fun tr st _ P => coro_event_trace tr st P;
}.
Proof. intros tr e _. apply coro_event_trace_perm. Defined.

Lemma trace_may_fire tr e P : coro_event_trace tr e (MayFire :: P) -> fired e = false /\ P = [].
Proof.
  intros [_ _ Hp]. unfold fire_perm in Hp. destruct (fired e).
  - rewrite list.filter_cons_True in Hp by done. destruct Hp as [[_ Hp]|Hp].
    + by apply Permutation_nil_r in Hp.
    + by apply Permutation_singleton_r in Hp.
  - apply Permutation_singleton_r in Hp. by simplify_eq.
Qed.

Lemma trace_firing tr e ws P : coro_event_trace tr e (Firing ws :: P) ->
  fired e = true /\ waiters e = ws /\ filter (.≠ Passed) P = [].
Proof.
  intros [_ _ Hp]. unfold fire_perm in Hp. destruct (fired e).
  - rewrite list.filter_cons_True in Hp by done. destruct Hp as [[_ Hp]|Hp].
    + by apply Permutation_nil_r in Hp.
    + apply Permutation_singleton_r in Hp. by simplify_eq.
  - by apply Permutation_singleton_r in Hp.
Qed.

Lemma trace_passed tr e P : coro_event_trace tr e (Passed :: P) -> fired e = true.
Proof.
  intros [_ _ Hp]. unfold fire_perm in Hp. destruct (fired e); [done|]. by apply Permutation_singleton_r in Hp.
Qed.

(** Permissions to return come and go while the event is fired. *)
Lemma fire_perm_passed e P : fired e = true -> fire_perm e (Passed :: P) <-> fire_perm e P.
Proof. intros Hf. unfold fire_perm. rewrite Hf. by rewrite list.filter_cons_False by (by intros ?). Qed.

Lemma trace_wait tr e P : fired e = true -> coro_event_trace tr e P -> coro_event_trace tr e (Passed :: P).
Proof. intros Hf [H1 H2 H3]. split; [done..|]. by apply fire_perm_passed. Qed.

Lemma cev_push tr e P f : fired e = false -> coro_event_trace tr e P ->
  coro_event_trace tr (mkEvent false (waiters e ++ [f])) P.
Proof. intros Hf [H1 H2 H3]. unfold fire_perm in *. rewrite Hf in *. done. Qed.

Lemma trace_returned tr e P i : coro_event_trace tr e (Passed :: P) -> coro_event_trace (tr ++ [Returned i]) e P.
Proof.
  intros Ht. pose proof (trace_passed _ _ _ Ht) as Hf. destruct Ht as [H1 H2 H3]. split.
  - by rewrite coro_returns_ok_app, H1, H2, Hf.
  - unfold is_fired in *. by rewrite existsb_app, H2, Hf.
  - by apply fire_perm_passed.
Qed.

Lemma trace_fire tr e P : coro_event_trace tr e (MayFire :: P) ->
  coro_event_trace (tr ++ [Fired]) (mkEvent true (waiters e)) (Firing (waiters e) :: P).
Proof.
  intros Ht. destruct (trace_may_fire _ _ _ Ht) as [Hf ->]. destruct Ht as [H1 H2 H3]. split.
  - by rewrite coro_returns_ok_app, H1.
  - unfold is_fired. rewrite existsb_app. simpl. by rewrite orb_true_r.
  - by right.
Qed.

Lemma cev_pop tr e w ws P : coro_event_trace tr e (Firing (w :: ws) :: P) ->
  coro_event_trace tr (mkEvent (fired e) ws) (Passed :: Firing ws :: P).
Proof.
  intros Ht. destruct (trace_firing _ _ _ _ Ht) as (Hf & Hw & HP). destruct Ht as [H1 H2 H3]. split; [done..|].
  apply fire_perm_passed; [done|]. unfold fire_perm. simpl. rewrite Hf. right.
  rewrite list.filter_cons_True by done. by rewrite HP.
Qed.

Lemma cev_done tr e P : coro_event_trace tr e (Firing [] :: P) -> coro_event_trace tr e P.
Proof.
  intros Ht. destruct (trace_firing _ _ _ _ Ht) as (Hf & Hw & HP). destruct Ht as [H1 H2 H3]. split; [done..|].
  unfold fire_perm. rewrite Hf. left. by rewrite HP.
Qed.

Abbreviation post A := (A -> option (bool * list fid) -> list (fid * list eperm) -> list eperm -> Prop).

Lemma wp_coro_Wait self (Q : post unit) :
  Q tt None [] [Passed] -> wp self coro_event_Wait None [] [] Q.
Proof.
  intros HQ. apply (wp_await (D := coro_event_discipline) self [Passed]); [|done].
  apply wp_lock. intros v _. apply (wp_access (D := coro_event_discipline)). intros e gh _ _. destruct (fired e) eqn:Hf.
  - exists [(self, [Passed])], [Passed]. split; [done|]. split; [intros tr P; rewrite app_nil_r; by apply trace_wait|].
    by apply wp_unlock.
  - exists [], []. split; [simpl; rewrite map_app; solve_Permutation|].
    split; [intros tr P; rewrite app_nil_r; by apply cev_push|]. by apply wp_unlock.
Qed.

(** The firing coroutine's accesses without the lock. *)
Lemma wp_Size self ws {A} (k : nat -> code A) (Q : post A) :
  wp self (k (length ws)) None [] [Firing ws] Q -> wp self (bind coro_event_Size k) None [] [Firing ws] Q.
Proof.
  intros HQ. simpl. intros e gh _ (tr & P & Ht). destruct (trace_firing _ _ _ _ Ht) as (_ & <- & _).
  exists gh, [], [Firing (waiters e)]. split; [done|]. split; [done|]. split; [|done]. intros. by rewrite app_nil_r.
Qed.

Lemma wp_PopFront self w ws {A} (k : option fid -> code A) (Q : post A) :
  wp self (k (Some w)) None [(w, [Passed])] (Passed :: match ws with [] => [] | _ => [Firing ws] end) Q ->
  wp self (bind coro_event_PopFront k) None [] [Firing (w :: ws)] Q.
Proof.
  intros HQ. simpl. intros e gh _ (tr & P & Ht). destruct (trace_firing _ _ _ _ Ht) as (Hf & Hw & _). rewrite Hw. simpl.
  exists gh, [(w, [Passed])], (Passed :: match ws with [] => [] | _ => [Firing ws] end).
  split; [solve_Permutation|]. split; [by rewrite Hf|]. split.
  - intros tr' P' Ht'. rewrite app_nil_r. apply cev_pop in Ht'. destruct ws; [|done].
    eapply cev_done, coro_event_trace_perm; [apply perm_swap|done].
  - exact HQ.
Qed.

Lemma wp_coro_Fire self (Q : post unit) : Q tt None [] [] -> wp self coro_event_Fire None [] [MayFire] Q.
Proof.
  intros HQ. apply wp_lock. intros v _. apply (wp_access (D := coro_event_discipline)). intros e gh _ _.
  exists [], (match waiters e with [] => [] | ws => [Firing ws] end). split; [done|]. split.
  { intros tr P Ht%trace_fire. simpl. destruct (waiters e); [by eapply cev_done|done]. }
  apply wp_unlock; [done|]. cbn [fst snd]. destruct (waiters e) as [|w ws]; [done|]. rewrite bool_decide_eq_false_2 by done.
  apply wp_bind. apply (wp_loop (D := coro_event_discipline) self _ _ (fun _ hs ps => hs = [] /\ exists w ws, ps = [Firing (w :: ws)])); [eauto|].
  clear w ws v e gh. intros [] hs ps (-> & w & ws & ->). apply wp_Size. destruct ws as [|w' ws]; simpl length.
  - change (1 <? 1) with false. apply (wp_PopFront self w []). by exists [Passed], [], [].
  - change (1 <? S (S (length ws))) with true. apply (wp_PopFront self w (w' :: ws)).
    exists [Passed], [], [Firing (w' :: ws)]. simpl. eauto 10.
Qed.

Lemma wp_client_ops self i ops k ps :
  wp self k None [] ps (fun _ => ends) -> (ps = [] \/ Forall (.= DoYield) ops) ->
  wp self (client i ops k) None [] ps (fun _ => ends).
Proof.
  intros Hk Hops. induction ops as [|o ops IH]; [done|]. cbn [client]. apply wp_bind. destruct o; cbn [client_step].
  - destruct Hops as [->|Hops]; [|by inversion Hops]. apply wp_bind, wp_coro_Wait.
    apply (wp_mark (D := coro_event_discipline) self _ Ret _ _ _ []); [|simpl; auto]. intros tr e gh P. apply trace_returned.
  - apply wp_coro_yield. apply IH. destruct Hops as [|Hops]; [by left|]. right. by inversion Hops.
Qed.

Lemma coro_event_clients yields post clients :
  clients_ok (mkEvent false []) (bodies yields post clients) ([MayFire] :: replicate (length clients) []) tt.
Proof.
  split; try done.
  - simpl. by rewrite length_imap, length_replicate.
  - intros [|f] b g; simpl.
    + intros [= <-] [= <-]. apply wp_client_ops; [|right; by apply Forall_replicate].
      apply wp_bind, wp_coro_Fire, wp_client_ops; [done|by left].
    + intros (ops & _ & ->)%list_lookup_imap_Some [-> _]%lookup_replicate. apply wp_client_ops; [done|by left].
  - assert (concat (replicate (length clients) []) = @nil eperm) as E by (induction clients as [|? ? IH]; [done|exact IH]).
    change (coro_event_trace [] (mkEvent false []) (MayFire :: concat (replicate (length clients) []))). rewrite E. split; [done|done|]. unfold fire_perm. simpl. done.
Qed.
End CEvent.

(** ** WaitGroup

    The last waiter is popped after the lock has been released.  The counter
    must not be raised from zero again once it has been reached: the clients
    below keep to that, with one coroutine that holds a unit of work itself while
    it adds the others. *)
Module CWaitGroup.
Import FWaitGroup.

(** The events of FiberSync.v's wait group; a null waiter was dereferenced. *)
Inductive cev := Ev (e : ev) | NullWaiter.
Abbreviation code := (prog FiberWaitGroup cev).

Definition coro_wg_Add (count : nat) : code unit :=
  act Lock ;>
  access (fun g => (mkWG (u64 (running g + Z.of_nat count)) (waiters g), tt, [Ev (Added count)])) ;>
  act Unlock.

Definition coro_wg_Size : code nat := access (fun g => (g, length (waiters g), [])).
Definition coro_wg_PopFront : code (option fid) :=
  access (fun g =>
    match waiters g with
    | [] => (g, None, [])
    | w :: ws => (mkWG (running g) ws, Some w, [])
    end).
Definition coro_wg_Schedule (w : option fid) : code unit :=
  match w with Some w => act (Schedule w UpToYou) | None => mark NullWaiter end.

Definition coro_wg_Done : code unit :=
  act Lock ;>
  return_ <~ access (fun g =>
    let n := u64 (running g - 1) in
    (mkWG n (waiters g), negb (n =? 0)%Z || bool_decide (waiters g = []), [Ev Finished])) ;>
  if return_ : bool then act Unlock
  else
    loop tt (fun _ =>
      n <~ coro_wg_Size ;>
      if 1 <? n then
        w <~ coro_wg_PopFront ;>
        coro_wg_Schedule w ;>
        Ret (inl tt)
      else Ret (inr tt)) ;>
    act Unlock ;>
    w <~ coro_wg_PopFront ;>
    coro_wg_Schedule w.

Definition coro_wg_WaitSuspend (waiter : fid) : code bool :=
  act Lock ;>
  suspended <~ access (fun g =>
    if decide (running g = 0%Z) then (g, false, [])
    else (mkWG (running g) (waiters g ++ [waiter]), true, [])) ;>
  act Unlock ;>
  Ret suspended.

(** [co_await wg.Wait()] *)
Definition coro_wg_Wait : code unit := co_await coro_wg_WaitSuspend.

(** Clients: the leader adds a unit for itself, starts groups of jobs, and
    finishes its own unit; then it waits.  The others only wait. *)
Fixpoint co_wg_yields (n : nat) : code unit :=
  match n with 0 => Ret tt | S n => coro_Yield (fun _ => true) ;> co_wg_yields n end.

Fixpoint co_spawn_jobs (js : list nat) : code unit :=
  match js with [] => Ret tt | n :: js => Spawn (co_wg_yields n ;> coro_wg_Done) (co_spawn_jobs js) end.

Fixpoint co_fork_groups (gs : list (list nat)) : code unit :=
  match gs with
  | [] => Ret tt
  | js :: gs => coro_wg_Add (length js) ;> co_spawn_jobs js ;> co_fork_groups gs
  end.

Fixpoint co_waits (i n : nat) : code unit :=
  match n with
  | 0 => Ret tt
  | S n => mark (Ev (WaitBegin i)) ;> coro_wg_Wait ;> mark (Ev (WaitEnd i)) ;> co_waits i n
  end.

Definition leader (gs : list (list nat)) (n : nat) : code unit :=
  coro_wg_Add 1 ;> co_fork_groups gs ;> coro_wg_Done ;> co_waits 0 n.

Definition wg_bodies (gs : list (list nat)) (n : nat) (others : list nat) : list (code unit) :=
  leader gs n :: imap (fun i n => co_waits (S i) n) others.

(** What is known of the control flow: nobody has added yet; the coroutine that
    took the counter to zero has the waiters [ws] to pop. *)
Inductive ctl := Start | Close (ws : list fid).
Abbreviation cperm := (wperm + ctl)%type.

Definition wpart (P : list cperm) : list wperm := omap (fun p => match p with inl p => Some p | inr _ => None end) P.
Definition cpart (P : list cperm) : list ctl := omap (fun p => match p with inl _ => None | inr c => Some c end) P.
Definition events (tr : list cev) : list ev := omap (fun e => match e with Ev e => Some e | NullWaiter => None end) tr.

Definition ctl_ok (g : FiberWaitGroup) (T : list ctl) : Prop :=
  if decide (running g = 0%Z) then
    (waiters g = [] /\ (T ≡ₚ [] \/ T ≡ₚ [Start])) \/ (waiters g <> [] /\ T ≡ₚ [Close (waiters g)])
  else T ≡ₚ [].

Record coro_wg_trace (N : nat) (tr : list cev) (g : FiberWaitGroup) (P : list cperm) : Prop := {
  cw_null : NullWaiter ∉ tr;
  cw_wg : wg_trace N (events tr) g (wpart P);
  cw_ctl : ctl_ok g (cpart P);
}.

#[export] Instance wpart_proper : Proper (Permutation ==> Permutation) wpart.
Proof. intros P P' HP. unfold wpart. by rewrite HP. Qed.
#[export] Instance cpart_proper : Proper (Permutation ==> Permutation) cpart.
Proof. intros P P' HP. unfold cpart. by rewrite HP. Qed.

Lemma coro_wg_trace_perm N tr g P P' : P ≡ₚ P' -> coro_wg_trace N tr g P -> coro_wg_trace N tr g P'.
Proof.
  intros HP [H1 H2 H3]. split; [done|..].
  - eapply wg_trace_perm; [|exact H2]. by rewrite HP.
  - unfold ctl_ok in *. case_decide; by rewrite <- HP.
Qed.

Lemma wpart_app P P' : wpart (P ++ P') = wpart P ++ wpart P'.
Proof. apply omap_app. Qed.
Lemma cpart_app P P' : cpart (P ++ P') = cpart P ++ cpart P'.
Proof. apply omap_app. Qed.
Lemma cpart_work p P : cpart (inl p :: P) = cpart P.
Proof. reflexivity. Qed.
Lemma cpart_ctl c P : cpart (inr c :: P) = c :: cpart P.
Proof. reflexivity. Qed.
Lemma wpart_work p P : wpart (inl p :: P) = p :: wpart P.
Proof. reflexivity. Qed.
Lemma wpart_ctl c P : wpart (inr c :: P) = wpart P.
Proof. reflexivity. Qed.
Lemma wpart_inl P : wpart (map inl P) = P.
Proof. induction P as [|p P IH]; [done|]. cbn. f_equal. exact IH. Qed.
Lemma cpart_inl P : cpart (map inl P) = [].
Proof. induction P as [|p P IH]; [done|]. exact IH. Qed.
Lemma events_app tr tr' : events (tr ++ tr') = events tr ++ events tr'.
Proof. apply omap_app. Qed.

(** *** Moves *)
Section moves.
Context (N : nat) (HN : (Z.of_nat N < 2^64)%Z).
Abbreviation ctrace := (coro_wg_trace N).

(** A step of the permissions of FiberSync.v. *)
Lemma lift tr e g g' ps ps' R :
  ctrace tr g (map inl ps ++ R) ->
  (wg_trace N (events tr) g (ps ++ wpart R) -> wg_trace N (events tr ++ e) g' (ps' ++ wpart R)) ->
  (ctl_ok g (cpart R) -> ctl_ok g' (cpart R)) -> ctrace (tr ++ map Ev e) g' (map inl ps' ++ R).
Proof.
  intros [H1 H2 H3] Hw Hc. rewrite wpart_app, wpart_inl in H2. rewrite cpart_app, cpart_inl in H3. split.
  - rewrite elem_of_app. intros [?|(? & ? & _)%list_elem_of_fmap]; done.
  - rewrite events_app, wpart_app, wpart_inl. assert (events (map Ev e) = e) as ->; [|auto].
    clear. induction e as [|x e IH]; [done|]. cbn. f_equal. exact IH.
  - rewrite cpart_app, cpart_inl. auto.
Qed.

Lemma work_running tr g P : wg_trace N tr g P -> Work ∈ P -> running g <> 0%Z.
Proof.
  intros Ht (l1 & l2 & ->)%list_elem_of_split. rewrite (wt_running _ _ _ _ Ht), count_app, count_cons, decide_True by done. lia.
Qed.

Lemma move_start tr g R :
  ctrace tr g (inr Start :: inl Credit :: R) ->
  ctrace (tr ++ [Ev (Added 1)]) (mkWG (u64 (running g + 1)) (waiters g)) (inl Work :: R).
Proof.
  intros [H1 H2 H3]. assert (running g = 0%Z /\ cpart R = []) as [Hr HT].
  { unfold ctl_ok in H3. rewrite ?cpart_work, cpart_ctl, ?cpart_work in H3. case_decide; [|by apply Permutation_nil_r in H3].
    destruct H3 as [(_ & [H3|H3])|(_ & H3)]; [by apply Permutation_nil_r in H3| |];
      apply Permutation_singleton_r in H3; by simplify_eq. }
  apply (trace_add N HN 1) in H2. split.
  - set_solver.
  - by rewrite events_app.
  - unfold ctl_ok. cbn [running waiters]. rewrite decide_False; [by rewrite cpart_work, HT|]. apply (work_running _ _ _ H2). simpl. set_solver.
Qed.

Lemma move_add n tr g R :
  ctrace tr g (inl Work :: map inl (replicate n Credit) ++ R) ->
  ctrace (tr ++ [Ev (Added n)]) (mkWG (u64 (running g + Z.of_nat n)) (waiters g)) (inl Work :: map inl (replicate n Work) ++ R).
Proof.
  intros Ht. assert (Hp : forall p, inl Work :: map inl (replicate n p) ++ R ≡ₚ map inl (replicate n p) ++ inl Work :: R)
    by (intros; solve_Permutation).
  eapply coro_wg_trace_perm; [by rewrite Hp|]. eapply coro_wg_trace_perm in Ht; [|by rewrite Hp].
  pose proof (cw_wg _ _ _ _ Ht) as Hw. rewrite wpart_app, wpart_inl in Hw.
  eapply (lift tr [Added n]); [exact Ht|by apply (trace_add N HN)|].
  unfold ctl_ok. rewrite decide_False by (apply (work_running _ _ _ Hw); simpl; set_solver).
  rewrite decide_False; [done|]. apply (trace_add N HN) in Hw. apply (work_running _ _ _ Hw). simpl. set_solver.
Qed.

(** The counter goes down; at zero with waiters they are the caller's. *)
Definition closing (n : Z) (ws : list fid) : list cperm :=
  if negb (n =? 0)%Z || bool_decide (ws = []) then [] else [inr (Close ws)].

Lemma cwg_done tr g R :
  ctrace tr g (inl Work :: R) ->
  ctrace (tr ++ [Ev Finished]) (mkWG (u64 (running g - 1)) (waiters g)) (closing (u64 (running g - 1)) (waiters g) ++ R).
Proof.
  intros [H1 H2 H3]. assert (HT : cpart R = []).
  { unfold ctl_ok in H3. rewrite decide_False in H3; [by apply Permutation_nil_r in H3|].
    apply (work_running _ _ _ H2). cbn. set_solver. }
  apply (trace_done N HN) in H2 as [H2 _]. unfold closing. split.
  - set_solver.
  - rewrite events_app. by case_match.
  - unfold ctl_ok. cbn [running waiters]. destruct (Z.eqb_spec (u64 (running g - 1)) 0) as [E|E]; simpl.
    + rewrite decide_True by done. case_bool_decide as Hw; cbn [app]; rewrite ?cpart_ctl, HT; [left; auto|right; auto].
    + rewrite decide_False by done. by rewrite HT.
Qed.

Lemma closing_state tr g ws R : ctrace tr g (inr (Close ws) :: R) -> running g = 0%Z /\ waiters g = ws /\ cpart R = [].
Proof.
  intros [_ _ H3]. unfold ctl_ok in H3. rewrite ?cpart_work, cpart_ctl, ?cpart_work in H3. case_decide; [|by apply Permutation_nil_r in H3].
  destruct H3 as [(_ & [H3|H3])|(_ & H3)]; [by apply Permutation_nil_r in H3| |];
    apply Permutation_singleton_r in H3; by simplify_eq.
Qed.

Lemma cwg_pop tr g w ws R :
  ctrace tr g (inr (Close (w :: ws)) :: R) ->
  ctrace tr (mkWG (running g) ws) (inl (Passed w) :: closing 0 ws ++ R).
Proof.
  intros Ht. destruct (closing_state _ _ _ _ Ht) as (Hr & Hw & HT). destruct Ht as [H1 H2 H3].
  destruct g as [r ws']. cbn [running waiters] in *. subst. unfold closing. split; [done|..].
  - simpl. case_bool_decide; by apply (trace_pop N HN).
  - unfold ctl_ok. cbn [running waiters]. rewrite decide_True by done. rewrite cpart_work. simpl negb. cbn [orb].
    case_bool_decide; cbn [app]; rewrite ?cpart_ctl, HT; [left|right]; auto.
Qed.

Lemma cwg_push tr g i R :
  ctrace tr g (inl (Begun i) :: R) -> running g <> 0%Z -> ctrace tr (mkWG (running g) (waiters g ++ [i])) R.
Proof.
  intros Ht Hr. rewrite <- (app_nil_r tr). apply (lift tr [] g _ [Begun i] [] R); [done| |].
  - rewrite app_nil_r. destruct g. by apply (trace_push N HN).
  - unfold ctl_ok. cbn [running]. by rewrite !decide_False by done.
Qed.

Lemma move_zero tr g i R : ctrace tr g (inl (Begun i) :: R) -> running g = 0%Z -> ctrace tr g (inl (Passed i) :: R).
Proof.
  intros Ht Hr. rewrite <- (app_nil_r tr). apply (lift tr [] g g [Begun i] [Passed i] R); [done| |done].
  rewrite app_nil_r. intros H. by apply (trace_zero N HN).
Qed.

Lemma move_begin tr g i R : ctrace tr g (inl (Idle i) :: R) -> ctrace (tr ++ [Ev (WaitBegin i)]) g (inl (Begun i) :: R).
Proof. intros Ht. apply (lift tr [WaitBegin i] g g [Idle i] [Begun i] R); [done|by apply (trace_begin N HN)|done]. Qed.

Lemma move_end tr g i R : ctrace tr g (inl (Passed i) :: R) -> ctrace (tr ++ [Ev (WaitEnd i)]) g (inl (Idle i) :: R).
Proof. intros Ht. apply (lift tr [WaitEnd i] g g [Passed i] [Idle i] R); [done|by apply (trace_end N HN)|done]. Qed.

Lemma move_drop tr g i R : ctrace tr g (inl (Idle i) :: R) -> ctrace tr g R.
Proof.
  intros Ht. rewrite <- (app_nil_r tr). apply (lift tr [] g g [Idle i] [] R); [done| |done].
  rewrite app_nil_r. by apply (trace_drop N HN).
Qed.
End moves.

(** *** Specifications *)
Section specs.
Context (N : nat) (HN : (Z.of_nat N < 2^64)%Z).

(** At zero the waiters are the closing coroutine's. *)
#[local, refine] Instance coro_wg_discipline : Discipline FiberWaitGroup cev := {
  perm := cperm;
  view := fun g => (running g, if decide (running g = 0%Z) then [] else waiters g);
  obj_inv := fun _ => True;
  ghost := unit;
  waiting := fun g _ => map (fun f => (f, [inl (Passed f)])) (waiters g);
  trace_inv := fun tr st _ P => coro_wg_trace N tr st P;
}.
Proof. intros. by eapply coro_wg_trace_perm. Defined.

Abbreviation post A := (A -> option (Z * list fid) -> list (fid * list cperm) -> list cperm -> Prop).

Lemma wp_coAdd self n ps ps' (Q : post unit) :
  (forall tr g P, coro_wg_trace N tr g (ps ++ P) ->
    coro_wg_trace N (tr ++ [Ev (Added n)]) (mkWG (u64 (running g + Z.of_nat n)) (waiters g)) (ps' ++ P)) ->
  Q tt None [] ps' -> wp self (coro_wg_Add n) None [] ps Q.
Proof.
  intros Hm HQ. apply wp_lock. intros v _. apply (wp_access (D := coro_wg_discipline)). intros g gh _ _.
  exists [], ps'. split; [done|]. split; [intros tr P; apply Hm|]. eexists. done.
Qed.

Lemma wp_co_Size self ws m R0 {A} (k : nat -> code A) (Q : post A) :
  (m = None \/ m = Some (0%Z, [])) ->
  wp self (k (length ws)) m [] (inr (Close ws) :: R0) Q ->
  wp self (bind coro_wg_Size k) m [] (inr (Close ws) :: R0) Q.
Proof.
  intros Hm HQ. simpl. intros g gh Hv (tr & P & Ht). destruct (closing_state _ _ _ _ _ Ht) as (Hr & <- & _).
  exists gh, [], (inr (Close (waiters g)) :: R0). split; [done|]. split; [done|]. split; [intros; by rewrite app_nil_r|].
  destruct Hm as [-> | ->]; [done|]. simpl. rewrite Hr, decide_True by done. done.
Qed.

(** Pop a waiter and schedule it. *)
Lemma wp_co_PopFront self w ws m R0 {A} (k : option fid -> code A) (Q : post A) :
  (m = None \/ m = Some (0%Z, [])) ->
  wp self (k (Some w)) m [(w, [inl (Passed w)])] (inl (Passed w) :: closing 0 ws ++ R0) Q ->
  wp self (bind coro_wg_PopFront k) m [] (inr (Close (w :: ws)) :: R0) Q.
Proof.
  intros Hm HQ. simpl. intros g gh Hv (tr & P & Ht). destruct (closing_state _ _ _ _ _ Ht) as (Hr & Hw & _). rewrite Hw. simpl.
  exists gh, [(w, [inl (Passed w)])], (inl (Passed w) :: closing 0 ws ++ R0). split; [solve_Permutation|].
  split; [by rewrite Hr|]. split.
  - intros tr' P' Ht'. rewrite app_nil_r. simpl. rewrite <- app_assoc. by apply (cwg_pop N HN).
  - destruct Hm as [-> | ->]; [done|]. simpl. rewrite Hr, decide_True by done. done.
Qed.

Lemma wp_coDone self R0 (Q : post unit) : Q tt None [] R0 -> wp self coro_wg_Done None [] (inl Work :: R0) Q.
Proof.
  intros HQ. apply wp_lock. intros v _. apply (wp_access (D := coro_wg_discipline)). intros g gh _ _.
  exists [], (closing (u64 (running g - 1)) (waiters g) ++ R0). split; [done|].
  split; [intros tr P; simpl; rewrite <- app_assoc; apply (cwg_done N HN)|]. cbn [fst snd]. unfold closing.
  destruct (Z.eqb_spec (u64 (running g - 1)) 0) as [E|E]; simpl negb; cbn [orb]; [|by apply wp_unlock].
  case_bool_decide as Hw; [by apply wp_unlock|]. cbn [view coro_wg_discipline running waiters]. rewrite E, decide_True by done.
  destruct (waiters g) as [|w ws]; [done|]. clear g gh v E Hw. apply wp_bind.
  exists (fun _ m hs ps => m = Some (0%Z, []) /\ hs = [] /\ exists w ws, ps = inr (Close (w :: ws)) :: R0). split; [eauto 10|].
  clear w ws. intros [] m hs ps (-> & -> & w & ws & ->). apply wp_co_Size; [by right|]. destruct ws as [|w' ws].
  - change (1 <? length [w]) with false. apply (wp_unlock (D := coro_wg_discipline) self (fun _ => bind _ _)); [done|].
    apply (wp_co_PopFront self w []); [by left|].
    by exists [inl (Passed w)], [], R0.
  - change (1 <? length (w :: w' :: ws)) with true. apply (wp_co_PopFront self w (w' :: ws)); [by right|].
    exists [inl (Passed w)], [], (inr (Close (w' :: ws)) :: R0). split; [done|]. split; [done|]. simpl. eauto 10.
Qed.

Lemma wp_coWait self (Q : post unit) :
  Q tt None [] [inl (Passed self)] -> wp self coro_wg_Wait None [] [inl (Begun self)] Q.
Proof.
  intros HQ. apply (wp_await (D := coro_wg_discipline) self [inl (Passed self)]); [|done].
  apply wp_lock. intros v _. apply (wp_access (D := coro_wg_discipline)). intros g gh _ _. case_decide as Hz.
  - exists [(self, [inl (Passed self)])], [inl (Passed self)]. split; [done|].
    split; [intros tr P Ht; rewrite app_nil_r; by apply (move_zero N HN)|]. by apply wp_unlock.
  - exists [], []. split; [simpl; rewrite map_app; solve_Permutation|].
    split; [intros tr P Ht; rewrite app_nil_r; by apply (cwg_push N HN)|]. by apply wp_unlock.
Qed.

Lemma wp_co_wg_yields self n ps (Q : post unit) : Q tt None [] ps -> wp self (co_wg_yields n) None [] ps Q.
Proof. intros HQ. induction n as [|n IH]; [done|]. by apply wp_bind, wp_coro_yield. Qed.

Lemma wp_co_spawn_jobs self js ps (Q : post unit) :
  Q tt None [] ps -> wp self (co_spawn_jobs js) None [] (map inl (replicate (length js) Work) ++ ps) Q.
Proof.
  intros HQ. induction js as [|n js IH]; [done|]. exists [inl Work], (map inl (replicate (length js) Work) ++ ps).
  split; [done|]. split; [|done]. intros f. apply wp_bind, wp_co_wg_yields. by apply wp_coDone.
Qed.

Lemma wp_co_fork_groups self gs ps (Q : post unit) :
  Q tt None [] (inl Work :: ps) ->
  wp self (co_fork_groups gs) None [] (inl Work :: map inl (replicate (length (concat gs)) Credit) ++ ps) Q.
Proof.
  intros HQ. induction gs as [|js gs IH]; [done|]. cbn [co_fork_groups concat].
  rewrite length_app, replicate_add, map_app, <- app_assoc. apply wp_bind.
  eapply wp_coAdd with (ps' := map inl (replicate (length js) Work) ++ inl Work :: map inl (replicate (length (concat gs)) Credit) ++ ps).
  - intros tr g P Ht. simpl in Ht. rewrite <- app_assoc in Ht. eapply coro_wg_trace_perm; [|by apply (move_add N HN)].
    simpl. solve_Permutation.
  - apply wp_bind, wp_co_spawn_jobs, IH.
Qed.

Lemma wp_co_waits self n : wp self (co_waits self n) None [] (map inl (idle self n)) (fun _ => ends).
Proof.
  induction n as [|n IH]; [done|].
  apply (wp_mark (D := coro_wg_discipline) self _ _ _ _ _ [inl (Begun self)]). { intros tr st gh P. by apply (move_begin N HN). }
  apply wp_bind, wp_coWait.
  apply (wp_mark (D := coro_wg_discipline) self _ _ _ _ _ (map inl (idle self n))); [|done].
  intros tr st gh P Ht%(move_end N HN). destruct n; [|done]. by eapply (move_drop N HN).
Qed.

Lemma wp_leader self gs n :
  self = 0 -> wp self (leader gs n) None []
    (inr Start :: inl Credit :: map inl (replicate (length (concat gs)) Credit) ++ map inl (idle 0 n)) (fun _ => ends).
Proof.
  intros ->. apply wp_bind.
  eapply wp_coAdd with (ps' := inl Work :: map inl (replicate (length (concat gs)) Credit) ++ map inl (idle 0 n)).
  - intros tr g P. apply (move_start N HN).
  - apply wp_bind, wp_co_fork_groups, wp_bind, wp_coDone, wp_co_waits.
Qed.
End specs.

(** What the coroutines start with. *)
Definition wg_grants (gs : list (list nat)) (n : nat) (others : list nat) : list (list cperm) :=
  (inr Start :: inl Credit :: map inl (replicate (length (concat gs)) Credit) ++ map inl (idle 0 n)) ::
  imap (fun i n => map inl (idle (S i) n)) others.

(** ... which is what FiberSync.v's clients with these jobs and waits start with. *)
Definition wg_specs (gs : list (list nat)) (n : nat) (others : list nat) : list client_spec :=
  mkClient ([0] :: gs) n :: map (mkClient []) others.

Lemma others_grants k others :
  wpart (concat (imap (fun i n => map inl (idle (k + i) n)) others)) = concat (grants k (map (mkClient []) others)) /\
  cpart (concat (imap (fun i n => map inl (idle (k + i) n)) others)) = [].
Proof.
  revert k. induction others as [|n others IH]; intros k; [done|]. cbn [imap map grants concat].
  assert (E : imap ((fun i n => map inl (idle (k + i) n)) ∘ S) others = imap (fun i n => @map _ cperm inl (idle (S k + i) n)) others).
  { apply imap_ext. intros i x _. simpl. by rewrite Nat.add_succ_r. }
  rewrite E, Nat.add_0_r. destruct (IH (S k)) as [IHw IHc].
  rewrite wpart_app, cpart_app, wpart_inl, cpart_inl, IHw, IHc. done.
Qed.

Lemma coro_wg_trace_init gs n others :
  coro_wg_trace (total_jobs (wg_specs gs n others)) [] (mkWG 0 []) (concat (wg_grants gs n others)).
Proof.
  destruct (others_grants 1 others) as [Hw Hc]. simpl in Hw, Hc. unfold wg_grants. cbn [concat].
  split; [by apply not_elem_of_nil| |].
  - pose proof (wg_trace_init (wg_specs gs n others)) as Hi. cbn [wg_specs grants concat] in Hi.
    rewrite wpart_app, Hw, wpart_ctl, wpart_work, wpart_app, !wpart_inl. exact Hi.
  - rewrite cpart_app, Hc, cpart_ctl, cpart_work, cpart_app, !cpart_inl. left. split; [done|]. by right.
Qed.

Lemma coro_wg_clients gs n others : (Z.of_nat (total_jobs (wg_specs gs n others)) < 2^64)%Z ->
  clients_ok (D := coro_wg_discipline (total_jobs (wg_specs gs n others))) (mkWG 0 []) (wg_bodies gs n others)
    (wg_grants gs n others) tt.
Proof.
  intros HN. split; [|intros [|f] b g; simpl|done..|apply coro_wg_trace_init].
  - simpl. by rewrite !length_imap.
  - intros [= <-] [= <-]. by apply wp_leader.
  - rewrite !list_lookup_imap. destruct (others !! f) as [m|]; [|done]. intros [= <-] [= <-]. by apply wp_co_waits.
Qed.
End CWaitGroup.

(** ** Theorems *)

(** C35: Coroutines that have a scheduler and use the scoped lock, with suspensions inside the
    critical section, are never two in the critical section, on any number of workers; and when
    nothing runs and nothing is scheduled any more, every coroutine has completed. *)
Theorem coro_mutex_correct M (clients : list (list CMutex.co_op)) tr c :
  fsteps M (Go_all (FMutex.mkMutex false []) (imap CMutex.co_client clients)) tr c ->
  FMutex.inside (user (map snd tr)) None <> None /\
  (quiescent M c -> completed (map snd tr) ≡ₚ seq 0 (fs_next (sh c))).
Proof.
  intros Hs. pose proof (CMutex.co_clients clients) as Hc. split.
  - destruct (trace_holds _ _ _ _ _ _ _ Hc Hs) as (_ & P & o & -> & _). done.
  - intros Hq. destruct (quiescent_waiting _ _ _ _ _ _ _ Hc Hs Hq) as (Hinv & gh & (o & _ & Hm) & <-).
    simpl in *. destruct (FMutex.locked _); [by apply Permutation_nil_l in Hm|]. by rewrite Hinv, app_nil_r.
Qed.

(** C36: Coroutines that have a scheduler and run critical sections of one type [F] with [Run]:
    the critical sections exclude one another, on any number of workers; [Unlock] never casts a
    waiter to a type that it does not have; and when nothing runs and nothing is scheduled any
    more, every coroutine has completed. *)
Theorem coro_run_mutex_correct F M (clients : list (list RMutex.run_op)) tr c :
  Forall (Forall (RMutex.of_type F)) clients ->
  fsteps M (Go_all (RMutex.mkRun false []) (imap RMutex.run_client clients)) tr c ->
  FMutex.inside (RMutex.run_events (user (map snd tr))) None <> None /\
  RMutex.BadCast ∉ user (map snd tr) /\
  (quiescent M c -> completed (map snd tr) ≡ₚ seq 0 (fs_next (sh c))).
Proof.
  intros HF Hs. pose proof (RMutex.run_clients F clients HF) as Hc.
  destruct (trace_holds _ _ _ _ _ _ _ Hc Hs) as (_ & P & Hb & o & Ho & _). split; [by rewrite Ho|]. split; [done|].
  intros Hq. destruct (quiescent_waiting _ _ _ _ _ _ _ Hc Hs Hq) as ([Hinv _] & gh & (_ & o' & _ & Hm) & <-).
  simpl in *. destruct (RMutex.rlocked _); [by apply Permutation_nil_l in Hm|]. by rewrite Hinv, app_nil_r.
Qed.

(** C37: When one coroutine fires the event (once, after any number of yields)
    and any number of coroutines wait for it any number of times: no [Wait]
    returns before [Fire], [Fire] never dereferences a null waiter although it
    pops the waiters without the lock, and when nothing runs and nothing is
    scheduled any more, every coroutine has completed. *)
Theorem coro_event_correct M yields post (clients : list (list CEvent.client_op)) tr c :
  fsteps M (Go_all (CEvent.mkEvent false []) (CEvent.bodies yields post clients)) tr c ->
  CEvent.returns_ok (user (map snd tr)) false = true /\
  (quiescent M c -> completed (map snd tr) ≡ₚ seq 0 (fs_next (sh c))).
Proof.
  intros Hs. pose proof (CEvent.coro_event_clients yields post clients) as Hc. split.
  - by destruct (trace_holds _ _ _ _ _ _ _ Hc Hs) as (_ & P & [? _ _]).
  - intros Hq. destruct (quiescent_waiting _ _ _ _ _ _ _ Hc Hs Hq) as (_ & gh & [_ _ Hp] & <-).
    unfold CEvent.fire_perm in Hp. simpl. destruct (CEvent.fired _).
    + destruct Hp as [[-> _]|Hp]; [by rewrite app_nil_r|]. by apply Permutation_nil_l in Hp.
    + by apply Permutation_nil_l in Hp.
Qed.

(** C38: For a wait group used once, in one phase (a coroutine adds work while it
    holds a unit itself), by coroutines that have a scheduler and fewer than 2^64 jobs in all
    (a group that is used again can break, see [coro_wait_group_reuse_null]): the counter is the number
    of added and unfinished units, a [Wait] returns only if there was a moment
    since its call when all added work was done, [Done] never dereferences a null
    waiter although it pops the last one without the lock, and when nothing runs
    and nothing is scheduled any more, every coroutine has completed. *)
Theorem coro_wait_group_correct M gs n others tr c :
  (Z.of_nat (FWaitGroup.total_jobs (CWaitGroup.wg_specs gs n others)) < 2^64)%Z ->
  fsteps M (Go_all (FWaitGroup.mkWG 0 []) (CWaitGroup.wg_bodies gs n others)) tr c ->
  let evs := CWaitGroup.events (user (map snd tr)) in
  (FWaitGroup.running (fs_st (sh c)) + Z.of_nat (FWaitGroup.finished evs) = Z.of_nat (FWaitGroup.added evs))%Z /\
  FWaitGroup.waits_ok evs /\
  CWaitGroup.NullWaiter ∉ user (map snd tr) /\
  (quiescent M c -> completed (map snd tr) ≡ₚ seq 0 (fs_next (sh c))).
Proof.
  intros HN Hs evs. pose proof (CWaitGroup.coro_wg_clients gs n others HN) as Hc.
  destruct (trace_holds _ _ _ _ _ _ _ Hc Hs) as (gh & P & [Hnull [_ Ha Hr _ _ _ Hw] _]). subst evs.
  split; [lia|]. split; [done|]. split; [done|]. intros Hq.
  destruct (quiescent_waiting _ _ _ _ _ _ _ Hc Hs Hq) as (_ & gh' & [_ [_ _ Hr' _ _ _ _] Hctl] & <-).
  unfold CWaitGroup.ctl_ok in Hctl. cbn in Hr'. rewrite decide_True in Hctl by done. simpl.
  destruct Hctl as [(-> & _)|(_ & Hp)]; [by rewrite app_nil_r|]. by apply Permutation_nil_l in Hp.
Qed.

(** *** Outside of the theorems *)

(** With two workers and a coroutine 1 that has no scheduler, the system gets to a state in
    which no step is possible, while a spin lock is held and no coroutine has completed. *)
Definition inline_deadlock {St Ev} (st : St) (bodies : list (prog St Ev unit)) : Prop :=
  exists tr c,
    gsteps (wstep (fun f => f =? 1)) (fun w _ _ => w < 2) (Go_all st bodies) tr c /\
    (forall w a, w < 2 -> wstep (fun f => f =? 1) w a (lo c w) (sh c) = None) /\
    fs_lock (sh c) = true /\ completed (map snd tr) = [].

(** A mutex with a waiter that has no scheduler deadlocks: [Unlock] resumes
    the waiter in place while it holds the spin lock, and the waiter's own
    [Unlock] spins on it. *)
Lemma coro_mutex_inline_deadlock :
  inline_deadlock (FMutex.mkMutex false []) (imap CMutex.co_client [[CMutex.Section_ 1]; [CMutex.Section_ 0]]) /\
  inline_deadlock (RMutex.mkRun false []) (imap RMutex.run_client [[RMutex.RunSection 0]; [RMutex.RunSection 0]]).
Proof.
  split.
  - exists (drive_with (fun f => f =? 1) (replicate 40 0) (Go_all (FMutex.mkMutex false []) (imap CMutex.co_client [[CMutex.Section_ 1]; [CMutex.Section_ 0]]))).2. eexists.
    split; [by apply drive_with_run|]. split; [|by vm_compute]. intros [|[|w]] [i|] Hw; [by vm_compute..|lia|lia].
  - exists (drive_with (fun f => f =? 1) (replicate 5 0 ++ replicate 20 1 ++ replicate 40 0) (Go_all (RMutex.mkRun false []) (imap RMutex.run_client [[RMutex.RunSection 0]; [RMutex.RunSection 0]]))).2. eexists.
    split; [by apply drive_with_run|]. split; [|by vm_compute]. intros [|[|w]] [i|] Hw; [by vm_compute..|lia|lia].
Qed.

(** With critical sections of two types, [Unlock] reads a waiter as one of the other type. *)
Lemma run_mutex_bad_cast :
  exists tr c, fsteps 2 (Go_all (RMutex.mkRun false []) (imap RMutex.run_client [[RMutex.RunSection 0]; [RMutex.RunSection 1]])) tr c /\
    RMutex.BadCast ∈ user (map snd tr).
Proof.
  exists (drive (replicate 5 0 ++ replicate 20 1 ++ replicate 40 0) (Go_all (RMutex.mkRun false []) (imap RMutex.run_client [[RMutex.RunSection 0]; [RMutex.RunSection 1]]))).2. eexists.
  split; [by apply drive_run|]. apply list_elem_of_In. vm_compute. tauto.
Qed.

(** A wait group that is used again too early: work is added and done while [Done] has unlocked
    and has not popped its last waiter yet; it then finds none. *)
Lemma coro_wait_group_reuse_null :
  exists tr c, fsteps 2 (Go_all (FWaitGroup.mkWG 0 [])
      [CWaitGroup.coro_wg_Add 1 ;> CWaitGroup.co_wg_yields 1 ;> CWaitGroup.coro_wg_Done; CWaitGroup.coro_wg_Wait; CWaitGroup.coro_wg_Add 1 ;> CWaitGroup.coro_wg_Done]) tr c /\
    CWaitGroup.NullWaiter ∈ user (map snd tr).
Proof.
  pose (ws := replicate 10 0 ++ [1] ++ replicate 9 0 ++ replicate 30 1 ++ replicate 10 0).
  exists (drive ws (Go_all (FWaitGroup.mkWG 0 [])
      [CWaitGroup.coro_wg_Add 1 ;> CWaitGroup.co_wg_yields 1 ;> CWaitGroup.coro_wg_Done; CWaitGroup.coro_wg_Wait; CWaitGroup.coro_wg_Add 1 ;> CWaitGroup.coro_wg_Done])).2. eexists.
  split; [by apply drive_run|]. apply list_elem_of_In. vm_compute. tauto.
Qed.

(** *** Runs *)

Definition coro_mutex_demo := [[CMutex.Section_ 1]; [CMutex.Section_ 0; CMutex.CoYield]; [CMutex.Section_ 1]].

Lemma coro_mutex_correct_witness :
  exists tr c, fsteps 2 (Go_all (FMutex.mkMutex false []) (imap CMutex.co_client coro_mutex_demo)) tr c /\
    length (user (map snd tr)) = 6 /\
    FMutex.inside (user (map snd tr)) None <> None /\ completed (map snd tr) ≡ₚ seq 0 (fs_next (sh c)).
Proof.
  pose (r := drive (two_workers 60) (Go_all (FMutex.mkMutex false []) (imap CMutex.co_client coro_mutex_demo))).
  assert (Hs : fsteps 2 (Go_all (FMutex.mkMutex false []) (imap CMutex.co_client coro_mutex_demo)) r.2 r.1)
    by (apply drive_run; reflexivity).
  exists r.2, r.1. split; [exact Hs|]. split; [vm_compute; reflexivity|].
  destruct (coro_mutex_correct 2 coro_mutex_demo _ _ Hs) as [H1 H2]. split; [exact H1|]. apply H2.
  split; [|vm_compute; reflexivity]. intros [|[|w]] Hw; [vm_compute; reflexivity..|lia].
Defined.

Lemma coro_run_mutex_correct_witness :
  exists tr c, fsteps 2 (Go_all (RMutex.mkRun false []) (imap RMutex.run_client [[RMutex.RunSection 7]; [RMutex.RunYield; RMutex.RunSection 7]; [RMutex.RunSection 7]])) tr c /\
    length (user (map snd tr)) = 6 /\
    FMutex.inside (RMutex.run_events (user (map snd tr))) None <> None /\ completed (map snd tr) ≡ₚ seq 0 (fs_next (sh c)).
Proof.
  pose (clients := [[RMutex.RunSection 7]; [RMutex.RunYield; RMutex.RunSection 7]; [RMutex.RunSection 7]]).
  pose (r := drive (two_workers 60) (Go_all (RMutex.mkRun false []) (imap RMutex.run_client clients))).
  assert (Hs : fsteps 2 (Go_all (RMutex.mkRun false []) (imap RMutex.run_client clients)) r.2 r.1) by (apply drive_run; reflexivity).
  exists r.2, r.1. split; [exact Hs|]. split; [vm_compute; reflexivity|].
  destruct (coro_run_mutex_correct 7 2 clients r.2 r.1) as (H1 & _ & H2); [by repeat constructor|exact Hs|]. split; [exact H1|]. apply H2.
  split; [|vm_compute; reflexivity]. intros [|[|w]] Hw; [vm_compute; reflexivity..|lia].
Defined.

Definition coro_event_demo := CEvent.bodies 2 [CEvent.DoWait] [[CEvent.DoWait]; [CEvent.DoWait; CEvent.DoYield]; [CEvent.DoWait]].

Lemma coro_event_correct_witness :
  exists tr c, fsteps 2 (Go_all (CEvent.mkEvent false []) coro_event_demo) tr c /\
    length (user (map snd tr)) = 5 /\
    CEvent.returns_ok (user (map snd tr)) false = true /\ completed (map snd tr) ≡ₚ seq 0 (fs_next (sh c)).
Proof.
  pose (r := drive (two_workers 60) (Go_all (CEvent.mkEvent false []) coro_event_demo)).
  assert (Hs : fsteps 2 (Go_all (CEvent.mkEvent false []) coro_event_demo) r.2 r.1) by (apply drive_run; reflexivity).
  exists r.2, r.1. split; [exact Hs|]. split; [vm_compute; reflexivity|].
  destruct (coro_event_correct 2 2 [CEvent.DoWait] [[CEvent.DoWait]; [CEvent.DoWait; CEvent.DoYield]; [CEvent.DoWait]] _ _ Hs) as [H1 H2].
  split; [exact H1|]. apply H2. split; [|vm_compute; reflexivity]. intros [|[|w]] Hw; [vm_compute; reflexivity..|lia].
Defined.

Lemma coro_wait_group_correct_witness :
  exists tr c, fsteps 2 (Go_all (FWaitGroup.mkWG 0 []) (CWaitGroup.wg_bodies [[1; 0]; [2]] 2 [1; 2])) tr c /\
    FWaitGroup.finished (CWaitGroup.events (user (map snd tr))) = 4 /\
    FWaitGroup.waits_ok (CWaitGroup.events (user (map snd tr))) /\ completed (map snd tr) ≡ₚ seq 0 (fs_next (sh c)).
Proof.
  pose (r := drive (two_workers 100) (Go_all (FWaitGroup.mkWG 0 []) (CWaitGroup.wg_bodies [[1; 0]; [2]] 2 [1; 2]))).
  assert (Hs : fsteps 2 (Go_all (FWaitGroup.mkWG 0 []) (CWaitGroup.wg_bodies [[1; 0]; [2]] 2 [1; 2])) r.2 r.1)
    by (apply drive_run; reflexivity).
  destruct (coro_wait_group_correct 2 [[1; 0]; [2]] 2 [1; 2] r.2 r.1) as (_ & H1 & _ & H2); [vm_compute; reflexivity|exact Hs|].
  exists r.2, r.1. split; [exact Hs|]. split; [vm_compute; reflexivity|]. split; [exact H1|].
  apply H2. split; [|vm_compute; reflexivity]. intros [|[|w]] Hw; [vm_compute; reflexivity..|lia].
Defined.
