(* ===== verification/HazardStack.v ===== *)
(** The lock-free stack and its hazard pointers: src/src/exe/lf/lock_free_stack.hpp
    and src/src/exe/lf/memory/hazard.

    Any number of Treiber stacks share the global hazard-pointer manager.  Every
    atomic access, allocation, deallocation and dereference of a node is one step
    of [stack_step]; the allocator may hand out a freed address again.  A
    dereference or a deallocation of an address that is not allocated leads to
    [Crashed].

    Theorems: the stacks are linearizable, no thread ever uses or frees a node
    that is not allocated, and the garbage of a thread is bounded. *)

From S2P Require Import Prelude Conc.

(** *** limits.hpp *)
Definition kMaxHazardPtrs : nat := 4.
Definition kMaxThreads : nat := 32.
(** [Mutator::scan_freq_] *)
Definition scan_freq : nat := 8 * kMaxHazardPtrs * 2.

(** [LockFreeStack::Node] *)
Record SNode := mkSNode { sn_value : Z; sn_next : Z }.

(** The memory: [top_] of every stack, the allocated nodes, [thread_states] (the
    slots and the retired list of each) and [thread_state_next_idx]. *)
Record LFS := mkLFS {
  s_top : nat -> Z;
  s_heap : gmap Z SNode;
  s_slots : nat -> nat -> Z;
  s_retired : nat -> list Z;
  s_next_idx : nat;
}.

Inductive st_inv := IPush (st : nat) (v : Z) | ITryPop (st : nat) | IDestroy (st : nat).
Inductive st_res := RDone | RPop (v : option Z).

(** Program points with the live locals. *)
Inductive st_pc :=
| SIdle
| Push_new (st : nat) (v : Z)
| Push_load_top (st : nat) (n v : Z)
| Push_cas (st : nat) (n v : Z)
| Pop_mutator (st : nat)
| Protect_load (st : nat)
| Protect_set (st : nat) (obj : Z)
| Protect_check (st : nat) (obj : Z)
| Pop_next (st : nat) (curr : Z)
| Pop_cas (st : nat) (curr next : Z)
(** [taken]: the value of the node at the exchange, for the proof only *)
| Pop_value (st : nat) (curr taken : Z)
| Retire_push (st : nat) (curr v : Z)
| Scan_load (st : nat) (v : Z) (i j : nat) (hazards : list Z)
| Scan_free (st : nat) (v : Z) (k : nat) (hazards : list Z)
| Guard_reset (st : nat) (v : Z)
| Guard_dtor (st : nat) (r : option Z)
| Destroy_load (st : nat)
| Destroy_loop (st : nat) (curr : Z)
| Destroy_mutator (st : nat)
| Destroy_cleanup (st : nat)
| SRet (i : st_inv) (r : st_res)
| Crashed (i : st_inv)
| Aborted (i : st_inv).

(** The thread-local [thread_idx] and the program point. *)
Record st_lo := mkLo { l_idx : option nat; l_pc : st_pc }.

(** What the environment chooses: calls, the address of a new node, and whether
    a weak exchange fails spuriously. *)
Inductive st_act := SCall (i : st_inv) | SNew (a : Z) | SGo | SSpurious.

Abbreviation st_event := (event st_inv st_res).
Abbreviation st_result := (option (st_lo * LFS * list st_event)).

Definition with_top (s : LFS) (st : nat) (p : Z) : LFS :=
  mkLFS (<[st := p]> (s_top s)) (s_heap s) (s_slots s) (s_retired s) (s_next_idx s).
Definition with_heap (s : LFS) (h : gmap Z SNode) : LFS :=
  mkLFS (s_top s) h (s_slots s) (s_retired s) (s_next_idx s).
Definition with_retired (s : LFS) (i : nat) (l : list Z) : LFS :=
  mkLFS (s_top s) (s_heap s) (s_slots s) (<[i := l]> (s_retired s)) (s_next_idx s).

(** *** hazard_ptr.hpp *)
Definition hp_Set (s : LFS) (i j : nat) (p : Z) : LFS :=
  mkLFS (s_top s) (s_heap s) (<[i := <[j := p]> (s_slots s i)]> (s_slots s)) (s_retired s) (s_next_idx s).
Definition hp_Get (s : LFS) (i j : nat) : Z := s_slots s i j.
Definition hp_Reset (s : LFS) (i j : nat) : LFS := hp_Set s i j 0.

(** [delete]: [None] when the address is not allocated. *)
Definition free_node (s : LFS) (a : Z) : option LFS :=
  if decide (a ∈ dom (s_heap s)) then Some (with_heap s (delete a (s_heap s))) else None.

(** *** LockFreeStack::Push *)
Definition stack_Push (x : st_act) (l : st_lo) (s : LFS) : st_result :=
  let at_ pc := mkLo (l_idx l) pc in
  match l_pc l, x with
  | Push_new st v, SNew a =>
      if decide (a ∈ dom (s_heap s) \/ a = 0%Z) then None
      else Some (at_ (Push_load_top st a v), with_heap s (<[a := mkSNode v 0]> (s_heap s)), [])
  | Push_load_top st n v, SGo =>
      match s_heap s !! n with
      | Some nd => Some (at_ (Push_cas st n v), with_heap s (<[n := mkSNode (sn_value nd) (s_top s st)]> (s_heap s)), [])
      | None => Some (at_ (Crashed (IPush st v)), s, [])
      end
  | Push_cas st n v, _ =>
      match s_heap s !! n, x with
      | Some nd, SGo =>
          if decide (s_top s st = sn_next nd)
          then Some (at_ (SRet (IPush st v) RDone), with_top s st n, [Lin (IPush st v) RDone])
          else Some (at_ (Push_cas st n v), with_heap s (<[n := mkSNode (sn_value nd) (s_top s st)]> (s_heap s)), [])
      | Some nd, SSpurious =>
          Some (at_ (Push_cas st n v), with_heap s (<[n := mkSNode (sn_value nd) (s_top s st)]> (s_heap s)), [])
      | None, (SGo | SSpurious) => Some (at_ (Crashed (IPush st v)), s, [])
      | _, _ => None
      end
  | _, _ => None
  end.

(** *** Manager::MakeMutator *)
Definition MakeMutator (i : st_inv) (next : st_pc) (l : st_lo) (s : LFS) : st_lo * LFS :=
  match l_idx l with
  | Some _ => (mkLo (l_idx l) next, s)
  | None =>
      let idx := s_next_idx s in
      let s' := mkLFS (s_top s) (s_heap s) (s_slots s) (s_retired s) (S idx) in
      if kMaxThreads <=? idx then (mkLo (Some idx) (Aborted i), s') else (mkLo (Some idx) next, s')
  end.

(** *** PtrGuard::Protect(top_) *)
Definition guard_Protect (i : nat) (l : st_lo) (s : LFS) : st_result :=
  let at_ pc := mkLo (l_idx l) pc in
  match l_pc l with
  | Protect_load st => Some (at_ (Protect_set st (s_top s st)), s, [])
  | Protect_set st obj => Some (at_ (Protect_check st obj), hp_Set s i 0 obj, [])
  | Protect_check st obj =>
      if decide (s_top s st = obj) then
        if decide (obj = 0%Z)
        then Some (at_ (Guard_dtor st None), s, [Lin (ITryPop st) (RPop None)])
        else Some (at_ (Pop_next st obj), s, [])
      else Some (at_ (Protect_set st (s_top s st)), s, [])
  | _ => None
  end.

(** *** PtrGuard::Reset and ~PtrGuard *)
Definition guard_Reset (i : nat) (l : st_lo) (s : LFS) : st_result :=
  let at_ pc := mkLo (l_idx l) pc in
  match l_pc l with
  | Guard_reset st v => Some (at_ (Guard_dtor st (Some v)), hp_Reset s i 0, [])
  | Guard_dtor st r => Some (at_ (SRet (ITryPop st) (RPop r)), hp_Reset s i 0, [])
  | _ => None
  end.

(** *** Mutator::Scan *)

(** [std::set::insert] *)
Definition set_insert (o : Z) (hazards : list Z) : list Z :=
  if decide (o ∈ hazards) then hazards else o :: hazards.

(** [std::swap(retired[i], retired.back()); retired.pop_back()] *)
Definition swap_pop (k : nat) (l : list Z) : list Z := removelast (<[k := List.last l 0%Z]> l).

Definition mutator_Scan (i : nat) (l : st_lo) (s : LFS) : st_result :=
  let at_ pc := mkLo (l_idx l) pc in
  match l_pc l with
  | Scan_load st v i' j hazards =>
      let obj := hp_Get s i' j in
      let hazards := if decide (obj = 0%Z) then hazards else set_insert obj hazards in
      if S j <? kMaxHazardPtrs then Some (at_ (Scan_load st v i' (S j) hazards), s, [])
      else if S i' <? kMaxThreads then Some (at_ (Scan_load st v (S i') 0 hazards), s, [])
      else Some (at_ (Scan_free st v 0 hazards), s, [])
  | Scan_free st v k hazards =>
      match s_retired s i !! k with
      | None => Some (at_ (Guard_reset st v), s, [])
      | Some obj =>
          if decide (obj ∈ hazards) then Some (at_ (Scan_free st v (S k) hazards), s, [])
          else
            match free_node s obj with
            | Some s' => Some (at_ (Scan_free st v k hazards), with_retired s' i (swap_pop k (s_retired s i)), [])
            | None => Some (at_ (Crashed (ITryPop st)), s, [])
            end
      end
  | _ => None
  end.

(** *** Mutator::Retire *)
Definition mutator_Retire (i : nat) (l : st_lo) (s : LFS) : st_result :=
  match l_pc l with
  | Retire_push st curr v =>
      let retired := s_retired s i ++ [curr] in
      let next := if scan_freq <? length retired then Scan_load st v 0 0 [] else Guard_reset st v in
      Some (mkLo (l_idx l) next, with_retired s i retired, [])
  | _ => None
  end.

(** *** LockFreeStack::TryPop *)
Definition stack_TryPop (x : st_act) (l : st_lo) (s : LFS) : st_result :=
  let at_ pc := mkLo (l_idx l) pc in
  match l_pc l, x, l_idx l with
  | Pop_mutator st, SGo, _ =>
      let '(l', s') := MakeMutator (ITryPop st) (Protect_load st) l s in Some (l', s', [])
  | (Protect_load _ | Protect_set _ _ | Protect_check _ _), SGo, Some i => guard_Protect i l s
  | Pop_next st curr, SGo, Some _ =>
      match s_heap s !! curr with
      | Some nd => Some (at_ (Pop_cas st curr (sn_next nd)), s, [])
      | None => Some (at_ (Crashed (ITryPop st)), s, [])
      end
  | Pop_cas st curr next, SGo, Some _ =>
      if decide (s_top s st = curr) then
        let taken := match s_heap s !! curr with Some nd => sn_value nd | None => 0%Z end in
        Some (at_ (Pop_value st curr taken), with_top s st next, [Lin (ITryPop st) (RPop (Some taken))])
      else Some (at_ (Protect_load st), s, [])
  | Pop_cas st _ _, SSpurious, Some _ => Some (at_ (Protect_load st), s, [])
  | Pop_value st curr taken, SGo, Some _ =>
      match s_heap s !! curr with
      | Some nd => Some (at_ (Retire_push st curr (sn_value nd)), s, [])
      | None => Some (at_ (Crashed (ITryPop st)), s, [])
      end
  | Retire_push _ _ _, SGo, Some i => mutator_Retire i l s
  | (Scan_load _ _ _ _ _ | Scan_free _ _ _ _), SGo, Some i => mutator_Scan i l s
  | (Guard_reset _ _ | Guard_dtor _ _), SGo, Some i => guard_Reset i l s
  | _, _, _ => None
  end.

(** *** Mutator::CleanUpImpl: [retired.clear()] *)
Definition mutator_CleanUpImpl (i : nat) (l : st_lo) (s : LFS) : st_result :=
  let at_ pc := mkLo (l_idx l) pc in
  match l_pc l with
  | Destroy_cleanup st =>
      match s_retired s i with
      | [] => Some (at_ (SRet (IDestroy st) RDone), s, [Lin (IDestroy st) RDone])
      | a :: rest =>
          match free_node s a with
          | Some s' => Some (at_ (Destroy_cleanup st), with_retired s' i rest, [])
          | None => Some (at_ (Crashed (IDestroy st)), s, [])
          end
      end
  | _ => None
  end.

(** *** ~LockFreeStack *)
Definition stack_Destroy (x : st_act) (l : st_lo) (s : LFS) : st_result :=
  let at_ pc := mkLo (l_idx l) pc in
  match l_pc l, x, l_idx l with
  | Destroy_load st, SGo, _ => Some (at_ (Destroy_loop st (s_top s st)), s, [])
  | Destroy_loop st curr, SGo, _ =>
      if decide (curr = 0%Z) then Some (at_ (Destroy_mutator st), s, [])
      else
        match s_heap s !! curr, free_node s curr with
        | Some nd, Some s' => Some (at_ (Destroy_loop st (sn_next nd)), s', [])
        | _, _ => Some (at_ (Crashed (IDestroy st)), s, [])
        end
  | Destroy_mutator st, SGo, _ =>
      let '(l', s') := MakeMutator (IDestroy st) (Destroy_cleanup st) l s in Some (l', s', [])
  | Destroy_cleanup _, SGo, Some i => mutator_CleanUpImpl i l s
  | _, _, _ => None
  end.

Definition call_pc (i : st_inv) : st_pc :=
  match i with IPush st v => Push_new st v | ITryPop st => Pop_mutator st | IDestroy st => Destroy_load st end.

Definition stack_step (t : tid) (x : st_act) (l : st_lo) (s : LFS) : st_result :=
  match l_pc l, x with
  | SIdle, SCall i => Some (mkLo (l_idx l) (call_pc i), s, [Inv i])
  | SRet i r, SGo => Some (mkLo (l_idx l) SIdle, s, [Ret r])
  | (Push_new _ _ | Push_load_top _ _ _ | Push_cas _ _ _), _ => stack_Push x l s
  | (Destroy_load _ | Destroy_loop _ _ | Destroy_mutator _ | Destroy_cleanup _), _ => stack_Destroy x l s
  | _, _ => stack_TryPop x l s
  end.

(** All stacks empty. *)
Definition lfs_empty : LFS := mkLFS (fun _ => 0%Z) ∅ (fun _ _ => 0%Z) (fun _ => []) 0.
Definition lfs_start : config LFS st_lo := Cfg lfs_empty (fun _ => mkLo None SIdle).

(** ** The specification: a stack for every identifier *)
Inductive st_spec_step : (nat -> list Z) -> st_inv -> st_res -> (nat -> list Z) -> Prop :=
| spec_push a st v : st_spec_step a (IPush st v) RDone (<[st := v :: a st]> a)
| spec_pop a st v vs : a st = v :: vs -> st_spec_step a (ITryPop st) (RPop (Some v)) (<[st := vs]> a)
| spec_empty a st : a st = [] -> st_spec_step a (ITryPop st) (RPop None) a.

Definition stacks_spec : seq_spec st_inv st_res := SeqSpec _ _ (nat -> list Z) (fun _ => []) st_spec_step.

(** Traces in which no stack is destroyed. *)
Definition no_destroy (tr : list (tid * st_event)) : Prop := forall t st, (t, Inv (IDestroy st)) ∉ tr.

(** ** The invariant *)

(** Where an allocated node is: not yet pushed by [t]; in a stack; taken out by
    [t] and not yet retired; in a retired list. *)
Inductive place := Fresh (t : tid) | InStack (st : nat) | Popped (t : tid) | Retired (i : nat).
Definition published (p : place) : Prop := match p with Fresh _ => False | _ => True end.

(** The nodes [ns] from [p] on, holding [vs]. *)
Fixpoint linked (h : gmap Z SNode) (p : Z) (ns vs : list Z) : Prop :=
  match ns, vs with
  | [], [] => p = 0%Z
  | n :: ns, v :: vs => p = n /\ n <> 0%Z /\ exists nx, h !! n = Some (mkSNode v nx) /\ linked h nx ns vs
  | _, _ => False
  end.

(** The node a thread has protected and found still on top. *)
Definition protects (pc : st_pc) : option Z :=
  match pc with Pop_next _ b | Pop_cas _ b _ => Some b | _ => None end.

(** What a scan has found, if it is past slot 0 of thread state [i]. *)
Definition scanned (pc : st_pc) (i : nat) : option (list Z) :=
  match pc with
  | Scan_load _ _ i' j H => if bool_decide (i < i' \/ (i = i' /\ 0 < j)) then Some H else None
  | Scan_free _ _ _ H => Some H
  | _ => None
  end.

Definition needs_idx (pc : st_pc) : bool :=
  match pc with
  | Protect_load _ | Protect_set _ _ | Protect_check _ _ | Pop_next _ _ | Pop_cas _ _ _ | Pop_value _ _ _
  | Retire_push _ _ _ | Scan_load _ _ _ _ _ | Scan_free _ _ _ _ | Guard_reset _ _ | Guard_dtor _ _ => true
  | _ => false
  end.

Definition is_aborted (pc : st_pc) : bool := match pc with Aborted _ => true | _ => false end.

(** The nodes a thread owns, and what it knows of them. *)
Definition owns_ok (h : gmap Z SNode) (pl : gmap Z place) (t : tid) (pc : st_pc) : Prop :=
  match pc with
  | Push_load_top _ n v | Push_cas _ n v => pl !! n = Some (Fresh t) /\ exists nx, h !! n = Some (mkSNode v nx)
  | Pop_value _ b r => pl !! b = Some (Popped t) /\ exists nx, h !! b = Some (mkSNode r nx)
  | Retire_push _ b _ => pl !! b = Some (Popped t)
  | Destroy_load _ | Destroy_loop _ _ | Destroy_mutator _ | Destroy_cleanup _ | Crashed _ | SRet (IDestroy _) _ => False
  | _ => True
  end.

(** The node a thread protects is in its slot and allocated, and its link is
    what the thread has read. *)
Definition guard_ok (s : LFS) (pl : gmap Z place) (l : st_lo) : Prop :=
  forall b, protects (l_pc l) = Some b ->
    b <> 0%Z /\ (exists i, l_idx l = Some i /\ s_slots s i 0 = b) /\ (exists p, pl !! b = Some p /\ published p) /\
    match l_pc l with Pop_cas _ _ n => exists v, s_heap s !! b = Some (mkSNode v n) | _ => True end.

Record lo_ok (s : LFS) (pl : gmap Z place) (t : tid) (l : st_lo) : Prop := {
  lo_owns : owns_ok (s_heap s) pl t (l_pc l);
  lo_guard : guard_ok s pl l;
  lo_idx : forall i, l_idx l = Some i -> i < s_next_idx s;
  lo_check : forall st obj, l_pc l = Protect_check st obj -> exists i, l_idx l = Some i /\ s_slots s i 0 = obj;
  lo_needs : needs_idx (l_pc l) = true -> is_Some (l_idx l);
  lo_max : forall i, l_idx l = Some i -> is_aborted (l_pc l) = false -> i < kMaxThreads;
}.

(** [nodes]: the nodes of every stack. *)
Record sh_ok (s : LFS) (nodes : nat -> list Z) (pl : gmap Z place) (a : nat -> list Z) : Prop := {
  sh_null : s_heap s !! 0%Z = None;
  sh_dom : forall b, is_Some (s_heap s !! b) <-> is_Some (pl !! b);
  sh_linked : forall st, linked (s_heap s) (s_top s st) (nodes st) (a st);
  sh_nodes : forall st b, b ∈ nodes st <-> pl !! b = Some (InStack st);
  sh_nodes_nd : forall st, base.NoDup (nodes st);
  sh_ret : forall i b, b ∈ s_retired s i <-> pl !! b = Some (Retired i);
  sh_ret_nd : forall i, base.NoDup (s_retired s i);
}.

(** A scanning thread has seen the protected nodes of its retired list. *)
Definition scan_ok (s : LFS) (l u : st_lo) : Prop :=
  forall i i' b H, l_idx l = Some i -> l_idx u = Some i' -> protects (l_pc u) = Some b ->
    scanned (l_pc l) i' = Some H -> b ∈ s_retired s i -> b ∈ H.

Record stacks_inv (c : config LFS st_lo) (nodes : nat -> list Z) (pl : gmap Z place) (a : nat -> list Z) : Prop := {
  si_sh : sh_ok (sh c) nodes pl a;
  si_lo : forall t, lo_ok (sh c) pl t (lo c t);
  si_inj : forall t u i, l_idx (lo c t) = Some i -> l_idx (lo c u) = Some i -> t = u;
  si_scan : forall t u, scan_ok (sh c) (lo c t) (lo c u);
}.

(** What a step of [t] leaves alone for the other threads. *)
Record frame_ok (c : config LFS st_lo) (t : tid) (s' : LFS) (pl pl' : gmap Z place) : Prop := {
  fr_own : forall u b, u <> t -> pl !! b = Some (Fresh u) \/ pl !! b = Some (Popped u) ->
    pl' !! b = pl !! b /\ s_heap s' !! b = s_heap (sh c) !! b;
  fr_guard : forall u b p, u <> t -> protects (l_pc (lo c u)) = Some b -> pl !! b = Some p -> published p ->
    s_heap s' !! b = s_heap (sh c) !! b /\ exists p', pl' !! b = Some p' /\ published p';
  fr_slots : forall u i, u <> t -> l_idx (lo c u) = Some i -> s_slots s' i = s_slots (sh c) i;
  fr_ret : forall u i, u <> t -> l_idx (lo c u) = Some i -> s_retired s' i = s_retired (sh c) i;
  fr_next : s_next_idx (sh c) <= s_next_idx s';
}.

Lemma lo_ok_frame c t s' pl pl' u :
  frame_ok c t s' pl pl' -> u <> t -> lo_ok (sh c) pl u (lo c u) -> lo_ok s' pl' u (lo c u).
Proof.
  intros [Fo Fg Fs Fr Fn] Hne [Ho Hg Hi Hk Hn Hm]. split; [| |intros i Hidx; specialize (Hi i Hidx); lia| |done|done].
  - destruct (l_pc (lo c u)); simpl in *; try done.
    1, 2, 3: destruct Ho as [Hp ?].
    4: rename Ho into Hp.
    all: match type of Hp with _ !! ?b = _ => destruct (Fo u b Hne) as [-> Eh]; [auto|] end; by rewrite ?Eh.
  - intros b Hb. destruct (Hg b Hb) as (H0 & (i & Hidx & Hs) & (p & Hp & Hpub) & Hn').
    destruct (Fg u b p Hne Hb Hp Hpub) as (Hh & p' & ? & ?).
    split; [done|]. split; [exists i; by rewrite (Fs u i Hne Hidx)|]. split; [eauto|].
    destruct (l_pc (lo c u)); try done. simplify_eq/=. by rewrite Hh.
  - intros st obj Hpc. destruct (Hk st obj Hpc) as (i & Hidx & Hs). exists i. by rewrite (Fs u i Hne Hidx).
Qed.

(** One step of [t]. *)
Lemma stacks_inv_step c nodes pl a t l' s' nodes' pl' a' :
  stacks_inv c nodes pl a -> sh_ok s' nodes' pl' a' -> lo_ok s' pl' t l' -> frame_ok c t s' pl pl' ->
  (forall i, l_idx l' = Some i -> l_idx (lo c t) = Some i \/ i = s_next_idx (sh c)) ->
  (forall u, u <> t -> scan_ok s' l' (lo c u)) -> (forall u, u <> t -> scan_ok s' (lo c u) l') ->
  stacks_inv (Cfg s' (<[t := l']> (lo c))) nodes' pl' a'.
Proof.
  intros [Hsh Hlo Hinj Hsc] Hsh' Hlo' Hfr Hidx Hs1 Hs2. split; simpl; [done|..].
  - intros u. destruct (decide (u = t)) as [->|Hne]; [by rewrite fn_lookup_insert|].
    rewrite fn_lookup_insert_ne by done. by eapply lo_ok_frame.
  - assert (Hnew : forall u i, u <> t -> l_idx (lo c u) = Some i -> l_idx l' = Some i -> False).
    { intros u i Hne Hu [Ht|Ht]%Hidx; [by apply Hne, (Hinj u t i)|]. pose proof (lo_idx _ _ _ _ (Hlo u) i Hu). lia. }
    intros u v i. destruct (decide (u = t)) as [->|Hu], (decide (v = t)) as [->|Hv];
      rewrite ?fn_lookup_insert, ?fn_lookup_insert_ne by done; [done|..|exact (Hinj u v i)]; intros; exfalso; eauto.
  - intros u v. destruct (decide (u = t)) as [->|Hu], (decide (v = t)) as [->|Hv];
      rewrite ?fn_lookup_insert, ?fn_lookup_insert_ne by done; auto.
    + intros i i' b H _ _ Hp Hs. destruct (l_pc l'); done.
    + intros i i' b H Hi Hi' Hp Hs Hb. rewrite (fr_ret _ _ _ _ _ Hfr u i Hu Hi) in Hb. by apply (Hsc u v i i' b H).
Qed.

(** ** What the steps do to the shared part *)

Lemma linked_frame h h' p ns vs :
  (forall b, b ∈ ns -> h' !! b = h !! b) -> linked h p ns vs -> linked h' p ns vs.
Proof.
  revert p vs. induction ns as [|n ns IH]; intros p [|v vs] Hh Hl; [done..|]. destruct Hl as (-> & H0 & nx & Hn & Hl).
  split; [done|]. split; [done|]. exists nx. rewrite Hh by set_solver. split; [done|]. apply IH; [|done].
  intros b Hb. apply Hh. set_solver.
Qed.

Lemma set_insert_elem b o H : b ∈ set_insert o H <-> b = o \/ b ∈ H.
Proof. unfold set_insert. case_decide; [|by rewrite elem_of_cons]. split; [auto|]. intros [->|]; done. Qed.

Lemma swap_pop_perm k l b : l !! k = Some b -> l ≡ₚ b :: swap_pop k l.
Proof.
  intros Hk. destruct (exists_last (l := l)) as (l0 & z & ->); [by intros ->|]. unfold swap_pop. rewrite last_last.
  destruct (decide (k = length l0)) as [->|Hne].
  - rewrite list_lookup_middle in Hk by done. simplify_eq. rewrite insert_app_r_alt, Nat.sub_diag by lia.
    simpl. rewrite removelast_last. solve_Permutation.
  - assert (Hlt : k < length l0).
    { apply lookup_lt_Some in Hk. rewrite length_app in Hk. simpl in Hk. lia. }
    rewrite insert_app_l, removelast_last by done. rewrite lookup_app_l in Hk by done.
    rewrite <- (take_drop_middle l0 k b Hk) at 1. rewrite insert_take_drop by done. solve_Permutation.
Qed.

Section shared.
Context (s : LFS) (nodes : nat -> list Z) (pl : gmap Z place) (a : nat -> list Z) (Hs : sh_ok s nodes pl a).

Lemma sh_alloc b p : pl !! b = Some p -> b <> 0%Z /\ is_Some (s_heap s !! b).
Proof.
  intros Hp. assert (is_Some (s_heap s !! b)) as Hh by (apply (sh_dom _ _ _ _ Hs); by rewrite Hp). split; [|done].
  intros ->. rewrite (sh_null _ _ _ _ Hs) in Hh. by destruct Hh.
Qed.

(** Changing the heap and the places of nodes outside the stacks. *)
Lemma linked_other h' st :
  (forall b, pl !! b = Some (InStack st) -> h' !! b = s_heap s !! b) -> linked h' (s_top s st) (nodes st) (a st).
Proof.
  intros Hh. eapply linked_frame; [|apply (sh_linked _ _ _ _ Hs)]. intros b Hb. by apply Hh, (sh_nodes _ _ _ _ Hs).
Qed.

Lemma sh_new b nd t :
  s_heap s !! b = None -> b <> 0%Z -> sh_ok (with_heap s (<[b := nd]> (s_heap s))) nodes (<[b := Fresh t]> pl) a.
Proof.
  intros Hb H0. assert (Hpl : pl !! b = None).
  { apply eq_None_not_Some. intros Hp%(sh_dom _ _ _ _ Hs). rewrite Hb in Hp. by destruct Hp. }
  assert (Hins : forall b' p, p <> Fresh t -> <[b := Fresh t]> pl !! b' = Some p <-> pl !! b' = Some p).
  { intros b' p Hp. rewrite lookup_insert. case_decide; [|done]. subst b'. rewrite Hpl. split; congruence. }
  pose proof Hs as [Hz Hd Hl Hn Hnn Hr Hrn]. split; simpl.
  - by rewrite lookup_insert_ne.
  - intros b'. rewrite !lookup_insert. case_decide; [|done]. by split.
  - intros st. apply linked_other. intros b' Hb'. rewrite lookup_insert_ne; [done|congruence].
  - intros st b'. by rewrite Hins.
  - done.
  - intros i b'. by rewrite Hins.
  - done.
Qed.

Lemma sh_modify b nd t :
  pl !! b = Some (Fresh t) -> sh_ok (with_heap s (<[b := nd]> (s_heap s))) nodes pl a.
Proof.
  intros Hb. destruct (sh_alloc _ _ Hb) as [H0 Ha]. pose proof Hs as [Hz Hd Hl Hn Hnn Hr Hrn]. split; simpl; try done.
  - by rewrite lookup_insert_ne.
  - intros b'. rewrite lookup_insert. case_decide; [|done]. subst b'. rewrite Hb. by split.
  - intros st. apply linked_other. intros b' Hb'. rewrite lookup_insert_ne; [done|congruence].
Qed.

(** A node moves to place [p] without leaving or entering a stack or a list. *)
Lemma place_other b p p0 q b' : pl !! b = Some p0 -> q <> p0 -> q <> p -> <[b := p]> pl !! b' = Some q <-> pl !! b' = Some q.
Proof. intros Hb Hq Hq'. rewrite lookup_insert. case_decide; [|done]. subst b'. rewrite Hb. split; congruence. Qed.

Lemma place_dom b p p0 b' : pl !! b = Some p0 -> is_Some (<[b := p]> pl !! b') <-> is_Some (pl !! b').
Proof. intros Hb. rewrite lookup_insert. case_decide; [|done]. subst b'. rewrite Hb. by split. Qed.

Lemma sh_push st b v t :
  pl !! b = Some (Fresh t) -> s_heap s !! b = Some (mkSNode v (s_top s st)) ->
  sh_ok (with_top s st b) (<[st := b :: nodes st]> nodes) (<[b := InStack st]> pl) (<[st := v :: a st]> a).
Proof.
  intros Hb Hh. destruct (sh_alloc _ _ Hb) as [H0 Ha]. pose proof Hs as [Hz Hd Hl Hn Hnn Hr Hrn]. split; simpl; try done.
  - intros b'. by rewrite (place_dom b _ (Fresh t)).
  - intros st'. destruct (decide (st' = st)) as [->|Hne].
    + rewrite !fn_lookup_insert. split; [done|]. split; [done|]. eauto.
    + rewrite !fn_lookup_insert_ne by done. apply Hl.
  - intros st' b'. destruct (decide (st' = st)) as [->|Hne].
    + rewrite fn_lookup_insert, elem_of_cons, Hn, lookup_insert. case_decide; [subst; tauto|]. split; [|auto]. intros [|]; [congruence|done].
    + rewrite fn_lookup_insert_ne, Hn by done. by rewrite (place_other b _ (Fresh t)) by congruence.
  - intros st'. destruct (decide (st' = st)) as [->|Hne]; [|by rewrite fn_lookup_insert_ne].
    rewrite fn_lookup_insert. apply list.NoDup_cons. split; [|done]. rewrite Hn. congruence.
  - intros i b'. by rewrite (place_other b _ (Fresh t)).
Qed.

(** The node on top. *)
Lemma sh_top st b : s_top s st = b -> b <> 0%Z ->
  exists v nx ns vs, s_heap s !! b = Some (mkSNode v nx) /\ nodes st = b :: ns /\ a st = v :: vs /\
    linked (s_heap s) nx ns vs /\ pl !! b = Some (InStack st).
Proof.
  intros Ht H0. pose proof (sh_linked _ _ _ _ Hs st) as Hl. rewrite Ht in Hl.
  destruct (nodes st) as [|n ns] eqn:En, (a st) as [|v vs]; try done. destruct Hl as (-> & _ & nx & Hh & Hl).
  exists v, nx, ns, vs. repeat split; try done. apply (sh_nodes _ _ _ _ Hs). rewrite En. set_solver.
Qed.

Lemma sh_top_null st : s_top s st = 0%Z -> a st = [].
Proof.
  intros Ht. pose proof (sh_linked _ _ _ _ Hs st) as Hl. rewrite Ht in Hl.
  destruct (nodes st), (a st); try done. destruct Hl as (? & ? & _). congruence.
Qed.

Lemma sh_pop st b v nx ns vs t :
  s_heap s !! b = Some (mkSNode v nx) -> nodes st = b :: ns -> a st = v :: vs -> linked (s_heap s) nx ns vs ->
  sh_ok (with_top s st nx) (<[st := ns]> nodes) (<[b := Popped t]> pl) (<[st := vs]> a).
Proof.
  intros Hh En Ea Hl'. pose proof Hs as [Hz Hd Hl Hn Hnn Hr Hrn].
  assert (Hb : pl !! b = Some (InStack st)) by (apply Hn; rewrite En; set_solver).
  split; simpl; try done.
  - intros b'. by rewrite (place_dom b _ (InStack st)).
  - intros st'. destruct (decide (st' = st)) as [->|Hne]; [by rewrite !fn_lookup_insert|].
    rewrite !fn_lookup_insert_ne by done. apply Hl.
  - intros st' b'. destruct (decide (st' = st)) as [->|Hne].
    + rewrite fn_lookup_insert, lookup_insert. specialize (Hnn st). rewrite En in Hnn. apply list.NoDup_cons in Hnn as [Hni _].
      case_decide; [subst b'; split; [done|congruence]|]. rewrite <- Hn, En. set_solver.
    + rewrite fn_lookup_insert_ne, Hn by done. by rewrite (place_other b _ (InStack st)) by congruence.
  - intros st'. destruct (decide (st' = st)) as [->|Hne]; [|by rewrite fn_lookup_insert_ne].
    rewrite fn_lookup_insert. specialize (Hnn st). rewrite En in Hnn. by apply list.NoDup_cons in Hnn as [_ ?].
  - intros i b'. by rewrite (place_other b _ (InStack st)).
Qed.

Lemma sh_retire i b t :
  pl !! b = Some (Popped t) -> sh_ok (with_retired s i (s_retired s i ++ [b])) nodes (<[b := Retired i]> pl) a.
Proof.
  intros Hb. pose proof Hs as [Hz Hd Hl Hn Hnn Hr Hrn]. split; simpl; try done.
  - intros b'. by rewrite (place_dom b _ (Popped t)).
  - intros st b'. by rewrite (place_other b _ (Popped t)).
  - intros i' b'. destruct (decide (i' = i)) as [->|Hne].
    + rewrite fn_lookup_insert, elem_of_app, Hr, list_elem_of_singleton, lookup_insert.
      case_decide; [subst; tauto|]. split; [|auto]. intros [|]; [done|congruence].
    + rewrite fn_lookup_insert_ne, Hr by done. by rewrite (place_other b _ (Popped t)) by congruence.
  - intros i'. destruct (decide (i' = i)) as [->|Hne]; [|by rewrite fn_lookup_insert_ne].
    rewrite fn_lookup_insert. apply list.NoDup_app. split; [done|]. split; [|apply NoDup_singleton].
    intros b' Hb' ->%list_elem_of_singleton. apply Hr in Hb'. congruence.
Qed.

Lemma sh_free i k b :
  s_retired s i !! k = Some b ->
  sh_ok (with_retired (with_heap s (delete b (s_heap s))) i (swap_pop k (s_retired s i))) nodes (delete b pl) a.
Proof.
  intros Hk. pose proof (swap_pop_perm _ _ _ Hk) as Hp. pose proof Hs as [Hz Hd Hl Hn Hnn Hr Hrn].
  assert (Hb : pl !! b = Some (Retired i)) by (apply Hr; by eapply list_elem_of_lookup_2).
  assert (Hdel : forall b' q, q <> Retired i -> delete b pl !! b' = Some q <-> pl !! b' = Some q).
  { intros b' q Hq. rewrite lookup_delete. case_decide; [|done]. subst b'. rewrite Hb. split; congruence. }
  pose proof (Hrn i) as Hnd. rewrite Hp in Hnd. apply list.NoDup_cons in Hnd as [Hni Hnd].
  split; simpl; try done.
  - rewrite lookup_delete. by case_decide.
  - intros b'. rewrite !lookup_delete. case_decide; [|done]. by split; intros [].
  - intros st. apply linked_other. intros b' Hb'. rewrite lookup_delete_ne; [done|congruence].
  - intros st b'. by rewrite Hdel.
  - intros i' b'. destruct (decide (i' = i)) as [->|Hne].
    + rewrite fn_lookup_insert, lookup_delete. case_decide; [subst b'; split; [done|congruence]|].
      rewrite <- Hr. rewrite Hp at 2. set_solver.
    + rewrite fn_lookup_insert_ne, Hr, Hdel by congruence. done.
  - intros i'. destruct (decide (i' = i)) as [->|Hne]; [by rewrite fn_lookup_insert|by rewrite fn_lookup_insert_ne].
Qed.
End shared.

(** ** The steps *)

Definition pc_status (pc : st_pc) : status st_inv st_res :=
  match pc with
  | SIdle => Idle
  | Push_new st v | Push_load_top st _ v | Push_cas st _ v => Pending (IPush st v)
  | Pop_mutator st | Protect_load st | Protect_set st _ | Protect_check st _ | Pop_next st _ | Pop_cas st _ _ => Pending (ITryPop st)
  | Pop_value st _ v | Retire_push st _ v | Scan_load st v _ _ _ | Scan_free st v _ _ | Guard_reset st v =>
      Committed (ITryPop st) (RPop (Some v))
  | Guard_dtor st r => Committed (ITryPop st) (RPop r)
  | Destroy_load st | Destroy_loop st _ | Destroy_mutator st | Destroy_cleanup st => Pending (IDestroy st)
  | SRet i r => Committed i r
  | Crashed i | Aborted i => Pending i
  end.

(** Program points at which nothing is protected and no scan is under way. *)
Definition quiet (pc : st_pc) : Prop := protects pc = None /\ forall i, scanned pc i = None.

Definition checking (pc : st_pc) : bool := match pc with Protect_check _ _ => true | _ => false end.

Lemma scan_quiet s l u : quiet (l_pc l) -> scan_ok s l u /\ scan_ok s u l.
Proof. intros [Hp Hs]. split; intros i i' b H Hi Hi' Hpr Hsc; [by rewrite Hs in Hsc|congruence]. Qed.

Section steps.
Context (c : config LFS st_lo) (nodes : nat -> list Z) (pl : gmap Z place) (a : nat -> list Z) (t : tid).
Context (Hinv : stacks_inv c nodes pl a).
Context (Hna : is_aborted (l_pc (lo c t)) = false).
Abbreviation s := (sh c).
Abbreviation l := (lo c t).

Lemma max_keep i : l_idx l = Some i -> i < kMaxThreads.
Proof. intros Hi. by apply (lo_max _ _ _ _ (si_lo _ _ _ _ Hinv t)). Qed.

Lemma needs_keep pc' : (needs_idx pc' = true -> needs_idx (l_pc l) = true) ->
  needs_idx pc' = true -> is_Some (l_idx l).
Proof. intros Hn Hp. apply (lo_needs _ _ _ _ (si_lo _ _ _ _ Hinv t)). auto. Qed.

(** A step to a quiet program point. *)
Lemma quiet_step' s' pc' nodes' pl' a' :
  sh_ok s' nodes' pl' a' -> frame_ok c t s' pl pl' -> quiet pc' -> owns_ok (s_heap s') pl' t pc' ->
  (needs_idx pc' = true -> needs_idx (l_pc l) = true) ->
  (forall st obj, pc' = Protect_check st obj -> exists i, l_idx l = Some i /\ s_slots s' i 0 = obj) ->
  stacks_inv (Cfg s' (<[t := mkLo (l_idx l) pc']> (lo c))) nodes' pl' a'.
Proof.
  intros Hsh Hfr Hq Ho Hn Hk. eapply stacks_inv_step; [done..| |done|simpl; auto| |].
  - split; [done| | |done|by apply needs_keep|intros i Hi _; by apply max_keep].
    + intros b Hb. destruct Hq as [Hq _]. simpl in Hb. congruence.
    + simpl. intros i Hi. pose proof (lo_idx _ _ _ _ (si_lo _ _ _ _ Hinv t) i Hi). pose proof (fr_next _ _ _ _ _ Hfr). lia.
  - intros u _. by apply (scan_quiet s' (mkLo (l_idx l) pc')).
  - intros u _. by apply (scan_quiet s' (mkLo (l_idx l) pc')).
Qed.

Lemma quiet_step s' pc' nodes' pl' a' :
  sh_ok s' nodes' pl' a' -> frame_ok c t s' pl pl' -> quiet pc' /\ checking pc' = false -> owns_ok (s_heap s') pl' t pc' ->
  (needs_idx pc' = true -> needs_idx (l_pc l) = true) ->
  stacks_inv (Cfg s' (<[t := mkLo (l_idx l) pc']> (lo c))) nodes' pl' a'.
Proof. intros ? ? [? Hc] ? ?. apply quiet_step'; try done. by intros st obj ->. Qed.

Lemma frame_refl : frame_ok c t s pl pl.
Proof. split; try done. intros u b p _ _ Hp Hpub. eauto. Qed.

(** ... that leaves the memory alone. *)
Lemma local_step pc' :
  quiet pc' /\ checking pc' = false -> owns_ok (s_heap s) pl t pc' -> (needs_idx pc' = true -> needs_idx (l_pc l) = true) ->
  stacks_inv (Cfg s (<[t := mkLo (l_idx l) pc']> (lo c))) nodes pl a.
Proof. intros. apply quiet_step; try done; [apply Hinv|apply frame_refl]. Qed.

Lemma idx_other u i : u <> t -> l_idx l = Some i -> forall i', l_idx (lo c u) = Some i' -> i' <> i.
Proof. intros Hne Ht i' Hu ->. by apply Hne, (si_inj _ _ _ _ Hinv u t i). Qed.

(** ... that writes the thread's slot. *)
Lemma slot_step i p pc' :
  l_idx l = Some i -> quiet pc' -> owns_ok (s_heap s) pl t pc' -> (needs_idx pc' = true -> needs_idx (l_pc l) = true) ->
  (forall st obj, pc' = Protect_check st obj -> obj = p) ->
  stacks_inv (Cfg (hp_Set s i 0 p) (<[t := mkLo (l_idx l) pc']> (lo c))) nodes pl a.
Proof.
  intros Hi Hq Ho Hn Hk. apply quiet_step'; try done.
  - by destruct (si_sh _ _ _ _ Hinv).
  - split; try done; simpl.
    + intros u b p' _ _ Hp Hpub. eauto.
    + intros u i' Hne Hu. by rewrite fn_lookup_insert_ne by (by apply not_eq_sym, (idx_other u)).
  - intros st obj Hpc. exists i. simpl. rewrite !fn_lookup_insert. split; [done|]. by rewrite (Hk st obj).
Qed.

(** A change of one node that belongs to [t]. *)
Lemma own_frame b p' h' :
  pl !! b = Some (Fresh t) -> (forall b', b' <> b -> h' !! b' = s_heap s !! b') ->
  frame_ok c t (with_heap s h') pl (<[b := p']> pl).
Proof.
  intros Hb Hh. split; try done; simpl.
  - intros u b' Hne Hb'. assert (b' <> b) by (intros ->; destruct Hb'; congruence). by rewrite lookup_insert_ne, Hh.
  - intros u b' p _ _ Hp Hpub. assert (b' <> b) by (intros ->; rewrite Hb in Hp; by simplify_eq).
    rewrite lookup_insert_ne, Hh by done. eauto.
Qed.

Lemma new_step b nd pc' :
  s_heap s !! b = None -> b <> 0%Z -> quiet pc' /\ checking pc' = false -> owns_ok (<[b := nd]> (s_heap s)) (<[b := Fresh t]> pl) t pc' ->
  needs_idx pc' = false ->
  stacks_inv (Cfg (with_heap s (<[b := nd]> (s_heap s))) (<[t := mkLo (l_idx l) pc']> (lo c))) nodes (<[b := Fresh t]> pl) a.
Proof.
  intros Hb H0 Hq Ho Hn. assert (Hpl : pl !! b = None).
  { apply eq_None_not_Some. intros Hp%(sh_dom _ _ _ _ (si_sh _ _ _ _ Hinv)). rewrite Hb in Hp. by destruct Hp. }
  apply quiet_step; [by apply (sh_new _ _ _ _ (si_sh _ _ _ _ Hinv))| |done..|congruence].
  split; try done; simpl.
  - intros u b' _ Hb'. assert (b' <> b) by (intros ->; destruct Hb'; congruence). by rewrite !lookup_insert_ne.
  - intros u b' p _ _ Hp Hpub. assert (b' <> b) by congruence. rewrite !lookup_insert_ne by done. eauto.
Qed.

Lemma modify_step b nd pc' :
  pl !! b = Some (Fresh t) -> quiet pc' /\ checking pc' = false -> owns_ok (<[b := nd]> (s_heap s)) pl t pc' -> needs_idx pc' = false ->
  stacks_inv (Cfg (with_heap s (<[b := nd]> (s_heap s))) (<[t := mkLo (l_idx l) pc']> (lo c))) nodes pl a.
Proof.
  intros Hb Hq Ho Hn. apply quiet_step; [by apply (sh_modify _ _ _ _ (si_sh _ _ _ _ Hinv) _ _ t)| |done..|congruence].
  rewrite <- (insert_id pl b (Fresh t)) at 2 by done. apply own_frame; [done|]. intros b' Hne. by rewrite lookup_insert_ne.
Qed.

Lemma push_step st b v pc' :
  pl !! b = Some (Fresh t) -> s_heap s !! b = Some (mkSNode v (s_top s st)) -> quiet pc' /\ checking pc' = false -> needs_idx pc' = false ->
  (forall h pl, owns_ok h pl t pc') ->
  stacks_inv (Cfg (with_top s st b) (<[t := mkLo (l_idx l) pc']> (lo c)))
    (<[st := b :: nodes st]> nodes) (<[b := InStack st]> pl) (<[st := v :: a st]> a).
Proof.
  intros Hb Hh Hq Hn Ho. apply quiet_step; [by apply (sh_push _ _ _ _ (si_sh _ _ _ _ Hinv) _ _ _ t)| |done..|congruence].
  destruct (own_frame b (InStack st) (s_heap s) Hb) as [H1 H2 H3 H4 H5]; [done|]. by split.
Qed.

(** A published node that only changes its place. *)
Lemma place_frame s' b p0 p' :
  s_heap s' = s_heap s -> s_slots s' = s_slots s -> (forall u i, u <> t -> l_idx (lo c u) = Some i -> s_retired s' i = s_retired s i) ->
  s_next_idx s' = s_next_idx s -> pl !! b = Some p0 -> published p' ->
  (forall u, u <> t -> p0 <> Fresh u /\ p0 <> Popped u) -> frame_ok c t s' pl (<[b := p']> pl).
Proof.
  intros Eh Es Er En Hb Hp' Hp0. split; rewrite ?Eh, ?Es, ?En; try done.
  - intros u b' Hne Hb'. assert (b' <> b); [|by rewrite lookup_insert_ne].
    intros ->. destruct (Hp0 u Hne). destruct Hb'; congruence.
  - intros u b' p _ _ Hp Hpub. split; [done|]. rewrite lookup_insert. case_decide; eauto.
Qed.

Lemma pop_step st b v nx ns vs pc' :
  s_heap s !! b = Some (mkSNode v nx) -> nodes st = b :: ns -> a st = v :: vs -> linked (s_heap s) nx ns vs ->
  quiet pc' /\ checking pc' = false -> owns_ok (s_heap s) (<[b := Popped t]> pl) t pc' -> (needs_idx pc' = true -> needs_idx (l_pc l) = true) ->
  stacks_inv (Cfg (with_top s st nx) (<[t := mkLo (l_idx l) pc']> (lo c)))
    (<[st := ns]> nodes) (<[b := Popped t]> pl) (<[st := vs]> a).
Proof.
  intros Hh En Ea Hl Hq Ho Hn. apply quiet_step; try done.
  - by eapply (sh_pop _ _ _ _ (si_sh _ _ _ _ Hinv)).
  - apply (place_frame _ b (InStack st)); try done. apply (sh_nodes _ _ _ _ (si_sh _ _ _ _ Hinv)). rewrite En. set_solver.
Qed.

Lemma ret_other i l0 u i' : l_idx l = Some i -> u <> t -> l_idx (lo c u) = Some i' ->
  s_retired (with_retired s i l0) i' = s_retired s i'.
Proof. intros Hi Hne Hu. simpl. by rewrite fn_lookup_insert_ne by (by apply not_eq_sym, (idx_other u)). Qed.

Lemma retire_sh i b :
  l_idx l = Some i -> pl !! b = Some (Popped t) ->
  sh_ok (with_retired s i (s_retired s i ++ [b])) nodes (<[b := Retired i]> pl) a /\
  frame_ok c t (with_retired s i (s_retired s i ++ [b])) pl (<[b := Retired i]> pl).
Proof.
  intros Hi Hb. split; [by apply (sh_retire _ _ _ _ (si_sh _ _ _ _ Hinv) _ _ t)|].
  apply (place_frame _ b (Popped t)); try done; [intros u i' ? ?; by apply ret_other with u|]. intros u Hne. split; congruence.
Qed.

(** A step to a scan's program point. *)
Lemma scan_step s' pl' st v pc' :
  sh_ok s' nodes pl' a -> frame_ok c t s' pl pl' -> owns_ok (s_heap s') pl' t pc' -> protects pc' = None ->
  needs_idx (l_pc l) = true -> pc_status pc' = Committed (ITryPop st) (RPop (Some v)) ->
  (forall u i i' b H, u <> t -> l_idx l = Some i -> l_idx (lo c u) = Some i' -> protects (l_pc (lo c u)) = Some b ->
     scanned pc' i' = Some H -> b ∈ s_retired s' i -> b ∈ H) ->
  stacks_inv (Cfg s' (<[t := mkLo (l_idx l) pc']> (lo c))) nodes pl' a.
Proof.
  intros Hsh Hfr Ho Hp Hn Hst Hsc. eapply stacks_inv_step; [done..| |done|simpl; auto| |].
  - split; [done| | |intros ? ? E; simpl in E; by rewrite E in Hst|intros _; by apply needs_keep with (l_pc l)|intros i Hi _; by apply max_keep].
    + intros b Hb. simpl in Hb. congruence.
    + simpl. intros i Hi. pose proof (lo_idx _ _ _ _ (si_lo _ _ _ _ Hinv t) i Hi). pose proof (fr_next _ _ _ _ _ Hfr). lia.
  - intros u Hne i i' b H Hi Hu Hpr Hs Hb. by eapply Hsc.
  - intros u _ i i' b H _ _ Hpr. simpl in Hpr. congruence.
Qed.

(** A scan frees a node it has not found in a slot: nobody protects it. *)
Lemma free_step i k b H st v :
  l_idx l = Some i -> l_pc l = Scan_free st v k H -> s_retired s i !! k = Some b -> b ∉ H ->
  b ∈ dom (s_heap s) /\
  stacks_inv (Cfg (with_retired (with_heap s (delete b (s_heap s))) i (swap_pop k (s_retired s i)))
    (<[t := mkLo (l_idx l) (Scan_free st v k H)]> (lo c))) nodes (delete b pl) a.
Proof.
  intros Hi Hpc Hk HbH.
  assert (Hb : pl !! b = Some (Retired i)) by (apply (sh_ret _ _ _ _ (si_sh _ _ _ _ Hinv)); by eapply list_elem_of_lookup_2).
  assert (Hno : forall u, protects (l_pc (lo c u)) <> Some b).
  { intros u Hpr. pose proof (lo_guard _ _ _ _ (si_lo _ _ _ _ Hinv u) b Hpr) as (_ & (i' & Hu & _) & _).
    apply HbH, (si_scan _ _ _ _ Hinv t u i i' b H); try done; [by rewrite Hpc|by eapply list_elem_of_lookup_2]. }
  split; [apply elem_of_dom; by apply (sh_alloc _ _ _ _ (si_sh _ _ _ _ Hinv) _ (Retired i))|].
  apply (scan_step _ _ st v); try done.
  - by apply (sh_free _ _ _ _ (si_sh _ _ _ _ Hinv)).
  - split; try done; simpl.
    + intros u b' Hne Hb'. assert (b' <> b) by (intros ->; destruct Hb'; congruence). by rewrite !lookup_delete_ne.
    + intros u b' p Hne Hpr Hp Hpub. assert (b' <> b) by (intros ->; by apply (Hno u)). rewrite !lookup_delete_ne by done. eauto.
    + intros u i' Hne Hu. by rewrite fn_lookup_insert_ne by (by apply not_eq_sym, (idx_other u)).
  - by rewrite Hpc.
  - intros u i1 i' b' H' Hne Hi1 Hu Hpr Hs' Hb'. rewrite Hi in Hi1. injection Hi1 as <-. injection Hs' as <-.
    simpl in Hb'. rewrite fn_lookup_insert in Hb'. apply (si_scan _ _ _ _ Hinv t u i i' b' H); try done; [by rewrite Hpc|].
    rewrite (swap_pop_perm _ _ _ Hk). set_solver.
Qed.

(** The protected node is still on top. *)
Lemma protect_step st b :
  l_pc l = Protect_check st b -> s_top s st = b -> b <> 0%Z ->
  stacks_inv (Cfg s (<[t := mkLo (l_idx l) (Pop_next st b)]> (lo c))) nodes pl a.
Proof.
  intros Hpc Ht H0. pose proof (si_lo _ _ _ _ Hinv t) as [_ _ Hi Hk Hn _].
  destruct (sh_top _ _ _ _ (si_sh _ _ _ _ Hinv) st b Ht H0) as (v & nx & ns & vs & Hh & _ & _ & _ & Hb).
  eapply stacks_inv_step; [done|apply Hinv| |apply frame_refl|simpl; auto|..].
  - split; [done| |done|done|intros _; apply Hn; by rewrite Hpc|intros i Hi' _; by apply max_keep].
    intros b' [= <-]. split; [done|]. split; [by apply (Hk st)|]. split; [by exists (InStack st)|done].
  - intros u _ i i' b' H _ _ _ Hs. done.
  - intros u _ i i' b' H Hu _ [= <-] _ Hr. apply (sh_ret _ _ _ _ (si_sh _ _ _ _ Hinv)) in Hr. congruence.
Qed.

Lemma next_step st b nd :
  l_pc l = Pop_next st b -> s_heap s !! b = Some nd ->
  stacks_inv (Cfg s (<[t := mkLo (l_idx l) (Pop_cas st b (sn_next nd))]> (lo c))) nodes pl a.
Proof.
  intros Hpc Hh. pose proof (si_lo _ _ _ _ Hinv t) as [_ Hg Hi Hk Hn _].
  destruct (Hg b) as (H0 & H1 & H2 & _); [by rewrite Hpc|].
  eapply stacks_inv_step; [done|apply Hinv| |apply frame_refl|simpl; auto|..].
  - split; [done| |done|done|intros _; apply Hn; by rewrite Hpc|intros i Hi' _; by apply max_keep].
    intros b' [= <-]. split; [done|]. split; [done|]. split; [done|]. simpl. exists (sn_value nd). by destruct nd.
  - intros u _ i i' b' H _ _ _ Hs. done.
  - intros u Hne i i' b' H Hu Hl [= <-] Hs Hr. apply (si_scan _ _ _ _ Hinv u t i i' b H); try done. by rewrite Hpc.
Qed.

(** A scan reads a slot. *)
Lemma load_step st v i0 j H pc' H' :
  l_pc l = Scan_load st v i0 j H ->
  H' = (if decide (hp_Get s i0 j = 0%Z) then H else set_insert (hp_Get s i0 j) H) ->
  (forall i', i' < kMaxThreads -> scanned pc' i' = None \/
    (scanned pc' i' = Some H' /\ (scanned (Scan_load st v i0 j H) i' = Some H \/ (i' = i0 /\ j = 0)))) ->
  owns_ok (s_heap s) pl t pc' -> protects pc' = None -> pc_status pc' = Committed (ITryPop st) (RPop (Some v)) ->
  stacks_inv (Cfg s (<[t := mkLo (l_idx l) pc']> (lo c))) nodes pl a.
Proof.
  intros Hpc -> Hsc Ho Hp Hst.
  apply (scan_step _ _ st v); try done; [apply Hinv|apply frame_refl|by rewrite Hpc|].
  intros u i i' b H' Hne Hi Hu Hpr Hs Hb.
  pose proof (si_lo _ _ _ _ Hinv u) as [_ Hg _ _ _ Hm]. destruct (Hg b Hpr) as (H0 & (i2 & Hu2 & Hslot) & _).
  rewrite Hu in Hu2. injection Hu2 as <-.
  assert (Hlt : i' < kMaxThreads).
  { apply (Hm i' Hu). by destruct (l_pc (lo c u)). }
  destruct (Hsc i' Hlt) as [Hs'|[Hs' [Hold|[-> ->]]]]; rewrite Hs' in Hs; [done|..]; injection Hs as <-.
  - assert (b ∈ H) as HbH by (apply (si_scan _ _ _ _ Hinv t u i i' b H); try done; by rewrite Hpc).
    case_decide; [done|]. apply set_insert_elem. auto.
  - unfold hp_Get. rewrite Hslot, decide_False by done. apply set_insert_elem. auto.
Qed.

(** A thread gets its state. *)
Lemma mutator_step st :
  l_pc l = Pop_mutator st ->
  let r := MakeMutator (ITryPop st) (Protect_load st) l s in
  stacks_inv (Cfg r.2 (<[t := r.1]> (lo c))) nodes pl a.
Proof.
  intros Hpc r. subst r. unfold MakeMutator. pose proof (si_lo _ _ _ _ Hinv t) as [Ho Hg Hi Hk Hn Hm].
  assert (Hsh : sh_ok (mkLFS (s_top s) (s_heap s) (s_slots s) (s_retired s) (S (s_next_idx s))) nodes pl a)
    by (by destruct (si_sh _ _ _ _ Hinv)).
  assert (Hfr : frame_ok c t (mkLFS (s_top s) (s_heap s) (s_slots s) (s_retired s) (S (s_next_idx s))) pl pl).
  { split; try done; simpl; [|lia]. intros u b p _ _ Hp Hpub. eauto. }
  destruct (l_idx l) as [i|] eqn:Ei.
  - simpl. eapply stacks_inv_step; [done|apply Hinv| |apply frame_refl|simpl; intros j [= <-]; auto| |].
    + split; simpl; try done. intros j Hj _. by apply Hm.
    + intros u _. by apply (scan_quiet _ (mkLo (Some i) _)).
    + intros u _. by apply (scan_quiet _ (mkLo (Some i) _)).
  - case_match eqn:Emax; simpl; (eapply stacks_inv_step; [done..| |done|simpl; intros i [= <-]; auto| |]);
      try (intros u _; by apply (scan_quiet _ (mkLo (Some (s_next_idx s)) _))).
    + split; simpl; try done. intros i [= <-]. lia.
    + split; simpl; try done; [intros i [= <-]; lia|].
      intros i [= <-] _. apply Nat.leb_gt in Emax. lia.
Qed.
End steps.

(** ** Every step of the machine *)

(** [t] goes to [l'] with memory [s'], showing [es]. *)
Definition advances (c : config LFS st_lo) (t : tid) (a : nat -> list Z) (l' : st_lo) (s' : LFS) (es : list st_event) : Prop :=
  exists nodes' pl' a', stacks_inv (Cfg s' (<[t := l']> (lo c))) nodes' pl' a' /\
    legal stacks_spec a (lin_ops es) a' /\ status_steps (pc_status (l_pc (lo c t))) es (pc_status (l_pc l')).

Lemma legal_one i r a a' : st_spec_step a i r a' -> legal stacks_spec a [(i, r)] a'.
Proof. intros H. econstructor; [exact H|constructor]. Qed.

Lemma status_same (st st' : status st_inv st_res) : st = st' -> status_steps st [] st'.
Proof. intros ->. constructor. Qed.
Lemma status_one (st st' : status st_inv st_res) e : status_step st e st' -> status_steps st [e] st'.
Proof. intros H. econstructor; [exact H|constructor]. Qed.

Section all_steps.
Context (c : config LFS st_lo) (nodes : nat -> list Z) (pl : gmap Z place) (a : nat -> list Z) (t : tid).
Context (Hinv : stacks_inv c nodes pl a).

(** A step without linearization point. *)
Lemma advances_silent l' s' nodes' pl' :
  stacks_inv (Cfg s' (<[t := l']> (lo c))) nodes' pl' a -> pc_status (l_pc (lo c t)) = pc_status (l_pc l') ->
  advances c t a l' s' [].
Proof. intros Hi Hs. exists nodes', pl', a. split; [done|]. split; [constructor|by apply status_same]. Qed.

Lemma push_advances x l' s' es :
  stack_Push x (lo c t) (sh c) = Some (l', s', es) -> advances c t a l' s' es.
Proof.
  pose proof (lo_owns _ _ _ _ (si_lo _ _ _ _ Hinv t)) as Ho. unfold stack_Push.
  destruct (l_pc (lo c t)) as [|st v|st n v|st n v| | | | | | | | | | | | | | | | | | |] eqn:Hpc; try done;
    assert (Hna : is_aborted (l_pc (lo c t)) = false) by (by rewrite Hpc).
  - destruct x as [|b| |]; try done. case_decide as Hb; [done|]. intros [= <- <- <-].
    apply Decidable.not_or in Hb as [Hb H0]. apply not_elem_of_dom in Hb.
    eapply advances_silent; [|by rewrite Hpc]. apply new_step; try done. simpl. rewrite !lookup_insert_eq. eauto.
  - destruct x; try done. simpl in Ho. destruct Ho as [Hpl [nx Hh]]. rewrite Hh. intros [= <- <- <-].
    eapply advances_silent; [|by rewrite Hpc]. apply modify_step; try done. simpl. rewrite lookup_insert_eq. eauto.
  - simpl in Ho. destruct Ho as [Hpl [nx Hh]]. rewrite Hh.
    assert (Hretry : advances c t a (mkLo (l_idx (lo c t)) (Push_cas st n v))
      (with_heap (sh c) (<[n := mkSNode v (s_top (sh c) st)]> (s_heap (sh c)))) []).
    { eapply advances_silent; [|by rewrite Hpc]. apply modify_step; try done. simpl. rewrite lookup_insert_eq. eauto. }
    destruct x; try done; [|intros [= <- <- <-]; exact Hretry].
    simpl. case_decide as Htop; intros [= <- <- <-]; [|exact Hretry]. subst nx.
    eexists _, _, _. split; [by apply push_step|]. split; [apply legal_one; constructor|].
    rewrite Hpc. apply status_one. constructor.
Qed.

Lemma protect_advances i l' s' es :
  l_idx (lo c t) = Some i -> guard_Protect i (lo c t) (sh c) = Some (l', s', es) -> advances c t a l' s' es.
Proof.
  intros Hi. unfold guard_Protect.
  destruct (l_pc (lo c t)) as [| | | | |st|st obj|st obj| | | | | | | | | | | | | | |] eqn:Hpc; try done;
    assert (Hna : is_aborted (l_pc (lo c t)) = false) by (by rewrite Hpc).
  - intros [= <- <- <-]. eapply advances_silent; [|by rewrite Hpc]. apply local_step; try done. by rewrite Hpc.
  - intros [= <- <- <-]. eapply advances_silent; [|by rewrite Hpc]. apply slot_step; try done; [by rewrite Hpc|]. by intros ? ? [= _ ->].
  - case_decide as Htop; [case_decide as H0|]; intros [= <- <- <-].
    + exists nodes, pl, a. split; [apply local_step; try done; by rewrite Hpc|].
      split; [apply legal_one; constructor; apply (sh_top_null _ _ _ _ (si_sh _ _ _ _ Hinv)); congruence|].
      rewrite Hpc. apply status_one. constructor.
    + eapply advances_silent; [|by rewrite Hpc]. by apply protect_step.
    + eapply advances_silent; [|by rewrite Hpc]. apply local_step; try done. by rewrite Hpc.
Qed.

Lemma reset_advances i l' s' es :
  l_idx (lo c t) = Some i -> guard_Reset i (lo c t) (sh c) = Some (l', s', es) -> advances c t a l' s' es.
Proof.
  intros Hi. unfold guard_Reset. destruct (l_pc (lo c t)) eqn:Hpc; try done; intros [= <- <- <-];
    assert (Hna : is_aborted (l_pc (lo c t)) = false) by (by rewrite Hpc);
    (eapply advances_silent; [|by rewrite Hpc]); apply slot_step; try done; by rewrite Hpc.
Qed.

Lemma scan_advances i l' s' es :
  l_idx (lo c t) = Some i -> mutator_Scan i (lo c t) (sh c) = Some (l', s', es) -> advances c t a l' s' es.
Proof.
  intros Hi. unfold mutator_Scan.
  destruct (l_pc (lo c t)) as [| | | | | | | | | | | |st v i0 j H|st v k H| | | | | | | | |] eqn:Hpc; try done;
    assert (Hna : is_aborted (l_pc (lo c t)) = false) by (by rewrite Hpc).
  - case_match eqn:Ej; [|case_match eqn:Ei0]; intros [= <- <- <-]; (eapply advances_silent; [|by rewrite Hpc]);
      (eapply load_step; [done..| |done|done|done]); intros i' Hi'; cbn [scanned].
    + destruct (decide (i' < i0 \/ (i' = i0 /\ 0 < S j))) as [Hd|Hd]; [right|left; by rewrite bool_decide_eq_false_2].
      rewrite bool_decide_eq_true_2 by done. split; [done|].
      destruct (decide (i' = i0 /\ j = 0)) as [|Hn]; [by right|left]. rewrite bool_decide_eq_true_2; [done|lia].
    + destruct (decide (i' < S i0 \/ (i' = S i0 /\ 0 < 0))) as [Hd|Hd]; [right|left; by rewrite bool_decide_eq_false_2].
      rewrite bool_decide_eq_true_2 by done. split; [done|].
      destruct (decide (i' = i0 /\ j = 0)) as [|Hn]; [by right|left]. rewrite bool_decide_eq_true_2; [done|lia].
    + right. split; [done|]. apply Nat.ltb_ge in Ei0.
      destruct (decide (i' = i0 /\ j = 0)) as [|Hn]; [by right|left]. rewrite bool_decide_eq_true_2; [done|lia].
  - destruct (s_retired (sh c) i !! k) as [b|] eqn:Hk; [case_decide as HbH|].
    + intros [= <- <- <-]. eapply advances_silent; [|by rewrite Hpc]. apply (scan_step _ _ _ _ _ Hinv Hna _ _ st v); try done.
      * apply Hinv.
      * apply frame_refl.
      * by rewrite Hpc.
      * intros u i1 i' b' H' Hne Hi1 Hu Hpr Hs Hb'. apply (si_scan _ _ _ _ Hinv t u i1 i' b' H'); try done. by rewrite Hpc.
    + destruct (free_step _ _ _ _ _ Hinv Hna i k b H st v Hi Hpc Hk HbH) as [Hdom Hst].
      unfold free_node. rewrite decide_True by done. intros [= <- <- <-]. eapply advances_silent; [exact Hst|by rewrite Hpc].
    + intros [= <- <- <-]. eapply advances_silent; [|by rewrite Hpc]. apply local_step; try done. by rewrite Hpc.
Qed.

Lemma retire_advances i l' s' es :
  l_idx (lo c t) = Some i -> mutator_Retire i (lo c t) (sh c) = Some (l', s', es) -> advances c t a l' s' es.
Proof.
  intros Hi. pose proof (lo_owns _ _ _ _ (si_lo _ _ _ _ Hinv t)) as Ho. unfold mutator_Retire.
  destruct (l_pc (lo c t)) as [| | | | | | | | | | |st b v| | | | | | | | | | |] eqn:Hpc; try done.
  assert (Hna : is_aborted (l_pc (lo c t)) = false) by (by rewrite Hpc). intros [= <- <- <-]. simpl in Ho.
  destruct (retire_sh _ _ _ _ _ Hinv i b Hi Ho) as [Hsh Hfr].
  case_match; (eapply advances_silent; [|by rewrite Hpc]).
  - apply (scan_step _ _ _ _ _ Hinv Hna _ _ st v); try done; [by rewrite Hpc|].
    intros u i1 i' b' H' _ _ _ _ Hs. cbn [scanned] in Hs. rewrite bool_decide_eq_false_2 in Hs; [done|lia].
  - apply (quiet_step _ _ _ _ _ Hinv Hna); try done. by rewrite Hpc.
Qed.

Lemma pop_advances x l' s' es :
  stack_TryPop x (lo c t) (sh c) = Some (l', s', es) -> advances c t a l' s' es.
Proof.
  pose proof (si_lo _ _ _ _ Hinv t) as [Ho Hg _ _ _ _]. unfold stack_TryPop.
  destruct (l_pc (lo c t)) as [| | | |st| | | |st b|st b n|st b r|st b v|st v i0 j H|st v k H|st v|st r| | | | | | |] eqn:Hpc;
    try done; assert (Hna : is_aborted (l_pc (lo c t)) = false) by (by rewrite Hpc).
  - destruct x; try done. pose proof (mutator_step _ _ _ _ _ Hinv Hna st Hpc) as Hm.
    destruct (MakeMutator _ _ _ _) as [l1 s1] eqn:E. intros [= <- <- <-]. eapply advances_silent; [exact Hm|].
    rewrite Hpc. unfold MakeMutator in E. case_match; [|case_match]; by simplify_eq.
  - destruct x as [x0|x0| |], (l_idx (lo c t)) as [i|] eqn:Hi; try done. by apply protect_advances.
  - destruct x as [x0|x0| |], (l_idx (lo c t)) as [i|] eqn:Hi; try done. by apply protect_advances.
  - destruct x as [x0|x0| |], (l_idx (lo c t)) as [i|] eqn:Hi; try done. by apply protect_advances.
  - destruct x as [x0|x0| |], (l_idx (lo c t)) as [i|] eqn:Hi; try done.
    destruct (Hg b) as (_ & _ & (p & Hp & _) & _); [by rewrite Hpc|].
    destruct (sh_alloc _ _ _ _ (si_sh _ _ _ _ Hinv) _ _ Hp) as [_ [nd Hh]]. rewrite Hh, <- Hi. intros [= <- <- <-].
    eapply advances_silent; [|by rewrite Hpc]. by apply next_step.
  - destruct (Hg b) as (H0 & _ & _ & Hh); [by rewrite Hpc|]. rewrite Hpc in Hh. destruct Hh as [v Hh].
    assert (Hretry : advances c t a (mkLo (l_idx (lo c t)) (Protect_load st)) (sh c) []).
    { eapply advances_silent; [|by rewrite Hpc]. apply local_step; try done. by rewrite Hpc. }
    destruct x as [x0|x0| |], (l_idx (lo c t)) as [i|] eqn:Hi; try done; [|intros [= <- <- <-]; exact Hretry].
    case_decide as Htop; intros [= <- <- <-]; [|exact Hretry].
    destruct (sh_top _ _ _ _ (si_sh _ _ _ _ Hinv) st b Htop H0) as (v' & nx & ns & vs & Hh' & En & Ea & Hl & _).
    rewrite Hh in Hh'. simplify_eq. rewrite Hh. cbn [sn_value]. eexists _, _, _. split; [|split].
    + rewrite <- Hi. eapply pop_step; try done; [|by rewrite Hpc]. simpl. rewrite lookup_insert_eq. eauto.
    + apply legal_one. by constructor.
    + rewrite Hpc. apply status_one. constructor.
  - destruct x as [x0|x0| |], (l_idx (lo c t)) as [i|] eqn:Hi; try done. destruct Ho as [Hpl [nx Hh]]. rewrite Hh, <- Hi. intros [= <- <- <-].
    eapply advances_silent; [|by rewrite Hpc]. apply local_step; try done. by rewrite Hpc.
  - destruct x as [x0|x0| |], (l_idx (lo c t)) as [i|] eqn:Hi; try done. by apply retire_advances.
  - destruct x as [x0|x0| |], (l_idx (lo c t)) as [i|] eqn:Hi; try done. by apply scan_advances.
  - destruct x as [x0|x0| |], (l_idx (lo c t)) as [i|] eqn:Hi; try done. by apply scan_advances.
  - destruct x as [x0|x0| |], (l_idx (lo c t)) as [i|] eqn:Hi; try done. by apply reset_advances.
  - destruct x as [x0|x0| |], (l_idx (lo c t)) as [i|] eqn:Hi; try done. by apply reset_advances.
Qed.

Lemma all_advances x l' s' es :
  (forall st, Inv (IDestroy st) ∉ es) -> stack_step t x (lo c t) (sh c) = Some (l', s', es) -> advances c t a l' s' es.
Proof.
  intros Hd. pose proof (lo_owns _ _ _ _ (si_lo _ _ _ _ Hinv t)) as Ho. unfold stack_step.
  destruct (l_pc (lo c t)) eqn:Hpc; try apply push_advances; try apply pop_advances; try done;
    assert (Hna : is_aborted (l_pc (lo c t)) = false) by (by rewrite Hpc).
  - destruct x as [i| | |]; try apply pop_advances. intros [= <- <- <-]. exists nodes, pl, a.
    split; [|split; [constructor|]].
    + apply local_step; try done; destruct i as [| |st]; try done; destruct (Hd st); set_solver.
    + rewrite Hpc. apply status_one. destruct i; constructor.
  - destruct x; try apply pop_advances. intros [= <- <- <-]. exists nodes, pl, a. split; [by apply local_step|]. split; [constructor|].
    rewrite Hpc. apply status_one. constructor.
Qed.
End all_steps.

(** The linearization points are the ones marked in the steps. *)
#[export, refine] Instance stacks_lin_points : LinPoints stack_step stacks_spec lfs_start no_destroy := {
  lp_status := fun l => pc_status (l_pc l);
  lp_sim := fun _ c a => exists nodes pl, stacks_inv c nodes pl a;
}.
Proof.
  - intros tr tr' H t st Hin. apply (H t st). set_solver.
  - done.
  - exists (fun _ => []), ∅. split; simpl.
    + split; simpl; try done.
      * intros b. rewrite !lookup_empty. by split; intros [].
      * intros st b. rewrite lookup_empty. split; [by intros ?%elem_of_nil|done].
      * intros st. constructor.
      * intros i b. rewrite lookup_empty. split; [by intros ?%elem_of_nil|done].
      * intros i. constructor.
    + intros t. by split.
    + done.
    + intros t u i i' b H. done.
  - intros tr c a t x c' es (nodes & pl & Hinv) (l' & s' & Hst & ->)%cstep_inv Hok.
    destruct (all_advances c nodes pl a t Hinv x l' s' es) as (nodes' & pl' & a' & Hi & Hl & Hs); [|done|].
    + intros st Hin. apply (Hok t st), elem_of_app. right. by apply (list_elem_of_fmap_2 (pair t) es (Inv (IDestroy st))).
    + exists a'. split; [eauto|]. split; [done|]. simpl. by rewrite fn_lookup_insert.
Defined.

(** ** Thread states *)

#[local] Arguments Nat.leb : simpl never.
#[local] Arguments Nat.ltb : simpl never.
#[local] Arguments Nat.mul : simpl never.
#[local] Arguments kMaxThreads : simpl never.
#[local] Arguments kMaxHazardPtrs : simpl never.

(** Every step, by cases. *)
Ltac inv_stack_step H :=
  unfold stack_step, stack_Push, stack_TryPop, stack_Destroy, guard_Protect, guard_Reset, mutator_Retire, mutator_Scan, mutator_CleanUpImpl,
    MakeMutator, free_node in H;
  repeat (case_match; simplify_eq/=).

(** Indices are handed out once each, and a thread keeps its own. *)
Lemma step_idx t x l s l' s' es :
  stack_step t x l s = Some (l', s', es) ->
  (l_idx l' = l_idx l /\ s_next_idx s' = s_next_idx s /\ is_aborted (l_pc l') = false) \/
  (l_idx l = None /\ l_idx l' = Some (s_next_idx s) /\ s_next_idx s' = S (s_next_idx s) /\
   (is_aborted (l_pc l') = true -> kMaxThreads <= s_next_idx s)).
Proof.
  destruct l as [oi pc]. intros H.
  inv_stack_step H; try (left; repeat split; done).
  all: first [left; repeat split; match goal with i : st_inv |- _ => by destruct i end
             |right; repeat split; try done; intros _; by apply Nat.leb_le|by right].
Qed.

(** The retired lists of the other thread states are left alone. *)
Lemma step_retired t x l s l' s' es i :
  stack_step t x l s = Some (l', s', es) -> l_idx l <> Some i -> s_retired s' i = s_retired s i.
Proof.
  destruct l as [oi pc]. intros H Hi. inv_stack_step H; try done.
  all: rewrite fn_lookup_insert_ne; [done|]; intros ->; done.
Qed.

(** How much a thread has retired, depending on how far its scan is. *)
Definition garbage_ok (s : LFS) (l : st_lo) : Prop :=
  forall i, l_idx l = Some i ->
  let n := length (s_retired s i) in
  match l_pc l with
  | Scan_load _ _ i' j H => n <= S (kMaxThreads * kMaxHazardPtrs) /\ length H <= i' * kMaxHazardPtrs + j /\
      i' < kMaxThreads /\ j < kMaxHazardPtrs
  | Scan_free _ _ k H => n <= S (kMaxThreads * kMaxHazardPtrs) /\ length H <= kMaxThreads * kMaxHazardPtrs /\
      Forall (.∈ H) (take k (s_retired s i))
  | _ => n <= kMaxThreads * kMaxHazardPtrs
  end.

Lemma set_insert_length o H : length (set_insert o H) <= S (length H).
Proof. unfold set_insert. case_decide; simpl; lia. Qed.

Lemma swap_pop_take k l b : l !! k = Some b -> take k (swap_pop k l) = take k l.
Proof.
  intros Hk. destruct (exists_last (l := l)) as (l0 & z & ->); [by intros ->|]. unfold swap_pop. rewrite last_last.
  apply lookup_lt_Some in Hk. rewrite length_app in Hk. simpl in Hk. destruct (decide (k = length l0)) as [->|Hne].
  - rewrite insert_app_r_alt, Nat.sub_diag by lia. simpl. by rewrite removelast_last, take_app_length, take_ge.
  - rewrite insert_app_l, removelast_last by lia. rewrite take_insert_ge, take_app_le by lia. done.
Qed.

Lemma swap_pop_length k l b : l !! k = Some b -> length l = S (length (swap_pop k l)).
Proof. intros Hk. by rewrite (swap_pop_perm k l b Hk) at 1. Qed.

(** A scan ends with garbage that was found in slots. *)
Lemma scan_end (l H : list Z) k : base.NoDup l -> l !! k = None -> Forall (.∈ H) (take k l) -> length l <= length H.
Proof.
  intros Hnd Hk Hf. apply lookup_ge_None in Hk. rewrite take_ge in Hf by done.
  apply submseteq_length, NoDup_submseteq; [done|]. intros x Hx. by eapply (proj1 (list.Forall_forall _ _) Hf).
Qed.

Lemma garbage_step c nodes pl a t x l' s' es :
  stacks_inv c nodes pl a -> garbage_ok (sh c) (lo c t) -> (forall i, s_next_idx (sh c) <= i -> s_retired (sh c) i = []) ->
  stack_step t x (lo c t) (sh c) = Some (l', s', es) -> garbage_ok s' l'.
Proof.
  intros Hinv Hg Hfresh H. pose proof (lo_owns _ _ _ _ (si_lo _ _ _ _ Hinv t)) as Ho.
  pose proof (si_sh _ _ _ _ Hinv) as Hsh. pose proof (sh_ret_nd _ _ _ _ Hsh) as Hnd. clear Hinv.
  destruct (lo c t) as [oi pc], (sh c) as [top heap slots ret nx]. unfold garbage_ok in *. simpl in *.
  assert (Hdom : forall i b, b ∈ ret i -> b ∉ dom heap -> False).
  { intros i b Hb Hn. apply Hn, elem_of_dom. eapply (sh_alloc _ _ _ _ Hsh). by apply (sh_ret _ _ _ _ Hsh). }
  assert (Hsc : forall o H, length (set_insert o H) <= S (length H)) by apply set_insert_length.
  inv_stack_step H; try done; intros ii Hii; simplify_eq/=; try (specialize (Hg _ eq_refl)); try (rewrite ?fn_lookup_insert); try lia.
  all: repeat match goal with H : (_ <? _) = true |- _ => apply Nat.ltb_lt in H | H : (_ <? _) = false |- _ => apply Nat.ltb_ge in H end.
  all: rewrite ?length_app in *; simpl in *; try (specialize (Hsc (slots i j) hazards)); unfold scan_freq, kMaxThreads, kMaxHazardPtrs in *;
    try lia.
  - by destruct i.
  - by destruct i.
  - rewrite Hfresh by lia. simpl. lia.
  - rewrite Hfresh by lia. simpl. lia.
  - split; [lia|]. split; [lia|constructor].
  - split; [lia|]. split; [lia|constructor].
  - destruct Hg as (? & ? & Hf). split; [done|]. split; [done|]. erewrite take_S_r by done. apply list.Forall_app. split; [done|].
    by apply list.Forall_singleton.
  - destruct Hg as (? & ? & Hf). erewrite swap_pop_take by done. split; [|done]. match goal with H : ret ii !! k = Some _ |- _ =>
      pose proof (swap_pop_length _ _ _ H) end. lia.
  - destruct (Hdom ii z); [by eapply list_elem_of_lookup_2|done].
  - destruct Hg as (? & ? & Hf). assert (length (ret ii) <= length hazards) by (by apply (scan_end _ _ k)). lia.
Qed.

(** ** Theorems *)

(** C5: The stacks are linearizable: every concurrent history of [Push] and
    [TryPop] calls on any number of stacks, by any number of threads, with any
    reuse of addresses by the allocator and any spurious failure of a weak
    exchange, is one of sequential LIFO stacks. *)
Theorem lock_free_stack_linearizable tr c :
  steps stack_step lfs_start tr c -> no_destroy tr -> linearizable stacks_spec (history tr).
Proof. apply (lin_points_sound stacks_lin_points). Qed.

(** The state of a run: the invariant, the bound on the garbage, and the indices. *)
Definition indexed (l : st_lo) : bool := bool_decide (is_Some (l_idx l)).

Lemma stacks_run tr c :
  steps stack_step lfs_start tr c -> no_destroy tr ->
  (exists nodes pl a, stacks_inv c nodes pl a) /\ (forall t, garbage_ok (sh c) (lo c t)) /\
  (forall i, s_next_idx (sh c) <= i -> s_retired (sh c) i = []).
Proof.
  induction 1 as [|tr c t x c' es Hs IH Hc]; intros Hok.
  - split; [|split; [intros t i; done|done]]. destruct (lp_init (LinPoints := stacks_lin_points)) as (nodes & pl & Hi). eauto.
  - destruct IH as ((nodes & pl & a & Hinv) & Hg & Hf); [by eapply (lp_ok_prefix (LinPoints := stacks_lin_points))|].
    destruct (lp_step (LinPoints := stacks_lin_points) tr c a t x c' es ltac:(simpl; eauto) Hc Hok) as (a' & (nodes' & pl' & Hinv') & _).
    split; [eauto|]. apply cstep_inv in Hc as (l' & s' & Hst & ->). cbn [sh lo]. split.
    + intros u. destruct (decide (u = t)) as [->|Hne]; [rewrite fn_lookup_insert; exact (garbage_step _ _ _ _ _ _ _ _ _ Hinv (Hg t) Hf Hst)|].
      rewrite fn_lookup_insert_ne by done. intros i Hi. specialize (Hg u i Hi).
      rewrite (step_retired _ _ _ _ _ _ _ i Hst); [done|]. intros Ht. by apply Hne, (si_inj _ _ _ _ Hinv u t i).
    + intros i Hi. assert (s_next_idx (sh c) <= s_next_idx s') as Hle
        by (destruct (step_idx _ _ _ _ _ _ _ Hst) as [(_ & -> & _)|(_ & _ & -> & _)]; lia).
      rewrite (step_retired _ _ _ _ _ _ _ i Hst); [apply Hf; lia|]. intros Ht.
      pose proof (lo_idx _ _ _ _ (si_lo _ _ _ _ Hinv t) i Ht). lia.
Qed.

Lemma indexed_run tr c :
  gsteps stack_step (fun t _ _ => t < kMaxThreads) lfs_start tr c ->
  s_next_idx (sh c) = count_lo indexed kMaxThreads (lo c) /\ forall t, is_aborted (l_pc (lo c t)) = false.
Proof.
  induction 1 as [|tr c t x c' es Hs [IHn IHa] Ht Hc].
  - split; [|done]. symmetry. by apply count_lo_zero.
  - apply cstep_inv in Hc as (l' & s' & Hst & ->). simpl.
    pose proof (count_lo_insert indexed kMaxThreads (lo c) t l' Ht) as Hcnt. unfold indexed in Hcnt.
    destruct (step_idx _ _ _ _ _ _ _ Hst) as [(Hi & Hn & Ha)|(Hi & Hi' & Hn & Ha)].
    + split; [rewrite Hi in Hcnt; unfold indexed in *; lia|]. intros u. destruct (decide (u = t)) as [->|Hne];
        [by rewrite fn_lookup_insert|by rewrite fn_lookup_insert_ne].
    + rewrite Hi, Hi' in Hcnt. simpl in Hcnt. split; [unfold indexed in *; lia|]. intros u. destruct (decide (u = t)) as [->|Hne];
        [|by rewrite fn_lookup_insert_ne].
      rewrite fn_lookup_insert. destruct (is_aborted (l_pc l')) eqn:E; [|done]. specialize (Ha eq_refl).
      pose proof (count_lo_le indexed kMaxThreads (<[t := l']> (lo c))). unfold indexed in *. lia.
Qed.

(** C6: Memory safety of the hazard pointers as long as no stack is destroyed (a destructor may
    free nodes of other stacks, see [hazard_cleanup_use_after_free]): with at most [kMaxThreads]
    threads, no thread ever dereferences or frees a node that is not allocated, and the manager
    never aborts. *)
Theorem lock_free_stack_memory_safe tr c :
  gsteps stack_step (fun t _ _ => t < kMaxThreads) lfs_start tr c -> no_destroy tr ->
  forall t i, l_pc (lo c t) <> Crashed i /\ l_pc (lo c t) <> Aborted i.
Proof.
  intros Hs Hok t i. destruct (indexed_run _ _ Hs) as [_ Ha]. apply gsteps_steps in Hs.
  destruct (stacks_run _ _ Hs Hok) as ((nodes & pl & a & Hinv) & _). split; intros E.
  - pose proof (lo_owns _ _ _ _ (si_lo _ _ _ _ Hinv t)) as Ho. by rewrite E in Ho.
  - specialize (Ha t). by rewrite E in Ha.
Qed.

(** Bounded garbage: a thread never has more than 129 retired nodes that
    are not yet freed, however long the run. *)
Theorem hazard_garbage_bounded tr c t i :
  steps stack_step lfs_start tr c -> no_destroy tr -> l_idx (lo c t) = Some i ->
  length (s_retired (sh c) i) <= kMaxThreads * kMaxHazardPtrs + 1.
Proof.
  intros Hs Hok Hi. destruct (stacks_run _ _ Hs Hok) as (_ & Hg & _). specialize (Hg t i Hi). simpl in Hg.
  destruct (l_pc (lo c t)); lia.
Qed.

(** *** Cleaning up *)

(** One thread pushes onto stack 0, another protects the node on top; the first
    one pops the node and destroys the unrelated, empty stack 1. *)
Definition cleanup_schedule : list (tid * st_act) :=
  [(0, SCall (IPush 0 7)); (0, SNew 16); (0, SGo); (0, SGo); (0, SGo)] ++
  [(1, SCall (ITryPop 0)); (1, SGo); (1, SGo); (1, SGo); (1, SGo)] ++
  [(0, SCall (ITryPop 0))] ++ replicate 11 (0, SGo) ++
  [(0, SCall (IDestroy 1))] ++ replicate 6 (0, SGo) ++ [(1, SGo)].

(** [CleanUp], which a stack's destructor calls, frees whatever the thread
    has retired, from any stack, without looking at the hazard pointers: another
    thread dereferences a node of stack 0 that it protects, after it was freed by
    the destruction of stack 1. *)
Theorem hazard_cleanup_use_after_free :
  exists tr c, steps stack_step lfs_start tr c /\
    s_slots (sh c) 0 0 = 16%Z /\ s_heap (sh c) !! 16%Z = None /\ l_pc (lo c 1) = Crashed (ITryPop 0) /\
    (forall st, (0, Inv (IDestroy st)) ∈ tr -> st = 1).
Proof.
  destruct (run stack_step cleanup_schedule lfs_start) as [[c tr]|] eqn:E; [|by vm_compute in E].
  exists tr, c. split; [by eapply run_steps0|]. vm_compute in E. injection E as <- <-.
  repeat split. intros st Hin. repeat (apply elem_of_cons in Hin as [Hin|Hin]; [by simplify_eq|]). by apply elem_of_nil in Hin.
Qed.

(** *** Runs *)

(** A push, and a pop that first fails spuriously. *)
Definition stack_schedule : list (tid * st_act) :=
  [(0, SCall (IPush 0 7)); (1, SCall (ITryPop 0)); (0, SNew 16); (0, SGo); (1, SGo); (0, SSpurious); (0, SGo); (0, SGo)] ++
  replicate 4 (1, SGo) ++ [(1, SSpurious)] ++ replicate 10 (1, SGo).

Definition stack_run : config LFS st_lo * list (tid * st_event) :=
  match run stack_step stack_schedule lfs_start with Some r => r | None => (lfs_start, []) end.

Definition stack_events : list (tid * st_event) :=
  [(0, Inv (IPush 0 7)); (1, Inv (ITryPop 0)); (0, Lin (IPush 0 7) RDone); (0, Ret RDone);
   (1, Lin (ITryPop 0) (RPop (Some 7%Z))); (1, Ret (RPop (Some 7%Z)))].

Lemma lock_free_stack_linearizable_witness :
  exists c, steps stack_step lfs_start stack_events c /\ linearizable stacks_spec (history stack_events).
Proof.
  assert (E : run stack_step stack_schedule lfs_start = Some (stack_run.1, stack_events)) by (vm_compute; reflexivity).
  exists stack_run.1. apply run_steps0 in E. split; [exact E|]. apply (lock_free_stack_linearizable _ _ E).
  intros t st Hin. repeat (apply elem_of_cons in Hin as [Hin|Hin]; [by simplify_eq|]). by apply elem_of_nil in Hin.
Defined.

Lemma stack_events_ok : no_destroy stack_events.
Proof. intros t st Hin. repeat (apply elem_of_cons in Hin as [Hin|Hin]; [by simplify_eq|]). by apply elem_of_nil in Hin. Qed.

Lemma lock_free_stack_memory_safe_witness :
  s_retired (sh stack_run.1) 0 = [16%Z] /\ forall t i, l_pc (lo stack_run.1 t) <> Crashed i /\ l_pc (lo stack_run.1 t) <> Aborted i.
Proof.
  assert (E : run stack_step stack_schedule lfs_start = Some (stack_run.1, stack_events)) by (vm_compute; reflexivity).
  split; [vm_compute; reflexivity|]. apply (lock_free_stack_memory_safe stack_events stack_run.1); [|exact stack_events_ok].
  apply (run_gsteps0 _ _ stack_schedule); [|exact E]. unfold kMaxThreads. vm_compute. repeat split; lia.
Defined.

Lemma hazard_garbage_bounded_witness : length (s_retired (sh stack_run.1) 0) <= kMaxThreads * kMaxHazardPtrs + 1.
Proof.
  assert (E : run stack_step stack_schedule lfs_start = Some (stack_run.1, stack_events)) by (vm_compute; reflexivity).
  apply (hazard_garbage_bounded stack_events stack_run.1 1); [by apply run_steps0 in E|exact stack_events_ok|vm_compute; reflexivity].
Defined.
