(* ===== verification/SharedPtr.v ===== *)
(** Shared pointers with split reference counts:
    src/src/exe/lf/memory/atomic_shared_ptr.hpp.

    A block has two counters: [transient] counts the [SharedPtr]s, minus the
    increments that still sit in the stamps of the [AtomicSharedPtr]s that point to
    it; [strong] counts those [AtomicSharedPtr]s.  A block is deleted when both are
    zero.

    Threads run the operations of the two classes on their own [SharedPtr]
    variables and on shared [AtomicSharedPtr]s; a call is a list of elementary
    instructions, one atomic access each ([AtomicStampedPtr] is the register it is
    linearizable to, StampedPtr.v).  A counter access or a deletion of a block that
    is not allocated, and an overflow of a 32-bit counter, is a crash. *)

From S2P Require Import Prelude Conc StampedPtr.
Local Open Scope Z_scope.

(** ** The code *)

Record SplitCount := mkCount { transient : Z; strong : Z }.
#[export] Instance SplitCount_eq_dec : EqDecision SplitCount.
Proof. solve_decision. Defined.

(** [detail::Block] *)
Record Block := mkBlock { bl_value : Z; counter : SplitCount }.

(** The [AtomicSharedPtr]s and the allocated blocks. *)
Record SPS := mkSPS { sp_cells : nat -> StampedPtr; sp_blocks : gmap Z Block }.

(** Elementary instructions.  [x], [y] are variables of the thread, [c] an
    [AtomicSharedPtr], [b], [t], [d], [e] blocks. *)
Inductive sp_instr :=
(** [MakeShared]: allocate, count the first reference *)
| MAlloc (x : nat) (v : Z)
| MInit (b : Z)
(** [FetchAddTransient], [FetchAddStrong], [FetchAddTransientAndStrong]: the load,
    the exchange; [chk]: delete the block if both counters are now zero *)
| MAdd (b dt ds : Z) (chk : bool)
| MAddCas (b : Z) (old : SplitCount) (dt ds : Z) (chk : bool)
| MDelete (b : Z)
(** [block_ = b]; [Reset()]; [block_ = that.block_] and count it, or take it over *)
| MSet (x : nat) (b : Z)
| MReset (x : nat)
| MCopy (x y : nat)
| MMove (x y : nat)
(** [Load]: [FetchIncrement(block_)]; [assign]: [expected = Load()] *)
| MFetchInc (x c : nat) (assign : bool)
(** [TryUpdateTransient]: the exchange *)
| MUpdCas (c : nat) (b s : Z)
(** [Store]: the exchange *)
| MExchange (c : nat) (t : Z)
(** [CompareExchangeWeak]: reading the stamp, the exchange *)
| MCasStamp (c x : nat) (e d : Z)
| MCas (c x : nat) (e st d : Z)
| MCrash.

(** Calls on the [AtomicSharedPtr]s, which are visible to other threads.  [RLoaded]
    is the pointer [Load] returns; [RSwap] the flag [CompareExchangeWeak] returns
    and what [expected] holds then. *)
Inductive sp_inv := ALoad (c : nat) | AStore (c : nat) (t : Z) | ACas (c : nat) (e d : Z).
Inductive sp_res := RLoaded (b : Z) | RStored | RSwap (ok : bool) (b : Z).
Abbreviation sp_event := (event sp_inv sp_res).

(** The thread's [SharedPtr] variables ([0]: the null pointer), its call on an
    [AtomicSharedPtr], the variable that takes its result, and what is left to do of
    the current operation. *)
Record sp_lo := mkSpLo {
  sp_vars : nat -> Z;
  sp_call : status sp_inv sp_res;
  sp_out : nat;
  sp_todo : list sp_instr;
}.

(** Operations of a client: [x = MakeShared(v)], [SharedPtr x(y)],
    [SharedPtr x(std::move(y))], [x = y], [x = std::move(y)], [x.Reset()] (and
    [~SharedPtr]), [SharedPtr x = c.Load()], [c.Store(std::move(y))],
    [c.CompareExchangeWeak(x, std::move(y))]. *)
Inductive sp_op :=
| OMake (x : nat) (v : Z)
| OCopy (x y : nat)
| OMove (x y : nat)
| OAssign (x y : nat)
| OMoveAssign (x y : nat)
| OReset (x : nat)
| OLoad (x c : nat)
| OStore (c y : nat)
| OCas (c x y : nat).

(** [PCall]: the next operation; [PNew b]: the allocator's answer; [PSpur]: a
    spurious failure. *)
Inductive sp_act := PCall (o : sp_op) | PNew (b : Z) | PGo | PSpur.
#[export] Instance sp_op_eq_dec : EqDecision sp_op.
Proof. solve_decision. Defined.
#[export] Instance sp_act_eq_dec : EqDecision sp_act.
Proof. solve_decision. Defined.

Definition fits32 (z : Z) : bool := (- 2 ^ 31 <=? z) && (z <? 2 ^ 31).

(** [if (ptr != nullptr)] *)
Definition if_block (b : Z) (l : list sp_instr) : list sp_instr := if decide (b = 0) then [] else l.

(** [AtomicSharedPtr::CleanupStampedBlock] *)
Definition CleanupStampedBlock (b st : Z) : list sp_instr := if_block b [MAdd b st (-1) true].

(** [AtomicSharedPtr::TryUpdateTransient] *)
Definition TryUpdateTransient (c : nat) (b st : Z) : list sp_instr := if_block b [MAdd b st 1 false; MUpdCas c b st].

(** [SharedPtr::~SharedPtr] of a parameter. *)
Definition DestroyParam (b : Z) : list sp_instr := if_block b [MAdd b (-1) 0 true].

(** The variables after the parameters [target] and [desired] have been moved from [y]. *)
Definition sp_pass (o : sp_op) (vars : nat -> Z) : nat -> Z :=
  match o with OStore _ y | OCas _ _ y => <[y := 0]> vars | _ => vars end.

(** What an operation does. *)
Definition sp_code (o : sp_op) (vars : nat -> Z) : list sp_instr :=
  match o with
  | OMake x v => [MAlloc x v]
  | OCopy x y => [MCopy x y]
  | OMove x y => [MMove x y]
  | OAssign x y => [MReset x; MCopy x y]
  | OMoveAssign x y => [MReset x; MMove x y]
  | OReset x => [MReset x]
  | OLoad x c => [MFetchInc x c false]
  | OStore c y => if_block (vars y) [MAdd (vars y) 0 1 false] ++ MExchange c (vars y) :: DestroyParam (vars y)
  | OCas c x y => MCasStamp c x (sp_pass o vars x) (vars y) :: DestroyParam (vars y)
  end.

Definition sp_invocation (o : sp_op) (vars : nat -> Z) : option sp_inv :=
  match o with
  | OLoad x c => Some (ALoad c)
  | OStore c y => Some (AStore c (vars y))
  | OCas c x y => Some (ACas c (sp_pass o vars x) (vars y))
  | _ => None
  end.

Definition sp_target (o : sp_op) : nat := match o with OLoad x _ | OCas _ x _ => x | _ => O end.

(** A constructor makes a new variable: its old value is gone. *)
Definition sp_enabled (o : sp_op) (vars : nat -> Z) : bool :=
  match o with OMake x _ | OCopy x _ | OMove x _ | OLoad x _ => vars x =? 0 | _ => true end.

(** The counters' read-modify-write loop. *)
Definition FetchAdd (x : sp_act) (i : sp_instr) (rest : list sp_instr) (s : SPS) : option (list sp_instr * SPS) :=
  match i with
  | MAdd b dt ds chk =>
      match sp_blocks s !! b with
      | Some blk => Some (MAddCas b (counter blk) dt ds chk :: rest, s)
      | None => Some ([MCrash], s)
      end
  | MAddCas b old dt ds chk =>
      match sp_blocks s !! b with
      | Some blk =>
          if decide (counter blk = old /\ x <> PSpur) then
            let new := mkCount (transient old + dt) (strong old + ds) in
            if fits32 (transient new) && fits32 (strong new) then
              Some (if chk && bool_decide (new = mkCount 0 0) then MDelete b :: rest else rest,
                    mkSPS (sp_cells s) (<[b := mkBlock (bl_value blk) new]> (sp_blocks s)))
            else Some ([MCrash], s)
          else Some (MAddCas b (counter blk) dt ds chk :: rest, s)
      | None => Some ([MCrash], s)
      end
  | _ => None
  end.

(** Instructions on blocks and variables. *)
Definition sp_local (x : sp_act) (i : sp_instr) (rest : list sp_instr) (vars : nat -> Z) (s : SPS)
  : option ((nat -> Z) * list sp_instr * SPS) :=
  match i, x with
  | MAlloc y v, PNew b =>
      if decide (b ∈ dom (sp_blocks s) \/ b = 0) then None
      else Some (vars, MInit b :: MSet y b :: rest, mkSPS (sp_cells s) (<[b := mkBlock v (mkCount 0 0)]> (sp_blocks s)))
  | MInit b, PGo =>
      match sp_blocks s !! b with
      | Some blk => Some (vars, rest, mkSPS (sp_cells s)
          (<[b := mkBlock (bl_value blk) (mkCount (transient (counter blk) + 1) (strong (counter blk)))]> (sp_blocks s)))
      | None => Some (vars, [MCrash], s)
      end
  | MDelete b, PGo =>
      match sp_blocks s !! b with
      | Some _ => Some (vars, rest, mkSPS (sp_cells s) (delete b (sp_blocks s)))
      | None => Some (vars, [MCrash], s)
      end
  | MSet y b, PGo => Some (<[y := b]> vars, rest, s)
  | MReset y, PGo => Some (<[y := 0]> vars, if_block (vars y) [MAdd (vars y) (-1) 0 true] ++ rest, s)
  | MCopy y z, PGo =>
      if decide (vars z = 0) then Some (<[y := 0]> vars, rest, s)
      else Some (vars, MAdd (vars z) 1 0 false :: MSet y (vars z) :: rest, s)
  | MMove y z, PGo => Some (<[z := 0]> (<[y := vars z]> vars), rest, s)
  | _, _ => None
  end.

Definition set_cell (s : SPS) (c : nat) (p : StampedPtr) : SPS := mkSPS (<[c := p]> (sp_cells s)) (sp_blocks s).

(** Instructions on an [AtomicSharedPtr]; the result is known when the call takes
    effect. *)
Definition sp_atomic (x : sp_act) (i : sp_instr) (rest : list sp_instr) (s : SPS)
  : option (list sp_instr * SPS * option sp_res) :=
  match i with
  | MFetchInc y c assign =>
      let old := sp_cells s c in
      let st := stamp old + 1 in
      let upd := if 10000 <? st then TryUpdateTransient c (raw_ptr old) st else [] in
      Some (upd ++ (if assign then [MReset y] else []) ++ MSet y (raw_ptr old) :: rest,
            set_cell s c (sp_norm (sp_IncrementStamp old)),
            Some (if assign then RSwap false (raw_ptr old) else RLoaded (raw_ptr old)))
  | MUpdCas c b st =>
      if decide (sp_cells s c = mkStamped b st /\ x <> PSpur)
      then Some (MAdd b 0 (-1) false :: rest, set_cell s c (mkStamped b 0), None)
      else Some (MAdd b (- st) (-1) false :: rest, s, None)
  | MExchange c t =>
      let old := sp_cells s c in
      Some (CleanupStampedBlock (raw_ptr old) (stamp old) ++ rest, set_cell s c (mkStamped t 0), Some RStored)
  | MCasStamp c y e d =>
      Some (if_block d [MAdd d 0 1 false] ++ MCas c y e (stamp (sp_cells s c)) d :: rest, s, None)
  | MCas c y e st d =>
      if decide (sp_cells s c = mkStamped e st /\ x <> PSpur)
      then Some (CleanupStampedBlock e st ++ rest, set_cell s c (mkStamped d 0), Some (RSwap true e))
      else Some (if_block d [MAdd d 0 (-1) false] ++ MFetchInc y c true :: rest, s, None)
  | _ => None
  end.

(** The next instruction of a thread. *)
Definition sp_exec (x : sp_act) (l : sp_lo) (i : sp_instr) (rest : list sp_instr) (s : SPS)
  : option (sp_lo * SPS * list sp_event) :=
  let vars := sp_vars l in
  match FetchAdd x i rest s, sp_local x i rest vars s, sp_atomic x i rest s with
  | Some (todo, s'), _, _ => Some (mkSpLo vars (sp_call l) (sp_out l) todo, s', [])
  | _, Some (vars', todo, s'), _ => Some (mkSpLo vars' (sp_call l) (sp_out l) todo, s', [])
  | _, _, Some (todo, s', None) => Some (mkSpLo vars (sp_call l) (sp_out l) todo, s', [])
  | _, _, Some (todo, s', Some r) =>
      match sp_call l with
      | Pending inv => Some (mkSpLo vars (Committed inv r) (sp_out l) todo, s', [Lin inv r])
      | _ => None
      end
  | _, _, _ => None
  end.

(** What the caller sees: the pointer is read from the variable that received it. *)
Definition sp_returned (l : sp_lo) (r : sp_res) : sp_res :=
  match r with
  | RLoaded _ => RLoaded (sp_vars l (sp_out l))
  | RSwap false _ => RSwap false (sp_vars l (sp_out l))
  | r => r
  end.

Definition sp_step (t : tid) (x : sp_act) (l : sp_lo) (s : SPS) : option (sp_lo * SPS * list sp_event) :=
  match sp_todo l, x, sp_call l with
  | [], PCall o, Idle =>
      if sp_enabled o (sp_vars l) then
        let vars := sp_pass o (sp_vars l) in
        let code := sp_code o (sp_vars l) in
        match sp_invocation o (sp_vars l) with
        | Some inv => Some (mkSpLo vars (Pending inv) (sp_target o) code, s, [Inv inv])
        | None => Some (mkSpLo vars Idle (sp_target o) code, s, [])
        end
      else None
  | [], PGo, Committed _ r => Some (mkSpLo (sp_vars l) Idle (sp_out l) [], s, [Ret (sp_returned l r)])
  | i :: rest, (PNew _ | PGo | PSpur), _ => sp_exec x l i rest s
  | _, _, _ => None
  end.

(** No block is allocated, and every pointer is null. *)
Definition sp_start : config SPS sp_lo :=
  Cfg (mkSPS (fun _ => mkStamped 0 0) ∅) (fun _ => mkSpLo (fun _ => 0) Idle O []).

(** ** The specification: a register of pointers for every [AtomicSharedPtr]

    [CompareExchangeWeak] may fail at any time; then [expected] is the pointer the
    register holds. *)
Inductive ptr_step : (nat -> Z) -> sp_inv -> sp_res -> (nat -> Z) -> Prop :=
| ptr_load a c : ptr_step a (ALoad c) (RLoaded (a c)) a
| ptr_store a c t : ptr_step a (AStore c t) RStored (<[c := t]> a)
| ptr_swap a c e d : a c = e -> ptr_step a (ACas c e d) (RSwap true e) (<[c := d]> a)
| ptr_fail a c e d : ptr_step a (ACas c e d) (RSwap false (a c)) a.

Definition pointers_spec : seq_spec sp_inv sp_res := SeqSpec _ _ (nat -> Z) (fun _ => 0) ptr_step.

(** ** Linearizability *)

(** The instruction at which a call takes effect, or that leads to it. *)
Definition is_point (i : sp_instr) : bool :=
  match i with MFetchInc _ _ _ | MExchange _ _ | MCasStamp _ _ _ _ | MCas _ _ _ _ _ => true | _ => false end.

Definition point_of (inv : sp_inv) (out : nat) (i : sp_instr) : Prop :=
  match i, inv with
  | MFetchInc y c false, ALoad c' => c = c' /\ y = out
  | MFetchInc y c true, ACas c' _ _ => c = c' /\ y = out
  | MExchange c t, AStore c' t' => c = c' /\ t = t'
  | (MCasStamp c y e d | MCas c y e _ d), ACas c' e' d' => c = c' /\ y = out /\ e = e' /\ d = d'
  | _, _ => False
  end.

Definition is_alloc (i : sp_instr) : bool := match i with MAlloc _ _ => true | _ => false end.

(** No call takes effect here any more. *)
Definition quiet (l : list sp_instr) : Prop := Forall (fun i => is_point i = false /\ is_alloc i = false) l.

(** What an instruction, and a list of instructions, make of the variables. *)
Definition var_step (i : sp_instr) (vars : nat -> Z) : nat -> Z :=
  match i with
  | MSet y b => <[y := b]> vars
  | MReset y => <[y := 0]> vars
  | MCopy y z => <[y := vars z]> vars
  | MMove y z => <[z := 0]> (<[y := vars z]> vars)
  | _ => vars
  end.
Definition final (vars : nat -> Z) (l : list sp_instr) : nat -> Z := foldl (fun v i => var_step i v) vars l.

Definition touches (i : sp_instr) : bool :=
  match i with MSet _ _ | MReset _ | MCopy _ _ | MMove _ _ | MAlloc _ _ | MFetchInc _ _ _ | MCasStamp _ _ _ _ | MCas _ _ _ _ _ => true | _ => false end.
Definition no_touch (l : list sp_instr) : Prop := Forall (fun i => touches i = false) l.

(** The pointer that the call gives back. *)
Definition gives (r : sp_res) : option Z :=
  match r with RLoaded b | RSwap false b => Some b | _ => None end.

Definition call_ok (l : sp_lo) : Prop :=
  sp_todo l = [MCrash] \/
  match sp_call l with
  | Idle => Forall (fun i => is_point i = false) (sp_todo l)
  | Pending inv => exists pre i suf, sp_todo l = pre ++ i :: suf /\ quiet pre /\ point_of inv (sp_out l) i /\
      quiet suf /\ no_touch suf
  | Committed inv r => quiet (sp_todo l) /\
      forall b, gives r = Some b -> final (sp_vars l) (sp_todo l) (sp_out l) = b
  end.

Lemma final_app vars l l' : final vars (l ++ l') = final (final vars l) l'.
Proof. apply foldl_app. Qed.

Lemma final_no_touch vars l : no_touch l -> final vars l = vars.
Proof. revert vars. induction l as [|i l IH]; intros vars H; [done|]. inv H. simpl. rewrite IH by done. by destruct i. Qed.

Lemma if_block_all (P : sp_instr -> Prop) b l : (b <> 0 -> Forall P l) -> Forall P (if_block b l).
Proof. unfold if_block. intros H. case_decide; auto. Qed.

Lemma final_if_block vars b l : final vars l = vars -> final vars (if_block b l) = vars.
Proof. unfold if_block. by case_decide. Qed.

(** An instruction that is not a point is invisible to the others and does what it
    should to the variables. *)
Lemma exec_quiet x l i rest s l' s' es :
  is_point i = false -> sp_exec x l i rest s = Some (l', s', es) ->
  es = [] /\ sp_call l' = sp_call l /\ sp_out l' = sp_out l /\ (forall c, raw_ptr (sp_cells s' c) = raw_ptr (sp_cells s c)) /\
  (sp_todo l' = [MCrash] \/
   exists new, sp_todo l' = new ++ rest /\ quiet new /\
     (is_alloc i = false -> final (sp_vars l') new = var_step i (sp_vars l))).
Proof.
  intros Hp Hx. unfold sp_exec in Hx. destruct i; try done; simpl in Hx.
  all: repeat case_match; simplify_eq/=; try (split_and!; [done..|by left]).
  all: split_and!; try done; try (intros k; destruct (decide (k = c)) as [->|]; [rewrite fn_lookup_insert|by rewrite fn_lookup_insert_ne]).
  all: try (right; eexists [_; _]; split_and!; [done|repeat constructor|done]).
  all: try (right; eexists [_]; split_and!; [done|repeat constructor|done]).
  all: try (right; exists []; split_and!; [done|repeat constructor|intros _; simpl; congruence]).
  - right. exists (if_block (sp_vars l x0) [MAdd (sp_vars l x0) (-1) 0 true]). split; [done|]. split.
    + apply if_block_all. repeat constructor.
    + intros _. by apply final_if_block.
  - match goal with H : _ /\ _ |- _ => by rewrite (proj1 H) end.
Qed.

Lemma quiet_app l l' : quiet (l ++ l') <-> quiet l /\ quiet l'.
Proof. apply Forall_app. Qed.

Lemma quiet_cleanup b st : quiet (CleanupStampedBlock b st) /\ no_touch (CleanupStampedBlock b st).
Proof. split; apply if_block_all; repeat constructor. Qed.

Lemma final_cleanup vars b st rest : final vars (CleanupStampedBlock b st ++ rest) = final vars rest.
Proof. rewrite final_app. f_equal. apply final_no_touch, quiet_cleanup. Qed.

(** The pointers the [AtomicSharedPtr]s hold. *)
Definition pointers (s : SPS) (c : nat) : Z := raw_ptr (sp_cells s c).

Definition sp_sim (c : config SPS sp_lo) (a : nat -> Z) : Prop :=
  (forall k, pointers (sh c) k = a k) /\ forall t, call_ok (lo c t).

(** What a step of [t] has to do. *)
Definition sp_advances (l : sp_lo) (a : nat -> Z) (l' : sp_lo) (s' : SPS) (es : list sp_event) : Prop :=
  exists a', (forall k, pointers s' k = a' k) /\ call_ok l' /\
    legal pointers_spec a (lin_ops es) a' /\ status_steps (sp_call l) es (sp_call l').

Section exec.
Context (x : sp_act) (l : sp_lo) (i : sp_instr) (rest : list sp_instr) (s : SPS) (a : nat -> Z).
Context (l' : sp_lo) (s' : SPS) (es : list sp_event).
Context (Ha : forall k, pointers s k = a k) (Hok : call_ok l) (Htodo : sp_todo l = i :: rest).
Context (Hx : sp_exec x l i rest s = Some (l', s', es)).

Lemma quiet_advances : is_point i = false -> sp_advances l a l' s' es.
Proof using All.
  intros Hp. destruct (exec_quiet _ _ _ _ _ _ _ _ Hp Hx) as (-> & Hc & Ho & Hcells & Hnew).
  exists a. split; [intros k; unfold pointers; rewrite Hcells; apply Ha|]. split; [|split; [constructor|rewrite Hc; constructor]].
  destruct Hnew as [Hcr|(new & Hl' & Hq & Hf)]; [by left|].
  destruct Hok as [Hcr|Hok']; [rewrite Htodo in Hcr; simplify_eq; by unfold sp_exec in Hx|].
  right. rewrite Hc. rewrite Hl', Ho. rewrite Htodo in Hok'. destruct (sp_call l) as [|inv|inv r].
  - apply Forall_app. split; [|by inv Hok']. eapply Forall_impl; [|exact Hq]. by intros j [? _].
  - destruct Hok' as (pre & j & suf & E & Hpre & Hj & Hs). destruct pre as [|k pre]; simplify_eq/=.
    { destruct j; done. }
    exists (new ++ pre), j, suf. rewrite <- app_assoc. split; [done|]. split; [|done]. apply quiet_app. split; [done|by inv Hpre].
  - destruct Hok' as [Hq' Hg]. inv Hq'. split; [by apply quiet_app|]. intros b Hb. rewrite <- (Hg b Hb).
    rewrite final_app, Hf by naive_solver. done.
Qed.

(** The point of a call: where it is in the list. *)
Lemma point_pending : is_point i = true ->
  exists inv, sp_call l = Pending inv /\ point_of inv (sp_out l) i /\ quiet rest /\ no_touch rest.
Proof using All.
  intros Hp. destruct Hok as [Hcr|Hok']; [rewrite Htodo in Hcr; by simplify_eq|]. rewrite Htodo in Hok'.
  destruct (sp_call l) as [|inv|inv r].
  - inv Hok'. congruence.
  - destruct Hok' as (pre & j & suf & E & Hpre & Hj & Hs1 & Hs2). destruct pre as [|k pre]; simplify_eq/=; [eauto|].
    inv Hpre. naive_solver congruence.
  - destruct Hok' as [Hq _]. inv Hq. naive_solver congruence.
Qed.

Lemma fetch_inc_advances y c assign : i = MFetchInc y c assign -> sp_advances l a l' s' es.
Proof using All.
  intros Hi. destruct point_pending as (inv & Hc & Hpt & Hq & Hn); [by rewrite Hi|]. rewrite Hi in *. unfold sp_exec in Hx. simpl in Hx.
  rewrite Hc in Hx. simplify_eq/=. exists a.
  set (upd := if 10000 <? _ then _ else _). assert (Hupd : quiet upd /\ no_touch upd).
  { unfold upd. destruct (10000 <? _); [|split; constructor]. split; apply if_block_all; repeat constructor. }
  split; [|split; [right; simpl; split|]].
  - intros k. unfold pointers. simpl. destruct (decide (k = c)) as [->|]; [rewrite fn_lookup_insert|rewrite fn_lookup_insert_ne by done]; apply Ha.
  - apply quiet_app. split; [apply Hupd|]. apply quiet_app. split; [destruct assign; repeat constructor|]. by constructor.
  - intros b Hb. rewrite final_app, (final_no_touch _ upd) by apply Hupd.
    destruct assign, inv; simplify_eq/=; try done; rewrite (final_no_touch _ rest) by done; destruct Hpt as [_ ->];
      apply fn_lookup_insert.
  - rewrite Hc. destruct assign, inv; simpl in *; try done; destruct Hpt as [-> _]; unfold pointers in Ha; rewrite Ha;
      (split; [econstructor; [constructor|constructor]|]); econstructor; constructor.
Qed.

Lemma cell_pointers c p k : pointers (set_cell s c p) k = (<[c := raw_ptr p]> a : nat -> Z) k.
Proof using Ha.
  unfold pointers. simpl. destruct (decide (k = c)) as [->|]; [by rewrite !fn_lookup_insert|].
  rewrite !fn_lookup_insert_ne by done. apply Ha.
Qed.

Lemma exchange_advances c t : i = MExchange c t -> sp_advances l a l' s' es.
Proof using All.
  intros Hi. destruct point_pending as (inv & Hc & Hpt & Hq & Hn); [by rewrite Hi|]. rewrite Hi in *. unfold sp_exec in Hx. simpl in Hx.
  rewrite Hc in Hx. simplify_eq/=. exists (<[c := t]> a). split; [apply cell_pointers|]. split; [right; simpl; split; [|done]|].
  - apply quiet_app. split; [apply quiet_cleanup|done].
  - rewrite Hc. destruct inv; try done. destruct Hpt as [-> ->].
    split; [econstructor; [constructor|constructor]|]; econstructor; constructor.
Qed.

Lemma cas_stamp_advances c y e d : i = MCasStamp c y e d -> sp_advances l a l' s' es.
Proof using All.
  intros Hi. destruct point_pending as (inv & Hc & Hpt & Hq & Hn); [by rewrite Hi|]. rewrite Hi in *. unfold sp_exec in Hx. simpl in Hx. simplify_eq/=.
  exists a. split; [done|]. split; [right; simpl|split; [constructor|rewrite Hc; constructor]]. rewrite Hc.
  eexists _, _, rest. split; [done|]. split_and!; try done. apply if_block_all. repeat constructor.
Qed.

Lemma cas_advances c y e st d : i = MCas c y e st d -> sp_advances l a l' s' es.
Proof using All.
  intros Hi. destruct point_pending as (inv & Hc & Hpt & Hq & Hn); [by rewrite Hi|]. rewrite Hi in *. unfold sp_exec in Hx. simpl in Hx.
  destruct inv as [| |c' e' d']; try done. destruct Hpt as (<- & Hy & <- & <-).
  case_decide as E; rewrite Hc in Hx; simplify_eq/=.
  - exists (<[c := d]> a). split; [apply cell_pointers|]. split; [right; simpl; split; [|done]|].
    + apply quiet_app. split; [apply quiet_cleanup|done].
    + rewrite Hc. split; [|econstructor; constructor]. econstructor; [|constructor]. constructor.
      rewrite <- Ha. unfold pointers. by rewrite (proj1 E).
  - exists a. split; [done|]. split; [right; simpl|split; [constructor|rewrite Hc; constructor]]. rewrite ?Hc.
    eexists _, _, rest. split; [done|]. split_and!; try done. apply if_block_all. repeat constructor.
Qed.

Lemma exec_advances : sp_advances l a l' s' es.
Proof using All.
  destruct (is_point i) eqn:Hp; [|by apply quiet_advances].
  assert (H : (exists y c b, i = MFetchInc y c b) \/ (exists c t, i = MExchange c t) \/
    (exists c y e d, i = MCasStamp c y e d) \/ exists c y e st d, i = MCas c y e st d)
    by (clear - Hp; destruct i; naive_solver).
  destruct H as [(? & ? & ? & H)|[(? & ? & H)|[(? & ? & ? & ? & H)|(? & ? & ? & ? & ? & H)]]].
  - by eapply fetch_inc_advances.
  - by eapply exchange_advances.
  - by eapply cas_stamp_advances.
  - by eapply cas_advances.
Qed.
End exec.

Lemma call_advances x l s a l' s' es t :
  (forall k, pointers s k = a k) -> call_ok l -> sp_step t x l s = Some (l', s', es) -> sp_advances l a l' s' es.
Proof.
  intros Ha Hok Hst. unfold sp_step in Hst. destruct (sp_todo l) as [|i rest] eqn:Htodo.
  - destruct x as [o| | |], (sp_call l) as [| |inv r] eqn:Hc; try done.
    + case_match; [|done]. exists a. case_match eqn:Hinv; simplify_eq/=.
      * split; [done|]. rewrite Hc. split; [|split; [constructor|econstructor; constructor]]. right. simpl.
        destruct o as [| | | | | |y c|c y|c y z]; simplify_eq/=.
        -- exists [], (MFetchInc y c false), []. repeat constructor.
        -- eexists _, _, _. split; [done|]. split_and!; try done; apply if_block_all; repeat constructor.
        -- eexists [], _, _. split; [done|]. split_and!; try done; [constructor|..]; apply if_block_all; repeat constructor.
      * split; [done|]. rewrite Hc. split; [|split; constructor]. right. simpl. destruct o; simplify_eq/=; repeat constructor.
    + simplify_eq/=. exists a. rewrite Hc. split; [done|]. split; [right; constructor|]. split; [constructor|].
      destruct Hok as [Hcr|Hok]; [congruence|]. rewrite Hc, Htodo in Hok. destruct Hok as [_ Hg].
      assert (sp_returned l r = r) as ->; [|econstructor; constructor].
      destruct r as [b| |[] b]; simpl; try done; f_equal; by apply Hg.
  - destruct x; try done; by eapply exec_advances.
Qed.

#[export, refine] Instance pointers_lin_points : LinPoints sp_step pointers_spec sp_start (fun _ => True) := {
  lp_status := sp_call;
  lp_sim := fun _ c a => sp_sim c a;
}.
Proof.
  - done.
  - done.
  - split; [done|]. intros t. right. constructor.
  - intros tr c a t x c' es [Ha Hok] (l' & s' & Hst & ->)%cstep_inv _.
    destruct (call_advances x _ _ a l' s' es t Ha (Hok t) Hst) as (a' & Ha' & Hok' & Hl & Hs).
    exists a'. simpl. rewrite fn_lookup_insert. split; [|done]. split; [done|]. intros u. simpl.
    destruct (decide (u = t)) as [->|]; [by rewrite fn_lookup_insert|by rewrite fn_lookup_insert_ne].
Defined.

(** C23: The [AtomicSharedPtr]s are linearizable: every concurrent history of [Load],
    [Store] and [CompareExchangeWeak] is one of registers of pointers, where the
    result of [Load], and what a failed exchange leaves in [expected], is the pointer
    the caller's [SharedPtr] really holds. *)
Theorem atomic_shared_ptr_linearizable tr c :
  steps sp_step sp_start tr c -> linearizable pointers_spec (history tr).
Proof. intros Hs. by apply (lin_points_sound pointers_lin_points _ c). Qed.

(** ** Sums *)

Fixpoint zsum (f : nat -> Z) (n : nat) : Z := match n with O => 0 | S n => zsum f n + f n end.

Lemma zsum_ext f g n : (forall k, (k < n)%nat -> f k = g k) -> zsum f n = zsum g n.
Proof. induction n as [|n IH]; intros H; simpl; [done|]. rewrite IH, H; [done|lia|]. intros k Hk. apply H. lia. Qed.

(** Only the term [k] changes. *)
Lemma zsum_change f g n k :
  (k < n)%nat -> (forall j, j <> k -> f j = g j) -> zsum g n = zsum f n + (g k - f k).
Proof.
  intros Hk H. induction n as [|n IH]; [lia|]. simpl. destruct (decide (k = n)) as [->|Hne].
  - rewrite (zsum_ext f g) by (intros j Hj; apply H; lia). lia.
  - rewrite IH, (H n) by lia. lia.
Qed.

Lemma zsum_le f g n : (forall k, (k < n)%nat -> f k <= g k) -> zsum f n <= zsum g n.
Proof.
  induction n as [|n IH]; intros H; simpl; [done|].
  pose proof (H n ltac:(lia)). enough (zsum f n <= zsum g n) by lia. apply IH. intros k Hk. apply H. lia.
Qed.

Lemma zsum_const z n : zsum (fun _ => z) n = Z.of_nat n * z.
Proof. induction n as [|n IH]; simpl; [done|]. rewrite IH. lia. Qed.

Lemma zsum_bound f n z : (forall k, (k < n)%nat -> - z <= f k <= z) -> - (Z.of_nat n * z) <= zsum f n <= Z.of_nat n * z.
Proof.
  intros H. rewrite <- (zsum_const z n).
  assert (- zsum (fun _ => z) n = zsum (fun _ => - z) n) as -> by (rewrite !zsum_const; lia).
  split; apply zsum_le; intros k Hk; specialize (H k Hk); lia.
Qed.

(** Terms of one sign with sum zero. *)
Lemma zsum_nonneg f n : (forall k, (k < n)%nat -> 0 <= f k) -> 0 <= zsum f n.
Proof. intros H. pose proof (zsum_le (fun _ => 0) f n H) as Hle. rewrite zsum_const in Hle. lia. Qed.

Lemma zsum_zero f n : (forall k, (k < n)%nat -> 0 <= f k) -> zsum f n <= 0 -> forall k, (k < n)%nat -> f k = 0.
Proof.
  induction n as [|n IH]; intros H Hz k Hk; [lia|]. simpl in Hz.
  assert (0 <= zsum f n) by (apply zsum_nonneg; intros j Hj; apply H; lia). pose proof (H n ltac:(lia)).
  destruct (decide (k = n)) as [->|]; [lia|]. apply IH; [|lia|lia]. intros j Hj. apply H. lia.
Qed.

Lemma zsum_all_zero f n : (forall k, (k < n)%nat -> f k = 0) -> zsum f n = 0.
Proof. intros H. rewrite (zsum_ext f (fun _ => 0) n H), zsum_const. lia. Qed.

Lemma zsum_opp f n : zsum (fun k => - f k) n = - zsum f n.
Proof. induction n as [|n IH]; simpl; [done|]. lia. Qed.

(** ** Pending effects

    What the rest of an operation will still add to the counters of block [b]. *)

Definition eqz (p b : Z) : Z := if decide (p = b) then 1 else 0.

Definition effT (b : Z) (i : sp_instr) : Z :=
  match i with
  | MInit p => eqz p b
  | MAdd p dt _ _ | MAddCas p _ dt _ _ => dt * eqz p b
  | MSet _ p => - eqz p b
  | MUpdCas _ p s => - (s * eqz p b)
  | _ => 0
  end.
Definition effS (b : Z) (i : sp_instr) : Z :=
  match i with
  | MAdd p _ ds _ | MAddCas p _ _ ds _ => ds * eqz p b
  | MUpdCas _ p _ => - eqz p b
  | MExchange _ t => - eqz t b
  | MCas _ _ _ _ d => - eqz d b
  | _ => 0
  end.
Fixpoint sumT (l : list sp_instr) (b : Z) : Z := match l with [] => 0 | i :: l => effT b i + sumT l b end.
Fixpoint sumS (l : list sp_instr) (b : Z) : Z := match l with [] => 0 | i :: l => effS b i + sumS l b end.

(** The largest effect an instruction can lead to. *)
Definition weight (i : sp_instr) : Z :=
  match i with
  | MAdd _ dt ds _ | MAddCas _ _ dt ds _ => Z.abs dt + Z.abs ds
  | MInit _ | MSet _ _ | MReset _ => 1
  | MAlloc _ _ | MCopy _ _ => 2
  | MUpdCas _ _ s => Z.abs s + 1
  | MExchange _ _ => 70000
  | MFetchInc _ _ _ => 140000
  | MCas _ _ _ _ _ => 150000
  | MCasStamp _ _ _ _ => 160000
  | _ => 0
  end.
Fixpoint weights (l : list sp_instr) : Z := match l with [] => 0 | i :: l => weight i + weights l end.

(** The block is kept alive by what is left to do. *)
Definition owned (l : list sp_instr) (b : Z) : Prop := sumS l b < 0 \/ sumT l b < 0.

Lemma eqz_bound p b : 0 <= eqz p b <= 1.
Proof. unfold eqz. case_decide; lia. Qed.
Lemma eqz_same b : eqz b b = 1.
Proof. unfold eqz. by case_decide. Qed.
Lemma eqz_ne p b : p <> b -> eqz p b = 0.
Proof. unfold eqz. by case_decide. Qed.

Lemma sumT_app l l' b : sumT (l ++ l') b = sumT l b + sumT l' b.
Proof. induction l as [|i l IH]; simpl; lia. Qed.
Lemma sumS_app l l' b : sumS (l ++ l') b = sumS l b + sumS l' b.
Proof. induction l as [|i l IH]; simpl; lia. Qed.
Lemma weights_app l l' : weights (l ++ l') = weights l + weights l'.
Proof. induction l as [|i l IH]; simpl; lia. Qed.

Lemma eff_weight b i : Z.abs (effT b i) <= weight i /\ Z.abs (effS b i) <= weight i.
Proof.
  assert (H : forall z p, Z.abs (z * eqz p b) <= Z.abs z) by (intros z p; unfold eqz; case_decide; lia).
  destruct i; simpl; rewrite ?Z.abs_opp;
    repeat match goal with |- context [?z * eqz ?p b] => pose proof (H z p); generalize dependent (z * eqz p b); intros end;
    repeat match goal with |- context [eqz ?p b] => pose proof (eqz_bound p b); generalize dependent (eqz p b); intros end; lia.
Qed.

Lemma sum_weights b l : Z.abs (sumT l b) <= weights l /\ Z.abs (sumS l b) <= weights l.
Proof. induction l as [|i l IH]; simpl; [lia|]. pose proof (eff_weight b i). lia. Qed.

(** ** The counting invariant

    [N] threads, [V] variables each, [C] [AtomicSharedPtr]s. *)
Section counting.
Context (N V C : nat).

(** How many variables point to [b]; how many [AtomicSharedPtr]s, and the sum of
    their stamps; the counters of [b]. *)
Definition refs (vars : nat -> Z) (b : Z) : Z := zsum (fun x => eqz (vars x) b) V.
Definition cells_at (s : SPS) (b : Z) : Z := zsum (fun k => eqz (raw_ptr (sp_cells s k)) b) C.
Definition stamps_at (s : SPS) (b : Z) : Z := zsum (fun k => stamp (sp_cells s k) * eqz (raw_ptr (sp_cells s k)) b) C.
Definition counts (s : SPS) (b : Z) : SplitCount := from_option counter (mkCount 0 0) (sp_blocks s !! b).

(** What is left to do releases at least what it takes. *)
Definition balanced (l : list sp_instr) (b : Z) : Prop := sumS l b <= 0 /\ (sumS l b = 0 -> sumT l b <= 0).

Definition instr_ok (i : sp_instr) (l : list sp_instr) : Prop :=
  match i with
  | MAdd p _ _ chk | MAddCas p _ _ _ chk => p <> 0 /\ (chk = false -> owned l p)
  | MUpdCas c p _ => p <> 0 /\ owned l p /\ (c < C)%nat
  | MCasStamp c y _ d | MCas c y _ _ d => (d <> 0 -> owned l d) /\ (c < C)%nat /\ (y < V)%nat
  | MExchange c _ => (c < C)%nat
  | MFetchInc y c _ => (c < C)%nat /\ (y < V)%nat
  | MInit p | MDelete p => p <> 0
  | MSet y _ | MReset y | MAlloc y _ => (y < V)%nat
  | MCopy y z | MMove y z => (y < V)%nat /\ (z < V)%nat
  | MCrash => False
  end.

(** The block whose counters the instruction accesses. *)
Definition accesses (i : sp_instr) : option Z := match i with MAdd p _ _ _ | MAddCas p _ _ _ _ => Some p | _ => None end.

(** The block that belongs to the thread alone. *)
Definition exclusive (l : list sp_instr) (b : Z) : Prop := head l = Some (MInit b) \/ head l = Some (MDelete b).

Definition item_ok (i : sp_instr) (l : list sp_instr) : Prop := instr_ok i l /\ forall b, b <> 0 -> balanced (i :: l) b.

Fixpoint tail_ok (l : list sp_instr) : Prop :=
  match l with
  | [] => True
  | i :: l' => item_ok i l' /\ (forall p, accesses i = Some p -> owned l p) /\ (forall b, ~ exclusive l b) /\ tail_ok l'
  end.

Definition list_ok (vars : nat -> Z) (l : list sp_instr) : Prop :=
  match l with
  | [] => True
  | i :: l' => item_ok i l' /\ (forall p, accesses i = Some p -> owned l p \/ 0 < refs vars p) /\ tail_ok l'
  end.

(** A variable is empty when it is set. *)
Fixpoint empties (vars : nat -> Z) (l : list sp_instr) : Prop :=
  match l with
  | [] => True
  | MReset y :: l => empties (<[y := 0]> vars) l
  | (MSet y _ | MCopy y _ | MMove y _ | MAlloc y _) :: l => vars y = 0 /\ no_touch l
  | MFetchInc y _ a :: l => (a = false -> vars y = 0) /\ no_touch l
  | (MCasStamp _ _ _ _ | MCas _ _ _ _ _) :: l => no_touch l
  | _ :: l => empties vars l
  end.

Definition max_weight : Z := 200000.

Record thread_ok (vars : nat -> Z) (l : list sp_instr) : Prop := {
  th_list : list_ok vars l;
  th_empties : empties vars l;
  th_weight : weights l <= max_weight;
}.

Record sp_ok (c : config SPS sp_lo) : Prop := {
  ok_transient : forall b, b <> 0 ->
    transient (counts (sh c) b) + stamps_at (sh c) b + zsum (fun t => sumT (sp_todo (lo c t)) b - refs (sp_vars (lo c t)) b) N = 0;
  ok_strong : forall b, b <> 0 ->
    strong (counts (sh c) b) - cells_at (sh c) b + zsum (fun t => sumS (sp_todo (lo c t)) b) N = 0;
  ok_thread : forall t, (t < N)%nat -> thread_ok (sp_vars (lo c t)) (sp_todo (lo c t));
  ok_stamps : forall k, 0 <= stamp (sp_cells (sh c) k) < 65536;
  ok_null : sp_blocks (sh c) !! 0 = None;
  ok_excl : forall t b, (t < N)%nat -> exclusive (sp_todo (lo c t)) b ->
    exists v, sp_blocks (sh c) !! b = Some (mkBlock v (mkCount 0 0));
  ok_once : forall t u b, (t < N)%nat -> (u < N)%nat ->
    exclusive (sp_todo (lo c t)) b -> exclusive (sp_todo (lo c u)) b -> t = u;
  ok_leak : forall b v, sp_blocks (sh c) !! b = Some (mkBlock v (mkCount 0 0)) ->
    exists t, (t < N)%nat /\ exclusive (sp_todo (lo c t)) b;
}.

Lemma refs_bound vars b : 0 <= refs vars b <= Z.of_nat V.
Proof.
  split; [apply zsum_nonneg; intros; apply eqz_bound|].
  rewrite <- (Z.mul_1_r (Z.of_nat V)), <- zsum_const. apply zsum_le. intros; apply eqz_bound.
Qed.

Lemma refs_pos vars b x : (x < V)%nat -> vars x = b -> 0 < refs vars b.
Proof.
  intros Hx <-. destruct (decide (refs vars (vars x) <= 0)) as [Hle|]; [|lia].
  pose proof (zsum_zero _ V (fun k _ => proj1 (eqz_bound (vars k) (vars x))) Hle x Hx) as Hz. simpl in Hz.
  by rewrite eqz_same in Hz.
Qed.

Lemma refs_insert vars y p b : (y < V)%nat -> refs (<[y := p]> vars) b = refs vars b + (eqz p b - eqz (vars y) b).
Proof.
  intros Hy. unfold refs. rewrite (zsum_change (fun x => eqz (vars x) b) _ V y Hy).
  - by rewrite fn_lookup_insert.
  - intros j Hj. by rewrite fn_lookup_insert_ne.
Qed.

Lemma cells_at_set s c p b : (c < C)%nat ->
  cells_at (set_cell s c p) b = cells_at s b + (eqz (raw_ptr p) b - eqz (raw_ptr (sp_cells s c)) b).
Proof.
  intros Hc. unfold cells_at. rewrite (zsum_change (fun k => eqz (raw_ptr (sp_cells s k)) b) _ C c Hc); simpl.
  - by rewrite fn_lookup_insert.
  - intros j Hj. by rewrite fn_lookup_insert_ne.
Qed.

Lemma stamps_at_set s c p b : (c < C)%nat ->
  stamps_at (set_cell s c p) b = stamps_at s b + (stamp p * eqz (raw_ptr p) b - stamp (sp_cells s c) * eqz (raw_ptr (sp_cells s c)) b).
Proof.
  intros Hc. unfold stamps_at.
  rewrite (zsum_change (fun k => stamp (sp_cells s k) * eqz (raw_ptr (sp_cells s k)) b) _ C c Hc); simpl.
  - by rewrite fn_lookup_insert.
  - intros j Hj. by rewrite fn_lookup_insert_ne.
Qed.

Lemma stamps_at_zero s b : cells_at s b <= 0 -> stamps_at s b = 0.
Proof.
  intros Hc. apply zsum_all_zero. intros k Hk.
  rewrite (zsum_zero (fun k => eqz (raw_ptr (sp_cells s k)) b) C); [lia|intros; apply eqz_bound|done|done].
Qed.

Lemma list_balanced vars l b : list_ok vars l -> b <> 0 -> balanced l b.
Proof. destruct l; intros H Hb; [by split; simpl|]. by apply H. Qed.

Lemma tail_list vars l : tail_ok l -> list_ok vars l.
Proof. destruct l as [|i l]; [done|]. intros (Hi & Ha & _ & Ht). split; [done|]. split; [auto|done]. Qed.

Lemma tail_balanced l b : tail_ok l -> b <> 0 -> balanced l b.
Proof. intros H. by apply (list_balanced (fun _ => 0)), tail_list. Qed.

Lemma empties_no_touch vars l : no_touch l -> empties vars l.
Proof. induction l as [|i l IH]; intros H; [done|]. inv H. destruct i; simpl in *; try done; auto. Qed.

(** *** Consequences *)

(** Nobody uses a block whose counters are both zero. *)
Lemma counts_zero_at c b : b <> 0 ->
  transient (counts (sh c) b) + stamps_at (sh c) b + zsum (fun t => sumT (sp_todo (lo c t)) b - refs (sp_vars (lo c t)) b) N = 0 ->
  strong (counts (sh c) b) - cells_at (sh c) b + zsum (fun t => sumS (sp_todo (lo c t)) b) N = 0 ->
  (forall t, (t < N)%nat -> list_ok (sp_vars (lo c t)) (sp_todo (lo c t))) -> counts (sh c) b = mkCount 0 0 ->
  forall t, (t < N)%nat -> ~ owned (sp_todo (lo c t)) b /\ refs (sp_vars (lo c t)) b = 0.
Proof.
  intros Hb HT HS Hl Hz. rewrite Hz in HT, HS. simpl in HT, HS.
  assert (Hbal : forall t, (t < N)%nat -> balanced (sp_todo (lo c t)) b) by (intros t Ht; by eapply list_balanced, Hb; apply Hl).
  assert (Hc : forall k, (k < C)%nat -> 0 <= eqz (raw_ptr (sp_cells (sh c) k)) b) by (intros; apply eqz_bound).
  assert (HS0 : forall t, (t < N)%nat -> 0 <= - sumS (sp_todo (lo c t)) b) by (intros t Ht; pose proof (proj1 (Hbal t Ht)); lia).
  pose proof (zsum_nonneg _ _ Hc). pose proof (zsum_nonneg _ _ HS0) as HS0'. rewrite zsum_opp in HS0'. unfold cells_at in HS.
  assert (HSt : forall t, (t < N)%nat -> - sumS (sp_todo (lo c t)) b = 0) by (apply (zsum_zero _ _ HS0); rewrite zsum_opp; lia).
  assert (Hst : stamps_at (sh c) b = 0) by (apply stamps_at_zero; unfold cells_at; lia).
  assert (HT0 : forall t, (t < N)%nat -> 0 <= - (sumT (sp_todo (lo c t)) b - refs (sp_vars (lo c t)) b)).
  { intros t Ht. pose proof (refs_bound (sp_vars (lo c t)) b). pose proof (HSt t Ht). pose proof (proj2 (Hbal t Ht)). lia. }
  intros t Ht. pose proof (zsum_zero _ _ HT0 ltac:(rewrite zsum_opp; lia) t Ht) as HTt. simpl in HTt.
  pose proof (refs_bound (sp_vars (lo c t)) b). pose proof (HSt t Ht). pose proof (proj2 (Hbal t Ht)). unfold owned. lia.
Qed.

Section consequences.
Context (c : config SPS sp_lo) (Hok : sp_ok c).

Lemma counts_zero b : b <> 0 -> counts (sh c) b = mkCount 0 0 ->
  forall t, (t < N)%nat -> ~ owned (sp_todo (lo c t)) b /\ refs (sp_vars (lo c t)) b = 0.
Proof using Hok.
  intros Hb. apply counts_zero_at; [done|by apply Hok|by apply Hok|]. intros t Ht. by apply Hok.
Qed.

Lemma allocated t b : (t < N)%nat -> b <> 0 -> owned (sp_todo (lo c t)) b \/ 0 < refs (sp_vars (lo c t)) b ->
  exists v n, sp_blocks (sh c) !! b = Some (mkBlock v n) /\ n <> mkCount 0 0.
Proof using Hok.
  intros Ht Hb Hu.
  assert (Hn : counts (sh c) b <> mkCount 0 0) by (intros Hz; destruct (counts_zero b Hb Hz t Ht); intuition lia).
  unfold counts in Hn. destruct (sp_blocks (sh c) !! b) as [[v n]|]; [by eauto|done].
Qed.
End consequences.

(** *** One step of thread [t] *)
Section one_step.
Context (c : config SPS sp_lo) (Hok : sp_ok c) (t : tid) (Ht : (t < N)%nat) (l' : sp_lo) (s' : SPS).

Lemma lo_insert_sum (f : sp_lo -> Z) : zsum (fun u => f (<[t := l']> (lo c) u)) N = zsum (fun u => f (lo c u)) N + (f l' - f (lo c t)).
Proof using Ht.
  rewrite (zsum_change (fun u => f (lo c u)) _ N t Ht); [by rewrite fn_lookup_insert|].
  intros j Hj. by rewrite fn_lookup_insert_ne.
Qed.

Definition balances : Prop := forall b, b <> 0 ->
  transient (counts s' b) - transient (counts (sh c) b) + (stamps_at s' b - stamps_at (sh c) b) +
    ((sumT (sp_todo l') b - refs (sp_vars l') b) - (sumT (sp_todo (lo c t)) b - refs (sp_vars (lo c t)) b)) = 0 /\
  strong (counts s' b) - strong (counts (sh c) b) - (cells_at s' b - cells_at (sh c) b) +
    (sumS (sp_todo l') b - sumS (sp_todo (lo c t)) b) = 0.

Lemma sp_ok_step :
  balances -> thread_ok (sp_vars l') (sp_todo l') -> (forall k, 0 <= stamp (sp_cells s' k) < 65536) -> sp_blocks s' !! 0 = None ->
  (forall b, exclusive (sp_todo l') b -> exists v, sp_blocks s' !! b = Some (mkBlock v (mkCount 0 0))) ->
  (forall u b, u <> t -> (u < N)%nat -> exclusive (sp_todo (lo c u)) b -> sp_blocks s' !! b = sp_blocks (sh c) !! b /\ ~ exclusive (sp_todo l') b) ->
  (forall b v, sp_blocks s' !! b = Some (mkBlock v (mkCount 0 0)) -> ~ owned (sp_todo l') b ->
     exclusive (sp_todo l') b \/ sp_blocks (sh c) !! b = Some (mkBlock v (mkCount 0 0)) /\ ~ exclusive (sp_todo (lo c t)) b) ->
  sp_ok (Cfg s' (<[t := l']> (lo c))).
Proof using Hok Ht.
  intros Hbal Hth Hst H0 E1 E2 E3. destruct Hok as [HT HS Hthr Hsts Hnull Hex Honce Hleak].
  assert (HT' : forall b, b <> 0 ->
    transient (counts s' b) + stamps_at s' b + zsum (fun u => sumT (sp_todo (<[t := l']> (lo c) u)) b - refs (sp_vars (<[t := l']> (lo c) u)) b) N = 0).
  { intros b Hb. rewrite (lo_insert_sum (fun lo => sumT (sp_todo lo) b - refs (sp_vars lo) b)).
    specialize (HT b Hb). destruct (Hbal b Hb). lia. }
  assert (HS' : forall b, b <> 0 -> strong (counts s' b) - cells_at s' b + zsum (fun u => sumS (sp_todo (<[t := l']> (lo c) u)) b) N = 0).
  { intros b Hb. rewrite (lo_insert_sum (fun lo => sumS (sp_todo lo) b)). specialize (HS b Hb). destruct (Hbal b Hb). lia. }
  assert (Hthr' : forall u, (u < N)%nat -> thread_ok (sp_vars (<[t := l']> (lo c) u)) (sp_todo (<[t := l']> (lo c) u))).
  { intros u Hu. destruct (decide (u = t)) as [->|Hne]; [by rewrite fn_lookup_insert|]. rewrite fn_lookup_insert_ne by done. auto. }
  split; simpl; try done.
  - intros u b Hu. destruct (decide (u = t)) as [->|Hne]; [rewrite fn_lookup_insert; auto|]. rewrite fn_lookup_insert_ne by done.
    intros He. rewrite (proj1 (E2 u b Hne Hu He)). eauto.
  - intros u w b Hu Hw. destruct (decide (u = t)) as [->|Hne], (decide (w = t)) as [->|Hne'];
      rewrite ?fn_lookup_insert, ?fn_lookup_insert_ne by done; [done|..]; intros He He'.
    + by destruct (proj2 (E2 w b Hne' Hw He')).
    + by destruct (proj2 (E2 u b Hne Hu He)).
    + eauto.
  - intros b v Hb. assert (Hb0 : b <> 0) by congruence.
    destruct (counts_zero_at (Cfg s' (<[t := l']> (lo c))) b Hb0 (HT' b Hb0) (HS' b Hb0)) with (t := t) as [Ho _];
      [intros u Hu; by apply Hthr'|unfold counts; simpl; by rewrite Hb|done|]. simpl in Ho. rewrite fn_lookup_insert in Ho.
    destruct (E3 b v Hb Ho) as [He|[Hb' Hn]]; [exists t; by rewrite fn_lookup_insert|].
    destruct (Hleak b v Hb') as (u & Hu & He). exists u. split; [done|].
    rewrite fn_lookup_insert_ne; [done|]. intros ->. done.
Qed.

(** The blocks stay as they are. *)
Lemma sp_ok_same :
  balances -> thread_ok (sp_vars l') (sp_todo l') -> (forall k, 0 <= stamp (sp_cells s' k) < 65536) ->
  sp_blocks s' = sp_blocks (sh c) -> (forall b, ~ exclusive (sp_todo (lo c t)) b) -> (forall b, ~ exclusive (sp_todo l') b) ->
  sp_ok (Cfg s' (<[t := l']> (lo c))).
Proof using Hok Ht.
  intros Hbal Hth Hst Hb Hn Hn'. apply sp_ok_step; try done.
  - rewrite Hb. apply ok_null, Hok.
  - intros b He. by destruct (Hn' b).
  - intros u b _ _ _. split; [by rewrite Hb|done].
  - intros b v Hv _. right. rewrite <- Hb. split; [done|apply Hn].
Qed.
End one_step.

(** *** The counters fit 32 bits *)
Context (Hsmall : Z.of_nat C * 65536 + Z.of_nat N * (max_weight + Z.of_nat V) < 2 ^ 31).

Lemma sums_bound (s : SPS) (los : tid -> sp_lo) b :
  (forall t, (t < N)%nat -> weights (sp_todo (los t)) <= max_weight) -> (forall k, 0 <= stamp (sp_cells s k) < 65536) ->
  - 2 ^ 31 < stamps_at s b + zsum (fun t => sumT (sp_todo (los t)) b - refs (sp_vars (los t)) b) N < 2 ^ 31 /\
  - 2 ^ 31 < - cells_at s b + zsum (fun t => sumS (sp_todo (los t)) b) N < 2 ^ 31.
Proof using Hsmall.
  intros Hw Hst.
  assert (- (Z.of_nat C * 65536) <= stamps_at s b <= Z.of_nat C * 65536).
  { apply zsum_bound. intros k Hk. pose proof (Hst k). unfold eqz. case_decide; lia. }
  assert (- (Z.of_nat C * 1) <= cells_at s b <= Z.of_nat C * 1).
  { apply zsum_bound. intros k Hk. pose proof (eqz_bound (raw_ptr (sp_cells s k)) b). lia. }
  pose proof (zsum_bound (fun t => sumT (sp_todo (los t)) b - refs (sp_vars (los t)) b) N (max_weight + Z.of_nat V)) as H1.
  pose proof (zsum_bound (fun t => sumS (sp_todo (los t)) b) N (max_weight + Z.of_nat V)) as H2. simpl in H1, H2.
  assert (Hb : forall t, (t < N)%nat -> - max_weight <= sumT (sp_todo (los t)) b <= max_weight /\ - max_weight <= sumS (sp_todo (los t)) b <= max_weight).
  { intros t Ht. pose proof (sum_weights b (sp_todo (los t))). pose proof (Hw t Ht). lia. }
  specialize (H1 ltac:(intros t Ht; pose proof (Hb t Ht); pose proof (refs_bound (sp_vars (los t)) b); lia)).
  specialize (H2 ltac:(intros t Ht; pose proof (Hb t Ht); lia)). lia.
Qed.

(** *** Well-formed lists *)

Lemma tail_not_exclusive l b : tail_ok l -> ~ exclusive l b.
Proof. destruct l as [|i l]; [intros _ [?|?]; done|]. intros (_ & _ & H & _). apply H. Qed.

Ltac eqz_lia := unfold owned, balanced; simpl; unfold eqz; repeat case_decide; simplify_eq; lia.

(** Use that the rest is balanced, at [b]. *)
Ltac bal_lia H := let b := fresh "b" in let Hb := fresh "Hb" in
  intros b Hb; pose proof (tail_balanced _ b H Hb) as [? ?]; eqz_lia.

Ltac not_excl :=
  unfold not; intros; match goal with H : exclusive _ _ |- _ => destruct H as [H|H]; discriminate H end.

Lemma tail_set y p l : (y < V)%nat -> tail_ok l -> tail_ok (MSet y p :: l).
Proof. intros Hy Hl. split; [split; [done|bal_lia Hl]|]. split; [done|]. split; [not_excl|done]. Qed.

Lemma tail_reset y l : (y < V)%nat -> tail_ok l -> tail_ok (MReset y :: l).
Proof. intros Hy Hl. split; [split; [done|bal_lia Hl]|]. split; [done|]. split; [not_excl|done]. Qed.

(** An addition that gives up a reference to [p], or a count of an [AtomicSharedPtr]. *)
Lemma tail_release p dt ds chk l :
  p <> 0 -> ds = -1 \/ ds = 0 /\ dt = -1 -> (chk = false -> owned l p) -> tail_ok l -> tail_ok (MAdd p dt ds chk :: l).
Proof.
  intros Hp Hd Hc Hl. split; [split; [done|bal_lia Hl]|]. split; [|split; [not_excl|done]].
  intros q [= <-]. pose proof (tail_balanced _ p Hl Hp) as [? ?]. unfold owned. simpl. rewrite eqz_same. lia.
Qed.

Lemma tail_cleanup p st l : tail_ok l -> tail_ok (CleanupStampedBlock p st ++ l).
Proof. intros Hl. unfold CleanupStampedBlock, if_block. case_decide; [done|]. apply tail_release; auto; done. Qed.

Lemma tail_param p : tail_ok (DestroyParam p).
Proof. unfold DestroyParam, if_block. case_decide; [done|]. apply tail_release; simpl; auto; done. Qed.

Lemma owned_param p : p <> 0 -> owned (DestroyParam p) p.
Proof. intros Hp. unfold DestroyParam, if_block. case_decide; [done|]. unfold owned. simpl. rewrite eqz_same. lia. Qed.

Lemma sum_cleanup p st b : b <> 0 ->
  sumT (CleanupStampedBlock p st) b = st * eqz p b /\ sumS (CleanupStampedBlock p st) b = - eqz p b.
Proof. intros Hb. unfold CleanupStampedBlock, if_block. case_decide; simpl; unfold eqz; repeat case_decide; simplify_eq; lia. Qed.

Lemma sum_param p b : b <> 0 -> sumT (DestroyParam p) b = - eqz p b /\ sumS (DestroyParam p) b = 0.
Proof. intros Hb. unfold DestroyParam, if_block. case_decide; simpl; unfold eqz; repeat case_decide; simplify_eq; lia. Qed.

Lemma weights_cleanup p st : 0 <= st < 65536 -> weights (CleanupStampedBlock p st) <= 65536.
Proof. intros H. unfold CleanupStampedBlock, if_block. case_decide; simpl; lia. Qed.

Lemma weights_param p : weights (DestroyParam p) <= 1.
Proof. unfold DestroyParam, if_block. case_decide; simpl; lia. Qed.

Lemma no_touch_param p : no_touch (DestroyParam p).
Proof. apply if_block_all. repeat constructor. Qed.

(** *** The instructions *)
Section instruction.
Context (c : config SPS sp_lo) (Hok : sp_ok c) (t : tid) (Ht : (t < N)%nat).
Context (i : sp_instr) (rest : list sp_instr) (Htodo : sp_todo (lo c t) = i :: rest).

Abbreviation s := (sh c).
Abbreviation vars := (sp_vars (lo c t)).

Lemma at_thread : thread_ok vars (i :: rest).
Proof using Hok Ht Htodo. rewrite <- Htodo. by apply Hok. Qed.

Lemma at_item : item_ok i rest.
Proof using Hok Ht Htodo. apply at_thread. Qed.

Lemma at_rest : tail_ok rest.
Proof using Hok Ht Htodo. apply at_thread. Qed.

Lemma at_access p : accesses i = Some p -> p <> 0 -> exists v n, sp_blocks s !! p = Some (mkBlock v n) /\ n <> mkCount 0 0.
Proof using Hok Ht Htodo.
  intros Ha Hp. apply (allocated c Hok t p Ht Hp). rewrite Htodo. by apply at_thread.
Qed.

(** A step that leaves the blocks alone. *)
Lemma instr_same vars' todo s' call out :
  balances c t (mkSpLo vars' call out todo) s' -> list_ok vars' todo -> empties vars' todo -> weights todo <= weight i + weights rest ->
  (forall k, 0 <= stamp (sp_cells s' k) < 65536) -> sp_blocks s' = sp_blocks s ->
  (forall b, ~ exclusive (i :: rest) b) -> (forall b, ~ exclusive todo b) ->
  sp_ok (Cfg s' (<[t := mkSpLo vars' call out todo]> (lo c))).
Proof using Hok Ht Htodo.
  intros Hb Hl He Hw Hst Hbl Hx Hx'. apply sp_ok_same; simpl; try done; [|by rewrite Htodo].
  split; [done..|]. pose proof (th_weight _ _ at_thread) as Hw'. simpl in Hw'. lia.
Qed.

(** The exchange of the counters. *)
Lemma add_ok b old dt ds chk v n call out :
  i = MAddCas b old dt ds chk -> sp_blocks s !! b = Some (mkBlock v n) -> n <> mkCount 0 0 ->
  let new := mkCount (transient n + dt) (strong n + ds) in
  fits32 (transient new) && fits32 (strong new) = true /\
  sp_ok (Cfg (mkSPS (sp_cells s) (<[b := mkBlock v new]> (sp_blocks s)))
    (<[t := mkSpLo vars call out (if chk && bool_decide (new = mkCount 0 0) then MDelete b :: rest else rest)]> (lo c))).
Proof using Hok Ht Htodo Hsmall.
  intros Hi Hb Hn new. set (s' := mkSPS _ _). set (todo := if chk && _ then _ else _).
  destruct at_item as [Hinstr _]. rewrite Hi in Hinstr. destruct Hinstr as [Hb0 Hchk].
  assert (Hsum : forall b', sumT todo b' = sumT rest b' /\ sumS todo b' = sumS rest b') by (intros b'; unfold todo; by destruct (chk && _)).
  assert (Hcnt : forall b', counts s' b' = if decide (b' = b) then new else counts s b').
  { intros b'. unfold counts. simpl. case_decide as Hbb; [subst b'; by rewrite lookup_insert_eq|by rewrite lookup_insert_ne]. }
  assert (Hbal : balances c t (mkSpLo vars call out todo) s').
  { intros b' Hb'. simpl. rewrite (proj1 (Hsum b')), (proj2 (Hsum b')), Htodo, Hi, Hcnt. simpl.
    change (stamps_at s' b') with (stamps_at s b'). change (cells_at s' b') with (cells_at s b').
    case_decide as Hbb; [subst b'|].
    - unfold counts. rewrite Hb. simpl. rewrite eqz_same. lia.
    - rewrite eqz_ne by done. lia. }
  assert (Hth : thread_ok vars todo).
  { pose proof at_thread as [_ He Hw]. rewrite Hi in He, Hw. simpl in He, Hw. unfold todo. destruct (chk && _).
    - split; [|done|simpl; lia]. split; [split; [done|bal_lia at_rest]|]. split; [done|apply at_rest].
    - split; [apply tail_list, at_rest|done|lia]. }
  split.
  - destruct (sums_bound s (<[t := mkSpLo vars call out todo]> (lo c)) b) as [B1 B2].
    + intros u Hu. destruct (decide (u = t)) as [->|Hne]; [rewrite fn_lookup_insert; apply Hth|].
      rewrite fn_lookup_insert_ne by done. by apply Hok.
    + apply Hok.
    + rewrite (lo_insert_sum c t Ht _ (fun l => sumT (sp_todo l) b - refs (sp_vars l) b)) in B1.
      rewrite (lo_insert_sum c t Ht _ (fun l => sumS (sp_todo l) b)) in B2.
      pose proof (ok_transient _ Hok b Hb0). pose proof (ok_strong _ Hok b Hb0). destruct (Hbal b Hb0) as [H1 H2].
      rewrite Hcnt in H1, H2. rewrite decide_True in H1, H2 by done. simpl in *.
      change (stamps_at s' b) with (stamps_at s b) in H1. change (cells_at s' b) with (cells_at s b) in H2.
      unfold fits32. rewrite !andb_true_iff, !Z.leb_le, !Z.ltb_lt. lia.
  - apply sp_ok_step; simpl; try done; [apply Hok|..].
    + rewrite lookup_insert_ne by done. apply Hok.
    + intros b' He. unfold todo in He. destruct (chk && _) eqn:Ez; [|by destruct (tail_not_exclusive _ _ at_rest He)].
      apply andb_true_iff in Ez as [_ Ez%bool_decide_eq_true]. destruct He as [He|He]; simplify_eq/=.
      exists v. rewrite lookup_insert_eq. congruence.
    + intros u b' Hne Hu He. destruct (ok_excl _ Hok u b' Hu He) as [v' Hv']. assert (Hbb : b' <> b) by congruence.
      rewrite lookup_insert_ne by done. split; [done|]. unfold todo. intros He'. destruct (chk && _).
      * destruct He' as [He'|He']; simplify_eq/=.
      * by destruct (tail_not_exclusive _ _ at_rest He').
    + intros b' v' Hv' Ho. destruct (decide (b' = b)) as [->|Hbb].
      * rewrite lookup_insert_eq in Hv'. simplify_eq. left. unfold todo. destruct chk.
        -- rewrite bool_decide_eq_true_2 by (unfold new; congruence). by right.
        -- exfalso. apply Ho. destruct (Hsum b) as [E1 E2]. unfold owned. rewrite E1, E2. by apply Hchk.
      * rewrite lookup_insert_ne in Hv' by done. right. split; [done|]. rewrite Htodo, Hi. not_excl.
Qed.

Lemma balances_same vars' todo call out :
  (forall b, b <> 0 -> sumT todo b - refs vars' b = sumT (i :: rest) b - refs vars b /\ sumS todo b = sumS (i :: rest) b) ->
  balances c t (mkSpLo vars' call out todo) s.
Proof using Ht Htodo. intros H b Hb. simpl. rewrite Htodo. destruct (H b Hb). lia. Qed.
End instruction.

Section all_instructions.
Context (c : config SPS sp_lo) (Hok : sp_ok c) (t : tid) (Ht : (t < N)%nat).
Abbreviation s := (sh c).
Abbreviation vars := (sp_vars (lo c t)).

(** A step on the thread's own variables. *)
Lemma local_ok i rest vars' todo call out : sp_todo (lo c t) = i :: rest ->
  (forall b, b <> 0 -> sumT todo b - refs vars' b = sumT (i :: rest) b - refs vars b /\ sumS todo b = sumS (i :: rest) b) ->
  list_ok vars' todo -> empties vars' todo -> weights todo <= weight i + weights rest ->
  (forall b, ~ exclusive (i :: rest) b) -> (forall b, ~ exclusive todo b) ->
  sp_ok (Cfg s (<[t := mkSpLo vars' call out todo]> (lo c))).
Proof using Hok Ht.
  intros Htodo Hb Hl He Hw Hx Hx'. apply (instr_same c Hok t Ht i rest Htodo); try done; [|apply Hok].
  by apply (balances_same c t Ht i rest).
Qed.

Lemma fetch_add_ok i rest x todo s' call out : sp_todo (lo c t) = i :: rest ->
  FetchAdd x i rest s = Some (todo, s') -> sp_ok (Cfg s' (<[t := mkSpLo vars call out todo]> (lo c))).
Proof using Hok Ht Hsmall.
  intros Htodo Hx. pose proof (at_thread c Hok t Ht i rest Htodo) as [(Hitem & Hacc & Hrest) He Hw].
  pose proof (at_access c Hok t Ht i rest Htodo) as Hal.
  destruct i as [| |b dt ds chk|b old dt ds chk| | | | | | | | | | |]; try done;
    (destruct (Hal b) as (v & n & Hb & Hn); [done|apply Hitem|]); simpl in Hx; rewrite Hb in Hx; simpl in Hx.
  - simplify_eq. apply (local_ok _ rest _ _ _ _ Htodo); try done; not_excl.
  - case_decide as E.
    + destruct E as [-> _]. destruct (add_ok c Hok t Ht _ rest Htodo b old dt ds chk v old call out) as [Hf Hs]; try done.
      simpl in Hf. rewrite Hf in Hx. by simplify_eq.
    + simplify_eq. apply (local_ok _ rest _ _ _ _ Htodo); try done; not_excl.
Qed.

(** [sumT] and [refs] after an instruction on variables. *)
Ltac count_vars := intros b' Hb'; simpl; rewrite ?refs_insert by done; simpl;
  repeat match goal with H : _ = 0 |- _ => rewrite ?H; clear H end; unfold eqz; repeat case_decide; simplify_eq; lia.

Lemma set_ok y b rest call out : sp_todo (lo c t) = MSet y b :: rest ->
  sp_ok (Cfg s (<[t := mkSpLo (<[y := b]> vars) call out rest]> (lo c))).
Proof using Hok Ht.
  intros Htodo. pose proof (at_thread c Hok t Ht _ rest Htodo) as [((Hy & _) & _ & Hrest) [He Hn] Hw]. simpl in Hy.
  apply (local_ok _ rest _ _ _ _ Htodo).
  - count_vars.
  - by apply tail_list.
  - by apply empties_no_touch.
  - simpl. lia.
  - not_excl.
  - intros b'. by apply tail_not_exclusive.
Qed.

Lemma reset_ok y rest call out : sp_todo (lo c t) = MReset y :: rest ->
  sp_ok (Cfg s (<[t := mkSpLo (<[y := 0]> vars) call out (if_block (vars y) [MAdd (vars y) (-1) 0 true] ++ rest)]> (lo c))).
Proof using Hok Ht.
  intros Htodo. pose proof (at_thread c Hok t Ht _ rest Htodo) as [((Hy & _) & _ & Hrest) He Hw]. simpl in Hy, He.
  assert (Htail : tail_ok (if_block (vars y) [MAdd (vars y) (-1) 0 true] ++ rest)).
  { unfold if_block. case_decide; [done|]. apply tail_release; auto; done. }
  apply (local_ok _ rest _ _ _ _ Htodo).
  - unfold if_block. case_decide; count_vars.
  - by apply tail_list.
  - unfold if_block. by case_decide.
  - unfold if_block. case_decide; simpl; lia.
  - not_excl.
  - intros b'. by apply tail_not_exclusive.
Qed.

Lemma copy_ok y z rest vars' todo call out : sp_todo (lo c t) = MCopy y z :: rest ->
  (vars', todo) = (if decide (vars z = 0) then (<[y := 0]> vars, rest) else (vars, MAdd (vars z) 1 0 false :: MSet y (vars z) :: rest)) ->
  sp_ok (Cfg s (<[t := mkSpLo vars' call out todo]> (lo c))).
Proof using Hok Ht.
  intros Htodo Heq. pose proof (at_thread c Hok t Ht _ rest Htodo) as [(([Hy Hz] & _) & _ & Hrest) [He Hn] Hw].
  case_decide as Hv; simplify_eq; apply (local_ok _ rest _ _ _ _ Htodo).
  - count_vars.
  - by apply tail_list.
  - by apply empties_no_touch.
  - simpl. lia.
  - not_excl.
  - intros b'. by apply tail_not_exclusive.
  - intros b' Hb'. eqz_lia.
  - split; [split; [|bal_lia Hrest]|].
    + split; [done|]. intros _. pose proof (tail_balanced _ _ Hrest Hv) as [? ?]. unfold owned. simpl. rewrite eqz_same. lia.
    + split; [|by apply tail_set]. intros p [= <-]. right. by apply (refs_pos _ _ z).
  - done.
  - simpl. lia.
  - not_excl.
  - not_excl.
Qed.

Lemma move_ok y z rest call out : sp_todo (lo c t) = MMove y z :: rest ->
  sp_ok (Cfg s (<[t := mkSpLo (<[z := 0]> (<[y := vars z]> vars)) call out rest]> (lo c))).
Proof using Hok Ht.
  intros Htodo. pose proof (at_thread c Hok t Ht _ rest Htodo) as [(([Hy Hz] & _) & _ & Hrest) [He Hn] Hw].
  assert (Hvz : (<[y := vars z]> vars : nat -> Z) z = vars z).
  { destruct (decide (y = z)) as [->|]; [by rewrite fn_lookup_insert|by rewrite fn_lookup_insert_ne]. }
  apply (local_ok _ rest _ _ _ _ Htodo).
  - intros b Hb. simpl. rewrite !refs_insert, Hvz, He by done. unfold eqz. repeat case_decide; simplify_eq; lia.
  - by apply tail_list.
  - by apply empties_no_touch.
  - simpl. lia.
  - not_excl.
  - intros b'. by apply tail_not_exclusive.
Qed.

(** [counts] after an update of one block. *)
Lemma counts_insert cells b v n b' :
  counts (mkSPS cells (<[b := mkBlock v n]> (sp_blocks s))) b' = if decide (b' = b) then n else counts s b'.
Proof. unfold counts. simpl. case_decide as E; [subst; by rewrite lookup_insert_eq|by rewrite lookup_insert_ne]. Qed.

Lemma alloc_ok y v b rest call out : sp_todo (lo c t) = MAlloc y v :: rest -> sp_blocks s !! b = None -> b <> 0 ->
  sp_ok (Cfg (mkSPS (sp_cells s) (<[b := mkBlock v (mkCount 0 0)]> (sp_blocks s)))
    (<[t := mkSpLo vars call out (MInit b :: MSet y b :: rest)]> (lo c))).
Proof using Hok Ht.
  intros Htodo Hb Hb0. pose proof (at_thread c Hok t Ht _ rest Htodo) as [((Hy & _) & _ & Hrest) [He Hn] Hw]. simpl in Hy, Hw.
  apply sp_ok_step; simpl; try done; [|split| |rewrite lookup_insert_ne by done; apply Hok|..].
  - intros b' Hb'. rewrite counts_insert, Htodo. simpl. unfold stamps_at, cells_at. simpl.
    assert (counts s b = mkCount 0 0) as E by (unfold counts; by rewrite Hb). case_decide; subst; rewrite ?E; simpl; lia.
  - split; [split; [done|bal_lia Hrest]|]. split; [done|]. by apply tail_set.
  - done.
  - simpl. lia.
  - apply Hok.
  - intros b' [Hx|Hx]; simplify_eq/=. exists v. by rewrite lookup_insert_eq.
  - intros u b' Hne Hu Hx. destruct (ok_excl _ Hok u b' Hu Hx) as [v' Hv']. assert (b' <> b) by congruence.
    rewrite lookup_insert_ne by done. split; [done|]. intros [Hx'|Hx']; simplify_eq/=.
  - intros b' v' Hv' _. destruct (decide (b' = b)) as [->|Hne]; [left; by left|].
    rewrite lookup_insert_ne in Hv' by done. right. split; [done|]. rewrite Htodo. not_excl.
Qed.

(** The block that the thread alone knows. *)
Lemma exclusive_block i rest b : sp_todo (lo c t) = i :: rest -> i = MInit b \/ i = MDelete b ->
  b <> 0 /\ (exists v, sp_blocks s !! b = Some (mkBlock v (mkCount 0 0))) /\
  forall u b', u <> t -> (u < N)%nat -> exclusive (sp_todo (lo c u)) b' -> b' <> b.
Proof using Hok Ht.
  intros Htodo Hi. assert (Hx : exclusive (sp_todo (lo c t)) b) by (rewrite Htodo; destruct Hi as [->| ->]; [by left|by right]).
  split; [|split; [by apply (ok_excl _ Hok t)|]].
  - destruct (at_item c Hok t Ht i rest Htodo) as [Hitem _]. by destruct Hi as [-> | ->].
  - intros u b' Hne Hu Hx' ->. by apply Hne, (ok_once _ Hok u t b).
Qed.

Lemma init_ok b v n rest call out : sp_todo (lo c t) = MInit b :: rest -> sp_blocks s !! b = Some (mkBlock v n) ->
  sp_ok (Cfg (mkSPS (sp_cells s) (<[b := mkBlock v (mkCount (transient n + 1) (strong n))]> (sp_blocks s)))
    (<[t := mkSpLo vars call out rest]> (lo c))).
Proof using Hok Ht.
  intros Htodo Hb. pose proof (at_thread c Hok t Ht _ rest Htodo) as [(_ & _ & Hrest) He Hw]. simpl in He, Hw.
  destruct (exclusive_block _ _ b Htodo (or_introl eq_refl)) as (Hb0 & (v' & Hv') & Hoth). rewrite Hb in Hv'. simplify_eq.
  apply sp_ok_step; simpl; try done; [|split| |rewrite lookup_insert_ne by done; apply Hok|..].
  - intros b' Hb'. rewrite counts_insert, Htodo. simpl. unfold stamps_at, cells_at. simpl.
    assert (counts s b = mkCount 0 0) as E by (unfold counts; by rewrite Hb).
    unfold eqz. repeat case_decide; subst; rewrite ?E; simpl; try done; lia.
  - by apply tail_list.
  - done.
  - lia.
  - apply Hok.
  - intros b' Hx. by destruct (tail_not_exclusive _ _ Hrest Hx).
  - intros u b' Hne Hu Hx. rewrite lookup_insert_ne by (symmetry; by eapply Hoth). split; [done|]. by apply tail_not_exclusive.
  - intros b' v'' Hv'' _. destruct (decide (b' = b)) as [->|Hne]; [rewrite lookup_insert_eq in Hv''; by simplify_eq|].
    rewrite lookup_insert_ne in Hv'' by done. right. split; [done|]. rewrite Htodo. intros [Hx|Hx]; simplify_eq/=.
Qed.

Lemma delete_ok b rest call out : sp_todo (lo c t) = MDelete b :: rest ->
  sp_ok (Cfg (mkSPS (sp_cells s) (delete b (sp_blocks s))) (<[t := mkSpLo vars call out rest]> (lo c))).
Proof using Hok Ht.
  intros Htodo. pose proof (at_thread c Hok t Ht _ rest Htodo) as [(_ & _ & Hrest) He Hw]. simpl in He, Hw.
  destruct (exclusive_block _ _ b Htodo (or_intror eq_refl)) as (Hb0 & (v & Hv) & Hoth).
  assert (Hcnt : forall b', counts (mkSPS (sp_cells s) (delete b (sp_blocks s))) b' = counts s b').
  { intros b'. unfold counts. simpl. destruct (decide (b' = b)) as [->|]; [by rewrite lookup_delete_eq, Hv|by rewrite lookup_delete_ne]. }
  apply sp_ok_step; simpl; try done; [|split| |rewrite lookup_delete_ne by done; apply Hok|..].
  - intros b' Hb'. rewrite Hcnt, Htodo. simpl. unfold stamps_at, cells_at. simpl. lia.
  - by apply tail_list.
  - done.
  - lia.
  - apply Hok.
  - intros b' Hx. by destruct (tail_not_exclusive _ _ Hrest Hx).
  - intros u b' Hne Hu Hx. rewrite lookup_delete_ne by (symmetry; by eapply Hoth). split; [done|]. by apply tail_not_exclusive.
  - intros b' v' Hv' _. apply lookup_delete_Some in Hv' as [Hne Hv']. right. split; [done|]. rewrite Htodo. intros [Hx|Hx]; simplify_eq/=.
Qed.

Lemma local_instr_ok i rest x vars' todo s' call out : sp_todo (lo c t) = i :: rest ->
  sp_local x i rest vars s = Some (vars', todo, s') -> sp_ok (Cfg s' (<[t := mkSpLo vars' call out todo]> (lo c))).
Proof using Hok Ht.
  intros Htodo Hx. destruct i, x; simpl in Hx; simplify_eq/=.
  - case_decide as E; simplify_eq. apply alloc_ok; [done|apply not_elem_of_dom; tauto|tauto].
  - destruct (exclusive_block _ _ b Htodo (or_introl eq_refl)) as (_ & (v & Hv) & _). rewrite Hv in Hx. simplify_eq/=.
    by apply (init_ok b v (mkCount 0 0)).
  - destruct (exclusive_block _ _ b Htodo (or_intror eq_refl)) as (_ & (v & Hv) & _). rewrite Hv in Hx. simplify_eq/=.
    by apply delete_ok.
  - by apply set_ok.
  - by apply reset_ok.
  - assert (s' = s) as -> by (by case_decide; simplify_eq). eapply copy_ok; [done|]. by case_decide; simplify_eq.
  - by apply move_ok.
Qed.

(** A step on the [AtomicSharedPtr] [k]. *)
Lemma cell_ok i rest k p todo call out : sp_todo (lo c t) = i :: rest -> (k < C)%nat -> 0 <= stamp p < 65536 ->
  (forall b, b <> 0 ->
     stamp p * eqz (raw_ptr p) b - stamp (sp_cells s k) * eqz (raw_ptr (sp_cells s k)) b + sumT todo b = sumT (i :: rest) b /\
     - (eqz (raw_ptr p) b - eqz (raw_ptr (sp_cells s k)) b) + sumS todo b = sumS (i :: rest) b) ->
  list_ok vars todo -> empties vars todo -> weights todo <= weight i + weights rest ->
  (forall b, ~ exclusive (i :: rest) b) -> (forall b, ~ exclusive todo b) ->
  sp_ok (Cfg (set_cell s k p) (<[t := mkSpLo vars call out todo]> (lo c))).
Proof using Hok Ht.
  intros Htodo Hk Hp Hb Hl He Hw Hx Hx'. apply (instr_same c Hok t Ht i rest Htodo); try done.
  - intros b Hb0. simpl. rewrite Htodo, stamps_at_set, cells_at_set by done. change (counts (set_cell s k p) b) with (counts s b).
    destruct (Hb b Hb0). lia.
  - intros j. simpl. destruct (decide (j = k)) as [->|]; [by rewrite fn_lookup_insert|rewrite fn_lookup_insert_ne by done; apply Hok].
Qed.

(** [Store] and [CompareExchangeWeak] put [d] in the place of the old pointer. *)
Lemma replace_ok i rest k d call out : sp_todo (lo c t) = i :: rest -> (k < C)%nat ->
  (forall b, effT b i = 0 /\ effS b i = - eqz d b) -> 65536 <= weight i ->
  empties vars rest -> (forall b, ~ exclusive (i :: rest) b) ->
  sp_ok (Cfg (set_cell s k (mkStamped d 0))
    (<[t := mkSpLo vars call out (CleanupStampedBlock (raw_ptr (sp_cells s k)) (stamp (sp_cells s k)) ++ rest)]> (lo c))).
Proof using Hok Ht.
  intros Htodo Hk Hd Hwi He Hx. pose proof (at_rest c Hok t Ht i rest Htodo) as Hrest.
  pose proof (ok_stamps _ Hok k) as Hst.
  assert (Htail : tail_ok (CleanupStampedBlock (raw_ptr (sp_cells s k)) (stamp (sp_cells s k)) ++ rest)) by (by apply tail_cleanup).
  apply (cell_ok _ _ _ _ _ _ _ Htodo); try done.
  - intros b Hb. rewrite sumT_app, sumS_app. destruct (sum_cleanup (raw_ptr (sp_cells s k)) (stamp (sp_cells s k)) b Hb) as [-> ->].
    simpl. destruct (Hd b) as [-> ->]. lia.
  - by apply tail_list.
  - unfold CleanupStampedBlock, if_block. by case_decide.
  - rewrite weights_app. pose proof (weights_cleanup (raw_ptr (sp_cells s k)) _ Hst). lia.
  - intros b. by apply tail_not_exclusive.
Qed.

(** The end of [Load]. *)
Lemma tail_loaded y p assign rest : (y < V)%nat -> tail_ok rest -> tail_ok ((if assign : bool then [MReset y] else []) ++ MSet y p :: rest).
Proof. intros Hy Hr. destruct assign; [apply tail_reset; [done|]|]; by apply tail_set. Qed.

Lemma tail_update k p st l : (k < C)%nat -> 0 <= st -> (p <> 0 -> owned l p) -> tail_ok l ->
  list_ok vars (TryUpdateTransient k p st ++ l) /\ forall b, ~ exclusive (TryUpdateTransient k p st ++ l) b.
Proof.
  intros Hk Hst Ho Hl. unfold TryUpdateTransient, if_block. case_decide as Hp.
  { split; [by apply tail_list|]. intros b. by apply tail_not_exclusive. }
  specialize (Ho Hp). pose proof (tail_balanced _ _ Hl Hp) as [? ?]. split; [|not_excl].
  split; [split; [split; [done|]|bal_lia Hl]|split].
  - intros _. left. simpl. rewrite eqz_same. lia.
  - intros q [= <-]. left. unfold owned in *. simpl. rewrite eqz_same. lia.
  - split; [split; [done|bal_lia Hl]|]. split; [done|]. split; [not_excl|done].
Qed.

Lemma sum_update k p st b : sumT (TryUpdateTransient k p st) b = 0 /\ sumS (TryUpdateTransient k p st) b = 0.
Proof. unfold TryUpdateTransient, if_block. case_decide; simpl; lia. Qed.

Lemma fetch_inc_ok y k assign rest call out : sp_todo (lo c t) = MFetchInc y k assign :: rest ->
  (raw_ptr (sp_cells s k) <> 0 -> stamp (sp_cells s k) < 65535) ->
  let old := sp_cells s k in
  let upd := if 10000 <? stamp old + 1 then TryUpdateTransient k (raw_ptr old) (stamp old + 1) else [] in
  sp_ok (Cfg (set_cell s k (sp_norm (sp_IncrementStamp old)))
    (<[t := mkSpLo vars call out (upd ++ (if assign then [MReset y] else []) ++ MSet y (raw_ptr old) :: rest)]> (lo c))).
Proof using Hok Ht.
  intros Htodo Hguard old upd. pose proof (at_thread c Hok t Ht _ rest Htodo) as [(([Hk Hy] & _) & _ & Hrest) [He Hn] _].
  pose proof (ok_stamps _ Hok k) as Hst. fold old in Hguard, Hst. set (l := (if assign then [MReset y] else []) ++ MSet y (raw_ptr old) :: rest).
  assert (Hl : tail_ok l) by (by apply tail_loaded).
  assert (Hsum : forall b, sumT l b = - eqz (raw_ptr old) b + sumT rest b /\ sumS l b = sumS rest b) by (intros b; unfold l; destruct assign; simpl; lia).
  assert (Hown : raw_ptr old <> 0 -> owned l (raw_ptr old)).
  { intros Hp. destruct (Hsum (raw_ptr old)) as [E1 E2]. pose proof (tail_balanced _ _ Hrest Hp) as [? ?].
    unfold owned. rewrite E1, E2, eqz_same. lia. }
  assert (Hul : list_ok vars (upd ++ l) /\ forall b, ~ exclusive (upd ++ l) b).
  { unfold upd. destruct (10000 <? _); [apply tail_update; try done; lia|]. split; [by apply tail_list|]. intros b. by apply tail_not_exclusive. }
  assert (Hus : forall b, sumT upd b = 0 /\ sumS upd b = 0) by (intros b; unfold upd; destruct (10000 <? _); [apply sum_update|done]).
  assert (Hel : empties vars l) by (unfold l; destruct assign; simpl; [by rewrite fn_lookup_insert|auto]).
  apply (cell_ok _ _ _ _ _ _ _ Htodo); try done; [exact (Z.mod_pos_bound _ 65536 eq_refl)|..|apply Hul| | |not_excl|apply Hul].
  - intros b Hb. rewrite sumT_app, sumS_app. destruct (Hus b) as [-> ->], (Hsum b) as [-> ->]. simpl. fold old.
    rewrite u64_id by lia. destruct (decide (raw_ptr old = 0)) as [E|E]; [rewrite E, eqz_ne by done; lia|].
    rewrite Z.mod_small by (specialize (Hguard E); lia). lia.
  - unfold upd. destruct (10000 <? _); [|done]. unfold TryUpdateTransient, if_block. by case_decide.
  - assert (weights l <= 2 + weights rest) by (unfold l; destruct assign; simpl; lia).
    assert (weights upd <= 131074) by (unfold upd, TryUpdateTransient, if_block; destruct (10000 <? _); [case_decide|]; simpl; lia).
    rewrite weights_app. simpl. lia.
Qed.

Lemma upd_cas_ok x k b st rest todo s' r call out : sp_todo (lo c t) = MUpdCas k b st :: rest ->
  sp_atomic x (MUpdCas k b st) rest s = Some (todo, s', r) -> sp_ok (Cfg s' (<[t := mkSpLo vars call out todo]> (lo c))).
Proof using Hok Ht.
  intros Htodo Hx. pose proof (at_thread c Hok t Ht _ rest Htodo) as [(((Hb & Hown & Hk) & _) & _ & Hrest) He _]. simpl in Hx, He.
  case_decide as E; simplify_eq.
  - destruct E as [E _]. apply (cell_ok _ _ _ _ _ _ _ Htodo); try done; [| |simpl; lia|not_excl|not_excl].
    + intros b' _. rewrite E. simpl. lia.
    + apply tail_list, tail_release; auto.
  - apply (local_ok _ _ _ _ _ _ Htodo); try done; [| |simpl; lia|not_excl|not_excl].
    + intros b' _. simpl. lia.
    + apply tail_list, tail_release; auto.
Qed.

Lemma cas_stamp_ok k y e d rest call out : sp_todo (lo c t) = MCasStamp k y e d :: rest ->
  sp_ok (Cfg s (<[t := mkSpLo vars call out (if_block d [MAdd d 0 1 false] ++ MCas k y e (stamp (sp_cells s k)) d :: rest)]> (lo c))).
Proof using Hok Ht.
  intros Htodo. pose proof (at_thread c Hok t Ht _ rest Htodo) as [(((Hown & Hk & Hy) & _) & _ & Hrest) He _]. simpl in He.
  set (cas := MCas k y e (stamp (sp_cells s k)) d).
  assert (Hcas : tail_ok (cas :: rest)) by (split; [split; [done|bal_lia Hrest]|]; split; [done|]; split; [not_excl|done]).
  unfold if_block. case_decide as Hd; (apply (local_ok _ _ _ _ _ _ Htodo); try done; [| |simpl; lia|not_excl|not_excl]).
  - intros b Hb. simpl. subst d. rewrite eqz_ne by done. lia.
  - by apply tail_list.
  - intros b Hb. simpl. lia.
  - specialize (Hown Hd). pose proof (tail_balanced _ _ Hrest Hd) as [? ?]. split; [split; [split; [done|]|bal_lia Hrest]|split; [|done]].
    + intros _. left. simpl. rewrite eqz_same. lia.
    + intros q [= <-]. left. unfold owned in *. simpl. rewrite eqz_same. lia.
Qed.

Lemma cas_ok x k y e st d rest todo s' r call out : sp_todo (lo c t) = MCas k y e st d :: rest ->
  sp_atomic x (MCas k y e st d) rest s = Some (todo, s', r) -> sp_ok (Cfg s' (<[t := mkSpLo vars call out todo]> (lo c))).
Proof using Hok Ht.
  intros Htodo Hx. pose proof (at_thread c Hok t Ht _ rest Htodo) as [(((Hown & Hk & Hy) & _) & _ & Hrest) He _]. simpl in Hx, He.
  case_decide as E; simplify_eq.
  - destruct E as [E _]. pose proof (replace_ok _ rest k d call out Htodo Hk) as H. rewrite E in H.
    apply H; [by intros b|simpl; lia|by apply empties_no_touch|not_excl].
  - assert (Hinc : tail_ok (MFetchInc y k true :: rest)) by (split; [split; [done|bal_lia Hrest]|]; split; [done|]; split; [not_excl|done]).
    unfold if_block. case_decide as Hd; (apply (local_ok _ _ _ _ _ _ Htodo); [| | |simpl; lia|not_excl|not_excl]).
    + intros b Hb. simpl. subst d. rewrite eqz_ne by done. lia.
    + by apply tail_list.
    + by split.
    + intros b Hb. simpl. lia.
    + apply tail_list, tail_release; auto.
    + by split.
Qed.

Lemma atomic_instr_ok i rest x todo s' r call out : sp_todo (lo c t) = i :: rest ->
  (forall k, (k < C)%nat -> raw_ptr (sp_cells s k) <> 0 -> stamp (sp_cells s k) < 65535) ->
  sp_atomic x i rest s = Some (todo, s', r) -> sp_ok (Cfg s' (<[t := mkSpLo vars call out todo]> (lo c))).
Proof using Hok Ht.
  intros Htodo Hg Hx. pose proof (at_thread c Hok t Ht i rest Htodo) as [((Hi & _) & _ & _) He _]. destruct i as [| | | | | | | | |y k a|k b st|k d|k y e d|k y e st d|]; try done.
  - simpl in Hx. simplify_eq. apply fetch_inc_ok; [done|]. apply Hg, Hi.
  - by eapply upd_cas_ok.
  - simpl in Hx. simplify_eq. apply (replace_ok (MExchange k d)); [done|apply Hi|by intros b|simpl; lia|done|not_excl].
  - simpl in Hx. simplify_eq. by apply cas_stamp_ok.
  - by eapply cas_ok.
Qed.

(** The start of an operation. *)
Lemma start_ok vars' todo call out : sp_todo (lo c t) = [] ->
  (forall b, b <> 0 -> sumT todo b - refs vars' b = - refs vars b /\ sumS todo b = 0) ->
  list_ok vars' todo -> empties vars' todo -> weights todo <= max_weight -> (forall b, ~ exclusive todo b) ->
  sp_ok (Cfg s (<[t := mkSpLo vars' call out todo]> (lo c))).
Proof using Hok Ht.
  intros Htodo Hb Hl He Hw Hx. apply sp_ok_same; simpl; try done; [|apply Hok|rewrite Htodo; not_excl].
  intros b Hb0. simpl. rewrite Htodo. simpl. destruct (Hb b Hb0). lia.
Qed.

Definition op_in_range (o : sp_op) : Prop :=
  match o with
  | OMake x _ | OReset x => (x < V)%nat
  | OCopy x y | OMove x y | OAssign x y | OMoveAssign x y => (x < V)%nat /\ (y < V)%nat
  | OLoad x k => (x < V)%nat /\ (k < C)%nat
  | OStore k y => (y < V)%nat /\ (k < C)%nat
  | OCas k x y => (x < V)%nat /\ (y < V)%nat /\ (k < C)%nat
  end.

(** An operation on variables. *)
Lemma plain_item i l : tail_ok l -> instr_ok i l -> (forall b, effT b i = 0 /\ effS b i = 0) -> accesses i = None ->
  (forall b, ~ exclusive (i :: l) b) -> tail_ok (i :: l).
Proof.
  intros Hl Hi He Ha Hx. split; [split; [done|]|split; [by rewrite Ha|done]].
  intros b Hb. pose proof (tail_balanced _ b Hl Hb) as [? ?]. destruct (He b) as [E1 E2]. unfold balanced. simpl. rewrite E1, E2. lia.
Qed.

Lemma call_start_ok o call out : sp_todo (lo c t) = [] -> sp_enabled o vars = true -> op_in_range o ->
  sp_ok (Cfg s (<[t := mkSpLo (sp_pass o vars) call out (sp_code o vars)]> (lo c))).
Proof using Hok Ht.
  intros Htodo Hen Hr. assert (Hp : forall i, instr_ok i [] -> (forall b, effT b i = 0 /\ effS b i = 0) -> accesses i = None ->
    (forall b, ~ exclusive [i] b) -> tail_ok [i]) by (intros; by apply plain_item).
  destruct o as [x v|x y|x y|x y|x y|x|x k|k y|k x y]; simpl in Hr, Hen; bool_hyps.
  1-7: cbn [sp_pass sp_code]; apply start_ok; [done|intros; simpl; lia|apply tail_list|simpl; repeat split; rewrite ?fn_lookup_insert; done || constructor|
    unfold max_weight; simpl; lia|not_excl].
  1-3, 6-7: apply Hp; simpl; try done; try tauto; not_excl.
  1-2: (apply plain_item; [apply Hp; simpl; try done; not_excl|simpl; tauto|done|done|not_excl]).
  - destruct Hr as [Hy Hk]. cbn [sp_pass sp_code]. set (p := vars y).
    assert (Hx : tail_ok (MExchange k p :: DestroyParam p)).
    { split; [split; [done|bal_lia (tail_param p)]|]. split; [done|]. split; [not_excl|apply tail_param]. }
    pose proof (weights_param p). apply start_ok; [done|..].
    + intros b Hb. rewrite sumT_app, sumS_app, refs_insert by done. fold p. simpl. destruct (sum_param p b Hb) as [-> ->].
      unfold if_block. case_decide; simpl; eqz_lia.
    + unfold if_block. case_decide as Hp0; [by apply tail_list|]. pose proof (owned_param p Hp0) as Hown.
      destruct (sum_param p p Hp0) as [E1 E2]. rewrite eqz_same in E1.
      split; [split; [split; [done|]|]|split; [|done]].
      * intros _. left. simpl. rewrite E2, eqz_same. lia.
      * intros b Hb. destruct (sum_param p b Hb) as [F1 F2]. unfold balanced. simpl. rewrite F1, F2. eqz_lia.
      * intros q [= <-]. left. right. simpl. rewrite E1. lia.
    + unfold if_block. case_decide; simpl; apply empties_no_touch, no_touch_param.
    + rewrite weights_app. unfold max_weight, if_block. case_decide; simpl; lia.
    + unfold if_block. case_decide; not_excl.
  - destruct Hr as (Hx & Hy & Hk). cbn [sp_pass sp_code]. set (p := vars y).
    pose proof (weights_param p). apply start_ok; [done|..].
    + intros b Hb. simpl. rewrite refs_insert by done. fold p. destruct (sum_param p b Hb) as [-> ->]. eqz_lia.
    + apply tail_list. apply plain_item; [apply tail_param| |done|done|not_excl]. split; [apply owned_param|done].
    + simpl. apply no_touch_param.
    + simpl. unfold max_weight. lia.
    + not_excl.
Qed.
End all_instructions.

(** *** Runs *)

(** The clients: threads, variables and [AtomicSharedPtr]s in range; no stamp of an
    [AtomicSharedPtr] that holds a block reaches its last value. *)
Definition sp_client (t : tid) (x : sp_act) (c : config SPS sp_lo) : Prop :=
  (t < N)%nat /\ (forall o, x = PCall o -> op_in_range o) /\
  forall k, (k < C)%nat -> raw_ptr (sp_cells (sh c) k) <> 0 -> stamp (sp_cells (sh c) k) < 65535.

Lemma sp_ok_start : sp_ok sp_start.
Proof.
  split; try done.
  - intros b Hb. change (0 + zsum (fun _ => 0 * eqz 0 b) C + zsum (fun _ => 0 - zsum (fun _ => eqz 0 b) V) N = 0).
    rewrite !zsum_all_zero; intros; rewrite ?zsum_all_zero; intros; rewrite ?eqz_ne by done; lia.
  - intros b Hb. change (0 - zsum (fun _ => eqz 0 b) C + zsum (fun _ => 0) N = 0).
    rewrite !zsum_all_zero; intros; rewrite ?eqz_ne by done; lia.
  - intros t b Ht [H|H]; done.
  - intros t u b Ht Hu [H|H]; done.
Qed.

Lemma sp_ok_next c t x c' es : sp_ok c -> sp_client t x c -> cstep sp_step t x c = Some (c', es) -> sp_ok c'.
Proof using Hsmall.
  intros Hok (Ht & Ho & Hg) (l' & s' & Hst & ->)%cstep_inv. unfold sp_step in Hst.
  destruct (sp_todo (lo c t)) as [|i rest] eqn:Htodo.
  - destruct x as [o| | |]; try done; destruct (sp_call (lo c t)) eqn:Hc; try done.
    + destruct (sp_enabled o (sp_vars (lo c t))) eqn:Hen; [|done].
      case_match; simplify_eq; apply call_start_ok; auto.
    + simplify_eq. apply start_ok; try done. intros b [H|H]; done.
  - assert (Hx : sp_exec x (lo c t) i rest (sh c) = Some (l', s', es)) by (by destruct x).
    unfold sp_exec in Hx. destruct (FetchAdd x i rest (sh c)) as [[todo1 s1]|] eqn:E1.
    + simplify_eq. by eapply fetch_add_ok.
    + destruct (sp_local x i rest (sp_vars (lo c t)) (sh c)) as [[[vars1 todo1] s1]|] eqn:E2.
      * simplify_eq. by eapply local_instr_ok.
      * destruct (sp_atomic x i rest (sh c)) as [[[todo1 s1] r]|] eqn:E3; [|done].
        destruct r; [destruct (sp_call (lo c t)); try done|]; simplify_eq; by eapply atomic_instr_ok.
Qed.

Lemma sp_ok_run tr c : gsteps sp_step sp_client sp_start tr c -> sp_ok c.
Proof using Hsmall. induction 1; [apply sp_ok_start|by eapply sp_ok_next]. Qed.
End counting.

(** The value a [SharedPtr] points to: [operator*], [operator->]. *)
Definition sp_deref (s : SPS) (b : Z) : option Z := bl_value <$> sp_blocks s !! b.

(** The number of [SharedPtr]s that point to [b]. *)
Definition all_refs (N V : nat) (c : config SPS sp_lo) (b : Z) : Z := zsum (fun t => refs V (sp_vars (lo c t)) b) N.

(** C22: Shared pointers are memory safe: whatever the threads do, no operation
    accesses or deletes a block that is gone, no 32-bit counter overflows, and every
    [SharedPtr] that is not null points to a block that is still there. *)
Theorem shared_ptr_memory_safe N V C tr c t :
  Z.of_nat C * 65536 + Z.of_nat N * (200000 + Z.of_nat V) < 2 ^ 31 ->
  gsteps sp_step (sp_client N V C) sp_start tr c -> (t < N)%nat ->
  MCrash ∉ sp_todo (lo c t) /\
  forall x, (x < V)%nat -> sp_vars (lo c t) x <> 0 -> is_Some (sp_deref (sh c) (sp_vars (lo c t) x)).
Proof.
  intros Hs Hr Ht. pose proof (sp_ok_run N V C Hs tr c Hr) as Hok. split.
  - pose proof (th_list _ _ _ _ (ok_thread _ _ _ _ Hok t Ht)) as Hl.
    assert (Htail : forall l, tail_ok V C l -> MCrash ∉ l).
    { intros l. induction l as [|i l IH]; [intros _; apply not_elem_of_nil|]. intros ((Hi & _) & _ & _ & Hrest).
      apply not_elem_of_cons. split; [by intros <-|auto]. }
    destruct (sp_todo (lo c t)) as [|i l]; [apply not_elem_of_nil|]. destruct Hl as ((Hi & _) & _ & Hrest).
    apply not_elem_of_cons. split; [by intros <-|auto].
  - intros x Hx Hn. destruct (allocated N V C c Hok t (sp_vars (lo c t) x) Ht Hn) as (v & n & Hb & _).
    + right. by apply (refs_pos V _ _ x).
    + unfold sp_deref. rewrite Hb. by eexists.
Qed.

(** C24: The reference counts are exact: when no operation is under way, [strong] is
    the number of [AtomicSharedPtr]s that point to the block, and [transient]
    together with their stamps is the number of [SharedPtr]s; a block is allocated
    exactly as long as one of them points to it, so nothing leaks. *)
Theorem shared_ptr_counts_exact N V C tr c b :
  Z.of_nat C * 65536 + Z.of_nat N * (200000 + Z.of_nat V) < 2 ^ 31 ->
  gsteps sp_step (sp_client N V C) sp_start tr c -> (forall t, (t < N)%nat -> sp_todo (lo c t) = []) -> b <> 0 ->
  strong (counts (sh c) b) = cells_at C (sh c) b /\
  transient (counts (sh c) b) + stamps_at C (sh c) b = all_refs N V c b /\
  (is_Some (sp_blocks (sh c) !! b) <-> 0 < cells_at C (sh c) b \/ 0 < all_refs N V c b).
Proof.
  intros Hs Hr Hq Hb. pose proof (sp_ok_run N V C Hs tr c Hr) as Hok.
  pose proof (ok_transient _ _ _ _ Hok b Hb) as HT. pose proof (ok_strong _ _ _ _ Hok b Hb) as HS.
  rewrite (zsum_ext _ (fun t => - refs V (sp_vars (lo c t)) b)), zsum_opp in HT by (intros t Ht; by rewrite Hq).
  rewrite (zsum_all_zero (fun t => sumS _ _)) in HS by (intros t Ht; by rewrite Hq).
  fold (all_refs N V c b) in HT. split; [lia|]. split; [lia|].
  assert (0 <= all_refs N V c b) by (apply zsum_nonneg; intros; apply refs_bound).
  assert (0 <= cells_at C (sh c) b) by (apply zsum_nonneg; intros; apply eqz_bound).
  unfold counts in HT, HS. destruct (sp_blocks (sh c) !! b) as [[v n]|] eqn:E; simpl in HT, HS; split.
  - intros _. destruct (decide (n = mkCount 0 0)) as [->|Hn].
    + destruct (ok_leak _ _ _ _ Hok b v E) as (t & Ht & Hx). rewrite Hq in Hx by done. by destruct Hx.
    + destruct n as [tr0 st0]. simpl in HT, HS.
      destruct (decide (cells_at C (sh c) b <= 0)) as [Hc|]; [|lia]. right. rewrite (stamps_at_zero C (sh c) b Hc) in HT.
      assert (tr0 <> 0) by (intros ->; apply Hn; f_equal; lia). lia.
  - eauto.
  - by intros [].
  - intros Hpos. exfalso. rewrite (stamps_at_zero C (sh c) b) in HT by lia. lia.
Qed.

(** ** Witnesses *)

(** Thread 0 makes a block and stores a copy of its pointer; thread 1 loads it, fails
    (spuriously) to replace it by a block of its own, which goes, then replaces it by
    the null pointer. *)
Definition shared_schedule : list (tid * sp_act) :=
  [(0, PCall (OMake 0 7)); (0, PNew 16); (0, PGo); (0, PGo);
   (0, PCall (OCopy 1 0)); (0, PGo); (0, PGo); (0, PGo); (0, PGo);
   (0, PCall (OStore 0 1)); (0, PGo); (0, PGo); (0, PGo); (0, PGo); (0, PGo); (0, PGo);
   (1, PCall (OLoad 0 0)); (1, PGo); (1, PGo); (1, PGo);
   (1, PCall (OMake 1 8)); (1, PNew 32); (1, PGo); (1, PGo);
   (1, PCall (OCas 0 0 1)); (1, PGo); (1, PGo); (1, PGo); (1, PSpur);
   (1, PGo); (1, PGo); (1, PGo); (1, PGo); (1, PGo); (1, PGo); (1, PGo); (1, PGo); (1, PGo); (1, PGo); (1, PGo);
   (1, PCall (OCas 0 0 1)); (1, PGo); (1, PGo); (1, PGo); (1, PGo); (1, PGo)]%nat.

Definition shared_run : config SPS sp_lo * list (tid * sp_event) :=
  default (sp_start, []) (run sp_step shared_schedule sp_start).

Lemma shared_run_eq : run sp_step shared_schedule sp_start = Some shared_run.
Proof. vm_compute. reflexivity. Qed.

(** The contract of the client, checked for two threads with two variables and one
    [AtomicSharedPtr]. *)
Definition op_vars (o : sp_op) : list nat :=
  match o with
  | OMake x _ | OReset x | OLoad x _ | OStore _ x => [x]
  | OCopy x y | OMove x y | OAssign x y | OMoveAssign x y | OCas _ x y => [x; y]
  end.
Definition op_cells (o : sp_op) : list nat := match o with OLoad _ k | OStore k _ | OCas k _ _ => [k] | _ => [] end.
Definition sp_clientb (t : tid) (x : sp_act) (c : config SPS sp_lo) : bool :=
  (t <? 2)%nat &&
  match x with PCall o => forallb (fun x => x <? 2)%nat (op_vars o) && forallb (fun k => k <? 1)%nat (op_cells o) | _ => true end &&
  (stamp (sp_cells (sh c) 0%nat) <? 65535).

Lemma sp_clientb_sound t x c : sp_clientb t x c = true -> sp_client 2 2 1 t x c.
Proof.
  unfold sp_clientb. intros H. bool_hyps. split; [done|]. split.
  - intros o ->. destruct o; simpl in *; bool_hyps; repeat split; done.
  - intros k Hk _. by replace k with 0%nat by lia.
Qed.

Lemma shared_run_steps : gsteps sp_step (sp_client 2 2 1) sp_start shared_run.2 shared_run.1.
Proof.
  apply (run_gsteps0 sp_step _ shared_schedule); [|rewrite shared_run_eq; by destruct shared_run].
  apply (run_okb_sound sp_step _ sp_clientb); [apply sp_clientb_sound|vm_compute; reflexivity].
Qed.

Lemma atomic_shared_ptr_linearizable_witness : linearizable pointers_spec (history shared_run.2).
Proof.
  apply (atomic_shared_ptr_linearizable shared_run.2 shared_run.1). exact (gsteps_steps _ _ _ _ _ shared_run_steps).
Defined.

Lemma shared_ptr_memory_safe_witness : is_Some (sp_deref (sh shared_run.1) 16).
Proof.
  refine (proj2 (shared_ptr_memory_safe 2 2 1 shared_run.2 shared_run.1 1 _ shared_run_steps _) 0%nat _ _).
  - lia.
  - lia.
  - lia.
  - vm_compute. discriminate.
Defined.

Lemma shared_ptr_counts_exact_witness : is_Some (sp_blocks (sh shared_run.1) !! 16).
Proof.
  refine (proj2 (proj2 (proj2 (shared_ptr_counts_exact 2 2 1 shared_run.2 shared_run.1 16 _ shared_run_steps _ _))) _).
  - lia.
  - intros [|[|t]] Ht; [reflexivity|reflexivity|lia].
  - discriminate.
  - right. vm_compute. reflexivity.
Defined.

(** ** Self-assignment *)

(** [p = p] empties [p] and deletes the object, when [p] was its only owner:
    [operator=] calls [Reset()] before it reads [that.block_]. *)
Theorem shared_ptr_self_assign_loses :
  exists c tr, run sp_step ([(0, PCall (OMake 0 7)); (0, PNew 16); (0, PGo); (0, PGo);
      (0, PCall (OAssign 0 0)); (0, PGo); (0, PGo); (0, PGo); (0, PGo); (0, PGo)]%nat) sp_start = Some (c, tr) /\
    sp_todo (lo c 0%nat) = [] /\ sp_vars (lo c 0%nat) 0%nat = 0 /\ sp_blocks (sh c) !! 16 = None.
Proof. eexists _, _. split; [vm_compute; reflexivity|]. repeat split. Qed.
