(* ===== verification/LockFreeQueue.v ===== *)
(** The lock-free queue: src/src/exe/lf/lock_free_queue.hpp.

    The Michael-Scott queue over stamped pointers, with a lock-free pool (a Treiber
    stack) of recycled nodes.  Every load, store, exchange, fetch-and-add, allocation
    and plain access to a node's value is one step; an [AtomicStampedPtr] is the
    register it is linearizable to (StampedPtr.v), so a stamp is stored modulo 2^16.

    A node may be recycled when it has been unlinked from the queue and its value has
    been taken out, in either order: [try_del_count] tells which of the two threads
    comes last.  Nodes are freed by the destructor only; an access to an address that
    is not allocated is a crash. *)

From S2P Require Import Prelude Conc StampedPtr.
Local Open Scope Z_scope.

(** ** The code *)

(** [detail::Node] *)
Record QNode := mkQNode { q_value : option Z; q_next : StampedPtr; try_del_count : Z }.

(** [LockFreeQueue], its [LockFreePool] and the allocated nodes. *)
Record LFQ := mkLFQ { q_head : StampedPtr; q_tail : StampedPtr; q_top : StampedPtr; q_heap : gmap Z QNode }.

Definition set_head (s : LFQ) (p : StampedPtr) : LFQ := mkLFQ p (q_tail s) (q_top s) (q_heap s).
Definition set_tail (s : LFQ) (p : StampedPtr) : LFQ := mkLFQ (q_head s) p (q_top s) (q_heap s).
Definition set_top (s : LFQ) (p : StampedPtr) : LFQ := mkLFQ (q_head s) (q_tail s) p (q_heap s).
Definition set_node (s : LFQ) (b : Z) (nd : QNode) : LFQ := mkLFQ (q_head s) (q_tail s) (q_top s) (<[b := nd]> (q_heap s)).

Definition with_next (nd : QNode) (p : StampedPtr) : QNode := mkQNode (q_value nd) p (try_del_count nd).
Definition with_count (nd : QNode) (n : Z) : QNode := mkQNode (q_value nd) (q_next nd) n.
Definition with_value (nd : QNode) (v : option Z) : QNode := mkQNode v (q_next nd) (try_del_count nd).

Inductive q_inv := IPush (v : Z) | ITryPop.
Inductive q_res := RPushed | RPop (v : option Z).
Abbreviation q_event := (event q_inv q_res).

(** What [TryPop] does after [ToPool]: read the value of [hn], or return.  [taken] is
    the value at the moment the call took effect; the code does not use it. *)
Inductive q_cont := ThenValue (hn taken : Z) | ThenReturn (val : option Z).

(** Program points, with the live locals. *)
Inductive q_pc :=
| QIdle
(** [NewNode], [LockFreePool::TryPop] *)
| New_top (v : Z)
| New_next (v : Z) (curr : StampedPtr)
| New_cas (v : Z) (curr next : StampedPtr)
| New_value (v n : Z)
| New_next_load (v n : Z)
| New_next_store (v n st : Z)
| New_alloc (v : Z)
(** [Push] *)
| Push_tail (v n : Z)
| Push_next (v n : Z) (ot : StampedPtr)
| Push_check (v n : Z) (ot otn : StampedPtr)
| Push_link (v n : Z) (ot otn : StampedPtr)
| Push_help (v n : Z) (ot otn : StampedPtr)
| Push_swing (v n : Z) (ot : StampedPtr)
(** [TryPop] *)
| Pop_head
| Pop_next (ho : StampedPtr)
| Pop_tail (ho hn : StampedPtr)
| Pop_check (ho hn t_old : StampedPtr)
| Pop_cas (ho hn : StampedPtr)
| Pop_help (hn t_old : StampedPtr)
| Pop_del (ho hn taken : Z)
| Pop_value (hn taken : Z)
| Pop_del2 (hn : Z) (val : option Z)
(** [ToPool], [LockFreePool::Push] *)
| Pool_top (n : Z) (k : q_cont)
| Pool_next (n : Z) (ot : StampedPtr) (k : q_cont)
| Pool_store (n : Z) (ot : StampedPtr) (st : Z) (k : q_cont)
| Pool_cas (n : Z) (ot : StampedPtr) (st : Z) (k : q_cont)
| QRet (i : q_inv) (r : q_res)
| QCrash (i : q_inv).

(** [QNew b]: the allocator's answer; [QSpur]: a spurious failure. *)
Inductive q_act := QCall (i : q_inv) | QGo | QSpur | QNew (b : Z).

Abbreviation q_result := (option (q_pc * LFQ * list q_event)).


(** [StampedPtr(b, st + 1)], as it is stored. *)
Definition next_stamp (b st : Z) : StampedPtr := sp_norm (mkStamped b (u64 (st + 1))).

(** An access to the node [b]. *)
Definition on_node (i : q_inv) (s : LFQ) (b : Z) (k : QNode -> q_result) : q_result :=
  match q_heap s !! b with Some nd => k nd | None => Some (QCrash i, s, []) end.

(** *** LockFreePool::TryPop *)
Definition pool_TryPop (x : q_act) (pc : q_pc) (s : LFQ) : q_result :=
  match pc, x with
  | New_top v, QGo =>
      if decide (raw_ptr (q_top s) = 0) then Some (New_alloc v, s, []) else Some (New_next v (q_top s), s, [])
  | New_next v curr, QGo => on_node (IPush v) s (raw_ptr curr) (fun nd => Some (New_cas v curr (q_next nd), s, []))
  | New_cas v curr next, QGo =>
      if decide (q_top s = curr)
      then Some (New_value v (raw_ptr curr), set_top s (next_stamp (raw_ptr next) (stamp curr)), [])
      else Some (New_top v, s, [])
  | New_cas v _ _, QSpur => Some (New_top v, s, [])
  | _, _ => None
  end.

(** *** LockFreeQueue::NewNode, after the call of [TryPop] *)
Definition queue_NewNode (x : q_act) (pc : q_pc) (s : LFQ) : q_result :=
  match pc, x with
  | New_value v n, QGo =>
      on_node (IPush v) s n (fun nd => Some (New_next_load v n, set_node s n (with_value nd (Some v)), []))
  | New_next_load v n, QGo => on_node (IPush v) s n (fun nd => Some (New_next_store v n (stamp (q_next nd)), s, []))
  | New_next_store v n st, QGo =>
      on_node (IPush v) s n (fun nd => Some (Push_tail v n, set_node s n (with_next nd (next_stamp 0 st)), []))
  | New_alloc v, QNew b =>
      if decide (b = 0 \/ b ∈ dom (q_heap s)) then None
      else Some (Push_tail v b, set_node s b (mkQNode (Some v) (mkStamped 0 0) 0), [])
  | _, _ => None
  end.

(** *** LockFreeQueue::Push *)
Definition queue_Push (x : q_act) (pc : q_pc) (s : LFQ) : q_result :=
  match pc, x with
  | Push_tail v n, QGo => Some (Push_next v n (q_tail s), s, [])
  | Push_next v n ot, QGo => on_node (IPush v) s (raw_ptr ot) (fun nd => Some (Push_check v n ot (q_next nd), s, []))
  | Push_check v n ot otn, QGo =>
      if decide (ot <> q_tail s) then Some (Push_tail v n, s, [])
      else if decide (raw_ptr otn = 0) then Some (Push_link v n ot otn, s, [])
      else Some (Push_help v n ot otn, s, [])
  | Push_link v n ot otn, QGo =>
      on_node (IPush v) s (raw_ptr ot) (fun nd =>
        if decide (q_next nd = otn)
        then Some (Push_swing v n ot, set_node s (raw_ptr ot) (with_next nd (next_stamp n (stamp otn))), [Lin (IPush v) RPushed])
        else Some (Push_tail v n, s, []))
  | Push_link v n ot otn, QSpur => on_node (IPush v) s (raw_ptr ot) (fun nd => Some (Push_tail v n, s, []))
  | Push_help v n ot otn, QGo =>
      Some (Push_tail v n, if decide (q_tail s = ot) then set_tail s (next_stamp (raw_ptr otn) (stamp ot)) else s, [])
  | Push_help v n ot otn, QSpur => Some (Push_tail v n, s, [])
  | Push_swing v n ot, QGo =>
      Some (QRet (IPush v) RPushed, if decide (q_tail s = ot) then set_tail s (next_stamp n (stamp ot)) else s, [])
  | Push_swing v n ot, QSpur => Some (QRet (IPush v) RPushed, s, [])
  | _, _ => None
  end.

(** *** LockFreePool::Push *)
Definition after_pool (k : q_cont) : q_pc :=
  match k with ThenValue hn taken => Pop_value hn taken | ThenReturn val => QRet ITryPop (RPop val) end.

Definition pool_Push (x : q_act) (pc : q_pc) (s : LFQ) : q_result :=
  match pc, x with
  | Pool_top n k, QGo => Some (Pool_next n (q_top s) k, s, [])
  | Pool_next n ot k, QGo => on_node ITryPop s n (fun nd => Some (Pool_store n ot (stamp (q_next nd)) k, s, []))
  | Pool_store n ot st k, QGo =>
      on_node ITryPop s n (fun nd => Some (Pool_cas n ot st k, set_node s n (with_next nd (next_stamp (raw_ptr ot) st)), []))
  | Pool_cas n ot st k, QGo =>
      if decide (q_top s = ot) then Some (after_pool k, set_top s (next_stamp n (stamp ot)), [])
      else Some (Pool_store n (q_top s) st k, s, [])
  | Pool_cas n ot st k, QSpur => Some (Pool_store n (q_top s) st k, s, [])
  | _, _ => None
  end.

(** [try_del_count.fetch_add(1) % 2 == 1]: the node goes to the pool. *)
Definition fetch_add_del (s : LFQ) (b : Z) (nd : QNode) (k : q_cont) : q_result :=
  Some (if decide (try_del_count nd mod 2 = 1) then Pool_top b k else after_pool k,
        set_node s b (with_count nd (u64 (try_del_count nd + 1))), []).

(** *** LockFreeQueue::TryPop *)
Definition queue_TryPop (x : q_act) (pc : q_pc) (s : LFQ) : q_result :=
  match pc, x with
  | Pop_head, QGo => Some (Pop_next (q_head s), s, [])
  | Pop_next ho, QGo => on_node ITryPop s (raw_ptr ho) (fun nd => Some (Pop_tail ho (q_next nd), s, []))
  | Pop_tail ho hn, QGo => Some (Pop_check ho hn (q_tail s), s, [])
  | Pop_check ho hn t_old, QGo =>
      if decide (q_head s <> ho) then Some (Pop_head, s, [])
      else if decide (raw_ptr hn = 0) then
        if decide (raw_ptr ho <> raw_ptr t_old) then Some (Pop_head, s, []) else Some (QRet ITryPop (RPop None), s, [])
      else if decide (raw_ptr ho <> raw_ptr t_old) then Some (Pop_cas ho hn, s, [])
      else Some (Pop_help hn t_old, s, [])
  | Pop_cas ho hn, QGo =>
      if decide (q_head s = ho) then
        let taken := default 0 (q_heap s !! raw_ptr hn ≫= q_value) in
        Some (Pop_del (raw_ptr ho) (raw_ptr hn) taken, set_head s (next_stamp (raw_ptr hn) (stamp ho)),
              [Lin ITryPop (RPop (Some taken))])
      else Some (Pop_head, s, [])
  | Pop_cas ho hn, QSpur => Some (Pop_head, s, [])
  | Pop_help hn t_old, QGo =>
      Some (Pop_head, if decide (q_tail s = t_old) then set_tail s (next_stamp (raw_ptr hn) (stamp t_old)) else s, [])
  | Pop_help hn t_old, QSpur => Some (Pop_head, s, [])
  | Pop_del ho hn taken, QGo => on_node ITryPop s ho (fun nd => fetch_add_del s ho nd (ThenValue hn taken))
  | Pop_value hn taken, QGo => on_node ITryPop s hn (fun nd => Some (Pop_del2 hn (q_value nd), s, []))
  | Pop_del2 hn val, QGo => on_node ITryPop s hn (fun nd => fetch_add_del s hn nd (ThenReturn val))
  | _, _ => None
  end.

Definition q_call (i : q_inv) : q_pc := match i with IPush v => New_top v | ITryPop => Pop_head end.

Definition queue_step (t : tid) (x : q_act) (pc : q_pc) (s : LFQ) : q_result :=
  match pc, x with
  | QIdle, QCall i => Some (q_call i, s, [Inv i])
  | QRet i r, QGo => Some (QIdle, s, [Ret r])
  | (New_top _ | New_next _ _ | New_cas _ _ _), _ => pool_TryPop x pc s
  | (New_value _ _ | New_next_load _ _ | New_next_store _ _ _ | New_alloc _), _ => queue_NewNode x pc s
  | (Push_tail _ _ | Push_next _ _ _ | Push_check _ _ _ _ | Push_link _ _ _ _ | Push_help _ _ _ _ | Push_swing _ _ _), _ =>
      queue_Push x pc s
  | (Pool_top _ _ | Pool_next _ _ _ | Pool_store _ _ _ _ | Pool_cas _ _ _ _), _ => pool_Push x pc s
  | _, _ => queue_TryPop x pc s
  end.

(** [LockFreeQueue()], with the dummy node at [d]. *)
Definition queue_new (d : Z) : LFQ :=
  mkLFQ (mkStamped d 0) (mkStamped d 0) (mkStamped 0 0) {[ d := mkQNode None (mkStamped 0 0) 1 ]}.
Definition queue_start (d : Z) : config LFQ q_pc := Cfg (queue_new d) (fun _ => QIdle).

(** The loop of both destructors: delete the nodes from [cur] on; [None]: a node is
    not allocated, or the fuel is used up. *)
Fixpoint delete_from (fuel : nat) (cur : Z) (h : gmap Z QNode) : option (gmap Z QNode) :=
  if decide (cur = 0) then Some h
  else
    match fuel, h !! cur with
    | S fuel, Some nd => delete_from fuel (raw_ptr (q_next nd)) (delete cur h)
    | _, _ => None
    end.

(** [~LockFreeQueue] and then [~LockFreePool]. *)
Definition queue_Destroy (fuel : nat) (s : LFQ) : option (gmap Z QNode) :=
  delete_from fuel (raw_ptr (q_head s)) (q_heap s) ≫= delete_from fuel (raw_ptr (q_top s)).

(** ** The specification: a FIFO queue *)
Inductive fifo_step : list Z -> q_inv -> q_res -> list Z -> Prop :=
| fifo_push q v : fifo_step q (IPush v) RPushed (q ++ [v])
| fifo_pop v q : fifo_step (v :: q) ITryPop (RPop (Some v)) q
| fifo_empty : fifo_step [] ITryPop (RPop None) [].

Definition fifo_spec : seq_spec q_inv q_res := SeqSpec _ _ (list Z) [] fifo_step.

(** ** The invariant *)

(** Who uses a node: a thread that is about to link it; the queue; the queue, whose
    first node it is ([tk]: the thread that still has to take its value); nobody but
    the threads that took its value ([tk]) and unlinked it ([un]), if they have not
    yet counted so; a thread that pushes it to the pool; the pool. *)
Inductive qplace :=
| QFresh (t : tid)
| QLinked
| QDummy (tk : option tid)
| QGone (tk un : option tid)
| QPooling (t : tid)
| QPool.

Inductive role := Fresh | Pooling | Taker | Unlinker.

Definition has (p : qplace) (r : role) : option tid :=
  match p, r with
  | QFresh t, Fresh => Some t
  | QPooling t, Pooling => Some t
  | QDummy tk, Taker => tk
  | QGone tk _, Taker => tk
  | QGone _ un, Unlinker => un
  | _, _ => None
  end.

(** Whether [try_del_count] is odd. *)
Definition parity (p : qplace) : Z :=
  match p with QDummy None | QGone (Some _) None | QGone None (Some _) => 1 | _ => 0 end.

Definition cont_takes (k : q_cont) : option Z := match k with ThenValue hn _ => Some hn | ThenReturn _ => None end.

(** The node a thread uses in a role. *)
Definition claim (pc : q_pc) (r : role) : option Z :=
  match r, pc with
  | Fresh, (New_value _ n | New_next_load _ n | New_next_store _ n _ | Push_tail _ n | Push_next _ n _ | Push_check _ n _ _
    | Push_link _ n _ _ | Push_help _ n _ _) => Some n
  | Pooling, (Pool_top n _ | Pool_next n _ _ | Pool_store n _ _ _ | Pool_cas n _ _ _) => Some n
  | Taker, (Pop_del _ hn _ | Pop_value hn _ | Pop_del2 hn _) => Some hn
  | Taker, (Pool_top _ k | Pool_next _ _ k | Pool_store _ _ _ k | Pool_cas _ _ _ k) => cont_takes k
  | Unlinker, Pop_del ho _ _ => Some ho
  | _, _ => None
  end.

Definition nx (s : LFQ) (b : Z) : option StampedPtr := q_next <$> q_heap s !! b.
Definition vl (s : LFQ) (b : Z) : option Z := q_heap s !! b ≫= q_value.

(** The nodes [l] from the address [p] on. *)
Fixpoint links (s : LFQ) (p : Z) (l : list Z) : Prop :=
  match l with
  | [] => p = 0
  | b :: l => p = b /\ b <> 0 /\ exists q, nx s b = Some q /\ links s (raw_ptr q) l
  end.

Definition stamp_ok (p : StampedPtr) : Prop := 0 <= stamp p < 65536.

(** [d :: rest]: the nodes of the queue; [ps]: those of the pool; [a]: the values. *)
Record qsh_ok (s : LFQ) (d : Z) (rest ps : list Z) (pl : gmap Z qplace) (a : list Z) : Prop := {
  qs_null : q_heap s !! 0 = None;
  qs_dom : forall b, is_Some (q_heap s !! b) <-> is_Some (pl !! b);
  qs_queue : links s (raw_ptr (q_head s)) (d :: rest);
  qs_values : Forall2 (fun b v => vl s b = Some v) rest a;
  qs_tail : exists pre post, d :: rest = pre ++ raw_ptr (q_tail s) :: post /\ (length post <= 1)%nat;
  qs_pool : links s (raw_ptr (q_top s)) ps;
  qs_nodup : base.NoDup (d :: rest);
  qs_nodup_pool : base.NoDup ps;
  qs_dummy : forall b, (exists tk, pl !! b = Some (QDummy tk)) <-> b = d;
  qs_linked : forall b, pl !! b = Some QLinked <-> b ∈ rest;
  qs_pooled : forall b, pl !! b = Some QPool <-> b ∈ ps;
  qs_count : forall b p nd, pl !! b = Some p -> q_heap s !! b = Some nd -> try_del_count nd mod 2 = parity p /\ p <> QGone None None;
  qs_stamps : stamp_ok (q_head s) /\ stamp_ok (q_tail s) /\ stamp_ok (q_top s) /\ forall b q, nx s b = Some q -> stamp_ok q;
}.

(** A value of a stamped pointer that was read before. *)
Definition snap (p cur : StampedPtr) : Prop := stamp p < stamp cur \/ p = cur.

Definition allocated (s : LFQ) (b : Z) : Prop := is_Some (q_heap s !! b).

(** [b] was the last node of [ns], and the tail, when its link was [q]. *)
Definition was_last (s : LFQ) (ns : list Z) (b : Z) (q : StampedPtr) : Prop :=
  exists q', nx s b = Some q' /\ (stamp q < stamp q' \/ (q' = q /\ list.last ns = Some b /\ raw_ptr (q_tail s) = b)).

(** The node is not linked yet. *)
Definition fresh_node (s : LFQ) (v n : Z) : Prop := vl s n = Some v /\ exists q, nx s n = Some q /\ raw_ptr q = 0.

Definition cont_ok (s : LFQ) (k : q_cont) : Prop :=
  match k with ThenValue hn taken => vl s hn = Some taken | ThenReturn _ => True end.

(** What a thread knows. *)
Definition knows (s : LFQ) (ns : list Z) (o : option (q_inv * q_res)) (pc : q_pc) : Prop :=
  match pc with
  | New_next v curr => snap curr (q_top s) /\ allocated s (raw_ptr curr)
  | New_cas v curr next => snap curr (q_top s) /\ raw_ptr curr <> 0 /\ (q_top s = curr -> nx s (raw_ptr curr) = Some next)
  | New_next_load v n => vl s n = Some v
  | New_next_store v n st => vl s n = Some v /\ exists q, nx s n = Some q /\ stamp q = st
  | Push_tail v n => fresh_node s v n
  | Push_next v n ot => fresh_node s v n /\ snap ot (q_tail s) /\ allocated s (raw_ptr ot)
  | Push_check v n ot otn => fresh_node s v n /\ snap ot (q_tail s) /\ allocated s (raw_ptr ot) /\
      (q_tail s = ot -> (raw_ptr otn <> 0 -> nx s (raw_ptr ot) = Some otn) /\ (raw_ptr otn = 0 -> was_last s ns (raw_ptr ot) otn))
  | Push_link v n ot otn => fresh_node s v n /\ snap ot (q_tail s) /\ raw_ptr otn = 0 /\ was_last s ns (raw_ptr ot) otn
  | Push_help v n ot otn => fresh_node s v n /\ snap ot (q_tail s) /\ raw_ptr otn <> 0 /\ (q_tail s = ot -> nx s (raw_ptr ot) = Some otn)
  | Push_swing v n ot => n <> 0 /\ snap ot (q_tail s) /\ (q_tail s = ot -> exists q, nx s (raw_ptr ot) = Some q /\ raw_ptr q = n)
  | Pop_next ho => snap ho (q_head s) /\ allocated s (raw_ptr ho)
  | Pop_tail ho hn => snap ho (q_head s) /\
      (q_head s = ho -> (raw_ptr hn <> 0 -> nx s (raw_ptr ho) = Some hn) /\ (raw_ptr hn = 0 -> o = Some (ITryPop, RPop None)))
  | Pop_check ho hn t_old => snap ho (q_head s) /\ snap t_old (q_tail s) /\
      (q_head s = ho -> (raw_ptr hn <> 0 -> nx s (raw_ptr ho) = Some hn) /\ (raw_ptr hn = 0 -> o = Some (ITryPop, RPop None)) /\
         (raw_ptr t_old <> raw_ptr ho -> raw_ptr (q_tail s) <> raw_ptr ho))
  | Pop_cas ho hn => snap ho (q_head s) /\ raw_ptr hn <> 0 /\
      (q_head s = ho -> nx s (raw_ptr ho) = Some hn /\ raw_ptr (q_tail s) <> raw_ptr ho)
  | Pop_help hn t_old => raw_ptr hn <> 0 /\ snap t_old (q_tail s) /\ (q_tail s = t_old -> nx s (raw_ptr t_old) = Some hn)
  | Pop_del _ hn taken | Pop_value hn taken => vl s hn = Some taken
  | Pool_top n k | Pool_next n _ k => cont_ok s k
  | Pool_store n ot st k => cont_ok s k /\ 0 <= st /\ exists q, nx s n = Some q /\ (stamp q = st \/ stamp q = st + 1)
  | Pool_cas n ot st k => cont_ok s k /\ 0 <= st /\ nx s n = Some (mkStamped (raw_ptr ot) (st + 1))
  | QCrash _ => False
  | _ => True
  end.

Definition claims_ok (pl : gmap Z qplace) (t : tid) (pc : q_pc) : Prop :=
  forall r b, (exists p, pl !! b = Some p /\ has p r = Some t) <-> claim pc r = Some b.

Record queue_ok (c : config LFQ q_pc) (d : Z) (rest ps : list Z) (pl : gmap Z qplace) (a : list Z) (obs : tid -> option (q_inv * q_res)) : Prop := {
  qk_sh : qsh_ok (sh c) d rest ps pl a;
  qk_claims : forall t, claims_ok pl t (lo c t);
  qk_knows : forall t, knows (sh c) (d :: rest) (obs t) (lo c t);
}.

(** What a step of [t] leaves to the other threads. *)
Record qframe (t : tid) (s : LFQ) (ns : list Z) (pl : gmap Z qplace) (s' : LFQ) (ns' : list Z) (pl' : gmap Z qplace) : Prop := {
  fq_head : snap (q_head s) (q_head s');
  fq_tail : snap (q_tail s) (q_tail s');
  fq_top : snap (q_top s) (q_top s');
  fq_next : forall b q, nx s b = Some q -> exists q', nx s' b = Some q' /\ stamp q <= stamp q' /\
    (list.last ns = Some b -> raw_ptr (q_tail s) = b -> stamp q < stamp q' \/ (q' = q /\ list.last ns' = Some b /\ raw_ptr (q_tail s') = b));
  fq_tail_next : forall q, q_tail s' = q_tail s -> nx s (raw_ptr (q_tail s)) = Some q -> raw_ptr q <> 0 -> nx s' (raw_ptr (q_tail s)) = Some q;
  fq_head_next : forall q, q_head s' = q_head s -> nx s (raw_ptr (q_head s)) = Some q -> raw_ptr q <> 0 -> nx s' (raw_ptr (q_head s)) = Some q;
  fq_head_tail : q_head s' = q_head s -> raw_ptr (q_tail s) <> raw_ptr (q_head s) -> raw_ptr (q_tail s') <> raw_ptr (q_head s);
  fq_top_next : q_top s' = q_top s -> raw_ptr (q_top s) <> 0 -> nx s' (raw_ptr (q_top s)) = nx s (raw_ptr (q_top s));
  fq_claims : forall u r b, u <> t -> (exists p, pl !! b = Some p /\ has p r = Some u) <-> (exists p, pl' !! b = Some p /\ has p r = Some u);
  fq_own : forall u p b, u <> t -> pl !! b = Some p -> has p Fresh = Some u \/ has p Pooling = Some u -> q_heap s' !! b = q_heap s !! b;
  fq_taken : forall u p b, u <> t -> pl !! b = Some p -> has p Taker = Some u -> vl s' b = vl s b;
}.

Lemma snap_refl p : snap p p.
Proof. by right. Qed.
Lemma snap_trans p q r : snap p q -> snap q r -> snap p r.
Proof. unfold snap. intros [H1|H1] [H2|H2]; subst; auto. left. lia. Qed.
(** The pointer is as it was read, now and before. *)
Lemma snap_back p cur cur' : snap p cur -> snap cur cur' -> cur' = p -> cur = p /\ cur' = cur.
Proof. unfold snap. intros [H1|H1] [H2|H2] E; subst; (split; [|done] || split); done || lia. Qed.
#[export] Hint Resolve snap_refl : lfq.

Section knowledge.
Context (t : tid) (s : LFQ) (ns : list Z) (pl : gmap Z qplace) (s' : LFQ) (ns' : list Z) (pl' : gmap Z qplace).
Context (F : qframe t s ns pl s' ns' pl') (u : tid) (Hu : u <> t).

Lemma allocated_frame b : allocated s b -> allocated s' b.
Proof using F Hu.
  intros [nd Hb]. destruct (fq_next _ _ _ _ _ _ _ F b (q_next nd)) as (q' & Hq & _); [unfold nx; by rewrite Hb|].
  unfold nx in Hq. unfold allocated. destruct (q_heap s' !! b); [by eexists|done].
Qed.

Lemma was_last_frame b q : was_last s ns b q -> was_last s' ns' b q.
Proof using F Hu.
  intros (q1 & Hq & H). destruct (fq_next _ _ _ _ _ _ _ F b q1 Hq) as (q2 & Hq2 & Hle & Hlast). exists q2. split; [done|].
  destruct H as [H|(-> & H & Ht)]; [left; lia|]. auto.
Qed.

Lemma q_own_frame pc b r : claims_ok pl u pc -> claim pc r = Some b -> r = Fresh \/ r = Pooling -> q_heap s' !! b = q_heap s !! b.
Proof using F Hu.
  intros Hc Hr Hk. destruct (proj2 (Hc r b) Hr) as (p & Hp & Hh). eapply fq_own; [exact F|exact Hu|exact Hp|]. destruct Hk as [-> | ->]; auto.
Qed.

Lemma taken_frame pc b : claims_ok pl u pc -> claim pc Taker = Some b -> vl s' b = vl s b.
Proof using F Hu. intros Hc Hr. destruct (proj2 (Hc Taker b) Hr) as (p & Hp & Hh). by eapply fq_taken. Qed.

Lemma fresh_frame pc v n : claims_ok pl u pc -> claim pc Fresh = Some n -> fresh_node s v n -> fresh_node s' v n.
Proof using F Hu. intros Hc Hr. unfold fresh_node, vl, nx. rewrite (q_own_frame pc n Fresh) by auto. done. Qed.

Lemma cont_frame pc k : claims_ok pl u pc -> claim pc Taker = cont_takes k -> cont_ok s k -> cont_ok s' k.
Proof using F Hu. intros Hc Hr. destruct k; [|done]. simpl. intros <-. by eapply taken_frame. Qed.

Lemma claims_frame pc : claims_ok pl u pc -> claims_ok pl' u pc.
Proof using F Hu. intros Hc r b. rewrite <- (fq_claims _ _ _ _ _ _ _ F u r b Hu). apply Hc. Qed.

(** A fact about the pointer's target holds as long as the pointer is as it was read. *)
Lemma tail_fact p q : snap p (q_tail s) -> q_tail s' = p -> raw_ptr q <> 0 ->
  (q_tail s = p -> nx s (raw_ptr p) = Some q) -> nx s' (raw_ptr p) = Some q.
Proof using F Hu.
  intros Hp Hs Hq H. destruct (snap_back _ _ _ Hp (fq_tail _ _ _ _ _ _ _ F) Hs) as [<- E].
  eapply fq_tail_next; [exact F|done|auto|done].
Qed.

Lemma head_fact p q : snap p (q_head s) -> q_head s' = p -> raw_ptr q <> 0 ->
  (q_head s = p -> nx s (raw_ptr p) = Some q) -> nx s' (raw_ptr p) = Some q.
Proof using F Hu.
  intros Hp Hs Hq H. destruct (snap_back _ _ _ Hp (fq_head _ _ _ _ _ _ _ F) Hs) as [<- E].
  eapply fq_head_next; [exact F|done|auto|done].
Qed.

Lemma head_tail_fact p : snap p (q_head s) -> q_head s' = p ->
  (q_head s = p -> raw_ptr (q_tail s) <> raw_ptr p) -> raw_ptr (q_tail s') <> raw_ptr p.
Proof using F Hu.
  intros Hp Hs H. destruct (snap_back _ _ _ Hp (fq_head _ _ _ _ _ _ _ F) Hs) as [<- E].
  eapply fq_head_tail; [exact F|done|auto].
Qed.

Lemma knows_frame o pc : claims_ok pl u pc -> knows s ns o pc -> knows s' ns' o pc.
Proof using F Hu.
  intros Hc Hk. pose proof F as [Fh Ft Fp Fn Ftn Fhn Fht Fpn _ _ _].
  pose proof (fun n v => fresh_frame pc v n Hc) as Hfr. pose proof (fun b => q_own_frame pc b) as Hown.
  pose proof (fun k => cont_frame pc k Hc) as Hcont. pose proof (fun b => taken_frame pc b Hc) as Htk.
  assert (Hnx : forall b r, claim pc r = Some b -> r = Fresh \/ r = Pooling -> nx s' b = nx s b /\ vl s' b = vl s b).
  { intros b r Hr Hk'. unfold nx, vl. by rewrite (Hown b r Hc Hr Hk'). }
  destruct pc; simpl in Hk |- *; try done.
  - destruct Hk. eauto using snap_trans, allocated_frame.
  - destruct Hk as (Hs & H0 & Hk). split; [by eapply snap_trans|]. split; [done|]. intros E.
    destruct (snap_back _ _ _ Hs Fp E) as [<- E']. rewrite Fpn; auto.
  - by rewrite (proj2 (Hnx n Fresh eq_refl (or_introl eq_refl))).
  - destruct (Hnx n Fresh eq_refl (or_introl eq_refl)) as [-> ->]. done.
  - by apply Hfr.
  - destruct Hk as (? & ? & ?). split; [by apply Hfr|]. eauto using snap_trans, allocated_frame.
  - destruct Hk as (? & Hs & ? & Hk). split; [by apply Hfr|]. split; [by eapply snap_trans|]. split; [by apply allocated_frame|].
    intros E. destruct (snap_back _ _ _ Hs Ft E) as [E1 E2]. destruct (Hk E1) as [K1 K2].
    split; [|intros; apply was_last_frame; auto]. intros Hn. eapply tail_fact; eauto.
  - destruct Hk as (? & ? & ? & ?). split; [by apply Hfr|]. eauto using snap_trans, was_last_frame.
  - destruct Hk as (? & Hs & ? & Hk). split; [by apply Hfr|]. split; [by eapply snap_trans|]. split; [done|].
    intros E. eapply tail_fact; eauto.
  - destruct Hk as (? & Hs & Hk). split; [done|]. split; [by eapply snap_trans|]. intros E.
    destruct (snap_back _ _ _ Hs Ft E) as [E1 E2]. destruct (Hk E1) as (q & Hq & Hn). exists q. split; [|done].
    eapply tail_fact; eauto. by rewrite Hn.
  - destruct Hk. eauto using snap_trans, allocated_frame.
  - destruct Hk as (Hs & Hk). split; [by eapply snap_trans|]. intros E. destruct (snap_back _ _ _ Hs Fh E) as [E1 E2].
    destruct (Hk E1) as [K1 K2]. split; [|done]. intros Hn. eapply head_fact; eauto.
  - destruct Hk as (Hs & Hs2 & Hk). split; [by eapply snap_trans|]. split; [by eapply snap_trans|]. intros E.
    destruct (snap_back _ _ _ Hs Fh E) as [E1 E2]. destruct (Hk E1) as (K1 & K2 & K3).
    split; [intros Hn; eapply head_fact; eauto|]. split; [done|]. intros Hn. eapply head_tail_fact; eauto.
  - destruct Hk as (Hs & Hn & Hk). split; [by eapply snap_trans|]. split; [done|]. intros E.
    destruct (snap_back _ _ _ Hs Fh E) as [E1 E2]. destruct (Hk E1) as [K1 K2].
    split; [eapply head_fact; eauto|eapply head_tail_fact; eauto].
  - destruct Hk as (Hn & Hs & Hk). split; [done|]. split; [by eapply snap_trans|]. intros E. eapply tail_fact; eauto.
  - by rewrite Htk.
  - by rewrite Htk.
  - by apply Hcont.
  - by apply Hcont.
  - destruct Hk as [Hk1 Hk2]. split; [by apply Hcont|]. by rewrite (proj1 (Hnx n Pooling eq_refl (or_intror eq_refl))).
  - destruct Hk as [Hk1 Hk2]. split; [by apply Hcont|]. by rewrite (proj1 (Hnx n Pooling eq_refl (or_intror eq_refl))).
Qed.
End knowledge.

Lemma queue_ok_step c d rest ps pl a obs t pc' s' d' rest' ps' pl' a' o :
  queue_ok c d rest ps pl a obs -> qsh_ok s' d' rest' ps' pl' a' -> qframe t (sh c) (d :: rest) pl s' (d' :: rest') pl' ->
  claims_ok pl' t pc' -> knows s' (d' :: rest') o pc' ->
  queue_ok (Cfg s' (<[t := pc']> (lo c))) d' rest' ps' pl' a' (<[t := o]> obs).
Proof.
  intros [Hsh Hc Hk] Hsh' F Hc' Hk'. split; simpl; [done|..]; intros u.
  - destruct (decide (u = t)) as [->|Hu]; [by rewrite fn_lookup_insert|]. rewrite fn_lookup_insert_ne by done. by eapply claims_frame.
  - destruct (decide (u = t)) as [->|Hu]; [by rewrite !fn_lookup_insert|]. rewrite !fn_lookup_insert_ne by done. by eapply knows_frame.
Qed.

Lemma qframe_refl t s ns pl : qframe t s ns pl s ns pl.
Proof. split; try done; auto with lfq. intros b q Hq. exists q. split; [done|]. split; [lia|]. auto. Qed.

Lemma claims_same pl t pc pc' : claims_ok pl t pc -> (forall r, claim pc' r = claim pc r) -> claims_ok pl t pc'.
Proof. intros Hc H r b. rewrite H. apply Hc. Qed.

(** The place of one node changes. *)
Lemma claims_insert pl t pc pc' b p' :
  claims_ok pl t pc ->
  (forall r, has p' r = Some t <-> claim pc' r = Some b) ->
  (forall r b', b' <> b -> claim pc' r = Some b' <-> claim pc r = Some b') -> claims_ok (<[b := p']> pl) t pc'.
Proof.
  intros Hc Hb Hne r b'. destruct (decide (b' = b)) as [->|E].
  - rewrite lookup_insert_eq, <- Hb. split; [intros (? & [= <-] & ?); done|eauto].
  - rewrite lookup_insert_ne, Hne by done. apply Hc.
Qed.

Lemma claims_insert_other (pl : gmap Z qplace) t b p' :
  (forall u r, u <> t -> has p' r = Some u <-> exists p, pl !! b = Some p /\ has p r = Some u) ->
  forall u r b', u <> t ->
    (exists p, pl !! b' = Some p /\ has p r = Some u) <-> (exists p, <[b := p']> pl !! b' = Some p /\ has p r = Some u).
Proof.
  intros H u r b' Hu. destruct (decide (b' = b)) as [->|E]; [|by rewrite lookup_insert_ne].
  rewrite lookup_insert_eq, <- H by done. split; [eauto|intros (? & [= <-] & ?); done].
Qed.

Lemma next_stamp_eq b st : 0 <= st < 65535 -> next_stamp b st = mkStamped b (st + 1).
Proof. intros H. unfold next_stamp, sp_norm. simpl. rewrite u64_id, Z.mod_small by lia. done. Qed.

Lemma links_ext s s' p l : (forall b, b ∈ l -> nx s' b = nx s b) -> links s p l -> links s' p l.
Proof.
  revert p. induction l as [|b l IH]; intros p Hn Hl; [done|]. destruct Hl as (-> & H0 & q & Hq & Hl).
  split; [done|]. split; [done|]. exists q. rewrite Hn by set_solver. split; [done|]. apply IH; [|done]. intros. apply Hn. set_solver.
Qed.

Lemma links_split s p l1 b l2 : links s p (l1 ++ b :: l2) -> b <> 0 /\ exists q, nx s b = Some q /\ links s (raw_ptr q) l2.
Proof.
  revert p. induction l1 as [|c l1 IH]; intros p; simpl; [intros (_ & ? & q & ? & ?); eauto|].
  intros (_ & _ & q & _ & Hl). eauto.
Qed.

Lemma links_snoc s s' p l b n q : links s p (l ++ [b]) -> base.NoDup (l ++ [b]) -> n <> 0 ->
  (forall c, c ∈ l -> nx s' c = nx s c) -> nx s' b = Some (mkStamped n q) -> (exists q', nx s' n = Some q' /\ raw_ptr q' = 0) ->
  links s' p (l ++ [b; n]).
Proof.
  intros Hl Hnd Hn Hc Hb (q' & Hq' & H0). revert p Hl. induction l as [|c l IH]; intros p; simpl.
  - intros (-> & ? & _). split; [done|]. split; [done|]. eexists. split; [done|]. simpl. eauto.
  - intros (-> & ? & q1 & Hq1 & Hl). split; [done|]. split; [done|]. exists q1. rewrite Hc by set_solver. split; [done|].
    apply IH; [by inv Hnd|intros; apply Hc; set_solver|done].
Qed.

Lemma links_null s p l : links s p l -> p = 0 <-> l = [].
Proof. destruct l; simpl; [done|]. intros (-> & ? & _). done. Qed.

Lemma values_ext s s' l a : (forall b, b ∈ l -> vl s' b = vl s b) ->
  Forall2 (fun b v => vl s b = Some v) l a -> Forall2 (fun b v => vl s' b = Some v) l a.
Proof. intros H HF. induction HF; constructor; [rewrite H by set_solver; done|]. apply IHHF. intros. apply H. set_solver. Qed.

#[local] Arguments links : simpl never.

(** *** The shared state *)
Section shared.
Context (s : LFQ) (d : Z) (rest ps : list Z) (pl : gmap Z qplace) (a : list Z) (Hs : qsh_ok s d rest ps pl a).

Lemma sh_head : raw_ptr (q_head s) = d /\ d <> 0 /\ exists q, nx s d = Some q /\ links s (raw_ptr q) rest.
Proof using Hs. exact (qs_queue _ _ _ _ _ _ Hs). Qed.

Lemma nx_allocated b q : nx s b = Some q -> allocated s b.
Proof. unfold nx, allocated. destruct (q_heap s !! b); [by eexists|done]. Qed.

Lemma sh_tail_node : raw_ptr (q_tail s) <> 0 /\ exists q, nx s (raw_ptr (q_tail s)) = Some q /\
  (raw_ptr q = 0 -> list.last (d :: rest) = Some (raw_ptr (q_tail s))) /\
  (raw_ptr q <> 0 -> exists pre, d :: rest = pre ++ [raw_ptr (q_tail s); raw_ptr q]).
Proof using Hs.
  destruct (qs_tail _ _ _ _ _ _ Hs) as (pre & post & E & Hl). pose proof (qs_queue _ _ _ _ _ _ Hs) as Hq. rewrite E in Hq.
  destruct (links_split _ _ _ _ _ Hq) as (H0 & q & Hn & Hp). split; [done|]. exists q. split; [done|]. split.
  - intros Hz. apply (proj1 (links_null _ _ _ Hp)) in Hz as ->. rewrite E. by rewrite list.last_app.
  - intros Hz. destruct post as [|c [|c' post]]; [done| |simpl in Hl; lia]. destruct Hp as (-> & _). eauto.
Qed.

Lemma sh_place b p : pl !! b = Some p -> exists nd, q_heap s !! b = Some nd /\ b <> 0.
Proof using Hs.
  intros Hp. destruct (proj2 (qs_dom _ _ _ _ _ _ Hs b)) as [nd Hnd]; [by eexists|]. exists nd. split; [done|].
  intros ->. by rewrite (qs_null _ _ _ _ _ _ Hs) in Hnd.
Qed.

Lemma sh_dummy : exists tk, pl !! d = Some (QDummy tk).
Proof using Hs. by apply (qs_dummy _ _ _ _ _ _ Hs). Qed.

(** A node that a thread owns is neither in the queue nor in the pool. *)
Lemma sh_owned b t : pl !! b = Some (QFresh t) \/ pl !! b = Some (QPooling t) -> b ∉ d :: rest /\ b ∉ ps.
Proof using Hs.
  intros Hp. destruct sh_dummy as [tk Hd]. split.
  - rewrite not_elem_of_cons, <- (qs_linked _ _ _ _ _ _ Hs). split; [intros ->|intros ?]; destruct Hp; congruence.
  - rewrite <- (qs_pooled _ _ _ _ _ _ Hs). intros ?. destruct Hp; congruence.
Qed.

Lemma nx_set_node b nd b' : nx (set_node s b nd) b' = if decide (b' = b) then Some (q_next nd) else nx s b'.
Proof. unfold nx. simpl. case_decide as E; [subst; by rewrite lookup_insert_eq|by rewrite lookup_insert_ne]. Qed.

Lemma vl_set_node b nd b' : vl (set_node s b nd) b' = if decide (b' = b) then q_value nd else vl s b'.
Proof. unfold vl. simpl. case_decide as E; [subst; by rewrite lookup_insert_eq|by rewrite lookup_insert_ne]. Qed.

Lemma dom_set_node b nd (pl' : gmap Z qplace) :
  is_Some (q_heap s !! b) -> (forall b', is_Some (pl' !! b') <-> is_Some (pl !! b')) ->
  forall b', is_Some (q_heap (set_node s b nd) !! b') <-> is_Some (pl' !! b').
Proof using Hs.
  intros Hb Hpl b'. rewrite Hpl, <- (qs_dom _ _ _ _ _ _ Hs). simpl. destruct (decide (b' = b)) as [->|E].
  - rewrite lookup_insert_eq. split; [done|by eexists].
  - by rewrite lookup_insert_ne.
Qed.

Lemma place_insert_dom b p p' b' : pl !! b = Some p -> is_Some (<[b := p']> pl !! b') <-> is_Some (pl !! b').
Proof. intros Hp. destruct (decide (b' = b)) as [->|E]; [rewrite lookup_insert_eq, Hp; split; by eexists|by rewrite lookup_insert_ne]. Qed.

(** A place that is neither the old nor the new one of [b]. *)
Lemma place_insert_other (m : gmap Z qplace) b p p' q b' : m !! b = Some p -> q <> p -> q <> p' -> <[b := p']> m !! b' = Some q <-> m !! b' = Some q.
Proof. intros Hp H1 H2. destruct (decide (b' = b)) as [->|E]; [rewrite lookup_insert_eq, Hp; naive_solver|by rewrite lookup_insert_ne]. Qed.

Lemma dummy_insert b p p' b' : pl !! b = Some p -> (forall tk, QDummy tk <> p) -> (forall tk, QDummy tk <> p') ->
  (exists tk, <[b := p']> pl !! b' = Some (QDummy tk)) <-> b' = d.
Proof using Hs.
  intros Hp H1 H2. rewrite <- (qs_dummy _ _ _ _ _ _ Hs). split; intros [tk H]; exists tk; by apply (place_insert_other pl b p p' _ b').
Qed.

(** The owner of a node changes it. *)
Lemma own_update t b nd nd' :
  pl !! b = Some (QFresh t) \/ pl !! b = Some (QPooling t) -> q_heap s !! b = Some nd ->
  try_del_count nd' = try_del_count nd -> stamp (q_next nd) <= stamp (q_next nd') -> stamp_ok (q_next nd') ->
  qsh_ok (set_node s b nd') d rest ps pl a /\ qframe t s (d :: rest) pl (set_node s b nd') (d :: rest) pl.
Proof using Hs.
  intros Hp Hb Hc Hst Hok. destruct (sh_owned _ _ Hp) as [Hq Hps].
  assert (Hnx : forall b', b' <> b -> nx (set_node s b nd') b' = nx s b') by (intros; rewrite nx_set_node; by case_decide).
  assert (Hvl : forall b', b' <> b -> vl (set_node s b nd') b' = vl s b') by (intros; rewrite vl_set_node; by case_decide).
  destruct Hs as [H0 Hd Hqu Hv Ht Hpo Hnd Hndp Hdu Hli Hpl Hco Hstp]. split; split; simpl; try done; auto with lfq.
  - rewrite lookup_insert_ne; [done|]. intros ->. congruence.
  - apply dom_set_node; [by eexists|done].
  - apply (links_ext s); [|done]. intros c Hc'. apply Hnx. set_solver.
  - apply (values_ext s); [|done]. intros c Hc'. apply Hvl. set_solver.
  - apply (links_ext s); [|done]. intros c Hc'. apply Hnx. set_solver.
  - intros b' p' nd1 Hp'. destruct (decide (b' = b)) as [->|E].
    + rewrite lookup_insert_eq. intros [= <-]. rewrite Hc. by apply (Hco b p' nd).
    + rewrite lookup_insert_ne by done. by apply Hco.
  - destruct Hstp as (? & ? & ? & Hn). split_and!; try done. intros b' q. rewrite nx_set_node. case_decide; [by intros [= <-]|apply Hn].
  - intros b' q Hq'. destruct (decide (b' = b)) as [->|E].
    + rewrite nx_set_node, decide_True by done. unfold nx in Hq'. rewrite Hb in Hq'. simpl in Hq'. simplify_eq.
      eexists. split; [done|]. split; [done|]. intros Hl. destruct Hq. by apply last_Some_elem_of.
    + rewrite Hnx by done. exists q. split; [done|]. split; [lia|]. auto.
  - intros q _ Hq' _. rewrite Hnx; [done|]. intros E. destruct Ht as (pre & post & Ht & _). apply Hq. rewrite Ht. set_solver.
  - intros q _ Hq' _. destruct Hqu as (E & _). rewrite Hnx; [done|]. rewrite E. set_solver.
  - intros _ Hn. destruct ps as [|c ps']; [done|]. destruct Hpo as (E & _). rewrite Hnx; [done|]. rewrite E. set_solver.
  - intros u p' b' Hu Hp' Hh. destruct (decide (b' = b)) as [->|E]; [|by rewrite lookup_insert_ne].
    exfalso. destruct Hp as [Hp|Hp]; rewrite Hp in Hp'; simplify_eq; simpl in Hh; destruct Hh; simplify_eq.
  - intros u p' b' Hu Hp' Hh. apply Hvl. intros ->. destruct Hp as [Hp|Hp]; rewrite Hp in Hp'; by simplify_eq.
Qed.

(** A new node. *)
Lemma alloc_update t b v : q_heap s !! b = None -> b <> 0 ->
  let s' := set_node s b (mkQNode (Some v) (mkStamped 0 0) 0) in
  qsh_ok s' d rest ps (<[b := QFresh t]> pl) a /\ qframe t s (d :: rest) pl s' (d :: rest) (<[b := QFresh t]> pl).
Proof using Hs.
  intros Hb Hb0 s'. assert (Hpb : pl !! b = None).
  { destruct (pl !! b) eqn:E; [|done]. destruct (sh_place _ _ E) as (nd & ? & _). congruence. }
  assert (Hnx : forall b' q, nx s b' = Some q -> nx s' b' = Some q).
  { intros b' q Hq. unfold s'. rewrite nx_set_node. case_decide; [subst; unfold nx in Hq; by rewrite Hb in Hq|done]. }
  assert (Hvl : forall b' q, vl s b' = Some q -> vl s' b' = Some q).
  { intros b' q Hq. unfold s'. rewrite vl_set_node. case_decide; [subst; unfold vl in Hq; by rewrite Hb in Hq|done]. }
  assert (Hlinks : forall p l, links s p l -> links s' p l).
  { intros p l. revert p. induction l as [|c l IH]; intros p; [done|]. intros (-> & ? & q & ? & ?). split; [done|]. split; [done|]. eauto. }
  assert (Hother : forall b' q, q <> QFresh t -> <[b := QFresh t]> pl !! b' = Some q <-> pl !! b' = Some q).
  { intros b' q Hq. destruct (decide (b' = b)) as [->|]; [rewrite lookup_insert_eq, Hpb; naive_solver|by rewrite lookup_insert_ne]. }
  destruct Hs as [H0 Hd Hqu Hv Ht Hpo Hnd Hndp Hdu Hli Hpl Hco Hstp]. split; split; simpl; try done; auto with lfq.
  - by rewrite lookup_insert_ne.
  - intros b'. destruct (decide (b' = b)) as [->|]; [rewrite !lookup_insert_eq; split; by eexists|by rewrite !lookup_insert_ne].
  - eapply Forall2_impl; [|exact Hv]. auto.
  - intros b'. rewrite <- Hdu. split; intros [tk H]; exists tk; by apply (Hother b').
  - intros b'. rewrite <- Hli. by apply Hother.
  - intros b'. rewrite <- Hpl. by apply Hother.
  - intros b' p nd. destruct (decide (b' = b)) as [->|]; [rewrite !lookup_insert_eq; by intros [= <-] [= <-]|rewrite !lookup_insert_ne by done; apply Hco].
  - destruct Hstp as (? & ? & ? & Hn). split_and!; try done. intros b' q. unfold s'. rewrite nx_set_node.
    case_decide; [intros [= <-]; unfold stamp_ok; simpl; lia|apply Hn].
  - intros b' q Hq. exists q. split; [auto|]. split; [lia|]. auto.
  - intros _ Hn. destruct ps as [|c ps']; [done|]. destruct Hpo as (E & _ & q & Hq & _). rewrite E, Hq. auto.
  - apply claims_insert_other. intros u r Hu. rewrite Hpb. clear -Hu; destruct r; simpl; naive_solver.
  - intros u p b' _ Hp _. rewrite lookup_insert_ne; [done|]. intros ->. congruence.
  - intros u p b' _ Hp _. destruct (vl s b') eqn:E; [auto|]. unfold s'. rewrite vl_set_node. case_decide; [congruence|done].
Qed.

(** A node leaves the pool. *)
Lemma pool_pop_update t b q : raw_ptr (q_top s) = b -> b <> 0 -> nx s b = Some q -> stamp (q_top s) < 65535 ->
  let s' := set_top s (next_stamp (raw_ptr q) (stamp (q_top s))) in
  exists ps', qsh_ok s' d rest ps' (<[b := QFresh t]> pl) a /\ qframe t s (d :: rest) pl s' (d :: rest) (<[b := QFresh t]> pl) /\
    pl !! b = Some QPool.
Proof using Hs.
  intros Htop Hb0 Hq Hst s'. pose proof dummy_insert as Hdi. pose proof (qs_stamps _ _ _ _ _ _ Hs) as (_ & _ & [Hst0 _] & _).
  destruct Hs as [H0 Hd Hqu Hv Ht Hpo Hnd Hndp Hdu Hli Hpl Hco Hstp]. rewrite Htop in Hpo.
  destruct ps as [|c ps']; [done|]. destruct Hpo as (<- & _ & q' & Hq' & Hpo). rewrite Hq in Hq'. simplify_eq.
  assert (Hpb : pl !! raw_ptr (q_top s) = Some QPool) by (apply Hpl; set_solver).
  unfold s'. rewrite next_stamp_eq by lia. exists ps'. split; [|split; [|done]]; split; simpl; try done; auto with lfq.
  - intros b'. rewrite Hd. symmetry. by eapply place_insert_dom.
  - by apply (links_ext s).
  - by apply (links_ext s).
  - by inv Hndp.
  - intros b'. by eapply Hdi.
  - intros b'. rewrite <- Hli. by eapply place_insert_other.
  - intros b'. destruct (decide (b' = raw_ptr (q_top s))) as [->|E].
    + rewrite lookup_insert_eq. inv Hndp. naive_solver.
    + rewrite lookup_insert_ne, Hpl by done. set_solver.
  - intros b' p nd. destruct (decide (b' = raw_ptr (q_top s))) as [->|E]; [rewrite lookup_insert_eq|rewrite lookup_insert_ne by done; apply Hco].
    intros [= <-] Hn. destruct (Hco _ _ _ Hpb Hn). done.
  - destruct Hstp as (? & ? & ? & Hn). split_and!; try done. unfold stamp_ok. simpl. lia.
  - left. simpl. lia.
  - intros b' q0 Hq0. exists q0. split; [done|]. split; [lia|]. auto.
  - apply claims_insert_other. intros u r Hu. rewrite Hpb. clear -Hu; destruct r; simpl; naive_solver.
Qed.

(** A node goes to the pool. *)
Lemma pool_push_update t n st : pl !! n = Some (QPooling t) -> nx s n = Some (mkStamped (raw_ptr (q_top s)) st) -> stamp (q_top s) < 65535 ->
  let s' := set_top s (next_stamp n (stamp (q_top s))) in
  qsh_ok s' d rest (n :: ps) (<[n := QPool]> pl) a /\ qframe t s (d :: rest) pl s' (d :: rest) (<[n := QPool]> pl).
Proof using Hs.
  intros Hn Hq Hst s'. pose proof (qs_stamps _ _ _ _ _ _ Hs) as (_ & _ & [Hst0 _] & _).
  destruct (sh_owned n t (or_intror Hn)) as [_ Hnps]. destruct (sh_place _ _ Hn) as (nd0 & _ & Hn0).
  destruct Hs as [H0 Hd Hqu Hv Ht Hpo Hnd Hndp Hdu Hli Hpl Hco Hstp].
  unfold s'. rewrite next_stamp_eq by lia. split; split; simpl; try done; auto with lfq.
  - intros b'. rewrite Hd. symmetry. by eapply place_insert_dom.
  - by apply (links_ext s).
  - split; [done|]. split; [done|]. eexists. split; [done|]. by apply (links_ext s).
  - by constructor.
  - intros b'. by eapply dummy_insert.
  - intros b'. rewrite <- Hli. by eapply place_insert_other.
  - intros b'. destruct (decide (b' = n)) as [->|E].
    + rewrite lookup_insert_eq. set_solver.
    + rewrite lookup_insert_ne, Hpl by done. set_solver.
  - intros b' p nd. destruct (decide (b' = n)) as [->|E]; [rewrite lookup_insert_eq|rewrite lookup_insert_ne by done; apply Hco].
    intros [= <-] Hn'. destruct (Hco _ _ _ Hn Hn'). done.
  - destruct Hstp as (? & ? & ? & Hx). split_and!; try done. unfold stamp_ok. simpl. lia.
  - left. simpl. lia.
  - intros b' q0 Hq0. exists q0. split; [done|]. split; [lia|]. auto.
  - apply claims_insert_other. intros u r Hu. rewrite Hn. clear -Hu; destruct r; simpl; naive_solver.
Qed.

(** The tail moves on to the last node. *)
Lemma q_tail_update t q : nx s (raw_ptr (q_tail s)) = Some q -> raw_ptr q <> 0 -> stamp (q_tail s) < 65535 ->
  let s' := set_tail s (next_stamp (raw_ptr q) (stamp (q_tail s))) in
  qsh_ok s' d rest ps pl a /\ qframe t s (d :: rest) pl s' (d :: rest) pl.
Proof using Hs.
  intros Hq Hq0 Hst s'. pose proof (qs_stamps _ _ _ _ _ _ Hs) as (_ & [Hst0 _] & _).
  destruct sh_tail_node as (_ & q' & Hq' & _ & Hnext). rewrite Hq in Hq'. simplify_eq. destruct (Hnext Hq0) as [pre E].
  destruct Hs as [H0 Hd Hqu Hv Ht Hpo Hnd Hndp Hdu Hli Hpl Hco Hstp].
  unfold s'. rewrite next_stamp_eq by lia. split; split; simpl; try done; auto with lfq.
  - by apply (links_ext s).
  - exists (pre ++ [raw_ptr (q_tail s)]), []. split; [|simpl; lia]. rewrite E. by rewrite <- app_assoc.
  - by apply (links_ext s).
  - destruct Hstp as (? & ? & ? & Hx). split_and!; try done. unfold stamp_ok. simpl. lia.
  - left. simpl. lia.
  - intros b' q0 H. exists q0. split; [done|]. split; [lia|]. intros Hl Hb. rewrite E, list.last_app in Hl. simplify_eq/=.
    rewrite E in Hnd. apply list.NoDup_app in Hnd as (_ & _ & Hnd). apply list.NoDup_cons in Hnd as [Hnd _]. set_solver.
  - intros _ _. destruct Hqu as (Eh & _). rewrite Eh. intros Ed. rewrite E in Hnd. destruct pre as [|c pre]; simplify_eq/=.
    + apply list.NoDup_cons in Hnd as [Hnd _]. set_solver.
    + apply list.NoDup_cons in Hnd as [Hnd _]. set_solver.
Qed.

(** The first node is unlinked, the next becomes the first. *)
Lemma head_update t q : nx s (raw_ptr (q_head s)) = Some q -> raw_ptr q <> 0 -> raw_ptr (q_tail s) <> raw_ptr (q_head s) ->
  stamp (q_head s) < 65535 ->
  let s' := set_head s (next_stamp (raw_ptr q) (stamp (q_head s))) in
  exists rest' v a' tk, rest = raw_ptr q :: rest' /\ a = v :: a' /\ vl s (raw_ptr q) = Some v /\ pl !! d = Some (QDummy tk) /\
    let pl' := <[raw_ptr q := QDummy (Some t)]> (<[d := QGone tk (Some t)]> pl) in
    qsh_ok s' (raw_ptr q) rest' ps pl' a' /\ qframe t s (d :: rest) pl s' (raw_ptr q :: rest') pl'.
Proof using Hs.
  intros Hq Hq0 Htl Hst s'. destruct sh_dummy as [tk Htk]. pose proof (qs_stamps _ _ _ _ _ _ Hs) as ([Hst0 _] & _).
  destruct sh_head as (Hh & Hd0 & q' & Hq' & Hl). rewrite Hh in Hq, Htl. rewrite Hq in Hq'. symmetry in Hq'. simplify_eq.
  destruct Hs as [H0 Hd Hqu Hv Ht Hpo Hnd Hndp Hdu Hli Hpl Hco Hstp]. destruct rest as [|n rest']; [done|].
  destruct Hl as (<- & _ & Hl). destruct a as [|v a']; [by inv Hv|]. inv Hv.
  exists rest', v, a', tk. split; [done|]. split; [done|]. split; [done|]. split; [done|]. set (n := raw_ptr q) in *. intros pl'.
  assert (Hpn : pl !! n = Some QLinked) by (apply Hli; set_solver).
  assert (Hne : n <> raw_ptr (q_head s)) by (apply list.NoDup_cons in Hnd as [Hnd _]; set_solver).
  set (d := raw_ptr (q_head s)) in *.
  assert (Hpn' : <[d := QGone tk (Some t)]> pl !! n = Some QLinked) by (by rewrite lookup_insert_ne).
  unfold s'. rewrite next_stamp_eq by lia.
  assert (Hdom : forall b', is_Some (pl' !! b') <-> is_Some (pl !! b')).
  { intros b'. unfold pl'. destruct (decide (b' = n)) as [->|E1]; [rewrite lookup_insert_eq, Hpn; split; by eexists|].
    rewrite lookup_insert_ne by done. destruct (decide (b' = d)) as [->|E2]; [rewrite lookup_insert_eq, Htk; split; by eexists|].
    by rewrite lookup_insert_ne. }
  split; split; simpl; try done; auto with lfq.
  - intros b'. by rewrite Hd, Hdom.
  - split; [done|]. split; [done|]. destruct Hl as (q1 & Hq1 & Hl). exists q1. split; [done|]. by apply (links_ext s).
  - destruct Ht as ([|c pre] & post & E & Hlen); simplify_eq/=. by exists pre, post.
  - by apply (links_ext s).
  - by apply list.NoDup_cons in Hnd as [_ Hnd].
  - intros b'. unfold pl'. destruct (decide (b' = n)) as [->|E1]; [rewrite lookup_insert_eq; naive_solver|].
    rewrite lookup_insert_ne by done. destruct (decide (b' = d)) as [->|E2]; [rewrite lookup_insert_eq; naive_solver|].
    rewrite lookup_insert_ne, Hdu by done. naive_solver.
  - intros b'. unfold pl'. apply list.NoDup_cons in Hnd as [Hd1 Hnd]. apply list.NoDup_cons in Hnd as [Hn1 _].
    destruct (decide (b' = n)) as [->|E1]; [rewrite lookup_insert_eq; split; [done|]; set_solver|].
    rewrite lookup_insert_ne by done. destruct (decide (b' = d)) as [->|E2]; [rewrite lookup_insert_eq; split; [done|]; set_solver|].
    rewrite lookup_insert_ne, Hli by done. set_solver.
  - intros b'. unfold pl'. rewrite (place_insert_other _ _ QLinked) by done. rewrite (place_insert_other _ _ (QDummy tk)) by done. apply Hpl.
  - intros b' p nd. unfold pl'. destruct (decide (b' = n)) as [->|E1].
    { rewrite lookup_insert_eq. intros [= <-] Hb'. destruct (Hco _ _ _ Hpn Hb'). done. }
    rewrite lookup_insert_ne by done. destruct (decide (b' = d)) as [->|E2]; [|rewrite lookup_insert_ne by done; apply Hco].
    rewrite lookup_insert_eq. intros [= <-] Hb'. destruct (Hco _ _ _ Htk Hb'). destruct tk; done.
  - destruct Hstp as (? & ? & ? & Hx). split_and!; try done. unfold stamp_ok. simpl. lia.
  - left. simpl. lia.
  - intros b' q0 Hq1. exists q0. split; [done|]. split; [lia|]. auto.
  - intros u r b' Hu. unfold pl'. rewrite <- (claims_insert_other (<[d := QGone tk (Some t)]> pl) t n) by
      (try done; intros u' r' Hu'; rewrite Hpn'; clear -Hu'; destruct r'; simpl; naive_solver).
    apply (claims_insert_other pl t d); [|done]. intros u' r' Hu'. rewrite Htk. clear -Hu'; destruct r'; simpl; naive_solver.
Qed.

(** A new node is linked behind the last one. *)
Lemma link_update t b nd n v : list.last (d :: rest) = Some b -> raw_ptr (q_tail s) = b -> q_heap s !! b = Some nd ->
  pl !! n = Some (QFresh t) -> fresh_node s v n -> stamp (q_next nd) < 65535 ->
  let s' := set_node s b (with_next nd (next_stamp n (stamp (q_next nd)))) in
  qsh_ok s' d (rest ++ [n]) ps (<[n := QLinked]> pl) (a ++ [v]) /\
  qframe t s (d :: rest) pl s' (d :: rest ++ [n]) (<[n := QLinked]> pl) /\ raw_ptr (q_next nd) = 0.
Proof using Hs.
  intros Hlast Htl Hb Hn [Hv (qn & Hqn & Hqn0)] Hst s'. destruct (sh_owned n t (or_introl Hn)) as [Hnq Hnps].
  destruct (sh_place _ _ Hn) as (_ & _ & Hn0). apply last_Some in Hlast as [l El].
  assert (Hnb : nx s b = Some (q_next nd)) by (unfold nx; by rewrite Hb).
  assert (Hb0 : raw_ptr (q_next nd) = 0).
  { pose proof (qs_queue _ _ _ _ _ _ Hs) as Hq. rewrite El in Hq. destruct (links_split _ _ _ _ _ Hq) as (_ & q & Hq' & Hz).
    rewrite Hnb in Hq'. by simplify_eq. }
  assert (Hbq : b ∈ d :: rest) by (rewrite El; set_solver). assert (Hnb' : n <> b) by (intros ->; done).
  assert (Hbps : b ∉ ps).
  { rewrite <- (qs_pooled _ _ _ _ _ _ Hs). intros Hbp. apply elem_of_cons in Hbq as [->|Hbq].
    - destruct sh_dummy. congruence.
    - apply (qs_linked _ _ _ _ _ _ Hs) in Hbq. congruence. }
  pose proof (proj2 (proj2 (proj2 (qs_stamps _ _ _ _ _ _ Hs))) b _ Hnb) as [Hst0 _].
  unfold s'. rewrite next_stamp_eq by lia. set (nd' := with_next nd _). clear s'. set (s' := set_node s b nd').
  assert (Hnx : forall b', b' <> b -> nx s' b' = nx s b') by (intros; unfold s'; rewrite nx_set_node; by case_decide).
  assert (Hnxb : nx s' b = Some (mkStamped n (stamp (q_next nd) + 1))) by (unfold s'; rewrite nx_set_node; by case_decide).
  assert (Hvl : forall b', vl s' b' = vl s b').
  { intros b'. unfold s'. rewrite vl_set_node. case_decide; [|done]. subst. unfold vl. by rewrite Hb. }
  pose proof (dom_set_node b nd') as Hdom. pose proof dummy_insert as Hdi. pose proof sh_dummy as [tk Htk].
  assert (Hbown : forall u, pl !! b <> Some (QFresh u) /\ pl !! b <> Some (QPooling u)).
  { intros u. split; intros E; destruct (sh_owned b u); auto. }
  destruct Hs as [H0 Hd Hqu Hvs Ht Hpo Hnd Hndp Hdu Hli Hpl Hco Hstp]. split; [|split; [|done]]; split; simpl; try done; auto with lfq.
  - rewrite lookup_insert_ne; [done|]. intros ->. congruence.
  - apply Hdom; [by eexists|]. intros b'. by eapply place_insert_dom.
  - change (d :: rest ++ [n]) with ((d :: rest) ++ [n]). rewrite El, <- app_assoc. simpl.
    rewrite El in Hqu, Hnd. eapply links_snoc; try done; [|exists qn; by rewrite Hnx].
    intros c Hc. apply Hnx. intros ->. apply list.NoDup_app in Hnd as (_ & Hnd & _). by apply (Hnd b Hc), list_elem_of_singleton.
  - apply Forall2_app; [apply (values_ext s); auto|]. constructor; [by rewrite Hvl|constructor].
  - destruct Ht as (pre & post & E & Hlen). rewrite Htl in E. exists pre, (post ++ [n]). rewrite Htl.
    change (d :: rest ++ [n]) with ((d :: rest) ++ [n]). split; [rewrite E; by rewrite <- app_assoc|].
    assert (post = []) as ->; [|simpl; lia]. destruct post as [|c [|? ?]]; [done| |simpl in Hlen; lia]. exfalso.
    rewrite E in El. change (pre ++ [b; c]) with (pre ++ [b] ++ [c]) in El. rewrite app_assoc in El. apply app_inj_tail in El as [_ ->].
    rewrite E in Hnd. apply list.NoDup_app in Hnd as (_ & _ & Hnd). apply list.NoDup_cons in Hnd as [Hnd _]. set_solver.
  - apply (links_ext s); [|done]. intros c Hc. apply Hnx. intros ->. done.
  - change (d :: rest ++ [n]) with ((d :: rest) ++ [n]). apply list.NoDup_app. split; [done|]. split; [|apply NoDup_singleton].
    intros c Hc ->%list_elem_of_singleton. done.
  - intros b'. by eapply Hdi.
  - intros b'. destruct (decide (b' = n)) as [->|E]; [rewrite lookup_insert_eq; set_solver|].
    rewrite lookup_insert_ne, Hli, elem_of_app, list_elem_of_singleton by done. naive_solver.
  - intros b'. rewrite <- Hpl. by eapply place_insert_other.
  - intros b' p nd1 Hp' Hn1. assert (exists nd2, q_heap s !! b' = Some nd2 /\ try_del_count nd1 = try_del_count nd2) as (nd2 & Hn2 & ->).
    { destruct (decide (b' = b)) as [->|E]; [rewrite lookup_insert_eq in Hn1; simplify_eq; by exists nd|rewrite lookup_insert_ne in Hn1 by done; eauto]. }
    destruct (decide (b' = n)) as [->|E]; [rewrite lookup_insert_eq in Hp'|rewrite lookup_insert_ne in Hp' by done; by eapply Hco].
    simplify_eq. destruct (Hco _ _ _ Hn Hn2). done.
  - destruct Hstp as (? & ? & ? & Hx). split_and!; try done. intros b' q. destruct (decide (b' = b)) as [->|E].
    + rewrite Hnxb. intros [= <-]. unfold stamp_ok. simpl. lia.
    + rewrite Hnx by done. apply Hx.
  - intros b' q Hq. destruct (decide (b' = b)) as [->|E].
    + rewrite Hnb in Hq. simplify_eq. eexists. split; [done|]. simpl. split; [lia|]. left. lia.
    + rewrite Hnx by done. exists q. split; [done|]. split; [lia|]. rewrite El, list.last_app. intros [= ->]. done.
  - intros q _ Hq Hq0. rewrite Htl in *. rewrite Hnb in Hq. simplify_eq.
  - intros q _ Hq Hq0. rewrite Hnx; [done|]. intros E. rewrite E, Hnb in Hq. simplify_eq.
  - intros _ Hz. rewrite Hnx; [done|]. intros E. destruct ps as [|c ps']; [done|]. destruct Hpo as (E' & _). set_solver.
  - apply claims_insert_other. intros u r Hu. rewrite Hn. clear -Hu; destruct r; simpl; naive_solver.
  - intros u p b' Hu Hp' Hh. rewrite lookup_insert_ne; [done|]. intros <-. destruct (Hbown u). destruct p; simpl in Hh; destruct Hh; simplify_eq; congruence.
Qed.

(** A thread counts that it is done with a node. *)
Lemma count_update t b nd p p' : q_heap s !! b = Some nd -> pl !! b = Some p -> parity p' = 1 - parity p -> p' <> QGone None None ->
  (exists tk, p = QDummy tk /\ exists tk', p' = QDummy tk') \/ (exists tk un, p = QGone tk un) /\ ((exists tk un, p' = QGone tk un) \/ p' = QPooling t) ->
  (forall u r, u <> t -> has p' r = Some u <-> has p r = Some u) ->
  let s' := set_node s b (with_count nd (u64 (try_del_count nd + 1))) in
  qsh_ok s' d rest ps (<[b := p']> pl) a /\ qframe t s (d :: rest) pl s' (d :: rest) (<[b := p']> pl).
Proof using Hs.
  intros Hb Hp Hpar Hgone Hkind Hoth s'.
  assert (Hnx : forall b', nx s' b' = nx s b').
  { intros b'. unfold s'. rewrite nx_set_node. case_decide; [|done]. subst. unfold nx. by rewrite Hb. }
  assert (Hvl : forall b', vl s' b' = vl s b').
  { intros b'. unfold s'. rewrite vl_set_node. case_decide; [|done]. subst. unfold vl. by rewrite Hb. }
  assert (Hne : QLinked <> p /\ QLinked <> p' /\ QPool <> p /\ QPool <> p').
  { destruct Hkind as [(? & -> & ? & ->)|[(? & ? & ->) [(? & ? & ->)| ->]]]; done. }
  destruct Hne as (N1 & N2 & N3 & N4). pose proof (dom_set_node b (with_count nd (u64 (try_del_count nd + 1)))) as Hdom.
  destruct Hs as [H0 Hd Hqu Hvs Ht Hpo Hnd Hndp Hdu Hli Hpl Hco Hstp]. split; split; simpl; try done; auto with lfq.
  - rewrite lookup_insert_ne; [done|]. intros ->. congruence.
  - apply Hdom; [by eexists|]. intros b'. by eapply place_insert_dom.
  - by apply (links_ext s).
  - apply (values_ext s); auto.
  - by apply (links_ext s).
  - intros b'. rewrite <- Hdu. destruct (decide (b' = b)) as [->|E]; [|by rewrite lookup_insert_ne].
    rewrite lookup_insert_eq, Hp. destruct Hkind as [(? & -> & ? & ->)|[(? & ? & ->) [(? & ? & ->)| ->]]]; naive_solver.
  - intros b'. rewrite <- Hli. by eapply place_insert_other.
  - intros b'. rewrite <- Hpl. by eapply place_insert_other.
  - intros b' q nd1. destruct (decide (b' = b)) as [->|E]; [|rewrite !lookup_insert_ne by done; apply Hco].
    rewrite !lookup_insert_eq. intros [= <-] [= <-]. split; [|done]. simpl. rewrite Hpar. destruct (Hco _ _ _ Hp Hb) as [<- _].
    rewrite u64_unfold. Z.to_euclidean_division_equations. lia.
  - destruct Hstp as (? & ? & ? & Hx). split_and!; try done. intros b' q. rewrite Hnx. apply Hx.
  - intros b' q Hq. rewrite Hnx. exists q. split; [done|]. split; [lia|]. auto.
  - intros q _ Hq _. by rewrite Hnx.
  - intros q _ Hq _. by rewrite Hnx.
  - apply claims_insert_other. intros u r Hu. rewrite Hp, Hoth by done. clear; naive_solver.
  - intros u q b' Hu Hq Hh. rewrite lookup_insert_ne; [done|]. intros <-. rewrite Hp in Hq. simplify_eq.
    destruct Hkind as [(? & -> & _)|[(? & ? & ->) _]]; simpl in Hh; destruct Hh; done.
Qed.
End shared.

(** ** The steps *)

Definition cont_status (k : q_cont) : status q_inv q_res :=
  match k with
  | ThenValue _ taken => Committed ITryPop (RPop (Some taken))
  | ThenReturn val => Committed ITryPop (RPop val)
  end.

Definition q_status (pc : q_pc) : status q_inv q_res :=
  match pc with
  | QIdle => Idle
  | New_top v | New_next v _ | New_cas v _ _ | New_value v _ | New_next_load v _ | New_next_store v _ _ | New_alloc v
  | Push_tail v _ | Push_next v _ _ | Push_check v _ _ _ | Push_link v _ _ _ | Push_help v _ _ _ => Pending (IPush v)
  | Push_swing v _ _ => Committed (IPush v) RPushed
  | Pop_head | Pop_next _ | Pop_tail _ _ | Pop_check _ _ _ | Pop_cas _ _ | Pop_help _ _ => Pending ITryPop
  | Pop_del _ _ taken | Pop_value _ taken => Committed ITryPop (RPop (Some taken))
  | Pop_del2 _ val => Committed ITryPop (RPop val)
  | Pool_top _ k | Pool_next _ _ k | Pool_store _ _ _ k | Pool_cas _ _ _ k => cont_status k
  | QRet i r => Committed i r
  | QCrash i => Pending i
  end.

(** No stamp has its last value. *)
Definition stamps_low (s : LFQ) : Prop :=
  stamp (q_head s) < 65535 /\ stamp (q_tail s) < 65535 /\ stamp (q_top s) < 65535 /\
  forall b nd, q_heap s !! b = Some nd -> stamp (q_next nd) < 65535.

Definition queue_client (t : tid) (x : q_act) (c : config LFQ q_pc) : Prop := stamps_low (sh c).

Definition q_advances (c : config LFQ q_pc) (a : list Z) (obs : tid -> option (q_inv * q_res)) (t : tid) (pc' : q_pc) (s' : LFQ) (es : list q_event) : Prop :=
  exists a' o, (exists d rest ps pl, queue_ok (Cfg s' (<[t := pc']> (lo c))) d rest ps pl a' (<[t := o]> obs)) /\
    legal fifo_spec a (lin_ops es) a' /\
    (forall i r, o = Some (i, r) -> fifo_step a' i r a' \/ (obs t = Some (i, r) /\ es = [])) /\
    (status_steps (q_status (lo c t)) es (q_status pc') \/
     exists i r, obs t = Some (i, r) /\ q_status (lo c t) = Pending i /\ o = None /\ status_steps (Committed i r) es (q_status pc')).

Section steps.
Context (c : config LFQ q_pc) (d : Z) (rest ps : list Z) (pl : gmap Z qplace) (a : list Z) (obs : tid -> option (q_inv * q_res)).
Context (Hok : queue_ok c d rest ps pl a obs) (t : tid) (Hlow : stamps_low (sh c)).
Abbreviation s := (sh c).
Abbreviation pc := (lo c t).

Lemma my_sh : qsh_ok s d rest ps pl a.
Proof using Hok. apply Hok. Qed.
Lemma my_claims : claims_ok pl t pc.
Proof using Hok. apply Hok. Qed.
Lemma my_knows : knows s (d :: rest) (obs t) pc.
Proof using Hok. apply Hok. Qed.

(** The node that a thread uses in some role. *)
Lemma my_node r b : claim pc r = Some b -> exists p nd, pl !! b = Some p /\ has p r = Some t /\ q_heap s !! b = Some nd /\ b <> 0.
Proof using Hok.
  intros Hr. destruct (proj2 (my_claims r b) Hr) as (p & Hp & Hh). destruct (sh_place _ _ _ _ _ _ my_sh b p Hp) as (nd & ? & ?). eauto 10.
Qed.

(** A step that shows nothing. *)
Lemma advance pc' s' d' rest' ps' pl' :
  qsh_ok s' d' rest' ps' pl' a -> qframe t s (d :: rest) pl s' (d' :: rest') pl' -> claims_ok pl' t pc' -> knows s' (d' :: rest') None pc' ->
  q_status pc' = q_status pc -> q_advances c a obs t pc' s' [].
Proof using Hok.
  intros Hsh F Hc Hk Hst. exists a, None. split; [|split; [constructor|split; [done|left; rewrite Hst; constructor]]].
  exists d', rest', ps', pl'. by eapply queue_ok_step.
Qed.

(** A step on the thread's locals. *)
Lemma advance_local pc' :
  (forall r, claim pc' r = claim pc r) -> knows s (d :: rest) None pc' -> q_status pc' = q_status pc -> q_advances c a obs t pc' s [].
Proof using Hok.
  intros Hc Hk Hst. eapply advance; eauto using my_sh, qframe_refl. by eapply claims_same, Hc; apply my_claims.
Qed.

(** The same, keeping or making an observation. *)
Lemma advance_observe pc' i r :
  (forall r, claim pc' r = claim pc r) -> knows s (d :: rest) (Some (i, r)) pc' -> q_status pc' = q_status pc ->
  fifo_step a i r a \/ obs t = Some (i, r) -> q_advances c a obs t pc' s [].
Proof using Hok.
  intros Hc Hk Hst Hobs. exists a, (Some (i, r)). split; [|split; [constructor|split; [|left; rewrite Hst; constructor]]].
  - exists d, rest, ps, pl. eapply queue_ok_step; eauto using my_sh, qframe_refl. by eapply claims_same, Hc; apply my_claims.
  - intros i' r' [= <- <-]. naive_solver.
Qed.

Lemma top_node : raw_ptr (q_top s) <> 0 -> exists q, nx s (raw_ptr (q_top s)) = Some q.
Proof using Hok.
  intros H0. pose proof (qs_pool _ _ _ _ _ _ my_sh) as Hp. destruct ps as [|b ps']; [done|]. destruct Hp as (-> & _ & q & Hq & _). eauto.
Qed.

Lemma allocated_ne b : allocated s b -> b <> 0.
Proof using Hok. intros [nd Hb] ->. by rewrite (qs_null _ _ _ _ _ _ my_sh) in Hb. Qed.

Lemma nx_heap b nd : q_heap s !! b = Some nd -> nx s b = Some (q_next nd).
Proof. intros H. unfold nx. by rewrite H. Qed.

Lemma vl_heap b nd : q_heap s !! b = Some nd -> vl s b = q_value nd.
Proof. intros H. unfold vl. by rewrite H. Qed.

Lemma next_range b nd : q_heap s !! b = Some nd -> 0 <= stamp (q_next nd) < 65535.
Proof using Hok Hlow.
  intros H. split; [|by eapply Hlow]. by apply (proj2 (proj2 (proj2 (qs_stamps _ _ _ _ _ _ my_sh))) b _ (nx_heap b nd H)).
Qed.

Ltac same_claims Hpc := let r := fresh "r" in intros r; rewrite Hpc; by destruct r.

Lemma pool_pop_advances x pc' s' es : pool_TryPop x pc s = Some (pc', s', es) -> q_advances c a obs t pc' s' es.
Proof using Hok Hlow.
  intros Hx. pose proof my_knows as Hk. pose proof my_claims as Hc. destruct pc eqn:Hpc; try done; simpl in Hk; destruct x; try done; simpl in Hx.
  - case_decide as E; simplify_eq; apply advance_local; try (same_claims Hpc); try (by rewrite Hpc); [done|]. simpl. split; [auto with lfq|].
    destruct (top_node E) as [q Hq]. by eapply nx_allocated.
  - destruct Hk as [Hsn [nd Hnd]]. unfold on_node in Hx. rewrite Hnd in Hx. simplify_eq.
    apply advance_local; [same_claims Hpc| |by rewrite Hpc]. simpl. split; [done|]. split; [apply allocated_ne; by eexists|]. intros _. by apply nx_heap.
  - destruct Hk as (Hsn & H0 & Hn). case_decide as E; simplify_eq; [|apply advance_local; [same_claims Hpc|done|by rewrite Hpc]].
    destruct (pool_pop_update _ _ _ _ _ _ my_sh t _ next eq_refl H0 (Hn eq_refl)) as (ps' & Hsh & F & Hp); [apply Hlow|].
    eapply advance; [exact Hsh|exact F| |done|by rewrite Hpc].
    eapply claims_insert; [exact Hc|intros r; destruct r; simpl; naive_solver|intros r b' Hb'; destruct r; simpl; naive_solver].
  - simplify_eq. apply advance_local; [same_claims Hpc|done|by rewrite Hpc].
Qed.

Lemma new_node_advances x pc' s' es : queue_NewNode x pc s = Some (pc', s', es) -> q_advances c a obs t pc' s' es.
Proof using Hok Hlow.
  intros Hx. pose proof my_knows as Hk. pose proof my_claims as Hc. destruct pc eqn:Hpc; try done; simpl in Hk; destruct x; try done; simpl in Hx.
  - destruct (my_node Fresh n) as (p & nd & Hp & Hh & Hnd & _); [by rewrite Hpc|]. unfold on_node in Hx. rewrite Hnd in Hx. simplify_eq.
    pose proof (next_range n nd Hnd). destruct p; simplify_eq/=.
    destruct (own_update _ _ _ _ _ _ my_sh t n nd (with_value nd (Some v))) as [Hsh F]; [by left|done|done|simpl; lia|unfold stamp_ok; simpl; lia|].
    eapply advance; [exact Hsh|exact F| | |by rewrite Hpc].
    + eapply claims_same; [exact Hc|]. by intros [].
    + simpl. rewrite vl_set_node. by case_decide.
  - destruct (my_node Fresh n) as (p & nd & Hp & Hh & Hnd & _); [by rewrite Hpc|]. unfold on_node in Hx. rewrite Hnd in Hx. simplify_eq.
    apply advance_local; [same_claims Hpc| |by rewrite Hpc]. simpl. split; [done|]. exists (q_next nd). split; [by apply nx_heap|done].
  - destruct (my_node Fresh n) as (p & nd & Hp & Hh & Hnd & _); [by rewrite Hpc|]. unfold on_node in Hx. rewrite Hnd in Hx. simplify_eq.
    destruct Hk as (Hv & q & Hq & <-). rewrite (nx_heap n nd Hnd) in Hq. simplify_eq. pose proof (next_range n nd Hnd).
    destruct p; simplify_eq/=. rewrite next_stamp_eq by lia.
    destruct (own_update _ _ _ _ _ _ my_sh t n nd (with_next nd (mkStamped 0 (stamp (q_next nd) + 1)))) as [Hsh F]; [by left|done|done|simpl; lia|unfold stamp_ok; simpl; lia|].
    eapply advance; [exact Hsh|exact F| | |by rewrite Hpc].
    + eapply claims_same; [exact Hc|]. by intros [].
    + split; [rewrite vl_set_node; case_decide; [|done]; simpl; by rewrite <- (vl_heap n)|]. rewrite nx_set_node. case_decide; [|done]. by eexists.
  - case_decide as E; simplify_eq. assert (E1 : q_heap s !! b = None) by (apply not_elem_of_dom; tauto).
    destruct (alloc_update _ _ _ _ _ _ my_sh t b v E1) as [Hsh F]; [tauto|]. eapply advance; [exact Hsh|exact F| | |by rewrite Hpc].
    + eapply claims_insert; [exact Hc|intros r; destruct r; simpl; naive_solver|intros r b' Hb'; destruct r; simpl; naive_solver].
    + split; [rewrite vl_set_node; by case_decide|]. rewrite nx_set_node. case_decide; [|done]. by eexists.
Qed.

(** A step at which the call takes effect. *)
Lemma advance_lin pc' s' d' rest' ps' pl' a' i r :
  qsh_ok s' d' rest' ps' pl' a' -> qframe t s (d :: rest) pl s' (d' :: rest') pl' -> claims_ok pl' t pc' -> knows s' (d' :: rest') None pc' ->
  fifo_step a i r a' -> q_status pc = Pending i -> q_status pc' = Committed i r -> q_advances c a obs t pc' s' [Lin i r].
Proof using Hok.
  intros Hsh F Hc Hk Hstep H1 H2. exists a', None. split; [|split; [|split; [done|left]]].
  - exists d', rest', ps', pl'. by eapply queue_ok_step.
  - econstructor; [exact Hstep|constructor].
  - rewrite H1, H2. econstructor; constructor.
Qed.

(** Helping the tail. *)
Lemma advance_tail pc' ot b q :
  (q_tail s = ot -> nx s (raw_ptr ot) = Some q /\ raw_ptr q = b) -> b <> 0 ->
  (forall r, claim pc' r = claim pc r) -> q_status pc' = q_status pc ->
  (forall s', q_heap s' = q_heap s -> knows s' (d :: rest) None pc') ->
  q_advances c a obs t pc' (if decide (q_tail s = ot) then set_tail s (next_stamp b (stamp ot)) else s) [].
Proof using Hok Hlow.
  intros Hq Hb Hc Hst Hk. case_decide as E; [|by apply advance_local; auto]. subst ot. destruct (Hq eq_refl) as [Hq' <-].
  destruct (q_tail_update _ _ _ _ _ _ my_sh t q) as [Hsh F]; [done|done|apply Hlow|].
  eapply advance; [exact Hsh|exact F| |by apply Hk|done]. eapply claims_same; [apply my_claims|done].
Qed.

Lemma fresh_heap s' v n : q_heap s' = q_heap s -> fresh_node s v n -> fresh_node s' v n.
Proof. intros E. unfold fresh_node, vl, nx. by rewrite E. Qed.

Lemma q_push_advances x pc' s' es : queue_Push x pc s = Some (pc', s', es) -> q_advances c a obs t pc' s' es.
Proof using Hok Hlow.
  intros Hx. pose proof my_knows as Hk. pose proof my_claims as Hc. destruct (sh_tail_node _ _ _ _ _ _ my_sh) as (Ht0 & qt & Hqt & Htl & _).
  destruct pc eqn:Hpc; try done; simpl in Hk; destruct x; try done; simpl in Hx.
  - simplify_eq. apply advance_local; [same_claims Hpc| |by rewrite Hpc]. split; [done|]. split; [auto with lfq|]. by eapply nx_allocated.
  - destruct Hk as (Hf & Hsn & [nd Hnd]). unfold on_node in Hx. rewrite Hnd in Hx. simplify_eq.
    apply advance_local; [same_claims Hpc| |by rewrite Hpc]. split; [done|]. split; [done|]. split; [by eexists|]. intros <-.
    rewrite (nx_heap _ _ Hnd) in Hqt. simplify_eq. split; [by rewrite (nx_heap _ _ Hnd)|]. intros H0. exists (q_next nd).
    split; [by apply nx_heap|]. right. auto.
  - destruct Hk as (Hf & Hsn & Hal & Hn). case_decide as E1; [simplify_eq; by apply advance_local; [same_claims Hpc| |by rewrite Hpc]|].
    assert (E : q_tail s = ot) by (destruct (decide (q_tail s = ot)); [done|congruence]). destruct (Hn E) as [K1 K2].
    case_decide as E2; simplify_eq; (apply advance_local; [same_claims Hpc| |by rewrite Hpc]); simpl; auto with lfq.
  - destruct Hk as (Hf & Hsn & H0 & (q' & Hq' & Hw)). destruct (nx_allocated _ _ _ Hq') as [nd Hnd]. rewrite (nx_heap _ _ Hnd) in Hq'. simplify_eq.
    unfold on_node in Hx. rewrite Hnd in Hx. case_decide as E; simplify_eq; [|by apply advance_local; [same_claims Hpc| |by rewrite Hpc]].
    destruct Hw as [Hw|(_ & Hl & Hb)]; [lia|]. destruct (my_node Fresh n) as (p & ndn & Hp & Hh & _ & Hn0); [by rewrite Hpc|]. destruct p; simplify_eq/=.
    destruct (link_update _ _ _ _ _ _ my_sh t _ nd n v Hl Hb Hnd Hp Hf) as (Hsh & F & _); [by eapply next_range|].
    eapply advance_lin; [exact Hsh|exact F| | |constructor|by rewrite Hpc|done].
    + eapply claims_insert; [exact Hc|intros r; destruct r; simpl; naive_solver|intros r b' Hb'; destruct r; simpl; naive_solver].
    + simpl. split; [done|]. split; [done|]. intros _. pose proof (next_range _ _ Hnd). rewrite next_stamp_eq by lia.
      rewrite nx_set_node. case_decide; [|done]. by eexists.
  - destruct Hk as (Hf & Hsn & H0 & (q' & Hq' & Hw)). destruct (nx_allocated _ _ _ Hq') as [nd Hnd].
    unfold on_node in Hx. rewrite Hnd in Hx. simplify_eq. by apply advance_local; [same_claims Hpc| |by rewrite Hpc].
  - destruct Hk as (Hf & Hsn & H0 & Hn). simplify_eq. apply (advance_tail _ ot _ otn); [auto|done|same_claims Hpc|by rewrite Hpc|].
    intros s' Hs'. by apply fresh_heap.
  - destruct Hk as (Hf & _). simplify_eq. by apply advance_local; [same_claims Hpc| |by rewrite Hpc].
  - destruct Hk as (Hn0 & Hsn & Hn). simplify_eq. destruct (decide (q_tail s = ot)) as [E|E].
    + destruct (Hn E) as (q & Hq & Hqn). pose proof (advance_tail (QRet (IPush v) RPushed) ot n q) as Ha. rewrite decide_True in Ha by done.
      apply Ha; [auto|done|same_claims Hpc|by rewrite Hpc|done].
    + apply advance_local; [same_claims Hpc|done|by rewrite Hpc].
  - simplify_eq. apply advance_local; [same_claims Hpc|done|by rewrite Hpc].
Qed.

Lemma cont_knows k : cont_ok s k -> forall s', (forall b, vl s' b = vl s b) -> cont_ok s' k.
Proof. intros Hk s' Hv. destruct k; [|done]. simpl. by rewrite Hv. Qed.

Lemma after_pool_knows s' ns k : cont_ok s' k -> knows s' ns None (after_pool k).
Proof. by destruct k. Qed.

Lemma pool_push_advances x pc' s' es : pool_Push x pc s = Some (pc', s', es) -> q_advances c a obs t pc' s' es.
Proof using Hok Hlow.
  intros Hx. pose proof my_knows as Hk. pose proof my_claims as Hc. pose proof (my_node Pooling) as Hmine.
  destruct pc eqn:Hpc; try done; simpl in Hk; destruct x; try done; simpl in Hx;
    destruct (Hmine n eq_refl) as (p & nd & Hp & Hh & Hnd & Hn0); destruct p; try discriminate Hh; injection Hh as ->;
    unfold on_node in Hx; rewrite ?Hnd in Hx.
  - simplify_eq. by apply advance_local; [same_claims Hpc| |by rewrite Hpc].
  - simplify_eq. apply advance_local; [same_claims Hpc| |by rewrite Hpc]. split; [done|]. pose proof (next_range n nd Hnd). split; [lia|].
    exists (q_next nd). split; [by apply nx_heap|by left].
  - simplify_eq. destruct Hk as (Hk & Hst0 & q & Hq & Hst). rewrite (nx_heap _ _ Hnd) in Hq. simplify_eq. pose proof (next_range n nd Hnd).
    rewrite next_stamp_eq by lia.
    destruct (own_update _ _ _ _ _ _ my_sh t n nd (with_next nd (mkStamped (raw_ptr ot) (st + 1)))) as [Hsh F];
      [by right|done|done|simpl; lia|unfold stamp_ok; simpl; lia|].
    eapply advance; [exact Hsh|exact F| | |by rewrite Hpc].
    + eapply claims_same; [exact Hc|]. by intros [].
    + split; [|split; [done|rewrite nx_set_node; by case_decide]]. apply (cont_knows k Hk). intros b. rewrite vl_set_node.
      case_decide; [|done]. subst. by rewrite (vl_heap _ _ Hnd).
  - destruct Hk as (Hk & Hst0 & Hq). case_decide as E; simplify_eq.
    + destruct (pool_push_update _ _ _ _ _ _ my_sh t n (st + 1) Hp Hq) as [Hsh F]; [apply Hlow|].
      eapply advance; [exact Hsh|exact F| |by apply after_pool_knows|by rewrite Hpc; destruct k].
      assert (Hnt : cont_takes k <> Some n).
      { intros Ht. destruct (proj2 (Hc Taker n) Ht) as (p & Hp' & Hh'). rewrite Hp in Hp'. by simplify_eq. }
      eapply claims_insert; [exact Hc|intros r; destruct r, k; simpl in *; naive_solver|intros r b' Hb'; destruct r, k; simpl; naive_solver].
    + apply advance_local; [same_claims Hpc| |by rewrite Hpc]. split; [done|]. split; [done|]. eexists. split; [done|]. by right.
  - destruct Hk as (Hk & Hst0 & Hq). simplify_eq.
    apply advance_local; [same_claims Hpc| |by rewrite Hpc]. split; [done|]. split; [done|]. eexists. split; [done|]. by right.
Qed.

(** [fetch_add] of [try_del_count]. *)
Lemma count_advances b nd p k pc' s' es (done' : qplace) :
  q_heap s !! b = Some nd -> pl !! b = Some p -> fetch_add_del s b nd k = Some (pc', s', es) ->
  (exists tk, p = QDummy tk) \/ (exists tk un, p = QGone tk un) ->
  (if decide (parity p = 1) then done' = QPooling t /\ exists tk un, p = QGone tk un
   else parity done' = 1 /\ ((exists tk, p = QDummy tk) /\ (exists tk, done' = QDummy tk) \/
     (exists tk un, p = QGone tk un) /\ exists tk un, done' = QGone tk un)) ->
  (forall u r, u <> t -> has done' r = Some u <-> has p r = Some u) ->
  (forall r, has done' r = Some t <-> claim pc' r = Some b) -> (forall r b', b' <> b -> claim pc' r = Some b' <-> claim pc r = Some b') ->
  cont_ok s k -> q_status pc = cont_status k -> q_advances c a obs t pc' s' es.
Proof using Hok.
  intros Hnd Hp Hx Hkind Hdone Hoth H1 H2 Hk Hst. unfold fetch_add_del in Hx.
  destruct (qs_count _ _ _ _ _ _ my_sh b p nd Hp Hnd) as [Hpar Hg]. rewrite Hpar in Hx.
  destruct (count_update _ _ _ _ _ _ my_sh t b nd p done') as [Hsh F]; try done.
  - case_decide as E; [destruct Hdone as [-> _]; simpl; lia|]. destruct Hdone as [-> _].
    destruct Hkind as [(tk & ->)|(tk & un & ->)]; [destruct tk|destruct tk, un]; done.
  - case_decide as E; [by destruct Hdone as [-> _]|]. destruct Hdone as [E' _]. by intros ->.
  - case_decide as E; [right; naive_solver|]. destruct Hdone as [_ [[? ?]|[? ?]]]; naive_solver.
  - assert (Hk' : cont_ok (set_node s b (with_count nd (u64 (try_del_count nd + 1)))) k).
    { apply (cont_knows k Hk). intros b'. rewrite vl_set_node. destruct (decide (b' = b)) as [->|]; [|done]. by rewrite (vl_heap _ _ Hnd). }
    clear Hdone. simplify_eq. eapply advance; [exact Hsh|exact F|by eapply claims_insert; [apply my_claims|..]| |].
    + case_decide; [done|by apply after_pool_knows].
    + rewrite Hst. case_decide; [done|by destruct k].
Qed.

Lemma advance_keep pc' :
  (forall r, claim pc' r = claim pc r) -> knows s (d :: rest) (obs t) pc' -> q_status pc' = q_status pc -> q_advances c a obs t pc' s [].
Proof using Hok.
  intros Hc Hk Hst. destruct (obs t) as [[i r]|] eqn:E; [|by apply advance_local]. apply (advance_observe _ i r); auto.
Qed.

(** [Pop_del]: the first node has been unlinked. *)
Lemma unlink_advances ho hn taken pc' s' es :
  pc = Pop_del ho hn taken -> queue_TryPop QGo pc s = Some (pc', s', es) -> q_advances c a obs t pc' s' es.
Proof using Hok Hlow.
  intros Hpc Hx. pose proof my_knows as Hk. pose proof my_claims as Hc. rewrite Hpc in Hk, Hc, Hx. simpl in Hk, Hx.
  destruct (my_node Unlinker ho) as (p & nd & Hp & Hh & Hnd & _); [by rewrite Hpc|]. unfold on_node in Hx. rewrite Hnd in Hx.
  destruct p as [| | |tk un| |]; try discriminate Hh. simpl in Hh. subst un.
  assert (Htk : tk = Some t <-> Some hn = Some ho).
  { rewrite <- (Hc Taker ho). split; [intros ->; eauto|]. intros (p & Hp' & Hh'). rewrite Hp in Hp'. by simplify_eq. }
  assert (pc' = if decide (parity (QGone tk (Some t)) = 1) then Pool_top ho (ThenValue hn taken) else Pop_value hn taken) as ->.
  { unfold fetch_add_del in Hx. rewrite (proj1 (qs_count _ _ _ _ _ _ my_sh _ _ _ Hp Hnd)) in Hx. by simplify_eq. }
  apply (count_advances ho nd (QGone tk (Some t)) (ThenValue hn taken) _ _ _ (match tk with Some w => QGone (Some w) None | None => QPooling t end));
    try done; rewrite ?Hpc; try done; [by right; eauto|destruct tk; simpl; repeat case_decide; naive_solver| | |].
  - intros u r Hu. destruct tk as [w|], r; simpl; naive_solver.
  - intros r. destruct tk as [w|]; simpl; repeat case_decide; try done; destruct r; simpl; naive_solver.
  - intros r b' Hb'. destruct tk as [w|]; simpl; repeat case_decide; try done; destruct r; simpl; naive_solver.
Qed.

(** [Pop_del2]: the value has been taken. *)
Lemma taken_advances hn val pc' s' es :
  pc = Pop_del2 hn val -> queue_TryPop QGo pc s = Some (pc', s', es) -> q_advances c a obs t pc' s' es.
Proof using Hok Hlow.
  intros Hpc Hx. pose proof my_claims as Hc. rewrite Hpc in Hc, Hx. simpl in Hx.
  destruct (my_node Taker hn) as (p & nd & Hp & Hh & Hnd & _); [by rewrite Hpc|]. unfold on_node in Hx. rewrite Hnd in Hx.
  assert (Hun : has p Unlinker <> Some t).
  { intros Hu. discriminate (proj1 (Hc Unlinker hn) (ex_intro _ p (conj Hp Hu))). }
  assert (pc' = if decide (parity p = 1) then Pool_top hn (ThenReturn val) else QRet ITryPop (RPop val)) as ->.
  { unfold fetch_add_del in Hx. rewrite (proj1 (qs_count _ _ _ _ _ _ my_sh _ _ _ Hp Hnd)) in Hx. by simplify_eq. }
  apply (count_advances hn nd p (ThenReturn val) _ _ _
    (match p with QDummy _ => QDummy None | QGone _ (Some w) => QGone None (Some w) | _ => QPooling t end)); try done; rewrite ?Hpc; try done.
  - destruct p; try discriminate Hh; eauto.
  - destruct p as [| |tk|tk [w|]| |]; try discriminate Hh; simpl in Hh; subst; simpl; repeat case_decide; naive_solver.
  - intros u r Hu. destruct p as [| |tk|tk [w|]| |], r; simpl in *; naive_solver.
  - intros r. destruct p as [| |tk|tk [w|]| |]; try discriminate Hh; simpl in Hh; subst; simpl in *; repeat case_decide; try done; destruct r; simpl; naive_solver.
  - intros r b' Hb'. destruct p as [| |tk|tk [w|]| |]; try discriminate Hh; simpl in Hh; subst; simpl in *; repeat case_decide; try done; destruct r; simpl; naive_solver.
Qed.

(** [Pop_cas]: the head moves on. *)
Lemma pop_cas_advances ho hn : pc = Pop_cas ho hn -> q_head s = ho ->
  let taken := default 0 (vl s (raw_ptr hn)) in
  q_advances c a obs t (Pop_del (raw_ptr ho) (raw_ptr hn) taken) (set_head s (next_stamp (raw_ptr hn) (stamp ho))) [Lin ITryPop (RPop (Some taken))].
Proof using Hok Hlow.
  intros Hpc Hh taken. pose proof my_knows as Hk. pose proof my_claims as Hc. rewrite Hpc in Hk, Hc. destruct Hk as (_ & Hn0 & Hk). destruct (Hk Hh) as [Hq Htl].
  subst ho. destruct (head_update _ _ _ _ _ _ my_sh t hn Hq Hn0 Htl) as (rest' & v & a' & tk & Hrest & Ha & Hv & Htk & Hsh & F); [apply Hlow|].
  destruct (sh_head _ _ _ _ _ _ my_sh) as (Hd & _). unfold taken. rewrite Hv. simpl. rewrite Hd.
  assert (Hne : raw_ptr hn <> d).
  { pose proof (qs_nodup _ _ _ _ _ _ my_sh) as Hnd. rewrite Hrest in Hnd. apply list.NoDup_cons in Hnd as [Hnd _]. intros E. apply Hnd. rewrite E. by left. }
  assert (Hpn : pl !! raw_ptr hn = Some QLinked) by (apply (qs_linked _ _ _ _ _ _ my_sh); rewrite Hrest; by left).
  eapply advance_lin; [exact Hsh|exact F| |exact Hv|rewrite Ha; constructor|by rewrite Hpc|done].
  intros r b. destruct (decide (b = raw_ptr hn)) as [->|E1]; [rewrite lookup_insert_eq; destruct r; simpl; naive_solver|].
  rewrite lookup_insert_ne by done. destruct (decide (b = d)) as [->|E2].
  - rewrite lookup_insert_eq. assert (tk <> Some t) by (intros ->; discriminate (proj1 (Hc Taker d) (ex_intro _ _ (conj Htk eq_refl)))). destruct r; simpl; naive_solver.
  - rewrite lookup_insert_ne, (Hc r b) by done. destruct r; simpl; naive_solver.
Qed.

Lemma q_pop_advances x pc' s' es : queue_TryPop x pc s = Some (pc', s', es) -> q_advances c a obs t pc' s' es.
Proof using Hok Hlow.
  intros Hx. pose proof my_knows as Hk. pose proof my_claims as Hc. pose proof (sh_head _ _ _ _ _ _ my_sh) as Hhd.
  destruct pc eqn:Hpc; try done; simpl in Hk; destruct x; try done; try (rewrite <- Hpc in Hx; eauto using unlink_advances, taken_advances; fail); simpl in Hx.
  - simplify_eq. apply advance_local; [same_claims Hpc| |by rewrite Hpc]. split; [auto with lfq|].
    destruct Hhd as (-> & _ & qh & Hqh & _). by eapply nx_allocated.
  - destruct Hk as [Hsn [nd Hnd]]. unfold on_node in Hx. rewrite Hnd in Hx. simplify_eq.
    destruct (decide (q_head s = ho /\ raw_ptr (q_next nd) = 0)) as [[E Hz]|Hn].
    + apply (advance_observe _ ITryPop (RPop None)); [same_claims Hpc| |by rewrite Hpc|left].
      * split; [done|]. intros _. split; done.
      * pose proof (qs_values _ _ _ _ _ _ my_sh) as Hv. subst ho. destruct Hhd as (Hd & _ & qh & Hqh & Hl). rewrite Hd in Hnd. rewrite (nx_heap _ _ Hnd) in Hqh. simplify_eq. rewrite Hz in Hl. pose proof (proj1 (links_null _ _ _ Hl) eq_refl) as Hr.
        rewrite Hr in Hv. inv Hv. constructor.
    + apply advance_local; [same_claims Hpc| |by rewrite Hpc]. split; [done|]. intros E. split; [intros _; by apply nx_heap|]. intros ?. by destruct Hn.
  - simplify_eq. destruct Hk as [Hsn Hk]. apply advance_keep; [same_claims Hpc| |by rewrite Hpc]. split; [done|]. split; [auto with lfq|].
    intros E. destruct (Hk E). auto.
  - destruct Hk as (Hsn & Hsn' & Hk). case_decide as E; [simplify_eq; by apply advance_local; [same_claims Hpc| |by rewrite Hpc]|].
    assert (Hh : q_head s = ho) by (destruct (decide (q_head s = ho)); [done|congruence]). destruct (Hk Hh) as (K1 & K2 & K3).
    case_decide as Ez; case_decide as Et; simplify_eq.
    + by apply advance_local; [same_claims Hpc| |by rewrite Hpc].
    + exists a, None. split; [|split; [constructor|split; [done|right]]].
      * exists d, rest, ps, pl. eapply queue_ok_step; [exact Hok|apply my_sh|apply qframe_refl| |done]. eapply claims_same; [apply my_claims|same_claims Hpc].
      * exists ITryPop, (RPop None). rewrite Hpc. split; [auto|]. repeat split. constructor.
    + apply advance_local; [same_claims Hpc| |by rewrite Hpc]. split; [done|]. split; [done|]. intros _. split; auto.
    + apply advance_local; [same_claims Hpc| |by rewrite Hpc]. split; [done|]. split; [done|]. intros _.
      assert (raw_ptr (q_head s) = raw_ptr t_old) as <- by (by destruct (decide (raw_ptr (q_head s) = raw_ptr t_old))). auto.
  - case_decide as E; simplify_eq; [by apply pop_cas_advances|]. by apply advance_local; [same_claims Hpc| |by rewrite Hpc].
  - simplify_eq. by apply advance_local; [same_claims Hpc| |by rewrite Hpc].
  - destruct Hk as (Hn0 & Hsn & Hk). simplify_eq. apply (advance_tail _ t_old _ hn); [auto|done|same_claims Hpc|by rewrite Hpc|done].
  - simplify_eq. by apply advance_local; [same_claims Hpc| |by rewrite Hpc].
  - destruct (my_node Taker hn) as (p & nd & _ & _ & Hnd & _); [by rewrite Hpc|]. unfold on_node in Hx. rewrite Hnd in Hx. simplify_eq.
    apply advance_local; [same_claims Hpc|done|]. rewrite Hpc. simpl. by rewrite <- (vl_heap _ _ Hnd), Hk.
Qed.

Lemma queue_advances x pc' s' es : queue_step t x pc s = Some (pc', s', es) -> q_advances c a obs t pc' s' es.
Proof using Hok Hlow.
  intros Hx. pose proof my_knows as Hk. unfold queue_step in Hx.
  destruct pc eqn:Hpc; rewrite <- ?Hpc in Hx; eauto using pool_pop_advances, new_node_advances, q_push_advances, pool_push_advances, q_pop_advances.
  - destruct x; eauto using q_pop_advances. simplify_eq. exists a, None. split; [|split; [constructor|split; [done|left]]].
    + exists d, rest, ps, pl. eapply queue_ok_step; [exact Hok|apply my_sh|apply qframe_refl| |by destruct i].
      eapply claims_same; [apply my_claims|]. intros r. rewrite Hpc. by destruct i, r.
    + rewrite Hpc. destruct i; econstructor; constructor.
  - destruct x; eauto using q_pop_advances. simplify_eq. exists a, None. split; [|split; [constructor|split; [done|left]]].
    + exists d, rest, ps, pl. eapply queue_ok_step; [exact Hok|apply my_sh|apply qframe_refl| |done].
      eapply claims_same; [apply my_claims|]. same_claims Hpc.
    + rewrite Hpc. econstructor; constructor.
Qed.
End steps.

Lemma queue_ok_start d : d <> 0 -> queue_ok (queue_start d) d [] [] {[ d := QDummy None ]} [] (fun _ => None).
Proof.
  intros Hd. split; simpl; [|intros t|done].
  - split; simpl; try done.
    + by rewrite lookup_singleton_ne.
    + intros b. destruct (decide (b = d)) as [->|]; [rewrite !lookup_singleton_eq; split; by eexists|by rewrite !lookup_singleton_ne].
    + split; [done|]. split; [done|]. eexists. unfold nx. simpl. rewrite lookup_singleton_eq. split; done.
    + exists [], []. split; [done|simpl; lia].
    + apply NoDup_singleton.
    + constructor.
    + intros b. destruct (decide (b = d)) as [->|]; [rewrite lookup_singleton_eq; split; eauto|]. rewrite lookup_singleton_ne by done. naive_solver.
    + intros b. split; [|by intros ?%elem_of_nil]. intros [_ ?]%lookup_singleton_Some. done.
    + intros b. split; [|by intros ?%elem_of_nil]. intros [_ ?]%lookup_singleton_Some. done.
    + intros b p nd [<- <-]%lookup_singleton_Some. rewrite lookup_singleton_eq. by intros [= <-].
    + unfold stamp_ok. simpl. split; [lia|]. split; [lia|]. split; [lia|]. intros b q. unfold nx. simpl.
      destruct (decide (b = d)) as [->|]; [rewrite lookup_singleton_eq; intros [= <-]; simpl; lia|by rewrite lookup_singleton_ne].
  - intros r b. split; [|by destruct r]. intros (p & [<- <-]%lookup_singleton_Some & Hh). by destruct r.
Qed.

#[export, refine] Instance queue_lin_points d (Hd : d <> 0) : LinPointsRO queue_step fifo_spec (queue_start d) queue_client := {
  lr_status := q_status;
  lr_sim := fun c a obs => exists d rest ps pl, queue_ok c d rest ps pl a obs;
}.
Proof.
  - intros s i r s1 s2 H1 H2. inv H1; by inv H2.
  - done.
  - exists d, [], [], {[ d := QDummy None ]}. by apply queue_ok_start.
  - intros c a obs t x c' es (d' & rest & ps & pl & Hok) Hlow (pc' & s' & Hst & ->)%cstep_inv.
    destruct (queue_advances c d' rest ps pl a obs Hok t Hlow x pc' s' es Hst) as (a' & o & Hok' & Hl & Ho & Hs).
    exists a', o. split; [done|]. split; [done|]. split; [done|]. simpl. rewrite fn_lookup_insert. done.
Defined.

(** C7: The lock-free queue is linearizable: every concurrent history of [Push] and
    [TryPop] calls by any number of threads is one of a sequential FIFO queue, with
    nodes recycled through the pool in any order and any spurious failure of a weak
    exchange, as long as no 16-bit stamp runs out. *)
Theorem lock_free_queue_linearizable d tr c :
  d <> 0 -> gsteps queue_step queue_client (queue_start d) tr c -> linearizable fifo_spec (history tr).
Proof. intros Hd. apply (lin_past_sound (queue_lin_points d Hd)). Qed.

(** *** Memory *)

Lemma queue_run d tr c : d <> 0 -> gsteps queue_step queue_client (queue_start d) tr c ->
  exists d' rest ps pl a obs, queue_ok c d' rest ps pl a obs.
Proof.
  intros Hd Hr. destruct (lin_past_steps (queue_lin_points d Hd) tr c Hr) as (_ & a & obs & _ & (d' & rest & ps & pl & H) & _). eauto 10.
Qed.

Lemma links_heap s s' p l : q_heap s' = q_heap s -> links s p l -> links s' p l.
Proof. intros E. apply links_ext. intros b _. unfold nx. by rewrite E. Qed.

(** The loop of a destructor deletes the nodes of the list, and only those. *)
Lemma delete_from_links s p l fuel : links s p l -> base.NoDup l -> (length l <= fuel)%nat ->
  exists h, delete_from fuel p (q_heap s) = Some h /\ forall b, h !! b = if decide (b ∈ l) then None else q_heap s !! b.
Proof.
  revert s p fuel. induction l as [|b l IH]; intros s p fuel Hl Hnd Hf.
  - rewrite Hl. exists (q_heap s). split; [by destruct fuel|]. intros b. by rewrite decide_False by apply not_elem_of_nil.
  - destruct Hl as (-> & Hb & q & Hq & Hl). apply list.NoDup_cons in Hnd as [Hbl Hnd]. destruct fuel as [|fuel]; [simpl in Hf; lia|].
    unfold nx in Hq. destruct (q_heap s !! b) as [nd|] eqn:E; simplify_eq/=. rewrite decide_False, E by done.
    destruct (IH (mkLFQ (q_head s) (q_tail s) (q_top s) (delete b (q_heap s))) (raw_ptr (q_next nd)) fuel) as (h & Hh & Hall); [|done|lia|].
    + eapply links_ext; [|exact Hl]. intros b' Hb'. unfold nx. simpl. rewrite lookup_delete_ne; [done|]. intros ->. done.
    + exists h. split; [done|]. intros b'. rewrite Hall. simpl. destruct (decide (b' = b)) as [->|Hne].
      * rewrite lookup_delete_eq. rewrite (decide_True (P := b ∈ b :: l)) by set_solver. by case_decide.
      * rewrite lookup_delete_ne by done. repeat case_decide; set_solver.
Qed.

Lemma nodes_size (h : gmap Z QNode) l : base.NoDup l -> (forall b, b ∈ l -> is_Some (h !! b)) -> (length l <= size h)%nat.
Proof.
  intros Hnd Hl. rewrite <- (size_list_to_set (C := gset Z)), <- size_dom by done. apply subseteq_size. intros b Hb.
  apply elem_of_list_to_set in Hb. apply elem_of_dom. auto.
Qed.

Lemma queue_pool_disjoint s d rest ps pl a b : qsh_ok s d rest ps pl a -> b ∈ ps -> b ∉ d :: rest.
Proof.
  intros Hs Hb%(qs_pooled _ _ _ _ _ _ Hs) Hq. destruct (sh_dummy _ _ _ _ _ _ Hs) as [tk Htk].
  apply elem_of_cons in Hq as [->|Hq%(qs_linked _ _ _ _ _ _ Hs)]; congruence.
Qed.

(** When no call is under way, every node is in the queue or in the pool. *)
Lemma idle_nodes c d rest ps pl a obs b : queue_ok c d rest ps pl a obs -> (forall t, lo c t = QIdle) ->
  is_Some (q_heap (sh c) !! b) <-> b ∈ d :: rest \/ b ∈ ps.
Proof.
  intros [Hs Hc _] Hidle. rewrite (qs_dom _ _ _ _ _ _ Hs).
  assert (Hplace : forall p r t, pl !! b = Some p -> has p r <> Some t).
  { intros p r t Hp Hh. pose proof (proj1 (Hc t r b) (ex_intro _ p (conj Hp Hh))) as E. rewrite Hidle in E. by destruct r. }
  split.
  - intros [p Hp]. destruct p as [t| |tk|tk un|t|].
    + by destruct (Hplace _ Fresh t Hp).
    + left. right. by apply (qs_linked _ _ _ _ _ _ Hs).
    + left. assert (b = d) as -> by (apply (qs_dummy _ _ _ _ _ _ Hs); eauto). by left.
    + destruct (sh_place _ _ _ _ _ _ Hs b _ Hp) as (nd & Hnd & _). destruct (qs_count _ _ _ _ _ _ Hs _ _ _ Hp Hnd) as [_ Hg].
      destruct tk as [t|]; [by destruct (Hplace _ Taker t Hp)|]. destruct un as [t|]; [by destruct (Hplace _ Unlinker t Hp)|done].
    + by destruct (Hplace _ Pooling t Hp).
    + right. by apply (qs_pooled _ _ _ _ _ _ Hs).
  - destruct (sh_dummy _ _ _ _ _ _ Hs) as [tk Htk].
    intros [[->|Hb%(qs_linked _ _ _ _ _ _ Hs)]%elem_of_cons|Hb%(qs_pooled _ _ _ _ _ _ Hs)]; by eexists.
Qed.

(** C8: The queue is memory safe and does not leak as long as no 16-bit stamp reaches 65535 (in
    [queue_client], at every step): no operation accesses a node that is not allocated, and when no
    call is under way the destructor deletes every node exactly once, whatever has been recycled. *)
Theorem lock_free_queue_memory_safe d tr c :
  d <> 0 -> gsteps queue_step queue_client (queue_start d) tr c ->
  (forall t i, lo c t <> QCrash i) /\
  ((forall t, lo c t = QIdle) -> forall fuel, (size (q_heap (sh c)) <= fuel)%nat -> queue_Destroy fuel (sh c) = Some ∅).
Proof.
  intros Hd Hr. destruct (queue_run d tr c Hd Hr) as (d' & rest & ps & pl & a & obs & Hok). split.
  { intros t i E. pose proof (qk_knows _ _ _ _ _ _ _ Hok t) as Hk. by rewrite E in Hk. }
  intros Hidle fuel Hfuel. pose proof (qk_sh _ _ _ _ _ _ _ Hok) as Hs. pose proof (fun b => idle_nodes _ _ _ _ _ _ _ b Hok Hidle) as Hin.
  destruct (delete_from_links _ _ _ fuel (qs_queue _ _ _ _ _ _ Hs) (qs_nodup _ _ _ _ _ _ Hs)) as (h & Hh & Hall).
  { etransitivity; [|exact Hfuel]. apply nodes_size; [apply Hs|]. intros b Hb. apply Hin. auto. }
  unfold queue_Destroy. rewrite Hh. simpl.
  destruct (delete_from_links (mkLFQ (q_head (sh c)) (q_tail (sh c)) (q_top (sh c)) h) (raw_ptr (q_top (sh c))) ps fuel) as (h' & Hh' & Hall').
  - eapply links_ext; [|exact (qs_pool _ _ _ _ _ _ Hs)]. intros b Hb. unfold nx. simpl. rewrite Hall, decide_False; [done|].
    by eapply queue_pool_disjoint.
  - apply Hs.
  - etransitivity; [|exact Hfuel]. apply nodes_size; [apply Hs|]. intros b Hb. apply Hin. auto.
  - simpl in Hh'. rewrite Hh'. f_equal. apply map_empty. intros b. rewrite Hall'. simpl. rewrite Hall. repeat case_decide; try done.
    destruct (q_heap (sh c) !! b) eqn:E; [|done]. destruct (proj1 (Hin b)) as [?|?]; [by eexists|done|done].
Qed.

(** ** Witnesses *)

(** Thread 0 pushes 5, thread 1 pops it (the dummy goes to the pool), thread 0 pushes 6
    in the recycled node while thread 1 finds the queue still empty; then it pops 6. *)
Definition gos (t : tid) (n : nat) : list (tid * q_act) := repeat (t, QGo) n.
Definition queue_schedule : list (tid * q_act) :=
  ([(0, QCall (IPush 5)); (0, QGo); (0, QNew 32)] ++ gos 0 6 ++
   (1, QCall ITryPop) :: gos 1 13 ++
   (0, QCall (IPush 6)) :: gos 0 8 ++
   (1, QCall ITryPop) :: gos 1 3 ++ gos 0 4 ++ gos 1 2 ++
   (1, QCall ITryPop) :: gos 1 13)%nat.
Definition queue_run_end : config LFQ q_pc * list (tid * q_event) :=
  default (queue_start 16, []) (run queue_step queue_schedule (queue_start 16)).

Definition stamps_lowb (s : LFQ) : bool :=
  (stamp (q_head s) <? 65535) && (stamp (q_tail s) <? 65535) && (stamp (q_top s) <? 65535) &&
  forallb (fun p => stamp (q_next p.2) <? 65535) (map_to_list (q_heap s)).

Lemma stamps_lowb_sound s : stamps_lowb s = true -> stamps_low s.
Proof.
  unfold stamps_lowb. rewrite !andb_true_iff, !Z.ltb_lt, forallb_forall. intros (((? & ?) & ?) & Hn). split_and!; try done.
  intros b nd Hb. apply Z.ltb_lt, (Hn (b, nd)), list_elem_of_In, elem_of_map_to_list. done.
Qed.

Lemma queue_run_steps : gsteps queue_step queue_client (queue_start 16) queue_run_end.2 queue_run_end.1.
Proof.
  apply (run_gsteps0 queue_step _ queue_schedule); [|vm_compute; reflexivity].
  apply (run_okb_sound queue_step _ (fun _ _ c => stamps_lowb (sh c))); [|vm_compute; reflexivity].
  intros t x c. apply stamps_lowb_sound.
Qed.

Lemma lock_free_queue_linearizable_witness :
  linearizable fifo_spec (history queue_run_end.2) /\ (1%nat, Ret (RPop (Some 6))) ∈ history queue_run_end.2.
Proof.
  split; [apply (lock_free_queue_linearizable 16 _ queue_run_end.1); [done|exact queue_run_steps]|]. vm_compute. repeat constructor.
Defined.

Lemma lock_free_queue_memory_safe_witness : queue_Destroy 2 (sh queue_run_end.1) = Some ∅.
Proof.
  apply (proj2 (lock_free_queue_memory_safe 16 queue_run_end.2 queue_run_end.1 ltac:(done) queue_run_steps)).
  - intros [|[|t]]; vm_compute; reflexivity.
  - vm_compute. repeat constructor.
Defined.
