(* ===== verification/IntrusiveList.v ===== *)
(** The intrusive doubly linked list: src/deps/wheels/wheels/intrusive/list.hpp.

    Nodes and the sentinels ([head_]) of the lists live in one heap of [prev_] and
    [next_] fields.  The operations follow the code field access by field access; an
    access to an address without a node is a crash, a failed [WHEELS_VERIFY] or
    [WHEELS_ASSERT] stops the program.  The theorems show that the pointer operations
    implement those of sequences, for any number of lists that share the heap, and
    that [Sort] is a stable sort. *)

From Stdlib Require Import Sorted.
From S2P Require Import Prelude.
Local Open Scope Z_scope.

(** ** Outcomes *)

Inductive outcome (A : Type) := Done (a : A) | Failed | Crashed.
Arguments Done {A} _.
Arguments Failed {A}.
Arguments Crashed {A}.

#[export] Instance outcome_ret : MRet outcome := fun A => Done.
#[export] Instance outcome_bind : MBind outcome := fun A B f m =>
  match m with Done a => f a | Failed => Failed | Crashed => Crashed end.

(** [WHEELS_VERIFY], [WHEELS_ASSERT] *)
Definition verify (b : bool) : outcome unit := if b then Done () else Failed.

(** ** The code *)

(** [IntrusiveListNode]; [nullptr] is [0]. *)
Record DNode := mkDNode { dn_prev : Z; dn_next : Z }.
Abbreviation dheap := (gmap Z DNode).

Definition get_prev (m : dheap) (n : Z) : outcome Z := match m !! n with Some nd => Done (dn_prev nd) | None => Crashed end.
Definition get_next (m : dheap) (n : Z) : outcome Z := match m !! n with Some nd => Done (dn_next nd) | None => Crashed end.
Definition set_prev (m : dheap) (n p : Z) : outcome dheap :=
  match m !! n with Some nd => Done (<[n := mkDNode p (dn_next nd)]> m) | None => Crashed end.
Definition set_next (m : dheap) (n p : Z) : outcome dheap :=
  match m !! n with Some nd => Done (<[n := mkDNode (dn_prev nd) p]> m) | None => Crashed end.

Definition dn_IsLinked (m : dheap) (n : Z) : outcome bool := next ← get_next m n; Done (negb (next =? 0)).

Definition dn_LinkBefore (m : dheap) (n next : Z) : outcome dheap :=
  linked ← dn_IsLinked m n;
  _ ← verify (negb linked);
  prev ← get_prev m next;
  m ← set_prev m n prev;
  m ← set_next m prev n;
  m ← set_next m n next;
  set_prev m next n.

Definition dn_Unlink (m : dheap) (n : Z) : outcome dheap :=
  next ← get_next m n;
  prev ← get_prev m n;
  m ← (if next =? 0 then Done m else set_prev m next prev);
  m ← (if prev =? 0 then Done m else set_next m prev next);
  m ← set_prev m n 0;
  set_next m n 0.

(** [head] is the address of [head_]. *)
Definition dl_InitEmpty (m : dheap) (head : Z) : outcome dheap := m ← set_prev m head head; set_next m head head.
Definition dl_IsEmpty (m : dheap) (head : Z) : outcome bool := next ← get_next m head; Done (next =? head).

Definition dl_PushBack (m : dheap) (head n : Z) : outcome dheap := dn_LinkBefore m n head.
Definition dl_PushFront (m : dheap) (head n : Z) : outcome dheap := next ← get_next m head; dn_LinkBefore m n next.

(** The result is [nullptr] for an empty list. *)
Definition dl_PopFront (m : dheap) (head : Z) : outcome (dheap * Z) :=
  e ← dl_IsEmpty m head;
  if e : bool then Done (m, 0)
  else front ← get_next m head; m ← dn_Unlink m front; Done (m, front).

Definition dl_PopBack (m : dheap) (head : Z) : outcome (dheap * Z) :=
  e ← dl_IsEmpty m head;
  if e : bool then Done (m, 0)
  else back ← get_prev m head; m ← dn_Unlink m back; Done (m, back).

Definition dl_Append (m : dheap) (head that : Z) : outcome dheap :=
  e ← dl_IsEmpty m that;
  if e : bool then Done m
  else
    that_front ← get_next m that;
    that_back ← get_prev m that;
    m ← set_next m that_back head;
    back0 ← get_prev m head;
    m ← set_prev m that_front back0;
    back ← get_prev m head;
    m ← set_prev m head that_back;
    m ← set_next m back that_front;
    m ← set_prev m that that;
    set_next m that that.

(** [List l;], at a free address; [~IntrusiveList]. *)
Definition dl_new (m : dheap) (head : Z) : outcome dheap := dl_InitEmpty (<[head := mkDNode 0 0]> m) head.
Definition dl_destroy (m : dheap) (head : Z) : outcome dheap :=
  e ← dl_IsEmpty m head; _ ← verify e; Done (delete head m).

(** [List l(std::move(that))] *)
Definition dl_move (m : dheap) (head that : Z) : outcome dheap := m ← dl_new m head; dl_Append m head that.

(** [tmp]: the address of the local list. *)
Definition dl_Swap (m : dheap) (tmp head with_ : Z) : outcome dheap :=
  m ← dl_new m tmp;
  m ← dl_Append m tmp head;
  m ← dl_Append m head with_;
  m ← dl_Append m with_ tmp;
  dl_destroy m tmp.

(** The items from [cur] to the sentinel: what a range-based [for] visits. *)
Fixpoint dl_iterate (fuel : nat) (m : dheap) (head cur : Z) : outcome (list Z) :=
  if decide (cur = head) then Done []
  else
    match fuel with
    | O => Crashed
    | S fuel => next ← get_next m cur; l ← dl_iterate fuel m head next; Done (cur :: l)
    end.
Definition dl_items (fuel : nat) (m : dheap) (head : Z) : outcome (list Z) := cur ← get_next m head; dl_iterate fuel m head cur.

(** The same from the back. *)
Fixpoint dl_iterate_back (fuel : nat) (m : dheap) (head cur : Z) : outcome (list Z) :=
  if decide (cur = head) then Done []
  else
    match fuel with
    | O => Crashed
    | S fuel => prev ← get_prev m cur; l ← dl_iterate_back fuel m head prev; Done (cur :: l)
    end.
Definition dl_items_back (fuel : nat) (m : dheap) (head : Z) : outcome (list Z) := cur ← get_prev m head; dl_iterate_back fuel m head cur.

Definition dl_Size (fuel : nat) (m : dheap) (head : Z) : outcome Z := l ← dl_items fuel m head; Done (zlen l).

Fixpoint dl_UnlinkAll_loop (fuel : nat) (m : dheap) (head current : Z) : outcome dheap :=
  if decide (current = head) then Done m
  else
    match fuel with
    | O => Crashed
    | S fuel => next ← get_next m current; m ← dn_Unlink m current; dl_UnlinkAll_loop fuel m head next
    end.
Definition dl_UnlinkAll (fuel : nat) (m : dheap) (head : Z) : outcome dheap :=
  current ← get_next m head; dl_UnlinkAll_loop fuel m head current.

Section sort.
Context (less : Z -> Z -> bool).

(** The inner loop of [Sort]. *)
Fixpoint dl_candidate (fuel : nat) (m : dheap) (head candidate curr : Z) : outcome Z :=
  if decide (curr = head) then Done candidate
  else
    match fuel with
    | O => Crashed
    | S fuel => next ← get_next m curr; dl_candidate fuel m head (if less curr candidate then curr else candidate) next
    end.

(** The outer loop; [fuel] bounds its iterations and those of the inner loop. *)
Fixpoint dl_Sort_loop (fuel : nat) (m : dheap) (head sorted : Z) : outcome dheap :=
  e ← dl_IsEmpty m head;
  if e : bool then Done m
  else
    match fuel with
    | O => Crashed
    | S fuel =>
        candidate ← get_next m head;
        _ ← verify (negb (candidate =? head));
        curr ← get_next m candidate;
        candidate ← dl_candidate fuel m head candidate curr;
        linked ← dn_IsLinked m candidate;
        _ ← verify linked;
        m ← dn_Unlink m candidate;
        m ← dl_PushBack m sorted candidate;
        dl_Sort_loop fuel m head sorted
    end.

(** [sorted], [tmp]: the addresses of the local lists of [Sort] and [Swap]. *)
Definition dl_Sort (fuel : nat) (m : dheap) (sorted tmp head : Z) : outcome dheap :=
  m ← dl_new m sorted;
  m ← dl_Sort_loop fuel m head sorted;
  m ← dl_Swap m tmp head sorted;
  dl_destroy m sorted.
End sort.

(** ** Representation *)

Definition prv (m : dheap) (n : Z) : option Z := dn_prev <$> m !! n.
Definition nxt (m : dheap) (n : Z) : option Z := dn_next <$> m !! n.

(** Consecutive nodes of [c] point to each other. *)
Fixpoint ring (m : dheap) (c : list Z) : Prop :=
  match c with
  | x :: (y :: _) as c' => nxt m x = Some y /\ prv m y = Some x /\ ring m c'
  | _ => True
  end.

(** The list with sentinel [h] holds the items [l]. *)
Record dlist (m : dheap) (h : Z) (l : list Z) : Prop := {
  dl_ring : ring m (h :: l ++ [h]);
  dl_nodup : base.NoDup (h :: l);
  dl_nonnull : 0 ∉ h :: l;
}.

Definition unlinked (m : dheap) (n : Z) : Prop := m !! n = Some (mkDNode 0 0).

(** ** Field accesses *)

Lemma get_prev_ok m n p : prv m n = Some p -> get_prev m n = Done p.
Proof. unfold prv, get_prev. destruct (m !! n); [by intros [= <-]|done]. Qed.
Lemma get_next_ok m n p : nxt m n = Some p -> get_next m n = Done p.
Proof. unfold nxt, get_next. destruct (m !! n); [by intros [= <-]|done]. Qed.

Lemma set_prev_ok m n p : is_Some (m !! n) -> exists m', set_prev m n p = Done m' /\
  (forall x, nxt m' x = nxt m x) /\ (forall x, prv m' x = if decide (x = n) then Some p else prv m x) /\ (forall x, is_Some (m' !! x) <-> is_Some (m !! x)).
Proof.
  intros [nd Hn]. unfold set_prev. rewrite Hn. eexists. split; [done|]. unfold prv, nxt.
  split_and!; intros x; destruct (decide (x = n)) as [->|Hne]; rewrite ?lookup_insert_eq, ?lookup_insert_ne, ?Hn by done; try done.
Qed.

Lemma set_next_ok m n p : is_Some (m !! n) -> exists m', set_next m n p = Done m' /\
  (forall x, prv m' x = prv m x) /\ (forall x, nxt m' x = if decide (x = n) then Some p else nxt m x) /\ (forall x, is_Some (m' !! x) <-> is_Some (m !! x)).
Proof.
  intros [nd Hn]. unfold set_next. rewrite Hn. eexists. split; [done|]. unfold prv, nxt.
  split_and!; intros x; destruct (decide (x = n)) as [->|Hne]; rewrite ?lookup_insert_eq, ?lookup_insert_ne, ?Hn by done; try done.
Qed.

Lemma node_ext m m' x : prv m' x = prv m x -> nxt m' x = nxt m x -> m' !! x = m !! x.
Proof.
  unfold prv, nxt. destruct (m !! x) as [[p q]|], (m' !! x) as [[p' q']|]; simpl; intros H1 H2; by simplify_eq.
Qed.

Lemma nxt_some m x y : nxt m x = Some y -> is_Some (m !! x).
Proof. unfold nxt. destruct (m !! x); [by eexists|done]. Qed.
Lemma prv_some m x y : prv m x = Some y -> is_Some (m !! x).
Proof. unfold prv. destruct (m !! x); [by eexists|done]. Qed.

Lemma prv_of m x : is_Some (m !! x) -> exists p, prv m x = Some p.
Proof. intros [nd H]. exists (dn_prev nd). unfold prv. by rewrite H. Qed.

(** Run one assignment of a field. *)
Ltac step_set lem m n p := let m' := fresh m in let Hn := fresh "Hn" in let Hp := fresh "Hp" in let Hd := fresh "Hd" in
  destruct (lem m n p) as (m' & -> & Hn & Hp & Hd); [|cbn [mbind outcome_bind]].

(** Read the fields after a sequence of assignments. *)
Ltac fields := repeat match goal with
  | H : forall x, nxt ?m x = _ |- context [nxt ?m _] => rewrite H
  | H : forall x, prv ?m x = _ |- context [prv ?m _] => rewrite H
  end; repeat case_decide; simplify_eq; try done.

Ltac live := repeat match goal with H : forall x, is_Some (?m !! x) <-> _ |- is_Some (?m !! _) => apply H end; done.

Lemma LinkBefore_ok m n nx pv : nxt m n = Some 0 -> prv m nx = Some pv -> is_Some (m !! pv) -> n <> nx ->
  exists m', dn_LinkBefore m n nx = Done m' /\
    (forall x, nxt m' x = if decide (x = n) then Some nx else if decide (x = pv) then Some n else nxt m x) /\
    (forall x, prv m' x = if decide (x = nx) then Some n else if decide (x = n) then Some pv else prv m x).
Proof.
  intros Hn Hp Hpv Hne. unfold dn_LinkBefore, dn_IsLinked. rewrite (get_next_ok _ _ _ Hn). cbn. rewrite (get_prev_ok _ _ _ Hp). cbn [mbind outcome_bind].
  pose proof (nxt_some _ _ _ Hn). pose proof (prv_some _ _ _ Hp).
  step_set set_prev_ok m n pv; [live|]. step_set set_next_ok m0 pv n; [live|]. step_set set_next_ok m1 n nx; [live|].
  destruct (set_prev_ok m2 nx n) as (m3 & -> & ? & ? & _); [live|]. exists m3. split; [done|]. split; intros x; fields.
Qed.

Lemma Unlink_ok m n pv nx : nxt m n = Some nx -> prv m n = Some pv -> nx <> 0 -> pv <> 0 -> is_Some (m !! nx) -> is_Some (m !! pv) -> n <> nx -> n <> pv ->
  exists m', dn_Unlink m n = Done m' /\
    (forall x, nxt m' x = if decide (x = n) then Some 0 else if decide (x = pv) then Some nx else nxt m x) /\
    (forall x, prv m' x = if decide (x = n) then Some 0 else if decide (x = nx) then Some pv else prv m x).
Proof.
  intros Hn Hp Hnx Hpv Lnx Lpv Hne1 Hne2. unfold dn_Unlink. rewrite (get_next_ok _ _ _ Hn), (get_prev_ok _ _ _ Hp). cbn [mbind outcome_bind].
  pose proof (nxt_some _ _ _ Hn). rewrite (proj2 (Z.eqb_neq _ _) Hnx), (proj2 (Z.eqb_neq _ _) Hpv).
  step_set set_prev_ok m nx pv; [live|]. step_set set_next_ok m0 pv nx; [live|]. step_set set_prev_ok m1 n 0; [live|].
  destruct (set_next_ok m2 n 0) as (m3 & -> & ? & ? & _); [live|]. exists m3. split; [done|]. split; intros x; fields.
Qed.

(** ** Rings *)

Definition joined (m : dheap) (x y : Z) : Prop := nxt m x = Some y /\ prv m y = Some x.

Lemma last_shift (z x : Z) c : List.last (z :: c) x = List.last c z.
Proof. revert z x. induction c as [|w c IH]; intros z x; [done|]. change (List.last (z :: w :: c) x) with (List.last (w :: c) x). by rewrite !IH. Qed.

(** A ring, cut in two: the last node of the first part and the first of the second. *)
Lemma ring_app m x c1 y c2 :
  ring m ((x :: c1) ++ y :: c2) <-> ring m (x :: c1) /\ joined m (List.last c1 x) y /\ ring m (y :: c2).
Proof.
  revert x. induction c1 as [|z c1 IH]; intros x.
  - unfold joined. simpl. tauto.
  - rewrite last_shift.
    change (ring m ((x :: z :: c1) ++ y :: c2)) with (nxt m x = Some z /\ prv m z = Some x /\ ring m ((z :: c1) ++ y :: c2)).
    change (ring m (x :: z :: c1)) with (nxt m x = Some z /\ prv m z = Some x /\ ring m (z :: c1)). rewrite IH. tauto.
Qed.

Lemma ring_frame m m' x c :
  (forall y, y ∈ removelast (x :: c) -> nxt m' y = nxt m y) -> (forall y, y ∈ c -> prv m' y = prv m y) ->
  ring m (x :: c) -> ring m' (x :: c).
Proof.
  revert x. induction c as [|y c IH]; intros x Hn Hp H; [done|]. destruct H as (H1 & H2 & H). cbn [removelast] in Hn.
  split; [rewrite Hn by (destruct c; set_solver); done|]. split; [rewrite Hp by set_solver; done|].
  apply IH; [|intros; apply Hp; set_solver|done]. intros z Hz. apply Hn. by right.
Qed.

Lemma removelast_ne x (c : list Z) y : base.NoDup (x :: c) -> y ∈ removelast (x :: c) -> y <> List.last c x /\ y ∈ x :: c.
Proof.
  intros Hnd Hy. destruct (exists_last (l := x :: c)) as (l & z & E); [done|].
  assert (List.last c x = z) as ->.
  { transitivity (List.last (x :: c) x); [by destruct c|]. rewrite E. apply List.last_last. }
  rewrite E, removelast_last in Hy. rewrite E in Hnd |- *. apply list.NoDup_app in Hnd as (_ & Hnd & _). split; [|set_solver].
  intros ->. apply (Hnd z Hy). by apply list_elem_of_singleton.
Qed.

Lemma last_cons_in (x : Z) c : List.last c x ∈ x :: c.
Proof. revert x. induction c as [|y c IH]; intros x; [by left|]. right. rewrite last_shift. apply IH. Qed.

Lemma ring_live m x c y : ring m (x :: c) -> c <> [] -> y ∈ x :: c -> is_Some (m !! y).
Proof.
  revert x. induction c as [|z c IH]; intros x H Hc Hy; [done|]. destruct H as (H1 & H2 & H).
  apply elem_of_cons in Hy as [->|Hy]; [by eapply nxt_some|]. destruct c as [|w c]; [|by apply (IH z)].
  apply list_elem_of_singleton in Hy as ->. by eapply prv_some.
Qed.

(** The part of the ring after the cut: the first node of [l2 ++ [h]]. *)
Lemma hd_app_eq (h : Z) l2 : exists c2, l2 ++ [h] = hd h l2 :: c2 /\ (forall y, y ∈ removelast (hd h l2 :: c2) <-> y ∈ l2) /\
  (forall y, y ∈ c2 -> y ∈ tl l2 \/ (l2 <> [] /\ y = h)).
Proof.
  destruct l2 as [|x l2]; [exists []; split; [done|]; split; [done|]; by intros y ?%elem_of_nil|]. exists (l2 ++ [h]). split; [done|]. split.
  - intros y. change (hd h (x :: l2) :: l2 ++ [h]) with ((x :: l2) ++ [h]). by rewrite removelast_last.
  - intros y. rewrite elem_of_app, list_elem_of_singleton. naive_solver.
Qed.

Section dlists.
Context (m : dheap) (h : Z).

Lemma dlist_live l x : dlist m h l -> x ∈ h :: l -> is_Some (m !! x).
Proof.
  intros [Hr _ _] Hx. apply (ring_live m h (l ++ [h])); [done|by destruct l|]. set_solver.
Qed.

(** The ring, cut between [l1] and [l2]. *)
Lemma dlist_cut l1 l2 : dlist m h (l1 ++ l2) ->
  ring m (h :: l1) /\ joined m (List.last l1 h) (hd h l2) /\ ring m (l2 ++ [h]).
Proof.
  intros [Hr _ _]. destruct (hd_app_eq h l2) as (c2 & E & _). rewrite <- app_assoc, E in Hr.
  change (h :: l1 ++ hd h l2 :: c2) with ((h :: l1) ++ hd h l2 :: c2) in Hr. by rewrite ring_app, <- E in Hr.
Qed.

Lemma dlist_paste m' l1 l2 :
  ring m' (h :: l1) -> joined m' (List.last l1 h) (hd h l2) -> ring m' (l2 ++ [h]) -> ring m' (h :: (l1 ++ l2) ++ [h]).
Proof.
  intros H1 H2 H3. destruct (hd_app_eq h l2) as (c2 & E & _). rewrite <- app_assoc, E. rewrite E in H3.
  change (h :: l1 ++ hd h l2 :: c2) with ((h :: l1) ++ hd h l2 :: c2). by apply ring_app.
Qed.

(** What the cut knows of its parts. *)
Lemma cut_facts (l1 l2 : list Z) : base.NoDup (h :: l1 ++ l2) ->
  let pv := List.last l1 h in let nx := hd h l2 in
  pv ∈ h :: l1 /\ (nx = h \/ nx ∈ l2) /\ base.NoDup (h :: l1) /\ (forall y, y ∈ h :: l1 -> y ∉ l2) /\
  (forall y, y ∈ l1 -> y <> nx) /\ (forall y, y ∈ tl l2 \/ (l2 <> [] /\ y = h) -> y <> nx).
Proof.
  intros Hnd pv nx. change (h :: l1 ++ l2) with ((h :: l1) ++ l2) in Hnd. apply list.NoDup_app in Hnd as (Nd1 & Hdisj & Nd2).
  assert (Hnx : nx = h \/ nx ∈ l2) by (unfold nx; destruct l2; [by left|right; by left]).
  split; [apply last_cons_in|]. split; [done|]. split; [done|]. split; [done|]. split.
  - intros y Hy ->. destruct Hnx as [E|E]; [rewrite E in Hy; by apply list.NoDup_cons in Nd1 as [? _]|]. apply (Hdisj nx); [by right|done].
  - intros y Hy E. unfold nx in *. destruct l2 as [|x l2]; simpl in *; [destruct Hy as [?%elem_of_nil|[? _]]; done|]. subst y.
    apply list.NoDup_cons in Nd2 as [Nd2 _]. destruct Hy as [Hy|[_ ->]]; [done|]. apply (Hdisj h); by left.
Qed.

Lemma dlist_insert l1 l2 n : dlist m h (l1 ++ l2) -> n ∉ h :: l1 ++ l2 -> n <> 0 -> nxt m n = Some 0 ->
  exists m', dn_LinkBefore m n (hd h l2) = Done m' /\ dlist m' h (l1 ++ n :: l2) /\
    forall x, x ∉ h :: l1 ++ l2 -> x <> n -> m' !! x = m !! x.
Proof.
  intros Hd Hn Hn0 Hnn. destruct (dlist_cut _ _ Hd) as (R1 & [J1 J2] & R2). pose proof Hd as [_ Hnd H0].
  destruct (cut_facts l1 l2 Hnd) as (Hpv & Hnx & Nd1 & Hdisj & Hl1 & Hc2). set (pv := List.last l1 h) in *. set (nx := hd h l2) in *.
  assert (N1 : forall y, y ∈ h :: l1 -> y <> n) by (intros y Hy ->; apply Hn; change (h :: l1 ++ l2) with ((h :: l1) ++ l2); apply elem_of_app; auto).
  assert (N2 : forall y, y ∈ l2 -> y <> n) by (intros y Hy ->; apply Hn; change (h :: l1 ++ l2) with ((h :: l1) ++ l2); apply elem_of_app; auto).
  assert (Hh : h ∈ h :: l1) by by left.
  destruct (LinkBefore_ok m n nx pv Hnn J2 ltac:(by eapply nxt_some)) as (m' & -> & Hnxt & Hprv); [destruct Hnx as [->|?]; [intros <-; by apply (N1 n)|intros ->; by apply (N2 nx)]|].
  exists m'. split; [done|]. split; [split|].
  - apply dlist_paste.
    + eapply ring_frame; [| |exact R1]; intros y Hy.
      * apply (removelast_ne _ _ _ Nd1) in Hy as [Hy1 Hy2]. rewrite Hnxt, !decide_False by auto. done.
      * assert (y ∈ h :: l1) by by right. rewrite Hprv, !decide_False by auto. done.
    + fold pv. simpl. assert (pv <> n) by auto. assert (n <> nx) by (destruct Hnx as [->|?]; [intros <-; by apply (N1 n)|intros ->; by apply (N2 nx)]).
      split; [rewrite Hnxt|rewrite Hprv]; repeat case_decide; done.
    + destruct (hd_app_eq h l2) as (c2 & E & E1 & E2). change ((n :: l2) ++ [h]) with (n :: l2 ++ [h]). rewrite E. rewrite E in R2.
      apply (ring_app m' n []). split; [done|]. split; [split; simpl; fold nx; fields|].
      eapply ring_frame; [| |exact R2]; intros y Hy.
      * apply E1 in Hy. rewrite Hnxt, !decide_False; [done|intros ->; by apply (Hdisj pv)|auto].
      * apply E2 in Hy. assert (y <> n). { destruct Hy as [Hy|[_ ->]]; [|auto]. apply N2. destruct l2; [done|by right]. }
        rewrite Hprv, !decide_False by auto. done.
  - change (h :: l1 ++ n :: l2) with ((h :: l1) ++ n :: l2). rewrite <- Permutation_middle. by constructor.
  - change (h :: l1 ++ n :: l2) with ((h :: l1) ++ n :: l2). change (h :: l1 ++ l2) with ((h :: l1) ++ l2) in H0.
    rewrite elem_of_app. rewrite elem_of_app in H0. intros [?|[?|?]%elem_of_cons]; [tauto|by subst|tauto].
  - intros x Hx Hxn. change (h :: l1 ++ l2) with ((h :: l1) ++ l2) in Hx. rewrite elem_of_app in Hx.
    assert (x <> pv) by (intros ->; tauto). assert (x <> nx) by (destruct Hnx as [->|?]; intros ->; tauto).
    apply node_ext; rewrite ?Hnxt, ?Hprv, !decide_False by done; done.
Qed.

Lemma dlist_remove l1 n l2 : dlist m h (l1 ++ n :: l2) ->
  exists m', dn_Unlink m n = Done m' /\ dlist m' h (l1 ++ l2) /\ unlinked m' n /\
    forall x, x ∉ h :: l1 ++ n :: l2 -> m' !! x = m !! x.
Proof.
  intros Hd. destruct (dlist_cut _ _ Hd) as (R1 & [J1 J2] & R2). pose proof Hd as [_ Hnd H0]. simpl in J1, J2.
  assert (P : h :: l1 ++ n :: l2 ≡ₚ n :: h :: l1 ++ l2) by (rewrite <- Permutation_middle; apply perm_swap).
  rewrite P in Hnd, H0. apply list.NoDup_cons in Hnd as [Hn Hnd]. apply not_elem_of_cons in H0 as [Hn0 H0].
  destruct (cut_facts l1 l2 Hnd) as (Hpv & Hnx & Nd1 & Hdisj & Hl1 & Hc2).
  destruct (hd_app_eq h l2) as (c2 & E & E1 & E2). change ((n :: l2) ++ [h]) with (n :: l2 ++ [h]) in R2. rewrite E in R2.
  apply (ring_app m n []) in R2 as (_ & [K1 K2] & R2). simpl in K1. simpl in K2. change (h :: l1 ++ l2) with ((h :: l1) ++ l2) in Hn, H0.
  rewrite elem_of_app in Hn, H0. set (pv := List.last l1 h) in *. set (nx := hd h l2) in *. assert (Hh : h ∈ h :: l1) by by left.
  assert (Inx : nx ∈ h :: l1 \/ nx ∈ l2) by (destruct Hnx as [->|?]; auto).
  assert (N1 : forall y, y ∈ h :: l1 \/ y ∈ l2 -> y <> n) by (intros y Hy ->; tauto).
  assert (N0 : forall y, y ∈ h :: l1 \/ y ∈ l2 -> y <> 0) by (intros y Hy ->; tauto).
  destruct (Unlink_ok m n pv nx) as (m' & -> & Hnxt & Hprv);
    [done|done|by apply N0|apply N0; auto|by eapply prv_some|by eapply nxt_some|by apply not_eq_sym, N1|apply not_eq_sym, N1; auto|].
  exists m'. split; [done|]. split; [split; [apply dlist_paste|done|change (0 ∉ (h :: l1) ++ l2); by rewrite elem_of_app]|].
  - eapply ring_frame; [| |exact R1]; intros y Hy.
    + apply (removelast_ne _ _ _ Nd1) in Hy as [Hy1 Hy2]. rewrite Hnxt, !decide_False by auto. done.
    + assert (y ∈ h :: l1) by by right. rewrite Hprv, !decide_False by auto. done.
  - fold pv nx. assert (pv <> n) by auto. assert (nx <> n) by auto. split; [rewrite Hnxt|rewrite Hprv]; repeat case_decide; done.
  - rewrite E. eapply ring_frame; [| |exact R2]; intros y Hy.
    + apply E1 in Hy. rewrite Hnxt, !decide_False; [done|intros ->; by apply (Hdisj pv)|auto].
    + apply E2 in Hy. assert (y <> n). { apply N1. destruct Hy as [Hy|[_ ->]]; [|auto]. right. destruct l2; [done|by right]. }
      rewrite Hprv, !decide_False by auto. done.
  - split.
    + unfold unlinked. generalize (Hnxt n) (Hprv n). rewrite !decide_True by done. unfold nxt, prv.
      destruct (m' !! n) as [[p q]|]; simpl; [|done]. by intros [= ->] [= ->].
    + intros x Hx. rewrite P, not_elem_of_cons in Hx. change (h :: l1 ++ l2) with ((h :: l1) ++ l2) in Hx. rewrite elem_of_app in Hx.
      assert (x <> pv) by (intros ->; tauto). assert (x <> nx) by (intros ->; tauto).
      apply node_ext; rewrite ?Hnxt, ?Hprv, !decide_False by tauto; done.
Qed.
End dlists.

Lemma dlist_frame m m' h l : dlist m h l -> (forall x, x ∈ h :: l -> m' !! x = m !! x) -> dlist m' h l.
Proof.
  intros [Hr Hnd H0] Hf. split; [|done|done].
  assert (Hin : forall y, y ∈ l ++ [h] -> y ∈ h :: l) by (intros y; rewrite elem_of_app, list_elem_of_singleton, elem_of_cons; tauto).
  eapply ring_frame; [| |exact Hr]; intros y Hy; unfold nxt, prv; rewrite Hf; [done| |done|auto].
  change (h :: l ++ [h]) with ((h :: l) ++ [h]) in Hy. by rewrite removelast_last in Hy.
Qed.

Lemma dlist_nil m h : h <> 0 -> m !! h = Some (mkDNode h h) <-> dlist m h [].
Proof.
  intros H0. split.
  - intros H. split; [|by apply NoDup_singleton|by rewrite list_elem_of_singleton]. simpl. unfold nxt, prv. by rewrite H.
  - intros [(H1 & H2 & _) _ _]. revert H1 H2. unfold nxt, prv. destruct (m !! h) as [[p q]|]; simpl; [|done]. by intros [= ->] [= ->].
Qed.

Lemma IsEmpty_ok m h l : dlist m h l -> dl_IsEmpty m h = Done (bool_decide (l = [])).
Proof.
  intros Hd. pose proof (dlist_cut m h [] l Hd) as (_ & [H _] & _). simpl in H. unfold dl_IsEmpty. rewrite (get_next_ok _ _ _ H). cbn. f_equal.
  destruct l as [|x l]; simpl; [by rewrite Z.eqb_refl|]. destruct Hd as [_ Hnd _]. apply list.NoDup_cons in Hnd as [Hnd _].
  apply Z.eqb_neq. intros ->. apply Hnd. by left.
Qed.

(** The first and the last item, or the sentinel. *)
Lemma dlist_front m h l : dlist m h l -> nxt m h = Some (hd h l) /\ prv m h = Some (List.last l h).
Proof.
  intros Hd. pose proof (dlist_cut m h [] l Hd) as (_ & [H _] & _). split; [done|].
  pose proof (dlist_cut m h l []) as H'. rewrite app_nil_r in H'. apply H' in Hd as (_ & [_ ?] & _). done.
Qed.

Lemma Append_ok m h h2 tf tb back :
  nxt m h2 = Some tf -> prv m h2 = Some tb -> prv m h = Some back -> tf <> h2 -> tf <> h -> h <> h2 -> is_Some (m !! tf) -> is_Some (m !! tb) -> is_Some (m !! back) ->
  exists m', dl_Append m h h2 = Done m' /\
    (forall x, nxt m' x = if decide (x = h2) then Some h2 else if decide (x = back) then Some tf else if decide (x = tb) then Some h else nxt m x) /\
    (forall x, prv m' x = if decide (x = h2) then Some h2 else if decide (x = h) then Some tb else if decide (x = tf) then Some back else prv m x).
Proof.
  intros Hn Hp Hb Hf Hfh Hh Lf Lt Lb. unfold dl_Append, dl_IsEmpty. rewrite (get_next_ok _ _ _ Hn). cbn. rewrite (proj2 (Z.eqb_neq _ _) Hf).
  rewrite (get_prev_ok _ _ _ Hp). cbn [mbind outcome_bind]. pose proof (nxt_some _ _ _ Hn). pose proof (prv_some _ _ _ Hb).
  step_set set_next_ok m tb h; [live|]. rewrite (get_prev_ok m0 h back) by (fields; done). cbn [mbind outcome_bind].
  step_set set_prev_ok m0 tf back; [live|]. rewrite (get_prev_ok m1 h back) by (fields; done). cbn [mbind outcome_bind].
  step_set set_prev_ok m1 h tb; [live|]. step_set set_next_ok m2 back tf; [live|]. step_set set_prev_ok m3 h2 h2; [live|].
  destruct (set_next_ok m4 h2 h2) as (m5 & -> & ? & ? & _); [live|]. exists m5. split; [done|]. split; intros x; fields.
Qed.

Lemma last_nonempty (x h : Z) l : List.last (x :: l) h = List.last l x.
Proof. apply last_shift. Qed.

Lemma dlist_append m h h2 l l2 : dlist m h l -> dlist m h2 l2 -> (forall x, x ∈ h :: l -> x ∉ h2 :: l2) ->
  exists m', dl_Append m h h2 = Done m' /\ dlist m' h (l ++ l2) /\ dlist m' h2 [] /\
    forall x, x ∉ h :: l -> x ∉ h2 :: l2 -> m' !! x = m !! x.
Proof.
  intros Hd Hd2 Hdis. destruct (dlist_front _ _ _ Hd) as [Hf Hb]. destruct (dlist_front _ _ _ Hd2) as [Hf2 Hb2].
  destruct l2 as [|f l2].
  { exists m. unfold dl_Append. rewrite (IsEmpty_ok _ _ _ Hd2). cbn. by rewrite app_nil_r. }
  rewrite last_nonempty in Hb2. simpl in Hf2. set (b := List.last l2 f) in *. set (back := List.last l h) in *.
  pose proof Hd as [Hr Nd H0]. pose proof Hd2 as [Hr2 Nd2 H02].
  assert (Ib : b ∈ f :: l2) by apply last_cons_in. assert (Ibk : back ∈ h :: l) by apply last_cons_in.
  assert (D : forall x y, x ∈ h :: l -> y ∈ h2 :: f :: l2 -> x <> y) by (intros x y Hx Hy ->; by apply (Hdis y)).
  assert (Ih : h ∈ h :: l) by by left. assert (Ih2 : h2 ∈ h2 :: f :: l2) by by left.
  assert (If : f ∈ h2 :: f :: l2) by (right; by left). assert (Ib' : b ∈ h2 :: f :: l2) by by right.
  pose proof Nd2 as Nd2'. apply list.NoDup_cons in Nd2' as [Nh2 Nl2].
  destruct (Append_ok m h h2 f b back) as (m' & -> & Hnxt & Hprv);
    [done|done|done|by intros ->; apply Nh2; left|by apply not_eq_sym, D|by apply D|by eapply (dlist_live m h2)|by eapply (dlist_live m h2)|by eapply (dlist_live m h)|].
  exists m'. split; [done|].
  pose proof (dlist_cut m h2 [] (f :: l2) Hd2) as (_ & _ & R2). simpl in R2.
  apply (ring_app m f l2 h2 []) in R2 as (R2 & _ & _).
  assert (b <> h2) by (intros E; apply Nh2; by rewrite <- E).
  assert (Hnd : base.NoDup ((h :: l) ++ f :: l2)) by (apply list.NoDup_app; split_and!; [done|intros x Hx Hy; apply (Hdis x Hx); by right|done]).
  split; [split|split].
  - apply dlist_paste.
    + rewrite <- (app_nil_r l) in Hd. destruct (dlist_cut _ _ _ _ Hd) as (R1 & _). eapply ring_frame; [| |exact R1]; intros y Hy.
      * apply (removelast_ne _ _ _ Nd) in Hy as [Hy1 Hy2]. rewrite Hnxt, !decide_False by auto. done.
      * assert (y ∈ h :: l) by by right. assert (y <> h) by (intros ->; by apply list.NoDup_cons in Nd as [? _]).
        rewrite Hprv, !decide_False by auto. done.
    + simpl. fold back. assert (back <> h2) by auto. assert (f <> h2) by (intros ->; apply Nh2; by left). assert (f <> h) by (by apply not_eq_sym, D).
      split; [rewrite Hnxt|rewrite Hprv]; repeat case_decide; done.
    + apply (ring_app m' f l2 h []). fold b. assert (h <> h2) by auto. assert (b <> back) by (by apply not_eq_sym, D).
      split; [|split; [split; [rewrite Hnxt|rewrite Hprv]; repeat case_decide; done|done]].
      eapply ring_frame; [| |exact R2]; intros y Hy.
      * apply (removelast_ne _ _ _ Nl2) in Hy as [Hy1 Hy2]. assert (y <> back) by (apply not_eq_sym, D; [done|by right]).
        rewrite Hnxt, !decide_False; [done|done|done|by intros ->].
      * assert (y <> h) by (apply not_eq_sym, D; [done|by do 2 right]). apply list.NoDup_cons in Nl2 as [Nf _].
        rewrite Hprv, !decide_False; [done|by intros ->|done|intros ->; apply Nh2; by right].
  - done.
  - change (0 ∉ (h :: l) ++ f :: l2). rewrite elem_of_app. intros [?|?]; [done|]. apply H02. by right.
  - split; [|by apply NoDup_singleton|by rewrite list_elem_of_singleton; intros <-; apply H02; left].
    simpl. rewrite Hnxt, Hprv, !decide_True by done. done.
  - intros x Hx Hx2. apply node_ext; rewrite ?Hnxt, ?Hprv, !decide_False; try done; by intros ->.
Qed.

(** ** Walking a list *)

Lemma dlist_item m h l1 x l2 : dlist m h (l1 ++ x :: l2) ->
  x <> h /\ nxt m x = Some (hd h l2) /\ prv m x = Some (List.last l1 h).
Proof.
  intros Hd. pose proof Hd as [_ Hnd _]. apply list.NoDup_cons in Hnd as [Hnd _]. split; [intros ->; apply Hnd, elem_of_app; right; by left|].
  destruct (dlist_cut _ _ _ _ Hd) as (_ & [_ H2] & R2). split; [|done].
  destruct (hd_app_eq h l2) as (c2 & E & _). change ((x :: l2) ++ [h]) with (x :: l2 ++ [h]) in R2. rewrite E in R2. by destruct R2 as [? _].
Qed.

Lemma dl_iterate_ok m h fuel l1 l2 : dlist m h (l1 ++ l2) -> (length l2 <= fuel)%nat -> dl_iterate fuel m h (hd h l2) = Done l2.
Proof.
  revert fuel l1. induction l2 as [|x l2 IH]; intros fuel l1 Hd Hf; [by destruct fuel; simpl; rewrite decide_True|].
  destruct (dlist_item _ _ _ _ _ Hd) as (Hx & Hn & _). destruct fuel as [|fuel]; simpl in Hf; [lia|]. simpl. rewrite decide_False by done.
  rewrite (get_next_ok _ _ _ Hn). cbn [mbind outcome_bind]. rewrite (cons_middle x l1 l2), app_assoc in Hd. rewrite (IH fuel _ Hd) by lia. done.
Qed.

Lemma dl_iterate_back_ok m h fuel l1 l2 : dlist m h (l1 ++ l2) -> (length l1 <= fuel)%nat -> dl_iterate_back fuel m h (List.last l1 h) = Done (rev l1).
Proof.
  revert fuel l2. induction l1 as [|x l1 IH] using rev_ind; intros fuel l2 Hd Hf; [by destruct fuel; simpl; rewrite decide_True|].
  rewrite last_last, rev_app_distr. rewrite length_app in Hf. simpl in Hf. rewrite <- app_assoc in Hd. destruct (dlist_item _ _ _ _ _ Hd) as (Hx & _ & Hp).
  destruct fuel as [|fuel]; [lia|]. simpl. rewrite decide_False by done. rewrite (get_prev_ok _ _ _ Hp). cbn [mbind outcome_bind].
  rewrite (IH fuel _ Hd) by lia. done.
Qed.

Lemma dl_items_ok m h l fuel : dlist m h l -> (length l <= fuel)%nat -> dl_items fuel m h = Done l /\ dl_items_back fuel m h = Done (rev l).
Proof.
  intros Hd Hf. destruct (dlist_front _ _ _ Hd) as [Hn Hp]. unfold dl_items, dl_items_back.
  rewrite (get_next_ok _ _ _ Hn), (get_prev_ok _ _ _ Hp). cbn [mbind outcome_bind].
  rewrite (dl_iterate_ok m h fuel [] l), (dl_iterate_back_ok m h fuel l []) by (rewrite ?app_nil_r; done). done.
Qed.

Lemma dl_UnlinkAll_ok m h l fuel : dlist m h l -> (length l <= fuel)%nat ->
  exists m', dl_UnlinkAll fuel m h = Done m' /\ dlist m' h [] /\ (forall x, x ∈ l -> unlinked m' x) /\ forall x, x ∉ h :: l -> m' !! x = m !! x.
Proof.
  intros Hd Hf. unfold dl_UnlinkAll. destruct (dlist_front _ _ _ Hd) as [Hn _]. rewrite (get_next_ok _ _ _ Hn). cbn [mbind outcome_bind]. clear Hn.
  revert fuel m Hd Hf. induction l as [|x l IH]; intros fuel m Hd Hf.
  { exists m. split; [by destruct fuel; simpl; rewrite decide_True|]. split; [done|]. split; [by intros x ?%elem_of_nil|done]. }
  destruct fuel as [|fuel]; simpl in Hf; [lia|]. destruct (dlist_item m h [] x l Hd) as (Hx & Hn & _). simpl. rewrite decide_False by done.
  rewrite (get_next_ok _ _ _ Hn). cbn [mbind outcome_bind]. destruct (dlist_remove m h [] x l Hd) as (m1 & -> & Hd1 & Hu & Hfr). cbn [mbind outcome_bind app] in *.
  destruct (IH fuel m1 Hd1 ltac:(lia)) as (m' & -> & Hd' & Hu' & Hfr'). exists m'. split; [done|]. split; [done|].
  destruct Hd as [_ Hnd _]. apply list.NoDup_cons in Hnd as [Nh Nx]. apply list.NoDup_cons in Nx as [Nx _]. split.
  - intros y [->|Hy]%elem_of_cons; [|by apply Hu']. unfold unlinked. rewrite Hfr'; [done|]. by apply not_elem_of_cons.
  - intros y Hy. rewrite Hfr', Hfr; [done|done|]. apply not_elem_of_cons in Hy as [H1 H2]. apply not_elem_of_cons in H2 as [H2 H3]. by apply not_elem_of_cons.
Qed.

(** ** Sorting *)

(** A list without one item. *)
Definition drop_item (n : Z) (l : list Z) : list Z := filter (fun x => x <> n) l.

Lemma drop_item_notin n l : n ∉ l -> drop_item n l = l.
Proof.
  unfold drop_item. induction l as [|x l IH]; intros Hn; [done|]. apply not_elem_of_cons in Hn as [Hx Hn].
  rewrite filter_cons_True by auto. by rewrite IH.
Qed.
Lemma drop_item_mid n l1 l2 : base.NoDup (l1 ++ n :: l2) -> drop_item n (l1 ++ n :: l2) = l1 ++ l2.
Proof.
  intros Hnd. apply list.NoDup_app in Hnd as (_ & H1 & H2). apply list.NoDup_cons in H2 as [H2 _]. unfold drop_item.
  rewrite list.filter_app, filter_cons_False by (intros H; by apply H). fold (drop_item n l1) (drop_item n l2).
  rewrite !drop_item_notin; [done|done|]. intros H. apply (H1 n H). by left.
Qed.
Lemma elem_of_drop_item n x l : x ∈ drop_item n l <-> x <> n /\ x ∈ l.
Proof. unfold drop_item. by rewrite list_elem_of_filter. Qed.

Section sorting.
Context (less : Z -> Z -> bool).

(** The candidate that a pass over the items selects. *)
Definition pick (candidate curr : Z) : Z := if less curr candidate then curr else candidate.
Definition selected (x : Z) (l : list Z) : Z := foldl pick x l.

Lemma selected_in x l : selected x l ∈ x :: l.
Proof.
  unfold selected. revert x. induction l as [|y l IH]; intros x; [by left|]. simpl. specialize (IH (pick x y)).
  apply elem_of_cons in IH as [->|IH]; [|by do 2 right]. unfold pick. destruct (less y x); [right; by left|by left].
Qed.

(** Selection: the sequence that the outer loop of [Sort] builds, in [n] passes. *)
Fixpoint selection (n : nat) (l : list Z) : list Z :=
  match n, l with
  | S n, x :: l => let c := selected x l in c :: selection n (drop_item c (x :: l))
  | _, _ => []
  end.

Lemma dl_candidate_ok m h fuel l1 l2 c : dlist m h (l1 ++ l2) -> (length l2 <= fuel)%nat -> dl_candidate less fuel m h c (hd h l2) = Done (selected c l2).
Proof.
  revert fuel l1 c. induction l2 as [|x l2 IH]; intros fuel l1 c Hd Hf; [by destruct fuel; simpl; rewrite decide_True|].
  destruct (dlist_item _ _ _ _ _ Hd) as (Hx & Hn & _). destruct fuel as [|fuel]; simpl in Hf; [lia|]. simpl. rewrite decide_False by done.
  rewrite (get_next_ok _ _ _ Hn). cbn [mbind outcome_bind]. rewrite (cons_middle x l1 l2), app_assoc in Hd. rewrite (IH fuel _ _ Hd) by lia. done.
Qed.

Lemma length_drop_item c l1 l2 : base.NoDup (l1 ++ c :: l2) -> length (drop_item c (l1 ++ c :: l2)) = pred (length (l1 ++ c :: l2)).
Proof. intros H. rewrite drop_item_mid by done. rewrite !length_app. simpl. lia. Qed.
Lemma dlist_push_back m h l n : dlist m h l -> n ∉ h :: l -> n <> 0 -> nxt m n = Some 0 ->
  exists m', dl_PushBack m h n = Done m' /\ dlist m' h (l ++ [n]) /\ forall x, x ∉ h :: l -> x <> n -> m' !! x = m !! x.
Proof.
  intros Hd. rewrite <- (app_nil_r l) in Hd. intros Hn. rewrite <- (app_nil_r l) in Hn. intros Hn0 Hnn.
  destruct (dlist_insert m h l [] n Hd Hn Hn0 Hnn) as (m' & ? & ? & ?). rewrite app_nil_r in *. by exists m'.
Qed.

Lemma unlinked_nxt m n : unlinked m n -> nxt m n = Some 0.
Proof. unfold unlinked, nxt. by intros ->. Qed.

Lemma dlist_linked m h l n : dlist m h l -> n ∈ h :: l -> exists x, nxt m n = Some x /\ x <> 0.
Proof.
  intros Hd Hn. assert (Hl : exists x, nxt m n = Some x /\ x ∈ h :: l).
  { apply elem_of_cons in Hn as [->|Hn].
    - destruct (dlist_front _ _ _ Hd) as [H _]. exists (hd h l). split; [done|]. destruct l; [by left|right; by left].
    - apply list_elem_of_split in Hn as (l1 & l2 & ->). destruct (dlist_item _ _ _ _ _ Hd) as (_ & H & _). exists (hd h l2). split; [done|].
      destruct l2 as [|y l2]; [by left|]. right. apply elem_of_app. right. right. by left. }
  destruct Hl as (x & H & Hx). exists x. split; [done|]. intros ->. by apply (dl_nonnull _ _ _ Hd).
Qed.

Lemma IsLinked_ok m n x : nxt m n = Some x -> dn_IsLinked m n = Done (negb (x =? 0)).
Proof. intros H. unfold dn_IsLinked. by rewrite (get_next_ok _ _ _ H). Qed.

Lemma Sort_loop_ok fuel : forall m h s l ls, dlist m h l -> dlist m s ls -> (forall x, x ∈ h :: l -> x ∉ s :: ls) -> (length l <= fuel)%nat ->
  exists m', dl_Sort_loop less fuel m h s = Done m' /\ dlist m' h [] /\ dlist m' s (ls ++ selection (length l) l) /\
    forall x, x ∉ h :: l -> x ∉ s :: ls -> m' !! x = m !! x.
Proof.
  induction fuel as [|fuel IH]; intros m h s l ls Hd Hs Hdis Hf; (destruct l as [|x l];
    [exists m; cbn [dl_Sort_loop]; rewrite (IsEmpty_ok _ _ _ Hd); cbn; by rewrite app_nil_r|]); simpl in Hf; [lia|].
  cbn [dl_Sort_loop]. rewrite (IsEmpty_ok _ _ _ Hd). cbn [mbind outcome_bind]. rewrite bool_decide_eq_false_2 by done.
  destruct (dlist_front _ _ _ Hd) as [Hn _]. rewrite (get_next_ok _ _ _ Hn). destruct (dlist_item m h [] x l Hd) as (Hx & Hnx & _).
  cbn [mbind outcome_bind hd]. rewrite (proj2 (Z.eqb_neq _ _) Hx). cbn [mbind outcome_bind verify negb]. rewrite (get_next_ok _ _ _ Hnx). cbn [mbind outcome_bind].
  rewrite (dl_candidate_ok m h fuel [x] l x Hd) by lia. cbn [mbind outcome_bind]. cbn [length selection]. pose proof (selected_in x l) as Hc.
  set (c := selected x l) in *. clearbody c. destruct (dlist_linked m h _ c Hd ltac:(by right)) as (k & Hk & Hk0).
  rewrite (IsLinked_ok _ _ _ Hk), (proj2 (Z.eqb_neq _ _) Hk0). cbn [mbind outcome_bind verify negb].
  assert (Hlen : length l = length (drop_item c (x :: l)) /\ exists l1 l2, x :: l = l1 ++ c :: l2 /\ drop_item c (x :: l) = l1 ++ l2).
  { apply list_elem_of_split in Hc as (l1 & l2 & E). pose proof (dl_nodup _ _ _ Hd) as Hnd. apply list.NoDup_cons in Hnd as [_ Hnd]. rewrite E in Hnd |- *.
    split; [rewrite length_drop_item, <- E by done; done|]. exists l1, l2. by rewrite drop_item_mid. }
  destruct Hlen as [Hlen (l1 & l2 & E & Ed)]. rewrite Hlen, Ed in *. clear Hn Hnx Hx Hk Hk0 k. rewrite E in *. clear E x.
  destruct (dlist_remove m h l1 c l2 Hd) as (m1 & -> & Hd1 & Hu & Hfr). cbn [mbind outcome_bind].
  assert (Hin : forall y, y ∈ h :: l1 ++ c :: l2 <-> y = c \/ y ∈ h :: l1 ++ l2).
  { intros y. change (h :: l1 ++ c :: l2) with ((h :: l1) ++ c :: l2). rewrite <- Permutation_middle. by rewrite elem_of_cons. }
  assert (Hcs : c ∉ s :: ls) by (apply Hdis, Hin; by left).
  assert (Hs1 : dlist m1 s ls) by (eapply dlist_frame; [exact Hs|]; intros y Hy; apply Hfr; intros Hy'; by apply (Hdis y)).
  assert (Hc0 : c <> 0) by (intros ->; apply (dl_nonnull _ _ _ Hd), Hin; by left).
  destruct (dlist_push_back m1 s ls c Hs1 Hcs Hc0 (unlinked_nxt _ _ Hu)) as (m2 & -> & Hs2 & Hfr2). cbn [mbind outcome_bind].
  assert (Nc : c ∉ h :: l1 ++ l2).
  { pose proof (dl_nodup _ _ _ Hd) as Hnd. change (h :: l1 ++ c :: l2) with ((h :: l1) ++ c :: l2) in Hnd. rewrite <- Permutation_middle in Hnd. by apply list.NoDup_cons in Hnd as [? _]. }
  assert (Hin2 : forall y, y ∈ s :: ls ++ [c] -> y = c \/ y ∈ s :: ls) by (intros y; rewrite !elem_of_cons, elem_of_app, list_elem_of_singleton; tauto).
  destruct (IH m2 h s (l1 ++ l2) (ls ++ [c])) as (m' & -> & Hh' & Hs' & Hfr').
  - eapply dlist_frame; [exact Hd1|]. intros y Hy. apply Hfr2; [apply Hdis, Hin; by right|by intros ->].
  - done.
  - intros y Hy [->|Hy2]%Hin2; [done|]. by apply (Hdis y); [apply Hin; right|].
  - rewrite <- Ed in *. lia.
  - exists m'. split; [done|]. split; [done|]. split; [by rewrite <- app_assoc in Hs'|].
    intros y Hy Hys. rewrite Hin in Hy. rewrite Hfr', Hfr2, Hfr; [done|by rewrite Hin|done|tauto|tauto|]. intros [->|?]%Hin2; tauto.
Qed.
End sorting.

Definition apart (c1 c2 : list Z) : Prop := forall x, x ∈ c1 -> x ∉ c2.

Lemma apart_sym c1 c2 : apart c1 c2 -> apart c2 c1.
Proof. intros H x H1 H2. by apply (H x). Qed.
Lemma apart_sub c1 c2 d1 d2 : apart c1 c2 -> (forall x, x ∈ d1 -> x ∈ c1) -> (forall x, x ∈ d2 -> x ∈ c2) -> apart d1 d2.
Proof. intros H H1 H2 x Hx Hx2. apply (H x); auto. Qed.
Lemma apart_cons t c : t ∉ c -> apart [t] c.
Proof. by intros H x ->%list_elem_of_singleton. Qed.
Lemma in_cons_ends (a x : Z) l : x ∈ [a] -> x ∈ a :: l.
Proof. intros ->%list_elem_of_singleton. by left. Qed.

Lemma dlist_new m t : t <> 0 -> exists m', dl_new m t = Done m' /\ dlist m' t [] /\ forall x, x <> t -> m' !! x = m !! x.
Proof.
  intros Ht. eexists. unfold dl_new, dl_InitEmpty, set_prev, set_next. rewrite lookup_insert_eq. cbn [mbind outcome_bind]. rewrite lookup_insert_eq.
  split; [done|]. split; [apply dlist_nil; [done|by rewrite lookup_insert_eq]|]. intros x Hx. by rewrite !lookup_insert_ne.
Qed.

Lemma dlist_destroy m t : dlist m t [] -> dl_destroy m t = Done (delete t m).
Proof. intros H. unfold dl_destroy. by rewrite (IsEmpty_ok _ _ _ H). Qed.

Lemma dlist_swap m t h w l lw : dlist m h l -> dlist m w lw -> apart (h :: l) (w :: lw) -> t <> 0 -> t ∉ h :: l -> t ∉ w :: lw ->
  exists m', dl_Swap m t h w = Done m' /\ dlist m' h lw /\ dlist m' w l /\ m' !! t = None /\
    forall x, x ∉ h :: l -> x ∉ w :: lw -> x <> t -> m' !! x = m !! x.
Proof.
  intros Hh Hw Hap Ht Nh Nw. unfold dl_Swap. destruct (dlist_new m t Ht) as (m1 & -> & Ht1 & F1). cbn [mbind outcome_bind].
  assert (Hh1 : dlist m1 h l) by (eapply dlist_frame; [exact Hh|]; intros x Hx; apply F1; by intros ->).
  assert (Hw1 : dlist m1 w lw) by (eapply dlist_frame; [exact Hw|]; intros x Hx; apply F1; by intros ->).
  destruct (dlist_append m1 t h [] l Ht1 Hh1 (apart_cons _ _ Nh)) as (m2 & -> & Ht2 & Hh2 & F2). cbn [mbind outcome_bind app] in *.
  assert (Hw2 : dlist m2 w lw).
  { eapply dlist_frame; [exact Hw1|]. intros x Hx. apply F2; [intros ->%list_elem_of_singleton; done|]. by apply (apart_sym _ _ Hap). }
  assert (A1 : apart [h] (w :: lw)) by (eapply apart_sub; [exact Hap|intros x; by apply in_cons_ends|done]).
  destruct (dlist_append m2 h w [] lw Hh2 Hw2 A1) as (m3 & -> & Hh3 & Hw3 & F3). cbn [mbind outcome_bind app] in *.
  assert (Ht3 : dlist m3 t l).
  { eapply dlist_frame; [exact Ht2|]. intros x Hx. apply elem_of_cons in Hx as [->|Hx].
    - apply F3; [intros ->%list_elem_of_singleton; apply Nh; by left|done].
    - apply F3; [intros ->%list_elem_of_singleton; pose proof (dl_nodup _ _ _ Hh) as N; by apply list.NoDup_cons in N as [? _]|]. apply Hap. by right. }
  assert (A2 : apart [w] (t :: l)).
  { intros x ->%list_elem_of_singleton. intros [->|Hx]%elem_of_cons; [apply Nw; by left|]. apply (Hap w); [by right|by left]. }
  destruct (dlist_append m3 w t [] l Hw3 Ht3 A2) as (m4 & -> & Hw4 & Ht4 & F4). cbn [mbind outcome_bind app] in *.
  rewrite (dlist_destroy _ _ Ht4). exists (delete t m4). split; [done|]. split; [|split; [|split]].
  - eapply dlist_frame; [exact Hh3|]. intros x Hx. rewrite lookup_delete_ne by (intros ->; apply elem_of_cons in Hx as [->|?]; [apply Nh; by left|apply Nw; by right]).
    apply F4.
    + intros ->%list_elem_of_singleton. apply elem_of_cons in Hx as [->|Hx]; [apply (Hap h); by left|]. pose proof (dl_nodup _ _ _ Hw) as N. by apply list.NoDup_cons in N as [? _].
    + intros Hx2. apply elem_of_cons in Hx as [->|Hx], Hx2 as [->|Hx2].
      * apply Nh; by left.
      * pose proof (dl_nodup _ _ _ Hh) as N. by apply list.NoDup_cons in N as [? _].
      * apply Nw; by right.
      * apply (Hap x); by right.
  - eapply dlist_frame; [exact Hw4|]. intros x Hx. rewrite lookup_delete_ne; [done|]. intros ->. apply elem_of_cons in Hx as [->|?]; [apply Nw; by left|apply Nh; by right].
  - apply lookup_delete_eq.
  - intros x Hx1 Hx2 Hxt. rewrite lookup_delete_ne by done. apply not_elem_of_cons in Hx1 as Hx1'. apply not_elem_of_cons in Hx2 as Hx2'.
    rewrite F4, F3, F2, F1; try done; rewrite ?list_elem_of_singleton, ?elem_of_cons; tauto.
Qed.

Lemma selection_perm less n l : base.NoDup l -> (length l <= n)%nat -> selection less n l ≡ₚ l.
Proof.
  revert l. induction n as [|n IH]; intros [|x l] Hnd Hl; simpl in *; try done; [lia|].
  pose proof (selected_in less x l) as Hc. set (c := selected less x l) in *. clearbody c. apply list_elem_of_split in Hc as (l1 & l2 & E). rewrite E in *.
  assert (E' : drop_item c (l1 ++ c :: l2) = l1 ++ l2) by by apply drop_item_mid. rewrite E', <- Permutation_middle. constructor. apply IH.
  - rewrite <- Permutation_middle in Hnd. by apply list.NoDup_cons in Hnd as [_ ?].
  - pose proof (f_equal length E) as EL. rewrite length_app in EL. simpl in EL. rewrite length_app. lia.
Qed.

Lemma dlist_sort less m s t h l fuel : dlist m h l -> s <> 0 -> t <> 0 -> s <> t -> s ∉ h :: l -> t ∉ h :: l -> (length l <= fuel)%nat ->
  exists m', dl_Sort less fuel m s t h = Done m' /\ dlist m' h (selection less (length l) l) /\
    forall x, x ∉ h :: l -> x <> s -> x <> t -> m' !! x = m !! x.
Proof.
  intros Hh Hs Ht Hst Ns Nt Hf. unfold dl_Sort. destruct (dlist_new m s Hs) as (m1 & -> & Hs1 & F1). cbn [mbind outcome_bind].
  assert (Hh1 : dlist m1 h l) by (eapply dlist_frame; [exact Hh|]; intros x Hx; apply F1; by intros ->).
  destruct (Sort_loop_ok less fuel m1 h s l [] Hh1 Hs1 (apart_sym _ _ (apart_cons _ _ Ns)) Hf) as (m2 & -> & Hh2 & Hs2 & F2). cbn [mbind outcome_bind app] in *.
  assert (P : forall x, x ∈ selection less (length l) l <-> x ∈ l).
  { intros x. rewrite selection_perm; [done| |done]. by pose proof (dl_nodup _ _ _ Hh) as [_ N]%list.NoDup_cons. }
  destruct (dlist_swap m2 t h s [] _ Hh2 Hs2) as (m3 & -> & Hh3 & Hs3 & _ & F3).
  - intros x ->%list_elem_of_singleton. rewrite elem_of_cons, P. intros [->|Hx]; [apply Ns; by left|]. by pose proof (dl_nodup _ _ _ Hh) as [? _]%list.NoDup_cons.
  - done.
  - rewrite list_elem_of_singleton. intros ->. apply Nt. by left.
  - rewrite elem_of_cons, P. intros [->|?]; [done|]. apply Nt. by right.
  - cbn [mbind outcome_bind]. rewrite (dlist_destroy _ _ Hs3). exists (delete s m3). split; [done|]. split.
    + eapply dlist_frame; [exact Hh3|]. intros x Hx. apply lookup_delete_ne. intros ->. apply Ns. rewrite elem_of_cons, P in Hx. by apply elem_of_cons.
    + intros x Hx Hxs Hxt. rewrite lookup_delete_ne by done. apply not_elem_of_cons in Hx as Hx'.
      rewrite F3, F2, F1; try done; rewrite ?list_elem_of_singleton, ?elem_of_cons, ?P; tauto.
Qed.

(** ** Programs over several lists

    [dop] is one call of the interface; the client of the pointers sees a value or [nullptr]
    ([0]).  Local lists of [Swap] and [Sort] get their addresses from the call.  The heap's
    size bounds the length of every list, and is the fuel of the loops. *)

Inductive dop :=
  | ONode (n : Z) | OList (h : Z) | OMove (h that : Z) | ODestroy (h : Z)
  | OPushBack (h n : Z) | OPushFront (h n : Z) | OPopFront (h : Z) | OPopBack (h : Z)
  | OUnlink (n : Z) | OIsLinked (n : Z) | OAppend (h that : Z) | OSwap (tmp h with_ : Z)
  | OSort (less : Z -> Z -> bool) (sorted tmp h : Z) | OUnlinkAll (h : Z)
  | OIsEmpty (h : Z) | OSize (h : Z) | OItems (h : Z) | OItemsBack (h : Z).

Definition quiet (o : outcome dheap) : outcome (dheap * list Z) := m ← o; Done (m, []).
Definition popped (o : outcome (dheap * Z)) : outcome (dheap * list Z) := p ← o; Done (p.1, [p.2]).
Definition asked {A} (m : dheap) (f : A -> list Z) (o : outcome A) : outcome (dheap * list Z) := a ← o; Done (m, f a).

Definition dl_run (o : dop) (m : dheap) : outcome (dheap * list Z) :=
  let fuel := size m in
  match o with
  | ONode n => Done (<[n := mkDNode 0 0]> m, [])
  | OList h => quiet (dl_new m h)
  | OMove h that => quiet (dl_move m h that)
  | ODestroy h => quiet (dl_destroy m h)
  | OPushBack h n => quiet (dl_PushBack m h n)
  | OPushFront h n => quiet (dl_PushFront m h n)
  | OPopFront h => popped (dl_PopFront m h)
  | OPopBack h => popped (dl_PopBack m h)
  | OUnlink n => quiet (dn_Unlink m n)
  | OIsLinked n => asked m (fun b : bool => [Z.b2z b]) (dn_IsLinked m n)
  | OAppend h that => quiet (dl_Append m h that)
  | OSwap tmp h with_ => quiet (dl_Swap m tmp h with_)
  | OSort less sorted tmp h => quiet (dl_Sort less fuel m sorted tmp h)
  | OUnlinkAll h => quiet (dl_UnlinkAll fuel m h)
  | OIsEmpty h => asked m (fun b : bool => [Z.b2z b]) (dl_IsEmpty m h)
  | OSize h => asked m (fun n => [n]) (dl_Size fuel m h)
  | OItems h => asked m id (dl_items fuel m h)
  | OItemsBack h => asked m id (dl_items_back fuel m h)
  end.

(** The specification: a sequence of items for every list, and the nodes outside of lists. *)
Record dspec := mkSpec { ds_lists : gmap Z (list Z); ds_free : gset Z }.

Definition ds_used (a : dspec) : list Z := elements (ds_free a) ++ (map_to_list (ds_lists a) ≫= fun p => p.1 :: p.2).
Definition ds_linked (a : dspec) (n : Z) : bool := bool_decide (n ∈ map_to_list (ds_lists a) ≫= fun p => p.2).
Definition fresh_for (a : dspec) (x : Z) : bool := bool_decide (x <> 0 /\ x ∉ ds_used a).

(** [None]: the call breaks the contract of the interface (an address that is no list or no
    node, a list appended to itself, a local at an address in use). *)
Definition spec_push (a : dspec) (h n : Z) (f : list Z -> list Z) : option (outcome (dspec * list Z)) :=
  l ← ds_lists a !! h;
  if bool_decide (n ∈ ds_free a) then Some (Done (mkSpec (<[h := f l]> (ds_lists a)) (ds_free a ∖ {[n]}), []))
  else if ds_linked a n then Some Failed else None.
Definition spec_pop (a : dspec) (h : Z) (f : list Z -> option Z) : option (outcome (dspec * list Z)) :=
  l ← ds_lists a !! h;
  match f l with
  | None => Some (Done (a, [0]))
  | Some x => Some (Done (mkSpec (<[h := drop_item x l]> (ds_lists a)) ({[x]} ∪ ds_free a), [x]))
  end.
Definition spec_ask (a : dspec) (h : Z) (f : list Z -> list Z) : option (outcome (dspec * list Z)) :=
  l ← ds_lists a !! h; Some (Done (a, f l)).
Definition spec_new (a : dspec) (h : Z) (l : list Z) (ls : gmap Z (list Z)) : option (outcome (dspec * list Z)) :=
  if fresh_for a h then Some (Done (mkSpec (<[h := l]> ls) (ds_free a), [])) else None.

Definition dl_spec (o : dop) (a : dspec) : option (outcome (dspec * list Z)) :=
  let ls := ds_lists a in
  match o with
  | ONode n => if fresh_for a n then Some (Done (mkSpec ls ({[n]} ∪ ds_free a), [])) else None
  | OList h => spec_new a h [] ls
  | OMove h that => l ← ls !! that; spec_new a h l (<[that := []]> ls)
  | ODestroy h => l ← ls !! h; Some (if bool_decide (l = []) then Done (mkSpec (delete h ls) (ds_free a), []) else Failed)
  | OPushBack h n => spec_push a h n (fun l => l ++ [n])
  | OPushFront h n => spec_push a h n (fun l => n :: l)
  | OPopFront h => spec_pop a h head
  | OPopBack h => spec_pop a h list.last
  | OUnlink n =>
      if bool_decide (n ∈ ds_free a) then Some (Done (a, []))
      else if ds_linked a n then Some (Done (mkSpec (drop_item n <$> ls) ({[n]} ∪ ds_free a), [])) else None
  | OIsLinked n =>
      if bool_decide (n ∈ ds_free a) then Some (Done (a, [0])) else if ds_linked a n then Some (Done (a, [1])) else None
  | OAppend h that =>
      l ← ls !! h; l2 ← ls !! that;
      if decide (h = that) then None else Some (Done (mkSpec (<[h := l ++ l2]> (<[that := []]> ls)) (ds_free a), []))
  | OSwap tmp h with_ =>
      l ← ls !! h; l2 ← ls !! with_;
      if fresh_for a tmp && bool_decide (h <> with_) then Some (Done (mkSpec (<[h := l2]> (<[with_ := l]> ls)) (ds_free a), [])) else None
  | OSort less sorted tmp h =>
      l ← ls !! h;
      if fresh_for a sorted && fresh_for a tmp && bool_decide (sorted <> tmp)
      then Some (Done (mkSpec (<[h := selection less (length l) l]> ls) (ds_free a), [])) else None
  | OUnlinkAll h => l ← ls !! h; Some (Done (mkSpec (<[h := []]> ls) (list_to_set l ∪ ds_free a), []))
  | OIsEmpty h => spec_ask a h (fun l => [Z.b2z (bool_decide (l = []))])
  | OSize h => spec_ask a h (fun l => [zlen l])
  | OItems h => spec_ask a h id
  | OItemsBack h => spec_ask a h (@rev Z)
  end.

(** The answers of a program; it stops at a failed assertion. *)
Fixpoint dl_runs (os : list dop) (m : dheap) : outcome (list (list Z)) :=
  match os with
  | [] => Done []
  | o :: os => p ← dl_run o m; rs ← dl_runs os p.1; Done (p.2 :: rs)
  end.
Fixpoint dl_specs (os : list dop) (a : dspec) : option (outcome (list (list Z))) :=
  match os with
  | [] => Some (Done [])
  | o :: os =>
      p ← dl_spec o a;
      match p with
      | Done (a, r) => rs ← dl_specs os a; Some (rs ← rs; Done (r :: rs))
      | Failed => Some Failed
      | Crashed => Some Crashed
      end
  end.

(** *** The heap holds the lists of the specification *)

Record models (m : dheap) (a : dspec) : Prop := {
  mo_list : forall h l, ds_lists a !! h = Some l -> dlist m h l;
  mo_apart : forall h1 l1 h2 l2, ds_lists a !! h1 = Some l1 -> ds_lists a !! h2 = Some l2 -> h1 <> h2 -> apart (h1 :: l1) (h2 :: l2);
  mo_free : forall n, n ∈ ds_free a -> n <> 0 /\ unlinked m n;
}.

Lemma ds_used_spec a x : x ∈ ds_used a <-> x ∈ ds_free a \/ exists h l, ds_lists a !! h = Some l /\ x ∈ h :: l.
Proof.
  unfold ds_used. rewrite elem_of_app, elem_of_elements, list_elem_of_bind. f_equiv. split.
  - intros ([h l] & H1 & H2%elem_of_map_to_list). by exists h, l.
  - intros (h & l & H1%elem_of_map_to_list & H2). by exists (h, l).
Qed.
Lemma ds_linked_spec a x : ds_linked a x = true <-> exists h l, ds_lists a !! h = Some l /\ x ∈ l.
Proof.
  unfold ds_linked. rewrite bool_decide_eq_true, list_elem_of_bind. split.
  - intros ([h l] & H1 & H2%elem_of_map_to_list). by exists h, l.
  - intros (h & l & H1%elem_of_map_to_list & H2). by exists (h, l).
Qed.

Section models.
Context (m : dheap) (a : dspec) (M : models m a).

Lemma free_not_listed n h l : n ∈ ds_free a -> ds_lists a !! h = Some l -> n ∉ h :: l.
Proof.
  intros Hn Hl Hin. apply (mo_free _ _ M) in Hn as [_ Hu%unlinked_nxt]. apply (mo_list _ _ M) in Hl.
  destruct (dlist_linked _ _ _ _ Hl Hin) as (x & Hx & Hx0). congruence.
Qed.

(** A step that changes only the addresses of [C]. *)
Lemma models_change m' ls F (C : Z -> Prop) :
  (forall x, ~ C x -> x ∈ ds_used a -> m' !! x = m !! x) ->
  (forall h l, ls !! h = Some l -> (ds_lists a !! h = Some l /\ forall x, x ∈ h :: l -> ~ C x) \/ (dlist m' h l /\ forall x, x ∈ h :: l -> C x)) ->
  (forall h1 l1 h2 l2, ls !! h1 = Some l1 -> ls !! h2 = Some l2 -> C h1 -> C h2 -> h1 <> h2 -> apart (h1 :: l1) (h2 :: l2)) ->
  (forall n, n ∈ F -> n <> 0 /\ unlinked m' n) -> models m' (mkSpec ls F).
Proof.
  intros Hfr Hls Hap HF. split; simpl.
  - intros h l H. destruct (Hls h l H) as [[H' HC]|[? _]]; [|done]. eapply dlist_frame; [by apply (mo_list _ _ M)|]. intros x Hx. apply Hfr; [by apply HC|].
    apply ds_used_spec. right. by exists h, l.
  - intros h1 l1 h2 l2 H1 H2 Hne. destruct (Hls _ _ H1) as [[H1' C1]|[_ C1]], (Hls _ _ H2) as [[H2' C2]|[_ C2]].
    + by apply (mo_apart _ _ M).
    + intros x Hx1 Hx2. by apply (C1 x Hx1), C2.
    + intros x Hx1 Hx2. by apply (C2 x Hx2), C1.
    + apply Hap; [done|done|apply C1; by left|apply C2; by left|done].
  - done.
Qed.
Lemma fresh_for_spec x : fresh_for a x = true -> x <> 0 /\ x ∉ ds_free a /\ forall h l, ds_lists a !! h = Some l -> x ∉ h :: l.
Proof.
  unfold fresh_for. rewrite bool_decide_eq_true, ds_used_spec. intros [H0 H]. split; [done|]. split; [tauto|].
  intros h l Hl Hx. apply H. right. by exists h, l.
Qed.

Lemma dlist_size h l : ds_lists a !! h = Some l -> (length l <= size m)%nat.
Proof.
  intros Hl%(mo_list _ _ M). pose proof (dl_nodup _ _ _ Hl) as [_ N]%list.NoDup_cons.
  rewrite <- (size_list_to_set (C := gset Z)) by done. rewrite <- size_dom. apply subseteq_size. intros x Hx%elem_of_list_to_set.
  apply elem_of_dom. eapply dlist_live; [done|]. by right.
Qed.

(** A step that changes one list and the nodes outside of lists. *)
Lemma models_one m' h l l' F : ds_lists a !! h = Some l -> dlist m' h l' -> (forall x, x ∈ l' -> x ∈ l \/ x ∈ ds_free a) ->
  (forall x, x ∉ h :: l -> x ∉ ds_free a -> x ∈ ds_used a -> m' !! x = m !! x) -> (forall n, n ∈ F -> n <> 0 /\ unlinked m' n) ->
  models m' (mkSpec (<[h := l']> (ds_lists a)) F).
Proof.
  intros Hl Hd Hsub Hfr HF. apply (models_change m' _ _ (fun x => x ∈ h :: l \/ x ∈ ds_free a)).
  - intros x Hx Hu. apply Hfr; tauto.
  - intros h1 l1. destruct (decide (h1 = h)) as [->|Hne].
    + rewrite lookup_insert_eq. intros [= <-]. right. split; [done|]. intros x [->|Hx]%elem_of_cons; [left; by left|]. destruct (Hsub x Hx); [left; by right|by right].
    + rewrite lookup_insert_ne by done. intros H1. left. split; [done|]. intros x Hx [H|H]; [|by apply (free_not_listed _ _ _ H H1)].
      by apply (mo_apart _ _ M h1 l1 h l H1 Hl Hne x).
  - assert (Hh : forall k lk, <[h := l']> (ds_lists a) !! k = Some lk -> k ∈ h :: l \/ k ∈ ds_free a -> k = h).
    { intros k lk. destruct (decide (k = h)) as [->|Hne]; [done|]. rewrite lookup_insert_ne by done. intros H1 [Hk|Hk].
      - exfalso. apply (mo_apart _ _ M k lk h l H1 Hl Hne k); [by left|done].
      - exfalso. apply (free_not_listed _ _ _ Hk H1). by left. }
    intros h1 l1 h2 l2 H1 H2 C1 C2 Hne. by rewrite (Hh h1 l1 H1 C1), (Hh h2 l2 H2 C2) in Hne.
  - done.
Qed.

(** The nodes outside of lists stay so. *)
Lemma free_stays m' (C : Z -> Prop) n : (forall x, ~ C x -> x ∈ ds_used a -> m' !! x = m !! x) -> ~ C n -> n ∈ ds_free a -> n <> 0 /\ unlinked m' n.
Proof.
  intros Hfr Hc Hn. assert (n ∈ ds_used a) by (apply ds_used_spec; by left). apply (mo_free _ _ M) in Hn as [? ?].
  split; [done|]. unfold unlinked. by rewrite Hfr.
Qed.

Lemma push_free m' n l1 l2 h : ds_lists a !! h = Some (l1 ++ l2) -> n ∈ ds_free a -> dlist m' h (l1 ++ n :: l2) ->
  (forall x, x ∉ h :: l1 ++ l2 -> x <> n -> m' !! x = m !! x) ->
  models m' (mkSpec (<[h := l1 ++ n :: l2]> (ds_lists a)) (ds_free a ∖ {[n]})).
Proof.
  intros Hl Hn Hd Hfr. eapply models_one; [done|done| | |].
  - intros x. rewrite !elem_of_app, elem_of_cons. intros [?|[->|?]]; tauto.
  - intros x Hx Hf _. apply Hfr; [done|]. by intros ->.
  - intros x [Hx Hxn]%elem_of_difference. rewrite elem_of_singleton in Hxn.
    apply (free_stays m' (fun y => y ∈ h :: l1 ++ l2 \/ y = n)); [intros y Hy _; apply Hfr; tauto| |done].
    intros [H|H]; [|done]. by apply (free_not_listed _ _ _ Hx Hl).
Qed.

Lemma linked_fails n : ds_linked a n = true -> exists x, nxt m n = Some x /\ x <> 0.
Proof. intros (h & l & Hl & Hin)%ds_linked_spec. apply (dlist_linked m h l); [by apply (mo_list _ _ M)|by right]. Qed.

Lemma LinkBefore_fails n next : ds_linked a n = true -> dn_LinkBefore m n next = Failed.
Proof.
  intros (x & Hx & H0)%linked_fails. unfold dn_LinkBefore. rewrite (IsLinked_ok _ _ _ Hx), (proj2 (Z.eqb_neq _ _) H0). done.
Qed.

Lemma remove_listed m' n l1 l2 h : ds_lists a !! h = Some (l1 ++ n :: l2) -> dlist m' h (l1 ++ l2) -> unlinked m' n ->
  (forall x, x ∉ h :: l1 ++ n :: l2 -> m' !! x = m !! x) ->
  models m' (mkSpec (<[h := l1 ++ l2]> (ds_lists a)) ({[n]} ∪ ds_free a)).
Proof.
  intros Hl Hd Hu Hfr. eapply models_one; [done|done| | |].
  - intros x. rewrite !elem_of_app, elem_of_cons. tauto.
  - intros x Hx _ _. by apply Hfr.
  - pose proof (mo_list _ _ M _ _ Hl) as Hd0. intros x [->%elem_of_singleton|Hx]%elem_of_union.
    + split; [|done]. intros ->. apply (dl_nonnull _ _ _ Hd0). right. apply elem_of_app. right. by left.
    + apply (free_stays m' (fun y => y ∈ h :: l1 ++ n :: l2)); [auto| |done]. by apply free_not_listed.
Qed.
(** A step that changes two lists. *)
Lemma models_two m' h h2 l l2 l' l2' : ds_lists a !! h = Some l -> ds_lists a !! h2 = Some l2 -> h <> h2 ->
  dlist m' h l' -> dlist m' h2 l2' -> (forall x, x ∈ l' \/ x ∈ l2' -> x ∈ l \/ x ∈ l2) -> apart l' l2' ->
  (forall x, x ∉ h :: l -> x ∉ h2 :: l2 -> x ∈ ds_used a -> m' !! x = m !! x) ->
  models m' (mkSpec (<[h := l']> (<[h2 := l2']> (ds_lists a))) (ds_free a)).
Proof.
  intros Hl Hl2 Hne Hd Hd2 Hsub Hap Hfr. pose proof (mo_apart _ _ M _ _ _ _ Hl Hl2 Hne) as Hap0.
  assert (HC : forall x, x ∈ h :: l' \/ x ∈ h2 :: l2' -> x ∈ h :: l \/ x ∈ h2 :: l2).
  { intros x. pose proof (Hsub x). rewrite !elem_of_cons. tauto. }
  apply (models_change m' _ _ (fun x => x ∈ h :: l \/ x ∈ h2 :: l2)).
  - intros x Hx Hu. apply Hfr; tauto.
  - intros h1 l1. destruct (decide (h1 = h)) as [->|N1]; [rewrite lookup_insert_eq; intros [= <-]; right; auto|]. rewrite lookup_insert_ne by done.
    destruct (decide (h1 = h2)) as [->|N2]; [rewrite lookup_insert_eq; intros [= <-]; right; auto|]. rewrite lookup_insert_ne by done.
    intros H1. left. split; [done|]. intros x Hx [H|H]; [by apply (mo_apart _ _ M h1 l1 h l H1 Hl N1 x)|by apply (mo_apart _ _ M h1 l1 h2 l2 H1 Hl2 N2 x)].
  - assert (A : apart (h :: l') (h2 :: l2')).
    { intros x [->|Hx]%elem_of_cons [E|Hx2]%elem_of_cons; subst; [done| | |by apply (Hap x)].
      - destruct (Hsub h ltac:(by right)) as [H|H]; [by pose proof (dl_nodup _ _ _ (mo_list _ _ M _ _ Hl)) as [? _]%list.NoDup_cons|]. apply (Hap0 h); [by left|by right].
      - destruct (Hsub h2 ltac:(by left)) as [H|H]; [apply (Hap0 h2); [by right|by left]|]. by pose proof (dl_nodup _ _ _ (mo_list _ _ M _ _ Hl2)) as [? _]%list.NoDup_cons. }
    assert (Hh : forall k lk, <[h := l']> (<[h2 := l2']> (ds_lists a)) !! k = Some lk -> k ∈ h :: l \/ k ∈ h2 :: l2 -> (k = h /\ lk = l') \/ (k = h2 /\ lk = l2')).
    { intros k lk. destruct (decide (k = h)) as [->|N1]; [rewrite lookup_insert_eq; intros [= <-]; auto|]. rewrite lookup_insert_ne by done.
      destruct (decide (k = h2)) as [->|N2]; [rewrite lookup_insert_eq; intros [= <-]; auto|]. rewrite lookup_insert_ne by done.
      intros H1 [H|H]; exfalso; [by apply (mo_apart _ _ M k lk h l H1 Hl N1 k); [left|]|by apply (mo_apart _ _ M k lk h2 l2 H1 Hl2 N2 k); [left|]]. }
    intros h1 l1 k2 lk2 H1 H2 C1 C2 N. destruct (Hh _ _ H1 C1) as [[-> ->]|[-> ->]], (Hh _ _ H2 C2) as [[-> ->]|[-> ->]]; [done|done|by apply apart_sym|done].
  - intros n Hn. apply (free_stays m' (fun x => x ∈ h :: l \/ x ∈ h2 :: l2)); [intros x Hx Hu; apply Hfr; tauto| |done].
    intros [H|H]; [by apply (free_not_listed _ _ _ Hn Hl)|by apply (free_not_listed _ _ _ Hn Hl2)].
Qed.

(** A list at a fresh address. *)
Lemma models_fresh m' h : fresh_for a h = true -> dlist m' h [] -> (forall x, x <> h -> m' !! x = m !! x) ->
  models m' (mkSpec (<[h := []]> (ds_lists a)) (ds_free a)).
Proof.
  intros (H0 & Hf & Hl)%fresh_for_spec Hd Hfr. apply (models_change m' _ _ (fun x => x = h)).
  - auto.
  - intros h1 l1. destruct (decide (h1 = h)) as [->|N]; [rewrite lookup_insert_eq; intros [= <-]; right; split; [done|]; by intros x ->%list_elem_of_singleton|].
    rewrite lookup_insert_ne by done. intros H1. left. split; [done|]. intros x Hx ->. by apply (Hl h1 l1).
  - by intros h1 l1 h2 l2 _ _ -> ->.
  - intros n Hn. apply (free_stays m' (fun x => x = h)); [auto|by intros ->|done].
Qed.
(** *** Every call gives the answer of the specification *)

Definition answers (r : outcome (dspec * list Z)) (c : outcome (dheap * list Z)) : Prop :=
  match r with
  | Done (a', x) => exists m', c = Done (m', x) /\ models m' a'
  | Failed => c = Failed
  | Crashed => False
  end.

Lemma answers_quiet a' c m' : c = Done m' -> models m' a' -> answers (Done (a', [])) (quiet c).
Proof. intros -> H. by exists m'. Qed.
Lemma answers_asked {A} x (f : A -> list Z) y c : c = Done y -> f y = x -> answers (Done (a, x)) (asked m f c).
Proof. intros -> <-. by exists m. Qed.
Lemma answers_popped a' c m' x : c = Done (m', x) -> models m' a' -> answers (Done (a', [x])) (popped c).
Proof. intros -> H. by exists m'. Qed.

Lemma step_push r h n f c : spec_push a h n f = Some r ->
  (forall l, ds_lists a !! h = Some l -> exists next, c = dn_LinkBefore m n next /\ exists l1 l2, l = l1 ++ l2 /\ next = hd h l2 /\ f l = l1 ++ n :: l2) ->
  answers r (quiet c).
Proof.
  unfold spec_push. destruct (ds_lists a !! h) as [l|] eqn:Hl; simpl; [|done]. intros Hr H.
  destruct (H l eq_refl) as (next & -> & l1 & l2 & -> & -> & E). rewrite E in Hr. case_bool_decide as Hn.
  - simplify_eq. pose proof (mo_free _ _ M _ Hn) as [Hn0 Hu]. pose proof (free_not_listed _ _ _ Hn Hl) as Nn.
    destruct (dlist_insert m h l1 l2 n (mo_list _ _ M _ _ Hl) Nn Hn0 (unlinked_nxt _ _ Hu)) as (m' & -> & Hd & Hfr).
    eapply answers_quiet; [done|]. by apply push_free.
  - destruct (ds_linked a n) eqn:Hk; [|done]. simplify_eq. simpl. by rewrite LinkBefore_fails.
Qed.

Lemma step_pop r h f (get : dheap -> Z -> outcome Z) : spec_pop a h f = Some r ->
  (forall l, ds_lists a !! h = Some l -> (l = [] /\ f l = None) \/ exists l1 x l2, l = l1 ++ x :: l2 /\ f l = Some x /\ get m h = Done x) ->
  answers r (popped (e ← dl_IsEmpty m h; if e : bool then Done (m, 0) else x ← get m h; m ← dn_Unlink m x; Done (m, x))).
Proof.
  unfold spec_pop. destruct (ds_lists a !! h) as [l|] eqn:Hl; simpl; [|done]. intros Hr H.
  pose proof (mo_list _ _ M _ _ Hl) as Hd. rewrite (IsEmpty_ok _ _ _ Hd). cbn [mbind outcome_bind].
  destruct (H l eq_refl) as [[-> E]|(l1 & x & l2 & -> & E & ->)]; rewrite E in Hr; simplify_eq.
  - by exists m.
  - rewrite bool_decide_eq_false_2 by (by destruct l1). cbn [mbind outcome_bind].
    destruct (dlist_remove m h l1 x l2 Hd) as (m' & -> & Hd' & Hu & Hfr). eapply answers_popped; [done|].
    pose proof (dl_nodup _ _ _ Hd) as [_ N]%list.NoDup_cons. rewrite drop_item_mid by done. by apply remove_listed.
Qed.

Lemma step_unlink r n : dl_spec (OUnlink n) a = Some r -> answers r (dl_run (OUnlink n) m).
Proof.
  simpl. intros Hr. case_bool_decide as Hn.
  - simplify_eq. pose proof (mo_free _ _ M _ Hn) as [_ Hu]. apply (answers_quiet _ _ m); [|done].
    unfold dn_Unlink, get_next, get_prev, set_next, set_prev, unlinked in *. rewrite Hu. cbn. rewrite Hu. cbn. rewrite lookup_insert_eq. cbn.
    by rewrite insert_insert_eq, insert_id.
  - destruct (ds_linked a n) eqn:Hk; [|done]. simplify_eq. apply ds_linked_spec in Hk as (h & l & Hl & Hin).
    apply list_elem_of_split in Hin as (l1 & l2 & ->). pose proof (mo_list _ _ M _ _ Hl) as Hd.
    destruct (dlist_remove m h l1 n l2 Hd) as (m' & -> & Hd' & Hu & Hfr). eapply answers_quiet; [done|].
    assert (drop_item n <$> ds_lists a = <[h := l1 ++ l2]> (ds_lists a)) as ->; [|by apply remove_listed].
    apply map_eq. intros k. rewrite lookup_fmap. destruct (decide (k = h)) as [->|Hne].
    + rewrite Hl, lookup_insert_eq. simpl. pose proof (dl_nodup _ _ _ Hd) as [_ N]%list.NoDup_cons. by rewrite drop_item_mid.
    + rewrite lookup_insert_ne by done. destruct (ds_lists a !! k) as [lk|] eqn:Hk; [|done]. simpl. rewrite drop_item_notin; [done|].
      intros Hin. apply (mo_apart _ _ M k lk h _ Hk Hl Hne n); right; [done|]. apply elem_of_app. right. by left.
Qed.

Lemma step_islinked r n : dl_spec (OIsLinked n) a = Some r -> answers r (dl_run (OIsLinked n) m).
Proof.
  simpl. intros Hr. case_bool_decide as Hn.
  - simplify_eq. pose proof (mo_free _ _ M _ Hn) as [_ Hu%unlinked_nxt]. by apply (answers_asked _ _ false); [rewrite (IsLinked_ok _ _ _ Hu)|].
  - destruct (ds_linked a n) eqn:Hk; [|done]. simplify_eq. apply linked_fails in Hk as (x & Hx & H0).
    by apply (answers_asked _ _ true); [rewrite (IsLinked_ok _ _ _ Hx), (proj2 (Z.eqb_neq _ _) H0)|].
Qed.

Lemma step_append r h h2 : dl_spec (OAppend h h2) a = Some r -> answers r (dl_run (OAppend h h2) m).
Proof.
  simpl. destruct (ds_lists a !! h) as [l|] eqn:Hl; simpl; [|done]. destruct (ds_lists a !! h2) as [l2|] eqn:Hl2; simpl; [|done].
  case_decide as Hne; [done|]. intros [= <-]. pose proof (mo_apart _ _ M _ _ _ _ Hl Hl2 Hne) as Hap.
  destruct (dlist_append m h h2 l l2 (mo_list _ _ M _ _ Hl) (mo_list _ _ M _ _ Hl2) Hap) as (m' & -> & Hd & Hd2 & Hfr).
  eapply answers_quiet; [done|]. eapply models_two; try done.
  - intros x. rewrite elem_of_app, elem_of_nil. tauto.
  - by intros x _ ?%elem_of_nil.
  - auto.
Qed.

Lemma step_swap r t h h2 : dl_spec (OSwap t h h2) a = Some r -> answers r (dl_run (OSwap t h h2) m).
Proof.
  simpl. destruct (ds_lists a !! h) as [l|] eqn:Hl; simpl; [|done]. destruct (ds_lists a !! h2) as [l2|] eqn:Hl2; simpl; [|done].
  destruct (fresh_for a t) eqn:Ht; simpl; [|done]. case_bool_decide as Hne; [|done]. intros [= <-]. pose proof (mo_apart _ _ M _ _ _ _ Hl Hl2 Hne) as Hap.
  apply fresh_for_spec in Ht as (H0 & Hf & Hfl).
  destruct (dlist_swap m t h h2 l l2 (mo_list _ _ M _ _ Hl) (mo_list _ _ M _ _ Hl2) Hap H0 (Hfl _ _ Hl) (Hfl _ _ Hl2)) as (m' & -> & Hd & Hd2 & _ & Hfr).
  eapply answers_quiet; [done|]. eapply models_two; try done.
  - tauto.
  - intros x Hx Hx2. by apply (Hap x); right.
  - intros x Hx Hx2 Hu. apply Hfr; [done|done|]. intros ->. apply ds_used_spec in Hu as [?|(k & lk & Hk & Hin)]; [done|]. by apply (Hfl k lk).
Qed.

Lemma step_sort r less s t h : dl_spec (OSort less s t h) a = Some r -> answers r (dl_run (OSort less s t h) m).
Proof.
  simpl. destruct (ds_lists a !! h) as [l|] eqn:Hl; simpl; [|done].
  destruct (fresh_for a s) eqn:Hs; simpl; [|done]. destruct (fresh_for a t) eqn:Ht; simpl; [|done]. case_bool_decide as Hne; [|done]. intros [= <-].
  apply fresh_for_spec in Hs as (S0 & Sf & Sl), Ht as (T0 & Tf & Tl). pose proof (mo_list _ _ M _ _ Hl) as Hd.
  destruct (dlist_sort less m s t h l (size m) Hd S0 T0 Hne (Sl _ _ Hl) (Tl _ _ Hl) (dlist_size _ _ Hl)) as (m' & -> & Hd' & Hfr).
  assert (Hfr' : forall x, x ∉ h :: l -> x ∈ ds_used a -> m' !! x = m !! x).
  { intros x Hx Hu. apply Hfr; [done| |]; intros ->; (apply ds_used_spec in Hu as [?|(k & lk & Hk & Hin)]; [done|]); [by apply (Sl k lk)|by apply (Tl k lk)]. }
  eapply answers_quiet; [done|]. eapply models_one; try done.
  - intros x Hx. left. rewrite selection_perm in Hx; [done| |done]. by pose proof (dl_nodup _ _ _ Hd) as [_ ?]%list.NoDup_cons.
  - auto.
  - intros n Hn. apply (free_stays m' (fun x => x ∈ h :: l)); [auto|by apply free_not_listed|done].
Qed.

Lemma step_unlinkall r h : dl_spec (OUnlinkAll h) a = Some r -> answers r (dl_run (OUnlinkAll h) m).
Proof.
  simpl. destruct (ds_lists a !! h) as [l|] eqn:Hl; simpl; [|done]. intros [= <-]. pose proof (mo_list _ _ M _ _ Hl) as Hd.
  destruct (dl_UnlinkAll_ok m h l (size m) Hd (dlist_size _ _ Hl)) as (m' & -> & Hd' & Hu & Hfr).
  eapply answers_quiet; [done|]. eapply models_one; try done.
  - by intros x ?%elem_of_nil.
  - auto.
  - intros n [Hn%elem_of_list_to_set|Hn]%elem_of_union.
    + split; [|by apply Hu]. intros ->. apply (dl_nonnull _ _ _ Hd). by right.
    + apply (free_stays m' (fun x => x ∈ h :: l)); [auto|by apply free_not_listed|done].
Qed.
Lemma step_node r n : dl_spec (ONode n) a = Some r -> answers r (dl_run (ONode n) m).
Proof.
  simpl. destruct (fresh_for a n) eqn:Hn; [|done]. intros [= <-]. eexists. split; [done|]. apply fresh_for_spec in Hn as (H0 & Hf & Hl).
  apply (models_change _ _ _ (fun x => x = n)).
  - intros x Hx _. by apply lookup_insert_ne.
  - intros h l H. left. split; [done|]. intros x Hx ->. by apply (Hl h l).
  - intros h1 l1 h2 l2 H1 H2 -> _. exfalso. apply (Hl n l1 H1). by left.
  - intros x [->%elem_of_singleton|Hx]%elem_of_union; [split; [done|apply lookup_insert_eq]|].
    apply (free_stays _ (fun x => x = n)); [|by intros ->|done]. intros y Hy _. by apply lookup_insert_ne.
Qed.

Lemma step_list r h : dl_spec (OList h) a = Some r -> answers r (dl_run (OList h) m).
Proof.
  simpl. unfold spec_new. destruct (fresh_for a h) eqn:Hn; [|done]. intros [= <-]. pose proof (fresh_for_spec _ Hn) as (H0 & _).
  destruct (dlist_new m h H0) as (m' & -> & Hd & Hfr). eapply answers_quiet; [done|]. by apply models_fresh.
Qed.

Lemma step_destroy r h : dl_spec (ODestroy h) a = Some r -> answers r (dl_run (ODestroy h) m).
Proof.
  simpl. destruct (ds_lists a !! h) as [l|] eqn:Hl; simpl; [|done]. intros [= <-]. unfold dl_destroy. rewrite (IsEmpty_ok _ _ _ (mo_list _ _ M _ _ Hl)).
  case_bool_decide as El; [|done]. subst l. simpl. eexists. split; [done|].
  assert (Hh : forall n, n ∈ ds_free a -> n <> h) by (intros n Hn ->; apply (free_not_listed _ _ _ Hn Hl); by left).
  apply (models_change _ _ _ (fun x => x = h)).
  - intros x Hx _. by apply lookup_delete_ne.
  - intros k lk [Hne Hk]%lookup_delete_Some. left. split; [done|]. intros x Hx ->. apply (mo_apart _ _ M h [] k lk Hl Hk Hne h); [by left|done].
  - by intros h1 l1 h2 l2 _ _ -> ->.
  - intros n Hn. apply (free_stays _ (fun x => x = h)); [|by apply Hh|done]. intros x Hx _. by apply lookup_delete_ne.
Qed.

Lemma step_ask {A} r h f (g : A -> list Z) c : spec_ask a h f = Some r ->
  (forall l, dlist m h l -> (length l <= size m)%nat -> exists y, c = Done y /\ g y = f l) -> answers r (asked m g c).
Proof.
  unfold spec_ask. destruct (ds_lists a !! h) as [l|] eqn:Hl; simpl; [|done]. intros [= <-] H.
  destruct (H l (mo_list _ _ M _ _ Hl) (dlist_size _ _ Hl)) as (y & -> & E). by apply (answers_asked _ _ y).
Qed.
End models.

Lemma step_move m a r h that : models m a -> dl_spec (OMove h that) a = Some r -> answers r (dl_run (OMove h that) m).
Proof.
  intros M. simpl. destruct (ds_lists a !! that) as [l|] eqn:Hl; simpl; [|done]. unfold spec_new. destruct (fresh_for a h) eqn:Hn; [|done]. intros [= <-].
  pose proof (fresh_for_spec _ _ Hn) as (H0 & _ & Hf). destruct (dlist_new m h H0) as (m1 & E & Hd & Hfr). unfold dl_move. rewrite E. cbn [mbind outcome_bind].
  pose proof (models_fresh m a M m1 h Hn Hd Hfr) as M1. assert (Hne : h <> that) by (intros ->; apply (Hf that l Hl); by left).
  apply (step_append m1 _ M1 _ h that). simpl. rewrite lookup_insert_eq. simpl. rewrite lookup_insert_ne, Hl by done. simpl.
  rewrite decide_False by done. simpl. by rewrite (insert_insert_ne _ that h), insert_insert_eq.
Qed.

Theorem dl_run_answers m a o r : models m a -> dl_spec o a = Some r -> answers r (dl_run o m).
Proof.
  intros M H. destruct o; [by eapply step_node|by eapply step_list|by eapply step_move|by eapply step_destroy| | | | |
    by eapply step_unlink|by eapply step_islinked|by eapply step_append|by eapply step_swap|by eapply step_sort|by eapply step_unlinkall| | | |].
  - eapply step_push; [done|done|]. intros l Hl. eexists. split; [done|]. exists l, []. by rewrite app_nil_r.
  - eapply step_push; [done|done|]. intros l Hl. exists (hd h l). split; [|by exists [], l].
    destruct (dlist_front _ _ _ (mo_list _ _ M _ _ Hl)) as [Hn _]. unfold dl_PushFront. by rewrite (get_next_ok _ _ _ Hn).
  - eapply (step_pop m a M _ _ _ get_next); [done|]. intros l Hl. destruct l as [|x l]; [by left|]. right. exists [], x, l. split; [done|]. split; [done|].
    destruct (dlist_front _ _ _ (mo_list _ _ M _ _ Hl)) as [Hn _]. by apply get_next_ok.
  - eapply (step_pop m a M _ _ _ get_prev); [done|]. intros l Hl. destruct l as [|x l _] using rev_ind; [by left|]. right. exists l, x, []. split; [done|]. split; [apply last_snoc|].
    destruct (dlist_front _ _ _ (mo_list _ _ M _ _ Hl)) as [_ Hn]. rewrite List.last_last in Hn. by apply get_prev_ok.
  - eapply step_ask; [done|done|]. intros l Hd _. rewrite (IsEmpty_ok _ _ _ Hd). by eexists.
  - eapply step_ask; [done|done|]. intros l Hd Hf. unfold dl_Size. rewrite (proj1 (dl_items_ok _ _ _ _ Hd Hf)). by eexists.
  - eapply step_ask; [done|done|]. intros l Hd Hf. rewrite (proj1 (dl_items_ok _ _ _ _ Hd Hf)). by eexists.
  - eapply step_ask; [done|done|]. intros l Hd Hf. rewrite (proj2 (dl_items_ok _ _ _ _ Hd Hf)). by eexists.
Qed.

Lemma dl_runs_answers os m a r : models m a -> dl_specs os a = Some r -> dl_runs os m = r.
Proof.
  revert m a r. induction os as [|o os IH]; intros m a r M; simpl; [by intros [= <-]|].
  destruct (dl_spec o a) as [p|] eqn:Hp; simpl; [|done]. pose proof (dl_run_answers m a o p M Hp) as Ha. destruct p as [[a' x]| |]; simpl in Ha.
  - destruct Ha as (m' & -> & M'). destruct (dl_specs os a') as [rs|] eqn:Hs; simpl; [|done]. intros [= <-]. cbn [mbind outcome_bind fst snd].
    by rewrite (IH m' a' rs M' Hs).
  - rewrite Ha. by intros [= <-].
  - done.
Qed.

Lemma models_empty : models ∅ (mkSpec ∅ ∅).
Proof. split; simpl; intros *; by rewrite ?lookup_empty. Qed.

(** C20: Whatever calls a client makes - of nodes, lists, pushes, pops, [Unlink], [Append],
    moves, [Swap], [Sort], [UnlinkAll], iterations in both directions, over any number of
    lists - as long as it keeps to the contract of the interface, the pointer operations never
    touch memory that is not theirs, every loop ends, and every answer is that of the
    operation on sequences; exactly the pushes of a linked node and the destructors of
    non-empty lists stop the program. *)
Theorem intrusive_list_refines_sequences (calls : list dop) (answer : outcome (list (list Z))) :
  dl_specs calls (mkSpec ∅ ∅) = Some answer -> dl_runs calls ∅ = answer.
Proof. apply dl_runs_answers, models_empty. Qed.

(** Two lists and four nodes: pushes at both ends, a move between the lists, a sort by the
    last decimal digit that keeps 12 before 22, a swap, and an iteration backwards. *)
Lemma intrusive_list_refines_sequences_witness :
  let by_digit x y := x mod 10 <? y mod 10 in
  dl_runs [OList 1; OList 2; ONode 13; ONode 12; ONode 22; ONode 31; OPushBack 1 13; OPushBack 1 12; OPushFront 2 31; OPushFront 2 22; OAppend 1 2;
           OItems 1; OSort by_digit 8 9 1; OItems 1; OSwap 9 1 2; OSize 1; OItemsBack 2; OUnlink 12; OPopFront 2; OIsLinked 12; OIsEmpty 2; OPushBack 2 22] ∅ = Failed /\
  dl_runs [OList 1; OList 2; ONode 13; ONode 12; ONode 22; ONode 31; OPushBack 1 13; OPushBack 1 12; OPushFront 2 31; OPushFront 2 22; OAppend 1 2;
           OItems 1; OSort by_digit 8 9 1; OItems 1; OSwap 9 1 2; OSize 1; OItemsBack 2; OUnlink 12; OPopFront 2; OIsLinked 12; OPopBack 2; OItems 2] ∅ =
    Done [[]; []; []; []; []; []; []; []; []; []; []; [13; 12; 22; 31]; []; [31; 12; 22; 13]; []; [0]; [13; 22; 12; 31]; []; [31]; [0]; [13]; [22]].
Proof. split; apply intrusive_list_refines_sequences; vm_compute; reflexivity. Defined.

(** ** [Sort] is a stable sort *)

(** The reference: insertion before the items that are not less. *)
Section stable.
Context (less : Z -> Z -> bool).

Fixpoint insert_item (x : Z) (l : list Z) : list Z :=
  match l with
  | [] => [x]
  | y :: l' => if less y x then y :: insert_item x l' else x :: l
  end.
Definition insertion_sort (l : list Z) : list Z := foldr insert_item [] l.

Definition equivalent (x y : Z) : bool := negb (less x y) && negb (less y x).

(** [less] is a strict weak order. *)
Record weak_order : Prop := {
  wo_irrefl : forall x, less x x = false;
  wo_trans : forall x y z, less x y = true -> less y z = true -> less x z = true;
  wo_cotrans : forall x y z, less x z = true -> less x y = true \/ less y z = true;
}.

Lemma insert_split x l : exists p q, l = p ++ q /\ insert_item x l = p ++ x :: q /\ (forall y, y ∈ p -> less y x = true) /\
  match q with [] => True | y :: _ => less y x = false end.
Proof.
  induction l as [|y l IH]; [exists [], []; split; [done|]; split; [done|]; split; [by intros y ?%elem_of_nil|done]|].
  simpl. destruct (less y x) eqn:E.
  - destruct IH as (p & q & -> & -> & Hp & Hq). exists (y :: p), q. split; [done|]. split; [done|]. split; [|done]. by intros z [->|?]%elem_of_cons; auto.
  - exists [], (y :: l). split; [done|]. split; [done|]. split; [by intros z ?%elem_of_nil|done].
Qed.

Lemma insertion_sort_perm l : insertion_sort l ≡ₚ l.
Proof.
  induction l as [|x l IH]; [done|]. simpl. destruct (insert_split x (insertion_sort l)) as (p & q & E & -> & _).
  rewrite <- Permutation_middle, <- E. by constructor.
Qed.

(** The item that a pass selects is the first of the least ones. *)
Lemma selected_least (W : weak_order) x l : exists p q, x :: l = p ++ selected less x l :: q /\
  (forall y, y ∈ p -> less (selected less x l) y = true) /\ (forall y, y ∈ q -> less y (selected less x l) = false).
Proof.
  induction l as [|z l IH] using rev_ind; [exists [], []; split; [done|]; split; by intros y ?%elem_of_nil|].
  unfold selected in *. rewrite foldl_app. simpl. destruct IH as (p & q & E & Hp & Hq). set (c := foldl (pick less) x l) in *. clearbody c. unfold pick.
  destruct (less z c) eqn:Ez.
  - exists (x :: l), []. split; [done|]. split; [|by intros y ?%elem_of_nil]. rewrite E. intros y [Hy|[->|Hy]%elem_of_cons]%elem_of_app; [|done|].
    + apply (wo_trans W _ c); auto.
    + destruct (wo_cotrans W z y c Ez) as [?|Hn]; [done|]. by rewrite Hq in Hn.
  - exists p, (q ++ [z]). split; [by rewrite app_comm_cons, E, <- app_assoc|]. split; [done|].
    by intros y [? | ->%list_elem_of_singleton]%elem_of_app; auto.
Qed.

Lemma insertion_sort_first c p q : (forall y, y ∈ p -> less c y = true) -> (forall y, y ∈ q -> less y c = false) ->
  insertion_sort (p ++ c :: q) = c :: insertion_sort (p ++ q).
Proof.
  intros Hp Hq. induction p as [|y p IH].
  - simpl. assert (H : forall y, y ∈ insertion_sort q -> less y c = false) by (intros y; rewrite insertion_sort_perm; auto).
    destruct (insertion_sort q) as [|y l]; [done|]. simpl. rewrite H by by left. done.
  - change (insert_item y (insertion_sort (p ++ c :: q)) = c :: insert_item y (insertion_sort (p ++ q))).
    rewrite IH by (intros; apply Hp; by right). simpl. by rewrite (Hp y) by by left.
Qed.

Lemma selection_insertion (W : weak_order) l : base.NoDup l -> selection less (length l) l = insertion_sort l.
Proof.
  remember (length l) as n eqn:Hn. revert l Hn. induction n as [|n IH]; intros [|x l] Hn Hnd; simplify_eq; [done|]. simpl selection.
  destruct (selected_least W x l) as (p & q & E & Hp & Hq). set (c := selected less x l) in *. clearbody c.
  pose proof (f_equal length E) as EL. rewrite length_app in EL. simpl in EL. rewrite E in Hnd |- *.
  rewrite (insertion_sort_first c p q Hp Hq). assert (E' : drop_item c (p ++ c :: q) = p ++ q) by by apply drop_item_mid. rewrite E'. f_equal. apply IH.
  - rewrite length_app. simpl in Hn. lia.
  - rewrite <- Permutation_middle in Hnd. by apply list.NoDup_cons in Hnd as [_ ?].
Qed.

Lemma insertion_sort_sorted (W : weak_order) l : StronglySorted (fun x y => less y x = false) (insertion_sort l).
Proof.
  induction l as [|x l IH]; [constructor|]. simpl. destruct (insert_split x (insertion_sort l)) as (p & q & E & -> & Hp & Hq). rewrite E in IH. clear E.
  induction p as [|y p IHp]; simpl in *.
  - constructor; [done|]. destruct q as [|y q]; [constructor|]. inversion_clear IH as [|? ? Hs Hall]. constructor; [done|].
    eapply List.Forall_impl; [|exact Hall]. intros z Hz. destruct (less z x) eqn:Ez; [|done]. destruct (wo_cotrans W z y x Ez); congruence.
  - inversion_clear IH as [|? ? Hs Hall]. constructor; [apply IHp; [done|intros; apply Hp; by right]|].
    rewrite list.Forall_app, list.Forall_cons. rewrite list.Forall_app in Hall. destruct Hall as [H1 H2]. split; [done|]. split; [|done].
    destruct (less x y) eqn:Ex; [|done]. assert (Hy : less y x = true) by (apply Hp; by left). pose proof (wo_trans W _ _ _ Ex Hy) as Hx. by rewrite (wo_irrefl W) in Hx.
Qed.

Lemma insertion_sort_stable (W : weak_order) k l : List.filter (equivalent k) (insertion_sort l) = List.filter (equivalent k) l.
Proof.
  induction l as [|x l IH]; [done|]. simpl. destruct (insert_split x (insertion_sort l)) as (p & q & E & -> & Hp & _). rewrite <- IH, E, !List.filter_app. simpl.
  destruct (equivalent k x) eqn:Ek; [|done]. assert (List.filter (equivalent k) p = []) as ->; [|done]. clear E. induction p as [|y p IHp]; [done|]. simpl.
  assert (equivalent k y = false) as ->; [|apply IHp; intros; apply Hp; by right]. assert (Hy : less y x = true) by (apply Hp; by left).
  unfold equivalent in *. apply andb_true_iff in Ek as [E1%negb_true_iff E2%negb_true_iff].
  destruct (wo_cotrans W y k x Hy) as [->|Hk]; [by rewrite andb_false_r|congruence].
Qed.
End stable.

(** C21: [Sort] with a strict weak order, on a list whose locals [sorted] and [tmp] are at
    addresses outside of it, ends, leaves every other list alone, and leaves the list as the
    stable insertion sort of its items: the same items, none followed by a smaller one,
    equivalent items in their old order. *)
Theorem intrusive_list_sort_stable (less : Z -> Z -> bool) (m : dheap) (sorted tmp head : Z) (l : list Z) (fuel : nat) :
  weak_order less -> dlist m head l -> sorted <> 0 -> tmp <> 0 -> sorted <> tmp -> sorted ∉ head :: l -> tmp ∉ head :: l -> (length l <= fuel)%nat ->
  exists m', dl_Sort less fuel m sorted tmp head = Done m' /\ dl_items fuel m' head = Done (insertion_sort less l) /\
    dlist m' head (insertion_sort less l) /\ (forall x, x ∉ head :: l -> x <> sorted -> x <> tmp -> m' !! x = m !! x) /\
    insertion_sort less l ≡ₚ l /\ StronglySorted (fun x y => less y x = false) (insertion_sort less l) /\
    forall x, List.filter (equivalent less x) (insertion_sort less l) = List.filter (equivalent less x) l.
Proof.
  intros W Hd S0 T0 Hne Ns Nt Hf. destruct (dlist_sort less m sorted tmp head l fuel Hd S0 T0 Hne Ns Nt Hf) as (m' & E & Hd' & Hfr).
  pose proof (dl_nodup _ _ _ Hd) as [_ Nl]%list.NoDup_cons. rewrite (selection_insertion less W l Nl) in Hd'.
  pose proof (insertion_sort_perm less l) as Hp. exists m'. split; [done|].
  split; [apply dl_items_ok; [done|by rewrite Hp]|]. split; [done|]. split; [done|]. split; [done|].
  split; [by apply insertion_sort_sorted|]. intros x. by apply insertion_sort_stable.
Qed.

(** Four nodes, compared by their last decimal digit. *)
Lemma intrusive_list_sort_stable_witness :
  let m : dheap := list_to_map [(1, mkDNode 31 13); (13, mkDNode 1 12); (12, mkDNode 13 22); (22, mkDNode 12 31); (31, mkDNode 22 1)] in
  exists m', dl_Sort (fun x y => x mod 10 <? y mod 10) 4 m 8 9 1 = Done m' /\ dl_items 4 m' 1 = Done [31; 12; 22; 13].
Proof.
  intros m. destruct (intrusive_list_sort_stable (fun x y => x mod 10 <? y mod 10) m 8 9 1 [13; 12; 22; 31] 4) as (m' & H1 & H2 & _).
  - split; intros *; rewrite ?Z.ltb_lt; [apply Z.ltb_irrefl|lia|lia].
  - split; [vm_compute; intuition done|apply (bool_decide_unpack _); vm_compute; done|apply (bool_decide_unpack _); vm_compute; done].
  - done.
  - done.
  - done.
  - apply (bool_decide_unpack _); vm_compute; done.
  - apply (bool_decide_unpack _); vm_compute; done.
  - done.
  - exists m'. split; [exact H1|]. rewrite H2. vm_compute. reflexivity.
Defined.
