(* ===== verification/SimSched.v ===== *)
(** The scheduler interface of the simulator: src/deps/twist/source/twist/rt/sim/system/scheduler,
    and the recorder and the replay scheduler of src/deps/twist/source/twist/rt/sim/scheduler/replay.

    The simulator runs a program under test with one thread at a time and asks its scheduler
    for every decision.  A scheduler is a state machine that answers calls ([IScheduler]);
    its own choices are explicit: a call is a tree ([M]) whose inner nodes are the calls of
    [Choose].  The simulator with the program is an arbitrary deterministic client, a
    function from the answers so far to the next call.

    [Lawful] states what a scheduler promises to the simulator: it picks only threads that are
    runnable, and wakes only threads that wait.  Against this interface, replaying the recorded
    decisions reproduces every run. *)

From S2P Require Import Prelude.
Local Open Scope Z_scope.

(** ** Choices *)

(** [dfs::BranchType], [dfs::Branch] *)
Inductive BranchType := BPickNext | BWakeOne | BPreempt | BRandomChoice | BSpuriousWakeup | BSpuriousTryFailure.
#[export] Instance BranchType_eq_dec : EqDecision BranchType.
Proof. solve_decision. Defined.

Record Branch := mkBranch { br_type : BranchType; br_alts : nat; br_index : nat }.

(** Why a call does not return: a failed [WHEELS_VERIFY] or [WHEELS_PANIC], undefined
    behaviour, [Simulator::Prune], or the budget of scheduler calls is used up. *)
Inductive stop := Panic | Crash | Prune | Timeout.

Inductive M (A : Type) :=
| Ret (a : A)
| Choose (type : BranchType) (alts : nat) (k : nat -> M A)
| Stop (r : stop).
Arguments Ret {A} _.
Arguments Choose {A} _ _ _.
Arguments Stop {A} _.

#[export] Instance M_ret : MRet M := @Ret.
#[export] Instance M_bind : MBind M := fix bind A B (f : A -> M B) (m : M A) : M B :=
  match m with
  | Ret a => f a
  | Choose ty n k => Choose ty n (fun i => bind A B f (k i))
  | Stop r => Stop r
  end.

Definition verify_sim (b : bool) : M () := if b then Ret () else Stop Panic.

(** [leaf m p r]: with the choices [p] the computation ends with [r]. *)
Inductive leaf {A} : M A -> list Branch -> A + stop -> Prop :=
| leaf_ret a : leaf (Ret a) [] (inl a)
| leaf_stop r : leaf (Stop r) [] (inr r)
| leaf_choose ty n k i p r : (i < n)%nat -> leaf (k i) p r -> leaf (Choose ty n k) (mkBranch ty n i :: p) r.

(** Every choice has an alternative. *)
Fixpoint choices_ok {A} (m : M A) : Prop :=
  match m with
  | Choose _ n k => (0 < n)%nat /\ forall i, (i < n)%nat -> choices_ok (k i)
  | _ => True
  end.

Lemma leaf_ret_inv {A} (a : A) p r : leaf (Ret a) p r -> p = [] /\ r = inl a.
Proof. by inversion 1. Qed.
Lemma leaf_stop_inv {A} s p r : @leaf A (Stop s) p r -> p = [] /\ r = inr s.
Proof. by inversion 1. Qed.
Lemma leaf_choose_inv {A} ty n (k : nat -> M A) p r : leaf (Choose ty n k) p r ->
  exists i p', p = mkBranch ty n i :: p' /\ (i < n)%nat /\ leaf (k i) p' r.
Proof. inversion 1; subst. eauto. Qed.

Lemma leaf_bind_inv {A B} (m : M A) (f : A -> M B) p r : leaf (m ≫= f) p r ->
  (exists p1 p2 a, p = p1 ++ p2 /\ leaf m p1 (inl a) /\ leaf (f a) p2 r) \/ (exists s, r = inr s /\ leaf m p (inr s)).
Proof.
  revert p. induction m as [a|ty n k IH|s]; intros p H; simpl in H.
  - left. exists [], p, a. eauto using leaf.
  - apply leaf_choose_inv in H as (i & p' & -> & Hi & H). apply IH in H as [(p1 & p2 & a & -> & H1 & H2)|(s & -> & H1)].
    + left. exists (mkBranch ty n i :: p1), p2, a. split; [done|]. split; [by constructor|done].
    + right. exists s. split; [done|]. by constructor.
  - apply leaf_stop_inv in H as [-> ->]. right. eauto using leaf.
Qed.

Lemma leaf_bind {A B} (m : M A) (f : A -> M B) p1 p2 a r : leaf m p1 (inl a) -> leaf (f a) p2 r -> leaf (m ≫= f) (p1 ++ p2) r.
Proof.
  intros H H2. remember (inl a) as x eqn:Hx. induction H; simplify_eq; simpl; [done|]. constructor; auto.
Qed.
Lemma leaf_bind_stop {A B} (m : M A) (f : A -> M B) p s : leaf m p (inr s) -> leaf (m ≫= f) p (inr s).
Proof. intros H. remember (inr s) as x eqn:Hx. induction H; simplify_eq; simpl; constructor; auto. Qed.

Lemma choices_ok_bind {A B} (m : M A) (f : A -> M B) :
  choices_ok m -> (forall p a, leaf m p (inl a) -> choices_ok (f a)) -> choices_ok (m ≫= f).
Proof.
  induction m as [a|ty n k IH|s]; simpl; intros H Hf; [by eapply Hf; constructor| |done].
  destruct H as [Hn Hk]. split; [done|]. intros i Hi. apply IH; [auto|]. intros p a Ha. eapply Hf. by constructor.
Qed.

(** ** The interface *)

(** What a scheduler reads of threads and of the simulator: attributes, whether the pending
    action is a store or the load of a read-modify-write, and the clock. *)
Record env := mkEnv { preemptive : Z -> bool; lock_free : Z -> bool; may_suspend : Z -> bool; curr_tick : Z }.

(** A [Thread*] is the id of the thread; a wait queue is its address. *)
Inductive icall :=
| Interrupt (t : Z) | SwitchTo (t next : Z) | Yield (t : Z) | Wake (t : Z) | Spawn (t : Z) | Exit (t : Z)
| IsIdle | PickNext | Remove (t : Z)
| LockFree (t : Z) (flag : bool) | Progress (t : Z) | NewIter
| NewWaitQueue (q : Z) | WqIsEmpty (q : Z) | WqPush (q t : Z) | WqPop (q : Z) | WqPopAll (q : Z) | WqRemove (q t : Z)
| RandomNumber | RandomChoice (alts : nat) | SpuriousWakeup | SpuriousTryFailure | IsModelChecker.

Inductive answer := AVoid | ABool (b : bool) | AThread (t : option Z) | ANum (z : Z).

Record IScheduler := mkScheduler { sched_state : Type; sched_call : env -> icall -> sched_state -> M (answer * sched_state) }.

Definition sim_kMaxThreads : nat := 16.

(** A simulation: the client and its calls, at most [budget] of them. *)
Definition client := list answer -> option (env * icall).

Fixpoint simulate (S : IScheduler) (budget : nat) (C : client) (hist : list answer) (s : sched_state S) : M (list answer * sched_state S) :=
  match C hist with
  | None => Ret (hist, s)
  | Some (e, c) =>
      match budget with
      | O => Stop Timeout
      | Datatypes.S budget => p ← sched_call S e c s; simulate S budget C (hist ++ [p.1]) p.2
      end
  end.

(** ** What a scheduler promises *)

(** [pinned]: a thread the scheduler keeps outside of its run queue, or has to run next. *)
Record abs := mkAbs { runnable : gset Z; pinned : option Z; queues : gmap Z (gset Z) }.

Definition abs_new (a : abs) (t : Z) : Prop :=
  1 <= t <= Z.of_nat sim_kMaxThreads /\ t ∉ runnable a /\ map_Forall (fun _ ts => t ∉ ts) (queues a).

(** The calls a simulator makes. *)
Definition legal (a : abs) (c : icall) : Prop :=
  match c with
  | Interrupt t => abs_new a t /\ pinned a = None
  | SwitchTo t next => abs_new a t /\ pinned a = None /\ next ∈ {[t]} ∪ runnable a
  | Yield t | Wake t | Spawn t => abs_new a t
  | PickNext => runnable a <> ∅
  | Remove t => pinned a <> Some t
  | NewWaitQueue q => queues a !! q = None
  | WqIsEmpty q | WqPop q | WqPopAll q => is_Some (queues a !! q)
  | WqPush q t => abs_new a t /\ is_Some (queues a !! q)
  | WqRemove q t => exists ts, queues a !! q = Some ts /\ t ∈ ts
  | RandomChoice n => (2 <= n)%nat
  | _ => True
  end.

Definition add_runnable (a : abs) (t : Z) (pin : option Z) : abs := mkAbs ({[t]} ∪ runnable a) pin (queues a).
Definition set_queue (a : abs) (q : Z) (ts : gset Z) : abs := mkAbs (runnable a) (pinned a) (<[q := ts]> (queues a)).
Definition when {A} (P : Prop) `{Decision P} (x : A) : option A := if decide P then Some x else None.

Definition with_queue (a : abs) (q : Z) (f : gset Z -> option abs) : option abs := queues a !! q ≫= f.

(** The effect of an answered call; [None]: the answer is wrong. *)
Definition abs_step (a : abs) (c : icall) (r : answer) : option abs :=
  match c, r with
  | Interrupt t, AVoid => Some (add_runnable a t (Some t))
  | SwitchTo t next, AVoid => Some (add_runnable a t (Some next))
  | (Yield t | Wake t | Spawn t), AVoid => Some (add_runnable a t (pinned a))
  | (Exit _ | LockFree _ _ | Progress _ | NewIter), AVoid => Some a
  | IsIdle, ABool b => when (b = bool_decide (runnable a = ∅)) a
  | PickNext, AThread (Some t) => when (t ∈ runnable a) (mkAbs (runnable a ∖ {[t]}) None (queues a))
  | Remove t, AVoid => Some (mkAbs (runnable a ∖ {[t]}) (pinned a) (queues a))
  | NewWaitQueue q, AVoid => Some (set_queue a q ∅)
  | WqIsEmpty q, ABool b => with_queue a q (fun ts => when (b = bool_decide (ts = ∅)) a)
  | WqPush q t, AVoid => with_queue a q (fun ts => Some (set_queue a q ({[t]} ∪ ts)))
  | (WqPop q | WqPopAll q), AThread None => with_queue a q (fun ts => when (ts = ∅) a)
  | (WqPop q | WqPopAll q), AThread (Some t) => with_queue a q (fun ts => when (t ∈ ts) (set_queue a q (ts ∖ {[t]})))
  | WqRemove q t, ABool b => with_queue a q (fun ts => when (b = bool_decide (t ∈ ts)) (set_queue a q (ts ∖ {[t]})))
  | RandomNumber, ANum z => when (0 <= z < 2 ^ 64) a
  | RandomChoice n, ANum z => when (0 <= z < Z.of_nat n) a
  | (SpuriousWakeup | SpuriousTryFailure | IsModelChecker), ABool _ => Some a
  | _, _ => None
  end.

(** Threads have small ids, and wait in at most one queue while they are not runnable. *)
Record abs_ok (a : abs) : Prop := {
  ao_runnable : forall x, x ∈ runnable a -> 1 <= x <= Z.of_nat sim_kMaxThreads;
  ao_queue : forall q ts x, queues a !! q = Some ts -> x ∈ ts -> 1 <= x <= Z.of_nat sim_kMaxThreads /\ x ∉ runnable a;
  ao_apart : forall q1 q2 ts1 ts2 x, queues a !! q1 = Some ts1 -> queues a !! q2 = Some ts2 -> x ∈ ts1 -> x ∈ ts2 -> q1 = q2;
}.

Lemma abs_ok_add a t pin : abs_ok a -> abs_new a t -> abs_ok (add_runnable a t pin).
Proof.
  intros [H1 H2 H3] (Ht & Hr & Hq). split; simpl.
  - intros x [->%elem_of_singleton|Hx]%elem_of_union; auto.
  - intros q ts x Hts Hx. destruct (H2 q ts x Hts Hx) as [??]. split; [done|]. intros [->%elem_of_singleton|?]%elem_of_union; [|done]. by apply (Hq q ts).
  - eauto.
Qed.

Lemma abs_ok_drop a t pin : abs_ok a -> abs_ok (mkAbs (runnable a ∖ {[t]}) pin (queues a)).
Proof.
  intros [H1 H2 H3]. split; simpl.
  - intros x [? _]%elem_of_difference. auto.
  - intros q ts x Hts Hx. destruct (H2 q ts x Hts Hx). split; [done|]. by intros [? _]%elem_of_difference.
  - eauto.
Qed.

(** A queue gets only threads it had, or a new one. *)
Lemma abs_ok_queue a q ts' : abs_ok a -> (forall x, x ∈ ts' -> abs_new a x \/ exists ts, queues a !! q = Some ts /\ x ∈ ts) -> abs_ok (set_queue a q ts').
Proof.
  intros [H1 H2 H3] Hts. split; simpl; [auto| |].
  - intros q' ts x. destruct (decide (q' = q)) as [->|Hne]; [|rewrite lookup_insert_ne by done; eauto]. rewrite lookup_insert_eq. intros [= <-] Hx.
    destruct (Hts x Hx) as [(? & ? & _)|(ts0 & ? & ?)]; [done|eauto].
  - assert (Hone : forall q2 ts2 x, q2 <> q -> queues a !! q2 = Some ts2 -> x ∈ ts2 -> x ∉ ts').
    { intros q2 ts2 x Hne E Hx Hx'. destruct (Hts x Hx') as [(_ & _ & Hn)|(ts0 & E0 & Hx0)]; [by apply (Hn q2 ts2)|]. by apply Hne, (H3 q2 q ts2 ts0 x). }
    intros q1 q2 ts1 ts2 x. destruct (decide (q1 = q)) as [->|N1], (decide (q2 = q)) as [->|N2]; rewrite ?lookup_insert_eq, ?lookup_insert_ne by done; [done| | |eauto].
    + intros [= <-] E2 Hx1 Hx2. exfalso. by apply (Hone q2 ts2 x).
    + intros E1 [= <-] Hx1 Hx2. exfalso. by apply (Hone q1 ts1 x).
Qed.

Lemma abs_ok_step a c ans a' : abs_ok a -> legal a c -> abs_step a c ans = Some a' -> abs_ok a'.
Proof.
  intros Ha Hl H. destruct c, ans as [| |[w|]|]; simpl in *; simplify_eq; unfold with_queue, when in *; try done.
  all: try (destruct (queues a !! q) as [ts|] eqn:Hq; [simpl in H|done]); repeat (case_decide; [|done]); simplify_eq; try done.
  all: try (by apply abs_ok_add; [|tauto]); try (by apply abs_ok_add); try (by apply abs_ok_drop).
  all: apply abs_ok_queue; [done|]; intros x; try (intros Hx%elem_of_difference; destruct Hx as [Hx _]; right; by exists ts).
  - by intros ?%elem_of_empty.
  - intros [->%elem_of_singleton|Hx]%elem_of_union; [left; tauto|right; by exists ts].
Qed.

(** A scheduler keeps its promises for the calls it supports; it may cut a run short. *)
Class Lawful (S : IScheduler) := {
  represents : sched_state S -> abs -> Prop;
  supports : env -> abs -> icall -> Prop;
  lawful_call s a e c p r : represents s a -> legal a c -> supports e a c -> leaf (sched_call S e c s) p r ->
    match r with
    | inl (ans, s') => exists a', abs_step a c ans = Some a' /\ represents s' a'
    | inr st => st = Prune
    end;
}.

(** The answers a client may see, and a client that asks only what is legal. *)
Inductive abs_reach (C : client) (a0 : abs) : list answer -> abs -> Prop :=
| abs_reach_nil : abs_reach C a0 [] a0
| abs_reach_snoc hist a e c ans a' :
    abs_reach C a0 hist a -> C hist = Some (e, c) -> abs_step a c ans = Some a' -> abs_reach C a0 (hist ++ [ans]) a'.

Definition client_ok (sup : env -> abs -> icall -> Prop) (C : client) (a0 : abs) : Prop :=
  forall hist a e c, abs_reach C a0 hist a -> C hist = Some (e, c) -> legal a c /\ sup e a c.

Definition abs0 : abs := mkAbs ∅ None ∅.

(** *** Checking a client

    A client with finitely many runs is checked by running it on every answer. *)

#[export] Instance legal_dec a c : Decision (legal a c).
Proof.
  destruct c as [| | | | | | | | | | | | | | | | |q t| | | | |]; try (unfold legal, abs_new; apply _). simpl.
  destruct (queues a !! q) as [ts|] eqn:E; [|right; by intros (? & ? & _)].
  destruct (decide (t ∈ ts)); [left; by exists ts|right; intros (? & ? & ?); congruence].
Defined.

Definition possible (a : abs) (c : icall) : list answer :=
  match c with
  | PickNext => (fun t => AThread (Some t)) <$> elements (runnable a)
  | WqPop q | WqPopAll q => AThread None :: ((fun t => AThread (Some t)) <$> elements (default ∅ (queues a !! q)))
  | RandomChoice n => (fun i => ANum (Z.of_nat i)) <$> seq 0 n
  | IsIdle | WqIsEmpty _ | WqRemove _ _ | SpuriousWakeup | SpuriousTryFailure | IsModelChecker => [ABool true; ABool false]
  | _ => [AVoid]
  end.

Lemma possible_all a c ans a' : c <> RandomNumber -> abs_step a c ans = Some a' -> ans ∈ possible a c.
Proof.
  assert (Hb : forall b, ABool b ∈ [ABool true; ABool false]) by (intros []; [by left|right; by left]).
  intros Hc H. destruct c, ans as [| |[w|]|]; try done; simpl in *; unfold with_queue, when in H; try (by left); auto.
  - case_decide; [|done]. apply list_elem_of_fmap. exists w. split; [done|]. by apply elem_of_elements.
  - destruct (queues a !! q) as [ts|]; simpl in H; [|done]. case_decide; [|done]. right. apply list_elem_of_fmap. exists w. split; [done|]. by apply elem_of_elements.
  - destruct (queues a !! q) as [ts|]; simpl in H; [|done]. case_decide; [|done]. right. apply list_elem_of_fmap. exists w. split; [done|]. by apply elem_of_elements.
  - case_decide; [|done]. apply list_elem_of_fmap. exists (Z.to_nat z). split; [f_equal; lia|]. apply elem_of_seq. lia.
Qed.

Fixpoint client_okb (sup : icall -> bool) (n : nat) (C : client) (hist : list answer) (a : abs) : bool :=
  match C hist with
  | None => true
  | Some (e, c) =>
      match n with
      | O => false
      | S n =>
          bool_decide (legal a c) && sup c && (if c is RandomNumber then false else true) &&
          forallb (fun ans => match abs_step a c ans with Some a' => client_okb sup n C (hist ++ [ans]) a' | None => true end) (possible a c)
      end
  end.

Lemma client_okb_sound sup n C a0 : client_okb sup n C [] a0 = true -> client_ok (fun _ _ c => sup c = true) C a0.
Proof.
  intros H. assert (Hr : forall hist a, abs_reach C a0 hist a -> exists n, client_okb sup n C hist a = true).
  { induction 1 as [|hist a e c ans a' Hr [n' IH] Hc Ha]; [by exists n|]. destruct n' as [|n']; simpl in IH; rewrite Hc in IH; [done|].
    apply andb_true_iff in IH as [[_ Hn]%andb_true_iff Hf]. rewrite forallb_forall in Hf. exists n'. specialize (Hf ans). rewrite Ha in Hf. apply Hf.
    apply list_elem_of_In. apply (possible_all a c ans a'); [by intros ->|done]. }
  intros hist a e c [n' Hn]%Hr Hc. destruct n'; simpl in Hn; rewrite Hc in Hn; [done|]. apply andb_true_iff in Hn as [[[Hl Hs]%andb_true_iff _]%andb_true_iff _].
  by apply bool_decide_eq_true in Hl.
Qed.

Section lawful.
Context (S : IScheduler) `{!Lawful S} (C : client) (a0 : abs) (Hok : client_ok supports C a0).

(** Every run of a simulation gives right answers, and ends, is pruned or takes too long. *)
Lemma simulate_lawful budget hist s a p r :
  represents s a -> abs_reach C a0 hist a -> leaf (simulate S budget C hist s) p r ->
  match r with
  | inl (hist', s') => C hist' = None /\ exists a', abs_reach C a0 hist' a' /\ represents s' a'
  | inr st => st = Prune \/ st = Timeout
  end.
Proof using Hok.
  revert hist s a p. induction budget as [|budget IH]; intros hist s a p Hs Ha H; simpl in H; destruct (C hist) as [[e c]|] eqn:Hc.
  - apply leaf_stop_inv in H as [_ ->]. by right.
  - apply leaf_ret_inv in H as [_ ->]. eauto.
  - destruct (Hok hist a e c Ha Hc) as [Hl Hsup]. apply leaf_bind_inv in H as [(p1 & p2 & [ans s'] & -> & H1 & H2)|(st & -> & H1)].
    + destruct (lawful_call _ _ _ _ _ _ Hs Hl Hsup H1) as (a' & Hstep & Hs'). eapply IH; [exact Hs'| |exact H2]. by econstructor.
    + left. by pose proof (lawful_call _ _ _ _ _ _ Hs Hl Hsup H1).
  - apply leaf_ret_inv in H as [_ ->]. eauto.
Qed.

Lemma simulate_choices budget hist s a :
  (forall s a e c, represents s a -> legal a c -> supports e a c -> choices_ok (sched_call S e c s)) ->
  represents s a -> abs_reach C a0 hist a -> choices_ok (simulate S budget C hist s).
Proof using Hok.
  intros Hc. revert hist s a. induction budget as [|budget IH]; intros hist s a Hs Ha; simpl; destruct (C hist) as [[e c]|] eqn:Hh; try done.
  destruct (Hok hist a e c Ha Hh) as [Hl Hsup]. apply choices_ok_bind; [eauto|]. intros p [ans s'] H1.
  destruct (lawful_call _ _ _ _ _ _ Hs Hl Hsup H1) as (a' & Hstep & Hs'). eapply IH; [exact Hs'|]. by econstructor.
Qed.

(** A run that is made of the runs of its calls. *)
Lemma simulate_extend budget hist s e c p ans s' p2 r : C hist = Some (e, c) -> leaf (sched_call S e c s) p (inl (ans, s')) ->
  leaf (simulate S budget C (hist ++ [ans]) s') p2 r -> leaf (simulate S (Datatypes.S budget) C hist s) (p ++ p2) r.
Proof. intros Hc H1 H2. simpl. rewrite Hc. by eapply leaf_bind. Qed.
End lawful.

(** ** Recording *)

(** [replay::Decision] *)
Inductive Decision_ :=
| DPickNext (id : Z) | DWakeOne (id : option Z) | DWakeAll (id : option Z) | DRandomNumber (value : Z)
| DRandomChoice (index : Z) | DSpuriousWakeup (wake : bool) | DSpuriousTryFailure (fail : bool).

(** The decision that the recorder adds after a call of the underlying scheduler. *)
Definition Record_ (c : icall) (r : answer) : option (list Decision_) :=
  match c, r with
  | PickNext, AThread (Some t) => Some [DPickNext t]
  | PickNext, _ => None
  | WqPop _, AThread w => Some [DWakeOne w]
  | WqPopAll _, AThread w => Some [DWakeAll w]
  | RandomNumber, ANum z => Some [DRandomNumber z]
  | RandomChoice _, ANum z => Some [DRandomChoice z]
  | SpuriousWakeup, ABool b => Some [DSpuriousWakeup b]
  | SpuriousTryFailure, ABool b => Some [DSpuriousTryFailure b]
  | _, _ => Some []
  end.

(** [Recorder]: the underlying scheduler and [schedule_].  It does not override
    [IsModelChecker]. *)
Definition recorder_call (U : IScheduler) (e : env) (c : icall) (s : sched_state U * list Decision_) : M (answer * (sched_state U * list Decision_)) :=
  match c with
  | IsModelChecker => Ret (ABool false, s)
  | _ =>
      p ← sched_call U e c s.1;
      match Record_ c p.1 with
      | Some ds => Ret (p.1, (p.2, s.2 ++ ds))
      | None => Stop Crash
      end
  end.
Definition Recorder (U : IScheduler) : IScheduler := mkScheduler (sched_state U * list Decision_) (recorder_call U).

(** ** Replaying *)

(** [replay::Scheduler] *)
Record Replay := mkReplay { rp_schedule : list Decision_; rp_next : nat; run_set : gset Z; rp_queues : gmap Z (gset Z) }.

(** [Next]; [f] is [std::get_if]. *)
Definition rp_Next {A} (s : Replay) (f : Decision_ -> option A) : M (A * Replay) :=
  match rp_schedule s !! rp_next s with
  | None => Stop Panic
  | Some d =>
      match f d with
      | Some x => Ret (x, mkReplay (rp_schedule s) (Datatypes.S (rp_next s)) (run_set s) (rp_queues s))
      | None => Stop Panic
      end
  end.

Definition rp_add (s : Replay) (t : Z) : Replay := mkReplay (rp_schedule s) (rp_next s) ({[t]} ∪ run_set s) (rp_queues s).
Definition rp_erase (s : Replay) (t : Z) : Replay := mkReplay (rp_schedule s) (rp_next s) (run_set s ∖ {[t]}) (rp_queues s).
Definition rp_set_queue (s : Replay) (q : Z) (ts : gset Z) : Replay := mkReplay (rp_schedule s) (rp_next s) (run_set s) (<[q := ts]> (rp_queues s)).

(** An access to a wait queue that does not exist. *)
Definition rp_queue (s : Replay) (q : Z) : M (gset Z) := match rp_queues s !! q with Some ts => Ret ts | None => Stop Crash end.

Definition rp_PickNext (s : Replay) : M (answer * Replay) :=
  p ← rp_Next s (fun d => match d with DPickNext t => Some t | _ => None end);
  _ ← verify_sim (bool_decide (p.1 ∈ run_set p.2));
  Ret (AThread (Some p.1), rp_erase p.2 p.1).

(** [WakeOne], [WakeAll] and [PopById] *)
Definition rp_wake (s : Replay) (q : Z) (f : Decision_ -> option (option Z)) : M (answer * Replay) :=
  p ← rp_Next s f;
  match p.1 with
  | None => Ret (AThread None, p.2)
  | Some t =>
      ts ← rp_queue p.2 q;
      _ ← verify_sim (bool_decide (t ∈ ts));
      Ret (AThread (Some t), rp_set_queue p.2 q (ts ∖ {[t]}))
  end.

Definition replay_call (e : env) (c : icall) (s : Replay) : M (answer * Replay) :=
  match c with
  | Interrupt t | SwitchTo t _ | Yield t | Wake t | Spawn t => Ret (AVoid, rp_add s t)
  | Exit _ | LockFree _ _ | Progress _ | NewIter => Ret (AVoid, s)
  | IsIdle => Ret (ABool (bool_decide (run_set s = ∅)), s)
  | PickNext => rp_PickNext s
  | Remove t => Ret (AVoid, rp_erase s t)
  | NewWaitQueue q => Ret (AVoid, rp_set_queue s q ∅)
  | WqIsEmpty q => ts ← rp_queue s q; Ret (ABool (bool_decide (ts = ∅)), s)
  | WqPush q t => ts ← rp_queue s q; Ret (AVoid, rp_set_queue s q ({[t]} ∪ ts))
  | WqPop q => rp_wake s q (fun d => match d with DWakeOne w => Some w | _ => None end)
  | WqPopAll q => rp_wake s q (fun d => match d with DWakeAll w => Some w | _ => None end)
  | WqRemove q t => ts ← rp_queue s q; Ret (ABool (bool_decide (t ∈ ts)), rp_set_queue s q (ts ∖ {[t]}))
  | RandomNumber => p ← rp_Next s (fun d => match d with DRandomNumber z => Some z | _ => None end); Ret (ANum p.1, p.2)
  | RandomChoice n =>
      p ← rp_Next s (fun d => match d with DRandomChoice z => Some z | _ => None end);
      _ ← verify_sim (p.1 <? Z.of_nat n);
      Ret (ANum p.1, p.2)
  | SpuriousWakeup => p ← rp_Next s (fun d => match d with DSpuriousWakeup b => Some b | _ => None end); Ret (ABool p.1, p.2)
  | SpuriousTryFailure => p ← rp_Next s (fun d => match d with DSpuriousTryFailure b => Some b | _ => None end); Ret (ABool p.1, p.2)
  | IsModelChecker => Ret (ABool false, s)
  end.
Definition ReplayScheduler : IScheduler := mkScheduler Replay replay_call.

(** [ReplayScheduler replay{schedule}] *)
Definition replay_new (schedule : list Decision_) : Replay := mkReplay schedule 0 ∅ ∅.

Section roundtrip.
Context (U : IScheduler) `{!Lawful U}.

(** The replay scheduler at the same point of the same run. *)
Definition replay_at (full : list Decision_) (sch : list Decision_) (a : abs) : Replay := mkReplay full (length sch) (runnable a) (queues a).

Lemma rp_Next_at {A} full sch d a (f : Decision_ -> option A) x : (sch ++ [d]) `prefix_of` full -> f d = Some x ->
  rp_Next (replay_at full sch a) f = Ret (x, replay_at full (sch ++ [d]) a).
Proof.
  intros [l ->] Hf. unfold rp_Next. simpl. rewrite <- app_assoc, lookup_app_r, Nat.sub_diag by lia. simpl. rewrite Hf.
  unfold replay_at. rewrite length_app. simpl. by rewrite Nat.add_comm.
Qed.

(** One recorded call, replayed. *)
Lemma replay_step e c full sch a ans a' ds : legal a c -> abs_step a c ans = Some a' -> Record_ c ans = Some ds ->
  (c = IsModelChecker -> ans = ABool false) -> (sch ++ ds) `prefix_of` full ->
  replay_call e c (replay_at full sch a) = Ret (ans, replay_at full (sch ++ ds) a').
Proof.
  intros Hl Ha Hr Hm Hp. destruct c, ans; simpl in Ha; simplify_eq/=; rewrite ?app_nil_r in *; try done.
  all: try (unfold with_queue, when in Ha); try (destruct (queues a !! q) as [ts|] eqn:Hq; [simpl in Ha|done]).
  all: repeat (case_decide; [|done]); simplify_eq/=; unfold rp_queue; simpl; rewrite ?Hq; try done.
  - destruct t as [t|]; [|done]. case_decide; [|done]. simplify_eq/=. unfold rp_PickNext. erewrite rp_Next_at by done. simpl.
    by rewrite bool_decide_eq_true_2.
  - unfold rp_wake. erewrite rp_Next_at by done. simpl. destruct t as [t|]; simpl in Ha; case_decide; simplify_eq/=; [|done].
    unfold rp_queue. simpl. rewrite Hq. simpl. by rewrite bool_decide_eq_true_2.
  - unfold rp_wake. erewrite rp_Next_at by done. simpl. destruct t as [t|]; simpl in Ha; case_decide; simplify_eq/=; [|done].
    unfold rp_queue. simpl. rewrite Hq. simpl. by rewrite bool_decide_eq_true_2.
  - by erewrite rp_Next_at by done.
  - erewrite rp_Next_at by done. simpl. by rewrite (proj2 (Z.ltb_lt _ _)) by lia.
  - by erewrite rp_Next_at by done.
  - by erewrite rp_Next_at by done.
  - by rewrite Hm.
Qed.

Lemma Record_total a c ans a' : abs_step a c ans = Some a' -> exists ds, Record_ c ans = Some ds.
Proof. destruct c, ans as [| |[]|]; simpl; eauto; done. Qed.

Lemma recorder_leaf e c s sch p ans s' ds : c <> IsModelChecker -> leaf (sched_call U e c s) p (inl (ans, s')) -> Record_ c ans = Some ds ->
  leaf (recorder_call U e c (s, sch)) p (inl (ans, (s', sch ++ ds))).
Proof.
  intros Hc H Hr. rewrite <- (app_nil_r p). destruct c; try done; (eapply leaf_bind; [exact H|]; cbn -[Record_]; rewrite Hr; constructor).
Qed.

Lemma record_replay (C : client) (a0 : abs) budget hist s a sch p hist' s' :
  client_ok supports C a0 -> (forall h a e, abs_reach C a0 h a -> C h <> Some (e, IsModelChecker)) -> represents s a -> abs_reach C a0 hist a ->
  leaf (simulate U budget C hist s) p (inl (hist', s')) ->
  exists ds a', leaf (simulate (Recorder U) budget C hist (s, sch)) p (inl (hist', (s', sch ++ ds))) /\
    forall full, (sch ++ ds) `prefix_of` full ->
      simulate ReplayScheduler budget C hist (replay_at full sch a) = Ret (hist', replay_at full (sch ++ ds) a').
Proof.
  intros Hok Hm. revert hist s a sch p. induction budget as [|budget IH]; intros hist s a sch p Hs Ha H; simpl in *; destruct (C hist) as [[e c]|] eqn:Hc.
  1: by apply leaf_stop_inv in H as [_ ?].
  1, 3: apply leaf_ret_inv in H as [-> [= <- <-]]; exists [], a; rewrite app_nil_r; split; [constructor|done].
  destruct (Hok hist a e c Ha Hc) as [Hl Hsup]. assert (Hne : c <> IsModelChecker) by (intros ->; by apply (Hm hist a e)).
  apply leaf_bind_inv in H as [(p1 & p2 & [ans s1] & -> & H1 & H2)|(st & ? & _)]; [|done].
  destruct (lawful_call _ _ _ _ _ _ Hs Hl Hsup H1) as (a1 & Hstep & Hs1). destruct (Record_total _ _ _ _ Hstep) as [ds1 Hr].
  destruct (IH (hist ++ [ans]) s1 a1 (sch ++ ds1) p2 Hs1) as (ds2 & a' & R1 & R2); [by econstructor|done|].
  rewrite <- app_assoc in R1, R2. exists (ds1 ++ ds2), a'. split.
  - eapply leaf_bind; [by apply recorder_leaf|done].
  - intros full Hp. rewrite (replay_step e c full sch a ans a1 ds1); [|done|done|done|done|].
    + by apply R2.
    + etrans; [|exact Hp]. rewrite app_assoc. by apply prefix_app_r.
Qed.
End roundtrip.
