(* ===== verification/DfsSched.v ===== *)
(** The model checker of the simulator:
    src/deps/twist/source/twist/rt/sim/scheduler/dfs/scheduler.hpp, and the loop [Explore] of
    src/deps/twist/source/twist/mod/sim/sim.cpp around it.

    The scheduler keeps its runnable threads in a sorted array, asks [Choose] at every
    decision, and backtracks over the recorded branches from one run to the next.  The
    theorems: the scheduler is lawful (SimSched.v), so its failures can be recorded and
    replayed; the loop visits every run exactly once and ends; and without limits the runs
    are all interleavings. *)

From Stdlib Require Import Sorted.
From S2P Require Import Prelude SimSched.
Local Open Scope Z_scope.

(** ** SortedList *)

(** [list_] and [size_]; the elements from [size_] on are garbage. *)
Record SortedList := mkSL { sl_list : list Z; sl_size : nat }.

Definition sl_new : SortedList := mkSL (replicate sim_kMaxThreads 0) 0.

(** Accesses to the array. *)
Definition sl_get (l : list Z) (i : nat) : M Z := match l !! i with Some f => Ret f | None => Stop Crash end.
Definition sl_set (l : list Z) (i : nat) (f : Z) : M (list Z) := if decide (i < length l)%nat then Ret (<[i := f]> l) else Stop Crash.

Definition sl_IsEmpty (s : SortedList) : bool := bool_decide (sl_size s = O).

(** The loop of [Push]. *)
Fixpoint sl_push_loop (l : list Z) (i : nat) (f : Z) : M (list Z * nat) :=
  match i with
  | O => Ret (l, O)
  | S i' =>
      g ← sl_get l i';
      if f <? g then l ← sl_set l i g; sl_push_loop l i' f else Ret (l, i)
  end.
Definition sl_Push (s : SortedList) (f : Z) : M SortedList :=
  p ← sl_push_loop (sl_list s) (sl_size s) f;
  l ← sl_set p.1 p.2 f;
  Ret (mkSL l (S (sl_size s))).

(** The loop of [Pop]: [n] iterations from [j]. *)
Fixpoint sl_shift (n : nat) (l : list Z) (j : nat) : M (list Z) :=
  match n with
  | O => Ret l
  | S n => f ← sl_get l (S j); l ← sl_set l j f; sl_shift n l (S j)
  end.
Definition sl_Pop (s : SortedList) (i : nat) : M (Z * SortedList) :=
  f ← sl_get (sl_list s) i;
  l ← sl_shift (sl_size s - 1 - i) (sl_list s) i;
  Ret (f, mkSL l (pred (sl_size s))).

Definition sl_PopLast (s : SortedList) : M (option Z * SortedList) :=
  match sl_size s with
  | O => Ret (None, s)
  | S n => f ← sl_get (sl_list s) n; Ret (Some f, mkSL (sl_list s) n)
  end.

(** The loop of [Remove]: [n] iterations from [i]. *)
Fixpoint sl_remove_loop (n : nat) (s : SortedList) (i : nat) (f : Z) : M (bool * SortedList) :=
  match n with
  | O => Ret (false, s)
  | S n =>
      g ← sl_get (sl_list s) i;
      if g =? f then p ← sl_Pop s i; Ret (true, p.2) else sl_remove_loop n s (S i) f
  end.
Definition sl_Remove (s : SortedList) (f : Z) : M (bool * SortedList) := sl_remove_loop (sl_size s) s 0 f.

(** ** The scheduler *)

(** [dfs::Params] *)
Record DfsParams := mkDfsParams {
  max_preemptions : option nat; max_steps : option nat; force_preempt_after_steps : option nat;
  wake_order : bool; spurious_wakeups : bool; spurious_failures : bool;
}.

Inductive DfsWaitQueue := FifoWaitQueue (queue : list Z) | BranchingWaitQueue (list_ : SortedList).

(** The fields of the scheduler, [sched.f1] of the threads, and the wait queues;
    [schedule_] and [branch_index_] are the arguments of [dfs_run] below. *)
Record Dfs := mkDfs {
  run_queue_ : SortedList; active_ : option Z; preempts_ : nat; steps_ : nat;
  sched_f1 : gmap Z nat; dfs_queues : gmap Z DfsWaitQueue;
}.

Definition dfs_set_run (s : Dfs) (l : SortedList) : Dfs := mkDfs l (active_ s) (preempts_ s) (steps_ s) (sched_f1 s) (dfs_queues s).
Definition dfs_set_active (s : Dfs) (t : option Z) : Dfs := mkDfs (run_queue_ s) t (preempts_ s) (steps_ s) (sched_f1 s) (dfs_queues s).
Definition dfs_set_preempts (s : Dfs) (n : nat) : Dfs := mkDfs (run_queue_ s) (active_ s) n (steps_ s) (sched_f1 s) (dfs_queues s).
Definition dfs_set_steps (s : Dfs) (n : nat) (f1 : gmap Z nat) : Dfs := mkDfs (run_queue_ s) (active_ s) (preempts_ s) n f1 (dfs_queues s).
Definition dfs_set_queues (s : Dfs) (qs : gmap Z DfsWaitQueue) : Dfs := mkDfs (run_queue_ s) (active_ s) (preempts_ s) (steps_ s) (sched_f1 s) qs.

(** [Start] *)
Definition dfs_Start : Dfs := mkDfs sl_new None 0 0 ∅ ∅.

Section scheduler.
Context (P : DfsParams).

Definition dfs_Either (type : BranchType) : M bool := Choose type 2 (fun i => Ret (bool_decide (i = 1%nat))).

Definition dfs_Pick (l : SortedList) (type : BranchType) : M (option Z * SortedList) :=
  if sl_IsEmpty l then Ret (None, l)
  else if bool_decide (sl_size l = 1%nat) then p ← sl_Pop l 0; Ret (Some p.1, p.2)
  else
    index ← Choose type (sl_size l) Ret;
    p ← sl_Pop l index;
    Ret (Some p.1, p.2).

Definition dfs_AddStep (s : Dfs) (running : option Z) : M Dfs :=
  let steps := S (steps_ s) in
  if match max_steps P with Some m => bool_decide (m < steps)%nat | None => false end then Stop Prune
  else
    Ret (dfs_set_steps s steps
          match running with
          | Some t => <[t := S (default O (sched_f1 s !! t))]> (sched_f1 s)
          | None => sched_f1 s
          end).

Definition dfs_ForcedPreempt (s : Dfs) (running : Z) : bool :=
  match force_preempt_after_steps P with Some n => bool_decide (n <= default O (sched_f1 s !! running))%nat | None => false end.

Definition dfs_MaxPreemptsReached (s : Dfs) : bool :=
  match max_preemptions P with Some n => bool_decide (n <= preempts_ s)%nat | None => false end.

Definition dfs_Preempt (e : env) (s : Dfs) (active : Z) : M bool :=
  if negb (preemptive e active) then Ret false
  else if sl_IsEmpty (run_queue_ s) then Ret false
  else if dfs_ForcedPreempt s active then
    if dfs_MaxPreemptsReached s then Stop Prune else Ret true
  else if dfs_MaxPreemptsReached s then Ret false
  else dfs_Either BPreempt.

(** The part of [PickNext] after the decision to preempt [preempted] or nobody. *)
Definition dfs_PickFromQueue (s : Dfs) (preempted : option Z) : M (answer * Dfs) :=
  p ← dfs_Pick (run_queue_ s) BPickNext;
  let s := dfs_set_run s p.2 in
  s ← match preempted with
      | Some t => l ← sl_Push (run_queue_ s) t; Ret (dfs_set_run (dfs_set_preempts s (S (preempts_ s))) l)
      | None => Ret s
      end;
  match p.1 with
  | Some next => Ret (AThread (Some next), dfs_set_steps s (steps_ s) (<[next := O]> (sched_f1 s)))
  | None => Stop Crash
  end.

Definition dfs_PickNext (e : env) (s : Dfs) : M (answer * Dfs) :=
  let active := active_ s in
  let s := dfs_set_active s None in
  s ← dfs_AddStep s active;
  match active with
  | Some t =>
      preempt ← dfs_Preempt e s t;
      if preempt : bool then dfs_PickFromQueue s (Some t) else Ret (AThread (Some t), s)
  | None => dfs_PickFromQueue s None
  end.

(** A method of the wait queue [q]. *)
Definition dfs_on_queue {A} (s : Dfs) (q : Z) (f : DfsWaitQueue -> M (A * DfsWaitQueue)) : M (A * Dfs) :=
  match dfs_queues s !! q with
  | Some w => p ← f w; Ret (p.1, dfs_set_queues s (<[q := p.2]> (dfs_queues s)))
  | None => Stop Crash
  end.

Definition dfs_NewWaitQueue : DfsWaitQueue := if wake_order P then BranchingWaitQueue sl_new else FifoWaitQueue [].

Definition wq_IsEmpty (w : DfsWaitQueue) : bool :=
  match w with FifoWaitQueue l => bool_decide (l = []) | BranchingWaitQueue l => sl_IsEmpty l end.
Definition wq_Push (t : Z) (w : DfsWaitQueue) : M (answer * DfsWaitQueue) :=
  match w with
  | FifoWaitQueue l => Ret (AVoid, FifoWaitQueue (l ++ [t]))
  | BranchingWaitQueue l => l ← sl_Push l t; Ret (AVoid, BranchingWaitQueue l)
  end.
Definition fifo_Pop (l : list Z) : M (answer * DfsWaitQueue) := Ret (AThread (head l), FifoWaitQueue (tail l)).
Definition wq_Pop (w : DfsWaitQueue) : M (answer * DfsWaitQueue) :=
  match w with
  | FifoWaitQueue l => fifo_Pop l
  | BranchingWaitQueue l => p ← dfs_Pick l BWakeOne; Ret (AThread p.1, BranchingWaitQueue p.2)
  end.
Definition wq_PopAll (w : DfsWaitQueue) : M (answer * DfsWaitQueue) :=
  match w with
  | FifoWaitQueue l => fifo_Pop l
  | BranchingWaitQueue l => p ← sl_PopLast l; Ret (AThread p.1, BranchingWaitQueue p.2)
  end.

(** [IsLinked]: in whichever queue; [Unlink] *)
Definition fifo_linked (t : Z) (w : DfsWaitQueue) : bool :=
  match w with FifoWaitQueue l => bool_decide (t ∈ l) | BranchingWaitQueue _ => false end.
Definition fifo_unlink (t : Z) (w : DfsWaitQueue) : DfsWaitQueue :=
  match w with FifoWaitQueue l => FifoWaitQueue (filter (fun x => x <> t) l) | BranchingWaitQueue _ => w end.

Definition dfs_wq_Remove (s : Dfs) (q t : Z) : M (answer * Dfs) :=
  match dfs_queues s !! q with
  | None => Stop Crash
  | Some (FifoWaitQueue _) =>
      if existsb (fun p => fifo_linked t p.2) (map_to_list (dfs_queues s))
      then Ret (ABool true, dfs_set_queues s (fifo_unlink t <$> dfs_queues s)) else Ret (ABool false, s)
  | Some (BranchingWaitQueue l) =>
      p ← sl_Remove l t;
      Ret (ABool p.1, dfs_set_queues s (<[q := BranchingWaitQueue p.2]> (dfs_queues s)))
  end.

Definition dfs_call (e : env) (c : icall) (s : Dfs) : M (answer * Dfs) :=
  match c with
  | Interrupt t => Ret (AVoid, dfs_set_active s (Some t))
  | SwitchTo _ _ | RandomNumber => Stop Panic
  | Yield t | Wake t | Spawn t => l ← sl_Push (run_queue_ s) t; Ret (AVoid, dfs_set_run s l)
  | Exit t => s ← dfs_AddStep s (Some t); Ret (AVoid, s)
  | LockFree _ _ | Progress _ | NewIter => Ret (AVoid, s)
  | IsIdle => Ret (ABool (sl_IsEmpty (run_queue_ s) && bool_decide (active_ s = None)), s)
  | PickNext => dfs_PickNext e s
  | Remove t => p ← sl_Remove (run_queue_ s) t; Ret (AVoid, dfs_set_run s p.2)
  | NewWaitQueue q => Ret (AVoid, dfs_set_queues s (<[q := dfs_NewWaitQueue]> (dfs_queues s)))
  | WqIsEmpty q => dfs_on_queue s q (fun w => Ret (ABool (wq_IsEmpty w), w))
  | WqPush q t => dfs_on_queue s q (wq_Push t)
  | WqPop q => dfs_on_queue s q wq_Pop
  | WqPopAll q => dfs_on_queue s q wq_PopAll
  | WqRemove q t => dfs_wq_Remove s q t
  | RandomChoice alts => i ← Choose BRandomChoice alts Ret; Ret (ANum (Z.of_nat i), s)
  | SpuriousWakeup => if spurious_wakeups P then b ← dfs_Either BSpuriousWakeup; Ret (ABool b, s) else Ret (ABool false, s)
  | SpuriousTryFailure => if spurious_failures P then b ← dfs_Either BSpuriousTryFailure; Ret (ABool b, s) else Ret (ABool false, s)
  | IsModelChecker => Ret (ABool true, s)
  end.
Definition DfsScheduler : IScheduler := mkScheduler Dfs dfs_call.
End scheduler.

(** ** [Choose], [Backtrack] and the exploration *)

(** A run from [Start] on: [Choose] over [schedule_], which grows, and [branch_index_]. *)
Fixpoint dfs_run {A} (t : M A) (schedule : list Branch) (branch_index : nat) : (A + stop) * list Branch :=
  match t with
  | Ret a => (inl a, schedule)
  | Stop r => (inr r, schedule)
  | Choose type alts k =>
      match schedule !! branch_index with
      | Some b => if decide (br_type b = type) then dfs_run (k (br_index b)) schedule (S branch_index) else (inr Panic, schedule)
      | None => dfs_run (k O) (schedule ++ [mkBranch type alts 0]) (S branch_index)
      end
  end.

(** [Backtrack], on the reversed vector. *)
Fixpoint backtrack (s : list Branch) : bool * list Branch :=
  match s with
  | [] => (false, [])
  | last :: s => if decide (S (br_index last) = br_alts last) then backtrack s else (true, mkBranch (br_type last) (br_alts last) (S (br_index last)) :: s)
  end.
Definition Backtrack (s : list Branch) : bool * list Branch := let '(b, s) := backtrack (rev s) in (b, rev s).

(** [Explore] after [DetCheck]: what [Record] makes of the first failed run, from the schedule
    of choices that the scheduler holds and the result, and the number of simulations; [None]
    when the fuel is used up. *)
Fixpoint Explore {A B} (fuel : nat) (t : M A) (Failure : A + stop -> bool) (Record_ : list Branch -> A + stop -> B) (schedule : list Branch) (count : nat) : option (option B * nat) :=
  match fuel with
  | O => None
  | S fuel =>
      let '(result, schedule) := dfs_run t schedule 0 in
      if Failure result then Some (Some (Record_ schedule result), S count)
      else
        match Backtrack schedule with
        | (true, schedule) => Explore fuel t Failure Record_ schedule (S count)
        | (false, _) => Some (None, S count)
        end
  end.

(** The path to a leaf as the schedule. *)
Lemma dfs_run_leaf {A} (t : M A) p r : leaf t p r -> dfs_run t p 0 = (r, p).
Proof.
  intros H. enough (Hp : forall pre, dfs_run t (pre ++ p) (length pre) = (r, pre ++ p)) by exact (Hp []).
  induction H as [a|st|ty n k i p r Hi _ IH]; intros pre; cbn [dfs_run]; [done..|].
  rewrite lookup_app_r, Nat.sub_diag by lia. cbn. rewrite decide_True by done.
  specialize (IH (pre ++ [mkBranch ty n i])). by rewrite length_app, Nat.add_1_r, <- app_assoc in IH.
Qed.

(** ** Every run exactly once *)

Section explore.
Context {A : Type}.
Implicit Types (t T : M A) (pre p : list Branch).

(** All runs, in the order of the choices. *)
Fixpoint executions (t : M A) : list (list Branch * (A + stop)) :=
  match t with
  | Ret a => [([], inl a)]
  | Stop r => [([], inr r)]
  | Choose ty n k => concat (map (fun i => map (fun x => (mkBranch ty n i :: x.1, x.2)) (executions (k i))) (seq 0 n))
  end.

Lemma executions_leaf t p r : (p, r) ∈ executions t <-> leaf t p r.
Proof.
  revert p. induction t as [a|ty n k IH|s]; intros p; simpl.
  - rewrite list_elem_of_singleton. split; [intros [= -> ->]; constructor|]. by intros [-> ->]%leaf_ret_inv.
  - rewrite list_elem_of_In, in_concat. split.
    + intros (l & (i & <- & Hi%in_seq)%in_map_iff & ([p' r'] & [= <- <-] & Hx)%in_map_iff). constructor; [lia|]. apply IH. by apply list_elem_of_In.
    + intros (i & p' & -> & Hi & H)%leaf_choose_inv. eexists. split; [apply in_map_iff; exists i; split; [done|apply in_seq; lia]|].
      apply in_map_iff. exists (p', r). split; [done|]. apply list_elem_of_In. by apply IH.
  - rewrite list_elem_of_singleton. split; [intros [= -> ->]; constructor|]. by intros [-> ->]%leaf_stop_inv.
Qed.

(** The runs that start with the choices [j, j + n) of [N]. *)
Definition children ty (N : nat) (k : nat -> M A) (j n : nat) : list (list Branch * (A + stop)) :=
  concat (map (fun i => map (fun x => (mkBranch ty N i :: x.1, x.2)) (executions (k i))) (seq j n)).

Lemma children_head ty N k j n p : p ∈ (children ty N k j n).*1 -> exists i q, p = mkBranch ty N i :: q /\ (j <= i)%nat.
Proof.
  intros ((p', r) & -> & H)%list_elem_of_fmap. unfold children in H. apply list_elem_of_In in H.
  apply in_concat in H as (l & (i & <- & Hi%in_seq)%in_map_iff & ([q r'] & [= <- <-] & Hx)%in_map_iff). exists i, q. split; [done|lia].
Qed.

Lemma executions_nodup t : base.NoDup (executions t).*1.
Proof.
  induction t as [a|ty N k IH|s]; [by apply NoDup_singleton| |by apply NoDup_singleton]. simpl. generalize 0%nat as j. generalize N at 2 as n.
  intros n. induction n as [|n IHn]; intros j; [constructor|]. simpl. rewrite fmap_app. apply list.NoDup_app.
  assert (E : forall l : list (list Branch * (A + stop)), (map (fun x => (mkBranch ty N j :: x.1, x.2)) l).*1 = cons (mkBranch ty N j) <$> l.*1).
  { intros l. induction l as [|x l IHl]; [done|]. simpl. by f_equal. }
  rewrite E. split_and!; [apply NoDup_fmap_2; [by intros ?? [= ->]|apply IH]| |apply IHn].
  intros p (q & -> & _)%list_elem_of_fmap (i & q' & [= <- <-] & Hi)%children_head. lia.
Qed.

(** The computation after the choices [pre]. *)
Inductive under (T : M A) : list Branch -> M A -> Prop :=
| under_nil : under T [] T
| under_snoc pre ty n k i : under T pre (Choose ty n k) -> under T (pre ++ [mkBranch ty n i]) (k i).

Lemma run_under T pre t q : under T pre t -> dfs_run T (pre ++ q) 0 = dfs_run t (pre ++ q) (length pre).
Proof.
  intros H. revert q. induction H as [|pre ty n k i H IH]; intros q; [done|]. rewrite <- app_assoc, IH. simpl.
  rewrite lookup_app_r, Nat.sub_diag by lia. simpl. rewrite decide_True by done. by rewrite length_app, Nat.add_comm.
Qed.

(** With the choices of a run as its schedule, the run is repeated. *)
Lemma leaf_run t p r : leaf t p r -> dfs_run t p 0 = (r, p).
Proof.
  intros H. change p with ([] ++ p). change 0%nat with (@length Branch []). generalize (@nil Branch) as pre. induction H as [a|s|ty n k i p r Hi H IH]; intros pre; simpl; [by rewrite app_nil_r..|].
  rewrite list_lookup_middle by done. simpl. rewrite decide_True by done. specialize (IH (pre ++ [mkBranch ty n i])).
  rewrite <- app_assoc, length_app, Nat.add_comm in IH. exact IH.
Qed.

Lemma Backtrack_snoc pre ty n i :
  Backtrack (pre ++ [mkBranch ty n i]) = if decide (S i = n) then Backtrack pre else (true, pre ++ [mkBranch ty n (S i)]).
Proof. unfold Backtrack. rewrite rev_app_distr. simpl. case_decide; [done|]. simpl. by rewrite rev_involutive. Qed.

(** The runs from [sch] on, until [NextSchedule] fails. *)
Inductive visits (T : M A) : list Branch -> list (list Branch * (A + stop)) -> Prop :=
| visits_last sch r sch' x : dfs_run T sch 0 = (r, sch') -> Backtrack sch' = (false, x) -> visits T sch [(sch', r)]
| visits_next sch r sch' sch'' rs : dfs_run T sch 0 = (r, sch') -> Backtrack sch' = (true, sch'') -> visits T sch'' rs -> visits T sch ((sch', r) :: rs).

Lemma visits_same T sch1 sch2 rs : dfs_run T sch1 0 = dfs_run T sch2 0 -> visits T sch1 rs -> visits T sch2 rs.
Proof. intros E H. inversion H; subst; [eapply visits_last|eapply visits_next]; eauto; congruence. Qed.

(** What remains after the subtree at [pre]. *)
Definition remains (T : M A) (pre : list Branch) (rs : list (list Branch * (A + stop))) : Prop :=
  (exists x, Backtrack pre = (false, x) /\ rs = []) \/ (exists sch, Backtrack pre = (true, sch) /\ visits T sch rs).

Definition prefixed (pre : list Branch) (rs : list (list Branch * (A + stop))) := map (fun x => (pre ++ x.1, x.2)) rs.

Lemma visits_leaf T pre r rs : dfs_run T pre 0 = (r, pre) -> remains T pre rs -> visits T pre ((pre, r) :: rs).
Proof. intros H [(x & E & ->)|(sch & E & Hv)]; [by eapply visits_last|by eapply visits_next]. Qed.

Lemma prefixed_cons pre b rs : prefixed pre (map (fun x => (b :: x.1, x.2)) rs) = prefixed (pre ++ [b]) rs.
Proof. unfold prefixed. rewrite map_map. apply map_ext. intros x. simpl. by rewrite <- app_assoc. Qed.

Lemma prefixed_app pre rs1 rs2 : prefixed pre (rs1 ++ rs2) = prefixed pre rs1 ++ prefixed pre rs2.
Proof. apply map_app. Qed.

Lemma visits_under T t pre rs : under T pre t -> choices_ok t -> remains T pre rs -> visits T pre (prefixed pre (executions t) ++ rs).
Proof.
  revert pre rs. induction t as [a|ty N k IH|s]; intros pre rs Hu Hc Hr.
  1, 3: simpl; rewrite app_nil_r; apply visits_leaf; [|done]; pose proof (run_under T pre _ [] Hu) as E; rewrite app_nil_r in E; by rewrite E.
  destruct Hc as [HN Hk].
  assert (Hi : forall m i, (i + S m)%nat = N -> visits T (pre ++ [mkBranch ty N i]) (prefixed pre (children ty N k i (S m)) ++ rs)).
  { induction m as [|m IHm]; intros i Hi; unfold children; cbn [seq map concat]; rewrite prefixed_app, prefixed_cons, <- app_assoc;
      (apply IH; [by constructor|apply Hk; lia|]).
    - simpl. destruct Hr as [(x & E & ->)|(sch & E & Hv)]; [left; exists x|right; exists sch]; rewrite Backtrack_snoc, decide_True by lia; done.
    - right. exists (pre ++ [mkBranch ty N (S i)]). split; [rewrite Backtrack_snoc, decide_False by lia; done|]. apply IHm. lia. }
  eapply visits_same; [|destruct N as [|N']; [lia|apply (Hi N' 0%nat); lia]].
  pose proof (run_under T pre _ [] Hu) as E. rewrite app_nil_r in E. rewrite E.
  rewrite <- (app_nil_r (pre ++ [mkBranch ty N 0])), (run_under T _ _ _ (under_snoc T pre ty N k 0 Hu)). simpl. rewrite app_nil_r.
  rewrite (proj2 (lookup_ge_None pre (length pre))) by lia. by rewrite length_app, Nat.add_comm.
Qed.

Lemma Explore_visits {B} T (Failure : A + stop -> bool) (Rec : list Branch -> A + stop -> B) sch rs fuel count : visits T sch rs -> (length rs <= fuel)%nat ->
  Explore fuel T Failure Rec sch count = Some
    match list_find (fun x => Failure x.2 = true) rs with
    | Some (j, x) => (Some (Rec x.1 x.2), S (count + j))
    | None => (None, (count + length rs)%nat)
    end.
Proof.
  intros H. revert fuel count. induction H as [sch r sch' x E Eb|sch r sch' sch'' rs E Eb H IH]; intros fuel count Hf; destruct fuel as [|fuel]; simpl in Hf; try lia;
    simpl; rewrite E; destruct (Failure r) eqn:Er; simpl.
  - by rewrite Nat.add_0_r.
  - rewrite Eb. simpl. do 2 f_equal. lia.
  - by rewrite Nat.add_0_r.
  - rewrite Eb, IH by lia. f_equal. destruct (list_find _ rs) as [[j x]|]; simpl; do 2 f_equal; lia.
Qed.
End explore.

(** ** SortedList holds a sorted sequence *)

Definition sl_holds (s : SortedList) (l : list Z) : Prop :=
  exists rest, sl_list s = l ++ rest /\ sl_size s = length l /\ length (l ++ rest) = sim_kMaxThreads /\ StronglySorted Z.lt l.

Lemma sl_new_holds : sl_holds sl_new [].
Proof. exists (replicate sim_kMaxThreads 0). split_and!; [done|done|done|constructor]. Qed.

Lemma sl_get_mid l1 f l2 : sl_get (l1 ++ f :: l2) (length l1) = Ret f.
Proof. unfold sl_get. by rewrite list_lookup_middle. Qed.
Lemma sl_set_mid l1 f l2 g : sl_set (l1 ++ f :: l2) (length l1) g = Ret (l1 ++ g :: l2).
Proof.
  unfold sl_set. rewrite decide_True by (rewrite length_app; simpl; lia). rewrite insert_app_r_alt by lia. by rewrite Nat.sub_diag.
Qed.

Lemma sorted_app (l1 l2 : list Z) : StronglySorted Z.lt (l1 ++ l2) <->
  StronglySorted Z.lt l1 /\ StronglySorted Z.lt l2 /\ forall x y, x ∈ l1 -> y ∈ l2 -> x < y.
Proof.
  induction l1 as [|z l1 IH]; simpl.
  - split; [intros H; split_and!; [constructor|done|]; by intros x y ?%elem_of_nil|tauto].
  - split.
    + intros [H1 H2]%StronglySorted_inv. apply IH in H1 as (H3 & H4 & H5). apply list.Forall_app in H2 as [H6 H7]. split_and!; [by constructor|done|].
      intros x y [->|Hx]%elem_of_cons Hy; [|auto]. rewrite list.Forall_forall in H7. auto.
    + intros ([H1 H2]%StronglySorted_inv & H3 & H4). constructor; [apply IH; split_and!; [done|done|]; intros; apply H4; [by right|done]|].
      apply list.Forall_app. split; [done|]. apply list.Forall_forall. intros y Hy. apply H4; [by left|done].
Qed.
Lemma sorted_nodup (l : list Z) : StronglySorted Z.lt l -> base.NoDup l.
Proof.
  induction 1 as [|x l H IH Hall]; constructor; [|done]. intros Hx. rewrite list.Forall_forall in Hall. specialize (Hall x Hx). lia.
Qed.

(** The loop of [Push] leaves a gap before the greater elements. *)
Lemma sl_push_loop_ok f lf x lb rest : exists lf1 lf2 y, lf = lf1 ++ lf2 /\
  sl_push_loop (lf ++ x :: lb ++ rest) (length lf) f = Ret (lf1 ++ y :: lf2 ++ lb ++ rest, length lf1) /\
  (forall z, z ∈ lf2 -> f < z) /\ (forall z, lf1 <> [] -> z = List.last lf1 0 -> z <= f).
Proof.
  revert x lb. induction lf as [|g lf IH] using rev_ind; intros x lb.
  { exists [], [], x. split_and!; [done|done|by intros z ?%elem_of_nil|done]. }
  rewrite length_app, Nat.add_comm. simpl. rewrite <- app_assoc. simpl. rewrite sl_get_mid. simpl. destruct (f <? g) eqn:E.
  - replace (S (length lf)) with (length (lf ++ [g])) by (rewrite length_app; simpl; lia). replace (lf ++ g :: x :: lb ++ rest) with ((lf ++ [g]) ++ x :: lb ++ rest) by (by rewrite <- app_assoc). rewrite sl_set_mid. simpl.
    rewrite <- app_assoc. simpl. destruct (IH g (g :: lb)) as (lf1 & lf2 & y & -> & H1 & H2 & H3). simpl in H1. rewrite H1.
    exists lf1, (lf2 ++ [g]), y. split_and!; [by rewrite <- app_assoc|by rewrite <- app_assoc| |done].
    intros z [Hz|Hz%list_elem_of_singleton]%elem_of_app; [auto|]. subst z. lia.
  - exists (lf ++ [g]), [], x. split_and!; [by rewrite app_nil_r|rewrite <- app_assoc, length_app, Nat.add_comm; done|by intros z ?%elem_of_nil|].
    intros z _ ->. rewrite List.last_last. lia.
Qed.

Lemma sl_Push_ok s l f : sl_holds s l -> f ∉ l -> (length l < sim_kMaxThreads)%nat ->
  exists s' l1 l2, sl_Push s f = Ret s' /\ l = l1 ++ l2 /\ sl_holds s' (l1 ++ f :: l2).
Proof.
  intros (rest & E & Es & El & Hs) Hf Hl. rewrite length_app in El. destruct rest as [|x rest]; [simpl in El; lia|].
  destruct (sl_push_loop_ok f l x [] rest) as (l1 & l2 & y & -> & H1 & H2 & H3). cbn [app] in H1.
  unfold sl_Push. rewrite E, Es, H1. cbn [mbind M_bind fst snd app].
  rewrite sl_set_mid. cbn [mbind M_bind]. eexists _, l1, l2. split; [done|]. split; [done|]. exists rest. simpl. split_and!.
  - by rewrite <- app_assoc.
  - rewrite !length_app. simpl. lia.
  - rewrite !length_app in *. simpl in *. lia.
  - apply sorted_app in Hs as (S1 & S2 & S3). apply sorted_app. split_and!; [done| |].
    + constructor; [done|]. by apply list.Forall_forall.
    + assert (Hl1 : forall z, z ∈ l1 -> z < f).
      { intros z Hz. destruct (exists_last (l := l1)) as (l1' & w & ->); [by intros ->; apply elem_of_nil in Hz|].
        assert (Hw : w < f). { assert (w <= f) by (apply H3; [by destruct l1'|by rewrite List.last_last]). assert (w <> f); [|lia].
          intros ->. apply Hf. rewrite !elem_of_app, list_elem_of_singleton. tauto. }
        apply elem_of_app in Hz as [Hz|Hz%list_elem_of_singleton]; [|by subst]. apply sorted_app in S1 as (_ & _ & S1). specialize (S1 z w Hz ltac:(by left)). lia. }
      intros z y' Hz [->|Hy]%elem_of_cons; auto.
Qed.

Lemma sl_shift_ok pre f l rest : exists x, sl_shift (length l) (pre ++ f :: l ++ rest) (length pre) = Ret (pre ++ l ++ x :: rest).
Proof.
  revert pre f. induction l as [|g l IH]; intros pre f; simpl; [by exists f|].
  replace (S (length pre)) with (length (pre ++ [f])) by (rewrite length_app; simpl; lia). replace (pre ++ f :: g :: l ++ rest) with ((pre ++ [f]) ++ g :: l ++ rest) by (by rewrite <- app_assoc).
  rewrite sl_get_mid. simpl.
  rewrite <- app_assoc. simpl. rewrite sl_set_mid. simpl. destruct (IH (pre ++ [g]) g) as [x Hx]. exists x.
  rewrite <- app_assoc in Hx. simpl in Hx. rewrite !length_app in *. simpl in *. rewrite Hx. by rewrite <- app_assoc.
Qed.

Lemma sl_Pop_ok s l1 f l2 : sl_holds s (l1 ++ f :: l2) -> exists s', sl_Pop s (length l1) = Ret (f, s') /\ sl_holds s' (l1 ++ l2).
Proof.
  intros (rest & E & Es & El & Hs). unfold sl_Pop. rewrite E, Es, <- app_assoc. simpl. rewrite sl_get_mid. cbn [mbind M_bind].
  rewrite !length_app. simpl. replace (length l1 + S (length l2) - 1 - length l1)%nat with (length l2) by lia.
  destruct (sl_shift_ok l1 f l2 rest) as [x ->]. cbn [mbind M_bind]. eexists. split; [done|]. exists (x :: rest). simpl. split_and!.
  - by rewrite <- app_assoc.
  - rewrite length_app. lia.
  - rewrite !length_app in *. simpl in *. lia.
  - apply sorted_app in Hs as (S1 & [S2 _]%StronglySorted_inv & S3). apply sorted_app. split_and!; [done|done|]. intros; apply S3; [done|by right].
Qed.

Lemma sl_IsEmpty_ok s l : sl_holds s l -> sl_IsEmpty s = bool_decide (l = []).
Proof. intros (rest & _ & Es & _). unfold sl_IsEmpty. rewrite Es. destruct l; done. Qed.

Lemma sl_PopLast_ok s l : sl_holds s l ->
  (l = [] /\ sl_PopLast s = Ret (None, s)) \/ exists l' f s', l = l' ++ [f] /\ sl_PopLast s = Ret (Some f, s') /\ sl_holds s' l'.
Proof.
  intros (rest & E & Es & El & Hs). unfold sl_PopLast. rewrite Es. destruct l as [|f l _] using rev_ind; [by left|]. right.
  rewrite length_app, Nat.add_comm. simpl. exists l, f. eexists. rewrite E, <- app_assoc. simpl. rewrite sl_get_mid. split; [done|]. split; [done|].
  exists (f :: rest). simpl. rewrite <- app_assoc in El. apply sorted_app in Hs as (S1 & _). by split_and!.
Qed.

Lemma sl_remove_loop_ok f s pre l : sl_holds s (pre ++ l) -> f ∉ pre ->
  if decide (f ∈ l) then exists l1 l2 s', l = l1 ++ f :: l2 /\ sl_remove_loop (length l) s (length pre) f = Ret (true, s') /\ sl_holds s' (pre ++ l1 ++ l2)
  else sl_remove_loop (length l) s (length pre) f = Ret (false, s).
Proof.
  revert pre. induction l as [|g l IH]; intros pre Hs Hf; [by rewrite decide_False by apply not_elem_of_nil|].
  assert (E : sl_get (sl_list s) (length pre) = Ret g). { destruct Hs as (rest & E & _). rewrite E, <- app_assoc. apply sl_get_mid. }
  simpl. rewrite E. cbn [mbind M_bind]. destruct (Z.eqb_spec g f) as [->|Hne].
  - rewrite decide_True by by left. exists [], l. destruct (sl_Pop_ok s pre f l Hs) as (s' & -> & Hs'). exists s'. by split_and!.
  - specialize (IH (pre ++ [g])). rewrite <- app_assoc in IH. specialize (IH Hs). rewrite length_app, Nat.add_comm in IH.
    assert (Hf' : f ∉ pre ++ [g]) by (rewrite elem_of_app, list_elem_of_singleton; naive_solver). specialize (IH Hf').
    destruct (decide (f ∈ l)) as [Hl|Hl].
    + rewrite decide_True by by right. destruct IH as (l1 & l2 & s' & -> & E' & Hs'). exists (g :: l1), l2, s'. split; [done|]. split; [done|]. by rewrite <- app_assoc in Hs'.
    + rewrite decide_False; [done|]. rewrite elem_of_cons. naive_solver.
Qed.

Lemma sl_Remove_ok s l f : sl_holds s l -> exists s' l', sl_Remove s f = Ret (bool_decide (f ∈ l), s') /\ sl_holds s' l' /\
  forall x, x ∈ l' <-> x ∈ l /\ x <> f.
Proof.
  intros Hs. pose proof Hs as (rest & _ & Es & _ & Hsort). pose proof (sl_remove_loop_ok f s [] l Hs (not_elem_of_nil f)) as H. unfold sl_Remove. rewrite Es. simpl in H.
  destruct (decide (f ∈ l)) as [Hf|Hf].
  - destruct H as (l1 & l2 & s' & -> & -> & Hs'). exists s', (l1 ++ l2). rewrite bool_decide_eq_true_2 by done. split; [done|]. split; [done|].
    apply sorted_nodup in Hsort. rewrite <- Permutation_middle in Hsort. apply list.NoDup_cons in Hsort as [Hn _].
    intros x. rewrite !elem_of_app, elem_of_cons in *. split; [|tauto]. intros Hx. split; [tauto|]. intros ->. tauto.
  - exists s, l. rewrite bool_decide_eq_false_2 by done. split; [done|]. split; [done|]. intros x. split; [|tauto]. intros Hx. split; [done|]. by intros ->.
Qed.

(** ** The scheduler is lawful *)

Definition dwq_holds (P : DfsParams) (w : DfsWaitQueue) (ts : gset Z) : Prop :=
  match w with
  | FifoWaitQueue l => wake_order P = false /\ base.NoDup l /\ forall x, x ∈ l <-> x ∈ ts
  | BranchingWaitQueue s => wake_order P = true /\ exists l, sl_holds s l /\ forall x, x ∈ l <-> x ∈ ts
  end.

Record dfs_holds (P : DfsParams) (s : Dfs) (a : abs) : Prop := {
  dh_run : exists l, sl_holds (run_queue_ s) l /\ (forall x, x ∈ runnable a <-> x ∈ l \/ active_ s = Some x) /\ (forall x, active_ s = Some x -> x ∉ l);
  dh_pin : pinned a = active_ s;
  dh_queues : forall q, match dfs_queues s !! q, queues a !! q with Some w, Some ts => dwq_holds P w ts | None, None => True | _, _ => False end;
  dh_ok : abs_ok a;
}.

Lemma few_threads (l : list Z) (t : Z) : StronglySorted Z.lt l -> (forall x, x ∈ t :: l -> 1 <= x <= Z.of_nat sim_kMaxThreads) -> t ∉ l ->
  (length l < sim_kMaxThreads)%nat.
Proof.
  intros Hs Hr Ht. assert (Hsub : t :: l ⊆+ seqZ 1 16).
  { apply NoDup_submseteq; [constructor; [done|by apply sorted_nodup]|]. intros x Hx%Hr. apply elem_of_seqZ. unfold sim_kMaxThreads in Hx. lia. }
  apply submseteq_length in Hsub. rewrite length_seqZ in Hsub. simpl in Hsub. unfold sim_kMaxThreads. lia.
Qed.

Lemma sl_push_in s l f : sl_holds s l -> (forall x, x ∈ f :: l -> 1 <= x <= Z.of_nat sim_kMaxThreads) -> f ∉ l ->
  exists s' l', sl_Push s f = Ret s' /\ sl_holds s' l' /\ forall x, x ∈ l' <-> x = f \/ x ∈ l.
Proof.
  intros Hs Hr Hf. pose proof Hs as (_ & _ & _ & _ & Hsort). destruct (sl_Push_ok s l f Hs Hf (few_threads l f Hsort Hr Hf)) as (s' & l1 & l2 & -> & -> & Hs').
  exists s', (l1 ++ f :: l2). split; [done|]. split; [done|]. intros x. rewrite !elem_of_app, elem_of_cons. tauto.
Qed.

Lemma sl_holds_size s l : sl_holds s l -> sl_size s = length l.
Proof. by intros (_ & _ & ? & _). Qed.

Lemma sl_Pop_at s l i f : sl_holds s l -> l !! i = Some f -> exists s', sl_Pop s i = Ret (f, s') /\ sl_holds s' (take i l ++ drop (S i) l).
Proof.
  intros Hs Hf. pose proof (take_drop_middle l i f Hf) as Hl. rewrite <- Hl in Hs. apply sl_Pop_ok in Hs. rewrite length_take in Hs.
  apply lookup_lt_Some in Hf. by rewrite Nat.min_l in Hs by lia.
Qed.

Lemma sl_holds_ids s l : sl_holds s l -> take (sl_size s) (sl_list s) = l.
Proof. intros (rest & -> & -> & _). apply take_app_length. Qed.
Lemma sl_holds_ok s l : sl_holds s l -> (sl_size s <= length (sl_list s) /\ length (sl_list s) = sim_kMaxThreads)%nat /\ StronglySorted Z.lt l.
Proof. intros (rest & -> & -> & E & Hs). rewrite E. split; [|done]. rewrite <- E, length_app. lia. Qed.

(** [Pick] takes an element. *)
Lemma dfs_Pick_leaf s l ty p r : sl_holds s l -> leaf (dfs_Pick s ty) p r ->
  exists w s', r = inl (w, s') /\ (if w is Some f then exists l1 l2, l = l1 ++ f :: l2 /\ sl_holds s' (l1 ++ l2) else l = [] /\ s' = s).
Proof.
  intros Hs. unfold dfs_Pick. rewrite (sl_IsEmpty_ok _ _ Hs), (sl_holds_size _ _ Hs). case_bool_decide as E; [intros [-> ->]%leaf_ret_inv; by exists None, s|].
  assert (Hpop : forall i f p', l !! i = Some f -> leaf (p0 ← sl_Pop s i; Ret (Some p0.1, p0.2)) p' r -> exists w s', r = inl (w, s') /\
    (if w is Some f then exists l1 l2, l = l1 ++ f :: l2 /\ sl_holds s' (l1 ++ l2) else l = [] /\ s' = s)).
  { intros i f p' Hf. destruct (sl_Pop_at s l i f Hs Hf) as (s' & -> & Hs'). intros [-> ->]%leaf_ret_inv. exists (Some f), s'. split; [done|].
    exists (take i l), (drop (S i) l). by rewrite take_drop_middle. }
  case_bool_decide as E1.
  - destruct l as [|f l]; [done|]. by apply (Hpop 0%nat f).
  - intros (i & p' & -> & Hi & H)%leaf_choose_inv. destruct (lookup_lt_is_Some_2 l i Hi) as [f Hf]. by apply (Hpop i f p').
Qed.

Lemma pick_member (l l1 l2 : list Z) f x : StronglySorted Z.lt l -> l = l1 ++ f :: l2 -> x ∈ l1 ++ l2 <-> x ∈ l /\ x <> f.
Proof.
  intros Hs ->. apply sorted_nodup in Hs. rewrite <- Permutation_middle in Hs. apply list.NoDup_cons in Hs as [Hn _].
  rewrite !elem_of_app, elem_of_cons in *. split; [|tauto]. intros Hx. split; [tauto|]. intros ->. tauto.
Qed.

Section law.
Context (P : DfsParams).

Definition good (a : abs) (c : icall) (r : answer * Dfs + stop) : Prop :=
  match r with
  | inl (ans, s') => exists a', abs_step a c ans = Some a' /\ dfs_holds P s' a'
  | inr st => st = Prune
  end.

(** A new state after an answer that the specification allows. *)
Lemma good_done s a c ans s' a' :
  dfs_holds P s a -> legal a c -> abs_step a c ans = Some a' ->
  (exists l, sl_holds (run_queue_ s') l /\ (forall x, x ∈ runnable a' <-> x ∈ l \/ active_ s' = Some x) /\ (forall x, active_ s' = Some x -> x ∉ l)) ->
  pinned a' = active_ s' ->
  (forall q, match dfs_queues s' !! q, queues a' !! q with Some w, Some ts => dwq_holds P w ts | None, None => True | _, _ => False end) ->
  good a c (inl (ans, s')).
Proof. intros H Hl Ha H1 H2 H3. exists a'. split; [done|]. split; [done|done|done|]. eapply abs_ok_step; [apply (dh_ok _ _ _ H)|done|done]. Qed.

Lemma dfs_add s a t p c r : dfs_holds P s a -> abs_new a t -> (c = Yield t \/ c = Wake t \/ c = Spawn t) ->
  leaf (l ← sl_Push (run_queue_ s) t; Ret (AVoid, dfs_set_run s l)) p r -> good a c r.
Proof.
  intros H Hn Hc. destruct (dh_run _ _ _ H) as (l & Hl & Hr & Ha). pose proof Hn as (Ht & Hnr & _). rewrite Hr in Hnr.
  destruct (sl_push_in (run_queue_ s) l t Hl) as (s' & l' & -> & Hl' & Hin'); [|tauto|].
  { intros x [->|Hx]%elem_of_cons; [done|]. apply (ao_runnable _ (dh_ok _ _ _ H)), Hr. by left. }
  intros [_ ->]%leaf_ret_inv. apply (good_done s a c AVoid _ (add_runnable a t (pinned a))); [done|destruct Hc as [-> | [-> | ->]]; done|destruct Hc as [-> | [-> | ->]]; done| | |].
  - exists l'. split; [done|]. simpl. split.
    + intros x. rewrite elem_of_union, elem_of_singleton, Hin', Hr. tauto.
    + intros x Hx. rewrite Hin'. intros [->|?]; [tauto|]. by apply (Ha x).
  - apply (dh_pin _ _ _ H).
  - apply (dh_queues _ _ _ H).
Qed.

Lemma dfs_AddStep_leaf s running p r : leaf (dfs_AddStep P s running) p r -> r = inr Prune \/ exists n f1, r = inl (dfs_set_steps s n f1).
Proof.
  unfold dfs_AddStep. destruct (match max_steps P with Some m => _ | None => false end).
  - intros [_ ->]%leaf_stop_inv. by left.
  - intros [_ ->]%leaf_ret_inv. right. eauto.
Qed.

(** The state after [PickNext] has taken [t] out. *)
Lemma good_picked s a t s' l : dfs_holds P s a -> t ∈ runnable a -> sl_holds (run_queue_ s') l -> active_ s' = None ->
  (forall x, x ∈ l <-> x ∈ runnable a /\ x <> t) -> dfs_queues s' = dfs_queues s -> good a PickNext (inl (AThread (Some t), s')).
Proof.
  intros H Ht Hl Hact Hin Hq. apply (good_done s a PickNext (AThread (Some t)) s' (mkAbs (runnable a ∖ {[t]}) None (queues a))); [done| | | |done|].
  - intros E. by rewrite E in Ht.
  - simpl. unfold when. by rewrite decide_True.
  - exists l. split; [done|]. rewrite Hact. simpl. split; [|done]. intros x. rewrite elem_of_difference, elem_of_singleton, Hin. naive_solver.
  - rewrite Hq. apply (dh_queues _ _ _ H).
Qed.

Lemma dfs_PickFromQueue_leaf s0 s a l pre p r : dfs_holds P s0 a -> runnable a <> ∅ -> sl_holds (run_queue_ s) l -> active_ s = None -> dfs_queues s = dfs_queues s0 ->
  (forall x, x ∈ runnable a <-> x ∈ l \/ pre = Some x) -> (forall x, pre = Some x -> x ∉ l /\ l <> []) ->
  leaf (dfs_PickFromQueue s pre) p r -> good a PickNext r.
Proof.
  intros H Hne Hl Hact Hq Hin Hpre Hr. unfold dfs_PickFromQueue in Hr. pose proof Hl as (_ & _ & _ & _ & Hsort).
  apply leaf_bind_inv in Hr as [(p1 & p2 & [w sl] & -> & H1 & H2)|(st & -> & H1)].
  2: by apply (dfs_Pick_leaf _ l) in H1 as (? & ? & ? & _).
  apply (dfs_Pick_leaf _ l) in H1 as (w' & sl' & [= <- <-] & Hw); [|done]. destruct w as [f|].
  2: { destruct Hw as [-> ->]. exfalso. destruct pre as [x|]; [by destruct (Hpre x eq_refl)|]. apply Hne. apply set_eq. intros x. rewrite Hin. set_solver. }
  destruct Hw as (l1 & l2 & El & Hsl). assert (Hmem : forall x, x ∈ l1 ++ l2 <-> x ∈ l /\ x <> f) by (intros x; by apply pick_member).
  assert (Hf : f ∈ l) by (rewrite El; apply elem_of_app; right; by left). destruct pre as [t|]; cbn [fst snd] in H2.
  - destruct (Hpre t eq_refl) as [Ht _]. destruct (sl_push_in sl (l1 ++ l2) t Hsl) as (sl2 & l' & E & Hl' & Hin').
    { intros x Hx. apply (ao_runnable _ (dh_ok _ _ _ H)), Hin. apply elem_of_cons in Hx as [->|[Hx _]%Hmem]; [by right|by left]. }
    { rewrite Hmem. tauto. }
    cbn in H2. rewrite E in H2. apply leaf_ret_inv in H2 as [-> ->]. apply (good_picked s0 a f _ l'); [done|apply Hin; by left|done|done| |done].
    intros x. rewrite Hin', Hmem, Hin. split; [|naive_solver]. intros [->|?]; [|naive_solver]. split; [by right|]. by intros ->.
  - cbn in H2. apply leaf_ret_inv in H2 as [-> ->]. apply (good_picked s0 a f _ (l1 ++ l2)); [done|apply Hin; by left|done|done| |done].
    intros x. rewrite Hmem, Hin. naive_solver.
Qed.

Lemma dfs_PickNext_leaf e s a p r : dfs_holds P s a -> runnable a <> ∅ -> leaf (dfs_PickNext P e s) p r -> good a PickNext r.
Proof.
  intros H Hne Hr. destruct (dh_run _ _ _ H) as (l & Hl & Hin & Hact). unfold dfs_PickNext in Hr.
  apply leaf_bind_inv in Hr as [(p1 & p2 & s1 & -> & H1 & H2)|(st & -> & [?|(n & f1 & ?)]%dfs_AddStep_leaf)]; [|simplify_eq; reflexivity|done].
  apply dfs_AddStep_leaf in H1 as [?|(n & f1 & [= ->])]; [done|]. destruct (active_ s) as [t|] eqn:Et.
  - apply leaf_bind_inv in H2 as [(p3 & p4 & pre & -> & H3 & H4)|(st & -> & H3)].
    + destruct pre.
      * refine (dfs_PickFromQueue_leaf s _ a l (Some t) _ _ H Hne _ _ _ _ _ H4); [exact Hl|done|done|exact Hin|]. intros x [= <-]. split; [by apply Hact|].
        intros ->. unfold dfs_Preempt in H3. destruct (negb _); [by apply leaf_ret_inv in H3 as [_ [=]]|]. cbn in H3. rewrite (sl_IsEmpty_ok _ _ Hl) in H3.
        by apply leaf_ret_inv in H3 as [_ [=]].
      * apply leaf_ret_inv in H4 as [-> ->]. apply (good_picked s a t _ l); [done|apply Hin; by right|done|done| |done].
        intros x. rewrite Hin. split; [|naive_solver]. intros Hx. split; [by left|]. intros ->. by apply (Hact t).
    + unfold dfs_Preempt in H3. repeat match type of H3 with leaf (if ?b then _ else _) _ _ => destruct b end;
        try (by apply leaf_ret_inv in H3 as [_ ?]); [apply leaf_stop_inv in H3 as [_ [= ->]]; reflexivity|].
      by apply leaf_choose_inv in H3 as (i & p' & _ & _ & [_ ?]%leaf_ret_inv).
  - refine (dfs_PickFromQueue_leaf s _ a l None _ _ H Hne _ _ _ _ _ H2); [exact Hl|done|done|exact Hin|done].
Qed.

(** *** Wait queues *)

Lemma queue_of s a q ts : dfs_holds P s a -> queues a !! q = Some ts -> exists w, dfs_queues s !! q = Some w /\ dwq_holds P w ts.
Proof. intros H E. pose proof (dh_queues _ _ _ H q) as Hq. rewrite E in Hq. destruct (dfs_queues s !! q) as [w|]; [eauto|done]. Qed.

Lemma good_queue s a c ans q w ts : dfs_holds P s a -> legal a c -> abs_step a c ans = Some (set_queue a q ts) -> dwq_holds P w ts ->
  good a c (inl (ans, dfs_set_queues s (<[q := w]> (dfs_queues s)))).
Proof.
  intros H Hl Ha Hw. eapply good_done; [done|done|done|apply (dh_run _ _ _ H)|apply (dh_pin _ _ _ H)|]. simpl. intros q'.
  destruct (decide (q' = q)) as [->|Hne]; [by rewrite !lookup_insert_eq|]. rewrite !lookup_insert_ne by done. apply (dh_queues _ _ _ H).
Qed.

Lemma set_queue_id a q ts : queues a !! q = Some ts -> set_queue a q ts = a.
Proof. intros H. unfold set_queue. rewrite insert_id by done. by destruct a. Qed.

Lemma wq_Push_ok w ts t : dwq_holds P w ts -> (forall x, x ∈ ({[t]} ∪ ts) -> 1 <= x <= Z.of_nat sim_kMaxThreads) -> t ∉ ts ->
  exists w', wq_Push t w = Ret (AVoid, w') /\ dwq_holds P w' ({[t]} ∪ ts).
Proof.
  intros Hw Hr Ht. destruct w as [l|sl]; simpl in *.
  - destruct Hw as (Hk & Hnd & Hin). eexists. split; [done|]. split; [done|]. split.
    + apply list.NoDup_app. split; [done|]. split; [intros x Hx ->%list_elem_of_singleton; by apply Ht, Hin|by apply NoDup_singleton].
    + intros x. rewrite elem_of_app, list_elem_of_singleton, elem_of_union, elem_of_singleton, Hin. tauto.
  - destruct Hw as (Hk & l & Hl & Hin). destruct (sl_push_in sl l t Hl) as (s' & l' & -> & Hl' & Hin').
    + intros x Hx. apply Hr. apply elem_of_union. rewrite elem_of_singleton, <- Hin. by apply elem_of_cons.
    + by rewrite Hin.
    + eexists. split; [done|]. split; [done|]. exists l'. split; [done|]. intros x. rewrite Hin', elem_of_union, elem_of_singleton, Hin. tauto.
Qed.

(** The answers of [Pop] and [PopAll]. *)
Definition popped_from (ts : gset Z) (r : answer * DfsWaitQueue + stop) : Prop :=
  exists t w, r = inl (AThread t, w) /\
    match t with Some t => t ∈ ts /\ dwq_holds P w (ts ∖ {[t]}) | None => ts = ∅ /\ dwq_holds P w ts end.

Lemma members_empty (l : list Z) (ts : gset Z) : (forall x, x ∈ l <-> x ∈ ts) -> l = [] <-> ts = ∅.
Proof.
  intros H. split.
  - intros ->. apply set_eq. intros x. rewrite <- H. set_solver.
  - intros ->. destruct l as [|x l]; [done|]. exfalso. by apply (not_elem_of_empty (C := gset Z) x), H; left.
Qed.

Lemma fifo_Pop_ok l ts p r : wake_order P = false -> base.NoDup l -> (forall x, x ∈ l <-> x ∈ ts) -> leaf (fifo_Pop l) p r -> popped_from ts r.
Proof.
  intros Hk Hnd Hin [_ ->]%leaf_ret_inv. destruct l as [|x l]; simpl; eexists _, _; (split; [done|]).
  - split; [by apply (members_empty []) in Hin as [Hin _]; apply Hin|]. done.
  - apply list.NoDup_cons in Hnd as [Hx Hnd]. split; [apply Hin; by left|]. split; [done|]. split; [done|]. intros y. rewrite elem_of_difference, elem_of_singleton, <- Hin, elem_of_cons.
    split; [|tauto]. intros Hy. split; [by right|]. by intros ->.
Qed.

Lemma wq_Pop_leaf w ts p r : dwq_holds P w ts -> leaf (wq_Pop w) p r -> popped_from ts r.
Proof.
  intros Hw Hr. destruct w as [l|sl]; simpl in *; [destruct Hw as (? & ? & ?); by eapply fifo_Pop_ok|]. destruct Hw as (Hk & l & Hl & Hin). pose proof Hl as (_ & _ & _ & _ & Hsort).
  apply leaf_bind_inv in Hr as [(p1 & p2 & [t s1] & -> & H1 & [-> ->]%leaf_ret_inv)|(st & -> & H1)].
  2: by apply (dfs_Pick_leaf _ l) in H1 as (? & ? & ? & _).
  apply (dfs_Pick_leaf _ l) in H1 as (t' & s' & [= <- <-] & Ht); [|done]. eexists _, _. split; [done|]. destruct t as [t|]; simpl.
  - destruct Ht as (l1 & l2 & El & Hl'). split; [apply Hin; rewrite El; apply elem_of_app; right; by left|]. split; [done|]. exists (l1 ++ l2). split; [done|].
    intros x. rewrite elem_of_difference, elem_of_singleton, <- Hin. by apply pick_member.
  - destruct Ht as [-> ->]. split; [by apply (members_empty [])|]. split; [done|]. by exists [].
Qed.

Lemma wq_PopAll_leaf w ts p r : dwq_holds P w ts -> leaf (wq_PopAll w) p r -> popped_from ts r.
Proof.
  intros Hw Hr. destruct w as [l|sl]; simpl in *; [destruct Hw as (? & ? & ?); by eapply fifo_Pop_ok|]. destruct Hw as (Hk & l & Hl & Hin). pose proof Hl as (_ & _ & _ & _ & Hsort).
  destruct (sl_PopLast_ok sl l Hl) as [[-> E]|(l' & f & s' & El & E & Hl')]; rewrite E in Hr; apply leaf_ret_inv in Hr as [_ ->]; (eexists _, _; split; [done|]); simpl.
  - split; [by apply (members_empty [])|]. split; [done|]. by exists [].
  - split; [apply Hin; rewrite El; apply elem_of_app; right; by left|]. split; [done|]. exists l'. split; [done|].
    intros x. rewrite elem_of_difference, elem_of_singleton, <- Hin. rewrite <- (app_nil_r l') at 1. by apply pick_member.
Qed.

Lemma good_pop s a c q ts f p r : dfs_holds P s a -> queues a !! q = Some ts -> (c = WqPop q \/ c = WqPopAll q) ->
  (forall w p r, dwq_holds P w ts -> leaf (f w) p r -> popped_from ts r) -> leaf (dfs_on_queue s q f) p r -> good a c r.
Proof.
  intros H Hq Hc Hf Hr. destruct (queue_of s a q ts H Hq) as (w & Ew & Hw). unfold dfs_on_queue in Hr. rewrite Ew in Hr.
  assert (Hl : legal a c) by (destruct Hc as [-> | ->]; by exists ts).
  apply leaf_bind_inv in Hr as [(p1 & p2 & [ans w'] & -> & H1 & [-> ->]%leaf_ret_inv)|(st & -> & H1)]; [|by apply Hf in H1 as (? & ? & ? & _)].
  apply Hf in H1 as (t & w1 & [= -> ->] & Ht); [|done]. destruct t as [t|]; destruct Ht as [Ht Hw']; eapply good_queue; try done;
    destruct Hc as [-> | ->]; simpl; unfold with_queue, when; rewrite Hq; simpl; rewrite decide_True by done; try done; by rewrite set_queue_id.
Qed.

Lemma existsb_linked qs t q l : qs !! q = Some (FifoWaitQueue l) -> t ∈ l -> existsb (fun p : Z * DfsWaitQueue => fifo_linked t p.2) (map_to_list qs) = true.
Proof.
  intros Hq Ht. apply existsb_exists. exists (q, FifoWaitQueue l). split; [by apply list_elem_of_In, elem_of_map_to_list|]. simpl. by apply bool_decide_eq_true.
Qed.

Lemma good_remove s a q t p r : dfs_holds P s a -> legal a (WqRemove q t) -> leaf (dfs_wq_Remove s q t) p r -> good a (WqRemove q t) r.
Proof.
  intros H Hl Hr. destruct Hl as (ts & Hq & Ht). assert (Hstep : abs_step a (WqRemove q t) (ABool true) = Some (set_queue a q (ts ∖ {[t]}))).
  { simpl. unfold with_queue, when. rewrite Hq. simpl. rewrite bool_decide_eq_true_2, decide_True by done. done. }
  destruct (queue_of s a q ts H Hq) as (w & Ew & Hw). unfold dfs_wq_Remove in Hr. rewrite Ew in Hr. destruct w as [l|sl].
  - destruct Hw as (Hk & Hnd & Hin). rewrite (existsb_linked _ t q l Ew) in Hr by by apply Hin. apply leaf_ret_inv in Hr as [_ ->].
    eapply good_done; [done|by exists ts|exact Hstep|apply (dh_run _ _ _ H)|apply (dh_pin _ _ _ H)|]. simpl. intros q'. rewrite lookup_fmap.
    destruct (decide (q' = q)) as [->|Hne].
    + rewrite Ew, lookup_insert_eq. simpl. split; [done|]. split; [by apply list.NoDup_filter|]. intros x. rewrite list_elem_of_filter, elem_of_difference, elem_of_singleton, Hin. tauto.
    + rewrite lookup_insert_ne by done. pose proof (dh_queues _ _ _ H q') as Hq'. destruct (dfs_queues s !! q') as [w'|], (queues a !! q') as [ts'|] eqn:Eq'; try done.
      simpl. destruct w' as [l'|]; [|done]. simpl in *. destruct Hq' as (Hk' & Hnd' & Hin'). split; [done|]. split; [by apply list.NoDup_filter|]. intros x. rewrite list_elem_of_filter, Hin'.
      split; [tauto|]. intros Hx. split; [|done]. intros ->. by apply Hne, (ao_apart _ (dh_ok _ _ _ H) q' q ts' ts t).
  - destruct Hw as (Hk & l & Hl & Hin). destruct (sl_Remove_ok sl l t Hl) as (s' & l' & E & Hl' & Hin'). rewrite E, bool_decide_eq_true_2 in Hr by by apply Hin.
    apply leaf_ret_inv in Hr as [_ ->]. eapply good_queue; [done|by exists ts|exact Hstep|]. split; [done|]. exists l'. split; [done|].
    intros x. by rewrite Hin', elem_of_difference, elem_of_singleton, Hin.
Qed.
End law.

Definition dfs_supports (e : env) (a : abs) (c : icall) : Prop :=
  match c with SwitchTo _ _ | RandomNumber => False | _ => True end.

Section law_calls.
Context (P : DfsParams).

Lemma good_same s a c ans s' : dfs_holds P s a -> legal a c -> abs_step a c ans = Some a -> run_queue_ s' = run_queue_ s -> active_ s' = active_ s -> dfs_queues s' = dfs_queues s ->
  good P a c (inl (ans, s')).
Proof. intros H Hl Ha E1 E2 E3. eapply good_done; rewrite ?E1, ?E2, ?E3; [done|done|done|apply (dh_run _ _ _ H)|apply (dh_pin _ _ _ H)|apply (dh_queues _ _ _ H)]. Qed.

Lemma either_good s a c ty p r : dfs_holds P s a -> legal a c -> (forall b, abs_step a c (ABool b) = Some a) ->
  leaf (b ← dfs_Either ty; Ret (ABool b, s)) p r -> good P a c r.
Proof.
  intros H Hl Ha Hr. apply leaf_choose_inv in Hr as (i & p' & _ & _ & [_ ->]%leaf_ret_inv). by eapply good_same.
Qed.

Lemma dfs_law s a e c p r : dfs_holds P s a -> legal a c -> dfs_supports e a c -> leaf (dfs_call P e c s) p r -> good P a c r.
Proof.
  intros H Hl Hs Hr. destruct (dh_run _ _ _ H) as (l & Hlist & Hin & Hact). destruct c; simpl in Hr; try done.
  - apply leaf_ret_inv in Hr as [_ ->]. pose proof Hl as [Hn Hp]. pose proof Hn as (_ & Ht & _). rewrite (dh_pin _ _ _ H) in Hp. rewrite Hin, Hp in Ht.
    eapply good_done; [done|exact Hl|done| |done|apply (dh_queues _ _ _ H)]. exists l. split; [done|]. simpl. split.
    + intros x. rewrite elem_of_union, elem_of_singleton, Hin, Hp. naive_solver.
    + intros x [= <-]. tauto.
  - eapply dfs_add; eauto.
  - eapply dfs_add; eauto.
  - eapply dfs_add; eauto.
  - apply leaf_bind_inv in Hr as [(p1 & p2 & s1 & -> & [?|(n & f1 & [= ->])]%dfs_AddStep_leaf & H2)|(st & -> & [?|(n & f1 & ?)]%dfs_AddStep_leaf)]; simplify_eq; try done.
    apply leaf_ret_inv in H2 as [_ ->]. by eapply good_same.
  - apply leaf_ret_inv in Hr as [_ ->]. eapply good_same; [done|done| |done|done|done]. simpl. unfold when. rewrite decide_True; [done|].
    rewrite (sl_IsEmpty_ok _ _ Hlist). destruct (active_ s) as [t|] eqn:Et.
    + rewrite andb_false_r. symmetry. apply bool_decide_eq_false. intros E. apply (not_elem_of_empty (C := gset Z) t). rewrite <- E. apply Hin. by right.
    + rewrite andb_true_r. apply bool_decide_ext. apply members_empty. intros x. rewrite Hin. naive_solver.
  - by eapply (dfs_PickNext_leaf P e s).
  - destruct (sl_Remove_ok (run_queue_ s) l t Hlist) as (s' & l' & E & Hl' & Hin'). rewrite E in Hr. apply leaf_ret_inv in Hr as [_ ->].
    eapply good_done; [done|done|done| |apply (dh_pin _ _ _ H)|apply (dh_queues _ _ _ H)]. exists l'. split; [done|]. simpl in *. rewrite (dh_pin _ _ _ H) in Hl. split.
    + intros x. rewrite elem_of_difference, elem_of_singleton, Hin, Hin'. split; [tauto|]. intros [[? ?]|Hx]; [tauto|]. split; [by right|]. intros ->. done.
    + intros x Hx [Hx' _]%Hin'. by apply (Hact x).
  - apply leaf_ret_inv in Hr as [_ ->]. by eapply good_same.
  - apply leaf_ret_inv in Hr as [_ ->]. by eapply good_same.
  - apply leaf_ret_inv in Hr as [_ ->]. by eapply good_same.
  - apply leaf_ret_inv in Hr as [_ ->]. eapply good_queue; [done|done|done|]. unfold dfs_NewWaitQueue. destruct (wake_order P) eqn:Ew; simpl.
    + split; [done|]. exists []. split; [apply sl_new_holds|]. set_solver.
    + split; [done|]. split; [constructor|set_solver].
  - destruct Hl as [ts Hq]. destruct (queue_of P s a q ts H Hq) as (w & Ew & Hw). unfold dfs_on_queue in Hr. rewrite Ew in Hr. apply leaf_ret_inv in Hr as [_ ->].
    eapply (good_queue P s a _ _ q w ts); [done|by exists ts| |done]. simpl. unfold with_queue, when. rewrite Hq. simpl. rewrite set_queue_id, decide_True; [done| |done].
    destruct w as [l0|sl]; simpl in *; [destruct Hw as (_ & _ & Hw)|destruct Hw as (_ & l0 & Hl0 & Hw); rewrite (sl_IsEmpty_ok _ _ Hl0)]; apply bool_decide_ext; by apply members_empty.
  - destruct Hl as [Hn [ts Hq]]. destruct (queue_of P s a q ts H Hq) as (w & Ew & Hw). unfold dfs_on_queue in Hr. rewrite Ew in Hr.
    pose proof Hn as (Ht & _ & Hnq). destruct (wq_Push_ok P w ts t Hw) as (w' & E & Hw').
    + intros x [->%elem_of_singleton|Hx]%elem_of_union; [done|]. by apply (ao_queue _ (dh_ok _ _ _ H) q ts).
    + by apply (Hnq q ts).
    + rewrite E in Hr. apply leaf_ret_inv in Hr as [_ ->]. eapply good_queue; [done|split; [done|by exists ts]| |done]. simpl. unfold with_queue. by rewrite Hq.
  - destruct Hl as [ts Hq]. eapply good_pop; [done|done|by left| |done]. intros; by eapply wq_Pop_leaf.
  - destruct Hl as [ts Hq]. eapply good_pop; [done|done|by right| |done]. intros; by eapply wq_PopAll_leaf.
  - by eapply good_remove.
  - apply leaf_choose_inv in Hr as (i & p' & _ & Hi & [_ ->]%leaf_ret_inv). eapply good_same; [done|done| |done|done|done]. simpl. unfold when. rewrite decide_True by lia. done.
  - destruct (spurious_wakeups P); [by refine (either_good s a _ _ p r H Hl _ Hr)|]. apply leaf_ret_inv in Hr as [_ ->]. by eapply good_same.
  - destruct (spurious_failures P); [by refine (either_good s a _ _ p r H Hl _ Hr)|]. apply leaf_ret_inv in Hr as [_ ->]. by eapply good_same.
  - apply leaf_ret_inv in Hr as [_ ->]. by eapply good_same.
Qed.

End law_calls.

#[export] Instance dfs_lawful P : Lawful (DfsScheduler P) :=
  {| represents := dfs_holds P : sched_state (DfsScheduler P) -> abs -> Prop; supports := dfs_supports; lawful_call := dfs_law P |}.

Lemma dfs_Start_holds P : dfs_holds P dfs_Start abs0.
Proof.
  split; simpl.
  - exists []. split; [apply sl_new_holds|]. split; [set_solver|done].
  - done.
  - intros q. by rewrite !lookup_empty.
  - split; simpl; intros *; rewrite ?lookup_empty; done.
Qed.

(** ** The exploration is complete *)

(** No choice without alternatives. *)
Lemma choices_seq {A B} (m : M A) (f : A -> M B) : choices_ok m -> (forall a, choices_ok (f a)) -> choices_ok (m ≫= f).
Proof. intros H1 H2. by apply choices_ok_bind. Qed.

Create HintDb choices.
#[local] Hint Resolve choices_seq : choices.
#[local] Hint Extern 1 (choices_ok (Ret _)) => exact I : choices.
#[local] Hint Extern 1 (choices_ok (Stop _)) => exact I : choices.

Lemma sl_get_choices l i : choices_ok (sl_get l i).
Proof. unfold sl_get. by destruct (l !! i). Qed.
Lemma sl_set_choices l i f : choices_ok (sl_set l i f).
Proof. unfold sl_set. by case_decide. Qed.
#[local] Hint Resolve sl_get_choices sl_set_choices : choices.

Lemma sl_Push_choices s f : choices_ok (sl_Push s f).
Proof.
  unfold sl_Push. apply choices_seq; [|auto with choices]. generalize (sl_list s), (sl_size s). intros l i. revert l.
  induction i as [|i IH]; intros l; [done|]. simpl. apply choices_seq; [auto with choices|]. intros g. destruct (f <? g); auto with choices.
Qed.
Lemma sl_Pop_choices s i : choices_ok (sl_Pop s i).
Proof.
  unfold sl_Pop. apply choices_seq; [auto with choices|]. intros f. apply choices_seq; [|auto with choices].
  generalize (sl_size s - 1 - i)%nat, (sl_list s). intros n. revert i. induction n as [|n IH]; intros i l; simpl; auto with choices.
Qed.
#[local] Hint Resolve sl_Push_choices sl_Pop_choices : choices.
Lemma sl_PopLast_choices s : choices_ok (sl_PopLast s).
Proof. unfold sl_PopLast. destruct (sl_size s); auto with choices. Qed.
Lemma sl_Remove_choices s f : choices_ok (sl_Remove s f).
Proof.
  unfold sl_Remove. generalize (sl_size s), 0%nat. intros n. induction n as [|n IH]; intros i; simpl; [done|]. apply choices_seq; [auto with choices|].
  intros g. destruct (g =? f); auto with choices.
Qed.
Lemma dfs_Pick_choices l ty : choices_ok (dfs_Pick l ty).
Proof.
  unfold dfs_Pick, sl_IsEmpty. case_bool_decide; [done|]. case_bool_decide; [auto with choices|]. split; [lia|]. intros i _. simpl. auto with choices.
Qed.
Lemma dfs_Either_choices ty : choices_ok (dfs_Either ty).
Proof. split; [lia|done]. Qed.
#[local] Hint Resolve sl_PopLast_choices sl_Remove_choices dfs_Pick_choices dfs_Either_choices : choices.

Lemma dfs_AddStep_choices P s t : choices_ok (dfs_AddStep P s t).
Proof. unfold dfs_AddStep. by destruct (match max_steps P with Some m => _ | None => false end). Qed.
Lemma dfs_PickFromQueue_choices s pre : choices_ok (dfs_PickFromQueue s pre).
Proof.
  unfold dfs_PickFromQueue. apply choices_seq; [auto with choices|]. intros [w l]. apply choices_seq; [destruct pre; auto with choices|]. intros s1. by destruct w.
Qed.
#[local] Hint Resolve dfs_AddStep_choices dfs_PickFromQueue_choices : choices.

Lemma dfs_PickNext_choices P e s : choices_ok (dfs_PickNext P e s).
Proof.
  unfold dfs_PickNext. apply choices_seq; [auto with choices|]. intros s1. destruct (active_ s) as [t|]; [|auto with choices].
  apply choices_seq; [|intros []; auto with choices]. unfold dfs_Preempt. repeat case_match; auto with choices.
Qed.
#[local] Hint Resolve dfs_PickNext_choices : choices.

Lemma dfs_on_queue_choices {A} s q (f : DfsWaitQueue -> M (A * DfsWaitQueue)) : (forall w, choices_ok (f w)) -> choices_ok (dfs_on_queue s q f).
Proof. intros H. unfold dfs_on_queue. destruct (dfs_queues s !! q); auto with choices. Qed.
#[local] Hint Resolve dfs_on_queue_choices : choices.

Lemma dfs_choices P s a e c : legal a c -> choices_ok (dfs_call P e c s).
Proof.
  intros Hl. destruct c; simpl in *; auto with choices.
  - apply dfs_on_queue_choices. intros []; [done|]. apply choices_seq; auto with choices.
  - apply dfs_on_queue_choices. intros []; [done|]. apply choices_seq; auto with choices.
  - apply dfs_on_queue_choices. intros []; [done|]. apply choices_seq; auto with choices.
  - unfold dfs_wq_Remove. repeat case_match; auto with choices.
  - split; [lia|done].
  - destruct (spurious_wakeups P); [split; [lia|done]|done].
  - destruct (spurious_failures P); [split; [lia|done]|done].
Qed.

(** *** No run is pruned without limits *)

Fixpoint never_prunes {A} (m : M A) : Prop :=
  match m with Ret _ => True | Choose _ n k => forall i, never_prunes (k i) | Stop r => r <> Prune end.

Lemma never_prunes_leaf {A} (m : M A) p r : never_prunes m -> leaf m p r -> r <> inr Prune.
Proof. intros Hm H. induction H; simpl in Hm; [done|congruence|auto]. Qed.
Lemma never_seq {A B} (m : M A) (f : A -> M B) : never_prunes m -> (forall a, never_prunes (f a)) -> never_prunes (m ≫= f).
Proof. induction m as [a|ty n k IH|s]; simpl; [auto|intros H Hf i; by apply IH|done]. Qed.

Create HintDb never.
#[local] Hint Resolve never_seq : never.
#[local] Hint Extern 1 (never_prunes (Ret _)) => exact I : never.
#[local] Hint Extern 1 (never_prunes (Stop _)) => discriminate : never.

Lemma sl_get_never l i : never_prunes (sl_get l i).
Proof. unfold sl_get. by destruct (l !! i). Qed.
Lemma sl_set_never l i f : never_prunes (sl_set l i f).
Proof. unfold sl_set. by case_decide. Qed.
#[local] Hint Resolve sl_get_never sl_set_never : never.
Lemma sl_Push_never s f : never_prunes (sl_Push s f).
Proof.
  unfold sl_Push. apply never_seq; [|auto with never]. generalize (sl_list s), (sl_size s). intros l i. revert l.
  induction i as [|i IH]; intros l; [done|]. simpl. apply never_seq; [auto with never|]. intros g. destruct (f <? g); auto with never.
Qed.
Lemma sl_Pop_never s i : never_prunes (sl_Pop s i).
Proof.
  unfold sl_Pop. apply never_seq; [auto with never|]. intros f. apply never_seq; [|auto with never].
  generalize (sl_size s - 1 - i)%nat, (sl_list s). intros n. revert i. induction n as [|n IH]; intros i l; simpl; auto with never.
Qed.
#[local] Hint Resolve sl_Push_never sl_Pop_never : never.
Lemma sl_Remove_never s f : never_prunes (sl_Remove s f).
Proof.
  unfold sl_Remove. generalize (sl_size s), 0%nat. intros n. induction n as [|n IH]; intros i; simpl; [done|]. apply never_seq; [auto with never|].
  intros g. destruct (g =? f); auto with never.
Qed.
Lemma sl_PopLast_never s : never_prunes (sl_PopLast s).
Proof. unfold sl_PopLast. destruct (sl_size s); auto with never. Qed.
Lemma dfs_Pick_never l ty : never_prunes (dfs_Pick l ty).
Proof.
  unfold dfs_Pick. destruct (sl_IsEmpty l); [done|]. case_bool_decide; [auto with never|]. apply never_seq; [by intros i|]. auto with never.
Qed.
#[local] Hint Resolve sl_Remove_never sl_PopLast_never dfs_Pick_never : never.

Section complete.
Context (P : DfsParams).
Context (Hpre : max_preemptions P = None) (Hsteps : max_steps P = None) (Hforce : force_preempt_after_steps P = None).

(** The answers that the parameters of the model checker allow. *)
Definition dfs_may (e : env) (a : abs) (c : icall) (ans : answer) : Prop :=
  match c, ans with
  | PickNext, AThread (Some t) => match pinned a with Some t' => t = t' \/ preemptive e t' = true | None => True end
  | WqPopAll q, AThread (Some t) => wake_order P = true /\ forall ts x, queues a !! q = Some ts -> x ∈ ts -> x <= t
  | WqPop _, AThread (Some t) => wake_order P = true
  | SpuriousWakeup, ABool b => b = true -> spurious_wakeups P = true
  | SpuriousTryFailure, ABool b => b = true -> spurious_failures P = true
  | IsModelChecker, ABool b => b = true
  | _, _ => True
  end.

Lemma dfs_AddStep_ok s t : exists n f1, dfs_AddStep P s t = Ret (dfs_set_steps s n f1).
Proof using Hsteps. unfold dfs_AddStep. rewrite Hsteps. eauto. Qed.

Lemma dfs_never s e c : never_prunes (dfs_call P e c s).
Proof using Hsteps Hforce Hpre.
  assert (HA : forall s t, never_prunes (dfs_AddStep P s t)) by (intros s' t; by destruct (dfs_AddStep_ok s' t) as (n & f1 & ->)).
  assert (HF : forall s pre, never_prunes (dfs_PickFromQueue s pre)).
  { intros s' pre. unfold dfs_PickFromQueue. apply never_seq; [auto with never|]. intros [w l]. apply never_seq; [destruct pre; auto with never|]. intros s1. by destruct w. }
  assert (HQ : forall q (f : DfsWaitQueue -> M (answer * DfsWaitQueue)), (forall w, never_prunes (f w)) -> never_prunes (dfs_on_queue s q f)).
  { intros q f Hf. unfold dfs_on_queue. destruct (dfs_queues s !! q); auto with never. }
  destruct c; cbn [dfs_call]; auto with never.
  - unfold dfs_PickNext. apply never_seq; [done|]. intros s1. destruct (active_ s) as [t|]; [|done]. apply never_seq; [|intros []; auto with never].
    unfold dfs_Preempt, dfs_ForcedPreempt. rewrite Hforce. repeat case_match; done.
  - apply HQ. intros []; [done|]. apply never_seq; auto with never.
  - apply HQ. intros []; [done|]. apply never_seq; auto with never.
  - apply HQ. intros []; [done|]. apply never_seq; auto with never.
  - unfold dfs_wq_Remove. repeat case_match; auto with never.
  - by intros i.
  - destruct (spurious_wakeups P); [by intros i|done].
  - destruct (spurious_failures P); [by intros i|done].
Qed.

Lemma choices_ok_leaf {A} (m : M A) : choices_ok m -> exists p r, leaf m p r.
Proof.
  induction m as [a|ty n k IH|s]; intros H; [eauto using @leaf| |eauto using @leaf]. destruct H as [Hn Hk].
  destruct (IH 0%nat (Hk 0%nat Hn)) as (p & r & H). exists (mkBranch ty n 0 :: p), r. by constructor.
Qed.

(** Every call returns some answer. *)
Lemma dfs_answers s a e c : dfs_holds P s a -> legal a c -> dfs_supports e a c ->
  exists p ans s' a', leaf (dfs_call P e c s) p (inl (ans, s')) /\ abs_step a c ans = Some a' /\ dfs_holds P s' a'.
Proof using Hsteps Hforce Hpre.
  intros H Hl Hs. destruct (choices_ok_leaf _ (dfs_choices P s a e c Hl)) as (p & r & Hr).
  pose proof (dfs_law P s a e c p r H Hl Hs Hr) as Hg. pose proof (never_prunes_leaf _ _ _ (dfs_never s e c) Hr) as Hnp.
  destruct r as [[ans s']|st]; simpl in Hg; [|by subst]. destruct Hg as (a' & ? & ?). by exists p, ans, s', a'.
Qed.

(** Every element can be picked. *)
Lemma dfs_Pick_complete s l f ty : sl_holds s l -> f ∈ l -> exists p s' l1 l2, leaf (dfs_Pick s ty) p (inl (Some f, s')) /\ l = l1 ++ f :: l2 /\ sl_holds s' (l1 ++ l2).
Proof.
  intros Hs Hf. apply list_elem_of_lookup_1 in Hf as [i Hi]. destruct (sl_Pop_at s l i f Hs Hi) as (s' & E & Hs').
  unfold dfs_Pick. rewrite (sl_IsEmpty_ok _ _ Hs), (sl_holds_size _ _ Hs), bool_decide_eq_false_2 by by (intros ->).
  pose proof (lookup_lt_Some _ _ _ Hi) as Hlt. case_bool_decide as E1.
  - assert (i = 0%nat) as -> by lia. rewrite E. exists [], s', (take 0 l), (drop 1 l). split; [constructor|]. by rewrite take_drop_middle.
  - exists [mkBranch ty (length l) i], s', (take i l), (drop (S i) l). split; [|by rewrite take_drop_middle].
    apply leaf_choose; [done|]. simpl. rewrite E. constructor.
Qed.

Lemma dfs_PickFromQueue_complete s l t pre : sl_holds (run_queue_ s) l -> t ∈ l ->
  (forall x, pre = Some x -> x ∉ l /\ forall y, y ∈ x :: l -> 1 <= y <= Z.of_nat sim_kMaxThreads) ->
  exists p s', leaf (dfs_PickFromQueue s pre) p (inl (AThread (Some t), s')).
Proof.
  intros Hl Ht Hp. destruct (dfs_Pick_complete _ l t BPickNext Hl Ht) as (p & sl & l1 & l2 & H1 & El & Hsl). pose proof Hl as (_ & _ & _ & _ & Hsort).
  unfold dfs_PickFromQueue. exists (p ++ []). destruct pre as [x|].
  - destruct (Hp x eq_refl) as [Hx Hr]. destruct (sl_push_in sl (l1 ++ l2) x Hsl) as (sl2 & l' & E & _).
    + intros y Hy. apply Hr. apply elem_of_cons in Hy as [->|Hy]; [by left|]. right. by apply (pick_member l l1 l2 t).
    + intros Hy. by apply (pick_member l l1 l2 t) in Hy as [? _].
    + eexists. eapply leaf_bind; [exact H1|]. cbn. rewrite E. constructor.
  - eexists. eapply leaf_bind; [exact H1|]. constructor.
Qed.

Lemma dfs_PickNext_complete s a e t : dfs_holds P s a -> t ∈ runnable a -> (match pinned a with Some t' => t = t' \/ preemptive e t' = true | None => True end) ->
  exists p s', leaf (dfs_PickNext P e s) p (inl (AThread (Some t), s')).
Proof using Hsteps Hforce Hpre.
  intros H Ht Hm. destruct (dh_run _ _ _ H) as (l & Hl & Hin & Hact). rewrite (dh_pin _ _ _ H) in Hm. unfold dfs_PickNext.
  destruct (dfs_AddStep_ok (dfs_set_active s None) (active_ s)) as (n & f1 & ->). cbn [mbind M_bind]. destruct (active_ s) as [t'|] eqn:Et.
  - assert (Hq : forall x, x ∈ l -> dfs_Preempt P e (dfs_set_steps (dfs_set_active s None) n f1) t' = if negb (preemptive e t') then Ret false else dfs_Either BPreempt).
    { intros x Hx. unfold dfs_Preempt. cbn. rewrite (sl_IsEmpty_ok _ _ Hl), bool_decide_eq_false_2 by (intros ->; by apply elem_of_nil in Hx).
      unfold dfs_ForcedPreempt, dfs_MaxPreemptsReached. rewrite Hforce, Hpre. done. }
    destruct (decide (t = t')) as [->|Hne].
    + assert (Hc : exists p, leaf (dfs_Preempt P e (dfs_set_steps (dfs_set_active s None) n f1) t') p (inl false)).
      { destruct l as [|x l].
        - exists []. unfold dfs_Preempt. cbn. rewrite (sl_IsEmpty_ok _ _ Hl). destruct (preemptive e t'); constructor.
        - rewrite (Hq x) by by left. destruct (preemptive e t'); simpl; [exists [mkBranch BPreempt 2 0]; apply leaf_choose; [lia|constructor]|exists []; constructor]. }
      destruct Hc as [p Hc]. exists (p ++ []). eexists. eapply leaf_bind; [exact Hc|]. constructor.
    + destruct Hm as [?|Hm]; [done|]. destruct (proj1 (Hin t) Ht) as [Htl|?]; [|congruence].
      destruct (dfs_PickFromQueue_complete (dfs_set_steps (dfs_set_active s None) n f1) l t (Some t')) as (p & s' & Hp); [done|done|..].
      { intros x Ex. simplify_eq. split; [by apply Hact|]. intros y [->|Hy]%elem_of_cons; apply (ao_runnable _ (dh_ok _ _ _ H)), Hin; [by right|by left]. }
      exists ([mkBranch BPreempt 2 1] ++ p), s'. eapply (leaf_bind _ _ _ _ true); [|exact Hp]. rewrite (Hq t Htl), Hm. apply leaf_choose; [lia|constructor].
  - apply Hin in Ht as [Ht|?]; [|done]. by apply (dfs_PickFromQueue_complete _ l).
Qed.

(** The specification leaves no choice. *)
Definition forced (c : icall) : bool :=
  match c with PickNext | WqPop _ | WqPopAll _ | RandomNumber | RandomChoice _ | SpuriousWakeup | SpuriousTryFailure | IsModelChecker => false | _ => true end.

Lemma forced_answer a c x y a1 a2 : forced c = true -> abs_step a c x = Some a1 -> abs_step a c y = Some a2 -> x = y.
Proof.
  destruct c, x, y; try done; simpl; unfold with_queue, when; intros _; try destruct (queues a !! q) as [ts|]; simpl; try done; repeat case_decide; congruence.
Qed.

Lemma step_thread a c q w a' : (c = WqPop q \/ c = WqPopAll q) -> abs_step a c (AThread w) = Some a' ->
  exists ts, queues a !! q = Some ts /\ match w with Some t => t ∈ ts | None => ts = ∅ end.
Proof.
  intros [-> | ->] H; simpl in H; unfold with_queue, when in H; destruct w, (queues a !! q) as [ts|]; simpl in H; try done; case_decide; try done; by exists ts.
Qed.

Lemma nobody_pops a c q ans0 a' a0 : (c = WqPop q \/ c = WqPopAll q) -> abs_step a c (AThread None) = Some a' -> abs_step a c ans0 = Some a0 -> ans0 = AThread None.
Proof.
  intros Hc H H0. destruct (step_thread a c q _ a' Hc H) as (ts & Hq & ->). destruct ans0 as [| |[t|]|]; try done; try (by destruct Hc as [-> | ->]).
  destruct (step_thread a c q _ a0 Hc H0) as (ts & Hq' & Ht). simplify_eq. by apply not_elem_of_empty in Ht.
Qed.

Lemma answer_thread a c q ans a' : (c = WqPop q \/ c = WqPopAll q) -> abs_step a c ans = Some a' -> exists w, ans = AThread w.
Proof. intros [-> | ->] H; destruct ans; try done; eauto. Qed.

(** The queue, when the model checker chooses who is woken. *)
Lemma branching_queue s a q ts : dfs_holds P s a -> queues a !! q = Some ts -> wake_order P = true ->
  exists sl l, dfs_queues s !! q = Some (BranchingWaitQueue sl) /\ sl_holds sl l /\ forall x, x ∈ l <-> x ∈ ts.
Proof.
  intros H Hq Hw. destruct (queue_of P s a q ts H Hq) as ([l|sl] & E & Hd); [by destruct Hd; congruence|]. destruct Hd as (_ & l & Hl & Hin). by exists sl, l.
Qed.

Lemma dfs_pop_complete s a e q t a' : dfs_holds P s a -> abs_step a (WqPop q) (AThread (Some t)) = Some a' -> wake_order P = true ->
  exists p s', leaf (dfs_call P e (WqPop q) s) p (inl (AThread (Some t), s')).
Proof.
  intros H Ha Hw. destruct (step_thread a _ q _ a' (or_introl eq_refl) Ha) as (ts & Hq & Ht).
  destruct (branching_queue s a q ts H Hq Hw) as (sl & l & E & Hl & Hin). destruct (dfs_Pick_complete sl l t BWakeOne Hl ltac:(by apply Hin)) as (p & s' & _ & _ & Hp & _).
  cbn [dfs_call]. unfold dfs_on_queue. rewrite E. cbn [wq_Pop].
  exists ((p ++ []) ++ []). eexists. eapply (leaf_bind _ _ _ _ (AThread (Some t), _)); [eapply leaf_bind; [exact Hp|constructor]|constructor].
Qed.

Lemma dfs_pop_all_complete s a e q t a' : dfs_holds P s a -> abs_step a (WqPopAll q) (AThread (Some t)) = Some a' -> wake_order P = true ->
  (forall ts x, queues a !! q = Some ts -> x ∈ ts -> x <= t) -> exists p s', leaf (dfs_call P e (WqPopAll q) s) p (inl (AThread (Some t), s')).
Proof.
  intros H Ha Hw Hmax. destruct (step_thread a _ q _ a' (or_intror eq_refl) Ha) as (ts & Hq & Ht).
  destruct (branching_queue s a q ts H Hq Hw) as (sl & l & E & Hl & Hin). cbn [dfs_call]. unfold dfs_on_queue. rewrite E. cbn [wq_PopAll].
  destruct (sl_PopLast_ok sl l Hl) as [[-> _]|(l' & f & s' & -> & -> & _)]; [by apply Hin, elem_of_nil in Ht|].
  assert (f = t) as ->.
  { pose proof Hl as (_ & _ & _ & _ & Hsort). apply sorted_app in Hsort as (_ & _ & Hs). assert (Hf : f <= t) by (apply (Hmax ts); [done|apply Hin, elem_of_app; right; by left]).
    apply Hin in Ht. apply elem_of_app in Ht as [Ht|Ht%list_elem_of_singleton]; [|done]. specialize (Hs t f Ht ltac:(by left)). lia. }
  exists []. eexists. constructor.
Qed.

Lemma either_complete s ty b : exists p s', leaf (b ← dfs_Either ty; Ret (ABool b, s)) p (inl (ABool b, s') : answer * Dfs + stop).
Proof. exists [mkBranch ty 2 (if b then 1 else 0)], s. apply leaf_choose; [by destruct b; lia|]. destruct b; constructor. Qed.

Lemma dfs_complete s a e c ans a' : dfs_holds P s a -> legal a c -> dfs_supports e a c -> abs_step a c ans = Some a' -> dfs_may e a c ans ->
  exists p s', leaf (dfs_call P e c s) p (inl (ans, s')) /\ dfs_holds P s' a'.
Proof using Hsteps Hforce Hpre.
  intros H Hl Hs Ha Hm. assert (Hgoal : exists p s', leaf (dfs_call P e c s) p (inl (ans, s'))).
  2: { destruct Hgoal as (p & s' & Hp). exists p, s'. split; [done|]. destruct (dfs_law P s a e c p _ H Hl Hs Hp) as (a2 & ? & ?). congruence. }
  destruct (dfs_answers s a e c H Hl Hs) as (p0 & ans0 & s0 & a0 & Hp0 & Ha0 & _). destruct (forced c) eqn:Hf.
  { rewrite (forced_answer a c ans ans0 a' a0 Hf Ha Ha0). eauto. }
  destruct c; try done; cbn [dfs_call] in *.
  - destruct ans as [| |[t|]|]; try done. simpl in Ha. unfold when in Ha. case_decide; [|done]. by eapply dfs_PickNext_complete.
  - destruct (answer_thread a _ q ans a' (or_introl eq_refl) Ha) as [[t|] ->]; [by apply (dfs_pop_complete s a e q t a')|].
    rewrite (nobody_pops a _ q ans0 a' a0 (or_introl eq_refl) Ha Ha0) in Hp0. eauto.
  - destruct (answer_thread a _ q ans a' (or_intror eq_refl) Ha) as [[t|] ->]; [destruct Hm; by apply (dfs_pop_all_complete s a e q t a')|].
    rewrite (nobody_pops a _ q ans0 a' a0 (or_intror eq_refl) Ha Ha0) in Hp0. eauto.
  - destruct ans as [| | |z]; try done. simpl in Ha. unfold when in Ha. case_decide; [|done]. exists [mkBranch BRandomChoice alts (Z.to_nat z)], s.
    apply leaf_choose; [lia|]. rewrite <- (Z2Nat.id z) at 2 by lia. constructor.
  - destruct ans as [|b| |]; try done. destruct (spurious_wakeups P) eqn:Ep; [apply either_complete|]. destruct b; [specialize (Hm eq_refl); congruence|].
    exists [], s. constructor.
  - destruct ans as [|b| |]; try done. destruct (spurious_failures P) eqn:Ep; [apply either_complete|]. destruct b; [specialize (Hm eq_refl); congruence|].
    exists [], s. constructor.
  - destruct ans as [|b| |]; try done. simpl in Hm. subst b. exists [], s. constructor.
Qed.
End complete.

(** ** What the model checker promises *)

Lemma prefixed_nil {A} (rs : list (list Branch * (A + stop))) : prefixed [] rs = rs.
Proof. induction rs as [|[p r] rs IH]; [done|]. simpl. by f_equal. Qed.

(** With enough fuel [Explore] reports the first run that fails. *)
Lemma Explore_total {A B} (t : M A) (Failure : A + stop -> bool) (Rec : list Branch -> A + stop -> B) (fuel : nat) : choices_ok t -> (length (executions t) <= fuel)%nat ->
  Explore fuel t Failure Rec [] 0 = Some match list_find (fun x => Failure x.2 = true) (executions t) with Some (j, x) => (Some (Rec x.1 x.2), S j) | None => (None, length (executions t)) end.
Proof.
  intros Ht Hf. rewrite (Explore_visits t Failure Rec [] (executions t) fuel 0); [done| |done].
  rewrite <- (prefixed_nil (executions t)), <- (app_nil_r (prefixed _ _)). apply visits_under; [constructor|done|left; by eexists].
Qed.

(** C9: The loop of [Explore] over the DFS scheduler ends, and it runs every run of the
    program exactly once: there is a list of all runs, without repetition, each of them a
    sequence of answers that the specification of schedulers allows (or pruned, or over
    budget); with enough fuel the loop passes the first one that fails to [Record] and reports
    the number of simulations so far, or that none fails after as many simulations as there are
    runs. *)
Theorem dfs_explores_every_run (P : DfsParams) (C : client) (budget : nat) :
  client_ok dfs_supports C abs0 ->
  let t := simulate (DfsScheduler P) budget C [] dfs_Start in
  exists runs, base.NoDup runs.*1 /\ (forall p r, (p, r) ∈ runs <-> leaf t p r) /\
    (forall p r, leaf t p r ->
      match r with
      | inl (hist, _) => C hist = None /\ exists a, abs_reach C abs0 hist a
      | inr st => st = Prune \/ st = Timeout
      end) /\
    forall B Failure (Rec : _ -> _ -> B) fuel, (length runs <= fuel)%nat ->
      Explore fuel t Failure Rec [] 0 = Some
        match list_find (fun x => Failure x.2 = true) runs with
        | Some (j, x) => (Some (Rec x.1 x.2), S j)
        | None => (None, length runs)
        end.
Proof.
  intros Hok t. exists (executions t). split; [apply executions_nodup|]. split; [intros; apply executions_leaf|]. split.
  - intros p r Hr. pose proof (simulate_lawful (DfsScheduler P) C abs0 Hok budget [] dfs_Start abs0 p r (dfs_Start_holds P) (abs_reach_nil _ _) Hr) as H.
    destruct r as [[hist s']|st]; [|done]. destruct H as (H1 & a & H2 & _). eauto.
  - intros B Failure Rec fuel Hf. apply Explore_total; [| done].
    apply (@simulate_choices (DfsScheduler P) (dfs_lawful P) C abs0 Hok budget [] dfs_Start abs0); [|apply dfs_Start_holds|constructor].
    intros s a e c _ Hl _. by eapply dfs_choices.
Qed.

(** C11: The model checker stays well-formed: in no run of a program does an access leave the
    arrays, an assertion fail or a null thread get dereferenced; and when a run ends, the run
    queue and every wait queue hold at most [kMaxThreads] thread ids in increasing order, no
    thread is in two of them, and the running thread is in none. *)
Theorem dfs_well_formed (P : DfsParams) (C : client) (budget : nat) (p : list Branch) (r : list answer * Dfs + stop) :
  client_ok dfs_supports C abs0 -> leaf (simulate (DfsScheduler P) budget C [] dfs_Start) p r ->
  match r with
  | inl (_, s) =>
      let ids (l : SortedList) := take (sl_size l) (sl_list l) in
      let ok (l : SortedList) := (sl_size l <= length (sl_list l) /\ length (sl_list l) = sim_kMaxThreads)%nat /\ StronglySorted Z.lt (ids l) in
      ok (run_queue_ s) /\ (forall t, active_ s = Some t -> t ∉ ids (run_queue_ s)) /\
      forall q l, dfs_queues s !! q = Some (BranchingWaitQueue l) -> ok l /\
        (forall t, t ∈ ids l -> t ∉ ids (run_queue_ s) /\ active_ s <> Some t) /\
        forall q' l', dfs_queues s !! q' = Some (BranchingWaitQueue l') -> q <> q' -> forall t, t ∈ ids l -> t ∉ ids l'
  | inr st => st = Prune \/ st = Timeout
  end.
Proof.
  intros Hok Hr. pose proof (simulate_lawful (DfsScheduler P) C abs0 Hok budget [] dfs_Start abs0 p r (dfs_Start_holds P) (abs_reach_nil _ _) Hr) as H.
  destruct r as [[hist s]|st]; [|done]. destruct H as (_ & a & _ & Hs). simpl in Hs. destruct (dh_run _ _ _ Hs) as (l & Hl & Hin & Hact). cbv beta zeta.
  rewrite (sl_holds_ids _ _ Hl). split; [by apply sl_holds_ok|]. split; [done|]. intros q lq Hq.
  assert (Hqueue : forall q lq, dfs_queues s !! q = Some (BranchingWaitQueue lq) -> exists ts ids, queues a !! q = Some ts /\ sl_holds lq ids /\ forall x, x ∈ ids <-> x ∈ ts).
  { intros q0 l0 E. pose proof (dh_queues _ _ _ Hs q0) as Hd. rewrite E in Hd. destruct (queues a !! q0) as [ts|]; [|done]. destruct Hd as (_ & ids & ? & ?). by exists ts, ids. }
  destruct (Hqueue q lq Hq) as (ts & ids & Hts & Hids & Hm). rewrite (sl_holds_ids _ _ Hids). split; [by apply sl_holds_ok|]. split.
  - intros t Ht. apply Hm in Ht. destruct (ao_queue _ (dh_ok _ _ _ Hs) q ts t Hts Ht) as [_ Hn]. rewrite Hin in Hn. split; [tauto|]. intros E. tauto.
  - intros q' l' Hq' Hne t Ht. destruct (Hqueue q' l' Hq') as (ts' & ids' & Hts' & Hids' & Hm'). rewrite (sl_holds_ids _ _ Hids'), Hm'. apply Hm in Ht.
    intros Ht'. by apply Hne, (ao_apart _ (dh_ok _ _ _ Hs) q q' ts ts' t).
Qed.

(** A sequence of answers that the threads, and the parameters, allow. *)
Inductive interleaving (P : DfsParams) (C : client) : list answer -> abs -> Prop :=
| interleaving_nil : interleaving P C [] abs0
| interleaving_snoc hist a e c ans a' :
    interleaving P C hist a -> C hist = Some (e, c) -> abs_step a c ans = Some a' -> dfs_may P e a c ans -> interleaving P C (hist ++ [ans]) a'.

Lemma interleaving_reach P C hist a : interleaving P C hist a -> abs_reach C abs0 hist a.
Proof. induction 1; econstructor; eauto. Qed.

(** A run for every interleaving. *)
Lemma interleaving_leaf (P : DfsParams) (C : client) (budget : nat) (hist : list answer) (a : abs) :
  max_preemptions P = None -> max_steps P = None -> force_preempt_after_steps P = None ->
  client_ok dfs_supports C abs0 -> interleaving P C hist a -> C hist = None -> (length hist <= budget)%nat ->
  exists p s, leaf (simulate (DfsScheduler P) budget C [] dfs_Start) p (inl (hist, s)).
Proof.
  intros H1 H2 H3 Hok Hi Hend Hb.
  assert (Hext : exists p s, dfs_holds P s a /\ forall more p2 r, leaf (simulate (DfsScheduler P) more C hist s) p2 r ->
    leaf (simulate (DfsScheduler P) (length hist + more) C [] dfs_Start) (p ++ p2) r).
  { clear Hend Hb. induction Hi as [|hist a e c ans a' Hi IH Hc Ha Hm]; [exists [], dfs_Start; split; [apply dfs_Start_holds|done]|].
    destruct IH as (p & s & Hs & IH). destruct (Hok hist a e c (interleaving_reach _ _ _ _ Hi) Hc) as [Hl Hsup].
    destruct (dfs_complete P H1 H2 H3 s a e c ans a' Hs Hl Hsup Ha Hm) as (p1 & s1 & Hp1 & Hs1).
    exists (p ++ p1), s1. split; [done|]. intros more p2 r Hr. rewrite length_app, <- Nat.add_assoc, <- app_assoc. apply IH. by eapply simulate_extend. }
  destruct Hext as (p & s & _ & Hext). replace budget with (length hist + (budget - length hist))%nat by lia. exists (p ++ []), s. apply Hext.
  destruct (budget - length hist)%nat; simpl; rewrite Hend; constructor.
Qed.

(** C10: Without limits on preemptions and steps, the model checker misses nothing: whatever
    runnable thread runs next at any moment where the running thread may be preempted,
    whichever waiter is woken, whatever the random choices and the spurious failures and
    wake-ups, the run is one that [Explore] visits. *)
Theorem dfs_all_interleavings (P : DfsParams) (C : client) (budget : nat) (hist : list answer) (a : abs) :
  max_preemptions P = None -> max_steps P = None -> force_preempt_after_steps P = None ->
  client_ok dfs_supports C abs0 -> interleaving P C hist a -> C hist = None -> (length hist <= budget)%nat ->
  exists p s, leaf (simulate (DfsScheduler P) budget C [] dfs_Start) p (inl (hist, s)).
Proof. apply interleaving_leaf. Qed.

(** C12: What [Record] of twist/mod/sim/sim.cpp relies on, for a lawful scheduler and a program that
    makes only calls which that scheduler supports (over the random scheduler: no lock-free
    sections) and does not ask for [IsModelChecker]: whenever a run ends, the recorder on the same
    choices sees the same run and records decisions with which the replay scheduler, without any
    choice of its own, gives the same answers to the end, using every decision. *)
Theorem record_replay_roundtrip (U : IScheduler) (HL : Lawful U) (C : client) (budget : nat) (s s' : sched_state U) (p : list Branch) (hist : list answer) :
  represents s abs0 -> client_ok supports C abs0 -> (forall h e, C h <> Some (e, IsModelChecker)) ->
  leaf (simulate U budget C [] s) p (inl (hist, s')) ->
  exists schedule rs, leaf (simulate (Recorder U) budget C [] (s, [])) p (inl (hist, (s', schedule))) /\
    simulate ReplayScheduler budget C [] (replay_new schedule) = Ret (hist, rs) /\ rp_next rs = length schedule.
Proof.
  intros Hs Hok Hm H. destruct (record_replay U C abs0 budget [] s abs0 [] p hist s' Hok (fun h a e _ => Hm h e) Hs (abs_reach_nil _ _) H) as (ds & a' & R1 & R2).
  exists ds, (replay_at ds ds a'). split; [done|]. split; [|done]. by apply R2.
Qed.

(** *** An example: two threads, one of them interrupted *)

Definition race_env : env := mkEnv (fun _ => true) (fun _ => false) (fun _ => false) 0.
Definition race : client := fun hist =>
  match hist with
  | [] => Some (race_env, Spawn 1)
  | [_] => Some (race_env, Spawn 2)
  | [_; _] => Some (race_env, PickNext)
  | [_; _; AThread (Some t)] => Some (race_env, Interrupt t)
  | [_; _; AThread (Some _); _] => Some (race_env, PickNext)
  | [_; _; AThread (Some _); _; _] => Some (race_env, PickNext)
  | _ => None
  end.
Definition unlimited : DfsParams := mkDfsParams None None None true false false.

Lemma dfs_client_ok n C : client_okb (fun c => match c with SwitchTo _ _ | RandomNumber => false | _ => true end) n C [] abs0 = true -> client_ok dfs_supports C abs0.
Proof.
  intros H hist a e c Hr Hc. destruct (client_okb_sound _ _ _ _ H hist a e c Hr Hc) as [Hl Hs]. split; [done|]. by destruct c.
Qed.

Lemma race_ok : client_ok dfs_supports race abs0.
Proof. apply (dfs_client_ok 6). vm_compute. reflexivity. Qed.

(** Four runs: either thread starts, and it is preempted or not. *)
Lemma dfs_explores_every_run_witness :
  let t := simulate (DfsScheduler unlimited) 6 race [] dfs_Start in
  Explore 10 t (fun _ => false) pair [] 0 = Some (None, 4%nat) /\
  exists runs, base.NoDup runs.*1 /\ (forall p r, (p, r) ∈ runs <-> leaf t p r) /\
    (forall Failure, Explore (length runs) t Failure pair [] 0 = Some
      match list_find (fun x => Failure x.2 = true) runs with Some (j, x) => (Some (x.1, x.2), S j) | None => (None, length runs) end).
Proof.
  intros t. split; [vm_compute; reflexivity|]. destruct (dfs_explores_every_run unlimited race 6 race_ok) as (runs & H1 & H2 & _ & H4).
  exists runs. split; [exact H1|]. split; [exact H2|]. intros F. apply H4. reflexivity.
Defined.

Definition race_hist : list answer := [AVoid; AVoid; AThread (Some 1); AVoid; AThread (Some 2); AThread (Some 1)].

(** Thread 1 runs, is preempted, thread 2 runs, and thread 1 again. *)
Lemma race_leaf : exists s, leaf (simulate (DfsScheduler unlimited) 6 race [] dfs_Start) [mkBranch BPickNext 2 0; mkBranch BPreempt 2 1] (inl (race_hist, s)).
Proof. eexists. apply executions_leaf, list_elem_of_In. vm_compute. right. left. reflexivity. Qed.

Lemma dfs_well_formed_witness : exists s,
  leaf (simulate (DfsScheduler unlimited) 6 race [] dfs_Start) [mkBranch BPickNext 2 0; mkBranch BPreempt 2 1] (inl (race_hist, s)) /\
  (sl_size (run_queue_ s) <= length (sl_list (run_queue_ s)))%nat /\ StronglySorted Z.lt (take (sl_size (run_queue_ s)) (sl_list (run_queue_ s))).
Proof.
  destruct race_leaf as [s Hp]. exists s. split; [exact Hp|]. destruct (dfs_well_formed unlimited race 6 _ _ race_ok Hp) as [[[H1 _] H2] _]. split; [exact H1|exact H2].
Defined.

Definition recorded (r : (list answer * (Dfs * list Decision_) + stop) * list Branch) : list Decision_ :=
  match r.1 with inl (_, (_, sch)) => sch | inr _ => [] end.

Lemma record_replay_roundtrip_witness :
  exists schedule rs, schedule = [DPickNext 1; DPickNext 2; DPickNext 1] /\
    simulate ReplayScheduler 6 race [] (replay_new schedule) = Ret (race_hist, rs) /\ rp_next rs = 3%nat.
Proof.
  destruct race_leaf as [s Hp].
  destruct (record_replay_roundtrip (DfsScheduler unlimited) (dfs_lawful unlimited) race 6 dfs_Start s [mkBranch BPickNext 2 0; mkBranch BPreempt 2 1] race_hist (dfs_Start_holds _) race_ok) as (sch & rs & H1 & H2 & H3); [|exact Hp|].
  - intros h e. repeat (destruct h as [|[| |[]|] h]; try done).
  - exists sch, rs. assert (E : [DPickNext 1; DPickNext 2; DPickNext 1] = sch); [|by rewrite <- E in *].
    apply leaf_run in H1. transitivity (recorded (dfs_run (simulate (Recorder (DfsScheduler unlimited)) 6 race [] (dfs_Start, [])) [mkBranch BPickNext 2 0; mkBranch BPreempt 2 1] 0)).
    + vm_compute. reflexivity.
    + exact (f_equal recorded H1).
Defined.

Lemma dfs_all_interleavings_witness :
  exists p s, leaf (simulate (DfsScheduler unlimited) 6 race [] dfs_Start) p (inl (race_hist, s)).
Proof.
  pose proof (interleaving_nil unlimited race) as H0.
  pose proof (interleaving_snoc _ _ _ _ race_env (Spawn 1) AVoid _ H0 eq_refl eq_refl I) as H1.
  pose proof (interleaving_snoc _ _ _ _ race_env (Spawn 2) AVoid _ H1 eq_refl eq_refl I) as H2.
  pose proof (interleaving_snoc _ _ _ _ race_env PickNext (AThread (Some 1)) _ H2 eq_refl eq_refl I) as H3.
  pose proof (interleaving_snoc _ _ _ _ race_env (Interrupt 1) AVoid _ H3 eq_refl eq_refl I) as H4.
  pose proof (interleaving_snoc _ _ _ _ race_env PickNext (AThread (Some 2)) _ H4 eq_refl eq_refl (or_intror eq_refl)) as H5.
  pose proof (interleaving_snoc _ _ _ _ race_env PickNext (AThread (Some 1)) _ H5 eq_refl eq_refl I) as H6.
  exact (dfs_all_interleavings unlimited race 6 race_hist _ eq_refl eq_refl eq_refl race_ok H6 eq_refl (le_n 6)).
Defined.

(** [Recorder] does not forward [IsModelChecker]: under the recorder a program sees another
    answer than under the model checker that it records. *)
Theorem recorder_hides_model_checker P :
  let ask : client := fun hist => match hist with [] => Some (race_env, IsModelChecker) | _ => None end in
  (exists s, leaf (simulate (DfsScheduler P) 1 ask [] dfs_Start) [] (inl ([ABool true], s))) /\
  forall p s, ~ leaf (simulate (Recorder (DfsScheduler P)) 1 ask [] (dfs_Start, [])) p (inl ([ABool true], s)).
Proof. split; [eexists; constructor|]. by intros p s [_ [=]]%leaf_ret_inv. Qed.
