(* ===== verification/CoopSched.v ===== *)
(** The cooperative scheduler of the simulator,
    src/deps/twist/source/twist/rt/sim/scheduler/coop/scheduler.hpp, with what the random
    (RandSched.v) and the PCT scheduler (PctSched.v) share with it: the generator
    src/deps/twist/source/twist/wheels/random/wyrand.hpp and the first-in-first-out futex queues.

    It is lawful (SimSched.v) for all calls but [Remove] of a thread that waits in a futex queue,
    so its runs can be recorded and replayed. *)

From S2P Require Import Prelude SimSched DfsSched.
Local Open Scope Z_scope.

(** ** WyRand *)

(** [WyRand::Next]: the next state and the number. *)
Definition WyRand_Next (s : Z) : Z * Z :=
  let s := u64 (s + 0xa0761d6478bd642f) in
  let t := s * Z.lxor s 0xe7037ed1a0b428db in
  (s, u64 (Z.lxor (Z.shiftr t 64) t)).

#[global] Arguments WyRand_Next : simpl never.

(** [wheels::HashCombine] *)
Definition HashCombine (digest hash_value : Z) : Z :=
  Z.lxor digest (u64 (hash_value + 0x9e3779b9 + u64 (Z.shiftl digest 6) + Z.shiftr digest 2)).

(** [x % n]; division by zero is undefined. *)
Definition modulo (x n : Z) : M Z := if decide (n = 0) then Stop Crash else Ret (x mod n).

Lemma WyRand_range s : 0 <= (WyRand_Next s).2 < 2 ^ 64.
Proof. unfold WyRand_Next. cbn [snd]. unfold wrap, wbits. apply Z.mod_pos_bound. lia. Qed.

Lemma modulo_bind_inv {A} x n (f : Z -> M A) p r : 0 < n -> leaf (i ← modulo x n; f i) p r -> exists i, 0 <= i < n /\ leaf (f i) p r.
Proof. intros Hn. unfold modulo. rewrite decide_False by lia. intros H. exists (x mod n). split; [apply Z.mod_pos_bound; lia|done]. Qed.

Lemma abs_random a s : abs_step a RandomNumber (ANum (WyRand_Next s).2) = Some a.
Proof. unfold abs_step, when. by rewrite decide_True by apply WyRand_range. Qed.

(** ** FIFO wait queues

    [WaitQueue] of the cooperative and of the PCT scheduler: an intrusive list
    (IntrusiveList.v) whose nodes are the threads.  All lists use the same link of the
    thread, so [IsLinked] and [Unlink] concern whichever list the thread is in. *)

Abbreviation fifos := (gmap Z (list Z)).

Definition fq_get (qs : fifos) (q : Z) : M (list Z) := match qs !! q with Some l => Ret l | None => Stop Crash end.
Definition fq_linked (qs : fifos) (t : Z) : bool := existsb (fun p : Z * list Z => bool_decide (t ∈ p.2)) (map_to_list qs).
Definition fq_unlink (qs : fifos) (t : Z) : fifos := (fun l : list Z => filter (fun x => x <> t) l) <$> qs.

(** The calls of wait queues; [linked]: the thread is in another list. *)
Definition fq_call (linked : Z -> bool) (c : icall) (qs : fifos) : M (answer * fifos) :=
  match c with
  | NewWaitQueue q => Ret (AVoid, <[q := []]> qs)
  | WqIsEmpty q => l ← fq_get qs q; Ret (ABool (bool_decide (l = [])), qs)
  | WqPush q t =>
      l ← fq_get qs q;
      _ ← verify_sim (negb (linked t || fq_linked qs t));
      Ret (AVoid, <[q := l ++ [t]]> qs)
  | WqPop q | WqPopAll q => l ← fq_get qs q; Ret (AThread (head l), <[q := tail l]> qs)
  | WqRemove q t =>
      _ ← fq_get qs q;
      if linked t || fq_linked qs t then Ret (ABool true, fq_unlink qs t) else Ret (ABool false, qs)
  | _ => Stop Crash
  end.

Definition fq_is_call (c : icall) : bool :=
  match c with NewWaitQueue _ | WqIsEmpty _ | WqPush _ _ | WqPop _ | WqPopAll _ | WqRemove _ _ => true | _ => false end.

Definition fq_holds (qs : fifos) (a : abs) : Prop :=
  forall q, match qs !! q, queues a !! q with
  | Some l, Some ts => base.NoDup l /\ forall x, x ∈ l <-> x ∈ ts
  | None, None => True
  | _, _ => False
  end.

Section fq.
Context (qs : fifos) (a : abs) (H : fq_holds qs a) (Hok : abs_ok a).

Lemma fq_of q ts : queues a !! q = Some ts -> exists l, qs !! q = Some l /\ base.NoDup l /\ forall x, x ∈ l <-> x ∈ ts.
Proof using H. intros E. specialize (H q). rewrite E in H. destruct (qs !! q) as [l|]; [|done]. by exists l. Qed.

Lemma fq_set q l ts : base.NoDup l -> (forall x, x ∈ l <-> x ∈ ts) -> fq_holds (<[q := l]> qs) (set_queue a q ts).
Proof using H.
  intros Hnd Hin q'. simpl. destruct (decide (q' = q)) as [->|Hne]; [by rewrite !lookup_insert_eq|]. rewrite !lookup_insert_ne by done. apply H.
Qed.

Lemma fq_linked_spec t : fq_linked qs t = true <-> exists q ts, queues a !! q = Some ts /\ t ∈ ts.
Proof using H.
  unfold fq_linked. rewrite existsb_exists. split.
  - intros ([q l] & Hq%list_elem_of_In%elem_of_map_to_list & Ht%bool_decide_eq_true). simpl in *. specialize (H q). rewrite Hq in H.
    destruct (queues a !! q) as [ts|] eqn:E; [|done]. exists q, ts. split; [done|]. by apply H.
  - intros (q & ts & E & Ht). destruct (fq_of q ts E) as (l & El & _ & Hin). exists (q, l). split; [by apply list_elem_of_In, elem_of_map_to_list|].
    apply bool_decide_eq_true. by apply Hin.
Qed.

Lemma fq_not_linked t : abs_new a t -> fq_linked qs t = false.
Proof using H.
  intros (_ & _ & Hn). apply not_true_iff_false. rewrite fq_linked_spec. intros (q & ts & E & Ht). by apply (Hn q ts).
Qed.

Lemma fq_unlink_holds q t ts : queues a !! q = Some ts -> t ∈ ts -> fq_holds (fq_unlink qs t) (set_queue a q (ts ∖ {[t]})).
Proof using H Hok.
  intros Hq Ht q'. unfold fq_unlink. simpl. rewrite lookup_fmap. destruct (decide (q' = q)) as [->|Hne].
  - destruct (fq_of q ts Hq) as (l & -> & Hnd & Hin). rewrite lookup_insert_eq. simpl. split; [by apply list.NoDup_filter|].
    intros x. rewrite list_elem_of_filter, elem_of_difference, elem_of_singleton, Hin. tauto.
  - rewrite lookup_insert_ne by done. specialize (H q'). destruct (qs !! q') as [l'|], (queues a !! q') as [ts'|] eqn:Eq'; try done.
    simpl. destruct H as [Hnd Hin]. split; [by apply list.NoDup_filter|]. intros x. rewrite list_elem_of_filter, Hin.
    split; [tauto|]. intros Hx. split; [|done]. intros ->. by apply Hne, (ao_apart _ Hok q' q ts' ts t).
Qed.

Lemma fq_pop_law c q ts p r : (c = WqPop q \/ c = WqPopAll q) -> queues a !! q = Some ts -> leaf (l ← fq_get qs q; Ret (AThread (head l), <[q := tail l]> qs)) p r ->
  exists ans qs' a', r = inl (ans, qs') /\ abs_step a c ans = Some a' /\ fq_holds qs' a' /\ runnable a' = runnable a /\ pinned a' = pinned a.
Proof using H.
  intros Hc Hq Hr. destruct (fq_of q ts Hq) as (l & El & Hnd & Hin). unfold fq_get in Hr. rewrite El in Hr. apply leaf_ret_inv in Hr as [_ ->].
  destruct l as [|x l]; simpl.
  - eexists _, _, (set_queue a q ts). split_and!; try done; [|by apply fq_set]. apply (members_empty []) in Hin as Hts. rewrite set_queue_id by done.
    destruct Hc as [-> | ->]; simpl; unfold with_queue, when; rewrite Hq; simpl; by rewrite decide_True by by apply Hts.
  - apply list.NoDup_cons in Hnd as [Hx Hnd]. eexists _, _, (set_queue a q (ts ∖ {[x]})). split_and!; try done.
    + destruct Hc as [-> | ->]; simpl; unfold with_queue, when; rewrite Hq; simpl; by rewrite decide_True by (apply Hin; left).
    + apply fq_set; [done|]. intros y. rewrite elem_of_difference, elem_of_singleton, <- Hin, elem_of_cons. split; [|tauto]. intros Hy. split; [by right|]. by intros ->.
Qed.

Lemma fq_law linked c p r : fq_is_call c = true -> legal a c -> (forall t, abs_new a t -> linked t = false) -> leaf (fq_call linked c qs) p r ->
  exists ans qs' a', r = inl (ans, qs') /\ abs_step a c ans = Some a' /\ fq_holds qs' a' /\ runnable a' = runnable a /\ pinned a' = pinned a.
Proof using H Hok.
  intros Hc Hl Hnl Hr. destruct c; try done; simpl in Hr.
  - apply leaf_ret_inv in Hr as [_ ->]. eexists _, _, (set_queue a q ∅). split_and!; try done. apply fq_set; [constructor|set_solver].
  - destruct Hl as [ts Hq]. destruct (fq_of q ts Hq) as (l & El & _ & Hin). unfold fq_get in Hr. rewrite El in Hr. apply leaf_ret_inv in Hr as [_ ->].
    eexists _, _, a. split_and!; try done. simpl. unfold with_queue, when. rewrite Hq. simpl. rewrite decide_True; [done|]. apply bool_decide_ext. by apply members_empty.
  - destruct Hl as [Hn [ts Hq]]. destruct (fq_of q ts Hq) as (l & El & Hnd & Hin). unfold fq_get in Hr. rewrite El, (Hnl t Hn), (fq_not_linked t Hn) in Hr.
    apply leaf_ret_inv in Hr as [_ ->]. eexists _, _, (set_queue a q ({[t]} ∪ ts)). split_and!; try done; [simpl; unfold with_queue; by rewrite Hq|].
    destruct Hn as (_ & _ & Hnq). specialize (Hnq q ts Hq). apply fq_set.
    + apply list.NoDup_app. split; [done|]. split; [intros x Hx ->%list_elem_of_singleton; by apply Hnq, Hin|by apply NoDup_singleton].
    + intros x. rewrite elem_of_app, list_elem_of_singleton, elem_of_union, elem_of_singleton, Hin. tauto.
  - destruct Hl as [ts Hq]. eapply fq_pop_law; eauto.
  - destruct Hl as [ts Hq]. eapply fq_pop_law; eauto.
  - destruct Hl as (ts & Hq & Ht). destruct (fq_of q ts Hq) as (l & El & Hnd & Hin). unfold fq_get in Hr. rewrite El in Hr. cbn [mbind M_bind] in Hr.
    rewrite (proj2 (fq_linked_spec t)), orb_true_r in Hr by eauto. apply leaf_ret_inv in Hr as [_ ->].
    eexists _, _, (set_queue a q (ts ∖ {[t]})). split_and!; try done; [|by apply fq_unlink_holds].
    simpl. unfold with_queue, when. rewrite Hq. simpl. by rewrite bool_decide_eq_true_2, decide_True.
Qed.
End fq.

(** ** The cooperative scheduler *)

(** [coop::Scheduler] *)
Record Coop := mkCoop { co_run : list Z; co_next : option Z; co_random : Z; co_queues : fifos }.

Definition co_linked (s : Coop) (t : Z) : bool := bool_decide (t ∈ co_run s) || fq_linked (co_queues s) t.
Definition co_unlink (s : Coop) (t : Z) : Coop := mkCoop (filter (fun x => x <> t) (co_run s)) (co_next s) (co_random s) (fq_unlink (co_queues s) t).
Definition co_set_run (s : Coop) (l : list Z) : Coop := mkCoop l (co_next s) (co_random s) (co_queues s).

(** [PushBack], [PushFront] of the run queue. *)
Definition co_push (s : Coop) (t : Z) (l : list Z) : M (answer * Coop) := _ ← verify_sim (negb (co_linked s t)); Ret (AVoid, co_set_run s l).

Definition co_TryPick (s : Coop) (id : Z) : M (answer * Coop) :=
  if decide (id ∈ co_run s) then Ret (AThread (Some id), co_unlink (mkCoop (co_run s) None (co_random s) (co_queues s)) id) else Stop Panic.
Definition co_PickNext (s : Coop) : M (answer * Coop) :=
  match co_next s with
  | Some id => co_TryPick s id
  | None => Ret (AThread (head (co_run s)), co_set_run s (tail (co_run s)))
  end.

Definition co_RandomNumber (s : Coop) : Z * Coop := let '(st, z) := WyRand_Next (co_random s) in (z, mkCoop (co_run s) (co_next s) st (co_queues s)).

Definition coop_call (e : env) (c : icall) (s : Coop) : M (answer * Coop) :=
  match c with
  | Interrupt t => co_push s t (t :: co_run s)
  | SwitchTo t next => p ← co_push s t (co_run s ++ [t]); Ret (AVoid, mkCoop (co_run p.2) (Some next) (co_random p.2) (co_queues p.2))
  | Yield t | Wake t | Spawn t => co_push s t (co_run s ++ [t])
  | Exit _ | LockFree _ _ | Progress _ | NewIter => Ret (AVoid, s)
  | IsIdle => Ret (ABool (bool_decide (co_run s = [])), s)
  | PickNext => co_PickNext s
  | Remove t => Ret (AVoid, if co_linked s t then co_unlink s t else s)
  | WqRemove q t =>
      _ ← fq_get (co_queues s) q;
      if co_linked s t then Ret (ABool true, co_unlink s t) else Ret (ABool false, s)
  | RandomNumber => let '(z, s) := co_RandomNumber s in Ret (ANum z, s)
  | RandomChoice n => let '(z, s) := co_RandomNumber s in i ← modulo z (Z.of_nat n); Ret (ANum i, s)
  | SpuriousWakeup | SpuriousTryFailure | IsModelChecker => Ret (ABool false, s)
  | _ => p ← fq_call (fun t => bool_decide (t ∈ co_run s)) c (co_queues s); Ret (p.1, mkCoop (co_run s) (co_next s) (co_random s) p.2)
  end.
Definition CoopScheduler : IScheduler := mkScheduler Coop coop_call.
Definition coop_Start (seed : Z) : Coop := mkCoop [] None seed ∅.

Record coop_holds (s : Coop) (a : abs) : Prop := {
  co_nodup : base.NoDup (co_run s);
  co_in : forall x, x ∈ runnable a <-> x ∈ co_run s;
  co_pin : forall n, co_next s = Some n -> n ∈ co_run s /\ pinned a = Some n;
  co_fq : fq_holds (co_queues s) a;
  co_ok : abs_ok a;
}.

(** [Remove] of a thread that waits would unlink it from its wait queue. *)
Definition coop_supports (e : env) (a : abs) (c : icall) : Prop :=
  match c with Remove t => map_Forall (fun _ ts => t ∉ ts) (queues a) | _ => True end.

Definition lawful_result {S} (holds : S -> abs -> Prop) (a : abs) (c : icall) (r : answer * S + stop) : Prop :=
  match r with
  | inl (ans, s') => exists a', abs_step a c ans = Some a' /\ holds s' a'
  | inr st => st = Prune
  end.

Section coop.
Context (s : Coop) (a : abs) (H : coop_holds s a).

Lemma co_new t : abs_new a t -> co_linked s t = false.
Proof using H.
  intros Hn. unfold co_linked. rewrite (fq_not_linked _ _ (co_fq _ _ H)), orb_false_r by done. apply bool_decide_eq_false.
  destruct Hn as (_ & Hr & _). by rewrite (co_in _ _ H) in Hr.
Qed.

Lemma co_push_law t l pin next : abs_new a t -> l ≡ₚ t :: co_run s -> (forall n, next = Some n -> n ∈ l /\ pin = Some n) ->
  co_push s t l = Ret (AVoid, co_set_run s l) /\ coop_holds (mkCoop l next (co_random s) (co_queues s)) (add_runnable a t pin).
Proof using H.
  intros Hn Hp Hpin. unfold co_push. rewrite co_new by done. split; [done|]. pose proof Hn as (_ & Hr & _). rewrite (co_in _ _ H) in Hr. split; simpl.
  - rewrite Hp. constructor; [done|apply (co_nodup _ _ H)].
  - intros x. rewrite Hp, elem_of_union, elem_of_singleton, elem_of_cons, (co_in _ _ H). done.
  - done.
  - apply (co_fq _ _ H).
  - by apply abs_ok_add; [apply (co_ok _ _ H)|].
Qed.

(** Taking a thread out of the run queue. *)
Lemma co_take t l pin next : base.NoDup l -> (forall x, x ∈ l <-> x ∈ co_run s /\ x <> t) -> (forall n, next = Some n -> n ∈ l /\ pin = Some n) ->
  forall qs, fq_holds qs a -> coop_holds (mkCoop l next (co_random s) qs) (mkAbs (runnable a ∖ {[t]}) pin (queues a)).
Proof using H.
  intros Hnd Hin Hpin qs Hq. split; simpl; [done| |done|done|by apply abs_ok_drop, (co_ok _ _ H)].
  intros x. by rewrite Hin, elem_of_difference, elem_of_singleton, (co_in _ _ H).
Qed.

Lemma fq_unlink_nobody t : map_Forall (fun _ ts => t ∉ ts) (queues a) -> fq_holds (fq_unlink (co_queues s) t) a.
Proof using H.
  intros Hn q. unfold fq_unlink. rewrite lookup_fmap. pose proof (co_fq _ _ H q) as Hq. destruct (co_queues s !! q) as [l|], (queues a !! q) as [ts|] eqn:E; try done.
  simpl. destruct Hq as [Hnd Hin]. split; [by apply list.NoDup_filter|]. intros x. rewrite list_elem_of_filter, Hin. split; [tauto|]. intros Hx. split; [|done].
  intros ->. by apply (Hn q ts).
Qed.

Lemma in_filter_ne (l : list Z) t x : x ∈ filter (fun y => y <> t) l <-> x ∈ l /\ x <> t.
Proof. rewrite list_elem_of_filter. tauto. Qed.

Lemma runnable_nobody t : t ∈ runnable a -> map_Forall (fun _ ts => t ∉ ts) (queues a).
Proof using H. intros Ht q ts Hq Hin. by destruct (ao_queue _ (co_ok _ _ H) q ts t Hq Hin). Qed.

Lemma coop_PickNext_law p r : runnable a <> ∅ -> leaf (co_PickNext s) p r -> lawful_result coop_holds a PickNext r.
Proof using H.
  intros Hne Hr. unfold co_PickNext in Hr. destruct (co_next s) as [n|] eqn:En.
  - destruct (co_pin _ _ H n En) as [Hn _]. unfold co_TryPick in Hr. rewrite decide_True in Hr by done. apply leaf_ret_inv in Hr as [_ ->].
    apply (co_in _ _ H) in Hn as Hn'. eexists. simpl. unfold when. rewrite decide_True by done. split; [done|].
    apply co_take; [apply list.NoDup_filter, (co_nodup _ _ H)|intros; apply in_filter_ne|done|]. by apply fq_unlink_nobody, runnable_nobody.
  - apply leaf_ret_inv in Hr as [_ ->]. destruct (co_run s) as [|x l] eqn:El.
    + exfalso. apply Hne. apply set_eq. intros x. rewrite (co_in _ _ H), El. set_solver.
    + eexists. simpl. unfold when. rewrite decide_True by (apply (co_in _ _ H); rewrite El; by left). split; [done|].
      pose proof (co_nodup _ _ H) as Hnd. rewrite El in Hnd. apply list.NoDup_cons in Hnd as [Hx Hnd].
      pose proof (co_take x l None (co_next s) Hnd) as Ht. apply Ht; [|by rewrite En|apply (co_fq _ _ H)].
      intros y. rewrite El, elem_of_cons. split; [|tauto]. intros Hy. split; [by right|]. by intros ->.
Qed.

Lemma coop_add_law t c p r : abs_new a t -> (c = Yield t \/ c = Wake t \/ c = Spawn t) -> leaf (co_push s t (co_run s ++ [t])) p r -> lawful_result coop_holds a c r.
Proof using H.
  intros Hn Hc Hr. assert (P : co_run s ++ [t] ≡ₚ t :: co_run s) by (by rewrite Permutation_app_comm).
  destruct (co_push_law t (co_run s ++ [t]) (pinned a) (co_next s) Hn P) as [E Hh].
  - intros n Hnx. destruct (co_pin _ _ H n Hnx). split; [|done]. apply elem_of_app. by left.
  - rewrite E in Hr. apply leaf_ret_inv in Hr as [_ ->]. eexists. split; [|exact Hh]. by destruct Hc as [-> | [-> | ->]].
Qed.

Lemma coop_unlink_waiter q t ts : queues a !! q = Some ts -> t ∈ ts -> coop_holds (co_unlink s t) (set_queue a q (ts ∖ {[t]})).
Proof using H.
  intros Hq Ht. destruct (ao_queue _ (co_ok _ _ H) q ts t Hq Ht) as [_ Hnr]. rewrite (co_in _ _ H) in Hnr. split; simpl.
  - apply list.NoDup_filter, (co_nodup _ _ H).
  - intros x. rewrite in_filter_ne, (co_in _ _ H). split; [|tauto]. intros Hx. split; [done|]. by intros ->.
  - intros n Hn. destruct (co_pin _ _ H n Hn) as [Hn1 Hn2]. split; [|done]. apply in_filter_ne. split; [done|]. by intros ->.
  - apply (fq_unlink_holds _ a); [apply (co_fq _ _ H)|apply (co_ok _ _ H)|done|done].
  - apply abs_ok_queue; [apply (co_ok _ _ H)|]. intros x [Hx _]%elem_of_difference. right. by exists ts.
Qed.

Lemma coop_same c ans st : abs_step a c ans = Some a -> lawful_result coop_holds a c (inl (ans, mkCoop (co_run s) (co_next s) st (co_queues s))).
Proof using H. intros Ha. exists a. split; [done|]. destruct H. by split. Qed.
End coop.

Lemma coop_law s a e c p r : coop_holds s a -> legal a c -> coop_supports e a c -> leaf (coop_call e c s) p r -> lawful_result coop_holds a c r.
Proof.
  intros H Hl Hs Hr. assert (Hfq : fq_is_call c = true -> (if c is WqRemove _ _ then false else true) = true -> lawful_result coop_holds a c r).
  { intros Hc Hc'. assert (Hr' : leaf (p ← fq_call (fun t => bool_decide (t ∈ co_run s)) c (co_queues s); Ret (p.1, mkCoop (co_run s) (co_next s) (co_random s) p.2)) p r)
      by by destruct c. assert (Hlk : forall t, abs_new a t -> bool_decide (t ∈ co_run s) = false).
    { intros t (_ & Hn & _). apply bool_decide_eq_false. by rewrite (co_in _ _ H) in Hn. }
    apply leaf_bind_inv in Hr' as [(p1 & p2 & [ans qs] & -> & H1 & [-> ->]%leaf_ret_inv)|(st & -> & H1)];
      apply (fq_law _ a (co_fq _ _ H) (co_ok _ _ H)) in H1 as (ans' & qs' & a' & [=] & Ha & Hq & Hrn & Hpn); try done. subst.
    exists a'. split; [done|]. pose proof (abs_ok_step a c ans' a' (co_ok _ _ H) Hl Ha). destruct H. split; simpl; try done; by rewrite ?Hrn, ?Hpn. }
  destruct c; try (by apply Hfq); cbn [coop_call] in Hr; clear Hfq.
  - destruct Hl as [Hn Hp]. assert (Hnx : co_next s = None) by (destruct (co_next s) as [n|] eqn:E; [destruct (co_pin _ _ H n E); congruence|done]).
    destruct (co_push_law s a H t (t :: co_run s) (Some t) (co_next s) Hn) as [E Hh]; [done|by rewrite Hnx|]. rewrite E in Hr. apply leaf_ret_inv in Hr as [_ ->]. eexists. split; [done|]. exact Hh.
  - destruct Hl as (Hn & _ & Hnext). assert (P : co_run s ++ [t] ≡ₚ t :: co_run s) by (by rewrite Permutation_app_comm).
    destruct (co_push_law s a H t (co_run s ++ [t]) (Some next) (Some next) Hn P) as [E Hh].
    + intros n [= <-]. split; [|done]. rewrite P, elem_of_cons. rewrite elem_of_union, elem_of_singleton, (co_in _ _ H) in Hnext. done.
    + rewrite E in Hr. apply leaf_ret_inv in Hr as [_ ->]. eexists. split; [done|]. exact Hh.
  - eapply (coop_add_law s a H t); eauto.
  - eapply (coop_add_law s a H t); eauto.
  - eapply (coop_add_law s a H t); eauto.
  - apply leaf_ret_inv in Hr as [_ ->]. exists a. split; [done|exact H].
  - apply leaf_ret_inv in Hr as [_ ->]. exists a. split; [|exact H]. simpl. unfold when. rewrite decide_True; [done|]. apply bool_decide_ext. apply members_empty. intros x. by rewrite (co_in _ _ H).
  - by eapply coop_PickNext_law.
  - apply leaf_ret_inv in Hr as [_ ->]. eexists. split; [done|]. destruct (co_linked s t) eqn:Ek.
    + apply co_take; [done|apply list.NoDup_filter, (co_nodup _ _ H)|intros; apply in_filter_ne| |by apply fq_unlink_nobody].
      intros n Hn. destruct (co_pin _ _ H n Hn) as [Hn1 Hn2]. split; [|done]. apply in_filter_ne. split; [done|]. intros ->. by apply Hl.
    + destruct s as [run nx rnd qs]. apply (co_take _ a H); [apply (co_nodup _ _ H)| |apply (co_pin _ _ H)|apply (co_fq _ _ H)].
      intros x. simpl. split; [|tauto]. intros Hx. split; [done|]. intros ->. unfold co_linked in Ek. simpl in Ek. by rewrite bool_decide_eq_true_2 in Ek.
  - apply leaf_ret_inv in Hr as [_ ->]. exists a. split; [done|exact H].
  - apply leaf_ret_inv in Hr as [_ ->]. exists a. split; [done|exact H].
  - apply leaf_ret_inv in Hr as [_ ->]. exists a. split; [done|exact H].
  - destruct Hl as (ts & Hq & Ht). destruct (fq_of _ _ (co_fq _ _ H) q ts Hq) as (l & El & _ & _). unfold fq_get in Hr. rewrite El in Hr. cbn [mbind M_bind] in Hr.
    assert (Hk : co_linked s t = true). { unfold co_linked. rewrite (proj2 (fq_linked_spec _ a (co_fq _ _ H) t)) by eauto. apply orb_true_r. }
    rewrite Hk in Hr. apply leaf_ret_inv in Hr as [_ ->]. eexists. split; [simpl; unfold with_queue, when; rewrite Hq; simpl; by rewrite bool_decide_eq_true_2, decide_True|].
    destruct (ao_queue _ (co_ok _ _ H) q ts t Hq Ht) as [_ Hnr]. apply (coop_unlink_waiter s a H q t ts); done.
  - unfold co_RandomNumber in Hr. destruct (WyRand_Next (co_random s)) as [st z] eqn:Ez. cbn beta iota in Hr. apply leaf_ret_inv in Hr as [_ ->]. apply (coop_same s a H). exact (eq_trans (f_equal (fun y => abs_step a RandomNumber (ANum y.2)) (eq_sym Ez)) (abs_random a (co_random s))).
  - unfold co_RandomNumber in Hr. destruct (WyRand_Next (co_random s)) as [st z] eqn:Ez. cbn beta iota in Hr. simpl in Hl. apply modulo_bind_inv in Hr as (i & Hi & [_ ->]%leaf_ret_inv); [|lia]. apply (coop_same s a H). simpl. unfold when. by rewrite decide_True by lia.
  - apply leaf_ret_inv in Hr as [_ ->]. exists a. split; [done|exact H].
  - apply leaf_ret_inv in Hr as [_ ->]. exists a. split; [done|exact H].
  - apply leaf_ret_inv in Hr as [_ ->]. exists a. split; [done|exact H].
Qed.

#[export] Instance coop_lawful : Lawful CoopScheduler := { represents := coop_holds; supports := coop_supports; lawful_call := coop_law }.

Lemma coop_Start_holds seed : coop_holds (coop_Start seed) abs0.
Proof. split; simpl; try done; [apply base.NoDup_nil_2|]. split; simpl; set_solver. Qed.
