(* ===== verification/RandSched.v ===== *)
(** The random scheduler of the simulator:
    src/deps/twist/source/twist/rt/sim/scheduler/random/scheduler.hpp and its [ThreadSet].

    It is lawful (SimSched.v) for programs without lock-free sections, so that its runs can
    be recorded and replayed.  In a lock-free section it may suspend a thread: the thread is
    then neither in the run queue nor anywhere else, and the replay scheduler, which knows
    nothing of suspensions, sees it as runnable (the example at the end). *)

From S2P Require Import Prelude SimSched DfsSched CoopSched.
Local Open Scope Z_scope.

(** ** ThreadSet *)

Record ThreadSet := mkTS { ts_buf : list Z; ts_size : nat }.

Definition ts_new : ThreadSet := mkTS (replicate sim_kMaxThreads 0) 0.
Definition ts_IsEmpty (s : ThreadSet) : bool := bool_decide (ts_size s = O).
Definition ts_IsFull (s : ThreadSet) : bool := bool_decide (ts_size s = sim_kMaxThreads).

Definition ts_Push (s : ThreadSet) (t : Z) : M ThreadSet :=
  _ ← verify_sim (negb (ts_IsFull s));
  l ← sl_set (ts_buf s) (ts_size s) t;
  Ret (mkTS l (S (ts_size s))).

Definition ts_PopAll (s : ThreadSet) : M (option Z * ThreadSet) :=
  match ts_size s with
  | O => Ret (None, s)
  | S n => t ← sl_get (ts_buf s) n; Ret (Some t, mkTS (ts_buf s) n)
  end.

(** [buf_[i] = buf_[size_ - 1]; --size_], for [size_ = n + 1]. *)
Definition ts_swap (s : ThreadSet) (n i : nat) : M ThreadSet :=
  last ← sl_get (ts_buf s) n;
  l ← sl_set (ts_buf s) i last;
  Ret (mkTS l n).

Definition ts_PopRandom (s : ThreadSet) (r : Z) : M (option Z * ThreadSet) :=
  match ts_size s with
  | O => Ret (None, s)
  | S n =>
      let i := Z.to_nat (r mod Z.of_nat (S n)) in
      t ← sl_get (ts_buf s) i;
      s' ← ts_swap s n i;
      Ret (Some t, s')
  end.

(** The loop of [Remove]: [n] iterations from [i]. *)
Fixpoint ts_remove_loop (n : nat) (s : ThreadSet) (i : nat) (t : Z) : M (bool * ThreadSet) :=
  match n with
  | O => Ret (false, s)
  | S n =>
      g ← sl_get (ts_buf s) i;
      if g =? t then s' ← ts_swap s (pred (ts_size s)) i; Ret (true, s') else ts_remove_loop n s (S i) t
  end.
Definition ts_Remove (s : ThreadSet) (t : Z) : M (bool * ThreadSet) := ts_remove_loop (ts_size s) s 0 t.

(** ** The scheduler *)

(** [random::Params]; a [Rational] is a pair. *)
Record RandParams := mkRandParams {
  rn_max_runs : option Z; rn_wakeups : Z * Z; rn_failures : Z * Z; rn_time_slice : Z;
  rn_lock_free : bool; rn_streak_to_resume : Z; rn_suspended_limit : Z;
}.

(** [seed_] and [runs_], which survive from one run to the next. *)
Definition rand_NextSchedule (P : RandParams) (s : Z * Z) : bool * (Z * Z) :=
  let '(seed, runs) := s in
  match rn_max_runs P with
  | Some m => let runs := u64 (runs + 1) in if m <? runs then (false, (seed, runs)) else (true, (HashCombine seed runs, runs))
  | None => (true, (HashCombine seed runs, runs))
  end.

(** [Scheduler]; [rn_sched] holds [sched.f1] and [sched.f2] of the threads, [rn_lf_states] the
    threads whose state the scheduler has set to [LfSuspended]. *)
Record Rand := mkRand {
  rn_random : Z; rn_run : ThreadSet; rn_next : option Z; rn_lf_count : Z; rn_streak : Z; rn_suspended : ThreadSet;
  rn_preempts : Z; rn_sched : gmap Z (Z * Z); rn_queues : gmap Z ThreadSet; rn_lf_states : gset Z;
}.

Definition rand_Start (seed : Z) : Rand := mkRand seed ts_new None 0 0 ts_new 0 ∅ ∅ ∅.

Definition rn_Next (s : Rand) : Z * Rand :=
  let '(st, z) := WyRand_Next (rn_random s) in
  (z, mkRand st (rn_run s) (rn_next s) (rn_lf_count s) (rn_streak s) (rn_suspended s) (rn_preempts s) (rn_sched s) (rn_queues s) (rn_lf_states s)).
Definition rn_set_run (s : Rand) (l : ThreadSet) : Rand :=
  mkRand (rn_random s) l (rn_next s) (rn_lf_count s) (rn_streak s) (rn_suspended s) (rn_preempts s) (rn_sched s) (rn_queues s) (rn_lf_states s).
Definition rn_set_next (s : Rand) (t : option Z) : Rand :=
  mkRand (rn_random s) (rn_run s) t (rn_lf_count s) (rn_streak s) (rn_suspended s) (rn_preempts s) (rn_sched s) (rn_queues s) (rn_lf_states s).
Definition rn_set_lf (s : Rand) (count streak : Z) : Rand :=
  mkRand (rn_random s) (rn_run s) (rn_next s) count streak (rn_suspended s) (rn_preempts s) (rn_sched s) (rn_queues s) (rn_lf_states s).
Definition rn_set_suspended (s : Rand) (l : ThreadSet) (st : gset Z) : Rand :=
  mkRand (rn_random s) (rn_run s) (rn_next s) (rn_lf_count s) (rn_streak s) l (rn_preempts s) (rn_sched s) (rn_queues s) st.
Definition rn_set_preempts (s : Rand) (n : Z) : Rand :=
  mkRand (rn_random s) (rn_run s) (rn_next s) (rn_lf_count s) (rn_streak s) (rn_suspended s) n (rn_sched s) (rn_queues s) (rn_lf_states s).
Definition rn_set_sched (s : Rand) (m : gmap Z (Z * Z)) : Rand :=
  mkRand (rn_random s) (rn_run s) (rn_next s) (rn_lf_count s) (rn_streak s) (rn_suspended s) (rn_preempts s) m (rn_queues s) (rn_lf_states s).
Definition rn_set_queues (s : Rand) (qs : gmap Z ThreadSet) : Rand :=
  mkRand (rn_random s) (rn_run s) (rn_next s) (rn_lf_count s) (rn_streak s) (rn_suspended s) (rn_preempts s) (rn_sched s) qs (rn_lf_states s).

Definition rn_f1 (s : Rand) (t : Z) : Z := (default (0, 0) (rn_sched s !! t)).1.
Definition rn_f2 (s : Rand) (t : Z) : Z := (default (0, 0) (rn_sched s !! t)).2.

Definition rn_push (s : Rand) (t : Z) : M Rand := l ← ts_Push (rn_run s) t; Ret (rn_set_run s l).

Section rand.
Context (P : RandParams).

Definition rn_ToPreempt (e : env) (s : Rand) (active : Z) : bool := preemptive e active && (rn_f1 s active <=? curr_tick e).
Definition rn_Preempt (s : Rand) (active : Z) : M Rand := s ← rn_push s active; Ret (rn_set_preempts s (u64 (rn_preempts s + 1))).

(** The random number is drawn only when everything else allows a suspension. *)
Definition rn_ToLfSuspend (e : env) (s : Rand) (active : Z) : bool * Rand :=
  if negb (rn_lock_free P) then (false, s)
  else if negb (lock_free e active) || negb (preemptive e active) then (false, s)
  else if rn_f2 s active =? 1 then (false, s)
  else if negb (may_suspend e active) then (false, s)
  else if rn_suspended_limit P <=? Z.of_nat (ts_size (rn_suspended s)) then (false, s)
  else if rn_lf_count s <=? 1 + Z.of_nat (ts_size (rn_suspended s)) then (false, s)
  else let '(z, s) := rn_Next s in (z mod 7 =? 0, s).
Definition rn_LfSuspend (s : Rand) (t : Z) : M Rand :=
  l ← ts_Push (rn_suspended s) t;
  Ret (rn_set_suspended (rn_set_sched s (<[t := (rn_f1 s t, 1)]> (rn_sched s))) l ({[t]} ∪ rn_lf_states s)).

Definition rn_Interrupt (e : env) (s : Rand) (active : Z) : M Rand :=
  if rn_ToPreempt e s active then rn_Preempt s active
  else
    let '(suspend, s) := rn_ToLfSuspend e s active in
    if suspend : bool then rn_LfSuspend s active else Ret (rn_set_next s (Some active)).

(** [LfResume()] and [LfResume(t)] *)
Definition rn_LfResume (e : env) (s : Rand) : M Rand :=
  if ts_IsEmpty (rn_suspended s) then Ret s
  else
    let '(z, s) := rn_Next s in
    p ← ts_PopRandom (rn_suspended s) z;
    match p.1 with
    | Some t => _ ← verify_sim (lock_free e t); rn_push (rn_set_suspended s p.2 (rn_lf_states s ∖ {[t]})) t
    | None => Stop Crash
    end.
Definition rn_LfExit (e : env) (s : Rand) : M Rand :=
  _ ← verify_sim (0 <? rn_lf_count s);
  rn_LfResume e (rn_set_lf s (rn_lf_count s - 1) (rn_streak s)).
Definition rn_LockFree (e : env) (s : Rand) (t : Z) (flag : bool) : M Rand :=
  _ ← verify_sim (eqb (lock_free e t) flag);
  if flag then Ret (rn_set_lf s (u64 (rn_lf_count s + 1)) (rn_streak s)) else rn_LfExit e s.
Definition rn_LfProgress (e : env) (s : Rand) (t : Z) : M Rand :=
  let s := rn_set_sched s (<[t := (rn_f1 s t, 0)]> (rn_sched s)) in
  let s := rn_set_lf s (rn_lf_count s) (u64 (rn_streak s + 1)) in
  if rn_streak_to_resume P <=? rn_streak s then s ← rn_LfResume e s; Ret (rn_set_lf s (rn_lf_count s) 0) else Ret s.

Definition rn_PickNextFromRunQueue (e : env) (s : Rand) : M (answer * Rand) :=
  let '(z, s) := rn_Next s in
  p ← ts_PopRandom (rn_run s) z;
  match p.1 with
  | None => Stop Crash
  | Some next =>
      let s := rn_set_run s p.2 in
      let '(z, s) := rn_Next s in
      slice ← modulo z (rn_time_slice P);
      Ret (AThread (Some next), rn_set_sched s (<[next := (u64 (curr_tick e + slice), rn_f2 s next)]> (rn_sched s)))
  end.
Definition rn_PickNext (e : env) (s : Rand) : M (answer * Rand) :=
  match rn_next s with
  | Some t => Ret (AThread (Some t), rn_set_next s None)
  | None => rn_PickNextFromRunQueue e s
  end.

Definition rn_Spurious (s : Rand) (p : Z * Z) : M (answer * Rand) :=
  let '(z, s) := rn_Next s in i ← modulo z p.2; Ret (ABool (i <? p.1), s).

Definition rn_on_queue {A} (s : Rand) (q : Z) (f : ThreadSet -> M (A * ThreadSet)) : M (A * Rand) :=
  match rn_queues s !! q with
  | Some w => p ← f w; Ret (p.1, rn_set_queues s (<[q := p.2]> (rn_queues s)))
  | None => Stop Crash
  end.

Definition rand_call (e : env) (c : icall) (s : Rand) : M (answer * Rand) :=
  match c with
  | Interrupt t => s ← rn_Interrupt e s t; Ret (AVoid, s)
  | SwitchTo _ _ => Stop Panic
  | Yield t | Wake t => s ← rn_push s t; Ret (AVoid, s)
  | Spawn t => s ← rn_push (rn_set_sched s (<[t := (0, 0)]> (rn_sched s))) t; Ret (AVoid, s)
  | Exit t => _ ← verify_sim (negb (lock_free e t)); Ret (AVoid, s)
  | IsIdle => Ret (ABool (ts_IsEmpty (rn_run s) && bool_decide (rn_next s = None)), s)
  | PickNext => rn_PickNext e s
  | Remove t =>
      p ← ts_Remove (rn_run s) t;
      q ← ts_Remove (rn_suspended s) t;
      Ret (AVoid, rn_set_suspended (rn_set_run s p.2) q.2 (rn_lf_states s))
  | LockFree t flag => s ← rn_LockFree e s t flag; Ret (AVoid, s)
  | Progress t => s ← (if lock_free e t then rn_LfProgress e s t else Ret s); Ret (AVoid, s)
  | NewIter => Ret (AVoid, s)
  | NewWaitQueue q => Ret (AVoid, rn_set_queues s (<[q := ts_new]> (rn_queues s)))
  | WqIsEmpty q => rn_on_queue s q (fun w => Ret (ABool (ts_IsEmpty w), w))
  | WqPush q t => rn_on_queue s q (fun w => w ← ts_Push w t; Ret (AVoid, w))
  | WqPop q => let '(z, s) := rn_Next s in rn_on_queue s q (fun w => p ← ts_PopRandom w z; Ret (AThread p.1, p.2))
  | WqPopAll q => rn_on_queue s q (fun w => p ← ts_PopAll w; Ret (AThread p.1, p.2))
  | WqRemove q t => rn_on_queue s q (fun w => p ← ts_Remove w t; Ret (ABool p.1, p.2))
  | RandomNumber => let '(z, s) := rn_Next s in Ret (ANum z, s)
  | RandomChoice n => let '(z, s) := rn_Next s in i ← modulo z (Z.of_nat n); Ret (ANum i, s)
  | SpuriousWakeup => rn_Spurious s (rn_wakeups P)
  | SpuriousTryFailure => rn_Spurious s (rn_failures P)
  | IsModelChecker => Ret (ABool false, s)
  end.
Definition RandomScheduler : IScheduler := mkScheduler Rand rand_call.
End rand.

(** ** ThreadSet holds a set *)

Definition ts_list (s : ThreadSet) : list Z := take (ts_size s) (ts_buf s).
Definition ts_ok (s : ThreadSet) : Prop := (ts_size s <= sim_kMaxThreads)%nat /\ length (ts_buf s) = sim_kMaxThreads.
Definition ts_holds (s : ThreadSet) (ts : gset Z) : Prop := ts_ok s /\ base.NoDup (ts_list s) /\ forall x, x ∈ ts_list s <-> x ∈ ts.

Lemma ts_new_holds : ts_holds ts_new ∅.
Proof. split; [split; simpl; [lia|done]|]. split; [apply base.NoDup_nil_2|]. intros x. unfold ts_list. simpl. set_solver. Qed.

Lemma ts_length s : ts_ok s -> length (ts_list s) = ts_size s.
Proof. intros [? ?]. unfold ts_list. rewrite length_take. lia. Qed.

Lemma ts_IsEmpty_ok s ts : ts_holds s ts -> ts_IsEmpty s = bool_decide (ts = ∅).
Proof.
  intros (Hok & _ & Hin). unfold ts_IsEmpty. apply bool_decide_ext. rewrite <- (members_empty _ _ Hin), <- (ts_length s Hok). apply length_zero_iff_nil.
Qed.

Lemma ts_small s ts t : ts_holds s ts -> (forall x, x ∈ {[t]} ∪ ts -> 1 <= x <= Z.of_nat sim_kMaxThreads) -> t ∉ ts -> (ts_size s < sim_kMaxThreads)%nat.
Proof.
  intros (Hok & Hnd & Hin) Hr Ht. assert (Hsub : t :: ts_list s ⊆+ seqZ 1 16).
  { apply NoDup_submseteq; [constructor; [by rewrite Hin|done]|]. intros x Hx. apply elem_of_seqZ. assert (Hx' : x ∈ {[t]} ∪ ts).
    { rewrite elem_of_union, elem_of_singleton. apply elem_of_cons in Hx as [->|Hx]; [by left|right; by apply Hin]. }
    apply Hr in Hx'. unfold sim_kMaxThreads in Hx'. lia. }
  apply submseteq_length in Hsub. rewrite length_seqZ in Hsub. simpl in Hsub. rewrite (ts_length s Hok) in Hsub. unfold sim_kMaxThreads. lia.
Qed.

Lemma ts_Push_ok s ts t : ts_holds s ts -> (forall x, x ∈ {[t]} ∪ ts -> 1 <= x <= Z.of_nat sim_kMaxThreads) -> t ∉ ts ->
  exists s', ts_Push s t = Ret s' /\ ts_holds s' ({[t]} ∪ ts).
Proof.
  intros H Hr Ht. pose proof (ts_small s ts t H Hr Ht) as Hlt. destruct H as ([Hs Hlen] & Hnd & Hin). unfold ts_Push, ts_IsFull, sl_set.
  rewrite bool_decide_eq_false_2 by lia. simpl. rewrite decide_True by lia. simpl. eexists. split; [done|]. split; [split; simpl; [lia|by rewrite length_insert]|].
  assert (E : ts_list (mkTS (<[ts_size s := t]> (ts_buf s)) (S (ts_size s))) = ts_list s ++ [t]).
  { unfold ts_list. simpl. rewrite (take_S_r _ _ t) by (apply list_lookup_insert_eq; lia). by rewrite take_insert_ge by lia. }
  rewrite E. split.
  - apply list.NoDup_app. split; [done|]. split; [|apply NoDup_singleton]. intros x Hx ->%list_elem_of_singleton. by apply Ht, Hin.
  - intros x. rewrite elem_of_app, list_elem_of_singleton, elem_of_union, elem_of_singleton, Hin. tauto.
Qed.

Lemma snoc_insert (l : list Z) i t x : l !! i = Some t -> l ++ [x] ≡ₚ t :: <[i := x]> l.
Proof.
  intros Hi. rewrite (insert_take_drop l i x) by (by eapply lookup_lt_Some). transitivity ((take i l ++ t :: drop (S i) l) ++ [x]); [by rewrite take_drop_middle|].
  rewrite <- !Permutation_middle, app_comm_cons, Permutation_app_comm. simpl. constructor.
Qed.

(** Filling the hole with the last element. *)
Lemma ts_swap_ok s n i t : ts_ok s -> ts_size s = S n -> (i < S n)%nat -> ts_buf s !! i = Some t ->
  exists s', ts_swap s n i = Ret s' /\ ts_ok s' /\ ts_list s ≡ₚ t :: ts_list s'.
Proof.
  intros [Hs Hlen] Hn Hi Ht. destruct (lookup_lt_is_Some_2 (ts_buf s) n) as [x Hx]; [lia|]. unfold ts_swap, sl_get, sl_set. rewrite Hx. simpl.
  rewrite decide_True by lia. simpl. eexists. split; [done|]. split; [split; simpl; [lia|by rewrite length_insert]|].
  unfold ts_list. simpl. rewrite Hn, (take_S_r _ _ x Hx). destruct (decide (i = n)) as [->|Hne].
  - rewrite Hx in Ht. injection Ht as ->. rewrite take_insert_ge by lia. by rewrite Permutation_app_comm.
  - assert (Hi' : take n (ts_buf s) !! i = Some t) by (rewrite lookup_take_lt by lia; done). rewrite take_insert_lt by lia.
    by apply snoc_insert.
Qed.

Lemma ts_holds_drop s s' ts t : ts_holds s ts -> ts_ok s' -> ts_list s ≡ₚ t :: ts_list s' -> t ∈ ts /\ ts_holds s' (ts ∖ {[t]}).
Proof.
  intros (_ & Hnd & Hin) Hok Hp. rewrite Hp in Hnd. apply list.NoDup_cons in Hnd as [Ht Hnd]. split; [apply Hin; rewrite Hp; by left|].
  split; [done|]. split; [done|]. intros x. rewrite elem_of_difference, elem_of_singleton, <- Hin, Hp, elem_of_cons. split; [|tauto]. intros Hx. split; [by right|]. by intros ->.
Qed.

Definition ts_popped (ts : gset Z) (w : option Z) (s' : ThreadSet) : Prop :=
  match w with Some t => t ∈ ts /\ ts_holds s' (ts ∖ {[t]}) | None => ts = ∅ /\ ts_holds s' ts end.

Lemma ts_empty s ts : ts_holds s ts -> ts_size s = O -> ts = ∅.
Proof. intros H E. pose proof (ts_IsEmpty_ok s ts H) as He. unfold ts_IsEmpty in He. rewrite bool_decide_eq_true_2 in He by done. symmetry in He. by apply bool_decide_eq_true in He. Qed.

Lemma ts_PopRandom_ok s ts r : ts_holds s ts -> exists w s', ts_PopRandom s r = Ret (w, s') /\ ts_popped ts w s'.
Proof.
  intros H. pose proof H as (Hok & _). unfold ts_PopRandom. destruct (ts_size s) as [|n] eqn:En; [exists None, s; split; [done|]; split; [by eapply ts_empty|done]|].
  assert (Hi : (Z.to_nat (r mod Z.of_nat (S n)) < S n)%nat) by (pose proof (Z.mod_pos_bound r (Z.of_nat (S n))); lia).
  pose proof Hok as [Hs Hlen]. destruct (lookup_lt_is_Some_2 (ts_buf s) (Z.to_nat (r mod Z.of_nat (S n)))) as [t Ht]; [lia|].
  destruct (ts_swap_ok s n _ t Hok En Hi Ht) as (s' & E & Hok' & Hp). unfold sl_get. rewrite Ht. cbn [mbind M_bind]. rewrite E. exists (Some t), s'. split; [done|]. by eapply ts_holds_drop.
Qed.

Lemma ts_PopAll_ok s ts : ts_holds s ts -> exists w s', ts_PopAll s = Ret (w, s') /\ ts_popped ts w s'.
Proof.
  intros H. pose proof H as ([Hs Hlen] & _). unfold ts_PopAll. destruct (ts_size s) as [|n] eqn:En; [exists None, s; split; [done|]; split; [by eapply ts_empty|done]|].
  destruct (lookup_lt_is_Some_2 (ts_buf s) n) as [t Ht]; [lia|]. unfold sl_get. rewrite Ht. eexists _, _. split; [done|].
  eapply ts_holds_drop; [done|split; simpl; lia|]. unfold ts_list. simpl. rewrite En, (take_S_r _ _ t Ht). by rewrite Permutation_app_comm.
Qed.

Lemma ts_remove_loop_ok s ts t n i : ts_holds s ts -> (i + n = ts_size s)%nat -> (forall j, (j < i)%nat -> ts_buf s !! j <> Some t) ->
  exists s', ts_remove_loop n s i t = Ret (bool_decide (t ∈ ts), s') /\ ts_holds s' (ts ∖ {[t]}).
Proof.
  intros H. pose proof H as (Hok & Hnd & Hin). pose proof Hok as [Hs Hlen]. revert i. induction n as [|n IH]; intros i Hi Hn; simpl.
  - assert (Ht : t ∉ ts).
    { rewrite <- Hin. intros [j Hj]%list_elem_of_lookup. apply lookup_take_Some in Hj as [Hj Hlt]. by apply (Hn j); [lia|]. }
    rewrite bool_decide_eq_false_2 by done. exists s. split; [done|]. by replace (ts ∖ {[t]}) with ts by set_solver.
  - destruct (lookup_lt_is_Some_2 (ts_buf s) i) as [g Hg]; [lia|]. unfold sl_get. rewrite Hg. cbn [mbind M_bind]. destruct (Z.eqb_spec g t) as [->|Hne].
    + destruct (ts_swap_ok s (pred (ts_size s)) i t Hok) as (s' & E & Hok' & Hp); [lia|lia|done|]. rewrite E. destruct (ts_holds_drop s s' ts t H Hok' Hp) as [Ht Hs'].
      rewrite bool_decide_eq_true_2 by done. by exists s'.
    + apply IH; [lia|]. intros j Hj. destruct (decide (j = i)) as [->|]; [congruence|]. apply Hn. lia.
Qed.

(** Whatever is removed, the set without it remains. *)
Lemma ts_Remove_ok s ts t : ts_holds s ts -> exists s', ts_Remove s t = Ret (bool_decide (t ∈ ts), s') /\ ts_holds s' (ts ∖ {[t]}).
Proof. intros H. apply ts_remove_loop_ok; [done|lia|]. lia. Qed.

(** ** The scheduler is lawful *)

Record rand_holds (s : Rand) (a : abs) : Prop := {
  rh_run : exists ts, ts_holds (rn_run s) ts /\ (forall x, x ∈ runnable a <-> x ∈ ts \/ rn_next s = Some x) /\ (forall x, rn_next s = Some x -> x ∉ ts /\ pinned a = Some x);
  rh_suspended : ts_holds (rn_suspended s) ∅;
  rh_queues : forall q, match rn_queues s !! q, queues a !! q with Some w, Some ts => ts_holds w ts | None, None => True | _, _ => False end;
  rh_ok : abs_ok a;
}.

(** No lock-free sections. *)
Definition rand_supports (e : env) (a : abs) (c : icall) : Prop :=
  match c with
  | SwitchTo _ _ | LockFree _ _ => False
  | Interrupt t | Exit t => lock_free e t = false
  | _ => True
  end.

Definition rand_params_ok (P : RandParams) : Prop := 0 < rn_time_slice P /\ 0 < (rn_wakeups P).2 /\ 0 < (rn_failures P).2.

(** A call that returns, with an answer that the specification allows. *)
Definition answers_ok (a : abs) (c : icall) (m : M (answer * Rand)) : Prop :=
  exists ans s' a', m = Ret (ans, s') /\ abs_step a c ans = Some a' /\ rand_holds s' a'.

Section law.
Context (P : RandParams) (s : Rand) (a : abs) (H : rand_holds s a).

Lemma rand_done c ans s' a' : legal a c -> abs_step a c ans = Some a' ->
  (exists ts, ts_holds (rn_run s') ts /\ (forall x, x ∈ runnable a' <-> x ∈ ts \/ rn_next s' = Some x) /\ (forall x, rn_next s' = Some x -> x ∉ ts /\ pinned a' = Some x)) ->
  rn_suspended s' = rn_suspended s ->
  (forall q, match rn_queues s' !! q, queues a' !! q with Some w, Some ts => ts_holds w ts | None, None => True | _, _ => False end) ->
  answers_ok a c (Ret (ans, s')).
Proof using H.
  intros Hl Ha Hr Hsu Hq. exists ans, s', a'. split; [done|]. split; [done|]. split; [done| |done|].
  - rewrite Hsu. apply (rh_suspended _ _ H).
  - eapply abs_ok_step; [apply (rh_ok _ _ H)|done|done].
Qed.

(** Nothing that the specification sees has changed. *)
Lemma rand_same c ans s' : legal a c -> abs_step a c ans = Some a -> rn_run s' = rn_run s -> rn_next s' = rn_next s -> rn_suspended s' = rn_suspended s ->
  rn_queues s' = rn_queues s -> answers_ok a c (Ret (ans, s')).
Proof using H. intros Hl Ha E1 E2 E3 E4. eapply rand_done; rewrite ?E1, ?E2, ?E4; [done|done|apply (rh_run _ _ H)|done|apply (rh_queues _ _ H)]. Qed.

Lemma rand_push t s' : abs_new a t -> rn_run s' = rn_run s -> exists l ts, rn_push s' t = Ret (rn_set_run s' l) /\ ts_holds l ({[t]} ∪ ts) /\
  (forall x, x ∈ runnable a <-> x ∈ ts \/ rn_next s = Some x) /\ (forall x, rn_next s = Some x -> x ∉ {[t]} ∪ ts /\ pinned a = Some x).
Proof using H.
  intros (Ht & Hn & _) E. destruct (rh_run _ _ H) as (ts & Hts & Hin & Hnx). rewrite Hin in Hn.
  destruct (ts_Push_ok (rn_run s') ts t) as (l & El & Hl); [by rewrite E| |tauto|].
  { intros x [->%elem_of_singleton|Hx]%elem_of_union; [done|]. apply (ao_runnable _ (rh_ok _ _ H)), Hin. by left. }
  unfold rn_push. rewrite El. exists l, ts. split; [done|]. split; [done|]. split; [done|]. intros x Hx. destruct (Hnx x Hx). split; [|done].
  rewrite elem_of_union, elem_of_singleton. intros [->|?]; [tauto|done].
Qed.

Lemma rand_add t c s' : abs_new a t -> (c = Yield t \/ c = Wake t \/ c = Spawn t) -> rn_run s' = rn_run s -> rn_next s' = rn_next s -> rn_suspended s' = rn_suspended s ->
  rn_queues s' = rn_queues s -> answers_ok a c (s ← rn_push s' t; Ret (AVoid, s)).
Proof using H.
  intros Hn Hc E1 E2 E3 E4. destruct (rand_push t s' Hn E1) as (l & ts & -> & Hl & Hin & Hnx). simpl.
  apply (rand_done c AVoid _ (add_runnable a t (pinned a))); [destruct Hc as [-> | [-> | ->]]; done|destruct Hc as [-> | [-> | ->]]; done| |done|].
  - exists ({[t]} ∪ ts). simpl. rewrite E2. split; [done|]. split; [|done]. intros x. rewrite !elem_of_union, Hin. tauto.
  - simpl. rewrite E4. apply (rh_queues _ _ H).
Qed.

Lemma rand_Interrupt e t : legal a (Interrupt t) -> lock_free e t = false -> answers_ok a (Interrupt t) (s ← rn_Interrupt P e s t; Ret (AVoid, s)).
Proof using H.
  intros Hl Hlf. pose proof Hl as [Hn Hp]. assert (Hnone : rn_next s = None).
  { destruct (rh_run _ _ H) as (ts & _ & _ & Hnx). destruct (rn_next s) as [x|]; [|done]. destruct (Hnx x eq_refl). congruence. }
  unfold rn_Interrupt. destruct (rn_ToPreempt e s t).
  - unfold rn_Preempt. destruct (rand_push t s Hn eq_refl) as (l & ts & -> & Hts & Hin & Hnx).
    apply (rand_done (Interrupt t) AVoid _ (add_runnable a t (Some t)) Hl eq_refl); [|done|apply (rh_queues _ _ H)].
    exists ({[t]} ∪ ts). split; [done|]. simpl. rewrite Hnone. split; [|done]. intros x. rewrite !elem_of_union, Hin, Hnone. tauto.
  - assert (E : rn_ToLfSuspend P e s t = (false, s)) by (unfold rn_ToLfSuspend; rewrite Hlf; by destruct (rn_lock_free P)). rewrite E.
    destruct (rh_run _ _ H) as (ts & Hts & Hin & _). destruct Hn as (_ & Hn & _). rewrite Hin in Hn.
    apply (rand_done (Interrupt t) AVoid _ (add_runnable a t (Some t)) Hl eq_refl); [|done|apply (rh_queues _ _ H)].
    exists ts. split; [done|]. simpl. split.
    + intros x. rewrite elem_of_union, elem_of_singleton, Hin, Hnone. naive_solver.
    + intros x [= <-]. tauto.
Qed.

Lemma rand_PickNext e : rand_params_ok P -> runnable a <> ∅ -> answers_ok a PickNext (rn_PickNext P e s).
Proof using H.
  intros HP Hne. destruct (rh_run _ _ H) as (ts & Hts & Hin & Hnx). unfold rn_PickNext. destruct (rn_next s) as [t|] eqn:En.
  - destruct (Hnx t eq_refl) as [Ht _]. apply (rand_done PickNext _ _ (mkAbs (runnable a ∖ {[t]}) None (queues a)) Hne).
    + simpl. unfold when. rewrite decide_True; [done|]. apply Hin. by right.
    + exists ts. split; [done|]. split; [|done]. intros x. simpl. rewrite elem_of_difference, elem_of_singleton, Hin. naive_solver.
    + done.
    + apply (rh_queues _ _ H).
  - unfold rn_PickNextFromRunQueue, rn_Next. destruct (WyRand_Next (rn_random s)) as [st z]. cbn [rn_run rn_random rn_set_run]. destruct (ts_PopRandom_ok (rn_run s) ts z Hts) as (w & l & -> & Hw). simpl.
    destruct w as [t|]; simpl in *; [|exfalso; apply Hne, set_eq; intros x; rewrite Hin; destruct Hw as [-> _]; set_solver]. destruct Hw as [Ht Hl].
    destruct (WyRand_Next st) as [st' z']. unfold modulo. rewrite decide_False by (destruct HP; lia). simpl.
    apply (rand_done PickNext _ _ (mkAbs (runnable a ∖ {[t]}) None (queues a)) Hne).
    + simpl. unfold when. rewrite decide_True; [done|]. apply Hin. by left.
    + exists (ts ∖ {[t]}). split; [done|]. simpl. rewrite En. split; [|done]. intros x. rewrite !elem_of_difference, Hin. naive_solver.
    + done.
    + apply (rh_queues _ _ H).
Qed.

Lemma rand_on_queue {c} q ts ts' ans s' f : queues a !! q = Some ts -> legal a c ->
  rn_run s' = rn_run s -> rn_next s' = rn_next s -> rn_suspended s' = rn_suspended s -> rn_queues s' = rn_queues s ->
  (forall w, ts_holds w ts -> exists w', f w = Ret (ans, w') /\ abs_step a c ans = Some (set_queue a q ts') /\ ts_holds w' ts') -> answers_ok a c (rn_on_queue s' q f).
Proof using H.
  intros Hq Hl E1 E2 E3 E4 Hf. unfold rn_on_queue. rewrite E4. pose proof (rh_queues _ _ H q) as Hw. rewrite Hq in Hw. destruct (rn_queues s !! q) as [w|] eqn:Ew; [|done].
  destruct (Hf w Hw) as (w' & -> & Ha & Hw'). simpl. eapply rand_done; [done|done| |done|].
  - simpl. rewrite E1, E2. apply (rh_run _ _ H).
  - intros q'. cbn [rn_queues rn_set_queues queues set_queue]. destruct (decide (q' = q)) as [->|Hne]; [by rewrite !lookup_insert_eq|]. rewrite !lookup_insert_ne by done. apply (rh_queues _ _ H).
Qed.

(** Popping, with the answer that depends on what the queue holds. *)
Lemma rand_pop c q s' (f : ThreadSet -> M (option Z * ThreadSet)) : (c = WqPop q \/ c = WqPopAll q) -> legal a c ->
  rn_run s' = rn_run s -> rn_next s' = rn_next s -> rn_suspended s' = rn_suspended s -> rn_queues s' = rn_queues s ->
  (forall w ts, ts_holds w ts -> exists t w', f w = Ret (t, w') /\ ts_popped ts t w') ->
  answers_ok a c (rn_on_queue s' q (fun w => p ← f w; Ret (AThread p.1, p.2))).
Proof using H.
  intros Hc Hl E1 E2 E3 E4 Hf. assert (Hq : exists ts, queues a !! q = Some ts) by (destruct Hc as [-> | ->]; exact Hl). destruct Hq as [ts Hq].
  unfold rn_on_queue. rewrite E4. pose proof (rh_queues _ _ H q) as Hw. rewrite Hq in Hw. destruct (rn_queues s !! q) as [w|] eqn:Ew; [|done].
  destruct (Hf w ts Hw) as (t & w' & Ef & Hp). rewrite Ef.
  assert (Ha : abs_step a c (AThread t) = Some (set_queue a q (match t with Some x => ts ∖ {[x]} | None => ts end))).
  { destruct t as [x|], Hp as [Hx _], Hc as [-> | ->]; simpl; unfold with_queue, when; rewrite Hq; simpl; (rewrite decide_True by done); rewrite ?set_queue_id by done; done. }
  eapply rand_done; [done|exact Ha| |done|].
  - simpl. rewrite E1, E2. apply (rh_run _ _ H).
  - intros q'. cbn [rn_queues rn_set_queues queues set_queue]. destruct (decide (q' = q)) as [->|Hne]; [rewrite !lookup_insert_eq; by destruct t, Hp|].
    rewrite !lookup_insert_ne by done. apply (rh_queues _ _ H).
Qed.

Lemma rand_Spurious c p : 0 < p.2 -> legal a c -> (forall b, abs_step a c (ABool b) = Some a) -> answers_ok a c (rn_Spurious s p).
Proof using H.
  intros Hp Hl Ha. unfold rn_Spurious, rn_Next. destruct (WyRand_Next (rn_random s)) as [st z]. unfold modulo. rewrite decide_False by lia. by eapply rand_same.
Qed.

Lemma rand_Remove t : legal a (Remove t) ->
  answers_ok a (Remove t) (p ← ts_Remove (rn_run s) t; q ← ts_Remove (rn_suspended s) t; Ret (AVoid, rn_set_suspended (rn_set_run s p.2) q.2 (rn_lf_states s))).
Proof using H.
  intros Hl. destruct (rh_run _ _ H) as (ts & Hts & Hin & Hnx). destruct (ts_Remove_ok (rn_run s) ts t Hts) as (l & -> & Hts').
  destruct (ts_Remove_ok (rn_suspended s) ∅ t (rh_suspended _ _ H)) as (l2 & -> & Hs2). replace (∅ ∖ {[t]}) with (∅ : gset Z) in Hs2 by set_solver.
  exists AVoid, (rn_set_suspended (rn_set_run s l) l2 (rn_lf_states s)), (mkAbs (runnable a ∖ {[t]}) (pinned a) (queues a)).
  split; [done|]. split; [done|]. split; [|done|apply (rh_queues _ _ H)|by apply abs_ok_drop, (rh_ok _ _ H)].
  exists (ts ∖ {[t]}). split; [done|]. simpl. simpl in Hl. split.
  - intros x. rewrite !elem_of_difference, elem_of_singleton, Hin. split; [tauto|]. intros [?|Hx]; [tauto|]. destruct (Hnx x Hx). split; [by right|]. by intros ->.
  - intros x Hx. destruct (Hnx x Hx). split; [set_solver|done].
Qed.

Lemma rand_Progress e t : answers_ok a (Progress t) (s ← (if lock_free e t then rn_LfProgress P e s t else Ret s); Ret (AVoid, s)).
Proof using H.
  destruct (lock_free e t); [|by eapply rand_same]. unfold rn_LfProgress. cbv zeta.
  destruct (rn_streak_to_resume P <=? _); [|by eapply rand_same]. unfold rn_LfResume.
  pose proof (ts_IsEmpty_ok _ _ (rh_suspended _ _ H)) as E. rewrite bool_decide_eq_true_2 in E by done. cbn [rn_suspended rn_set_lf rn_set_sched].
  rewrite E. by eapply rand_same.
Qed.
End law.

Lemma rand_law P s a e c p r : rand_params_ok P -> rand_holds s a -> legal a c -> rand_supports e a c -> leaf (rand_call P e c s) p r -> lawful_result rand_holds a c r.
Proof.
  intros HP H Hl Hs Hr. assert (Hok : answers_ok a c (rand_call P e c s)).
  2:{ destruct Hok as (ans & s' & a' & E & Ha & Hs'). rewrite E in Hr. apply leaf_ret_inv in Hr as [_ ->]. by exists a'. }
  clear Hr. destruct c; cbn [rand_call]; simpl in Hs; try done.
  - by apply rand_Interrupt.
  - eapply rand_add; eauto.
  - eapply rand_add; eauto.
  - eapply rand_add; eauto.
  - rewrite Hs. by eapply rand_same.
  - eapply rand_same; try done. destruct (rh_run _ _ H) as (ts & Hts & Hin & _). rewrite (ts_IsEmpty_ok _ _ Hts). simpl. unfold when. rewrite decide_True; [done|].
    destruct (rn_next s) as [t|].
    + rewrite andb_false_r. symmetry. apply bool_decide_eq_false. intros E. apply (not_elem_of_empty (C := gset Z) t). rewrite <- E. apply Hin. by right.
    + rewrite andb_true_r. apply bool_decide_ext. split; intros E; apply set_eq; intros x; specialize (Hin x); rewrite E in Hin; naive_solver.
  - by apply rand_PickNext.
  - by apply rand_Remove.
  - by apply rand_Progress.
  - by eapply rand_same.
  - eapply rand_done; [done|done|done|apply (rh_run _ _ H)|done|]. intros q'. simpl.
    destruct (decide (q' = q)) as [->|Hne]; [rewrite !lookup_insert_eq; apply ts_new_holds|]. rewrite !lookup_insert_ne by done. apply (rh_queues _ _ H).
  - destruct Hl as [ts Hq]. eapply rand_on_queue; [done|exact Hq|by exists ts|done|done|done|done|]. intros w Hw. rewrite (ts_IsEmpty_ok _ _ Hw). exists w. split; [done|]. split; [|done].
    simpl. unfold with_queue, when. rewrite Hq. simpl. rewrite set_queue_id by done. by rewrite decide_True.
  - destruct Hl as [Hn [ts Hq]]. eapply rand_on_queue; [done|exact Hq|by split; [|exists ts]|done|done|done|done|]. intros w Hw.
    destruct (ts_Push_ok w ts t Hw) as (w' & E & Hw').
    + intros x [->%elem_of_singleton|Hx]%elem_of_union; [apply Hn|]. by apply (ao_queue _ (rh_ok _ _ H) q ts).
    + destruct Hn as (_ & _ & Hn). by apply (Hn q ts).
    + rewrite E. exists w'. split; [done|]. split; [|done]. simpl. unfold with_queue. by rewrite Hq.
  - unfold rn_Next. destruct (WyRand_Next (rn_random s)) as [st z]. apply (rand_pop s a H); auto. intros. by apply ts_PopRandom_ok.
  - apply (rand_pop s a H); auto. intros. by apply ts_PopAll_ok.
  - destruct Hl as (ts & Hq & Ht). eapply rand_on_queue; [done|exact Hq|by exists ts|done|done|done|done|]. intros w Hw.
    destruct (ts_Remove_ok w ts t Hw) as (w' & -> & Hw'). exists w'. cbn. split; [done|]. split; [|done]. unfold with_queue, when. rewrite Hq. simpl. by rewrite decide_True.
  - unfold rn_Next. pose proof (abs_random a (rn_random s)) as Ha. destruct (WyRand_Next (rn_random s)) as [st z]. by eapply rand_same.
  - unfold rn_Next. destruct (WyRand_Next (rn_random s)) as [st z]. simpl in Hl. unfold modulo. rewrite decide_False by lia. eapply rand_same; try done.
    simpl. unfold when. rewrite decide_True; [done|]. apply Z.mod_pos_bound. lia.
  - apply rand_Spurious; try done. apply HP.
  - apply rand_Spurious; try done. apply HP.
  - by eapply rand_same.
Qed.

Lemma rand_lawful P : rand_params_ok P -> Lawful (RandomScheduler P).
Proof. intros HP. exact {| represents := rand_holds : sched_state (RandomScheduler P) -> abs -> Prop; supports := rand_supports; lawful_call s a e c p r := rand_law P s a e c p r HP |}. Defined.

Lemma rand_Start_holds seed : rand_holds (rand_Start seed) abs0.
Proof.
  split; simpl; [|apply ts_new_holds|done|split; simpl; set_solver]. exists ∅. split; [apply ts_new_holds|]. split; [set_solver|done].
Qed.

(** ** Replaying

    Runs of a program without lock-free sections are replayed. *)

Theorem rand_record_replay P seed (C : client) budget p hist s' : rand_params_ok P -> client_ok rand_supports C abs0 -> (forall h e, C h <> Some (e, IsModelChecker)) ->
  leaf (simulate (RandomScheduler P) budget C [] (rand_Start seed)) p (inl (hist, s')) ->
  exists schedule rs, leaf (simulate (Recorder (RandomScheduler P)) budget C [] (rand_Start seed, [])) p (inl (hist, (s', schedule))) /\
    simulate ReplayScheduler budget C [] (replay_new schedule) = Ret (hist, rs).
Proof.
  intros HP Hok Hm Hr.
  destruct (@record_replay (RandomScheduler P) (rand_lawful P HP) C abs0 budget [] (rand_Start seed) abs0 [] p hist s' Hok (fun h a e _ => Hm h e) (rand_Start_holds seed) (abs_reach_nil _ _) Hr)
    as (ds & a' & R1 & R2). exists ds, (replay_at ds ds a'). split; [done|]. by apply R2.
Qed.

(** With a lock-free section they are not.  Threads 1 and 2 are in lock-free sections; thread 1
    is suspended, and thread 2 blocks.  The random scheduler says it is idle; the replay
    scheduler has thread 1 in its run queue. *)
Definition lf_env (l : list Z) : env := mkEnv (fun _ => true) (fun t => bool_decide (t ∈ l)) (fun _ => true) 0.
Definition suspends : client := fun hist =>
  match hist with
  | [] => Some (lf_env [], Spawn 1)
  | [_] => Some (lf_env [], Spawn 2)
  | [_; _] => Some (lf_env [], PickNext)
  | [_; _; AThread (Some 2)] => Some (lf_env [2], LockFree 2 true)
  | [_; _; AThread (Some 2); _] => Some (lf_env [2], Yield 2)
  | [_; _; AThread (Some 2); _; _] => Some (lf_env [2], PickNext)
  | [_; _; AThread (Some 2); _; _; AThread (Some 1)] => Some (lf_env [1; 2], LockFree 1 true)
  | [_; _; AThread (Some 2); _; _; AThread (Some 1); _] => Some (lf_env [1; 2], Interrupt 1)
  | [_; _; AThread (Some 2); _; _; AThread (Some 1); _; _] => Some (lf_env [1; 2], PickNext)
  | [_; _; AThread (Some 2); _; _; AThread (Some 1); _; _; AThread (Some 2)] => Some (lf_env [1; 2], IsIdle)
  | _ => None
  end.
Definition random_defaults : RandParams := mkRandParams None (1, 7) (1, 7) 15 true 4 1.

Theorem suspension_is_not_replayed : client_ok (fun _ _ _ => True) suspends abs0 /\
  exists s schedule rs before,
    simulate (Recorder (RandomScheduler random_defaults)) 10 suspends [] (rand_Start 31, []) = Ret (before ++ [ABool true], (s, schedule)) /\
    simulate ReplayScheduler 10 suspends [] (replay_new schedule) = Ret (before ++ [ABool false], rs).
Proof.
  split.
  - intros hist a e c Hr Hc. assert (Hb : client_okb (fun _ => true) 11 suspends [] abs0 = true) by (vm_compute; reflexivity).
    split; [|done]. by apply (client_okb_sound _ _ _ _ Hb hist a e c Hr Hc).
  - set (before := [AVoid; AVoid; AThread (Some 2); AVoid; AVoid; AThread (Some 1); AVoid; AVoid; AThread (Some 2)]).
    set (sch := [DPickNext 2; DPickNext 1; DPickNext 2]).
    assert (H1 : match simulate (Recorder (RandomScheduler random_defaults)) 10 suspends [] (rand_Start 31, []) with Ret (h, (_, ds)) => h = before ++ [ABool true] /\ ds = sch | _ => False end).
    { vm_compute. split; reflexivity. }
    assert (H2 : match simulate ReplayScheduler 10 suspends [] (replay_new sch) with Ret (h, _) => h = before ++ [ABool false] | _ => False end) by (vm_compute; reflexivity).
    destruct (simulate (Recorder _) _ _ _ _) as [[h1 [s ds]]| |]; [|done|done]. destruct (simulate ReplayScheduler _ _ _ _) as [[h2 rs]| |] eqn:E2; [|done|done].
    destruct H1 as [-> ->]. subst h2. by exists s, sch, rs, before.
Qed.

(** ** [max_runs]

    [NextSchedule] allows [max_runs] further runs after the first. *)
Theorem rand_runs P m seed : rn_max_runs P = Some m -> 0 <= m < 2 ^ 64 - 1 ->
  let runs := fun k => Nat.iter k (fun s => (rand_NextSchedule P s).2) (seed, 0) in
  (forall k, Z.of_nat k < m -> (rand_NextSchedule P (runs k)).1 = true) /\ (rand_NextSchedule P (runs (Z.to_nat m))).1 = false.
Proof.
  intros HP Hm runs. assert (Hn : forall k, Z.of_nat k <= m -> (runs k).2 = Z.of_nat k).
  { induction k as [|k IH]; intros Hk; [done|]. unfold runs. rewrite Nat.iter_succ. fold runs. change (Nat.iter k _ _) with (runs k).
    specialize (IH ltac:(lia)). destruct (runs k) as [sd n]. simpl in IH. subst n. unfold rand_NextSchedule. rewrite HP. rewrite u64_id by lia.
    destruct (Z.ltb_spec m (Z.of_nat k + 1)); [lia|]. simpl. lia. }
  split.
  - intros k Hk. specialize (Hn k ltac:(lia)). destruct (runs k) as [sd n]. simpl in Hn. subst n. unfold rand_NextSchedule. rewrite HP, u64_id by lia.
    destruct (Z.ltb_spec m (Z.of_nat k + 1)); [lia|done].
  - specialize (Hn (Z.to_nat m) ltac:(lia)). destruct (runs (Z.to_nat m)) as [sd n]. simpl in Hn. subst n. unfold rand_NextSchedule. rewrite HP, u64_id by lia.
    destruct (Z.ltb_spec m (Z.of_nat (Z.to_nat m) + 1)); [done|lia].
Qed.
