(* ===== verification/PctSched.v ===== *)
(** The PCT scheduler of the simulator (probabilistic concurrency testing):
    src/deps/twist/source/twist/rt/sim/scheduler/pct/scheduler.hpp.

    Threads have distinct random priorities, the runnable thread of the highest priority runs,
    and at [depth - 1] random iterations the running thread gets the lowest priority.

    The theorems: the scheduler is lawful (SimSched.v) for programs from which no runnable
    thread is removed; the initial priorities are a permutation; between change points the
    highest priority runs; and a run with more change points than steps never starts. *)

From S2P Require Import Prelude SimSched DfsSched CoopSched.
Local Open Scope Z_scope.

(** [pct::Params], without [hints], which nothing reads. *)
Record PctParams := mkPctParams { pct_depth : Z; pct_max_runs : option Z }.

Definition size_max : Z := 2 ^ 64 - 1.

(** ** The run queue

    [std::priority_queue], whose order reads the priorities of the threads: [prio]. *)

Fixpoint pq_top (prio : Z -> Z) (l : list Z) : option Z :=
  match l with
  | [] => None
  | t :: l => match pq_top prio l with Some u => if prio t <? prio u then Some u else Some t | None => Some t end
  end.
Definition PopMaxPriority (prio : Z -> Z) (l : list Z) : M (Z * list Z) :=
  match pq_top prio l with Some t => Ret (t, filter (fun x => x <> t) l) | None => Stop Crash end.
Definition MaxPriority (prio : Z -> Z) (l : list Z) : M Z :=
  match pq_top prio l with Some t => Ret (prio t) | None => Stop Panic end.

(** ** Resetting *)

(** [init_prior_] after the first loop of [GenerateInitPriorities]. *)
Definition pct_identity (n : nat) : list Z := Z.of_nat <$> seq 0 (S n).
(** The Fisher-Yates loop; [st]: the state of the generator. *)
Fixpoint pct_shuffle (i : nat) (st : Z) (l : list Z) : M (list Z * Z) :=
  match i with
  | S (S _ as i') =>
      let '(st, z) := WyRand_Next st in
      r ← modulo z (Z.of_nat i);
      let j := S (Z.to_nat r) in
      x ← sl_get l i;
      y ← sl_get l j;
      l ← sl_set l i y;
      l ← sl_set l j x;
      pct_shuffle i' st l
  | _ => Ret (l, st)
  end.
Definition GenerateInitPriorities (n : nat) (st : Z) : M (list Z * Z) := pct_shuffle n st (pct_identity n).

(** [std::set<size_t>] as a sorted list. *)
Fixpoint points_insert_sorted (x : Z) (l : list Z) : list Z :=
  match l with
  | [] => [x]
  | y :: l' => if x <? y then x :: l else if x =? y then l else y :: points_insert_sorted x l'
  end.
(** The loop of [GenerateChangePoints], with fuel. *)
Fixpoint change_points_loop (fuel : nat) (length_ depth st : Z) (points : list Z) : M (list Z * Z) :=
  match fuel with
  | O => Stop Timeout
  | S fuel =>
      if Z.of_nat (length points) <? u64 (depth - 1) then
        let '(st, z) := WyRand_Next st in
        r ← modulo z length_;
        change_points_loop fuel length_ depth st (points_insert_sorted (u64 (1 + r)) points)
      else Ret (points, st)
  end.
Definition GenerateChangePoints (fuel : nat) (length_ depth st : Z) : M (list Z * Z) :=
  p ← change_points_loop fuel length_ depth st [];
  Ret (p.1 ++ [size_max], p.2).

(** ** The scheduler *)

(** [Scheduler] during a run; [pc_prio] holds [sched.f1] of the threads. *)
Record Pct := mkPct {
  pc_random : Z; pc_run : list Z; pc_active : option Z; pc_iter : Z;
  init_prior : list Z; next_prior : Z; change_points : list Z; next_change_point : nat;
  est_threads : Z; est_steps : Z; pc_prio : gmap Z Z; pc_queues : fifos;
}.

(** [Start], after [NextSchedule] has set [seed_]: the estimates are those of earlier runs. *)
Definition pct_Start (P : PctParams) (fuel : nat) (seed threads steps : Z) : M Pct :=
  p ← GenerateInitPriorities (Z.to_nat threads) seed;
  q ← GenerateChangePoints fuel steps (pct_depth P) p.2;
  Ret (mkPct q.2 [] None 0 p.1 0 q.1 0 threads steps ∅ ∅).

(** [NextSchedule] on [seed_] and [runs_]. *)
Definition pct_NextSchedule (P : PctParams) (s : Z * Z) : bool * (Z * Z) :=
  let '(seed, runs) := s in
  match pct_max_runs P with
  | Some m => if m <=? u64 (runs + 1) then (false, s) else (true, (HashCombine seed (u64 (runs + 1)), u64 (runs + 1)))
  | None => (true, (HashCombine seed (u64 (runs + 1)), u64 (runs + 1)))
  end.

Definition pc_set_run (s : Pct) (l : list Z) (active : option Z) : Pct :=
  mkPct (pc_random s) l active (pc_iter s) (init_prior s) (next_prior s) (change_points s) (next_change_point s) (est_threads s) (est_steps s) (pc_prio s) (pc_queues s).
Definition pc_set_random (s : Pct) (st : Z) : Pct :=
  mkPct st (pc_run s) (pc_active s) (pc_iter s) (init_prior s) (next_prior s) (change_points s) (next_change_point s) (est_threads s) (est_steps s) (pc_prio s) (pc_queues s).
Definition pc_set_prio (s : Pct) (t p next : Z) : Pct :=
  mkPct (pc_random s) (pc_run s) (pc_active s) (pc_iter s) (init_prior s) next (change_points s) (next_change_point s) (est_threads s) (est_steps s) (<[t := p]> (pc_prio s)) (pc_queues s).
Definition pc_set_iter (s : Pct) (iter steps : Z) : Pct :=
  mkPct (pc_random s) (pc_run s) (pc_active s) iter (init_prior s) (next_prior s) (change_points s) (next_change_point s) (est_threads s) steps (pc_prio s) (pc_queues s).
Definition pc_set_point (s : Pct) (i : nat) : Pct :=
  mkPct (pc_random s) (pc_run s) (pc_active s) (pc_iter s) (init_prior s) (next_prior s) (change_points s) i (est_threads s) (est_steps s) (pc_prio s) (pc_queues s).
Definition pc_set_threads (s : Pct) (n : Z) : Pct :=
  mkPct (pc_random s) (pc_run s) (pc_active s) (pc_iter s) (init_prior s) (next_prior s) (change_points s) (next_change_point s) n (est_steps s) (pc_prio s) (pc_queues s).
Definition pc_set_queues (s : Pct) (qs : fifos) : Pct :=
  mkPct (pc_random s) (pc_run s) (pc_active s) (pc_iter s) (init_prior s) (next_prior s) (change_points s) (next_change_point s) (est_threads s) (est_steps s) (pc_prio s) qs.

Definition GetPriority (s : Pct) (t : Z) : Z := default 0 (pc_prio s !! t).
(** [SetPriority(t, NextPriority())] *)
Definition pc_lower (s : Pct) (t : Z) : Pct := pc_set_prio s t (next_prior s) (s32 (next_prior s - 1)).
Definition pc_push (s : Pct) (t : Z) : Pct := pc_set_run s (pc_run s ++ [t]) (pc_active s).

Definition pct_Spawn (s : Pct) (t : Z) : Pct :=
  pc_push
    match init_prior s !! Z.to_nat t with
    | Some p => pc_set_prio s t p (next_prior s)
    | None => pc_lower (pc_set_threads s (Z.max (est_threads s) t)) t
    end t.

(** The loop of [Preempt] that skips change points. *)
Fixpoint skip_points (fuel : nat) (points : list Z) (i : nat) (iter : Z) : M nat :=
  c ← sl_get points i;
  if c <? iter then match fuel with O => Stop Timeout | S fuel => skip_points fuel points (S i) iter end else Ret i.

Definition pct_Preempt (e : env) (s : Pct) (active : Z) : M (bool * Pct) :=
  if negb (preemptive e active) then Ret (false, s)
  else
    i ← skip_points (length (change_points s)) (change_points s) (next_change_point s) (pc_iter s);
    let s := pc_set_point s i in
    c ← sl_get (change_points s) i;
    if pc_iter s =? c then Ret (true, pc_lower s active)
    else if decide (pc_run s = []) then Ret (false, s)
    else m ← MaxPriority (GetPriority s) (pc_run s); Ret (GetPriority s active <? m, s).

Definition pct_PopMax (s : Pct) : M (answer * Pct) :=
  p ← PopMaxPriority (GetPriority s) (pc_run s); Ret (AThread (Some p.1), pc_set_run s p.2 (pc_active s)).
(** [PickNext] and [PickNext(active)] *)
Definition pct_PickNext (e : env) (s : Pct) : M (answer * Pct) :=
  let active := pc_active s in
  let s := pc_set_run s (pc_run s) None in
  let iter := u64 (pc_iter s + 1) in
  let s := pc_set_iter s iter (Z.max (est_steps s) iter) in
  match active with
  | Some t =>
      p ← pct_Preempt e s t;
      if p.1 : bool then pct_PopMax (pc_push p.2 t) else Ret (AThread (Some t), p.2)
  | None => pct_PopMax s
  end.

Definition pct_call (e : env) (c : icall) (s : Pct) : M (answer * Pct) :=
  match c with
  | Interrupt t => Ret (AVoid, pc_set_run s (pc_run s) (Some t))
  | SwitchTo _ _ => Stop Panic
  | Yield t => Ret (AVoid, pc_push (pc_lower s t) t)
  | Wake t => Ret (AVoid, pc_push s t)
  | Spawn t => Ret (AVoid, pct_Spawn s t)
  | Exit _ | LockFree _ _ | Progress _ | NewIter | Remove _ => Ret (AVoid, s)
  | IsIdle => Ret (ABool (bool_decide (pc_run s = []) && bool_decide (pc_active s = None)), s)
  | PickNext => pct_PickNext e s
  | RandomNumber => let '(st, z) := WyRand_Next (pc_random s) in Ret (ANum z, pc_set_random s st)
  | RandomChoice n => let '(st, z) := WyRand_Next (pc_random s) in i ← modulo z (Z.of_nat n); Ret (ANum i, pc_set_random s st)
  | SpuriousWakeup | SpuriousTryFailure | IsModelChecker => Ret (ABool false, s)
  | _ => p ← fq_call (fun _ => false) c (pc_queues s); Ret (p.1, pc_set_queues s p.2)
  end.
Definition PctScheduler : IScheduler := mkScheduler Pct pct_call.

(** ** The scheduler is lawful *)

Lemma pq_top_spec prio l : match pq_top prio l with Some t => t ∈ l /\ forall u, u ∈ l -> prio u <= prio t | None => l = [] end.
Proof.
  induction l as [|t l IH]; simpl; [done|]. destruct (pq_top prio l) as [u|].
  - destruct IH as [Hu Hmax]. destruct (Z.ltb_spec (prio t) (prio u)).
    + split; [by right|]. intros x [->|Hx]%elem_of_cons; [lia|auto].
    + split; [by left|]. intros x [->|Hx]%elem_of_cons; [lia|]. specialize (Hmax x Hx). lia.
  - subst l. split; [by left|]. by intros x ->%list_elem_of_singleton.
Qed.

Record pct_holds (s : Pct) (a : abs) : Prop := {
  ph_nodup : base.NoDup (pc_run s);
  ph_in : forall x, x ∈ runnable a <-> x ∈ pc_run s \/ pc_active s = Some x;
  ph_active : forall x, pc_active s = Some x -> x ∉ pc_run s /\ pinned a = Some x;
  ph_points : exists pre, change_points s = pre ++ [size_max] /\ (next_change_point s <= length pre)%nat;
  ph_fq : fq_holds (pc_queues s) a;
  ph_ok : abs_ok a;
}.

(** Nobody is removed from the run queue: [RunQueue::Remove] is not implemented. *)
Definition pct_supports (e : env) (a : abs) (c : icall) : Prop :=
  match c with SwitchTo _ _ => False | Remove t => t ∉ runnable a | _ => True end.

Definition pct_answers (a : abs) (c : icall) (m : M (answer * Pct)) : Prop :=
  exists ans s' a', m = Ret (ans, s') /\ abs_step a c ans = Some a' /\ pct_holds s' a'.

Lemma skip_points_ok pre iter fuel i : iter <= size_max -> (i <= length pre <= i + fuel)%nat ->
  exists j, skip_points fuel (pre ++ [size_max]) i iter = Ret j /\ (i <= j <= length pre)%nat /\ forall c, (pre ++ [size_max]) !! j = Some c -> iter <= c.
Proof.
  intros Hit. revert i. induction fuel as [|fuel IH]; intros i Hi.
  - assert (i = length pre) as -> by lia. simpl. unfold sl_get. rewrite list_lookup_middle by done. simpl. destruct (Z.ltb_spec size_max iter); [lia|].
    exists (length pre). split; [done|]. split; [lia|]. rewrite list_lookup_middle by done. intros c [= <-]. lia.
  - destruct (lookup_lt_is_Some_2 (pre ++ [size_max]) i) as [c Hc]; [rewrite length_app; simpl; lia|]. simpl. unfold sl_get at 1. rewrite Hc. simpl.
    destruct (Z.ltb_spec c iter).
    + destruct (decide (i = length pre)) as [->|Hne]; [rewrite list_lookup_middle in Hc by done; injection Hc as <-; lia|].
      destruct (IH (S i)) as (j & E & Hj & Hle); [lia|]. exists j. split; [done|]. split; [lia|done].
    + exists i. split; [done|]. split; [lia|]. rewrite Hc. intros c' [= <-]. lia.
Qed.

Section law.
Context (s : Pct) (a : abs) (H : pct_holds s a).

Lemma pct_done c ans s' a' : legal a c -> abs_step a c ans = Some a' -> base.NoDup (pc_run s') ->
  (forall x, x ∈ runnable a' <-> x ∈ pc_run s' \/ pc_active s' = Some x) -> (forall x, pc_active s' = Some x -> x ∉ pc_run s' /\ pinned a' = Some x) ->
  (exists pre, change_points s' = pre ++ [size_max] /\ (next_change_point s' <= length pre)%nat) -> fq_holds (pc_queues s') a' -> pct_answers a c (Ret (ans, s')).
Proof using H. intros Hl Ha H1 H2 H3 H4 H5. exists ans, s', a'. split; [done|]. split; [done|]. split; try done. eapply abs_ok_step; [apply (ph_ok _ _ H)|done|done]. Qed.

Lemma pct_same c ans s' : legal a c -> abs_step a c ans = Some a -> pc_run s' = pc_run s -> pc_active s' = pc_active s -> change_points s' = change_points s ->
  next_change_point s' = next_change_point s -> pc_queues s' = pc_queues s -> pct_answers a c (Ret (ans, s')).
Proof using H. intros Hl Ha E1 E2 E3 E4 E5. destruct H. eapply pct_done; rewrite ?E1, ?E2, ?E3, ?E4, ?E5; done. Qed.

Lemma pct_add c t s' : abs_new a t -> (c = Yield t \/ c = Wake t \/ c = Spawn t) -> pc_run s' = pc_run s -> pc_active s' = pc_active s -> change_points s' = change_points s ->
  next_change_point s' = next_change_point s -> pc_queues s' = pc_queues s -> pct_answers a c (Ret (AVoid, pc_push s' t)).
Proof using H.
  intros Hn Hc E1 E2 E3 E4 E5. pose proof Hn as (_ & Hr & _). rewrite (ph_in _ _ H) in Hr.
  eapply (pct_done c AVoid _ (add_runnable a t (pinned a))); simpl; rewrite ?E1, ?E2, ?E3, ?E4, ?E5.
  - by destruct Hc as [-> | [-> | ->]].
  - by destruct Hc as [-> | [-> | ->]].
  - apply list.NoDup_app. split; [apply (ph_nodup _ _ H)|]. split; [|apply NoDup_singleton]. intros x Hx ->%list_elem_of_singleton. tauto.
  - intros x. rewrite elem_of_union, elem_of_singleton, elem_of_app, list_elem_of_singleton, (ph_in _ _ H). tauto.
  - intros x Hx. destruct (ph_active _ _ H x Hx). split; [|done]. rewrite elem_of_app, list_elem_of_singleton. intros [?| ->]; tauto.
  - apply (ph_points _ _ H).
  - apply (ph_fq _ _ H).
Qed.

(** Popping from a run queue that holds the runnable threads. *)
Lemma pct_PopMax_ok s' : runnable a <> ∅ -> base.NoDup (pc_run s') -> (forall x, x ∈ runnable a <-> x ∈ pc_run s') -> pc_active s' = None -> pc_queues s' = pc_queues s ->
  (exists pre, change_points s' = pre ++ [size_max] /\ (next_change_point s' <= length pre)%nat) -> pct_answers a PickNext (pct_PopMax s').
Proof using H.
  intros Hne Hnd Hin Hact Hq Hp. unfold pct_PopMax, PopMaxPriority. pose proof (pq_top_spec (GetPriority s') (pc_run s')) as Ht. destruct (pq_top _ _) as [t|].
  - destruct Ht as [Ht _]. apply (pct_done PickNext _ _ (mkAbs (runnable a ∖ {[t]}) None (queues a))); simpl; try done.
    + unfold when. by rewrite decide_True by by apply Hin.
    + by apply list.NoDup_filter.
    + intros x. rewrite elem_of_difference, elem_of_singleton, list_elem_of_filter, Hin, Hact. naive_solver.
    + intros x. by rewrite Hact.
    + rewrite Hq. apply (ph_fq _ _ H).
  - exfalso. apply Hne, set_eq. intros x. rewrite Hin, Ht. set_solver.
Qed.

Lemma pct_PickNext_ok e : runnable a <> ∅ -> pct_answers a PickNext (pct_PickNext e s).
Proof using H.
  intros Hne. destruct (ph_points _ _ H) as (pre & Hpre & Hcp). unfold pct_PickNext. destruct (pc_active s) as [t|] eqn:Et.
  2:{ apply pct_PopMax_ok; simpl; try done; [apply (ph_nodup _ _ H)| |apply (ph_points _ _ H)]. intros x. rewrite (ph_in _ _ H), Et. naive_solver. }
  destruct (ph_active _ _ H t Et) as [Ht _]. set (iter := u64 (pc_iter s + 1)). set (s1 := pc_set_iter _ _ _).
  assert (Hit : iter <= size_max) by (unfold iter, size_max; pose proof (u64_range (pc_iter s + 1)); lia).
  assert (Hpr : exists b s2, pct_Preempt e s1 t = Ret (b, s2) /\ pc_run s2 = pc_run s /\ pc_active s2 = None /\ pc_queues s2 = pc_queues s /\
    exists pre', change_points s2 = pre' ++ [size_max] /\ (next_change_point s2 <= length pre')%nat).
  { unfold pct_Preempt. destruct (preemptive e t); simpl; [|exists false, s1; eauto 10].
    destruct (skip_points_ok pre iter (length (change_points s)) (next_change_point s) Hit) as (j & E & Hj & _); [rewrite Hpre, length_app; simpl; lia|].
    rewrite Hpre in *. fold iter. rewrite E. simpl. rewrite ?Hpre. destruct (lookup_lt_is_Some_2 (pre ++ [size_max]) j) as [c Hc]; [rewrite length_app; simpl; lia|].
    unfold sl_get. rewrite Hc. simpl. destruct (iter =? c); [eexists true, _; split; [done|]; split_and!; try done; exists pre; split; [done|simpl; lia]|].
    destruct (decide (pc_run s = [])); [eexists false, _; split; [done|]; split_and!; try done; exists pre; split; [done|simpl; lia]|].
    unfold MaxPriority. pose proof (pq_top_spec (GetPriority (pc_set_point s1 j)) (pc_run s)) as Hm. destruct (pq_top _ (pc_run s)) as [u|]; [|done].
    simpl. eexists _, _. split; [done|]. split_and!; try done. exists pre. split; [done|simpl; lia]. }
  destruct Hpr as (b & s2 & -> & E1 & E2 & E3 & E4). simpl. destruct b.
  - apply pct_PopMax_ok; simpl; rewrite ?E1, ?E2, ?E3; try done.
    + apply list.NoDup_app. split; [apply (ph_nodup _ _ H)|]. split; [|apply NoDup_singleton]. by intros x Hx ->%list_elem_of_singleton.
    + intros x. rewrite (ph_in _ _ H), Et, elem_of_app, list_elem_of_singleton. naive_solver.
  - apply (pct_done PickNext _ _ (mkAbs (runnable a ∖ {[t]}) None (queues a))); simpl; rewrite ?E1, ?E2, ?E3; try done.
    + unfold when. rewrite decide_True; [done|]. apply (ph_in _ _ H). by right.
    + apply (ph_nodup _ _ H).
    + intros x. rewrite elem_of_difference, elem_of_singleton, (ph_in _ _ H), Et. naive_solver.
    + apply (ph_fq _ _ H).
Qed.

Lemma pct_queue_ok c : fq_is_call c = true -> legal a c -> pct_answers a c (p ← fq_call (fun _ => false) c (pc_queues s); Ret (p.1, pc_set_queues s p.2)).
Proof using H.
  intros Hc Hl. pose proof (fun p r => fq_law _ a (ph_fq _ _ H) (ph_ok _ _ H) (fun _ => false) c p r Hc Hl (fun _ _ => eq_refl)) as Hlaw.
  assert (Hd : match fq_call (fun _ => false) c (pc_queues s) with Choose _ _ _ => False | _ => True end).
  { destruct c; try done; simpl; unfold fq_get; try (destruct (pc_queues s !! q)); simpl; try done; by destruct (fq_linked _ _). }
  destruct (fq_call _ _ _) as [[ans qs]| |st]; [|done|].
  - destruct (Hlaw [] _ (leaf_ret _)) as (ans' & qs' & a' & [= <- <-] & Ha & Hq & Hrn & Hpn). simpl.
    destruct H. eapply (pct_done c ans _ a'); simpl; try done; rewrite ?Hrn, ?Hpn; done.
  - by destruct (Hlaw [] _ (leaf_stop _)) as (ans' & qs' & a' & [=] & _).
Qed.
End law.

Lemma pct_law s a e c p r : pct_holds s a -> legal a c -> pct_supports e a c -> leaf (pct_call e c s) p r -> lawful_result pct_holds a c r.
Proof.
  intros H Hl Hs Hr. assert (Hok : pct_answers a c (pct_call e c s)).
  2:{ destruct Hok as (ans & s' & a' & E & Ha & Hs'). rewrite E in Hr. apply leaf_ret_inv in Hr as [_ ->]. by exists a'. }
  clear Hr. destruct c; cbn [pct_call]; simpl in Hs; try done; try (by apply pct_queue_ok); try (by eapply pct_same).
  - pose proof Hl as [Hn Hp]. pose proof Hn as (_ & Hr & _). rewrite (ph_in _ _ H) in Hr.
    assert (Hnone : pc_active s = None) by (destruct (pc_active s) as [x|] eqn:E; [destruct (ph_active _ _ H x E); congruence|done]).
    destruct H as [H1 H2 H3 H4 H5 H6]. eapply (pct_done s a); [by split|done|done|done| | |done|done]; simpl.
    + intros x. rewrite elem_of_union, elem_of_singleton, H2, Hnone. naive_solver.
    + intros x [= <-]. tauto.
  - by eapply pct_add; eauto.
  - by eapply pct_add; eauto.
  - unfold pct_Spawn. destruct (init_prior s !! _); by eapply pct_add; eauto.
  - eapply pct_same; try done. simpl. unfold when. rewrite decide_True; [done|]. destruct (pc_active s) as [t|] eqn:E.
    + rewrite (bool_decide_eq_false_2 (Some t = None)), andb_false_r by done. symmetry. apply bool_decide_eq_false. intros En. apply (not_elem_of_empty (C := gset Z) t).
      rewrite <- En. apply (ph_in _ _ H). by right.
    + rewrite andb_true_r. apply bool_decide_ext, members_empty. intros x. rewrite (ph_in _ _ H), E. naive_solver.
  - by apply pct_PickNext_ok.
  - eapply pct_done; [done|done|done|apply (ph_nodup _ _ H)| | |apply (ph_points _ _ H)|apply (ph_fq _ _ H)]; simpl.
    + intros x. rewrite elem_of_difference, elem_of_singleton, <- (ph_in _ _ H). split; [tauto|]. intros Hx. split; [done|]. by intros ->.
    + apply (ph_active _ _ H).
  - pose proof (abs_random a (pc_random s)) as Ha. destruct (WyRand_Next (pc_random s)) as [st z]. by eapply pct_same.
  - destruct (WyRand_Next (pc_random s)) as [st z]. simpl in Hl. unfold modulo. rewrite decide_False by lia. eapply pct_same; try done.
    simpl. unfold when. rewrite decide_True; [done|]. apply Z.mod_pos_bound. lia.
Qed.

#[export] Instance pct_lawful : Lawful PctScheduler := { represents := pct_holds; supports := pct_supports; lawful_call := pct_law }.

(** ** Starting a run *)

Lemma swap_perm (l : list Z) i j x y : l !! i = Some x -> l !! j = Some y -> <[j := x]> (<[i := y]> l) ≡ₚ l.
Proof.
  intros Hi Hj. destruct (decide (i = j)) as [->|Hne].
  - rewrite Hi in Hj. injection Hj as ->. by rewrite list_insert_insert_eq, list_insert_id.
  - apply Permutation_inj. split; [by rewrite !length_insert|]. exists (fun k => if decide (k = i) then j else if decide (k = j) then i else k). split.
    + intros k1 k2. repeat case_decide; intros; simplify_eq; done.
    + intros k. pose proof (lookup_lt_Some _ _ _ Hi). pose proof (lookup_lt_Some _ _ _ Hj). case_decide as H1; [subst k|case_decide as H2; [subst k|]].
      * rewrite (list_lookup_insert_ne _ j i) by done. rewrite list_lookup_insert_eq by lia. by rewrite <- Hj.
      * rewrite list_lookup_insert_eq by (rewrite length_insert; lia). by rewrite <- Hi.
      * by rewrite !list_lookup_insert_ne by done.
Qed.

Lemma pct_shuffle_ok i st x l : (i <= length l)%nat -> exists l' st', pct_shuffle i st (x :: l) = Ret (x :: l', st') /\ l' ≡ₚ l.
Proof.
  revert st l. induction i as [|[|i] IH]; intros st l Hi; [by exists l, st|by exists l, st|].
  cbn [pct_shuffle]. destruct (WyRand_Next st) as [st1 z]. unfold modulo. rewrite decide_False by lia. cbn [mbind M_bind].
  pose proof (Z.mod_pos_bound z (Z.of_nat (S (S i))) ltac:(lia)) as Hr. set (j := Z.to_nat (z mod Z.of_nat (S (S i)))).
  assert (Hj : (j < S (S i))%nat) by lia. unfold sl_get, sl_set.
  destruct (lookup_lt_is_Some_2 l (S i)) as [u Hu]; [lia|]. destruct (lookup_lt_is_Some_2 l j) as [v Hv]; [lia|].
  change ((x :: l) !! S (S i)) with (l !! S i). change ((x :: l) !! S j) with (l !! j). rewrite Hu, Hv. simpl mbind.
  rewrite decide_True by (simpl; lia). cbn [mbind M_bind]. rewrite decide_True by (rewrite ?length_insert; simpl; rewrite ?length_insert; lia). cbn [mbind M_bind].
  change (<[S j := u]> (<[S (S i) := v]> (x :: l))) with (x :: <[j := u]> (<[S i := v]> l)).
  destruct (IH st1 (<[j := u]> (<[S i := v]> l))) as (l' & st' & E & Hp); [rewrite !length_insert; lia|].
  exists l', st'. split; [done|]. etrans; [exact Hp|]. by apply swap_perm.
Qed.

(** The threads 1 to [n] get the priorities 1 to [n] in some order. *)
Theorem init_priorities_permutation n st : exists l st', GenerateInitPriorities n st = Ret (0 :: l, st') /\ l ≡ₚ Z.of_nat <$> seq 1 n.
Proof. unfold GenerateInitPriorities, pct_identity. cbn [seq fmap list_fmap]. apply pct_shuffle_ok. by rewrite length_fmap, length_seq. Qed.

Lemma elem_of_points_insert x l y : y ∈ points_insert_sorted x l <-> y = x \/ y ∈ l.
Proof.
  induction l as [|z l IH]; simpl; [by rewrite list_elem_of_singleton, elem_of_nil; tauto|].
  destruct (x <? z); [by rewrite !elem_of_cons|]. destruct (Z.eqb_spec x z) as [->|]; [rewrite elem_of_cons; tauto|]. rewrite !elem_of_cons, IH. tauto.
Qed.

Definition ascending (l : list Z) : Prop := forall i j x y, (i < j)%nat -> l !! i = Some x -> l !! j = Some y -> x < y.

Lemma ascending_nodup l : ascending l -> base.NoDup l.
Proof. intros H. apply NoDup_alt. intros i j x Hi Hj. destruct (lt_eq_lt_dec i j) as [[Hl|]|Hl]; [|done|]; by specialize (H _ _ _ _ Hl ltac:(eassumption) ltac:(eassumption)); lia. Qed.

Lemma ascending_cons x l : ascending (x :: l) <-> ascending l /\ forall y, y ∈ l -> x < y.
Proof.
  split.
  - intros H. split; [intros i j u v Hij; apply (H (S i) (S j)); lia|]. intros y [j Hj]%list_elem_of_lookup. by apply (H O (S j) x y); [lia| |].
  - intros [H Hx] [|i] [|j] u v Hij Hu Hv; try lia; simpl in *; [|by apply (H i j); [lia| |]].
    injection Hu as <-. apply Hx. by eapply list_elem_of_lookup_2.
Qed.

Lemma points_insert_ascending x l : ascending l -> ascending (points_insert_sorted x l).
Proof.
  induction l as [|y l IH]; intros H; simpl; [apply ascending_cons; split; [done|set_solver]|]. pose proof H as [Hl Hy]%ascending_cons.
  destruct (Z.ltb_spec x y); [|destruct (Z.eqb_spec x y); [done|]].
  - apply ascending_cons. split; [done|]. intros z [->|Hz]%elem_of_cons; [done|]. specialize (Hy z Hz). lia.
  - apply ascending_cons. split; [auto|]. intros z [->|Hz]%elem_of_points_insert; [lia|auto].
Qed.

(** What the loop has collected are distinct iterations. *)
Definition points_in (n : Z) (l : list Z) : Prop := ascending l /\ forall x, x ∈ l -> 1 <= x <= n.

Lemma points_few n l : 0 <= n -> points_in n l -> Z.of_nat (length l) <= n.
Proof.
  intros Hn [Ha Hr]. assert (Hs : l ⊆+ seqZ 1 n). { apply NoDup_submseteq; [by apply ascending_nodup|]. intros x Hx%Hr. apply elem_of_seqZ. lia. }
  apply submseteq_length in Hs. rewrite length_seqZ in Hs. lia.
Qed.

Lemma points_insert n l z : 0 < n < 2 ^ 64 -> points_in n l -> points_in n (points_insert_sorted (u64 (1 + z mod n)) l).
Proof.
  intros Hn [Ha Hr]. pose proof (Z.mod_pos_bound z n ltac:(lia)). split; [by apply points_insert_ascending|]. intros x [->|Hx]%elem_of_points_insert; [|auto].
  rewrite u64_id by lia. lia.
Qed.

(** With fewer steps than change points the loop does not end. *)
Lemma change_points_loop_forever n depth fuel st l : 0 < n < 2 ^ 64 -> n < u64 (depth - 1) -> points_in n l -> change_points_loop fuel n depth st l = Stop Timeout.
Proof.
  intros Hn Hd. revert st l. induction fuel as [|fuel IH]; intros st l Hl; simpl; [done|].
  pose proof (points_few n l ltac:(lia) Hl). destruct (Z.ltb_spec (Z.of_nat (length l)) (u64 (depth - 1))); [|lia].
  destruct (WyRand_Next st) as [st' z]. unfold modulo. rewrite decide_False by lia. simpl. apply IH. by apply points_insert.
Qed.

Lemma points_nil n : points_in n [].
Proof. split; [done|]. intros x ?%elem_of_nil. done. Qed.

Lemma change_points_loop_done n depth fuel st l l' st' : 0 < n < 2 ^ 64 -> points_in n l -> Z.of_nat (length l) <= u64 (depth - 1) ->
  change_points_loop fuel n depth st l = Ret (l', st') -> points_in n l' /\ Z.of_nat (length l') = u64 (depth - 1).
Proof.
  intros Hn. revert st l. induction fuel as [|fuel IH]; intros st l Hl Hlen; simpl; [done|].
  destruct (Z.ltb_spec (Z.of_nat (length l)) (u64 (depth - 1))); [|intros [= <- <-]; split; [done|lia]].
  destruct (WyRand_Next st) as [st1 z]. unfold modulo. rewrite decide_False by lia. simpl. apply IH; [by apply points_insert|].
  assert (Hs : forall x k, (length (points_insert_sorted x k) <= S (length k))%nat).
  { intros x k. induction k as [|y k IHk]; simpl; [lia|]. destruct (x <? y); [simpl; lia|]. destruct (x =? y); simpl; lia. }
  match goal with |- context[length (points_insert_sorted ?x l)] => specialize (Hs x l) end. lia.
Qed.

(** The initial estimate is 7 steps: with a depth of 9 or more, or of 0, the first run never
    starts. *)
Theorem pct_never_starts P fuel seed threads steps : 0 < steps < 2 ^ 64 -> steps < u64 (pct_depth P - 1) -> pct_Start P fuel seed threads steps = Stop Timeout.
Proof.
  intros Hs Hd. unfold pct_Start. destruct (init_priorities_permutation (Z.to_nat threads) seed) as (l & st & -> & _). simpl.
  unfold GenerateChangePoints. by rewrite change_points_loop_forever by (done || apply points_nil).
Qed.

Lemma pct_never_starts_witness : pct_Start (mkPctParams 9 None) 1000 42 1 7 = Stop Timeout /\ pct_Start (mkPctParams 0 None) 1000 42 1 7 = Stop Timeout.
Proof. split; apply pct_never_starts; simpl; [lia|vm_compute; reflexivity|lia|vm_compute; reflexivity]. Defined.

(** A run that starts has [depth - 1] distinct change points, in order, among the estimated
    steps, and a guard that no iteration passes. *)
Theorem pct_starts P fuel seed threads steps s : 0 < steps < 2 ^ 64 -> pct_Start P fuel seed threads steps = Ret s ->
  pct_holds s abs0 /\ exists points, change_points s = points ++ [size_max] /\ points_in steps points /\ Z.of_nat (length points) = u64 (pct_depth P - 1).
Proof.
  intros Hs. unfold pct_Start. destruct (init_priorities_permutation (Z.to_nat threads) seed) as (l & st & -> & _). cbn [mbind M_bind].
  unfold GenerateChangePoints. destruct (change_points_loop _ _ _ _ _) as [[points st']| |] eqn:E; cbn [mbind M_bind]; [|done|done]. intros [= <-].
  apply change_points_loop_done in E as [Hp Hl]; [|done|apply points_nil|simpl; pose proof (u64_range (pct_depth P - 1)); lia]. split; [|by exists points].
  split; simpl; [apply base.NoDup_nil_2|set_solver|done| |done|split; simpl; set_solver]. exists points. split; [done|lia].
Qed.

Lemma pct_starts_witness : exists s, pct_Start (mkPctParams 3 None) 10 42 1 7 = Ret s /\ length (change_points s) = 3%nat /\ pct_holds s abs0.
Proof.
  destruct (pct_Start (mkPctParams 3 None) 10 42 1 7) as [s| |] eqn:E; [|vm_compute in E; discriminate E|vm_compute in E; discriminate E].
  destruct (pct_starts _ _ _ _ _ _ (conj eq_refl eq_refl : 0 < 7 < 2 ^ 64) E) as (H & points & Hp & _ & Hl). exists s. split; [reflexivity|]. split; [|exact H].
  rewrite Hp, length_app. change (u64 (pct_depth (mkPctParams 3 None) - 1)) with 2 in Hl. simpl. lia.
Defined.

(** ** Priorities decide *)

Lemma pct_PopMax_highest s (R : gset Z) : (forall x, x ∈ R <-> x ∈ pc_run s) -> R <> ∅ ->
  exists t s', pct_PopMax s = Ret (AThread (Some t), s') /\ t ∈ R /\ pc_prio s' = pc_prio s /\ forall u, u ∈ R -> GetPriority s u <= GetPriority s t.
Proof.
  intros HR Hne. unfold pct_PopMax, PopMaxPriority. pose proof (pq_top_spec (GetPriority s) (pc_run s)) as Ht. destruct (pq_top _ _) as [w|].
  - destruct Ht as [Hw Hmax]. eexists w, _. split; [done|]. split; [by apply HR|]. split; [done|]. intros u Hu%HR. auto.
  - exfalso. apply Hne, set_eq. intros x. rewrite HR, Ht. set_solver.
Qed.

(** The running thread may not be preempted. *)
Definition keeps_running (e : env) (s : Pct) : bool := match pc_active s with Some r => negb (preemptive e r) | None => false end.

(** C31: [PickNext] of the PCT scheduler answers, whenever a thread is runnable: the running
    thread if it may not be preempted; otherwise a runnable thread with the highest priority of
    all runnable threads.  The priorities are those from before the call, except that at a change
    point a running thread that may be preempted has got the next lower one first.  The loop that
    skips change points ends. *)
Theorem pct_highest_runs s a e : pct_holds s a -> runnable a <> ∅ ->
  exists t s', pct_PickNext e s = Ret (AThread (Some t), s') /\ t ∈ runnable a /\
    (if keeps_running e s then pc_active s = Some t else forall u, u ∈ runnable a -> GetPriority s' u <= GetPriority s' t) /\
    (pc_prio s' = pc_prio s \/
     exists r, pc_active s = Some r /\ preemptive e r = true /\ u64 (pc_iter s + 1) ∈ change_points s /\ pc_prio s' = <[r := next_prior s]> (pc_prio s)).
Proof.
  intros H Hne. destruct (ph_points _ _ H) as (pre & Hpre & Hnext). unfold pct_PickNext, keeps_running. set (iter := u64 (pc_iter s + 1)) in *.
  set (s1 := pc_set_iter _ _ _). assert (Hit : iter <= size_max) by (unfold iter, size_max; pose proof (u64_range (pc_iter s + 1)); lia).
  assert (Hpop : forall s2, (forall x, x ∈ runnable a <-> x ∈ pc_run s2) -> exists t s', pct_PopMax s2 = Ret (AThread (Some t), s') /\ t ∈ runnable a /\ (forall u, u ∈ runnable a -> GetPriority s' u <= GetPriority s' t) /\ pc_prio s' = pc_prio s2).
  { intros s2 H2. destruct (pct_PopMax_highest s2 (runnable a) H2 Hne) as (t & s' & E & Ht & Ep & Hmax). exists t, s'. unfold GetPriority in *. rewrite Ep. done. }
  destruct (pc_active s) as [t|] eqn:Et.
  2:{ destruct (Hpop s1) as (w & s' & E & Hw & Hmax & Ep); [intros u; cbn; rewrite (ph_in _ _ H), Et; naive_solver|]. exists w, s'. rewrite Ep. auto. }
  assert (Hrun : forall u, u ∈ runnable a <-> u ∈ pc_run s \/ u = t) by (intros u; rewrite (ph_in _ _ H), Et; naive_solver).
  assert (Hpush : forall u l, l = pc_run s -> u ∈ runnable a <-> u ∈ l ++ [t]) by (intros u l ->; rewrite Hrun, elem_of_app, list_elem_of_singleton; done).
  unfold pct_Preempt. destruct (preemptive e t) eqn:Hp; cbn [negb]; [|exists t, s1; split; [done|]; split; [apply Hrun; by right|]; by auto].
  destruct (skip_points_ok pre iter (length (change_points s)) (next_change_point s) Hit) as (j & E & Hj & _); [rewrite Hpre, length_app; simpl; lia|].
  rewrite Hpre in *. fold iter. simpl. rewrite ?Hpre. fold iter. rewrite E. simpl. rewrite ?Hpre. destruct (lookup_lt_is_Some_2 (pre ++ [size_max]) j) as [c Hc]; [rewrite length_app; simpl; lia|].
  unfold sl_get. rewrite Hc. simpl. destruct (Z.eqb_spec iter c) as [->|_].
  { destruct (Hpop (pc_push (pc_lower (pc_set_point s1 j) t) t)) as (w & s' & E' & Hw & Hmax & Ep); [intros u; by apply Hpush|]. exists w, s'.
    split; [exact E'|]. split; [done|]. split; [done|]. right. exists t. split; [done|]. split; [done|]. split; [by eapply list_elem_of_lookup_2|done]. }
  destruct (decide (pc_run s = [])) as [En|En].
  { eexists t, _. split; [done|]. split; [apply Hrun; by right|]. split; [|by left]. intros u [Hu| ->]%Hrun; [rewrite En in Hu; by apply elem_of_nil in Hu|lia]. }
  unfold MaxPriority. pose proof (pq_top_spec (GetPriority (pc_set_point s1 j)) (pc_run s)) as Hm. destruct (pq_top _ (pc_run s)) as [m|]; [|done].
  destruct Hm as [Hm Hmax]. change (GetPriority (pc_set_point s1 j)) with (GetPriority s) in *. cbn [mbind M_bind fst snd]. destruct (Z.ltb_spec (GetPriority s t) (GetPriority s m)).
  - destruct (Hpop (pc_push (pc_set_point s1 j) t)) as (w & s' & E' & Hw & Hmax' & Ep); [intros u; by apply Hpush|]. exists w, s'. auto.
  - eexists t, _. split; [done|]. split; [apply Hrun; by right|]. split; [|by left]. change (GetPriority (pc_set_point s1 j)) with (GetPriority s). intros u [Hu| ->]%Hrun; [|lia]. specialize (Hmax u Hu). lia.
Qed.

(** Two runnable threads with the priorities 1 and 2, and a change point that is far away. *)
Definition two_runnable : Pct := mkPct 42 [1; 2] None 0 [0; 1; 2] 0 [5; size_max] 0 2 7 {[1 := 1; 2 := 2]} ∅.
Lemma two_runnable_holds : pct_holds two_runnable (mkAbs {[1; 2]} None ∅).
Proof.
  split; cbn; [repeat constructor; set_solver | set_solver | done | | done |].
  - exists [5]. split; [done | cbn; lia].
  - split; cbn; [| done | done]. intros x Hx. assert (x = 1 \/ x = 2) as [-> | ->] by set_solver; unfold sim_kMaxThreads; lia.
Qed.

Lemma pct_highest_runs_witness : exists t s', pct_PickNext (mkEnv (fun _ => true) (fun _ => false) (fun _ => true) 0) two_runnable = Ret (AThread (Some t), s')
  /\ GetPriority s' 2 <= GetPriority s' t.
Proof.
  destruct (pct_highest_runs two_runnable (mkAbs {[1; 2]} None ∅) (mkEnv (fun _ => true) (fun _ => false) (fun _ => true) 0) two_runnable_holds) as (t & s' & E & _ & Hmax & _).
  - cbn. set_solver.
  - exists t, s'. split; [exact E |]. apply Hmax. cbn. set_solver.
Defined.
