(* ===== verification/SimMemory.v ===== *)
(** The shared memory of the simulator: src/deps/twist/source/twist/rt/sim/system/sync, a
    sequentially consistent memory that checks every access to a non-atomic variable for a
    data race, with vector clocks.

    Atomic actions, wake-ups, spawned threads and reused allocations order accesses.  The
    theorems: on any sequence of operations the vector clocks represent happens-before, which
    is defined on the sequence itself, and a data race is reported at an access exactly if an
    earlier conflicting access of another thread does not happen before it. *)

From S2P Require Import Prelude.
Local Open Scope Z_scope.

(** ** Results

    A failed [WHEELS_ASSERT] or [WHEELS_PANIC]; [AbortIter(Status::InvalidMemoryAccess)];
    an access to a thread that does not exist. *)
Inductive mem_error := MPanic | InvalidMemoryAccess | MCrash.
Inductive MemRes (A : Type) := MOk (a : A) | MErr (e : mem_error).
Arguments MOk {A} _.
Arguments MErr {A} _.

#[export] Instance MemRes_ret : MRet MemRes := @MOk.
#[export] Instance MemRes_bind : MBind MemRes := fun A B f m => match m with MOk a => f a | MErr e => MErr e end.

Definition mem_assert (b : bool) : MemRes () := if b then MOk () else MErr MPanic.

(** ** Vector clocks *)

Abbreviation VectorClock := (list Z).

Definition kClockSize : nat := 16.
Definition vc_Init : VectorClock := replicate kClockSize 0.
Definition tid_index (t : Z) : nat := Z.to_nat (t - 1).
Definition vc_Get (v : VectorClock) (t : Z) : Z := nth (tid_index t) v 0.
(** [n]: [ThreadCount()]. *)
Definition vc_Tick (n : nat) (v : VectorClock) (t : Z) : MemRes VectorClock :=
  _ ← mem_assert (t <=? Z.of_nat n);
  MOk (<[tid_index t := wrap 32 (vc_Get v t + 1)]> v).
(** The first [n] entries are those of [f]. *)
Definition vc_update (n : nat) (f : nat -> Z) (v : VectorClock) : VectorClock := imap (fun i x => if decide (i < n)%nat then f i else x) v.
Definition vc_Assign (n : nat) (v w : VectorClock) : VectorClock := vc_update n (fun i => nth i w 0) v.
Definition vc_Join (n : nat) (v w : VectorClock) : VectorClock := vc_update n (fun i => Z.max (nth i v 0) (nth i w 0)) v.

(** [ThreadContext::Clock] *)
Record ThreadClock := mkClock { clk_current : VectorClock; clk_acquire : VectorClock; clk_release : VectorClock; clk_epoch : Z }.
Definition clock_Init : ThreadClock := mkClock vc_Init vc_Init vc_Init 0.

(** ** Actions *)

Inductive MemoryOrder := mo_relaxed | mo_consume | mo_acquire | mo_release | mo_acq_rel | mo_seq_cst.
Definition IsLoadOrder (mo : MemoryOrder) : bool := match mo with mo_relaxed | mo_acquire | mo_seq_cst => true | _ => false end.
Definition IsAcquireOrder (mo : MemoryOrder) : bool := match mo with mo_acquire | mo_acq_rel | mo_seq_cst => true | _ => false end.
Definition IsStoreOrder (mo : MemoryOrder) : bool := match mo with mo_relaxed | mo_acq_rel | mo_release | mo_seq_cst => true | _ => false end.
Definition IsReleaseOrder (mo : MemoryOrder) : bool := match mo with mo_release | mo_acq_rel | mo_seq_cst => true | _ => false end.

Inductive ActionType := AtomicInit | AtomicLoad | AtomicDebugLoad | AtomicStore | AtomicRmwLoad | AtomicRmwCommit | AtomicDestroy | AtomicThreadFence.
#[export] Instance ActionType_eq_dec : EqDecision ActionType.
Proof. solve_decision. Defined.

(** [Action], without what is only printed. *)
Record Action := mkAction { act_type : ActionType; act_loc : Z; act_size : Z; act_value : Z; act_mo : MemoryOrder }.

Record AtomicVar := mkAtomic { av_size : Z; av_clock : VectorClock; av_value : Z; av_dtor : bool }.

(** ** Accesses *)

Inductive AccessType := AInit | ARead | AWrite | ADestroy.
Definition IsRead (a : AccessType) : bool := match a with ARead => true | _ => false end.
Definition IsWrite (a : AccessType) : bool := negb (IsRead a).

Record OldAccess := mkOld { old_loc : Z; old_type : AccessType; old_thread : Z; old_epoch : Z }.
Record NonAtomicVar := mkVar { last_read : gmap Z OldAccess; last_write : option OldAccess; var_dtor : option OldAccess }.
Definition var_Init : NonAtomicVar := mkVar ∅ None None.
Definition var_Log (v : NonAtomicVar) (a : OldAccess) : NonAtomicVar :=
  if IsRead (old_type a) then mkVar (<[old_thread a := a]> (last_read v)) (last_write v) (var_dtor v)
  else mkVar (last_read v) (Some a) (var_dtor v).

Record Alloc := mkAlloc { al_alive : bool; al_size : Z; al_thread : Z; al_free : VectorClock }.
Definition alloc_new : Alloc := mkAlloc false 0 0 vc_Init.

(** ** The memory model *)

(** [SeqCstMemoryModel], the clocks of the threads, and [ThreadCount]. *)
Record Memory := mkMemory {
  mm_threads : gmap Z ThreadClock; mm_count : nat;
  atomics_ : gmap Z AtomicVar; non_atomics_ : gmap Z NonAtomicVar; allocs_ : gmap Z Alloc;
}.

(** With the main thread. *)
Definition memory_start : Memory := mkMemory {[1 := clock_Init]} 1 ∅ ∅ ∅.

Definition mm_set_thread (m : Memory) (t : Z) (c : ThreadClock) : Memory := mkMemory (<[t := c]> (mm_threads m)) (mm_count m) (atomics_ m) (non_atomics_ m) (allocs_ m).
Definition mm_set_atomic (m : Memory) (l : Z) (v : AtomicVar) : Memory := mkMemory (mm_threads m) (mm_count m) (<[l := v]> (atomics_ m)) (non_atomics_ m) (allocs_ m).
Definition mm_set_var (m : Memory) (l : Z) (v : NonAtomicVar) : Memory := mkMemory (mm_threads m) (mm_count m) (atomics_ m) (<[l := v]> (non_atomics_ m)) (allocs_ m).
Definition mm_set_alloc (m : Memory) (a : Z) (v : Alloc) : Memory := mkMemory (mm_threads m) (mm_count m) (atomics_ m) (non_atomics_ m) (<[a := v]> (allocs_ m)).

Definition mm_thread (m : Memory) (t : Z) : MemRes ThreadClock := match mm_threads m !! t with Some c => MOk c | None => MErr MCrash end.

Definition clk_tick (n : nat) (c : ThreadClock) (t : Z) : MemRes ThreadClock :=
  v ← vc_Tick n (clk_current c) t;
  MOk (mkClock v (clk_acquire c) (clk_release c) (wrap 32 (clk_epoch c + 1))).
(** [Tick] *)
Definition mm_Tick (m : Memory) (t : Z) : MemRes Memory := c ← mm_thread m t; c ← clk_tick (mm_count m) c t; MOk (mm_set_thread m t c).

(** [Simulator::CreateThread]: the next id, and clocks that are zero; [IdAllocator] allows
    [kMaxThreads]. *)
Definition mm_CreateThread (m : Memory) : MemRes (Z * Memory) :=
  _ ← mem_assert (bool_decide (mm_count m < kClockSize)%nat);
  let t := Z.of_nat (S (mm_count m)) in
  MOk (t, mkMemory (<[t := clock_Init]> (mm_threads m)) (S (mm_count m)) (atomics_ m) (non_atomics_ m) (allocs_ m)).

Definition mm_Spawn (m : Memory) (parent child : Z) : MemRes Memory :=
  p ← mm_thread m parent;
  c ← mm_thread m child;
  mm_Tick (mm_set_thread m child (mkClock (vc_Assign (mm_count m) (clk_current c) (clk_current p)) (clk_acquire c) (clk_release c) (clk_epoch c))) child.

Definition mm_Wake (m : Memory) (waker waiter : Z) : MemRes Memory :=
  w ← mm_thread m waker;
  c ← mm_thread m waiter;
  mm_Tick (mm_set_thread m waiter (mkClock (vc_Join (mm_count m) (clk_current c) (clk_release w)) (clk_acquire c) (clk_release c) (clk_epoch c))) waiter.

(** *** Fences *)

Definition FenceRelease (n : nat) (c : ThreadClock) : ThreadClock := mkClock (clk_current c) (clk_acquire c) (vc_Assign n (clk_release c) (clk_current c)) (clk_epoch c).
Definition FenceAcquire (n : nat) (c : ThreadClock) : ThreadClock := mkClock (vc_Join n (clk_current c) (clk_acquire c)) (clk_acquire c) (clk_release c) (clk_epoch c).

Definition mm_fence (m : Memory) (t : Z) (f : nat -> ThreadClock -> ThreadClock) : MemRes Memory := c ← mm_thread m t; MOk (mm_set_thread m t (f (mm_count m) c)).

Definition mm_AtomicThreadFence (m : Memory) (t : Z) (mo : MemoryOrder) : MemRes Memory :=
  match mo with
  | mo_acquire => mm_fence m t FenceAcquire
  | mo_release => mm_fence m t FenceRelease
  | mo_acq_rel => mm_fence m t (fun n c => FenceRelease n (FenceAcquire n c))
  | _ => MErr MPanic
  end.

(** *** Atomics *)

(** [GetShadowAtomicVar], [FutexAtomic]: aborts for an unknown or a destroyed atomic. *)
Definition GetShadowAtomicVar (m : Memory) (l : Z) : MemRes AtomicVar :=
  match atomics_ m !! l with
  | None => MErr InvalidMemoryAccess
  | Some v => if av_dtor v then MErr InvalidMemoryAccess else MOk v
  end.
Definition FutexLoad (m : Memory) (l : Z) : MemRes Z := v ← GetShadowAtomicVar m l; MOk (av_value v).

Definition mm_AtomicInit (m : Memory) (a : Action) : Memory := mm_set_atomic m (act_loc a) (mkAtomic (act_size a) vc_Init (act_value a) false).
Definition mm_AtomicDestroy (m : Memory) (a : Action) : MemRes Memory :=
  v ← GetShadowAtomicVar m (act_loc a);
  MOk (mm_set_atomic m (act_loc a) (mkAtomic (av_size v) (av_clock v) (av_value v) true)).

Definition mm_LoadRelaxed (m : Memory) (t : Z) (v : AtomicVar) : MemRes Memory :=
  c ← mm_thread m t;
  MOk (mm_set_thread m t (mkClock (clk_current c) (vc_Join (mm_count m) (clk_acquire c) (av_clock v)) (clk_release c) (clk_epoch c))).
(** [AtomicLoad] after its assertion, and [AtomicRmwLoad]. *)
Definition mm_load (m : Memory) (t : Z) (a : Action) : MemRes (Z * Memory) :=
  v ← GetShadowAtomicVar m (act_loc a);
  m ← mm_LoadRelaxed m t v;
  m ← (if IsAcquireOrder (act_mo a) then mm_fence m t FenceAcquire else MOk m);
  MOk (av_value v, m).
Definition mm_AtomicLoad (m : Memory) (t : Z) (a : Action) : MemRes (Z * Memory) := _ ← mem_assert (IsLoadOrder (act_mo a)); mm_load m t a.

(** [AtomicStoreRelaxed] assigns the clock of the atomic, [AtomicRmwCommitRelaxed] joins it. *)
Definition mm_StoreRelaxed (join : bool) (m : Memory) (t : Z) (l : Z) (v : AtomicVar) (value : Z) : MemRes Memory :=
  c ← mm_thread m t;
  MOk (mm_set_atomic m l (mkAtomic (av_size v) ((if join then vc_Join else vc_Assign) (mm_count m) (av_clock v) (clk_release c)) value (av_dtor v))).
Definition mm_store (join : bool) (m : Memory) (t : Z) (a : Action) : MemRes Memory :=
  v ← GetShadowAtomicVar m (act_loc a);
  m ← (if IsReleaseOrder (act_mo a) then mm_fence m t FenceRelease else MOk m);
  mm_StoreRelaxed join m t (act_loc a) v (act_value a).
Definition mm_AtomicStore (m : Memory) (t : Z) (a : Action) : MemRes Memory := _ ← mem_assert (IsStoreOrder (act_mo a)); mm_store false m t a.
Definition mm_AtomicRmwCommit (m : Memory) (t : Z) (a : Action) : MemRes Memory := mm_store true m t a.

Definition mm_Sync (m : Memory) (t : Z) (a : Action) : MemRes (Z * Memory) :=
  m ← mm_Tick m t;
  match act_type a with
  | AtomicInit => MOk (0, mm_AtomicInit m a)
  | AtomicDestroy => m ← mm_AtomicDestroy m a; MOk (0, m)
  | AtomicLoad => mm_AtomicLoad m t a
  | AtomicDebugLoad => v ← GetShadowAtomicVar m (act_loc a); MOk (av_value v, m)
  | AtomicStore => m ← mm_AtomicStore m t a; MOk (0, m)
  | AtomicRmwLoad => mm_load m t a
  | AtomicRmwCommit => m ← mm_AtomicRmwCommit m t a; MOk (0, m)
  | AtomicThreadFence => m ← mm_AtomicThreadFence m t (act_mo a); MOk (0, m)
  end.

(** *** Non-atomic variables *)

Definition HappensBefore (old : OldAccess) (c : ThreadClock) : bool := old_epoch old <=? vc_Get (clk_current c) (old_thread old).

Definition CheckDataRaces (n : nat) (t : Z) (c : ThreadClock) (v : NonAtomicVar) (type : AccessType) : option OldAccess :=
  let reads :=
    if IsWrite type then
      head (omap (fun i => let u := Z.of_nat i in
        if bool_decide (u <> t) then match last_read v !! u with Some old => if HappensBefore old c then None else Some old | None => None end else None) (seq 1 n))
    else None in
  match last_write v with
  | Some w => if bool_decide (old_thread w <> t) && negb (HappensBefore w c) then Some w else reads
  | None => reads
  end.

Definition InitNonAtomicVar (m : Memory) (t l : Z) (type : AccessType) : MemRes (option OldAccess * Memory) :=
  c ← mm_thread m t;
  race ← match non_atomics_ m !! l with
         | Some v => match var_dtor v with None => MErr InvalidMemoryAccess | Some _ => MOk (CheckDataRaces (mm_count m) t c v type) end
         | None => MOk None
         end;
  match race with
  | Some old => MOk (Some old, m)
  | None => MOk (None, mm_set_var m l (var_Log var_Init (mkOld l type t (clk_epoch c))))
  end.

Definition AccessLiveNonAtomicVar (m : Memory) (t l : Z) (type : AccessType) : MemRes (option OldAccess * Memory) :=
  c ← mm_thread m t;
  match non_atomics_ m !! l with
  | None => MErr InvalidMemoryAccess
  | Some v =>
      match CheckDataRaces (mm_count m) t c v type with
      | Some old => MOk (Some old, m)
      | None =>
          let curr := mkOld l type t (clk_epoch c) in
          let v := match type with ADestroy => mkVar (last_read v) (last_write v) (Some curr) | _ => v end in
          MOk (None, mm_set_var m l (var_Log v curr))
      end
  end.

Definition AccessNonAtomicVar (m : Memory) (t l : Z) (type : AccessType) : MemRes (option OldAccess * Memory) :=
  m ← mm_Tick m t;
  match type with AInit => InitNonAtomicVar m t l type | _ => AccessLiveNonAtomicVar m t l type end.

(** *** Allocations *)

Definition GetShadowAllocation (m : Memory) (addr : Z) : Alloc := default alloc_new (allocs_ m !! addr).
Definition mm_Malloc (m : Memory) (t addr size : Z) : MemRes Memory :=
  c ← mm_thread m t;
  let al := GetShadowAllocation m addr in
  let m := mm_set_alloc m addr (mkAlloc true size t (al_free al)) in
  MOk (mm_set_thread m t (mkClock (vc_Join (mm_count m) (clk_current c) (al_free al)) (clk_acquire c) (clk_release c) (clk_epoch c))).
Definition mm_Free (m : Memory) (t addr : Z) : MemRes Memory :=
  c ← mm_thread m t;
  let al := GetShadowAllocation m addr in
  MOk (mm_set_alloc m addr (mkAlloc false (al_size al) (al_thread al) (vc_Assign (mm_count m) (al_free al) (clk_current c)))).

(** ** Operations

    One constructor per entry of the model that the simulator uses; [OSpawn] is the creation
    of the thread and [Spawn]. *)

Inductive mem_op :=
| OSpawn (parent child : Z) | OWake (waker waiter : Z) | OSync (t : Z) (a : Action)
| OAccess (t l : Z) (type : AccessType) | OMalloc (t addr size : Z) | OFree (t addr : Z).

(** A data race ends the simulation. *)
Inductive mem_result := MemOk (m : Memory) | MemRace (old : OldAccess) | MemErr (e : mem_error).

Definition to_result (r : MemRes Memory) : mem_result := match r with MOk m => MemOk m | MErr e => MemErr e end.

Definition mem_step (m : Memory) (o : mem_op) : mem_result :=
  match o with
  | OSpawn p c => to_result (x ← mm_CreateThread m; if decide (x.1 = c) then mm_Spawn x.2 p c else MErr MCrash)
  | OWake w t => to_result (mm_Wake m w t)
  | OSync t a => to_result (x ← mm_Sync m t a; MOk x.2)
  | OAccess t l ty => match AccessNonAtomicVar m t l ty with MOk (None, m) => MemOk m | MOk (Some old, _) => MemRace old | MErr e => MemErr e end
  | OMalloc t a n => to_result (mm_Malloc m t a n)
  | OFree t a => to_result (mm_Free m t a)
  end.

Fixpoint mem_run (m : Memory) (ops : list mem_op) : mem_result :=
  match ops with
  | [] => MemOk m
  | o :: ops => match mem_step m o with MemOk m => mem_run m ops | r => r end
  end.

(** ** Happens-before

    Defined on the sequence of operations; positions are numbers.  The thread of an operation
    is the one whose clock it advances. *)

Definition op_thread (o : mem_op) : Z :=
  match o with OSpawn _ c => c | OWake _ t => t | OSync t _ | OAccess t _ _ | OMalloc t _ _ | OFree t _ => t end.

Definition thr (L : list mem_op) (i : nat) (t : Z) : Prop := exists o, L !! i = Some o /\ op_thread o = t.

Definition is_release (a : Action) : bool :=
  match act_type a with
  | AtomicStore | AtomicRmwCommit => IsReleaseOrder (act_mo a)
  | AtomicThreadFence => match act_mo a with mo_release | mo_acq_rel => true | _ => false end
  | _ => false
  end.
Definition is_acquire (a : Action) : bool :=
  match act_type a with
  | AtomicLoad | AtomicRmwLoad => IsAcquireOrder (act_mo a)
  | AtomicThreadFence => match act_mo a with mo_acquire | mo_acq_rel => true | _ => false end
  | _ => false
  end.
Definition is_read (l : Z) (a : Action) : bool := match act_type a with AtomicLoad | AtomicRmwLoad => act_loc a =? l | _ => false end.
Definition is_write (l : Z) (a : Action) : bool := match act_type a with AtomicStore | AtomicRmwCommit => act_loc a =? l | _ => false end.
(** A plain store or an initialization ends the release sequences of the location. *)
Definition is_reset (l : Z) (a : Action) : bool := match act_type a with AtomicStore | AtomicInit => act_loc a =? l | _ => false end.

Definition does (L : list mem_op) (i : nat) (t : Z) (f : Action -> bool) : Prop := exists a, L !! i = Some (OSync t a) /\ f a = true.
Definition frees (L : list mem_op) (i : nat) (a : Z) : Prop := exists t, L !! i = Some (OFree t a).

(** Thread [u] writes [l] at [w], and a read at [p] sees the write or a read-modify-write of
    its release sequence. *)
Definition visible (L : list mem_op) (p : nat) (l : Z) (w : nat) (u : Z) : Prop :=
  (w < p)%nat /\ does L w u (is_write l) /\ forall k v, (w < k < p)%nat -> ~ does L k v (is_reset l).

(** One operation comes before another: in the same thread; what the parent has done before it
    spawns; what the waker has released; what a thread has released before it writes, for a
    thread that reads the write and acquires; and freeing before reusing. *)
Inductive before (L : list mem_op) (i j : nat) : Prop :=
| before_po t : (i < j)%nat -> thr L i t -> thr L j t -> before L i j
| before_spawn p c : (i < j)%nat -> thr L i p -> L !! j = Some (OSpawn p c) -> before L i j
| before_wake w t : (i < j)%nat -> does L i w is_release -> L !! j = Some (OWake w t) -> before L i j
| before_sync u l w t r : does L i u is_release -> (i <= w)%nat -> visible L r l w u -> does L r t (is_read l) -> (r <= j)%nat -> does L j t is_acquire -> before L i j
| before_malloc a t n : (i < j)%nat -> frees L i a -> (forall k, (i < k < j)%nat -> ~ frees L k a) -> L !! j = Some (OMalloc t a n) -> before L i j.

Definition happens_before (L : list mem_op) (i j : nat) : Prop := tc (before L) i j.

(** Two accesses of different threads to the same variable, not both of them reads. *)
Definition conflict (o1 o2 : mem_op) : Prop :=
  match o1, o2 with
  | OAccess t1 l1 a1, OAccess t2 l2 a2 => t1 <> t2 /\ l1 = l2 /\ (IsWrite a1 || IsWrite a2 = true)
  | _, _ => False
  end.

(** *** Prefixes

    What holds among the first operations does not depend on the later ones. *)

Definition agree (L L' : list mem_op) (n : nat) : Prop := forall k, (k < n)%nat -> L !! k = L' !! k.

Lemma agree_sym L L' n : agree L L' n -> agree L' L n.
Proof. intros H k Hk. symmetry. auto. Qed.
Lemma agree_weaken L L' n m : agree L L' n -> (m <= n)%nat -> agree L L' m.
Proof. intros H Hm k Hk. apply H. lia. Qed.
Lemma agree_app L o : agree L (L ++ [o]) (length L).
Proof. intros k Hk. by rewrite lookup_app_l. Qed.

Lemma thr_lt L i t : thr L i t -> (i < length L)%nat.
Proof. intros (o & Ho & _). by eapply lookup_lt_Some. Qed.
Lemma does_lt L i t f : does L i t f -> (i < length L)%nat.
Proof. intros (o & Ho & _). by eapply lookup_lt_Some. Qed.
Lemma does_thr L i t f : does L i t f -> thr L i t.
Proof. intros (a & Ha & _). by exists (OSync t a). Qed.
Lemma thr_agree L L' n i t : agree L L' n -> (i < n)%nat -> thr L i t -> thr L' i t.
Proof. intros H Hi (o & Ho & Ht). exists o. by rewrite <- H. Qed.
Lemma does_agree L L' n i t f : agree L L' n -> (i < n)%nat -> does L i t f -> does L' i t f.
Proof. intros H Hi (a & Ha & Hf). exists a. by rewrite <- H. Qed.
Lemma frees_agree L L' n i a : agree L L' n -> (i < n)%nat -> frees L i a -> frees L' i a.
Proof. intros H Hi (t & Ht). exists t. by rewrite <- H. Qed.
Lemma visible_agree L L' n p l w u : agree L L' n -> (p <= n)%nat -> visible L p l w u -> visible L' p l w u.
Proof.
  intros H Hp (Hw & Hd & Hn). split; [done|]. split; [eapply does_agree; eauto; lia|]. intros k v Hk Hr. apply (Hn k v Hk).
  eapply does_agree; [by apply agree_sym|lia|done].
Qed.

Lemma before_lt L i j : before L i j -> (i < j < length L)%nat.
Proof.
  intros [t H _ Hj|p c H _ Hj|w t H _ Hj|u l w t r _ Hi (Hw & _ & _) _ Hr Hj|a t n H _ _ Hj]; split; try done.
  - by eapply thr_lt.
  - by eapply lookup_lt_Some.
  - by eapply lookup_lt_Some.
  - lia.
  - by eapply does_lt.
  - by eapply lookup_lt_Some.
Qed.

Lemma before_agree L L' n i j : agree L L' n -> (j < n)%nat -> before L i j -> before L' i j.
Proof.
  intros H Hj Hb. destruct Hb as [t Hl Hi Hj'|p c Hl Hi Hj'|w t Hl Hi Hj'|u l w t r Hi Hw Hv Hr Hrj Hj'|a t m Hl Hi Hn Hj'].
  - eapply before_po; [done|eapply thr_agree; eauto; lia|eapply thr_agree; eauto].
  - eapply before_spawn; [done|eapply thr_agree; eauto; lia|by rewrite <- H].
  - eapply before_wake; [done|eapply does_agree; eauto; lia|by rewrite <- H].
  - pose proof Hv as (Hwr & _). eapply (before_sync _ _ _ u l w t r); [eapply does_agree; eauto; lia|done|eapply visible_agree; eauto; lia|eapply does_agree; eauto; lia|done|eapply does_agree; eauto].
  - eapply before_malloc; [done|eapply frees_agree; eauto; lia| |by rewrite <- H]. intros k Hk Hf. apply (Hn k Hk). eapply frees_agree; [by apply agree_sym|lia|done].
Qed.

Lemma hb_le L i j : rtc (before L) i j -> (i <= j)%nat.
Proof. induction 1 as [|x y z Hb _ IH]; [done|]. apply before_lt in Hb. lia. Qed.

Lemma hb_agree L L' n i j : agree L L' n -> (j < n)%nat -> rtc (before L) i j -> rtc (before L') i j.
Proof.
  intros H Hj. induction 1 as [|x y z Hb Hr IH]; [done|]. eapply rtc_l; [|by apply IH]. eapply before_agree; [done| |done]. apply hb_le in Hr. lia.
Qed.

Section extend.
Context (L : list mem_op) (o : mem_op).
Local Notation L' := (L ++ [o]).
Local Notation n := (length L).

Lemma ext_last : L' !! n = Some o.
Proof using. by rewrite list_lookup_middle. Qed.
Lemma ext_old k : (k < n)%nat -> L' !! k = L !! k.
Proof using. intros Hk. symmetry. by apply agree_app. Qed.
Lemma ext_lt k x : L' !! k = Some x -> k = n \/ (k < n)%nat.
Proof using. intros H%lookup_lt_Some. rewrite length_app in H. simpl in H. lia. Qed.

Lemma hb_old i j : (j < n)%nat -> rtc (before L') i j <-> rtc (before L) i j.
Proof using. intros Hj. split; apply (hb_agree _ _ n); try done; [apply agree_sym|]; apply agree_app. Qed.

Lemma hb_new i : rtc (before L') i n <-> i = n \/ exists m, rtc (before L) i m /\ before L' m n.
Proof using.
  split.
  - intros [->|(m & H1 & H2)]%rtc_inv_r; [by left|]. right. exists m. split; [|done]. apply hb_old; [|done]. apply before_lt in H2. lia.
  - intros [->|(m & H1 & H2)]; [done|]. eapply rtc_r; [|done]. apply hb_old; [|done]. apply before_lt in H2. lia.
Qed.

Lemma thr_ext i t : thr L' i t <-> thr L i t \/ (i = n /\ op_thread o = t).
Proof using.
  split.
  - intros (x & Hx & Ht). destruct (ext_lt i x Hx) as [->|Hi]; [rewrite ext_last in Hx; injection Hx as <-; by right|].
    left. exists x. by rewrite <- ext_old.
  - intros [H|[-> <-]]; [|exists o; by rewrite ext_last]. eapply thr_agree; [apply agree_app|by eapply thr_lt|done].
Qed.

Lemma does_ext i t f : does L' i t f <-> does L i t f \/ (i = n /\ exists a, o = OSync t a /\ f a = true).
Proof using.
  split.
  - intros (a & Ha & Hf). destruct (ext_lt i _ Ha) as [->|Hi]; [rewrite ext_last in Ha; injection Ha as Ha; right; eauto|].
    left. exists a. by rewrite <- ext_old.
  - intros [H|(-> & a & Ho & Hf)]; [|exists a; by rewrite ext_last, Ho]. eapply does_agree; [apply agree_app|by eapply does_lt|done].
Qed.

Lemma frees_ext i a : frees L' i a <-> frees L i a \/ (i = n /\ exists t, o = OFree t a).
Proof using.
  split.
  - intros (t & Ht). destruct (ext_lt i _ Ht) as [->|Hi]; [rewrite ext_last in Ht; injection Ht as Ht; right; eauto|]. left. exists t. by rewrite <- ext_old.
  - intros [[t Ht]|(-> & t & Ho)]; [|exists t; by rewrite ext_last, Ho]. exists t. rewrite ext_old; [done|by eapply lookup_lt_Some].
Qed.

Lemma visible_old p l w u : (p <= n)%nat -> visible L' p l w u <-> visible L p l w u.
Proof using. intros Hp. split; apply (visible_agree _ _ n); try done; [apply agree_sym|]; apply agree_app. Qed.
End extend.

(** *** What clocks stand for

    The operations known to a thread; acquired by its reads; released by it; carried by an
    atomic for a read at [p]; and carried by a freed allocation. *)

Definition CUR (L : list mem_op) (t : Z) (i : nat) : Prop := exists j, thr L j t /\ rtc (before L) i j.
Definition REL (L : list mem_op) (t : Z) (i : nat) : Prop := exists j, does L j t is_release /\ rtc (before L) i j.
Definition LOCAT (L : list mem_op) (p : nat) (l : Z) (i : nat) : Prop :=
  exists w u r, visible L p l w u /\ does L r u is_release /\ (r <= w)%nat /\ rtc (before L) i r.
Definition LOC (L : list mem_op) (l : Z) (i : nat) : Prop := LOCAT L (length L) l i.
Definition ACQ (L : list mem_op) (t : Z) (i : nat) : Prop := exists p l, does L p t (is_read l) /\ LOCAT L p l i.
Definition FRE (L : list mem_op) (a : Z) (i : nat) : Prop :=
  exists f, frees L f a /\ (forall k, (f < k < length L)%nat -> ~ frees L k a) /\ rtc (before L) i f.

Lemma CUR_lt L t i : CUR L t i -> (i < length L)%nat.
Proof. intros (j & Hj%thr_lt & Hb%hb_le). lia. Qed.
Lemma REL_CUR L t i : REL L t i -> CUR L t i.
Proof. intros (j & Hj & Hb). exists j. split; [by eapply does_thr|done]. Qed.
Lemma LOCAT_lt L p l i : LOCAT L p l i -> (i < p)%nat.
Proof. intros (w & u & r & (Hw & _ & _) & _ & Hr & Hb%hb_le). lia. Qed.
Lemma ACQ_lt L t i : ACQ L t i -> (i < length L)%nat.
Proof. intros (p & l & Hp%does_lt & Hi%LOCAT_lt). lia. Qed.
Lemma FRE_lt L a i : FRE L a i -> (i < length L)%nat.
Proof. intros (f & (t & Hf%lookup_lt_Some) & _ & Hb%hb_le). lia. Qed.

(** What the last operation learns beside what its thread knows. *)
Definition learns (L : list mem_op) (o : mem_op) (i : nat) : Prop :=
  match o with
  | OSpawn p _ => CUR L p i
  | OWake w _ => REL L w i
  | OSync t a => is_acquire a = true /\ ACQ (L ++ [o]) t i
  | OMalloc _ a _ => FRE L a i
  | _ => False
  end.

Section sets.
Context (L : list mem_op) (o : mem_op).
Local Notation L' := (L ++ [o]).
Local Notation n := (length L).

Lemma does_ext_old i t f : (i < n)%nat -> does L' i t f <-> does L i t f.
Proof using. intros Hi. rewrite does_ext. split; [|by left]. intros [?|[? _]]; [done|lia]. Qed.

Lemma LOCAT_old p l i : (p <= n)%nat -> LOCAT L' p l i <-> LOCAT L p l i.
Proof using.
  intros Hp. split; intros (w & u & r & Hv & Hr & Hrw & Hb); pose proof Hv as (Hwp & _); exists w, u, r.
  - rewrite visible_old in Hv by done. rewrite does_ext_old in Hr by lia. rewrite hb_old in Hb by lia. done.
  - rewrite visible_old by done. rewrite does_ext_old by lia. rewrite hb_old by lia. done.
Qed.

Lemma CUR_other t i : op_thread o <> t -> CUR L' t i <-> CUR L t i.
Proof using.
  intros Ht. split; intros (j & Hj & Hb); exists j.
  - apply thr_ext in Hj as [Hj|[_ ?]]; [|done]. split; [done|]. apply hb_old in Hb; [done|]. by eapply thr_lt.
  - split; [by apply thr_ext; left|]. apply hb_old; [|done]. by eapply thr_lt.
Qed.

Lemma before_thr m : thr L m (op_thread o) -> before L' m n.
Proof using.
  intros H. pose proof (thr_lt _ _ _ H). eapply (before_po _ _ _ (op_thread o)); [lia|by apply thr_ext; left|apply thr_ext; by right].
Qed.

Lemma CUR_same i : CUR L' (op_thread o) i <-> rtc (before L') i n.
Proof using.
  split.
  - intros (j & Hj & Hb). apply thr_ext in Hj as [Hj|[-> _]]; [|done]. eapply rtc_r; [done|]. by apply before_thr.
  - intros Hb. exists n. split; [|done]. apply thr_ext. by right.
Qed.

Lemma REL_other t i : (forall a, o = OSync t a -> is_release a = false) -> REL L' t i <-> REL L t i.
Proof using.
  intros Ho. split; intros (j & Hj & Hb); exists j.
  - apply does_ext in Hj as [Hj|(_ & a & E & Hr)]; [|by rewrite Ho in Hr]. split; [done|]. apply hb_old in Hb; [done|]. by eapply does_lt.
  - split; [by apply does_ext; left|]. apply hb_old; [|done]. by eapply does_lt.
Qed.

Lemma REL_same t a i : o = OSync t a -> is_release a = true -> REL L' t i <-> CUR L' t i.
Proof using.
  intros Ho Hr. split; [apply REL_CUR|]. replace t with (op_thread o) at 1 by by rewrite Ho. rewrite CUR_same. intros Hb. exists n. split; [|done].
  apply does_ext. right. eauto.
Qed.

Lemma ACQ_ext t i : ACQ L' t i <-> ACQ L t i \/ exists a l, o = OSync t a /\ is_read l a = true /\ LOC L l i.
Proof using.
  split.
  - intros (p & l & [Hp|(-> & a & Ho & Hr)]%does_ext & Hl).
    + left. exists p, l. split; [done|]. rewrite LOCAT_old in Hl; [done|]. apply does_lt in Hp. lia.
    + right. exists a, l. split; [done|]. split; [done|]. by rewrite LOCAT_old in Hl.
  - intros [(p & l & Hp & Hl)|(a & l & Ho & Hr & Hl)].
    + exists p, l. split; [by apply does_ext; left|]. rewrite LOCAT_old; [done|]. apply does_lt in Hp. lia.
    + exists n, l. split; [apply does_ext; right; eauto|]. by rewrite LOCAT_old.
Qed.

Lemma ACQ_other t i : (forall a l, o = OSync t a -> is_read l a = false) -> ACQ L' t i <-> ACQ L t i.
Proof using. intros Ho. rewrite ACQ_ext. split; [|by left]. intros [?|(a & l & E & Hr & _)]; [done|]. by rewrite (Ho a l E) in Hr. Qed.

Lemma before_learns m : before L' m n -> thr L m (op_thread o) \/ learns L o m.
Proof using.
  intros H. pose proof (before_lt _ _ _ H) as [Hm _]. destruct H as [t _ Hi Hj|p c _ Hi Hj|w t _ Hi Hj|u l w t r Hi Hw Hv Hr _ Hj|a t k _ Hi Hn Hj].
  - left. apply thr_ext in Hj as [Hj|[_ <-]]; [by apply thr_lt in Hj; lia|]. apply thr_ext in Hi as [?|[? _]]; [done|lia].
  - right. rewrite ext_last in Hj. injection Hj as Ho. rewrite Ho. exists m. split; [|done]. apply thr_ext in Hi as [?|[? _]]; [done|lia].
  - right. rewrite ext_last in Hj. injection Hj as Ho. rewrite Ho. exists m. split; [|done]. by rewrite does_ext_old in Hi.
  - right. apply does_ext in Hj as [Hj|(_ & a & Ho & Ha)]; [by apply does_lt in Hj; lia|]. unfold learns. rewrite Ho. split; [done|]. rewrite <- Ho.
    exists r, l. split; [done|]. exists w, u, m. done.
  - right. rewrite ext_last in Hj. injection Hj as Ho. rewrite Ho. exists m. split; [apply frees_ext in Hi as [?|[? _]]; [done|lia]|]. split; [|done].
    intros k' Hk Hf. apply (Hn k' Hk). apply frees_ext. by left.
Qed.

Lemma learns_before i : learns L o i -> exists m, rtc (before L) i m /\ before L' m n.
Proof using.
  intros H. destruct o as [p c|w t|t a|t l ty|t a k|t a] eqn:Ho; unfold learns in H; try done; try (rewrite <- Ho in H); rewrite <- Ho.
  - destruct H as (m & Hm & Hb). exists m. split; [done|]. pose proof (thr_lt _ _ _ Hm). eapply before_spawn; [done|by apply thr_ext; left|by rewrite ext_last, Ho].
  - destruct H as (m & Hm & Hb). exists m. split; [done|]. pose proof (does_lt _ _ _ _ Hm). eapply before_wake; [done|by apply does_ext; left|by rewrite ext_last, Ho].
  - destruct H as (Ha & p & l & Hp & w & u & r & Hv & Hr & Hrw & Hb). pose proof Hv as (Hwp & _). assert (Hpn : (p <= n)%nat) by (apply does_lt in Hp; rewrite length_app in Hp; simpl in Hp; lia).
    exists r. split; [rewrite hb_old in Hb by lia; done|]. eapply (before_sync _ _ _ u l w t p); try done. apply does_ext. right. eauto.
  - destruct H as (f & Hf & Hn & Hb). exists f. split; [done|]. pose proof Hf as [u Hu]. apply lookup_lt_Some in Hu.
    eapply before_malloc; [done|by apply frees_ext; left| |by rewrite ext_last, Ho]. intros k' Hk [Hf'|[? _]]%frees_ext; [|lia]. by apply (Hn k').
Qed.

(** The thread of the last operation knows the operation, what it knew, and what it learns. *)
Lemma learns_closed i m : rtc (before L) i m -> learns L o m -> learns L o i.
Proof using.
  intros Hb. unfold learns. destruct o as [p c|w t|t a|t l ty|t a k|t a] eqn:Ho; try done; try (rewrite <- Ho).
  - intros (j & Hj & H). exists j. split; [done|]. by etrans.
  - intros (j & Hj & H). exists j. split; [done|]. by etrans.
  - intros (Ha & p & l & Hp & w & u & r & Hv & Hr & Hrw & H). split; [done|]. exists p, l. split; [done|]. exists w, u, r. split; [done|]. split; [done|]. split; [done|].
    pose proof Hv as (Hwp & _). assert (Hpn : (p <= n)%nat) by (apply does_lt in Hp; rewrite length_app in Hp; simpl in Hp; lia).
    rewrite hb_old by lia. rewrite hb_old in H by lia. by etrans.
  - intros (f & Hf & Hn & H). exists f. split; [done|]. split; [done|]. by etrans.
Qed.

Lemma CUR_new i : CUR L' (op_thread o) i <-> i = n \/ CUR L (op_thread o) i \/ learns L o i.
Proof using.
  rewrite CUR_same, hb_new. split; (intros [?|H]; [by left|right]).
  - destruct H as (m & Hb & Hm). apply before_learns in Hm as [Hm|Hm]; [left; by exists m|right; by eapply learns_closed].
  - destruct H as [(j & Hj & Hb)|H]; [|by apply learns_before]. exists j. split; [done|]. by apply before_thr.
Qed.

Lemma visible_new l w u : visible L' (S n) l w u <->
  (w = n /\ exists a, o = OSync u a /\ is_write l a = true) \/ (visible L n l w u /\ forall t a, o = OSync t a -> is_reset l a = false).
Proof using.
  split.
  - intros (Hw & [Hd|(-> & a & Ho & Ha)]%does_ext & Hn); [|left; eauto]. pose proof (does_lt _ _ _ _ Hd). right. split.
    + split; [lia|]. split; [done|]. intros k v Hk Hr. apply (Hn k v); [lia|]. apply does_ext. by left.
    + intros t a Ho. destruct (is_reset l a) eqn:E; [|done]. exfalso. apply (Hn n t); [lia|]. apply does_ext. right. eauto.
  - intros [(-> & a & Ho & Ha)|[(Hw & Hd & Hn) Hr]].
    + split; [lia|]. split; [apply does_ext; right; eauto|]. lia.
    + split; [lia|]. split; [apply does_ext; by left|]. intros k v Hk [Hk'|(-> & a & Ho & Ha)]%does_ext; [|by rewrite (Hr _ _ Ho) in Ha].
      apply (Hn k v); [apply does_lt in Hk'; lia|done].
Qed.

Lemma LOC_new l i : LOC L' l i <-> (exists u a, o = OSync u a /\ is_write l a = true /\ REL L' u i) \/ (LOC L l i /\ forall t a, o = OSync t a -> is_reset l a = false).
Proof using.
  unfold LOC. rewrite length_app, Nat.add_1_r. split.
  - intros (w & u & r & [(-> & a & Ho & Ha)|[Hv Hr]]%visible_new & Hd & Hrw & Hb).
    + left. exists u, a. split; [done|]. split; [done|]. by exists r.
    + right. split; [|done]. pose proof Hv as (Hwn & _). exists w, u, r. rewrite does_ext_old in Hd by lia. rewrite hb_old in Hb by lia. done.
  - intros [(u & a & Ho & Ha & r & Hr & Hb)|[(w & u & r & Hv & Hd & Hrw & Hb) Hno]].
    + exists n, u, r. split; [apply visible_new; left; eauto|]. split; [done|]. split; [|done]. apply does_lt in Hr. rewrite length_app in Hr. simpl in Hr. lia.
    + pose proof Hv as (Hwn & _). exists w, u, r. split; [apply visible_new; by right|]. rewrite does_ext_old by lia. rewrite hb_old by lia. done.
Qed.

Lemma FRE_same t a i : o = OFree t a -> FRE L' a i <-> CUR L' t i.
Proof using.
  intros Ho. replace t with (op_thread o) at 1 by by rewrite Ho. rewrite CUR_same. split.
  - intros (f & [Hf|[-> _]]%frees_ext & Hn & Hb); [|done]. exfalso. pose proof Hf as [u Hu]. apply lookup_lt_Some in Hu.
    apply (Hn n); [rewrite length_app; simpl; lia|]. apply frees_ext. right. eauto.
  - intros Hb. exists n. split; [apply frees_ext; right; eauto|]. split; [|done]. intros k Hk. rewrite length_app in Hk. simpl in Hk. lia.
Qed.

Lemma FRE_other a i : (forall t, o <> OFree t a) -> FRE L' a i <-> FRE L a i.
Proof using.
  intros Ho. split; intros (f & Hf & Hn & Hb); exists f.
  - apply frees_ext in Hf as [Hf|(_ & t & ?)]; [|by destruct (Ho t)]. split; [done|]. pose proof Hf as [u Hu]. apply lookup_lt_Some in Hu. rewrite hb_old in Hb by done. split; [|done].
    intros k Hk Hf'. apply (Hn k); [rewrite length_app; simpl; lia|]. apply frees_ext. by left.
  - split; [by apply frees_ext; left|]. pose proof Hf as [u Hu]. apply lookup_lt_Some in Hu. rewrite hb_old by done. split; [|done].
    intros k Hk [Hf'|(_ & t & ?)]%frees_ext; [|by destruct (Ho t)]. apply (Hn k); [|done]. rewrite length_app in Hk. destruct Hf' as [v Hv]. apply lookup_lt_Some in Hv. lia.
Qed.
End sets.

(** ** Clocks represent sets of operations

    A thread numbers the operations that advance its clock. *)

Definition ticking (o : mem_op) : bool := match o with OMalloc _ _ _ | OFree _ _ => false | _ => true end.
Definition ticks (L : list mem_op) (t : Z) : Z := Z.of_nat (length (filter (fun o => ticking o = true /\ op_thread o = t) L)).
Definition stamp (L : list mem_op) (i : nat) (t : Z) : Z := ticks (take (S i) L) t.

Lemma ticks_snoc L o t : ticks (L ++ [o]) t = ticks L t + (if decide (ticking o = true /\ op_thread o = t) then 1 else 0).
Proof. unfold ticks. rewrite list.filter_app, length_app, Nat2Z.inj_add, list.filter_cons, list.filter_nil. by destruct (decide _). Qed.

Lemma ticks_bounds L t : 0 <= ticks L t <= Z.of_nat (length L).
Proof. unfold ticks. pose proof (list.length_filter (fun o => ticking o = true /\ op_thread o = t) L). lia. Qed.

Lemma stamp_old L o i t : (i < length L)%nat -> stamp (L ++ [o]) i t = stamp L i t.
Proof. intros Hi. unfold stamp. by rewrite take_app_le by lia. Qed.
Lemma stamp_last L o t : stamp (L ++ [o]) (length L) t = ticks (L ++ [o]) t.
Proof. unfold stamp. by rewrite take_ge by (rewrite length_app; simpl; lia). Qed.
Lemma stamp_le L i t : stamp L i t <= ticks L t.
Proof. unfold stamp. rewrite <- (take_drop (S i) L) at 2. unfold ticks. rewrite list.filter_app, length_app. lia. Qed.

Lemma no_ticks L t : (forall i, ~ thr L i t) -> ticks L t = 0.
Proof.
  intros H. unfold ticks. replace (filter _ L) with (@nil mem_op); [done|]. symmetry.
  induction L as [|o L IH]; [done|]. rewrite list.filter_cons, decide_False.
  - apply IH. intros i (x & Hx & Ht). apply (H (S i)). by exists x.
  - intros [_ Ho]. apply (H O). by exists o.
Qed.

(** A later operation of a thread has a greater number. *)
Lemma stamp_mono L i j t : (i <= j)%nat -> stamp L i t <= stamp L j t.
Proof.
  intros Hij. unfold stamp.
  assert (E : take (S j) L = take (S i) L ++ drop (S i) (take (S j) L)). { rewrite <- (take_drop (S i) (take (S j) L)) at 1. rewrite take_take. by rewrite Nat.min_l by lia. }
  rewrite E. unfold ticks. rewrite list.filter_app, length_app. lia.
Qed.

(** *** Entries of a clock *)

Definition tid_ok (t : Z) : Prop := 1 <= t <= Z.of_nat kClockSize.

Lemma tid_index_inj t u : tid_ok t -> tid_ok u -> tid_index t = tid_index u -> t = u.
Proof. unfold tid_ok, tid_index. lia. Qed.

Lemma Get_insert v t u x : length v = kClockSize -> tid_ok t -> tid_ok u -> vc_Get (<[tid_index t := x]> v) u = if decide (u = t) then x else vc_Get v u.
Proof.
  intros Hl Ht Hu. unfold vc_Get. rewrite !nth_lookup. case_decide as E.
  - subst u. rewrite list_lookup_insert_eq; [done|]. rewrite Hl. unfold tid_ok, tid_index, kClockSize in *. lia.
  - rewrite list_lookup_insert_ne; [done|]. intros Hi. apply E. symmetry. by apply tid_index_inj.
Qed.

Lemma length_update n f v : length (vc_update n f v) = length v.
Proof. unfold vc_update. apply length_imap. Qed.

Lemma Get_update n f v t : length v = kClockSize -> tid_ok t -> vc_Get (vc_update n f v) t = if decide (t <= Z.of_nat n) then f (tid_index t) else vc_Get v t.
Proof.
  intros Hl Ht. unfold vc_Get, vc_update. rewrite !nth_lookup, list_lookup_imap. destruct (lookup_lt_is_Some_2 v (tid_index t)) as [x Hx].
  { rewrite Hl. unfold tid_ok, tid_index, kClockSize in *. lia. }
  rewrite Hx. simpl. unfold tid_ok, tid_index in *. repeat case_decide; try done; lia.
Qed.

Lemma Get_Init t : vc_Get vc_Init t = 0.
Proof. unfold vc_Get, vc_Init. rewrite nth_lookup. destruct (replicate kClockSize 0 !! tid_index t) as [x|] eqn:E; [|done]. by apply lookup_replicate in E as [-> _]. Qed.

(** *** The representation *)

Record repr (L : list mem_op) (v : VectorClock) (S : nat -> Prop) : Prop := {
  rp_length : length v = kClockSize;
  rp_bounds : forall t, tid_ok t -> 0 <= vc_Get v t <= ticks L t;
  rp_lt : forall i, S i -> (i < length L)%nat;
  rp_set : forall i o, L !! i = Some o -> ticking o = true -> S i <-> stamp L i (op_thread o) <= vc_Get v (op_thread o);
}.

Lemma repr_iff L v S S' : (forall i, S i <-> S' i) -> repr L v S -> repr L v S'.
Proof. intros E [H1 H2 H3 H4]. split; [done|done| |]; [intros i Hi; by apply H3, E|]. intros i o Hi Ho. rewrite <- (E i). auto. Qed.

Section represent.
Context (L : list mem_op) (n : nat) (Hn : (n <= kClockSize)%nat) (Hops : forall i t, thr L i t -> 1 <= t <= Z.of_nat n).

Lemma op_tid i o : L !! i = Some o -> tid_ok (op_thread o).
Proof using Hn Hops. intros Hi. assert (Ht : thr L i (op_thread o)) by by exists o. apply Hops in Ht. unfold tid_ok. lia. Qed.

(** Entries of threads that do not exist are zero. *)
Lemma repr_zero v S t : repr L v S -> tid_ok t -> Z.of_nat n < t -> vc_Get v t = 0.
Proof using Hn Hops.
  intros H Ht Hlt. pose proof (rp_bounds _ _ _ H t Ht) as Hb. rewrite no_ticks in Hb; [lia|]. intros i Hi%Hops. lia.
Qed.

Lemma repr_Init : repr L vc_Init (fun _ => False).
Proof using Hn Hops.
  split; [done| |done|].
  - intros t _. rewrite Get_Init. pose proof (ticks_bounds L t). lia.
  - intros i o Hi Ho. rewrite Get_Init. split; [done|]. pose proof (ticks_snoc (take i L) o (op_thread o)) as E. rewrite decide_True in E by done.
    unfold stamp. rewrite (take_S_r _ _ _ Hi), E. pose proof (ticks_bounds (take i L) (op_thread o)). lia.
Qed.

Lemma repr_Assign v w S T : repr L v S -> repr L w T -> repr L (vc_Assign n v w) T.
Proof using Hn Hops.
  intros Hv Hw. assert (E : forall t, tid_ok t -> vc_Get (vc_Assign n v w) t = vc_Get w t).
  { intros t Ht. unfold vc_Assign. rewrite Get_update by (apply (rp_length _ _ _ Hv) || done). case_decide; [done|]. rewrite (repr_zero v S t), (repr_zero w T t) by (done || lia). done. }
  split.
  - unfold vc_Assign. rewrite length_update. apply (rp_length _ _ _ Hv).
  - intros t Ht. rewrite E by done. by apply (rp_bounds _ _ _ Hw).
  - apply (rp_lt _ _ _ Hw).
  - intros i o Hi Ho. rewrite E by by eapply op_tid. by apply (rp_set _ _ _ Hw).
Qed.

Lemma repr_Join v w S T : repr L v S -> repr L w T -> repr L (vc_Join n v w) (fun i => S i \/ T i).
Proof using Hn Hops.
  intros Hv Hw. assert (E : forall t, tid_ok t -> vc_Get (vc_Join n v w) t = Z.max (vc_Get v t) (vc_Get w t)).
  { intros t Ht. unfold vc_Join. rewrite Get_update by (apply (rp_length _ _ _ Hv) || done). case_decide; [done|].
    rewrite (repr_zero v S t), (repr_zero w T t) by (done || lia). done. }
  split.
  - unfold vc_Join. rewrite length_update. apply (rp_length _ _ _ Hv).
  - intros t Ht. rewrite E by done. pose proof (rp_bounds _ _ _ Hv t Ht). pose proof (rp_bounds _ _ _ Hw t Ht). lia.
  - intros i [?|?]; [by apply (rp_lt _ _ _ Hv)|by apply (rp_lt _ _ _ Hw)].
  - intros i o Hi Ho. rewrite E by by eapply op_tid. rewrite (rp_set _ _ _ Hv i o Hi Ho), (rp_set _ _ _ Hw i o Hi Ho). lia.
Qed.

(** The clock is kept while an operation is done. *)
Lemma repr_keep v S o : tid_ok (op_thread o) -> repr L v S -> repr (L ++ [o]) v S.
Proof using Hn.
  intros Ht H. split.
  - apply (rp_length _ _ _ H).
  - intros t Hok. rewrite ticks_snoc. pose proof (rp_bounds _ _ _ H t Hok). case_decide; lia.
  - intros i Hi. apply (rp_lt _ _ _ H) in Hi. rewrite length_app. lia.
  - intros i x Hi Hx. destruct (decide (i < length L)%nat) as [Hlt|Hge].
    + rewrite stamp_old by done. rewrite lookup_app_l in Hi by done. by apply (rp_set _ _ _ H).
    + assert (i = length L) as -> by (apply lookup_lt_Some in Hi; rewrite length_app in Hi; simpl in Hi; lia).
      rewrite list_lookup_middle in Hi by done. injection Hi as <-. rewrite stamp_last, ticks_snoc, decide_True by done.
      pose proof (rp_bounds _ _ _ H _ Ht). split; [intros Hi%(rp_lt _ _ _ H); lia|lia].
Qed.

(** The clock of the thread of the operation advances. *)
Lemma repr_tick v S o : tid_ok (op_thread o) -> ticking o = true -> repr L v S -> (forall i, thr L i (op_thread o) -> S i) ->
  repr (L ++ [o]) (<[tid_index (op_thread o) := ticks L (op_thread o) + 1]> v) (fun i => i = length L \/ S i).
Proof using Hn Hops.
  intros Ht Hk H Hall. pose proof (rp_length _ _ _ H) as Hl. split.
  - by rewrite length_insert.
  - intros t Hok. rewrite Get_insert by done. rewrite ticks_snoc. pose proof (rp_bounds _ _ _ H t Hok). pose proof (ticks_bounds L t). case_decide as E; [subst t; rewrite decide_True by done; lia|].
    rewrite decide_False; [lia|]. intros [_ ?]. done.
  - rewrite length_app. simpl. intros i [->|Hi%(rp_lt _ _ _ H)]; lia.
  - intros i x Hi Hx. destruct (decide (i < length L)%nat) as [Hlt|Hge].
    + rewrite stamp_old by done. rewrite lookup_app_l in Hi by done. rewrite Get_insert by (done || by eapply op_tid). case_decide as E.
      * split; [intros _|intros _; right; apply Hall; by exists x]. rewrite E. pose proof (stamp_le L i (op_thread o)). lia.
      * rewrite <- (rp_set _ _ _ H i x Hi Hx). split; [|by right]. intros [->|?]; [lia|done].
    + assert (i = length L) as -> by (apply lookup_lt_Some in Hi; rewrite length_app in Hi; simpl in Hi; lia).
      rewrite list_lookup_middle in Hi by done. injection Hi as <-. rewrite stamp_last, ticks_snoc, decide_True by done. rewrite Get_insert by done. rewrite decide_True by done.
      split; [intros _; lia|by left].
Qed.
End represent.

Lemma last_tick L t : 0 < ticks L t -> exists i o, L !! i = Some o /\ ticking o = true /\ op_thread o = t /\ stamp L i t = ticks L t.
Proof.
  induction L as [|o L IH] using rev_ind; [done|]. rewrite ticks_snoc. case_decide as E.
  - intros _. exists (length L), o. rewrite list_lookup_middle by done. split; [done|]. split; [apply E|]. split; [apply E|]. by rewrite stamp_last, ticks_snoc, decide_True.
  - rewrite Z.add_0_r. intros (i & x & Hi & Hx & Ht & Hs)%IH. pose proof (lookup_lt_Some _ _ _ Hi). exists i, x. rewrite lookup_app_l by done. by rewrite stamp_old.
Qed.

(** A clock that knows all operations of a thread. *)
Lemma repr_full L v S t : tid_ok t -> repr L v S -> (forall i, thr L i t -> S i) -> vc_Get v t = ticks L t.
Proof.
  intros Ht H Hall. pose proof (rp_bounds _ _ _ H t Ht) as Hb. destruct (decide (0 < ticks L t)) as [Hp|]; [|lia].
  destruct (last_tick L t Hp) as (i & o & Hi & Hk & <- & Hs). assert (Hin : S i) by (apply Hall; by exists o). apply (rp_set _ _ _ H i o Hi Hk) in Hin. lia.
Qed.

(** *** The invariant of the memory *)

Record thread_ok (L : list mem_op) (t : Z) (c : ThreadClock) : Prop := {
  to_current : repr L (clk_current c) (CUR L t);
  to_acquire : repr L (clk_acquire c) (ACQ L t);
  to_release : repr L (clk_release c) (REL L t);
  to_epoch : clk_epoch c = ticks L t;
}.

Record clocks_ok (L : list mem_op) (m : Memory) : Prop := {
  ck_count : (mm_count m <= kClockSize)%nat;
  ck_ops : forall i t, thr L i t -> 1 <= t <= Z.of_nat (mm_count m);
  ck_thread : forall t c, mm_threads m !! t = Some c -> 1 <= t <= Z.of_nat (mm_count m) /\ thread_ok L t c;
  ck_atomic : forall l v, atomics_ m !! l = Some v -> repr L (av_clock v) (LOC L l);
  ck_alloc : forall a, repr L (al_free (GetShadowAllocation m a)) (FRE L a);
}.

Lemma no_ops : forall i t, ~ thr [] i t.
Proof. intros i t (o & Ho & _). by rewrite lookup_nil in Ho. Qed.

Lemma clocks_start : clocks_ok [] memory_start.
Proof.
  assert (H0 : forall S : nat -> Prop, (forall i, ~ S i) -> repr [] vc_Init S).
  { intros S HS. eapply repr_iff; [|apply (repr_Init [] 1); [unfold kClockSize; lia|intros i t Hi; by apply no_ops in Hi]]. naive_solver. }
  split; simpl; [unfold kClockSize; lia|intros i t Hi; by apply no_ops in Hi| |done|].
  - intros t c [<- <-]%lookup_singleton_Some. split; [lia|]. split; simpl; [| | |done]; apply H0; intros i.
    + by intros ?%CUR_lt%Nat.nlt_0_r.
    + by intros ?%ACQ_lt%Nat.nlt_0_r.
    + by intros ?%REL_CUR%CUR_lt%Nat.nlt_0_r.
  - intros a. apply H0. by intros i ?%FRE_lt%Nat.nlt_0_r.
Qed.

Section step.
Context (L : list mem_op) (m : Memory) (H : clocks_ok L m) (o : mem_op) (Ht : 1 <= op_thread o <= Z.of_nat (mm_count m)).
Local Notation L' := (L ++ [o]).
Local Notation n := (length L).
Local Notation cnt := (mm_count m).

Lemma step_tid : tid_ok (op_thread o).
Proof using H Ht. pose proof (ck_count _ _ H). unfold tid_ok. lia. Qed.

Lemma step_ops i t : thr L' i t -> 1 <= t <= Z.of_nat cnt.
Proof using H Ht. intros [Hi|[_ <-]]%thr_ext; [by eapply (ck_ops _ _ H)|done]. Qed.

Lemma keep v S S' : repr L v S -> (forall i, S' i <-> S i) -> repr L' v S'.
Proof using H Ht.
  intros Hv E. apply (repr_iff _ _ S); [intros i; by rewrite E|]. apply (repr_keep L cnt); [apply (ck_count _ _ H)|apply step_tid|done].
Qed.

Lemma keep_release v t : (forall a, o = OSync t a -> is_release a = false) -> repr L v (REL L t) -> repr L' v (REL L' t).
Proof using H Ht. intros Ho Hv. eapply keep; [done|]. intros i. by apply REL_other. Qed.
Lemma keep_acquire v t : (forall a l, o = OSync t a -> is_read l a = false) -> repr L v (ACQ L t) -> repr L' v (ACQ L' t).
Proof using H Ht. intros Ho Hv. eapply keep; [done|]. intros i. by apply ACQ_other. Qed.
Lemma keep_alloc a : (forall t, o <> OFree t a) -> repr L' (al_free (GetShadowAllocation m a)) (FRE L' a).
Proof using H Ht. intros Ho. eapply keep; [apply (ck_alloc _ _ H)|]. intros i. by apply FRE_other. Qed.
Lemma keep_atomic l v : (forall t a, o = OSync t a -> is_write l a = false /\ is_reset l a = false) -> atomics_ m !! l = Some v -> repr L' (av_clock v) (LOC L' l).
Proof using H Ht.
  intros Ho Hv. eapply keep; [by apply (ck_atomic _ _ H)|]. intros i. rewrite LOC_new. split.
  - intros [(u & a & E & Hw & _)|[? _]]; [|done]. by destruct (Ho u a E) as [E' _]; rewrite E' in Hw.
  - intros Hi. right. split; [done|]. intros t a E. by apply (Ho t a).
Qed.

Lemma keep_thread t c : t <> op_thread o -> thread_ok L t c -> thread_ok L' t c.
Proof using H Ht.
  intros Hne [H1 H2 H3 H4]. assert (Ho : forall a, o <> OSync t a) by (intros a E; by rewrite E in Hne). split.
  - eapply keep; [done|]. intros i. apply CUR_other. congruence.
  - apply keep_acquire; [|done]. intros a l E. by destruct (Ho a).
  - apply keep_release; [|done]. intros a E. by destruct (Ho a).
  - rewrite H4, ticks_snoc, decide_False; [lia|]. intros [_ ?]. congruence.
Qed.

Lemma tick_ok v S : ticking o = true -> Z.of_nat n < 2 ^ 32 - 1 -> repr L v S -> (forall i, thr L i (op_thread o) -> S i) ->
  exists v', vc_Tick cnt v (op_thread o) = MOk v' /\ repr L' v' (fun i => i = n \/ S i).
Proof using H Ht.
  intros Hk Hsz Hv Hall. unfold vc_Tick, mem_assert. destruct (Z.leb_spec (op_thread o) (Z.of_nat cnt)); [|lia].
  eexists. split; [done|]. rewrite (repr_full L v S _ step_tid Hv Hall).
  assert (E : wrap 32 (ticks L (op_thread o) + 1) = ticks L (op_thread o) + 1).
  { pose proof (ticks_bounds L (op_thread o)). unfold wrap, wbits. apply Z.mod_small. lia. }
  rewrite E. apply (repr_tick L cnt); [apply (ck_count _ _ H)|apply (ck_ops _ _ H)|apply step_tid|done|done|done].
Qed.

Lemma epoch_ok : ticking o = true -> Z.of_nat n < 2 ^ 32 - 1 -> wrap 32 (ticks L (op_thread o) + 1) = ticks L' (op_thread o).
Proof using H Ht.
  intros Hk Hsz. rewrite ticks_snoc, decide_True by done. pose proof (ticks_bounds L (op_thread o)). unfold wrap, wbits. apply Z.mod_small. lia.
Qed.
End step.

Section steps.
Context (L : list mem_op) (m : Memory) (H : clocks_ok L m) (o : mem_op) (Ht : 1 <= op_thread o <= Z.of_nat (mm_count m)).
Local Notation L' := (L ++ [o]).
Local Notation n := (length L).
Local Notation cnt := (mm_count m).
Local Notation t := (op_thread o).

Lemma clocks_rebuild m' c' : mm_count m' = cnt -> mm_threads m' = <[t := c']> (mm_threads m) -> thread_ok L' t c' ->
  (forall l v, atomics_ m' !! l = Some v -> repr L' (av_clock v) (LOC L' l)) -> (forall a, repr L' (al_free (GetShadowAllocation m' a)) (FRE L' a)) -> clocks_ok L' m'.
Proof using H Ht.
  intros E1 E2 Hc Ha Hf. split; [rewrite E1; apply (ck_count _ _ H)|rewrite E1; by apply step_ops| |done|done].
  intros u c. rewrite E1, E2. destruct (decide (u = t)) as [->|Hne].
  - rewrite lookup_insert_eq. by intros [= <-].
  - rewrite lookup_insert_ne by done. intros Hu. destruct (ck_thread _ _ H u c Hu). split; [done|]. by eapply keep_thread.
Qed.

Lemma join_ok v w S T : repr L' v S -> repr L' w T -> repr L' (vc_Join cnt v w) (fun i => S i \/ T i).
Proof using H Ht. apply repr_Join; [apply (ck_count _ _ H)|by apply step_ops]. Qed.
Lemma assign_ok v w S T : repr L' v S -> repr L' w T -> repr L' (vc_Assign cnt v w) T.
Proof using H Ht. apply repr_Assign; [apply (ck_count _ _ H)|by apply step_ops]. Qed.

(** The clock of the thread after [Tick]: it knows the operation, and what it knew. *)
Record ticked (c : ThreadClock) : Prop := {
  tk_current : repr L' (clk_current c) (fun i => i = n \/ CUR L t i);
  tk_acquire : repr L' (clk_acquire c) (ACQ L t);
  tk_release : repr L' (clk_release c) (REL L t);
  tk_epoch : clk_epoch c = ticks L' t;
}.

Lemma CUR_thr i : thr L i t -> CUR L t i.
Proof using H Ht. intros Hi. by exists i. Qed.

Lemma mm_Tick_ok m1 : ticking o = true -> Z.of_nat n < 2 ^ 32 - 1 -> mm_Tick m t = MOk m1 -> exists c, m1 = mm_set_thread m t c /\ ticked c.
Proof using H Ht.
  intros Hk Hsz. unfold mm_Tick, mm_thread. destruct (mm_threads m !! t) as [c|] eqn:Ec; simpl; [|done]. destruct (ck_thread _ _ H t c Ec) as [_ [H1 H2 H3 H4]].
  destruct (tick_ok L m H o Ht (clk_current c) (CUR L t) Hk Hsz H1 CUR_thr) as (v & Ev & Hv). unfold clk_tick. rewrite Ev. simpl. intros [= <-].
  eexists. split; [done|]. split; simpl; [done|by apply (keep L m H o Ht _ (ACQ L t))|by apply (keep L m H o Ht _ (REL L t))|]. rewrite H4. by eapply epoch_ok.
Qed.

(** After an operation that neither acquires nor releases. *)
Lemma ticked_thread c : ticked c -> (forall i, ~ learns L o i) -> (forall a l, o = OSync t a -> is_read l a = false) -> (forall a, o = OSync t a -> is_release a = false) -> thread_ok L' t c.
Proof using H Ht.
  intros [H1 H2 H3 H4] Hn Hr Hl. split; [| | |done].
  - eapply repr_iff; [|exact H1]. intros i. rewrite CUR_new. specialize (Hn i). tauto.
  - eapply repr_iff; [|exact H2]. intros i. by rewrite ACQ_other.
  - eapply repr_iff; [|exact H3]. intros i. by rewrite REL_other.
Qed.

Lemma clocks_access l ty r m' : o = OAccess t l ty -> Z.of_nat n < 2 ^ 32 - 1 -> AccessNonAtomicVar m t l ty = MOk (r, m') -> clocks_ok L' m'.
Proof using H Ht.
  intros Ho Hsz. unfold AccessNonAtomicVar. destruct (mm_Tick m t) as [m1|e] eqn:E1; simpl; [|done].
  apply mm_Tick_ok in E1 as (c & -> & Hc); [|by rewrite Ho|done]. intros E.
  assert (Hm : mm_count m' = cnt /\ mm_threads m' = <[t := c]> (mm_threads m) /\ atomics_ m' = atomics_ m /\ allocs_ m' = allocs_ m).
  { destruct ty; unfold InitNonAtomicVar, AccessLiveNonAtomicVar, mm_thread in E; simpl in E; rewrite lookup_insert_eq in E; simpl in E;
      destruct (non_atomics_ m !! l) as [v|]; simpl in E; try (destruct (var_dtor v)); simpl in E; try (destruct (CheckDataRaces _ _ _ _ _)); by simplify_eq. }
  destruct Hm as (E2 & E3 & E4 & E5). eapply clocks_rebuild; [done|exact E3|apply ticked_thread; [done|..]| |].
  - intros i. unfold learns. rewrite Ho. simpl. tauto.
  - intros a k Ha. by rewrite Ho in Ha.
  - intros a Ha. by rewrite Ho in Ha.
  - intros k v. rewrite E4. apply keep_atomic; [done|done|]. intros u a Ha. by rewrite Ho in Ha.
  - intros a. unfold GetShadowAllocation. rewrite E5. apply keep_alloc; [done|done|]. intros u Hu. by rewrite Ho in Hu.
Qed.

Section sync.
Context (a : Action) (Ho : o = OSync t a).

Lemma clocks_sync c m' : mm_count m' = cnt -> mm_threads m' = <[t := c]> (mm_threads m) -> thread_ok L' t c -> allocs_ m' = allocs_ m ->
  (forall l v, atomics_ m' !! l = Some v -> (l = act_loc a /\ repr L' (av_clock v) (LOC L' l)) \/ (is_write l a = false /\ is_reset l a = false /\ exists v0, atomics_ m !! l = Some v0 /\ av_clock v = av_clock v0)) ->
  clocks_ok L' m'.
Proof using H Ht Ho.
  intros E1 E2 Hc E3 Ha. eapply clocks_rebuild; [done|exact E2|done| |].
  - intros l v Hv. destruct (Ha l v Hv) as [[_ ?]|(Hw & Hr & v0 & Hv0 & ->)]; [done|]. eapply keep_atomic; try done. intros u b Hb. rewrite Ho in Hb. by injection Hb as _ ->.
  - intros b. unfold GetShadowAllocation. rewrite E3. apply keep_alloc; [done|done|]. intros u Hu. by rewrite Ho in Hu.
Qed.

Lemma learns_sync i : learns L o i <-> is_acquire a = true /\ ACQ L' t i.
Proof using H Ht Ho. unfold learns. rewrite Ho. simpl. done. Qed.

Lemma acq_sync i l : act_loc a = l -> (forall k, is_read k a = (l =? k)) -> ACQ L' t i <-> ACQ L t i \/ LOC L l i.
Proof using H Ht Ho.
  intros Hl Hr. rewrite ACQ_ext. split; (intros [?|Hx]; [by left|right]).
  - destruct Hx as (b & k & Hb & Hk & Hi). rewrite Ho in Hb. injection Hb as <-. rewrite Hr in Hk. by apply Z.eqb_eq in Hk as ->.
  - exists a, l. split; [done|]. split; [|done]. rewrite Hr. apply Z.eqb_refl.
Qed.

Lemma no_read : (forall l, is_read l a = false) -> forall b l, o = OSync t b -> is_read l b = false.
Proof using H Ht Ho. intros Hr b l Hb. rewrite Ho in Hb. by injection Hb as <-. Qed.
Lemma no_release : is_release a = false -> forall b, o = OSync t b -> is_release b = false.
Proof using H Ht Ho. intros Hr b Hb. rewrite Ho in Hb. by injection Hb as <-. Qed.

(** [FenceAcquire] and [FenceRelease] after the operation has read. *)
Lemma thread_after c acq : ticked c -> repr L' acq (ACQ L' t) ->
  let c1 := mkClock (clk_current c) acq (clk_release c) (clk_epoch c) in
  let c2 := if is_acquire a then FenceAcquire cnt c1 else c1 in
  thread_ok L' t (if is_release a then FenceRelease cnt c2 else c2).
Proof using H Ht Ho.
  intros [H1 H2 H3 H4] Hacq c1 c2. assert (Hcur : repr L' (clk_current c2) (CUR L' t)).
  { unfold c2. destruct (is_acquire a) eqn:Ea; simpl.
    - eapply repr_iff; [|apply (join_ok _ _ _ _ H1 Hacq)]. intros i. rewrite CUR_new, learns_sync, Ea. tauto.
    - eapply repr_iff; [|exact H1]. intros i. rewrite CUR_new, learns_sync, Ea. naive_solver. }
  assert (Hc2 : clk_acquire c2 = acq /\ clk_release c2 = clk_release c /\ clk_epoch c2 = clk_epoch c) by (unfold c2; by destruct (is_acquire a)).
  destruct Hc2 as (E1 & E2 & E3). destruct (is_release a) eqn:Er; split; simpl; rewrite ?E1, ?E2, ?E3; try done.
  - eapply repr_iff; [|apply (assign_ok _ _ _ _ H3 Hcur)]. intros i. by erewrite REL_same.
  - eapply repr_iff; [|exact H3]. intros i. rewrite REL_other; [done|]. by apply no_release.
Qed.
End sync.
End steps.

Lemma mm_thread_set m t c : mm_thread (mm_set_thread m t c) t = MOk c.
Proof. unfold mm_thread. simpl. by rewrite lookup_insert_eq. Qed.
Lemma mm_set_set m t c c' : mm_set_thread (mm_set_thread m t c) t c' = mm_set_thread m t c'.
Proof. unfold mm_set_thread. simpl. by rewrite insert_insert_eq. Qed.
Lemma GetShadow_set m t c l : GetShadowAtomicVar (mm_set_thread m t c) l = GetShadowAtomicVar m l.
Proof. done. Qed.
Lemma GetShadow_some m l v : GetShadowAtomicVar m l = MOk v -> atomics_ m !! l = Some v.
Proof. unfold GetShadowAtomicVar. destruct (atomics_ m !! l) as [x|]; [|done]. by destruct (av_dtor x); [|intros [= ->]]. Qed.
Lemma mm_fence_set m t c f : mm_fence (mm_set_thread m t c) t f = MOk (mm_set_thread m t (f (mm_count m) c)).
Proof. unfold mm_fence. rewrite mm_thread_set. simpl. by rewrite mm_set_set. Qed.

Section sync_ops.
Context (L : list mem_op) (m : Memory) (H : clocks_ok L m) (t : Z) (a : Action) (Ht : 1 <= t <= Z.of_nat (mm_count m)).
Local Notation o := (OSync t a).
Local Notation L' := (L ++ [o]).
Local Notation cnt := (mm_count m).

Lemma sync_thread c acq : ticked L o c -> repr L' acq (ACQ L' t) ->
  let c1 := mkClock (clk_current c) acq (clk_release c) (clk_epoch c) in
  let c2 := if is_acquire a then FenceAcquire cnt c1 else c1 in
  thread_ok L' t (if is_release a then FenceRelease cnt c2 else c2).
Proof using H Ht. exact (thread_after L m H o Ht a eq_refl c acq). Qed.

(** The atomics after an action at [act_loc a] that sets [v]. *)
Lemma sync_done c m' : mm_count m' = cnt -> mm_threads m' = <[t := c]> (mm_threads m) -> thread_ok L' t c -> allocs_ m' = allocs_ m ->
  (atomics_ m' = atomics_ m /\ (forall l, is_write l a = false /\ is_reset l a = false) \/
   exists v, atomics_ m' = <[act_loc a := v]> (atomics_ m) /\ repr L' (av_clock v) (LOC L' (act_loc a))) -> clocks_ok L' m'.
Proof using H Ht.
  intros E1 E2 Hc E3 Ha. apply (clocks_sync L m H o Ht a eq_refl c m'); [done|done|done|done|]. intros l v Hv. destruct Ha as [[E Ha]|(v' & E & Hr)]; rewrite E in Hv.
  - right. destruct (Ha l). eauto 10.
  - destruct (decide (l = act_loc a)) as [->|Hne]; [left; rewrite lookup_insert_eq in Hv; by injection Hv as <-|]. right. rewrite lookup_insert_ne in Hv by done.
    assert (Hl : act_loc a =? l = false) by (apply Z.eqb_neq; congruence). unfold is_write, is_reset. rewrite Hl. split; [by destruct (act_type a)|]. split; [by destruct (act_type a)|]. eauto.
Qed.

Lemma no_read_acq c : ticked L o c -> (forall l, is_read l a = false) -> repr L' (clk_acquire c) (ACQ L' t).
Proof using H Ht. intros Hc Hr. eapply repr_iff; [|apply (tk_acquire _ _ _ Hc)]. intros i. rewrite ACQ_other; [done|]. by intros b l [= <-]. Qed.

(** Actions that neither read nor write. *)
Lemma sync_plain c m' : ticked L o c -> mm_count m' = cnt -> mm_threads m' = <[t := c]> (mm_threads m) -> allocs_ m' = allocs_ m ->
  (forall l, is_read l a = false) -> is_acquire a = false -> is_release a = false ->
  (atomics_ m' = atomics_ m /\ (forall l, is_write l a = false /\ is_reset l a = false) \/
   exists v, atomics_ m' = <[act_loc a := v]> (atomics_ m) /\ repr L' (av_clock v) (LOC L' (act_loc a))) -> clocks_ok L' m'.
Proof using H Ht.
  intros Hc E1 E2 E3 Hr Ha Hl Hat. apply (sync_done c); try done. pose proof (sync_thread c (clk_acquire c) Hc (no_read_acq c Hc Hr)) as Hth.
  rewrite Ha, Hl in Hth. by destruct c.
Qed.

Lemma sync_init c : ticked L o c -> act_type a = AtomicInit -> clocks_ok L' (mm_AtomicInit (mm_set_thread m t c) a).
Proof using H Ht.
  intros Hc Hty. eapply sync_plain; [exact Hc|done|done|done| | | |]; try (unfold is_read, is_acquire, is_release; by rewrite Hty).
  right. eexists. split; [done|]. simpl. eapply repr_iff; [|apply (repr_Init _ cnt); [apply (ck_count _ _ H)|by apply (step_ops L m H o Ht)]].
  intros i. split; [done|]. rewrite LOC_new. intros [(u & b & [= <- <-] & Hw & _)|[_ Hr]].
  - unfold is_write in Hw. by rewrite Hty in Hw.
  - specialize (Hr t a eq_refl). unfold is_reset in Hr. by rewrite Hty, Z.eqb_refl in Hr.
Qed.

(** The clock of an atomic that the action leaves alone. *)
Lemma atomic_kept v : GetShadowAtomicVar m (act_loc a) = MOk v -> (forall l, is_write l a = false /\ is_reset l a = false) -> repr L' (av_clock v) (LOC L' (act_loc a)).
Proof using H Ht.
  intros Hv Hno. eapply (keep_atomic L m H o Ht); [|by apply GetShadow_some]. by intros u b [= <- <-].
Qed.

Lemma sync_load c z m' : ticked L o c -> (act_type a = AtomicLoad \/ act_type a = AtomicRmwLoad) -> mm_load (mm_set_thread m t c) t a = MOk (z, m') -> clocks_ok L' m'.
Proof using H Ht.
  intros Hc Hty. unfold mm_load, mm_LoadRelaxed. rewrite GetShadow_set. destruct (GetShadowAtomicVar m (act_loc a)) as [v|] eqn:Ev; cbn [mbind MemRes_bind]; [|done].
  rewrite mm_thread_set. cbn [mbind MemRes_bind]. rewrite mm_set_set. set (acq := vc_Join _ _ _).
  assert (Hno : forall l, is_write l a = false /\ is_reset l a = false) by (intros l; unfold is_write, is_reset; by destruct Hty as [-> | ->]).
  assert (Hacq : repr L' acq (ACQ L' t)).
  { assert (Hrd : forall k, is_read k a = (act_loc a =? k)) by (intros k; unfold is_read; by destruct Hty as [-> | ->]).
    eapply repr_iff; [|apply (join_ok L m H o Ht _ _ (ACQ L t) (LOC L (act_loc a)))].
    - intros i. symmetry. exact (acq_sync L m H o Ht a eq_refl i (act_loc a) eq_refl Hrd).
    - apply (tk_acquire _ _ _ Hc).
    - apply (keep L m H o Ht _ (LOC L (act_loc a))); [apply (ck_atomic _ _ H); by apply GetShadow_some|done]. }
  pose proof (sync_thread c acq Hc Hacq) as Hth. cbv zeta in Hth.
  assert (Er : is_release a = false) by (unfold is_release; by destruct Hty as [-> | ->]). assert (Ea : is_acquire a = IsAcquireOrder (act_mo a)) by (unfold is_acquire; by destruct Hty as [-> | ->]).
  rewrite Er, Ea in Hth. destruct (IsAcquireOrder (act_mo a)).
  - rewrite mm_fence_set. cbn [mbind MemRes_bind]. intros [= _ <-]. eapply sync_done; [done|done|exact Hth|done|by left].
  - intros [= _ <-]. eapply sync_done; [done|done|exact Hth|done|by left].
Qed.

Lemma sync_store (join : bool) c m' : ticked L o c -> act_type a = (if join then AtomicRmwCommit else AtomicStore) -> mm_store join (mm_set_thread m t c) t a = MOk m' -> clocks_ok L' m'.
Proof using H Ht.
  intros Hc Hty. unfold mm_store, mm_StoreRelaxed. rewrite GetShadow_set. destruct (GetShadowAtomicVar m (act_loc a)) as [v|] eqn:Ev; cbn [mbind MemRes_bind]; [|done].
  assert (Hrd : forall l, is_read l a = false) by (intros l; unfold is_read; rewrite Hty; by destruct join).
  pose proof (sync_thread c (clk_acquire c) Hc (no_read_acq c Hc Hrd)) as Hth. cbv zeta in Hth.
  assert (Ea : is_acquire a = false) by (unfold is_acquire; rewrite Hty; by destruct join). assert (Er : is_release a = IsReleaseOrder (act_mo a)) by (unfold is_release; rewrite Hty; by destruct join).
  rewrite Ea, Er in Hth. set (c2 := if IsReleaseOrder (act_mo a) then FenceRelease cnt c else c).
  assert (Hc2 : thread_ok L' t c2) by (unfold c2; by destruct c, (IsReleaseOrder (act_mo a))).
  assert (E : (if IsReleaseOrder (act_mo a) then mm_fence (mm_set_thread m t c) t FenceRelease else MOk (mm_set_thread m t c)) = MOk (mm_set_thread m t c2))
    by (unfold c2; destruct (IsReleaseOrder (act_mo a)); [apply mm_fence_set|done]).
  rewrite E. cbn [mbind MemRes_bind]. rewrite mm_thread_set. cbn [mbind MemRes_bind]. intros [= <-]. eapply sync_done; [done|done|exact Hc2|done|]. right. eexists. split; [done|]. simpl.
  assert (Hold : repr L' (av_clock v) (LOC L (act_loc a))) by (apply (keep L m H o Ht _ (LOC L (act_loc a))); [apply (ck_atomic _ _ H); by apply GetShadow_some|done]).
  assert (Hloc : forall i, LOC L' (act_loc a) i <-> (if join then LOC L (act_loc a) i \/ REL L' t i else REL L' t i)).
  { intros i. rewrite LOC_new. assert (Hw : is_write (act_loc a) a = true) by (unfold is_write; rewrite Hty, Z.eqb_refl; by destruct join).
    assert (Hrs : is_reset (act_loc a) a = negb join) by (unfold is_reset; rewrite Hty, Z.eqb_refl; by destruct join). split.
    - intros [(u & b & [= <- <-] & _ & Hi)|[Hi Hno]]; [by destruct join; [right|]|]. specialize (Hno t a eq_refl). rewrite Hrs in Hno. destruct join; [by left|done].
    - destruct join; [|intros Hi; left; eauto]. intros [Hi|Hi]; [|left; eauto]. right. split; [done|]. by intros u b [= <- <-]. }
  destruct join.
  - eapply repr_iff; [intros i; symmetry; apply Hloc|]. apply (join_ok L m H o Ht _ _ _ _ Hold (to_release _ _ _ Hc2)).
  - eapply repr_iff; [intros i; symmetry; apply Hloc|]. apply (assign_ok L m H o Ht _ _ _ _ Hold (to_release _ _ _ Hc2)).
Qed.

Lemma sync_fence c m' : ticked L o c -> act_type a = AtomicThreadFence -> mm_AtomicThreadFence (mm_set_thread m t c) t (act_mo a) = MOk m' -> clocks_ok L' m'.
Proof using H Ht.
  intros Hc Hty. assert (Hrd : forall l, is_read l a = false) by (intros l; unfold is_read; by rewrite Hty).
  pose proof (sync_thread c (clk_acquire c) Hc (no_read_acq c Hc Hrd)) as Hth. cbv zeta in Hth. unfold is_acquire, is_release in Hth. rewrite Hty in Hth.
  assert (Hno : forall l, is_write l a = false /\ is_reset l a = false) by (intros l; unfold is_write, is_reset; by rewrite Hty).
  unfold mm_AtomicThreadFence. destruct (act_mo a); try done; rewrite mm_fence_set; intros [= <-]; (eapply sync_done; [done|done| |done|by left]); by destruct c.
Qed.

Lemma clocks_syncop z m' : Z.of_nat (length L) < 2 ^ 32 - 1 -> mm_Sync m t a = MOk (z, m') -> clocks_ok L' m'.
Proof using H Ht.
  intros Hsz. unfold mm_Sync. destruct (mm_Tick m t) as [m1|e] eqn:E1; cbn [mbind MemRes_bind]; [|done].
  apply (mm_Tick_ok L m H o Ht m1 eq_refl Hsz) in E1 as (c & -> & Hc). change (op_thread o) with t in *. destruct (act_type a) eqn:Hty.
  - intros [= _ <-]. by apply sync_init.
  - unfold mm_AtomicLoad, mem_assert. destruct (IsLoadOrder (act_mo a)); [|done]. intros E. eapply sync_load; eauto.
  - rewrite GetShadow_set. destruct (GetShadowAtomicVar m (act_loc a)) as [v|]; [|done]. intros [= _ <-].
    eapply sync_plain; [exact Hc|done|done|done| | | |left; split; [done|intros l]]; unfold is_read, is_acquire, is_release, is_write, is_reset; by rewrite Hty.
  - unfold mm_AtomicStore, mem_assert. destruct (IsStoreOrder (act_mo a)); [|done]. cbn [mbind MemRes_bind].
    destruct (mm_store false (mm_set_thread m t c) t a) as [m2|] eqn:E; cbn [mbind MemRes_bind]; [|done]. intros [= _ <-]. exact (sync_store false c _ Hc Hty E).
  - intros E. eapply sync_load; eauto.
  - unfold mm_AtomicRmwCommit. destruct (mm_store true (mm_set_thread m t c) t a) as [m2|] eqn:E; cbn [mbind MemRes_bind]; [|done]. intros [= _ <-]. exact (sync_store true c _ Hc Hty E).
  - unfold mm_AtomicDestroy. rewrite GetShadow_set. destruct (GetShadowAtomicVar m (act_loc a)) as [v|] eqn:Ev; [|done]. intros [= _ <-].
    assert (Hno : forall l, is_write l a = false /\ is_reset l a = false) by (intros l; unfold is_write, is_reset; by rewrite Hty).
    eapply sync_plain; [exact Hc|done|done|done| | | |]; try (unfold is_read, is_acquire, is_release; by rewrite Hty).
    right. eexists. split; [done|]. simpl. by apply atomic_kept.
  - destruct (mm_AtomicThreadFence _ _ _) as [m2|] eqn:E; cbn [mbind MemRes_bind]; [|done]. intros [= _ <-]. by apply (sync_fence c).
Qed.
End sync_ops.

Lemma repr_plain L n v S o : (n <= kClockSize)%nat -> (forall i t, thr L i t -> 1 <= t <= Z.of_nat n) -> tid_ok (op_thread o) -> ticking o = false -> repr L v S ->
  repr (L ++ [o]) v (fun i => i = length L \/ S i).
Proof.
  intros Hn Hops Ht Hk Hv. pose proof (repr_keep L n Hn v S o Ht Hv) as [H1 H2 H3 H4]. split; [done|done| |].
  - rewrite length_app. simpl. intros i [->|Hi]; [lia|]. apply (rp_lt _ _ _ Hv) in Hi. lia.
  - intros i x Hi Hx. rewrite <- (H4 i x Hi Hx). split; [|by right]. intros [->|?]; [|done]. rewrite list_lookup_middle in Hi by done. injection Hi as <-. congruence.
Qed.

Section other_ops.
Context (L : list mem_op) (m : Memory) (H : clocks_ok L m).
Local Notation cnt := (mm_count m).

Lemma clocks_plain o m' v t c e : 1 <= op_thread o <= Z.of_nat cnt -> t = op_thread o -> (forall u a, o <> OSync u a) -> mm_threads m !! t = Some c ->
  mm_count m' = cnt -> mm_threads m' = <[t := mkClock v (clk_acquire c) (clk_release c) e]> (mm_threads m) -> atomics_ m' = atomics_ m ->
  repr (L ++ [o]) v (CUR (L ++ [o]) t) -> e = ticks (L ++ [o]) t -> (forall a, repr (L ++ [o]) (al_free (GetShadowAllocation m' a)) (FRE (L ++ [o]) a)) ->
  clocks_ok (L ++ [o]) m'.
Proof using H.
  intros Ht -> Ho Hc E1 E2 E3 Hv He Hf. apply (clocks_rebuild L m H o Ht m' _ E1 E2); [| |done].
  - destruct (ck_thread _ _ H _ _ Hc) as [_ [H1 H2 H3 H4]]. split; simpl; [done| | |done].
    + apply (keep_acquire L m H o Ht); [|done]. intros a l E. by destruct (Ho (op_thread o) a).
    + apply (keep_release L m H o Ht); [|done]. intros a E. by destruct (Ho (op_thread o) a).
  - intros l x. rewrite E3. apply (keep_atomic L m H o Ht). intros u a E. by destruct (Ho u a).
Qed.

Lemma plain_ticks o : ticking o = false -> ticks (L ++ [o]) (op_thread o) = ticks L (op_thread o).
Proof using. intros Hk. rewrite ticks_snoc, decide_False; [lia|]. by rewrite Hk; intros [? _]. Qed.

Lemma clocks_free t a m' : mm_Free m t a = MOk m' -> clocks_ok (L ++ [OFree t a]) m'.
Proof using H.
  unfold mm_Free, mm_thread. destruct (mm_threads m !! t) as [c|] eqn:Ec; simpl; [|done]. intros [= <-]. destruct (ck_thread _ _ H t c Ec) as [Ht [H1 H2 H3 H4]].
  set (o := OFree t a). pose proof (step_tid L m H o Ht) as Htid.
  assert (Hcur : repr (L ++ [o]) (clk_current c) (CUR (L ++ [o]) t)).
  { eapply repr_iff; [|apply (repr_plain L cnt _ (CUR L t) o (ck_count _ _ H) (ck_ops _ _ H) Htid eq_refl H1)]. intros i. rewrite (CUR_new L o i : CUR (L ++ [o]) t i <-> _). simpl. tauto. }
  apply (clocks_plain o _ (clk_current c) t c (clk_epoch c) Ht eq_refl); try done.
  - simpl. rewrite insert_id; [done|]. by destruct c.
  - rewrite H4. symmetry. by apply (plain_ticks o).
  - intros b. unfold GetShadowAllocation. simpl. destruct (decide (b = a)) as [->|Hne].
    + rewrite lookup_insert_eq. simpl. eapply repr_iff; [|apply (assign_ok L m H o Ht _ _ _ _ (keep L m H o Ht _ _ _ (ck_alloc _ _ H a) (fun i => iff_refl _)) Hcur)].
      intros i. by rewrite (FRE_same L o t a).
    + rewrite lookup_insert_ne by done. apply (keep_alloc L m H o Ht). intros u E. by simplify_eq.
Qed.

Lemma clocks_malloc t a k m' : mm_Malloc m t a k = MOk m' -> clocks_ok (L ++ [OMalloc t a k]) m'.
Proof using H.
  unfold mm_Malloc, mm_thread. destruct (mm_threads m !! t) as [c|] eqn:Ec; simpl; [|done]. intros [= <-]. destruct (ck_thread _ _ H t c Ec) as [Ht [H1 H2 H3 H4]].
  set (o := OMalloc t a k). pose proof (step_tid L m H o Ht) as Htid.
  apply (clocks_plain o _ (vc_Join cnt (clk_current c) (al_free (GetShadowAllocation m a))) t c (clk_epoch c) Ht eq_refl); try done.
  - pose proof (repr_plain L cnt _ (CUR L t) o (ck_count _ _ H) (ck_ops _ _ H) Htid eq_refl H1) as Hp. pose proof (keep_alloc L m H o Ht a (fun t => ltac:(done))) as Hf.
    eapply repr_iff; [|apply (join_ok L m H o Ht _ _ _ _ Hp Hf)]. intros i. rewrite (CUR_new L o i : CUR (L ++ [o]) t i <-> _). rewrite FRE_other by done. simpl. tauto.
  - rewrite H4. symmetry. by apply (plain_ticks o).
  - intros b. pose proof (keep_alloc L m H o Ht b (fun t => ltac:(done))) as Hf. unfold GetShadowAllocation in *. simpl. destruct (decide (b = a)) as [->|Hne].
    + by rewrite lookup_insert_eq.
    + by rewrite lookup_insert_ne.
Qed.

(** A join, or an assignment, and then a tick. *)
Lemma clocks_join_tick o m' v c S : 1 <= op_thread o <= Z.of_nat cnt -> ticking o = true -> Z.of_nat (length L) < 2 ^ 32 - 1 -> (forall u a, o <> OSync u a) ->
  (forall u a, o <> OFree u a) -> mm_threads m !! op_thread o = Some c -> repr L v S -> (forall i, S i <-> CUR L (op_thread o) i \/ learns L o i) ->
  mm_Tick (mm_set_thread m (op_thread o) (mkClock v (clk_acquire c) (clk_release c) (clk_epoch c))) (op_thread o) = MOk m' -> clocks_ok (L ++ [o]) m'.
Proof using H.
  intros Ht Hk Hsz Hs Hf Hc Hv HS. unfold mm_Tick. rewrite mm_thread_set. cbn [mbind MemRes_bind]. unfold clk_tick. cbn [clk_current clk_acquire clk_release clk_epoch mm_count mm_set_thread].
  destruct (tick_ok L m H o Ht v S Hk Hsz Hv) as (v' & -> & Hv'); [intros i Hi; apply HS; left; by exists i|]. cbn [mbind MemRes_bind]. intros [= <-]. rewrite mm_set_set.
  destruct (ck_thread _ _ H _ _ Hc) as [_ [H1 H2 H3 H4]]. apply (clocks_plain o _ v' (op_thread o) c (wrap 32 (clk_epoch c + 1)) Ht eq_refl); try done.
  - eapply repr_iff; [|exact Hv']. intros i. rewrite CUR_new, HS. tauto.
  - rewrite H4. by apply (epoch_ok L m H o Ht).
  - intros b. apply (keep_alloc L m H o Ht). intros u. apply Hf.
Qed.

Lemma clocks_wake w t m' : Z.of_nat (length L) < 2 ^ 32 - 1 -> mm_Wake m w t = MOk m' -> clocks_ok (L ++ [OWake w t]) m'.
Proof using H.
  intros Hsz. unfold mm_Wake. destruct (mm_thread m w) as [cw|] eqn:Ew; cbn [mbind MemRes_bind]; [|done]. destruct (mm_thread m t) as [c|] eqn:Ec; cbn [mbind MemRes_bind]; [|done].
  unfold mm_thread in Ew, Ec. destruct (mm_threads m !! w) as [cw'|] eqn:Ew'; [|done]. destruct (mm_threads m !! t) as [c'|] eqn:Ec'; [|done]. simplify_eq.
  destruct (ck_thread _ _ H _ _ Ec') as [Ht [H1 _ _ _]]. destruct (ck_thread _ _ H _ _ Ew') as [_ [_ _ H3 _]].
  apply (clocks_join_tick (OWake w t) m' _ c (fun i => CUR L t i \/ REL L w i)); try done. apply repr_Join; [apply (ck_count _ _ H)|apply (ck_ops _ _ H)|done|done].
Qed.

Lemma clocks_spawn p t m' : Z.of_nat (length L) < 2 ^ 32 - 1 -> (forall i, ~ thr L i t) -> mm_Spawn m p t = MOk m' -> clocks_ok (L ++ [OSpawn p t]) m'.
Proof using H.
  intros Hsz Hnew. unfold mm_Spawn. destruct (mm_thread m p) as [cp|] eqn:Ep; cbn [mbind MemRes_bind]; [|done]. destruct (mm_thread m t) as [c|] eqn:Ec; cbn [mbind MemRes_bind]; [|done].
  unfold mm_thread in Ep, Ec. destruct (mm_threads m !! p) as [cp'|] eqn:Ep'; [|done]. destruct (mm_threads m !! t) as [c'|] eqn:Ec'; [|done]. simplify_eq.
  destruct (ck_thread _ _ H _ _ Ec') as [Ht [H1 _ _ _]]. destruct (ck_thread _ _ H _ _ Ep') as [_ [H3 _ _ _]].
  apply (clocks_join_tick (OSpawn p t) m' _ c (CUR L p)); try done.
  - apply (repr_Assign L cnt (ck_count _ _ H) (ck_ops _ _ H) _ _ (CUR L t)); done.
  - intros i. simpl. split; [tauto|]. intros [(j & Hj & _)|?]; [|done]. by destruct (Hnew j).
Qed.

Lemma clocks_create t m' : mm_CreateThread m = MOk (t, m') -> clocks_ok L m' /\ (forall i, ~ thr L i t) /\ non_atomics_ m' = non_atomics_ m.
Proof using H.
  unfold mm_CreateThread, mem_assert. case_bool_decide as Hlt; cbn [mbind MemRes_bind]; [|done]. intros [= <- <-].
  assert (Hnew : forall i, ~ thr L i (Z.of_nat (S cnt))) by (intros i Hi%(ck_ops _ _ H); lia). split; [|done].
  assert (H0 : forall S : nat -> Prop, (forall i, ~ S i) -> repr L vc_Init S).
  { intros S HS. eapply repr_iff; [|apply (repr_Init L cnt (ck_count _ _ H) (ck_ops _ _ H))]. naive_solver. }
  split; simpl; [lia| | |apply (ck_atomic _ _ H)|apply (ck_alloc _ _ H)].
  - intros i t Hi%(ck_ops _ _ H). lia.
  - intros t c. destruct (decide (t = Z.of_nat (S cnt))) as [->|Hne].
    + rewrite lookup_insert_eq. intros [= <-]. split; [lia|]. split; simpl; [apply H0..|by rewrite no_ticks].
      * intros i (j & Hj & _). by apply (Hnew j).
      * intros i (j & l & Hj%does_thr & _). by apply (Hnew j).
      * intros i (j & Hj%does_thr & _). by apply (Hnew j).
    + rewrite lookup_insert_ne by done. intros Hc. destruct (ck_thread _ _ H t c Hc). split; [lia|done].
Qed.
End other_ops.

Lemma clocks_step L m o m' : clocks_ok L m -> Z.of_nat (length L) < 2 ^ 32 - 1 -> mem_step m o = MemOk m' -> clocks_ok (L ++ [o]) m'.
Proof.
  intros H Hsz. destruct o as [p t|w t|t a|t l ty|t a k|t a]; simpl.
  - destruct (mm_CreateThread m) as [[t' m1]|e] eqn:E; cbn [mbind MemRes_bind fst snd]; [|done]. apply (clocks_create L m H) in E as (H1 & Hn & _).
    destruct (decide (t' = t)) as [->|]; [|done]. destruct (mm_Spawn m1 p t) as [m2|] eqn:E2; [|done]. intros [= <-]. by apply (clocks_spawn L m1 H1 p t m2).
  - destruct (mm_Wake m w t) as [m1|] eqn:E; [|done]. intros [= <-]. by apply (clocks_wake L m H w t m1).
  - destruct (mm_Sync m t a) as [[z m1]|e] eqn:E; cbn [mbind MemRes_bind]; [|done]. intros [= <-]. apply (clocks_syncop L m H t a) with (z := z); [|done|done].
    unfold mm_Sync, mm_Tick, mm_thread in E. destruct (mm_threads m !! t) as [c|] eqn:Ec; [|done]. by apply (ck_thread _ _ H t c Ec).
  - destruct (AccessNonAtomicVar m t l ty) as [[[old|] m1]|e] eqn:E; [done| |done]. intros [= <-]. apply (clocks_access L m H (OAccess t l ty)) with (l := l) (ty := ty) (r := None); [|done|done|done].
    unfold AccessNonAtomicVar, mm_Tick, mm_thread in E. simpl. destruct (mm_threads m !! t) as [c|] eqn:Ec; [|done]. by apply (ck_thread _ _ H t c Ec).
  - destruct (mm_Malloc m t a k) as [m1|] eqn:E; [|done]. intros [= <-]. by apply (clocks_malloc L m H t a k).
  - destruct (mm_Free m t a) as [m1|] eqn:E; [|done]. intros [= <-]. by apply (clocks_free L m H t a).
Qed.

(** ** Data races

    Two conflicting accesses, the later of which does not happen after the earlier. *)

Definition races (L : list mem_op) (i j : nat) : Prop :=
  (i < j)%nat /\ (exists o1 o2, L !! i = Some o1 /\ L !! j = Some o2 /\ conflict o1 o2) /\ ~ happens_before L i j.

Definition access_at (L : list mem_op) (l : Z) (old : OldAccess) (p : nat) : Prop :=
  L !! p = Some (OAccess (old_thread old) l (old_type old)) /\ old_epoch old = stamp L p (old_thread old).

(** The last write comes after every write, and after every read but the last reads. *)
Record var_ok (L : list mem_op) (l : Z) (v : NonAtomicVar) : Prop := {
  vo_write : forall w, last_write v = Some w -> IsWrite (old_type w) = true /\ exists p, access_at L l w p;
  vo_read : forall u r, last_read v !! u = Some r -> old_thread r = u /\ IsRead (old_type r) = true /\ exists p, access_at L l r p;
  vo_all : forall i u ty, L !! i = Some (OAccess u l ty) ->
    (exists w p, last_write v = Some w /\ access_at L l w p /\ rtc (before L) i p) \/
    (IsRead ty = true /\ exists r p, last_read v !! u = Some r /\ access_at L l r p /\ rtc (before L) i p);
}.

Definition vars_ok (L : list mem_op) (m : Memory) : Prop :=
  forall l, match non_atomics_ m !! l with Some v => var_ok L l v | None => forall i u ty, L !! i <> Some (OAccess u l ty) end.

Lemma access_at_lt L l old p : access_at L l old p -> (p < length L)%nat.
Proof. intros [Hp _]. by eapply lookup_lt_Some. Qed.

Lemma access_at_ext L o l old p : access_at L l old p -> access_at (L ++ [o]) l old p.
Proof. intros H. pose proof (access_at_lt _ _ _ _ H) as Hlt. destruct H as [Hp He]. split; [by rewrite lookup_app_l|]. by rewrite stamp_old. Qed.

Lemma hb_ext L o i p : (p < length L)%nat -> rtc (before L) i p -> rtc (before (L ++ [o])) i p.
Proof. intros Hp. by apply hb_old. Qed.

(** Other operations do not touch the variables. *)
Lemma vars_other L o m m' : vars_ok L m -> non_atomics_ m' = non_atomics_ m -> (forall u l ty, o <> OAccess u l ty) -> vars_ok (L ++ [o]) m'.
Proof.
  intros H E Ho l. rewrite E. specialize (H l). assert (Hold : forall i u ty, (L ++ [o]) !! i = Some (OAccess u l ty) -> L !! i = Some (OAccess u l ty)).
  { intros i u ty Hi. destruct (ext_lt L o i _ Hi) as [->|Hlt]; [|by rewrite ext_old in Hi]. rewrite ext_last in Hi. injection Hi as Hi. by destruct (Ho u l ty). }
  destruct (non_atomics_ m !! l) as [v|]; [|intros i u ty Hi%Hold; by apply (H i u ty)]. destruct H as [H1 H2 H3]. split.
  - intros w Hw. destruct (H1 w Hw) as (? & p & ?). split; [done|]. exists p. by apply access_at_ext.
  - intros u r Hr. destruct (H2 u r Hr) as (? & ? & p & ?). split; [done|]. split; [done|]. exists p. by apply access_at_ext.
  - intros i u ty Hi%Hold. destruct (H3 i u ty Hi) as [(w & p & ? & Hp & ?)|(? & r & p & ? & Hp & ?)]; [left|right; split; [done|]]; eexists _, p;
      (split; [done|]); (split; [by apply access_at_ext|]); (apply hb_ext; [by eapply access_at_lt|done]).
Qed.

Section access.
Context (L : list mem_op) (m : Memory) (H : clocks_ok L m) (t l : Z) (ty : AccessType) (Ht : 1 <= t <= Z.of_nat (mm_count m)).
Local Notation o := (OAccess t l ty).
Local Notation L' := (L ++ [o]).
Local Notation n := (length L).
Local Notation cnt := (mm_count m).
Context (c : ThreadClock) (Hc : ticked L o c).

(** The epoch test decides happens-before. *)
Lemma HappensBefore_ok old p : access_at L l old p -> HappensBefore old c = true <-> rtc (before L') p n.
Proof using H Ht Hc.
  intros Hp. pose proof (access_at_lt _ _ _ _ Hp) as Hlt. destruct Hp as [Hp He]. unfold HappensBefore. rewrite Z.leb_le.
  assert (Hp' : L' !! p = Some (OAccess (old_thread old) l (old_type old))) by by rewrite ext_old.
  pose proof (rp_set _ _ _ (tk_current _ _ _ Hc) p _ Hp' eq_refl) as E. simpl in E. rewrite stamp_old, <- He in E by done. rewrite <- E.
  rewrite <- (CUR_same L o p : CUR L' t p <-> _), (CUR_new L o p : CUR L' t p <-> _). simpl. tauto.
Qed.

Lemma same_thread i u ty' : L !! i = Some (OAccess u l ty') -> u = t -> rtc (before L') i n.
Proof using H Ht Hc. intros Hi ->. apply rtc_once. apply before_thr. by exists (OAccess t l ty'). Qed.

Lemma reads_None v : (head (omap (fun i => let u := Z.of_nat i in
    if bool_decide (u <> t) then match last_read v !! u with Some old => if HappensBefore old c then None else Some old | None => None end else None) (seq 1 cnt))) = None ->
  forall u r, 1 <= u <= Z.of_nat cnt -> u <> t -> last_read v !! u = Some r -> HappensBefore r c = true.
Proof using H Ht Hc.
  intros E u r Hu Hne Hr. destruct (HappensBefore r c) eqn:Eh; [done|]. exfalso. destruct (omap _ _) as [|x xs] eqn:Eo; [|done].
  assert (Hin : r ∈ omap (fun i => let u := Z.of_nat i in if bool_decide (u <> t) then match last_read v !! u with Some old => if HappensBefore old c then None else Some old | None => None end else None) (seq 1 cnt)).
  { apply list_elem_of_omap. exists (Z.to_nat u). split; [apply elem_of_seq; lia|]. cbv zeta. rewrite Z2Nat.id by lia. rewrite bool_decide_eq_true_2 by done. by rewrite Hr, Eh. }
  rewrite Eo in Hin. by apply elem_of_nil in Hin.
Qed.

Lemma check_None v : var_ok L l v -> CheckDataRaces cnt t c v ty = None -> forall i u ty', L !! i = Some (OAccess u l ty') -> IsWrite ty' || IsWrite ty = true -> rtc (before L') i n.
Proof using H Ht Hc.
  intros [H1 H2 H3] E i u ty' Hi Hcf. destruct (decide (u = t)) as [->|Hne]; [by eapply same_thread|].
  assert (Hw : forall w p, last_write v = Some w -> access_at L l w p -> rtc (before L') p n).
  { intros w p Hw Hp. unfold CheckDataRaces in E. rewrite Hw in E. destruct (decide (old_thread w = t)) as [Et|Et]; [destruct Hp as [Hp _]; by eapply same_thread|].
    rewrite bool_decide_eq_true_2 in E by done. destruct (HappensBefore w c) eqn:Eh; [by eapply HappensBefore_ok|done]. }
  destruct (H3 i u ty' Hi) as [(w & p & Hlw & Hp & Hb)|(Hrd & r & p & Hlr & Hp & Hb)].
  - etrans; [apply hb_ext; [by eapply access_at_lt|exact Hb]|by eapply Hw].
  - etrans; [apply hb_ext; [by eapply access_at_lt|exact Hb]|]. assert (Hty : IsWrite ty = true) by (unfold IsWrite in Hcf |- *; rewrite Hrd in Hcf; done).
    apply (HappensBefore_ok r p Hp). unfold CheckDataRaces in E. rewrite Hty in E.
    assert (Hu : 1 <= u <= Z.of_nat cnt) by (apply (ck_ops _ _ H i); by exists (OAccess u l ty')). eapply reads_None; [|exact Hu|done|exact Hlr].
    destruct (last_write v) as [w|]; [|exact E]. by destruct (bool_decide _ && _).
Qed.

Lemma check_Some v old : var_ok L l v -> CheckDataRaces cnt t c v ty = Some old ->
  exists p, L !! p = Some (OAccess (old_thread old) l (old_type old)) /\ old_thread old <> t /\ IsWrite (old_type old) || IsWrite ty = true /\ ~ rtc (before L') p n.
Proof using H Ht Hc.
  intros [H1 H2 H3] E. assert (Hdone : forall p, access_at L l old p -> old_thread old <> t -> IsWrite (old_type old) || IsWrite ty = true -> HappensBefore old c = false ->
    exists p, L !! p = Some (OAccess (old_thread old) l (old_type old)) /\ old_thread old <> t /\ IsWrite (old_type old) || IsWrite ty = true /\ ~ rtc (before L') p n).
  { intros p Hp Hne Hcf Hh. exists p. split; [apply Hp|]. split; [done|]. split; [done|]. rewrite <- (HappensBefore_ok old p Hp). by rewrite Hh. }
  unfold CheckDataRaces in E. set (reads := if IsWrite ty then _ else _) in E. assert (Hreads : reads = Some old -> exists p, L !! p = Some (OAccess (old_thread old) l (old_type old)) /\
    old_thread old <> t /\ IsWrite (old_type old) || IsWrite ty = true /\ ~ rtc (before L') p n).
  { unfold reads. destruct (IsWrite ty) eqn:Ew; [|done]. intros [xs Hx]%head_Some. assert (Hin : old ∈ old :: xs) by by left. rewrite <- Hx in Hin.
    apply list_elem_of_omap in Hin as (i & _ & Hi). cbv zeta in Hi. case_bool_decide as Hne; [|done]. destruct (last_read v !! Z.of_nat i) as [r|] eqn:Er; [|done].
    destruct (HappensBefore r c) eqn:Eh; [done|]. injection Hi as ->. destruct (H2 _ _ Er) as (Hth & _ & p & Hp). apply (Hdone p Hp); [congruence|by rewrite orb_true_r|done]. }
  destruct (last_write v) as [w|] eqn:Ew; [|by apply Hreads]. case_bool_decide as Hne; simpl in E; [|by apply Hreads].
  destruct (HappensBefore w c) eqn:Eh; simpl in E; [by apply Hreads|]. injection E as ->. destruct (H1 old eq_refl) as (Hw & p & Hp). apply (Hdone p Hp); [done|by rewrite Hw|done].
Qed.

Lemma new_access : access_at L' l (mkOld l ty t (clk_epoch c)) n.
Proof using H Ht Hc. split; [by rewrite ext_last|]. simpl. rewrite (tk_epoch _ _ _ Hc). by rewrite stamp_last. Qed.

Lemma access_cases i u ty' : L' !! i = Some (OAccess u l ty') -> (i = n /\ u = t /\ ty' = ty) \/ ((i < n)%nat /\ L !! i = Some (OAccess u l ty')).
Proof using H Ht Hc. intros Hi. destruct (ext_lt L o i _ Hi) as [->|Hlt]; [left; rewrite ext_last in Hi; by simplify_eq|right]. by rewrite ext_old in Hi. Qed.

(** After a write that every access happens before. *)
Lemma var_write reads dtor : IsWrite ty = true -> (forall u r, reads !! u = Some r -> old_thread r = u /\ IsRead (old_type r) = true /\ exists p, access_at L l r p) ->
  (forall i u ty', L !! i = Some (OAccess u l ty') -> rtc (before L') i n) -> var_ok L' l (mkVar reads (Some (mkOld l ty t (clk_epoch c))) dtor).
Proof using H Ht Hc.
  intros Hw Hr Hall. split; simpl.
  - intros w [= <-]. split; [done|]. exists n. apply new_access.
  - intros u r Hu. destruct (Hr u r Hu) as (? & ? & p & ?). split; [done|]. split; [done|]. exists p. by apply access_at_ext.
  - intros i u ty' Hi. left. eexists _, n. split; [done|]. split; [apply new_access|]. destruct (access_cases i u ty' Hi) as [(-> & _)|[_ Hi']]; [done|by eapply Hall].
Qed.

Lemma var_read v : var_ok L l v -> IsRead ty = true -> var_ok L' l (mkVar (<[t := mkOld l ty t (clk_epoch c)]> (last_read v)) (last_write v) (var_dtor v)).
Proof using H Ht Hc.
  intros [H1 H2 H3] Hr. split; simpl.
  - intros w Hw. destruct (H1 w Hw) as (? & p & ?). split; [done|]. exists p. by apply access_at_ext.
  - intros u r. destruct (decide (u = t)) as [->|Hne].
    + rewrite lookup_insert_eq. intros [= <-]. split; [done|]. split; [done|]. exists n. apply new_access.
    + rewrite lookup_insert_ne by done. intros Hu. destruct (H2 u r Hu) as (? & ? & p & ?). split; [done|]. split; [done|]. exists p. by apply access_at_ext.
  - intros i u ty' Hi. destruct (access_cases i u ty' Hi) as [(-> & -> & ->)|[Hlt Hi']].
    + right. split; [done|]. eexists _, n. rewrite lookup_insert_eq. split; [done|]. split; [apply new_access|done].
    + destruct (H3 i u ty' Hi') as [(w & p & ? & Hp & Hb)|(Hrd & r & p & Hu & Hp & Hb)].
      * left. exists w, p. split; [done|]. split; [by apply access_at_ext|]. apply hb_ext; [by eapply access_at_lt|done].
      * right. split; [done|]. destruct (decide (u = t)) as [->|Hne].
        -- eexists _, n. rewrite lookup_insert_eq. split; [done|]. split; [apply new_access|]. by eapply same_thread.
        -- exists r, p. rewrite lookup_insert_ne by done. split; [done|]. split; [by apply access_at_ext|]. apply hb_ext; [by eapply access_at_lt|done].
Qed.
End access.

Lemma vars_set L m l v o c t ty : o = OAccess t l ty -> vars_ok L m -> var_ok (L ++ [o]) l v -> vars_ok (L ++ [o]) (mm_set_var (mm_set_thread m t c) l v).
Proof.
  intros -> Hv Hl k. cbn [non_atomics_ mm_set_var mm_set_thread]. destruct (decide (k = l)) as [->|Hne]; [by rewrite lookup_insert_eq|]. rewrite lookup_insert_ne by done.
  assert (Hold : forall i u ty', (L ++ [OAccess t l ty]) !! i = Some (OAccess u k ty') -> L !! i = Some (OAccess u k ty')).
  { intros i u ty' Hi. destruct (ext_lt L _ i _ Hi) as [->|Hlt]; [rewrite ext_last in Hi; by simplify_eq|]. by rewrite ext_old in Hi. }
  specialize (Hv k). destruct (non_atomics_ m !! k) as [v0|]; [|intros i u ty' Hi%Hold; by apply (Hv i u ty')]. destruct Hv as [H1 H2 H3]. split.
  - intros w Hw. destruct (H1 w Hw) as (? & p & ?). split; [done|]. exists p. by apply access_at_ext.
  - intros u r Hr. destruct (H2 u r Hr) as (? & ? & p & ?). split; [done|]. split; [done|]. exists p. by apply access_at_ext.
  - intros i u ty' Hi%Hold. destruct (H3 i u ty' Hi) as [(w & p & ? & Hp & ?)|(? & r & p & ? & Hp & ?)]; [left|right; split; [done|]]; eexists _, p;
      (split; [done|]); (split; [by apply access_at_ext|]); (apply hb_ext; [by eapply access_at_lt|done]).
Qed.

Lemma hb_tc L i j : (i < j)%nat -> happens_before L i j <-> rtc (before L) i j.
Proof. intros Hij. unfold happens_before. split; [apply tc_rtc|]. intros H. apply rtc_tc in H as [->|?]; [lia|done]. Qed.

(** What an access does, when nothing has raced before. *)
Lemma access_step L m t l ty r m' : clocks_ok L m -> vars_ok L m -> Z.of_nat (length L) < 2 ^ 32 - 1 -> AccessNonAtomicVar m t l ty = MOk (r, m') ->
  match r with
  | Some old => exists p, L !! p = Some (OAccess (old_thread old) l (old_type old)) /\ races (L ++ [OAccess t l ty]) p (length L)
  | None => vars_ok (L ++ [OAccess t l ty]) m' /\ forall i, ~ races (L ++ [OAccess t l ty]) i (length L)
  end.
Proof.
  intros H Hv Hsz E. set (o := OAccess t l ty). assert (Ht : 1 <= t <= Z.of_nat (mm_count m)).
  { unfold AccessNonAtomicVar, mm_Tick, mm_thread in E. destruct (mm_threads m !! t) as [c|] eqn:Ec; [|done]. by apply (ck_thread _ _ H t c Ec). }
  unfold AccessNonAtomicVar in E. destruct (mm_Tick m t) as [m1|] eqn:E1; cbn [mbind MemRes_bind] in E; [|done].
  apply (mm_Tick_ok L m H o Ht m1 eq_refl Hsz) in E1 as (c & -> & Hc). change (op_thread o) with t in *.
  assert (Hrace : forall old p, L !! p = Some (OAccess (old_thread old) l (old_type old)) -> old_thread old <> t -> IsWrite (old_type old) || IsWrite ty = true ->
    ~ rtc (before (L ++ [o])) p (length L) -> races (L ++ [o]) p (length L)).
  { intros old p Hp Hne Hcf Hn. pose proof (lookup_lt_Some _ _ _ Hp). split; [done|]. split; [|by rewrite hb_tc]. eexists _, _. rewrite ext_old, ext_last by done. done. }
  assert (Hnone : (forall i u ty', L !! i = Some (OAccess u l ty') -> IsWrite ty' || IsWrite ty = true -> rtc (before (L ++ [o])) i (length L)) -> forall i, ~ races (L ++ [o]) i (length L)).
  { intros Hall i (Hi & (o1 & o2 & H1 & H2 & Hcf) & Hn). rewrite ext_last in H2. injection H2 as <-. rewrite ext_old in H1 by done. destruct o1 as [| | |u l' ty'| |]; try done.
    destruct Hcf as (_ & -> & Hcf). apply Hn. rewrite hb_tc by done. by eapply Hall. }
  specialize (Hv l) as Hvl. assert (Hlive : forall v, var_ok L l v -> CheckDataRaces (mm_count m) t c v ty = None -> IsWrite ty = true -> forall i u ty', L !! i = Some (OAccess u l ty') -> rtc (before (L ++ [o])) i (length L)).
  { intros v Hvo Ech Hw i u ty' Hi. eapply (check_None L m H t l ty Ht c Hc v Hvo Ech); [done|]. by rewrite Hw, orb_true_r. }
  assert (Hw' : forall v reads dtor, var_ok L l v -> CheckDataRaces (mm_count m) t c v ty = None -> IsWrite ty = true -> (forall u r, reads !! u = Some r -> last_read v !! u = Some r) ->
    var_ok (L ++ [o]) l (mkVar reads (Some (mkOld l ty t (clk_epoch c))) dtor)).
  { intros v reads dtor Hvo Ech Hw Hsub. apply (var_write L m H t l ty Ht c Hc); [done| |by eapply Hlive]. intros u r0 Hr0. by apply (vo_read _ _ _ Hvo), Hsub. }
  destruct ty eqn:Ety; unfold InitNonAtomicVar, AccessLiveNonAtomicVar in E; rewrite mm_thread_set in E; cbn [mbind MemRes_bind non_atomics_ mm_set_thread mm_count] in E;
    destruct (non_atomics_ m !! l) as [v|] eqn:El; try done.
  - destruct (var_dtor v) as [d|]; [|done]. cbn [mbind MemRes_bind] in E. destruct (CheckDataRaces (mm_count m) t c v AInit) as [old|] eqn:Ech; simplify_eq.
    + destruct (check_Some L m H t l AInit Ht c Hc v old Hvl Ech) as (p & Hp & Hne & Hcf & Hn). exists p. split; [done|]. by apply (Hrace old).
    + split; [apply (vars_set L m l _ o c t AInit eq_refl Hv); by apply (Hw' v)|]. apply Hnone. intros i u ty' Hi _. by eapply Hlive.
  - cbn [mbind MemRes_bind] in E. simplify_eq. split.
    + apply (vars_set L m l _ o c t AInit eq_refl Hv). apply (var_write L m H t l AInit Ht c Hc); [done|done|]. intros i u ty' Hi. by destruct (Hvl i u ty').
    + apply Hnone. intros i u ty' Hi _. by destruct (Hvl i u ty').
  - destruct (CheckDataRaces (mm_count m) t c v ARead) as [old|] eqn:Ech; simplify_eq.
    + destruct (check_Some L m H t l ARead Ht c Hc v old Hvl Ech) as (p & Hp & Hne & Hcf & Hn). exists p. split; [done|]. by apply (Hrace old).
    + split; [apply (vars_set L m l _ o c t ARead eq_refl Hv); by apply (var_read L m H t l ARead Ht c Hc)|]. apply Hnone. intros i u ty' Hi Hcf. by eapply (check_None L m H t l ARead Ht c Hc v Hvl Ech).
  - destruct (CheckDataRaces (mm_count m) t c v AWrite) as [old|] eqn:Ech; simplify_eq.
    + destruct (check_Some L m H t l AWrite Ht c Hc v old Hvl Ech) as (p & Hp & Hne & Hcf & Hn). exists p. split; [done|]. by apply (Hrace old).
    + split; [apply (vars_set L m l _ o c t AWrite eq_refl Hv); by apply (Hw' v)|]. apply Hnone. intros i u ty' Hi _. by eapply Hlive.
  - destruct (CheckDataRaces (mm_count m) t c v ADestroy) as [old|] eqn:Ech; simplify_eq.
    + destruct (check_Some L m H t l ADestroy Ht c Hc v old Hvl Ech) as (p & Hp & Hne & Hcf & Hn). exists p. split; [done|]. by apply (Hrace old).
    + split; [apply (vars_set L m l _ o c t ADestroy eq_refl Hv); by apply (Hw' v)|]. apply Hnone. intros i u ty' Hi _. by eapply Hlive.
Qed.

Lemma mem_step_vars m o m' : (forall t l ty, o <> OAccess t l ty) -> mem_step m o = MemOk m' -> non_atomics_ m' = non_atomics_ m.
Proof.
  assert (Htick : forall m t m1, mm_Tick m t = MOk m1 -> non_atomics_ m1 = non_atomics_ m).
  { intros m0 t m1. unfold mm_Tick. destruct (mm_thread m0 t) as [c|]; [|done]. cbn [mbind MemRes_bind]. destruct (clk_tick _ _ _); [|done]. by intros [= <-]. }
  assert (Hfence : forall m t f m1, mm_fence m t f = MOk m1 -> non_atomics_ m1 = non_atomics_ m).
  { intros m0 t f m1. unfold mm_fence. destruct (mm_thread m0 t); [|done]. by intros [= <-]. }
  assert (Hload : forall m t a z m1, mm_load m t a = MOk (z, m1) -> non_atomics_ m1 = non_atomics_ m).
  { intros m0 t a z m1. unfold mm_load, mm_LoadRelaxed. destruct (GetShadowAtomicVar _ _); [|done]. destruct (mm_thread _ _); [|done]. cbn [mbind MemRes_bind].
    destruct (IsAcquireOrder _); cbn [mbind MemRes_bind]; [|by intros [= _ <-]]. destruct (mm_fence _ _ _) eqn:E; [|done]. intros [= _ <-]. by apply Hfence in E. }
  assert (Hstore : forall j m t a m1, mm_store j m t a = MOk m1 -> non_atomics_ m1 = non_atomics_ m).
  { intros j m0 t a m1. unfold mm_store, mm_StoreRelaxed. destruct (GetShadowAtomicVar _ _); [|done]. cbn [mbind MemRes_bind].
    destruct (IsReleaseOrder _); cbn [mbind MemRes_bind]; [destruct (mm_fence _ _ _) as [m2|] eqn:E; [apply Hfence in E|done]; cbn [mbind MemRes_bind]|]; (destruct (mm_thread _ _); [|done]); by intros [= <-]. }
  intros Ho. destruct o as [p t|w t|t a|t l ty|t a k|t a]; simpl; [| | |by destruct (Ho t l ty)| |].
  - unfold mm_CreateThread. destruct (mem_assert _); cbn [mbind MemRes_bind fst snd]; [|done]. destruct (decide _); [|done].
    unfold mm_Spawn. destruct (mm_thread _ p); [|done]. destruct (mm_thread _ t); [|done]. cbn [mbind MemRes_bind]. destruct (mm_Tick _ _) as [m2|] eqn:E; [|done]. intros [= <-]. by apply Htick in E.
  - unfold mm_Wake. destruct (mm_thread _ w); [|done]. destruct (mm_thread _ t); [|done]. cbn [mbind MemRes_bind]. destruct (mm_Tick _ _) as [m2|] eqn:E; [|done]. intros [= <-]. by apply Htick in E.
  - unfold mm_Sync. destruct (mm_Tick m t) as [m1|] eqn:E; cbn [mbind MemRes_bind]; [apply Htick in E|done]. rewrite <- E. unfold mm_AtomicLoad, mm_AtomicStore, mm_AtomicRmwCommit, mm_AtomicDestroy, mem_assert.
    destruct (act_type a); cbn [mbind MemRes_bind].
    + by intros [= <-].
    + destruct (IsLoadOrder _); [|done]. cbn [mbind MemRes_bind]. destruct (mm_load _ _ _) as [[z m2]|] eqn:E2; [|done]. intros [= <-]. by apply Hload in E2.
    + destruct (GetShadowAtomicVar _ _); [|done]. by intros [= <-].
    + destruct (IsStoreOrder _); [|done]. cbn [mbind MemRes_bind]. destruct (mm_store _ _ _ _) as [m2|] eqn:E2; [|done]. intros [= <-]. by apply Hstore in E2.
    + destruct (mm_load _ _ _) as [[z m2]|] eqn:E2; [|done]. intros [= <-]. by apply Hload in E2.
    + destruct (mm_store _ _ _ _) as [m2|] eqn:E2; [|done]. intros [= <-]. by apply Hstore in E2.
    + destruct (GetShadowAtomicVar _ _); [|done]. by intros [= <-].
    + unfold mm_AtomicThreadFence. destruct (act_mo a); try done; (destruct (mm_fence _ _ _) as [m2|] eqn:E2; [|done]); intros [= <-]; by apply Hfence in E2.
  - unfold mm_Malloc. destruct (mm_thread _ _); [|done]. by intros [= <-].
  - unfold mm_Free. destruct (mm_thread _ _); [|done]. by intros [= <-].
Qed.

(** ** The theorems *)

Lemma mem_run_snoc m L o : mem_run m (L ++ [o]) = match mem_run m L with MemOk m => mem_step m o | r => r end.
Proof. revert m. induction L as [|x L IH]; intros m; simpl; [by destruct (mem_step m o)|]. destruct (mem_step m x); [apply IH|done|done]. Qed.

Lemma races_old L o i j : (j < length L)%nat -> races (L ++ [o]) i j <-> races L i j.
Proof.
  intros Hj. unfold races. split; intros (Hij & (o1 & o2 & H1 & H2 & Hc) & Hn); (split; [done|]).
  - rewrite ext_old in H1, H2 by lia. split; [by exists o1, o2|]. rewrite !hb_tc in Hn |- * by done. by rewrite hb_old in Hn by lia.
  - split; [exists o1, o2; by rewrite !ext_old by lia|]. rewrite !hb_tc in Hn |- * by done. by rewrite hb_old by lia.
Qed.

Lemma races_lt L i j : races L i j -> (j < length L)%nat.
Proof. intros (_ & (o1 & o2 & _ & H2 & _) & _). by eapply lookup_lt_Some. Qed.

Definition race_free (L : list mem_op) (k : nat) : Prop := forall i j, (j < k)%nat -> ~ races L i j.

Lemma mem_run_ok L : Z.of_nat (length L) < 2 ^ 32 ->
  match mem_run memory_start L with
  | MemOk m => clocks_ok L m /\ vars_ok L m /\ race_free L (length L)
  | MemRace old => exists i j l, races L i j /\ race_free L j /\ L !! i = Some (OAccess (old_thread old) l (old_type old))
  | MemErr _ => True
  end.
Proof.
  induction L as [|o L IH] using rev_ind; intros Hsz; [split; [apply clocks_start|]; split; [intros l; change (forall i u ty, @nil mem_op !! i <> Some (OAccess u l ty)); intros i u ty; by rewrite lookup_nil|intros i j Hj; simpl in Hj; lia]|].
  rewrite length_app in *. simpl in Hsz. specialize (IH ltac:(lia)). rewrite mem_run_snoc. destruct (mem_run memory_start L) as [m|old|e]; [| |done].
  2:{ destruct IH as (i & j & l & Hr & Hf & Hi). pose proof (races_lt _ _ _ Hr) as Hj. exists i, j, l. split; [by apply races_old|]. split; [|rewrite lookup_app_l; [done|by eapply lookup_lt_Some]].
      intros i' j' Hj'. rewrite races_old by lia. by apply Hf. }
  destruct IH as (Hc & Hv & Hf). assert (Hold : race_free (L ++ [o]) (length L)) by (intros i j Hj; rewrite races_old by done; by apply Hf).
  assert (Hfree : (forall i, ~ races (L ++ [o]) i (length L)) -> race_free (L ++ [o]) (length L + length [o])).
  { intros Hn i j Hj. simpl in Hj. destruct (decide (j = length L)) as [->|]; [apply Hn|]. apply Hold. lia. }
  destruct (mem_step m o) as [m'|old|e] eqn:E; [| |done].
  - split; [apply (clocks_step L m o m' Hc); [lia|done]|]. destruct o as [p t|w t|t a|t l ty|t a k|t a].
    4:{ simpl in E. destruct (AccessNonAtomicVar m t l ty) as [[[old|] m1]|e] eqn:Ea; [done| |done]. injection E as ->.
        pose proof (access_step L m t l ty None m' Hc Hv ltac:(lia) Ea) as [H1 H2]. split; [done|]. by apply Hfree. }
    all: (split; [apply (vars_other L _ m m' Hv); [eapply mem_step_vars; [|exact E]; done|done]|]; apply Hfree; intros i (_ & (o1 & o2 & _ & H2 & Hcf) & _); rewrite ext_last in H2; injection H2 as <-; by destruct o1).
  - destruct o as [p t|w t|t a|t l ty|t a k|t a]; simpl in E; try (by unfold to_result in E; case_match).
    destruct (AccessNonAtomicVar m t l ty) as [[[old'|] m1]|e] eqn:Ea; [|done|done]. injection E as ->.
    destruct (access_step L m t l ty (Some old) m1 Hc Hv ltac:(lia) Ea) as (p & Hp & Hr). exists p, (length L), l. split; [done|]. split; [done|]. rewrite lookup_app_l; [done|by eapply lookup_lt_Some].
Qed.

(** C17: Data races are detected exactly: however threads are spawned, synchronize through
    atomics, fences and futexes, reuse memory and access variables, the simulator reports a
    race at an access if and only if this is the first access that races, that is, some
    earlier conflicting access of another thread does not happen before it; and it reports
    such an access. *)
Theorem data_races_detected (L : list mem_op) : Z.of_nat (length L) < 2 ^ 32 ->
  match mem_run memory_start L with
  | MemOk _ => forall i j, ~ races L i j
  | MemRace old => exists i j l, races L i j /\ L !! i = Some (OAccess (old_thread old) l (old_type old)) /\ forall i' j', (j' < j)%nat -> ~ races L i' j'
  | MemErr _ => True
  end.
Proof.
  intros Hsz. pose proof (mem_run_ok L Hsz) as H. destruct (mem_run memory_start L) as [m|old|e]; [| |done].
  - destruct H as (_ & _ & Hf). intros i j Hr. apply (Hf i j); [by eapply races_lt|done].
  - destruct H as (i & j & l & Hr & Hf & Hi). exists i, j, l. split; [done|]. split; [done|]. intros i' j' Hj. by apply Hf.
Qed.

(** C18: The vector clock of a thread is exactly what happens before its next operation: the
    entry of a thread reaches the number of an operation if and only if the operation is one
    of the thread's own or happens before one. *)
Theorem vector_clocks_exact (L : list mem_op) (m : Memory) (t : Z) (c : ThreadClock) (i : nat) (o : mem_op) : Z.of_nat (length L) < 2 ^ 32 ->
  mem_run memory_start L = MemOk m -> mm_threads m !! t = Some c -> L !! i = Some o -> ticking o = true ->
  stamp L i (op_thread o) <= vc_Get (clk_current c) (op_thread o) <-> exists j, thr L j t /\ (i = j \/ happens_before L i j).
Proof.
  intros Hsz Hr Hc Hi Ho. pose proof (mem_run_ok L Hsz) as H. rewrite Hr in H. destruct H as (Hk & _ & _). destruct (ck_thread _ _ Hk t c Hc) as [_ Ht].
  rewrite <- (rp_set _ _ _ (to_current _ _ _ Ht) i o Hi Ho). unfold CUR. split; intros (j & Hj & Hb); exists j; (split; [done|]).
  - apply rtc_tc in Hb as [->|Hb]; [by left|by right].
  - destruct Hb as [->|Hb]; [done|]. by apply tc_rtc.
Qed.

(** *** Examples

    Message passing: variable 0, flag 8. *)
Definition message_passing (store load : MemoryOrder) : list mem_op :=
  [OAccess 1 0 AInit; OSync 1 (mkAction AtomicInit 8 4 0 mo_relaxed); OSpawn 1 2; OAccess 1 0 AWrite;
   OSync 1 (mkAction AtomicStore 8 4 1 store); OSync 2 (mkAction AtomicLoad 8 4 0 load); OAccess 2 0 ARead].

Definition is_ok (r : mem_result) : bool := match r with MemOk _ => true | _ => false end.
Definition race_of (r : mem_result) : option OldAccess := match r with MemRace old => Some old | _ => None end.

Lemma data_races_detected_witness :
  (forall i j, ~ races (message_passing mo_release mo_acquire) i j) /\
  exists i j l, races (message_passing mo_release mo_relaxed) i j /\ message_passing mo_release mo_relaxed !! i = Some (OAccess 1 l AWrite).
Proof.
  split.
  - pose proof (data_races_detected (message_passing mo_release mo_acquire) ltac:(simpl; lia)) as H. assert (E : is_ok (mem_run memory_start (message_passing mo_release mo_acquire)) = true) by (vm_compute; reflexivity).
    destruct (mem_run memory_start (message_passing mo_release mo_acquire)); [exact H|discriminate E|discriminate E].
  - pose proof (data_races_detected (message_passing mo_release mo_relaxed) ltac:(simpl; lia)) as H.
    assert (E : race_of (mem_run memory_start (message_passing mo_release mo_relaxed)) = Some (mkOld 0 AWrite 1 3)) by (vm_compute; reflexivity).
    destruct (mem_run memory_start (message_passing mo_release mo_relaxed)) as [m|old|e]; [discriminate E| |discriminate E]. injection E as ->.
    destruct H as (i & j & l & H1 & H2 & _). exists i, j, l. split; [exact H1|exact H2].
Defined.

Lemma vector_clocks_exact_witness : exists m c, mem_run memory_start (message_passing mo_release mo_acquire) = MemOk m /\ mm_threads m !! 2 = Some c /\
  (exists j, thr (message_passing mo_release mo_acquire) j 2 /\ (3%nat = j \/ happens_before (message_passing mo_release mo_acquire) 3 j)).
Proof.
  set (L := message_passing mo_release mo_acquire).
  assert (E : match mem_run memory_start L with MemOk m => option_map (fun c => vc_Get (clk_current c) 1) (mm_threads m !! 2) | _ => None end = Some 4) by (vm_compute; reflexivity).
  destruct (mem_run memory_start L) as [m| |] eqn:Em; [|discriminate E|discriminate E]. destruct (mm_threads m !! 2) as [c|] eqn:Ec; [|discriminate E]. injection E as E.
  exists m, c. split; [reflexivity|]. split; [exact Ec|]. apply (vector_clocks_exact L m 2 c 3 (OAccess 1 0 AWrite) ltac:(simpl; lia) Em Ec eq_refl eq_refl).
  change (op_thread (OAccess 1 0 AWrite)) with 1. rewrite E. vm_compute. discriminate.
Defined.

(** A destroyed variable can still be read: nothing looks at [dtor]. *)
Theorem destroyed_variable_is_read : is_ok (mem_run memory_start [OAccess 1 0 AInit; OAccess 1 0 ADestroy; OAccess 1 0 ARead]) = true.
Proof. vm_compute. reflexivity. Qed.

(** A release store to one atomic (8) also publishes through a later relaxed store to another
    (16), since it counts as a fence. *)
Theorem release_store_is_a_fence : is_ok (mem_run memory_start
  [OAccess 1 0 AInit; OSync 1 (mkAction AtomicInit 8 4 0 mo_relaxed); OSync 1 (mkAction AtomicInit 16 4 0 mo_relaxed); OSpawn 1 2; OAccess 1 0 AWrite;
   OSync 1 (mkAction AtomicStore 8 4 1 mo_release); OSync 1 (mkAction AtomicStore 16 4 1 mo_relaxed); OSync 2 (mkAction AtomicLoad 16 4 0 mo_acquire); OAccess 2 0 ARead]) = true.
Proof. vm_compute. reflexivity. Qed.
