(* ===== verification/TimerHeap.v ===== *)
(** The timers of the simulator:
    src/deps/twist/source/twist/rt/sim/system/timer, a binary heap of timers in an array, in
    which every timer knows its place, and the queue on top of it.

    Timers live on the stacks of the threads that wait for them; here they are records in a
    store, by address.  The theorems: the heap holds exactly the timers that were added and
    not removed, and no access leaves the array ([timer_queue_correct]); with [Insert] and
    [ExtractMin] alone timers come out in order; [Remove] can break the order, and then a timer
    fires late ([removed_timer_hides_another]). *)

From S2P Require Import Prelude SimSched.
Local Open Scope nat_scope.

(** ** Failures without choices *)

Inductive Checked (A : Type) := Fine (a : A) | Broken (s : stop).
Arguments Fine {A} _.
Arguments Broken {A} _.
#[export] Instance Checked_ret : MRet Checked := @Fine.
#[export] Instance Checked_bind : MBind Checked := fun A B f m => match m with Fine a => f a | Broken s => Broken s end.

Definition check (b : bool) : Checked () := if b then Fine () else Broken Panic.

(** ** Timers *)

(** [SleepTimer] and [FutexTimer] of simulator.cpp: which thread [Alarm] wakes. *)
Inductive Alarm_ := SleepTimer (sleeper : Z) | FutexTimer (waiter : Z).

(** [Timer] with its [TimerMeta]. *)
Record Timer := mkTimer { tm_when : Z; tm_loc : nat; tm_id : Z; tm_alarm : Alarm_ }.

Abbreviation timers := (gmap Z Timer).

Definition kTimerLimit : nat := 256.

(** [TimerHeap]: [tree_], from index 1, and [size_]; 0 is the null pointer. *)
Record TimerHeap := mkHeap { tree_ : list Z; size_ : nat }.
Definition heap_new : TimerHeap := mkHeap (replicate kTimerLimit 0%Z) 0.

Definition tree_get (l : list Z) (i : nat) : Checked Z := match l !! i with Some t => Fine t | None => Broken Crash end.
Definition tree_set (l : list Z) (i : nat) (t : Z) : Checked (list Z) := if decide (i < length l) then Fine (<[i := t]> l) else Broken Crash.
Definition deref (T : timers) (t : Z) : Checked Timer := match T !! t with Some x => Fine x | None => Broken Crash end.

Definition timer_lt (x y : Timer) : bool := ((tm_when x <? tm_when y) || ((tm_when x =? tm_when y) && (tm_id x <? tm_id y)))%Z.
Definition heap_Less (T : timers) (a b : Z) : Checked bool := x ← deref T a; y ← deref T b; Fine (timer_lt x y).

Definition set_loc (T : timers) (t : Z) (i : nat) : Checked timers := x ← deref T t; Fine (<[t := mkTimer (tm_when x) i (tm_id x) (tm_alarm x)]> T).
Definition UpdateTimerMetadata (T : timers) (l : list Z) (i : nat) : Checked timers := t ← tree_get l i; set_loc T t i.

Definition heap_swap (l : list Z) (i j : nat) : Checked (list Z) :=
  x ← tree_get l i; y ← tree_get l j; l ← tree_set l i y; tree_set l j x.

(** The loop of [SiftUp], with fuel: the index becomes smaller. *)
Fixpoint SiftUp (fuel : nat) (T : timers) (l : list Z) (index : nat) : Checked (timers * list Z) :=
  match fuel with
  | O => Broken Timeout
  | S fuel =>
      if decide (index = 1) then T ← UpdateTimerMetadata T l index; Fine (T, l)
      else
        let parent_index := Nat.div2 index in
        x ← tree_get l index;
        y ← tree_get l parent_index;
        less ← heap_Less T x y;
        if less : bool then
          l ← heap_swap l index parent_index;
          T ← UpdateTimerMetadata T l index;
          SiftUp fuel T l parent_index
        else T ← UpdateTimerMetadata T l index; Fine (T, l)
  end.

(** The smaller one of [min] and the child [i], if there is such a child. *)
Definition min_child (T : timers) (l : list Z) (n i min : nat) : Checked nat :=
  if decide (i <= n) then x ← tree_get l i; y ← tree_get l min; less ← heap_Less T x y; Fine (if less : bool then i else min) else Fine min.

(** The loop of [SiftDown], with fuel: the index grows up to [n], the size. *)
Fixpoint SiftDown (fuel : nat) (T : timers) (l : list Z) (n index : nat) : Checked (timers * list Z) :=
  match fuel with
  | O => Broken Timeout
  | S fuel =>
      if decide (n < index * 2) then T ← UpdateTimerMetadata T l index; Fine (T, l)
      else
        min ← min_child T l n (index * 2) index;
        min ← min_child T l n (index * 2 + 1) min;
        if decide (min = index) then T ← UpdateTimerMetadata T l index; Fine (T, l)
        else
          l ← heap_swap l index min;
          T ← UpdateTimerMetadata T l index;
          SiftDown fuel T l n min
  end.

Definition heap_Insert (T : timers) (h : TimerHeap) (t : Z) : Checked (timers * TimerHeap) :=
  _ ← check (bool_decide (size_ h + 1 < kTimerLimit));
  let n := S (size_ h) in
  l ← tree_set (tree_ h) n t;
  p ← SiftUp (S n) T l n;
  Fine (p.1, mkHeap p.2 n).

Definition heap_IsActive (T : timers) (t : Z) : Checked bool := x ← deref T t; Fine (bool_decide (0 < tm_loc x)).

Definition heap_Remove (T : timers) (h : TimerHeap) (t : Z) : Checked (timers * TimerHeap) :=
  x ← deref T t;
  let index := tm_loc x in
  y ← tree_get (tree_ h) index;
  _ ← check (bool_decide (y = t));
  T ← set_loc T t 0;
  last ← tree_get (tree_ h) (size_ h);
  l ← tree_set (tree_ h) index last;
  let n := pred (size_ h) in
  p ← SiftDown (S (size_ h)) T l n index;
  Fine (p.1, mkHeap p.2 n).

Definition heap_Min (h : TimerHeap) : Checked Z := _ ← check (bool_decide (size_ h <> 0)); tree_get (tree_ h) 1.

Definition heap_ExtractMin (T : timers) (h : TimerHeap) : Checked (Z * (timers * TimerHeap)) :=
  _ ← check (bool_decide (size_ h <> 0));
  min ← tree_get (tree_ h) 1;
  last ← tree_get (tree_ h) (size_ h);
  l ← tree_set (tree_ h) 1 last;
  let n := pred (size_ h) in
  p ← (if decide (0 < n) then SiftDown (S n) T l n 1 else Fine (T, l));
  Fine (min, (p.1, mkHeap p.2 n)).

(** ** The queue *)

(** [TimerQueue], with the store of the timers. *)
Record TimerQueue := mkTQ { tq_timers : timers; tq_heap : TimerHeap; next_id_ : Z }.
Definition tq_new : TimerQueue := mkTQ ∅ heap_new 0.

(** [Add] of a timer at [t] that is not in the queue. *)
Definition tq_Add (q : TimerQueue) (t when_ : Z) (alarm : Alarm_) : Checked TimerQueue :=
  let id := wrap 64 (next_id_ q + 1) in
  p ← heap_Insert (<[t := mkTimer when_ 0 id alarm]> (tq_timers q)) (tq_heap q) t;
  Fine (mkTQ p.1 p.2 id).
Definition tq_Remove (q : TimerQueue) (t : Z) : Checked (bool * TimerQueue) :=
  active ← heap_IsActive (tq_timers q) t;
  if active : bool then p ← heap_Remove (tq_timers q) (tq_heap q) t; Fine (true, mkTQ p.1 p.2 (next_id_ q)) else Fine (false, q).
Definition tq_IsEmpty (q : TimerQueue) : bool := bool_decide (size_ (tq_heap q) = 0).
Definition tq_NextDeadLine (q : TimerQueue) : Checked Z := t ← heap_Min (tq_heap q); x ← deref (tq_timers q) t; Fine (tm_when x).
Definition tq_Poll (q : TimerQueue) (now : Z) : Checked (option Z * TimerQueue) :=
  if tq_IsEmpty q then Fine (None, q)
  else
    d ← tq_NextDeadLine q;
    if (d <=? now)%Z then
      p ← heap_ExtractMin (tq_timers q) (tq_heap q);
      Fine (Some p.1, mkTQ p.2.1 p.2.2 (next_id_ q))
    else Fine (None, q).

(** ** Order in a binary heap, on the keys by index *)

Definition key : Type := Z * Z.
Definition key_lt (a b : key) : Prop := (a.1 < b.1 \/ a.1 = b.1 /\ a.2 < b.2)%Z.

(** Every key is at least the key of its parent. *)
Definition ordered (K : nat -> key) (n : nat) : Prop := forall i, 2 <= i <= n -> ~ key_lt (K i) (K (i / 2)).

(** The same, but for the item at [h] and its parent: [SiftUp] will find its place. *)
Definition ordered_above (K : nat -> key) (n h : nat) : Prop :=
  (forall i, 2 <= i <= n -> i <> h -> ~ key_lt (K i) (K (i / 2)))
  /\ (forall i, 2 <= i <= n -> i / 2 = h -> 2 <= h -> ~ key_lt (K i) (K (h / 2))).

(** The same, but for the item at [h] and its children: [SiftDown] will find its place. *)
Definition ordered_below (K : nat -> key) (n h : nat) : Prop :=
  (forall i, 2 <= i <= n -> i / 2 <> h -> ~ key_lt (K i) (K (i / 2)))
  /\ (forall i, 2 <= i <= n -> i / 2 = h -> 2 <= h -> ~ key_lt (K i) (K (h / 2))).

Definition swapped (K : nat -> key) (i j : nat) : nat -> key := fun k => if decide (k = i) then K j else if decide (k = j) then K i else K k.

Ltac key_order := unfold key_lt in *; lia.
Lemma half_of (i : nat) : 2 <= i -> 1 <= i / 2 < i.
Proof. intros ?. pose proof (Nat.div_lt i 2). pose proof (Nat.div_le_lower_bound i 2 1). lia. Qed.

Lemma above_swap (K : nat -> key) (n h : nat) :
  ordered_above K n h -> 2 <= h <= n -> key_lt (K h) (K (h / 2)) -> ordered_above (swapped K h (h / 2)) n (h / 2).
Proof.
  intros [Ho Hc] Hh Hlt. pose proof (half_of h ltac:(lia)) as Hp. split.
  - intros i Hi Hne. pose proof (half_of i ltac:(lia)) as Hip. unfold swapped.
    destruct (decide (i = h)) as [-> | Hih].
    { rewrite (decide_False (P := h / 2 = h)) by lia. rewrite decide_True by done. key_order. }
    rewrite (decide_False (P := i = h / 2)) by lia. pose proof (Ho i Hi Hih) as H1.
    destruct (decide (i / 2 = h)) as [Heq | _]; [apply (Hc i Hi Heq); lia |].
    destruct (decide (i / 2 = h / 2)) as [Heq | _]; [rewrite Heq in H1; key_order | done].
  - intros i Hi Hip Hp2. unfold swapped. pose proof (half_of (h / 2) ltac:(lia)) as Hpp. pose proof (Ho (h / 2) ltac:(lia) ltac:(lia)) as H1.
    pose proof (half_of i ltac:(lia)). rewrite (decide_False (P := i = h / 2)) by lia.
    rewrite !(decide_False (P := h / 2 / 2 = _)) by lia.
    destruct (decide (i = h)) as [_ | Hih]; [done |]. pose proof (Ho i Hi Hih) as H2. rewrite Hip in H2. key_order.
Qed.

Lemma above_done (K : nat -> key) (n h : nat) : ordered_above K n h -> h = 1 \/ ~ key_lt (K h) (K (h / 2)) -> ordered K n.
Proof. intros [Ho _] Hh i Hi. destruct (decide (i = h)) as [-> |]; [destruct Hh; [lia | done] | by apply Ho]. Qed.

(** [m] is the lesser one of the children of [h], less than [h]. *)
Lemma below_swap (K : nat -> key) (n h m : nat) :
  ordered_below K n h -> 1 <= h -> 2 <= m <= n -> m / 2 = h -> key_lt (K m) (K h) ->
  (forall i, 2 <= i <= n -> i / 2 = h -> ~ key_lt (K i) (K m)) -> ordered_below (swapped K h m) n m.
Proof.
  intros [Ho Hc] H1 Hm Hmh Hlt Hmin. pose proof (half_of m ltac:(lia)) as Hp. split.
  - intros i Hi Hne. pose proof (half_of i ltac:(lia)) as Hip. unfold swapped. rewrite (decide_False (P := i / 2 = m)) by done.
    destruct (decide (i / 2 = h)) as [Heq | Hih].
    + rewrite (decide_False (P := i = h)) by lia. destruct (decide (i = m)); [key_order | by apply Hmin].
    + destruct (decide (i = h)) as [-> | _]; [apply (Hc m Hm Hmh); lia |].
      destruct (decide (i = m)) as [-> | _]; [done | by apply Ho].
  - intros i Hi Hip Hp2. unfold swapped. pose proof (half_of i ltac:(lia)).
    rewrite (decide_False (P := i = h)), (decide_False (P := i = m)), (decide_True (P := m / 2 = h)) by lia.
    rewrite <- Hip. apply Ho; lia.
Qed.

Lemma below_done (K : nat -> key) (n h : nat) :
  ordered_below K n h -> (forall i, 2 <= i <= n -> i / 2 = h -> ~ key_lt (K i) (K h)) -> ordered K n.
Proof. intros [Ho _] Hh i Hi. destruct (decide (i / 2 = h)) as [Hih |]; [rewrite Hih; by apply Hh | by apply Ho]. Qed.

(** The root is least. *)
Lemma ordered_root (K : nat -> key) (n : nat) : ordered K n -> forall i, 1 <= i <= n -> ~ key_lt (K i) (K 1).
Proof.
  intros Ho i. induction i as [i IH] using lt_wf_ind. intros Hi. destruct (decide (i = 1)) as [-> |]; [key_order |].
  pose proof (half_of i ltac:(lia)). pose proof (Ho i ltac:(lia)). pose proof (IH (i / 2) ltac:(lia) ltac:(lia)). key_order.
Qed.

#[export] Instance ordered_above_proper : Proper (pointwise_relation nat eq ==> eq ==> eq ==> iff) ordered_above.
Proof. intros K K' HK ? n -> ? h ->. unfold ordered_above. by setoid_rewrite HK. Qed.
#[export] Instance ordered_below_proper : Proper (pointwise_relation nat eq ==> eq ==> eq ==> iff) ordered_below.
Proof. intros K K' HK ? n -> ? h ->. unfold ordered_below. by setoid_rewrite HK. Qed.

(** ** The array and the places *)

(** What a timer is but for its place. *)
Definition desc (x : Timer) : Z * Z * Alarm_ := (tm_when x, tm_id x, tm_alarm x).
Definition descs (T : timers) : gmap Z (Z * Z * Alarm_) := desc <$> T.
Definition key_at (D : gmap Z (Z * Z * Alarm_)) (l : list Z) (i : nat) : key := from_option fst (0, 0)%Z (l !! i ≫= fun t => D !! t).
Definition in_heap (l : list Z) (n : nat) (t : Z) : Prop := exists i, 1 <= i <= n /\ l !! i = Some t.

(** The first [n] items of the array are timers, all different; they know their places, but for the one at [h]. *)
Record placed (T : timers) (l : list Z) (n h : nat) : Prop := {
  pl_length : length l = kTimerLimit;
  pl_size : n < kTimerLimit;
  pl_at : forall i, 1 <= i <= n -> exists t x, l !! i = Some t /\ T !! t = Some x /\ (i <> h -> tm_loc x = i);
  pl_inj : forall i j t, 1 <= i <= n -> 1 <= j <= n -> l !! i = Some t -> l !! j = Some t -> i = j }.

(** Only places have changed, in the array and in the timers of the heap. *)
Definition moved (T : timers) (l : list Z) (T' : timers) (l' : list Z) (n : nat) : Prop :=
  descs T' = descs T /\ (forall t, in_heap l' n t <-> in_heap l n t) /\ (forall t, ~ in_heap l n t -> T' !! t = T !! t).

Lemma moved_refl (T : timers) (l : list Z) (n : nat) : moved T l T l n.
Proof. done. Qed.
Lemma moved_trans (T1 T2 T3 : timers) (l1 l2 l3 : list Z) (n : nat) : moved T1 l1 T2 l2 n -> moved T2 l2 T3 l3 n -> moved T1 l1 T3 l3 n.
Proof.
  intros (D1 & I1 & N1) (D2 & I2 & N2). split; [congruence |]. split; [by intros t; rewrite I2 |].
  intros t Ht. rewrite N2; [by apply N1 |]. by rewrite I1.
Qed.

Ltac run H := rewrite H; cbn [mbind Checked_bind].

Lemma descs_relocated (T : timers) (t : Z) (x : Timer) (i : nat) :
  T !! t = Some x -> descs (<[t := mkTimer (tm_when x) i (tm_id x) (tm_alarm x)]> T) = descs T.
Proof. intros Hx. unfold descs. rewrite fmap_insert. apply insert_id. by rewrite lookup_fmap, Hx. Qed.

Lemma placed_weaken (T : timers) (l : list Z) (n h : nat) : placed T l n 0 -> placed T l n h.
Proof. intros [Hl Hn Ha Hi]. split; [done | done | | done]. intros i Hin. destruct (Ha i Hin) as (t & x & ? & ? & Hx). eauto 6 with lia. Qed.

(** [UpdateTimerMetadata] at the place that is out of date. *)
Lemma update_at (T : timers) (l : list Z) (n h : nat) :
  placed T l n h -> 1 <= h <= n -> exists T', UpdateTimerMetadata T l h = Fine T' /\ placed T' l n 0 /\ moved T l T' l n.
Proof.
  intros [Hl Hn Ha Hi] Hh. destruct (Ha h Hh) as (t & x & Ht & Hx & _). eexists. split.
  { unfold UpdateTimerMetadata, tree_get. run Ht. unfold set_loc, deref. run Hx. done. }
  split; [split; [done | done | | done] |].
  - intros i Hin. destruct (decide (i = h)) as [-> | Hne].
    + exists t. eexists. rewrite lookup_insert_eq. split_and!; done.
    + destruct (Ha i Hin) as (u & y & Hu & Hy & Hloc). exists u, y.
      rewrite lookup_insert_ne by (intros ->; apply Hne; by eapply Hi). eauto.
  - split; [by apply descs_relocated |]. split; [done |]. intros u Hu. apply lookup_insert_ne. intros ->. apply Hu. by exists h.
Qed.

(** The comparison of two items of the array. *)
Lemma less_at (T : timers) (l : list Z) (n h i j : nat) :
  placed T l n h -> 1 <= i <= n -> 1 <= j <= n ->
  exists t u b, tree_get l i = Fine t /\ tree_get l j = Fine u /\ heap_Less T t u = Fine b
    /\ (b = true <-> key_lt (key_at (descs T) l i) (key_at (descs T) l j)).
Proof.
  intros [Hl Hn Ha _] Hin Hjn. destruct (Ha i Hin) as (t & x & Ht & Hx & _), (Ha j Hjn) as (u & y & Hu & Hy & _).
  exists t, u, (timer_lt x y). unfold tree_get, heap_Less, deref. rewrite Ht, Hu, Hx, Hy. split_and!; [done .. |].
  unfold key_at, descs. rewrite Ht, Hu. cbn. rewrite !lookup_fmap, Hx, Hy. cbn. unfold timer_lt, key_lt. cbn. lia.
Qed.

(** A swap, and the new place of the timer that comes to [i]. *)
Lemma exchange (T : timers) (l : list Z) (n i j : nat) :
  placed T l n i -> 1 <= i <= n -> 1 <= j <= n -> i <> j ->
  exists l' T', heap_swap l i j = Fine l' /\ UpdateTimerMetadata T l' i = Fine T' /\ placed T' l' n j /\ moved T l T' l' n
    /\ pointwise_relation nat eq (key_at (descs T') l') (swapped (key_at (descs T) l) i j).
Proof.
  intros [Hl Hn Ha Hi] Hin Hjn Hij. destruct (Ha i Hin) as (t & x & Ht & Hx & _), (Ha j Hjn) as (u & y & Hu & Hy & Hyl).
  pose proof (lookup_lt_Some _ _ _ Ht). pose proof (lookup_lt_Some _ _ _ Hu).
  assert (Htu : t <> u) by (intros ->; apply Hij; by eapply Hi).
  set (l' := <[j := t]> (<[i := u]> l)).
  assert (Hl' : forall k, l' !! k = if decide (k = i) then Some u else if decide (k = j) then Some t else l !! k).
  { intros k. unfold l'. repeat case_decide; subst.
    - rewrite list_lookup_insert_ne by done. by apply list_lookup_insert_eq.
    - apply list_lookup_insert_eq. by rewrite length_insert.
    - by rewrite !list_lookup_insert_ne by done. }
  exists l'. eexists. split.
  { unfold heap_swap, tree_get, tree_set. run Ht. run Hu. rewrite decide_True by done. cbn [mbind Checked_bind]. by rewrite length_insert, decide_True. }
  split.
  { unfold UpdateTimerMetadata, tree_get. rewrite Hl', decide_True by done. cbn [mbind Checked_bind]. unfold set_loc, deref. run Hy. done. }
  assert (Hin' : forall v, in_heap l' n v <-> in_heap l n v).
  { intros v. split; intros (k & Hk & Hkv).
    - rewrite Hl' in Hkv. repeat case_decide; simplify_eq; [by exists j | by exists i | by exists k].
    - destruct (decide (k = i)) as [-> |]; [exists j | destruct (decide (k = j)) as [-> |]; [exists i | exists k]];
        (split; [done |]); rewrite Hl'; repeat case_decide; congruence. }
  split; [split; [unfold l'; by rewrite !length_insert | done | |] |].
  - intros k Hk. rewrite Hl'. destruct (decide (k = i)) as [-> | Hki].
    { exists u. eexists. rewrite lookup_insert_eq. split_and!; done. }
    destruct (decide (k = j)) as [-> | Hkj].
    { exists t, x. rewrite lookup_insert_ne by done. done. }
    destruct (Ha k Hk) as (v & z & Hv & Hz & Hloc). exists v, z.
    rewrite lookup_insert_ne by (intros ->; apply Hkj; by eapply Hi). auto.
  - intros a b v Hna Hb. rewrite !Hl'. intros H1 H2. repeat case_decide; try congruence.
    all: first [by apply (Hi a b v)
               | assert (b = j) by (apply (Hi b j v); first [done | congruence]); congruence
               | assert (b = i) by (apply (Hi b i v); first [done | congruence]); congruence
               | assert (a = j) by (apply (Hi a j v); first [done | congruence]); congruence
               | assert (a = i) by (apply (Hi a i v); first [done | congruence]); congruence].
  - split.
    + split; [by apply descs_relocated |]. split; [done |]. intros v Hv. apply lookup_insert_ne. intros ->. apply Hv. by exists j.
    + intros k. rewrite descs_relocated by done. unfold key_at, swapped. rewrite Hl'. repeat case_decide; by rewrite ?Ht, ?Hu.
Qed.

(** ** The loops *)

Definition sorted_from (ord : (nat -> key) -> nat -> nat -> Prop) (T : timers) (l : list Z) (n h : nat) (T' : timers) (l' : list Z) : Prop :=
  ord (key_at (descs T) l) n h -> ordered (key_at (descs T') l') n.

(** [SiftUp] puts the item in its place. *)
Lemma SiftUp_spec (fuel : nat) (T : timers) (l : list Z) (n h : nat) :
  placed T l n h -> 1 <= h <= n -> h <= fuel ->
  exists T' l', SiftUp fuel T l h = Fine (T', l') /\ placed T' l' n 0 /\ moved T l T' l' n /\ sorted_from ordered_above T l n h T' l'.
Proof.
  revert T l h. induction fuel as [| fuel IH]; intros T l h HP Hh Hf; [lia |]. cbn [SiftUp].
  destruct (update_at T l n h HP Hh) as (T1 & HU & HP1 & HM1).
  case_decide as H1.
  { run HU. exists T1, l. split_and!; [done .. |]. intros Ho. rewrite (proj1 HM1). apply (above_done _ _ h); auto. }
  rewrite Nat.div2_div. pose proof (half_of h ltac:(lia)) as Hp.
  destruct (less_at T l n h h (h / 2) HP Hh ltac:(lia)) as (t & u & b & Ht & Hu & Hb & Hlt). run Ht. run Hu. run Hb. destruct b.
  - destruct (exchange T l n h (h / 2) HP Hh ltac:(lia) ltac:(lia)) as (l2 & T2 & HS & HU2 & HP2 & HM2 & HK).
    run HS. run HU2. destruct (IH T2 l2 (h / 2) HP2 ltac:(lia) ltac:(lia)) as (T3 & l3 & HR & HP3 & HM3 & Hs).
    exists T3, l3. split_and!; [done .. | by eapply moved_trans |].
    intros Ho. apply Hs. rewrite HK. apply above_swap; [done | lia | by apply Hlt].
  - run HU. exists T1, l. split_and!; [done .. |]. intros Ho. rewrite (proj1 HM1). apply (above_done _ _ h); [done |].
    right. intros Hk. by apply Hlt in Hk.
Qed.

Lemma min_child_spec (T : timers) (l : list Z) (n h i m : nat) :
  placed T l n h -> 1 <= i -> 1 <= m <= n ->
  exists m', min_child T l n i m = Fine m' /\ (m' = m \/ m' = i /\ i <= n /\ key_lt (key_at (descs T) l i) (key_at (descs T) l m))
    /\ (i <= n -> ~ key_lt (key_at (descs T) l i) (key_at (descs T) l m')).
Proof.
  intros HP Hi Hm. unfold min_child. case_decide as Hin; [| exists m; split_and!; [done | by left | lia]].
  destruct (less_at T l n h i m HP ltac:(lia) Hm) as (t & u & b & Ht & Hu & Hb & Hlt). run Ht. run Hu. run Hb.
  destruct b; [exists i | exists m]; (split; [done |]).
  - split; [right; naive_solver | intros _; key_order].
  - split; [by left | intros _ Hk; by apply Hlt in Hk].
Qed.

(** [SiftDown] puts the item in its place. *)
Lemma SiftDown_spec (fuel : nat) (T : timers) (l : list Z) (n h : nat) :
  placed T l n h -> 1 <= h <= n -> n < fuel + h ->
  exists T' l', SiftDown fuel T l n h = Fine (T', l') /\ placed T' l' n 0 /\ moved T l T' l' n /\ sorted_from ordered_below T l n h T' l'.
Proof.
  revert T l h. induction fuel as [| fuel IH]; intros T l h HP Hh Hf; [lia |]. cbn [SiftDown].
  destruct (update_at T l n h HP Hh) as (T1 & HU & HP1 & HM1).
  case_decide as H1.
  { run HU. exists T1, l. split_and!; [done .. |]. intros Ho. rewrite (proj1 HM1). apply (below_done _ _ h); [done |].
    intros i Hi Hih. pose proof (Nat.div_mod_eq i 2). pose proof (Nat.mod_upper_bound i 2). lia. }
  destruct (min_child_spec T l n h (h * 2) h HP ltac:(lia) Hh) as (m1 & Hm1 & Hc1 & Hl1). run Hm1.
  destruct (min_child_spec T l n h (h * 2 + 1) m1 HP ltac:(lia) ltac:(lia)) as (m & Hm & Hc & Hl). run Hm.
  set (K := key_at (descs T) l) in *.
  assert (Hmin : forall i, 2 <= i <= n -> i / 2 = h -> ~ key_lt (K i) (K m)).
  { intros i Hi Hih. pose proof (Nat.div_mod_eq i 2). pose proof (Nat.mod_upper_bound i 2).
    assert (i = h * 2 \/ i = h * 2 + 1) as [-> | ->] by lia; [| by apply Hl; lia].
    destruct Hc as [-> | (-> & ? & Hc)]; [apply Hl1; lia |]. pose proof (Hl1 ltac:(lia)). key_order. }
  case_decide as Hmh.
  - subst m. run HU. exists T1, l. split_and!; [done .. |]. intros Ho. rewrite (proj1 HM1). by apply (below_done _ _ h).
  - assert (2 <= m <= n /\ m / 2 = h /\ h < m /\ key_lt (K m) (K h)) as (? & ? & ? & ?).
    { assert (h * 2 / 2 = h) by (apply Nat.div_mul; lia). assert ((h * 2 + 1) / 2 = h) by (rewrite Nat.div_add_l by lia; cbn; lia).
      destruct Hc as [-> | (-> & ? & Hc)], Hc1 as [-> | (-> & ? & Hc1)]; try done; split_and!; try done; try lia. key_order. }
    destruct (exchange T l n h m HP Hh ltac:(lia) ltac:(lia)) as (l2 & T2 & HS & HU2 & HP2 & HM2 & HK).
    run HS. run HU2. destruct (IH T2 l2 m HP2 ltac:(lia) ltac:(lia)) as (T3 & l3 & HR & HP3 & HM3 & Hs).
    exists T3, l3. split_and!; [done .. | by eapply moved_trans |].
    intros Ho. apply Hs. rewrite HK. apply below_swap; [done | lia | done ..].
Qed.

(** ** The operations of the heap *)

Lemma insert_ok (T : timers) (h : TimerHeap) (t : Z) (x : Timer) :
  placed T (tree_ h) (size_ h) 0 -> ~ in_heap (tree_ h) (size_ h) t -> size_ h + 1 < kTimerLimit ->
  exists T' h', heap_Insert (<[t := x]> T) h t = Fine (T', h') /\ placed T' (tree_ h') (size_ h') 0 /\ size_ h' = S (size_ h)
    /\ descs T' = <[t := desc x]> (descs T) /\ (forall u, in_heap (tree_ h') (size_ h') u <-> u = t \/ in_heap (tree_ h) (size_ h) u)
    /\ (ordered (key_at (descs T) (tree_ h)) (size_ h) -> ordered (key_at (descs T') (tree_ h')) (size_ h')).
Proof.
  destruct h as [l n]. cbn [tree_ size_]. intros [Hl Hn Ha Hi] Hnot Hlim. unfold heap_Insert, check. cbn [tree_ size_].
  rewrite bool_decide_eq_true_2 by done. cbn [mbind Checked_bind]. unfold tree_set. rewrite decide_True by lia. cbn [mbind Checked_bind].
  set (l1 := <[S n := t]> l).
  assert (Hnew : l1 !! S n = Some t) by (apply list_lookup_insert_eq; lia).
  assert (Hold : forall i, i <> S n -> l1 !! i = l !! i) by (intros i ?; apply list_lookup_insert_ne; lia).
  assert (HP : placed (<[t := x]> T) l1 (S n) (S n)).
  { split; [unfold l1; by rewrite length_insert | lia | |].
    - intros i Hin. destruct (decide (i = S n)) as [-> | Hne].
      + exists t, x. by rewrite lookup_insert_eq.
      + destruct (Ha i ltac:(lia)) as (u & y & Hu & Hy & Hloc). exists u, y. rewrite Hold by done.
        rewrite lookup_insert_ne by (intros ->; apply Hnot; exists i; split; [lia | done]). split_and!; [done .. |]. intros _. apply Hloc. lia.
    - intros i j u Hin Hjn. destruct (decide (i = S n)) as [-> |], (decide (j = S n)) as [-> |]; rewrite ?Hnew, ?Hold by done; intros; simplify_eq; try done.
      + exfalso. apply Hnot. exists j. split; [lia | done].
      + exfalso. apply Hnot. exists i. split; [lia | done].
      + eapply Hi; [lia | lia | done ..]. }
  destruct (SiftUp_spec (S (S n)) _ _ _ _ HP ltac:(lia) ltac:(lia)) as (T2 & l2 & HR & HP2 & (HD & HI & _) & Hs).
  run HR. exists T2, (mkHeap l2 (S n)). cbn [tree_ size_ fst snd]. split_and!; [done .. | | |].
  - rewrite HD. unfold descs. by rewrite fmap_insert.
  - intros u. rewrite HI. split.
    + intros (i & Hin & Hu). destruct (decide (i = S n)) as [-> |]; [left; congruence | right]. exists i. rewrite Hold in Hu by done. split; [lia | done].
    + intros [-> | (i & Hin & Hu)]; [exists (S n); split; [lia | done] | exists i]. split; [lia |]. by rewrite Hold by lia.
  - intros Ho. apply Hs.
    assert (HK : forall i, 1 <= i <= n -> key_at (descs (<[t := x]> T)) l1 i = key_at (descs T) l i).
    { intros i Hin. unfold key_at, descs. rewrite Hold by lia. destruct (Ha i Hin) as (u & y & Hu & _). rewrite Hu. cbn.
      rewrite fmap_insert, lookup_insert_ne; [done |]. intros ->. apply Hnot. by exists i. }
    split; intros i Hin Hi2; pose proof (half_of i ltac:(lia)); [| lia]. rewrite !HK by lia. apply Ho. lia.
Qed.

(** The item at [i] gives its place to the last one. *)
Lemma drop_at (T T1 : timers) (l : list Z) (n i : nat) (t last : Z) :
  placed T l n 0 -> 1 <= i <= n -> l !! i = Some t -> l !! n = Some last -> (forall u, u <> t -> T1 !! u = T !! u) ->
  placed T1 (<[i := last]> l) (pred n) i /\ (forall u, in_heap (<[i := last]> l) (pred n) u <-> u <> t /\ in_heap l n u).
Proof.
  intros [Hl Hn Ha Hi] Hin Ht Hlast HT. pose proof (lookup_lt_Some _ _ _ Ht).
  assert (Hat : forall k, 1 <= k <= pred n -> exists u j, <[i := last]> l !! k = Some u /\ 1 <= j <= n /\ l !! j = Some u /\ j <> i /\ (k = i -> j = n) /\ (k <> i -> j = k)).
  { intros k Hk. destruct (decide (k = i)) as [-> |].
    - exists last, n. rewrite list_lookup_insert_eq by done. split_and!; try done; lia.
    - destruct (Ha k ltac:(lia)) as (u & x & Hu & _). exists u, k. rewrite list_lookup_insert_ne by done. split_and!; try done; lia. }
  split.
  - split; [by rewrite length_insert | lia | |].
    + intros k Hk. destruct (Hat k Hk) as (u & j & Hu & Hj & Hju & Hji & _ & Hjk). destruct (Ha j Hj) as (v & x & Hv & Hx & Hloc).
      assert (u = v) as -> by congruence. exists v, x. rewrite HT by (intros ->; by apply Hji, (Hi j i t)).
      split_and!; [done .. |]. intros Hki. rewrite Hloc by lia. auto.
    + intros a b u Hna Hb Hau Hbu. destruct (Hat a Hna) as (v & j & Hv & Hj & Hjv & _ & Hj1 & Hj2), (Hat b Hb) as (w & k & Hw & Hk & Hkw & _ & Hk1 & Hk2).
      assert (v = u) as -> by congruence. assert (w = u) as -> by congruence. pose proof (Hi j k u Hj Hk Hjv Hkw) as Hjk. destruct (decide (a = i)), (decide (b = i)); naive_solver lia.
  - intros u. split.
    + intros (k & Hk & Hu). destruct (Hat k Hk) as (v & j & Hv & Hj & Hjv & Hji & _). assert (u = v) as -> by congruence.
      split; [intros ->; apply Hji; by eapply Hi | by exists j].
    + intros (Hne & j & Hj & Hu). assert (j <> i) by congruence. destruct (decide (j = n)) as [-> |].
      * exists i. rewrite list_lookup_insert_eq by done. split; [lia | congruence].
      * exists j. rewrite list_lookup_insert_ne by done. split; [lia | done].
Qed.

Lemma placed_empty_hole (T : timers) (l : list Z) (n h : nat) : placed T l n h -> n < h -> placed T l n 0.
Proof. intros [? ? Ha ?] Hh. split; [done .. | | done]. intros i Hin. destruct (Ha i Hin) as (t & x & ? & ? & Hx). exists t, x. split_and!; [done .. |]. intros _. apply Hx. lia. Qed.

Lemma extract_ok (T : timers) (h : TimerHeap) :
  placed T (tree_ h) (size_ h) 0 -> size_ h <> 0 ->
  exists t T' h', heap_ExtractMin T h = Fine (t, (T', h')) /\ tree_ h !! 1 = Some t /\ placed T' (tree_ h') (size_ h') 0 /\ size_ h' = pred (size_ h)
    /\ descs T' = descs T /\ (forall u, in_heap (tree_ h') (size_ h') u <-> u <> t /\ in_heap (tree_ h) (size_ h) u)
    /\ (ordered (key_at (descs T) (tree_ h)) (size_ h) -> ordered (key_at (descs T') (tree_ h')) (size_ h')).
Proof.
  destruct h as [l n]. cbn [tree_ size_]. intros HP Hn0. unfold heap_ExtractMin, check, tree_get, tree_set. cbn [tree_ size_].
  rewrite bool_decide_eq_true_2 by done. cbn [mbind Checked_bind].
  destruct (pl_at _ _ _ _ HP 1 ltac:(lia)) as (t & x & Ht & _), (pl_at _ _ _ _ HP n ltac:(lia)) as (last & y & Hlast & _).
  run Ht. run Hlast. pose proof (lookup_lt_Some _ _ _ Ht). rewrite decide_True by done. cbn [mbind Checked_bind].
  destruct (drop_at T T l n 1 t last HP ltac:(lia) Ht Hlast ltac:(done)) as [HP1 HI1].
  case_decide as Hn.
  - destruct (SiftDown_spec (S (pred n)) _ _ _ _ HP1 ltac:(lia) ltac:(lia)) as (T2 & l2 & HR & HP2 & (HD & HI & _) & Hs).
    run HR. exists t, T2, (mkHeap l2 (pred n)). cbn [tree_ size_ fst snd]. split_and!; [done .. | intros u; by rewrite HI |].
    intros Ho. apply Hs. split; intros i Hi Hi1; [| lia]. pose proof (half_of i ltac:(lia)).
    unfold key_at. rewrite !list_lookup_insert_ne by lia. apply Ho. lia.
  - cbn [mbind Checked_bind]. exists t, T, (mkHeap (<[1 := last]> l) (pred n)). cbn [tree_ size_ fst snd].
    split_and!; [done .. | by apply (placed_empty_hole _ _ _ 1); [| lia] | done | done | done |]. intros _ i Hi. lia.
Qed.

Lemma remove_ok (T : timers) (h : TimerHeap) (t : Z) :
  placed T (tree_ h) (size_ h) 0 -> in_heap (tree_ h) (size_ h) t ->
  heap_IsActive T t = Fine true /\
  exists T' h', heap_Remove T h t = Fine (T', h') /\ placed T' (tree_ h') (size_ h') 0 /\ size_ h' = pred (size_ h)
    /\ descs T' = descs T /\ (forall u, in_heap (tree_ h') (size_ h') u <-> u <> t /\ in_heap (tree_ h) (size_ h) u).
Proof.
  destruct h as [l n]. cbn [tree_ size_]. intros HP (i & Hin & Ht). unfold heap_Remove, heap_IsActive, deref, check, tree_get, tree_set, set_loc. cbn [tree_ size_].
  destruct (pl_at _ _ _ _ HP i Hin) as (t' & x & Ht' & Hx & Hloc), (pl_at _ _ _ _ HP n ltac:(lia)) as (last & y & Hlast & _).
  assert (t' = t) as -> by congruence. specialize (Hloc ltac:(lia)). pose proof (lookup_lt_Some _ _ _ Ht) as Hlen.
  run Hx. rewrite Hloc. split; [by rewrite bool_decide_eq_true_2 by lia |].
  run Ht. rewrite bool_decide_eq_true_2 by done. cbn [mbind Checked_bind]. unfold deref. run Hx. run Hlast. rewrite decide_True by done. cbn [mbind Checked_bind].
  set (T1 := <[t := mkTimer (tm_when x) 0 (tm_id x) (tm_alarm x)]> T).
  destruct (drop_at T T1 l n i t last HP Hin Ht Hlast ltac:(intros; by apply lookup_insert_ne)) as [HP1 HI1].
  pose proof (descs_relocated T t x 0 Hx) as HD1.
  destruct (decide (i = n)) as [-> | Hne].
  - assert (last = t) as -> by congruence. cbn [SiftDown]. rewrite decide_True by lia.
    unfold UpdateTimerMetadata, tree_get. rewrite list_lookup_insert_eq by done. cbn [mbind Checked_bind]. unfold set_loc, deref, T1. rewrite lookup_insert_eq. cbn [mbind Checked_bind].
    eexists _, (mkHeap _ (pred n)). cbn [tree_ size_ fst snd]. split; [done |]. split_and!; [| done | | done].
    + apply (placed_empty_hole _ _ _ n); [| lia]. eapply drop_at; [done | lia | done | done |]. intros u Hu. by rewrite !lookup_insert_ne by done.
    + rewrite descs_relocated with (x := mkTimer (tm_when x) 0 (tm_id x) (tm_alarm x)); [done | by rewrite lookup_insert_eq].
  - destruct (SiftDown_spec (S n) _ _ _ _ HP1 ltac:(lia) ltac:(lia)) as (T2 & l2 & HR & HP2 & (HD & HI & _) & _).
    run HR. exists T2, (mkHeap l2 (pred n)). cbn [tree_ size_ fst snd]. split_and!; [done .. | by rewrite HD | intros u; by rewrite HI].
Qed.

(** ** The queue *)

Abbreviation pending := (gmap Z (Z * Z * Alarm_)).

(** The histories of a queue, with the timers that are pending: what was added and neither removed nor polled.
    The flag tells whether nothing was removed. *)
Inductive tq_history : bool -> TimerQueue -> pending -> Prop :=
| tq_start : tq_history true tq_new ∅
| tq_added b q P t when_ alarm q' :
    tq_history b q P -> P !! t = None -> tq_Add q t when_ alarm = Fine q' -> tq_history b q' (<[t := (when_, next_id_ q', alarm)]> P)
| tq_removed b q P t r q' :
    tq_history b q P -> is_Some (P !! t) -> tq_Remove q t = Fine (r, q') -> tq_history false q' (delete t P)
| tq_polled b q P now r q' :
    tq_history b q P -> tq_Poll q now = Fine (r, q') -> tq_history b q' (from_option (fun t => delete t P) P r).

Record tq_ok (b : bool) (q : TimerQueue) (P : pending) : Prop := {
  tqo_placed : placed (tq_timers q) (tree_ (tq_heap q)) (size_ (tq_heap q)) 0;
  tqo_size : size_ (tq_heap q) = size P;
  tqo_pending : forall t, in_heap (tree_ (tq_heap q)) (size_ (tq_heap q)) t <-> is_Some (P !! t);
  tqo_desc : forall t d, P !! t = Some d -> descs (tq_timers q) !! t = Some d;
  tqo_order : b = true -> ordered (key_at (descs (tq_timers q)) (tree_ (tq_heap q))) (size_ (tq_heap q)) }.

Lemma tq_Add_ok (b : bool) (q : TimerQueue) (P : pending) (t when_ : Z) (alarm : Alarm_) :
  tq_ok b q P -> P !! t = None ->
  if decide (size P + 1 < kTimerLimit)
  then exists q', tq_Add q t when_ alarm = Fine q' /\ tq_ok b q' (<[t := (when_, next_id_ q', alarm)]> P)
  else tq_Add q t when_ alarm = Broken Panic.
Proof.
  intros [HP Hs Hp Hd Ho] Hnew. unfold tq_Add.
  assert (Hnot : ~ in_heap (tree_ (tq_heap q)) (size_ (tq_heap q)) t) by (rewrite Hp, Hnew; intros []; done).
  case_decide as Hlim.
  - destruct (insert_ok _ _ t (mkTimer when_ 0 (wrap 64 (next_id_ q + 1)) alarm) HP Hnot ltac:(lia)) as (T' & h' & HR & HP' & Hs' & HD & HI & Ho').
    run HR. eexists. split; [done |]. cbn [fst snd next_id_]. split; cbn [tq_timers tq_heap]; [done | | | |].
    + rewrite Hs', map_size_insert_None by done. lia.
    + intros u. rewrite HI, Hp. destruct (decide (u = t)) as [-> |]; [rewrite lookup_insert_eq | rewrite lookup_insert_ne by done]; naive_solver.
    + intros u d. rewrite HD. destruct (decide (u = t)) as [-> |]; [by rewrite !lookup_insert_eq | rewrite !lookup_insert_ne by done; apply Hd].
    + auto.
  - unfold heap_Insert, check. rewrite bool_decide_eq_false_2; [done | lia].
Qed.

Lemma pending_delete (P : pending) (t u : Z) : is_Some (delete t P !! u) <-> u <> t /\ is_Some (P !! u).
Proof. destruct (decide (u = t)) as [-> |]; [rewrite lookup_delete_eq | rewrite lookup_delete_ne by done]; naive_solver. Qed.

Lemma tq_Remove_ok (b : bool) (q : TimerQueue) (P : pending) (t : Z) :
  tq_ok b q P -> is_Some (P !! t) ->
  heap_IsActive (tq_timers q) t = Fine true /\ exists q', tq_Remove q t = Fine (true, q') /\ tq_ok false q' (delete t P).
Proof.
  intros [HP Hs Hp Hd Ho] [d Ht]. unfold tq_Remove.
  destruct (remove_ok _ _ t HP ltac:(by apply Hp; rewrite Ht)) as (HA & T' & h' & HR & HP' & Hs' & HD & HI).
  split; [done |]. run HA. run HR. eexists. split; [done |]. split; cbn [tq_timers tq_heap fst snd]; [done | | | | done].
  - by rewrite Hs', Hs, map_size_delete, Ht.
  - intros u. by rewrite HI, pending_delete, Hp.
  - intros u e [_ Hu]%lookup_delete_Some. rewrite HD. auto.
Qed.

Lemma tq_Poll_ok (b : bool) (q : TimerQueue) (P : pending) (now : Z) :
  tq_ok b q P ->
  exists r q', tq_Poll q now = Fine (r, q') /\ tq_ok b q' (from_option (fun t => delete t P) P r)
    /\ match r with
       | Some t => exists d, P !! t = Some d /\ (d.1.1 <= now)%Z /\ (b = true -> forall u e, P !! u = Some e -> ~ key_lt e.1 d.1)
       | None => b = true -> forall u e, P !! u = Some e -> (now < e.1.1)%Z
       end.
Proof.
  intros HQ. pose proof HQ as [HP Hs Hp Hd Ho]. unfold tq_Poll, tq_IsEmpty. case_bool_decide as He.
  { exists None, q. split_and!; [done .. |]. intros _ u e Hu. rewrite Hs in He. apply map_size_empty_inv in He. subst P. done. }
  destruct (extract_ok _ _ HP He) as (t & T' & h' & HR & H1 & HP' & Hs' & HD & HI & Ho').
  assert (Hin : in_heap (tree_ (tq_heap q)) (size_ (tq_heap q)) t) by (exists 1; split; [lia | done]).
  pose proof (proj1 (Hp t) Hin) as [d Hdt]. pose proof (Hd t d Hdt) as Hdd.
  unfold tq_NextDeadLine, heap_Min, check. rewrite bool_decide_eq_true_2 by done. cbn [mbind Checked_bind]. unfold tree_get. run H1.
  unfold descs in Hdd. rewrite lookup_fmap in Hdd. destruct (tq_timers q !! t) as [x |] eqn:Hx; [| done]. injection Hdd as Hdd.
  unfold deref. run Hx.
  assert (Hmin : b = true -> forall u e, P !! u = Some e -> ~ key_lt e.1 d.1).
  { intros Hb u e Hu. destruct (proj2 (Hp u) (mk_is_Some _ _ Hu)) as (i & Hi & Hiu).
    pose proof (ordered_root _ _ (Ho Hb) i Hi) as Hr. unfold key_at in Hr. rewrite Hiu, H1 in Hr. cbn in Hr. by rewrite (Hd _ _ Hu), (Hd _ _ Hdt) in Hr. }
  assert (tm_when x = d.1.1) as -> by (by rewrite <- Hdd).
  destruct (d.1.1 <=? now)%Z eqn:Hdue.
  - run HR. eexists (Some t), _. split; [done |]. split; [| exists d; split_and!; [done | by apply Z.leb_le | done]].
    split; cbn [tq_timers tq_heap fst snd from_option]; [done | | | | auto].
    + by rewrite Hs', Hs, map_size_delete, Hdt.
    + intros u. by rewrite HI, pending_delete, Hp.
    + intros u e [_ Hu]%lookup_delete_Some. rewrite HD. auto.
  - exists None, q. split_and!; [done .. |]. intros Hb u e Hu. pose proof (Hmin Hb u e Hu). apply Z.leb_gt in Hdue. unfold key_lt in *. destruct d as [[dw di] da], e as [[ew ei] ea]. cbn in *. lia.
Qed.

Lemma tq_history_ok (b : bool) (q : TimerQueue) (P : pending) : tq_history b q P -> tq_ok b q P.
Proof.
  induction 1 as [| b q P t w a q' _ IH Hnew HA | b q P t r q' _ IH Ht HR | b q P now r q' _ IH HPoll].
  - split; [| done | | done |].
    + split; [by vm_compute | by apply Nat.ltb_lt | intros i Hi; cbn [size_ tq_heap tq_new heap_new] in Hi; lia | intros i j t Hi; cbn [size_ tq_heap tq_new heap_new] in Hi; lia].
    + intros t. rewrite lookup_empty. split; [intros (i & Hi & _); cbn [size_ tq_heap tq_new heap_new] in Hi; lia | intros []; done].
    + intros _ i Hi. cbn [size_ tq_heap tq_new heap_new] in Hi. lia.
  - pose proof (tq_Add_ok _ _ _ t w a IH Hnew) as Hadd. case_decide; [destruct Hadd as (q2 & HA2 & Hok); by assert (q2 = q') as -> by congruence | congruence].
  - destruct (tq_Remove_ok _ _ _ t IH Ht) as (_ & q2 & HR2 & Hok). rewrite HR2 in HR. by simplify_eq.
  - destruct (tq_Poll_ok _ _ _ now IH) as (r2 & q2 & HP2 & Hok & _). rewrite HP2 in HPoll. by simplify_eq.
Qed.

(** What a client that keeps the timers needs besides. *)
Lemma tq_IsEmpty_ok (b : bool) (q : TimerQueue) (P : pending) : tq_ok b q P -> tq_IsEmpty q = bool_decide (P = ∅).
Proof. intros [_ Hs _ _ _]. unfold tq_IsEmpty. apply bool_decide_ext. rewrite Hs. apply map_size_empty_iff. Qed.

Lemma tq_Poll_descs (b : bool) (q q' : TimerQueue) (P : pending) (now : Z) (r : option Z) :
  tq_ok b q P -> tq_Poll q now = Fine (r, q') -> descs (tq_timers q') = descs (tq_timers q).
Proof.
  intros [HP _ _ _ _]. unfold tq_Poll, tq_IsEmpty. case_bool_decide as He; [by intros [= _ <-] |].
  destruct (extract_ok _ _ HP He) as (t & T' & h' & HR & _ & _ & _ & HD & _). destruct (tq_NextDeadLine q) as [d |]; [| done]. cbn [mbind Checked_bind].
  destruct (d <=? now)%Z; [| by intros [= _ <-]]. run HR. by intros [= _ <-].
Qed.

Lemma tq_NextDeadLine_ok (b : bool) (q : TimerQueue) (P : pending) :
  tq_ok b q P -> P <> ∅ ->
  exists d, tq_NextDeadLine q = Fine d /\ (forall now, (now < d)%Z -> tq_Poll q now = Fine (None, q))
    /\ (forall now, (d <= now)%Z -> exists t q', tq_Poll q now = Fine (Some t, q')).
Proof.
  intros HQ Hne. pose proof (tq_IsEmpty_ok _ _ _ HQ) as He. rewrite bool_decide_eq_false_2 in He by done.
  destruct HQ as [HP _ _ _ _]. unfold tq_IsEmpty in He. apply bool_decide_eq_false in He as Hsize.
  destruct (extract_ok _ _ HP Hsize) as (t & T' & h' & HR & H1 & _). destruct (pl_at _ _ _ _ HP 1 ltac:(lia)) as (t' & x & Ht' & Hx & _).
  assert (Hd : tq_NextDeadLine q = Fine (tm_when x)).
  { unfold tq_NextDeadLine, heap_Min, check. rewrite bool_decide_eq_true_2 by done. cbn [mbind Checked_bind]. unfold tree_get. run Ht'. unfold deref. by run Hx. }
  exists (tm_when x). split; [done |]. unfold tq_Poll, tq_IsEmpty. rewrite He. split; intros now Hnow; run Hd.
  - by rewrite (proj2 (Z.leb_gt _ _)) by lia.
  - rewrite (proj2 (Z.leb_le _ _)) by lia. run HR. eauto.
Qed.

(** C19: the timer queue of the simulator keeps exactly the pending timers: [Add] succeeds as long as fewer than 255 are
    pending and aborts otherwise, a pending timer is active and [Remove] removes it, [Poll] takes out a timer that is due,
    and as long as nothing was removed it takes the earliest one (the first one added, of those with equal times that
    were added in order), and gives none only if none is due. No loop runs out of fuel, no access leaves the array. *)
Theorem timer_queue_correct (b : bool) (q : TimerQueue) (P : pending) (H : tq_history b q P) :
  (forall t when_ alarm, P !! t = None ->
     if decide (size P + 1 < kTimerLimit) then exists q', tq_Add q t when_ alarm = Fine q' else tq_Add q t when_ alarm = Broken Panic)
  /\ (forall t, is_Some (P !! t) -> heap_IsActive (tq_timers q) t = Fine true /\ exists q', tq_Remove q t = Fine (true, q'))
  /\ (forall now, exists r q', tq_Poll q now = Fine (r, q')
       /\ match r with
          | Some t => exists d, P !! t = Some d /\ (d.1.1 <= now)%Z /\ (b = true -> forall u e, P !! u = Some e -> ~ key_lt e.1 d.1)
          | None => b = true -> forall u e, P !! u = Some e -> (now < e.1.1)%Z
          end).
Proof.
  apply tq_history_ok in H. split_and!.
  - intros t w a Ht. pose proof (tq_Add_ok _ _ _ t w a H Ht). case_decide; naive_solver.
  - intros t Ht. pose proof (tq_Remove_ok _ _ _ t H Ht). naive_solver.
  - intros now. destruct (tq_Poll_ok _ _ _ now H) as (r & q' & ? & _ & ?). eauto.
Qed.

#[export] Instance Alarm_eq_dec : EqDecision Alarm_.
Proof. solve_decision. Defined.

(** A script of operations, played against the queue and the pending timers. *)
Inductive tq_op := TqAdd (t when_ : Z) | TqRemove (t : Z) | TqPoll (now : Z).
Definition tq_play1 (s : bool * TimerQueue * pending) (op : tq_op) : option (bool * TimerQueue * pending) :=
  let '(b, q, P) := s in
  match op with
  | TqAdd t w =>
      match P !! t, tq_Add q t w (SleepTimer t) with
      | None, Fine q' => Some (b, q', <[t := (w, next_id_ q', SleepTimer t)]> P)
      | _, _ => None
      end
  | TqRemove t => match P !! t, tq_Remove q t with Some _, Fine (_, q') => Some (false, q', delete t P) | _, _ => None end
  | TqPoll now => match tq_Poll q now with Fine (r, q') => Some (b, q', from_option (fun t => delete t P) P r) | _ => None end
  end.
Definition tq_play (ops : list tq_op) : option (bool * TimerQueue * pending) :=
  fold_left (fun s op => s ≫= fun s => tq_play1 s op) ops (Some (true, tq_new, ∅)).

Lemma tq_play_history (ops : list tq_op) (b : bool) (q : TimerQueue) (P : pending) : tq_play ops = Some (b, q, P) -> tq_history b q P.
Proof.
  revert b q P. unfold tq_play. induction ops as [| op ops IH] using rev_ind; intros b q P; [intros [= <- <- <-]; constructor |].
  rewrite fold_left_app. cbn. destruct (fold_left _ ops _) as [[[b1 q1] P1] |]; [| done]. cbn.
  specialize (IH _ _ _ eq_refl). destruct op as [t w | t | now]; cbn.
  - destruct (P1 !! t) eqn:Ht, (tq_Add q1 t w (SleepTimer t)) eqn:HA; try done. intros [= <- <- <-]. by apply tq_added with q1.
  - destruct (P1 !! t) eqn:Ht, (tq_Remove q1 t) as [[r q'] |] eqn:HR; try done. intros [= <- <- <-]. by eapply tq_removed.
  - destruct (tq_Poll q1 now) as [[r q'] |] eqn:HP; [| done]. intros [= <- <- <-]. by apply tq_polled with q1 now.
Qed.

Lemma tq_play_with (ops : list tq_op) (C : bool * TimerQueue * pending -> bool) :
  from_option C false (tq_play ops) = true -> exists b q P, tq_history b q P /\ C (b, q, P) = true.
Proof. destruct (tq_play ops) as [[[b q] P] |] eqn:Hplay; [| done]. intros HC. exists b, q, P. split; [by apply (tq_play_history ops) | done]. Qed.

Definition late_ops : list tq_op :=
  [TqAdd 1 1; TqAdd 2 10; TqAdd 3 2; TqAdd 4 11; TqAdd 5 12; TqAdd 6 20; TqAdd 7 3; TqRemove 4; TqPoll 1; TqPoll 2]%Z.

(** [Remove] moves the last timer to the place of the removed one and then sifts it down only: the order of the heap
    is lost, and a timer that is due is not found.  After the timers for 1, 10, 2, 11, 12, 20 and 3, the removal of that for
    11 and two polls, the timer for 3 is pending, and [Poll] at the time 9 returns none. *)
Theorem removed_timer_hides_another :
  exists b q P, tq_history b q P /\ P !! 7%Z = Some (3, 7, SleepTimer 7)%Z /\ exists q', tq_Poll q 9 = Fine (None, q').
Proof.
  destruct (tq_play_with late_ops (fun s =>
    bool_decide (s.2 !! 7%Z = Some (3, 7, SleepTimer 7)%Z)
      && match tq_Poll s.1.2 9 with Fine (None, _) => true | _ => false end)) as (b & q & P & Hh & HC); [vm_compute; reflexivity |].
  cbn [fst snd] in HC. apply andb_true_iff in HC as [HC%bool_decide_eq_true_1 HP].
  exists b, q, P. split_and!; [done .. |]. revert HP. destruct (tq_Poll q 9) as [[[r |] q'] |]; try done. intros _. by exists q'.
Qed.

Definition early_ops : list tq_op := [TqAdd 1 5; TqAdd 2 7; TqAdd 3 2; TqPoll 3; TqAdd 4 5]%Z.

Lemma timer_queue_correct_witness :
  exists q P, tq_history true q P
      /\ (exists q', tq_Add q 9 4 (SleepTimer 9) = Fine q') /\ (exists q', tq_Remove q 2 = Fine (true, q'))
      /\ (exists r q', tq_Poll q 6 = Fine (r, q') /\ r = Some 1%Z).
Proof.
  destruct (tq_play_with early_ops (fun s =>
    s.1.1 && bool_decide (size s.2 = 3) && bool_decide (s.2 !! 9%Z = None) && bool_decide (is_Some (s.2 !! 2%Z))
      && match tq_Poll s.1.2 6 with Fine (r, _) => bool_decide (r = Some 1%Z) | _ => false end)) as (b & q & P & Hh & HC); [vm_compute; reflexivity |].
  cbn [fst snd] in HC. rewrite !andb_true_iff, !bool_decide_eq_true in HC. destruct HC as [[[[-> Hs] H9] H2] Hr].
  exists q, P. destruct (timer_queue_correct true q P Hh) as (Hadd & Hrem & Hpoll). split_and!; [done | | by destruct (Hrem 2%Z H2) |].
  - specialize (Hadd 9%Z 4%Z (SleepTimer 9) H9). rewrite decide_True in Hadd; [done | rewrite Hs; by apply Nat.ltb_lt].
  - destruct (Hpoll 6%Z) as (r & q' & Heq & _). rewrite Heq in Hr. exists r, q'. split; [done | by apply bool_decide_eq_true_1 in Hr].
Defined.
