(* ===== verification/Simulator.v ===== *)
(** The simulator that runs a program under test:
    src/deps/twist/source/twist/rt/sim/system/simulator.{hpp,cpp}, with the futex queues of
    system/futex, over the memory model (SimMemory.v), the timers (TimerHeap.v) and any
    scheduler (SimSched.v).

    A program is a state machine of its threads together: what a thread does between two
    system calls is a function of the state of the program and of the answer to the last one.
    The simulator is a program of calls to the scheduler ([Proc]), in a state monad with the
    exception [SysAbortEx] ([K]); [psched] runs it over a scheduler, [as_client] is the
    client of SimSched.v that it is.

    A [Thread*] is the id of the thread, and a timer has the address of the thread that it is
    for, on whose stack it lives: a thread waits for one timer at a time.  The clocks of a
    thread are in the memory model. *)

From S2P Require Import Prelude SimSched CoopSched SimMemory TimerHeap.
Local Open Scope Z_scope.

(** ** Calls of the scheduler, state and exceptions *)

(** [Status], [call::Status] *)
Inductive SimStatus := StOk | StLibraryAssert | StUnhandledException | StDeadlock | StMemoryLeak | StMemoryDoubleFree
| StInvalidMemoryAccess | StDataRace | StUserAbort | StPruned.
Inductive CallStatus := CsOk | CsTimeout | CsInterrupted.
#[export] Instance SimStatus_eq_dec : EqDecision SimStatus.
Proof. solve_decision. Defined.

(** Why the process stops inside of the simulator: a check of the simulator on itself fails, or
    an access to what does not exist; a check on the program fails; a limit is reached (threads,
    virtual time, fuel); without isolation, [_SysAbort] stops the process with its report. *)
Inductive sim_stop := SInternal | SMisuse | SLimit | SReport (st : SimStatus).

Inductive Proc (A : Type) := PRet (a : A) | PCall (e : env) (c : icall) (k : answer -> Proc A) | PStop (r : sim_stop).
Arguments PRet {A} _.
Arguments PCall {A} _ _ _.
Arguments PStop {A} _.

Fixpoint pbind {A B} (p : Proc A) (f : A -> Proc B) : Proc B :=
  match p with
  | PRet a => f a
  | PCall e c k => PCall e c (fun ans => pbind (k ans) f)
  | PStop r => PStop r
  end.

(** ** Data *)

Inductive FutexAtomicType := Uint32 | Uint64Half | Std.
Inductive FutexAtomicPart := Whole | LowHalf | HighHalf.
#[export] Instance FutexAtomicPart_eq_dec : EqDecision FutexAtomicPart.
Proof. solve_decision. Defined.
#[export] Instance FutexAtomicPart_countable : Countable FutexAtomicPart.
Proof.
  apply (inj_countable' (fun p => match p with Whole => 0%nat | LowHalf => 1%nat | HighHalf => 2%nat end)
    (fun n => match n with 0%nat => Whole | 1%nat => LowHalf | _ => HighHalf end)). by intros [].
Defined.

Record FutexLoc := mkFutexLoc { loc_atomic : Z; loc_size : Z; loc_part : FutexAtomicPart; loc_type : FutexAtomicType }.
Abbreviation FutexKey := (Z * FutexAtomicPart)%type.
Definition loc_key (loc : FutexLoc) : FutexKey := (loc_atomic loc, loc_part loc).

(** [FutexType] of [WaiterContext] *)
Inductive FutexType := FtFutex | FtAtomic | FtThread | FtMutexLock | FtMutexTryLock | FtCondVar | FtWaitGroup.

Inductive WakeType := WSleepTimer | WFutexWake | WFutexTimer | WSpurious.

Inductive ThreadState := TsStarting | TsRunnable | TsRunning | TsSleeping | TsLfSuspended | TsParked | TsTerminated | TsDeadlocked.
#[export] Instance ThreadState_eq_dec : EqDecision ThreadState.
Proof. solve_decision. Defined.

(** The system calls, and the requests that need no context switch (identity, time and
    preemption of the running thread). *)
Inductive syscall :=
| ScNoop | ScSpawn | ScDetach (id : Z) | ScYield | ScSwitchTo (id : Z)
| ScSleepFor (delay : Z) | ScSleepUntil (deadline : Z)
| ScSync (a : Action) | ScAccess (loc : Z) (type : AccessType)
| ScFutexWait (loc : FutexLoc) (old : Z) (type : FutexType)
| ScFutexWaitTimed (loc : FutexLoc) (old : Z) (deadline : Z) (type : FutexType)
| ScFutexWake (loc : FutexLoc) (count : Z)
| ScMalloc (addr size : Z) | ScFree (addr : Z)
| ScRandomNumber | ScRandomChoice (alts : nat) | ScSpuriousTryFailure
| ScAbort (st : SimStatus) | ScSetLockFree (on : bool) | ScProgress | ScNewIter
| ScGetId | ScNow | ScSetPreemptive (on : bool) | ScExit.

(** What a thread is told when it runs on. *)
Inductive sys_answer := SaStart | SaVoid | SaStatus (st : CallStatus) | SaNum (z : Z) | SaBool (b : bool).

(** [Thread]; [th_call] and [th_result] are the call that the thread has made and the local
    variables of that call, on its stack. *)
Record Thread := mkThread {
  th_state : ThreadState; th_main : bool; th_parent : option Z; th_preemptive : bool; th_lock_free : bool;
  th_action : option Action; th_load : Z; th_futex : option FutexKey; th_timer : option Z; th_status : CallStatus;
  th_call : option syscall; th_result : sys_answer }.

(** [WaitQueue] with [SingletonWaitQueue]; a scheduler queue is its address. *)
Record WaitQueue := mkWQ { wq_waiters : option Z; wq_singleton : option Z }.
Definition wq_new : WaitQueue := mkWQ None None.

(** [Params], as far as they matter here; [sp_isolated] is [__TWIST_SIM_ISOLATION__]. *)
Record SimParams := mkSimParams { sp_tick : Z; sp_isolated : bool; sp_detached : bool; sp_malloc_hb : bool; sp_digest_loads : bool }.

Record Program := mkProgram { prog_state : Type; prog_start : prog_state; prog_run : prog_state -> Z -> sys_answer -> prog_state * syscall }.

(** [Result] *)
Record SimResult := mkResult { rs_status : SimStatus; rs_threads : nat; rs_iters : Z; rs_digest : Z }.

(** [Simulator]; [sm_queues]: the address of the next scheduler queue; [sm_allocs], [sm_frees]: the
    statistics of the user heap. *)
Record Sim (U : Type) := mkSim {
  sm_alive : list Z; sm_threads : gmap Z Thread; sm_futex : gmap FutexKey WaitQueue; sm_timers : TimerQueue; sm_memory : Memory;
  sm_ticks : Z; sm_iter : Z; sm_digest : Z; sm_status : option SimStatus; sm_burnt : nat; sm_queues : Z;
  sm_allocs : Z; sm_frees : Z; sm_user : U }.
Arguments mkSim {U}.
Arguments sm_alive {U} _. Arguments sm_threads {U} _. Arguments sm_futex {U} _. Arguments sm_timers {U} _. Arguments sm_memory {U} _.
Arguments sm_ticks {U} _. Arguments sm_iter {U} _. Arguments sm_digest {U} _. Arguments sm_status {U} _. Arguments sm_burnt {U} _.
Arguments sm_queues {U} _. Arguments sm_allocs {U} _. Arguments sm_frees {U} _. Arguments sm_user {U} _.

Section setters.
Context {U : Type}.
Implicit Types s : Sim U.

Definition sm_set_threads s (alive : list Z) (ths : gmap Z Thread) : Sim U :=
  mkSim alive ths (sm_futex s) (sm_timers s) (sm_memory s) (sm_ticks s) (sm_iter s) (sm_digest s) (sm_status s) (sm_burnt s) (sm_queues s) (sm_allocs s) (sm_frees s) (sm_user s).
Definition sm_set_thread s (t : Z) (th : Thread) : Sim U := sm_set_threads s (sm_alive s) (<[t := th]> (sm_threads s)).
Definition sm_set_futexes s (fx : gmap FutexKey WaitQueue) (next : Z) : Sim U :=
  mkSim (sm_alive s) (sm_threads s) fx (sm_timers s) (sm_memory s) (sm_ticks s) (sm_iter s) (sm_digest s) (sm_status s) (sm_burnt s) next (sm_allocs s) (sm_frees s) (sm_user s).
Definition sm_set_futex s (k : FutexKey) (w : WaitQueue) : Sim U := sm_set_futexes s (<[k := w]> (sm_futex s)) (sm_queues s).
Definition sm_set_timers s (q : TimerQueue) : Sim U :=
  mkSim (sm_alive s) (sm_threads s) (sm_futex s) q (sm_memory s) (sm_ticks s) (sm_iter s) (sm_digest s) (sm_status s) (sm_burnt s) (sm_queues s) (sm_allocs s) (sm_frees s) (sm_user s).
Definition sm_set_memory s (m : Memory) : Sim U :=
  mkSim (sm_alive s) (sm_threads s) (sm_futex s) (sm_timers s) m (sm_ticks s) (sm_iter s) (sm_digest s) (sm_status s) (sm_burnt s) (sm_queues s) (sm_allocs s) (sm_frees s) (sm_user s).
Definition sm_set_time s (ticks iter : Z) : Sim U :=
  mkSim (sm_alive s) (sm_threads s) (sm_futex s) (sm_timers s) (sm_memory s) ticks iter (sm_digest s) (sm_status s) (sm_burnt s) (sm_queues s) (sm_allocs s) (sm_frees s) (sm_user s).
Definition sm_set_digest s (d : Z) : Sim U :=
  mkSim (sm_alive s) (sm_threads s) (sm_futex s) (sm_timers s) (sm_memory s) (sm_ticks s) (sm_iter s) d (sm_status s) (sm_burnt s) (sm_queues s) (sm_allocs s) (sm_frees s) (sm_user s).
Definition sm_set_status s (st : SimStatus) : Sim U :=
  mkSim (sm_alive s) (sm_threads s) (sm_futex s) (sm_timers s) (sm_memory s) (sm_ticks s) (sm_iter s) (sm_digest s) (Some st) (sm_burnt s) (sm_queues s) (sm_allocs s) (sm_frees s) (sm_user s).
Definition sm_set_burnt s (n : nat) : Sim U :=
  mkSim (sm_alive s) (sm_threads s) (sm_futex s) (sm_timers s) (sm_memory s) (sm_ticks s) (sm_iter s) (sm_digest s) (sm_status s) n (sm_queues s) (sm_allocs s) (sm_frees s) (sm_user s).
Definition sm_set_heap s (allocs frees : Z) : Sim U :=
  mkSim (sm_alive s) (sm_threads s) (sm_futex s) (sm_timers s) (sm_memory s) (sm_ticks s) (sm_iter s) (sm_digest s) (sm_status s) (sm_burnt s) (sm_queues s) allocs frees (sm_user s).
Definition sm_set_user s (u : U) : Sim U :=
  mkSim (sm_alive s) (sm_threads s) (sm_futex s) (sm_timers s) (sm_memory s) (sm_ticks s) (sm_iter s) (sm_digest s) (sm_status s) (sm_burnt s) (sm_queues s) (sm_allocs s) (sm_frees s) u.
End setters.

Definition th_set_wait (th : Thread) (st : ThreadState) (futex : option FutexKey) (timer : option Z) : Thread :=
  mkThread st (th_main th) (th_parent th) (th_preemptive th) (th_lock_free th) (th_action th) (th_load th) futex timer (th_status th) (th_call th) (th_result th).
Definition th_set_state (th : Thread) (st : ThreadState) : Thread := th_set_wait th st (th_futex th) (th_timer th).
Definition th_set_sync (th : Thread) (action : option Action) (load : Z) : Thread :=
  mkThread (th_state th) (th_main th) (th_parent th) (th_preemptive th) (th_lock_free th) action load (th_futex th) (th_timer th) (th_status th) (th_call th) (th_result th).
Definition th_set_status (th : Thread) (st : CallStatus) : Thread :=
  mkThread (th_state th) (th_main th) (th_parent th) (th_preemptive th) (th_lock_free th) (th_action th) (th_load th) (th_futex th) (th_timer th) st (th_call th) (th_result th).
Definition th_set_call (th : Thread) (c : option syscall) (r : sys_answer) : Thread :=
  mkThread (th_state th) (th_main th) (th_parent th) (th_preemptive th) (th_lock_free th) (th_action th) (th_load th) (th_futex th) (th_timer th) (th_status th) c r.
Definition th_set_attrs (th : Thread) (preemptive lock_free : bool) : Thread :=
  mkThread (th_state th) (th_main th) (th_parent th) preemptive lock_free (th_action th) (th_load th) (th_futex th) (th_timer th) (th_status th) (th_call th) (th_result th).
Definition th_set_parent (th : Thread) (parent : option Z) : Thread :=
  mkThread (th_state th) (th_main th) parent (th_preemptive th) (th_lock_free th) (th_action th) (th_load th) (th_futex th) (th_timer th) (th_status th) (th_call th) (th_result th).

(** [Thread::Reset] *)
Definition thread_new (main : bool) (parent : option Z) : Thread := mkThread TsStarting main parent true false None 0 None None CsOk None SaVoid.

(** ** The state monad *)

Inductive outcome (U A : Type) := Done (a : A) (s : Sim U) | Aborted (s : Sim U).
Arguments Done {U A} _ _.
Arguments Aborted {U A} _.

Definition K (U A : Type) : Type := Sim U -> Proc (outcome U A).

Section monad.
Context {U : Type}.

Definition kret {A} (a : A) : K U A := fun s => PRet (Done a s).
Definition kbind {A B} (m : K U A) (f : A -> K U B) : K U B :=
  fun s => pbind (m s) (fun o => match o with Done a s => f a s | Aborted s => PRet (Aborted s) end).
Definition kget {A} (f : Sim U -> A) : K U A := fun s => PRet (Done (f s) s).
Definition kmod (f : Sim U -> Sim U) : K U () := fun s => PRet (Done () (f s)).
Definition kstop {A} (r : sim_stop) : K U A := fun _ => PStop r.
(** [catch (SysAbortEx)] *)
Definition kcatch {A} (m : K U A) (h : K U A) : K U A :=
  fun s => pbind (m s) (fun o => match o with Done a s => PRet (Done a s) | Aborted s => h s end).
End monad.

Declare Scope sim_scope.
Delimit Scope sim_scope with sim.
Notation "x <~ m ; k" := (kbind m (fun x => k)) (at level 100, m at next level, k at level 200, right associativity) : sim_scope.
Notation "m ;~ k" := (kbind m (fun _ => k)) (at level 100, k at level 200, right associativity) : sim_scope.
Local Open Scope sim_scope.

Section sim.
Context (Pr : Program) (Pm : SimParams).
Let U : Type := prog_state Pr.
Abbreviation KK := (K (prog_state Pr)).

(** [WHEELS_VERIFY] and [WHEELS_ASSERT] of the simulator on itself, and on the program. *)
Definition kverify (b : bool) : KK () := if b then kret () else kstop SInternal.
Definition kmisuse (b : bool) : KK () := if b then kret () else kstop SMisuse.

(** What schedulers see of the threads. *)
Definition sim_env (s : Sim U) : env :=
  mkEnv (fun t => default true (th_preemptive <$> sm_threads s !! t)) (fun t => default false (th_lock_free <$> sm_threads s !! t))
    (fun t => match sm_threads s !! t ≫= th_action with
              | Some a => match act_type a with AtomicRmwLoad | AtomicStore => true | _ => false end
              | None => false
              end)
    (sm_ticks s).

Definition kcall (c : icall) : KK answer := fun s => PCall (sim_env s) c (fun ans => PRet (Done ans s)).
Definition kcall_ (c : icall) : KK () := _ <~ kcall c; kret ().
Definition kcall_bool (c : icall) : KK bool := ans <~ kcall c; match ans with ABool b => kret b | _ => kstop SInternal end.
Definition kcall_thread (c : icall) : KK (option Z) := ans <~ kcall c; match ans with AThread t => kret t | _ => kstop SInternal end.
Definition kcall_num (c : icall) : KK Z := ans <~ kcall c; match ans with ANum z => kret z | _ => kstop SInternal end.

Definition kopt {A} (o : option A) : KK A := match o with Some a => kret a | None => kstop SInternal end.
Definition kthread (t : Z) : KK Thread := o <~ kget (fun s => sm_threads s !! t); kopt o.
Definition kset_thread (t : Z) (f : Thread -> Thread) : KK () := th <~ kthread t; kmod (fun s => sm_set_thread s t (f th)).

(** [_SysAbort] *)
Definition _SysAbort {A} (st : SimStatus) : KK A :=
  fun s => if sp_isolated Pm then PRet (Aborted (sm_set_status s st)) else PStop (SReport st).

(** The memory model: its assertions concern memory orders, [AbortIter] ends the simulation. *)
Definition kmem {A} (f : Memory -> MemRes A) : KK A :=
  r <~ kget (fun s => f (sm_memory s));
  match r with
  | MOk a => kret a
  | MErr InvalidMemoryAccess => _SysAbort StInvalidMemoryAccess
  | MErr MPanic => kstop SMisuse
  | MErr MCrash => kstop SInternal
  end.
Definition kmem_ (f : Memory -> MemRes Memory) : KK () := m <~ kmem f; kmod (fun s => sm_set_memory s m).

Definition ktimers {A} (f : TimerQueue -> Checked A) : KK A := r <~ kget (fun s => f (sm_timers s)); match r with Fine a => kret a | Broken _ => kstop SInternal end.
Definition kset_timers (q : TimerQueue) : KK () := kmod (fun s => sm_set_timers s q).

(** ** Time *)

(** [Time::Now]; the range of [Instant] is checked when the clock moves. *)
Definition time_Now : KK Z := kget (fun s => sm_ticks s * sp_tick Pm).
Definition int64_ok (z : Z) : bool := (-2 ^ 63 <=? z) && (z <? 2 ^ 63).
Definition kticks (d : Z) : KK () :=
  n <~ kget (fun s => sm_ticks s + d);
  if int64_ok (n * sp_tick Pm) then kmod (fun s => sm_set_time s n (sm_iter s)) else kstop SLimit.
(** [Time::ToTicks]; C++ division truncates. *)
Definition ToTicks (x : Z) : Z := Z.quot x (sp_tick Pm) + (if Z.rem x (sp_tick Pm) =? 0 then 0 else 1).
Definition time_AdvanceTo (future : Z) : KK () :=
  now <~ time_Now;
  kverify (now <=? future) ;~
  n <~ kget sm_ticks;
  kverify (n <=? ToTicks future) ;~
  kticks (ToTicks future - n).

(** ** Timers *)

Definition AddTimer (t when_ : Z) (alarm : Alarm_) : KK () := q <~ ktimers (fun q => tq_Add q t when_ alarm); kset_timers q.
Definition CancelTimer (t : Z) : KK () := p <~ ktimers (fun q => tq_Remove q t); kset_timers p.2 ;~ kverify p.1.

(** ** Futex queues *)

(** [GetFutex]: [operator[]] makes an empty one. *)
Definition GetFutex (k : FutexKey) : KK WaitQueue :=
  w <~ kget (fun s => default wq_new (sm_futex s !! k)); kmod (fun s => sm_set_futex s k w) ;~ kret w.
(** [waiter->futex] *)
Definition the_futex (k : FutexKey) : KK WaitQueue := o <~ kget (fun s => sm_futex s !! k); kopt o.
Definition kset_futex (k : FutexKey) (w : WaitQueue) : KK () := kmod (fun s => sm_set_futex s k w).

(** [AllocateSchedulerQueue] *)
Definition AllocateSchedulerQueue : KK Z :=
  q <~ kget sm_queues; kmod (fun s => sm_set_futexes s (sm_futex s) (q + 1)) ;~ kcall_ (NewWaitQueue q) ;~ kret q.

Definition wq_sim_Push (k : FutexKey) (t : Z) : KK () :=
  w <~ the_futex k;
  match wq_waiters w with
  | Some q => kcall_ (WqPush q t)
  | None =>
      match wq_singleton w with
      | None => kset_futex k (mkWQ None (Some t))
      | Some first =>
          q <~ AllocateSchedulerQueue;
          kset_futex k (mkWQ (Some q) None) ;~
          kcall_ (WqPush q first) ;~
          kcall_ (WqPush q t)
      end
  end.
(** [Pop] and [PopAll] *)
Definition wq_sim_Pop (all : bool) (k : FutexKey) : KK (option Z) :=
  w <~ the_futex k;
  match wq_waiters w with
  | Some q => kcall_thread (if all then WqPopAll q else WqPop q)
  | None => kset_futex k (mkWQ None None) ;~ kret (wq_singleton w)
  end.
Definition wq_sim_Remove (k : FutexKey) (t : Z) : KK () :=
  w <~ the_futex k;
  removed <~ match wq_waiters w with
             | Some q => kcall_bool (WqRemove q t)
             | None => kset_futex k (mkWQ None None) ;~ kret (bool_decide (wq_singleton w = Some t))
             end;
  kverify removed.
Definition wq_sim_IsEmpty (w : WaitQueue) : KK bool :=
  match wq_waiters w with Some q => kcall_bool (WqIsEmpty q) | None => kret (bool_decide (wq_singleton w = None)) end.

(** ** Waking *)

Definition ScheduleWaiter (t : Z) (st : CallStatus) : KK () := kset_thread t (fun th => th_set_status th st) ;~ kcall_ (Wake t).

Definition wake_status (waker : option Z) (waiter : Z) (th : Thread) (w : WakeType) : KK CallStatus :=
  match w with
  | WSleepTimer => kret CsOk
  | WFutexWake =>
      waker <~ kopt waker;
      kmem_ (fun m => mm_Wake m waker waiter) ;~
      (match th_timer th with Some tm => CancelTimer tm | None => kret () end) ;~
      kret CsOk
  | WFutexTimer => k <~ kopt (th_futex th); wq_sim_Remove k waiter ;~ kret CsTimeout
  | WSpurious =>
      (match th_futex th with Some k => wq_sim_Remove k waiter | None => kret () end) ;~
      (match th_timer th with Some tm => CancelTimer tm | None => kret () end) ;~
      kret CsInterrupted
  end.
Definition sim_Wake (waker : option Z) (waiter : Z) (w : WakeType) : KK () :=
  th <~ kthread waiter;
  kverify (bool_decide (th_state th = TsParked \/ th_state th = TsSleeping)) ;~
  st <~ wake_status waker waiter th w;
  kset_thread waiter (fun th => th_set_wait th TsRunnable None None) ;~
  ScheduleWaiter waiter st.

Definition Alarm (a : Alarm_) : KK () :=
  match a with SleepTimer t => sim_Wake None t WSleepTimer | FutexTimer t => sim_Wake None t WFutexTimer end.

(** The loop of [PollTimers]; every round takes a timer out. *)
Fixpoint poll_loop (fuel : nat) (now : Z) (progress : bool) : KK bool :=
  match fuel with
  | O => kstop SInternal
  | S fuel =>
      p <~ ktimers (fun q => tq_Poll q now);
      kset_timers p.2 ;~
      match p.1 with
      | None => kret progress
      | Some t =>
          tm <~ ktimers (fun q => deref (tq_timers q) t);
          Alarm (tm_alarm tm) ;~
          poll_loop fuel now true
      end
  end.
Definition PollTimers : KK bool :=
  now <~ time_Now;
  n <~ kget (fun s => size_ (tq_heap (sm_timers s)));
  poll_loop (S n) now false.

(** ** Threads *)

(** [CreateThread]; [IdAllocator] allows [kMaxThreads]. *)
Definition CreateThread (main : bool) (parent : option Z) : KK Z :=
  r <~ kget (fun s => mm_CreateThread (sm_memory s));
  match r with
  | MErr _ => kstop SLimit
  | MOk (t, m) =>
      kmod (fun s => sm_set_threads (sm_set_memory s m) (sm_alive s ++ [t]) (<[t := thread_new main parent]> (sm_threads s))) ;~
      kret t
  end.
Definition DestroyThread (t : Z) : KK () := kmod (fun s => sm_set_threads s (filter (fun x => x <> t) (sm_alive s)) (delete t (sm_threads s))).

(** [Burn(Thread* )] *)
Definition BurnThread (t : Z) : KK () :=
  th <~ kthread t;
  kcall_ (Remove t) ;~
  (match th_timer th with Some tm => p <~ ktimers (fun q => tq_Remove q tm); kset_timers p.2 | None => kret () end) ;~
  (match th_futex th with Some k => wq_sim_Remove k t | None => kret () end) ;~
  kmod (fun s => sm_set_burnt s (S (sm_burnt s))) ;~
  DestroyThread t.
Fixpoint kfor {A} (l : list A) (f : A -> KK ()) : KK () := match l with [] => kret () | x :: l => f x ;~ kfor l f end.

Definition is_detached (s : Sim U) (t : Z) : bool :=
  match sm_threads s !! t with Some th => negb (th_main th) && bool_decide (th_parent th = None) | None => false end.
Definition BurnDetachedThreads : KK () := l <~ kget (fun s => filter (fun t => is_detached s t = true) (sm_alive s)); kfor l BurnThread.

Definition CheckMemory : KK () :=
  burnt <~ kget sm_burnt;
  leak <~ kget (fun s => negb (sm_allocs s =? sm_frees s));
  if sp_isolated Pm && bool_decide (burnt = O) && leak then _SysAbort StMemoryLeak else kret ().

Definition MainCompleted : KK () :=
  (if sp_isolated Pm && sp_detached Pm then BurnDetachedThreads else kret ()) ;~
  alone <~ kget (fun s => bool_decide (sm_alive s = []));
  kmisuse alone ;~
  CheckMemory ;~
  kmod (fun s => sm_set_status s StOk).

(** ** System calls

    A handler answers whether the caller resumes at once. *)

Definition answer_now (t : Z) (r : sys_answer) : KK bool := kset_thread t (fun th => th_set_call th (th_call th) r) ;~ kret true.

Definition _SysSpawn (parent : Z) : KK Z :=
  child <~ CreateThread false (Some parent);
  kmem_ (fun m => mm_Spawn m parent child) ;~
  kcall_ (Spawn child) ;~
  kret child.
Definition _SysDetach (id : Z) : KK () :=
  o <~ kget (fun s => sm_threads s !! id);
  match o with Some th => kmod (fun s => sm_set_thread s id (th_set_parent th None)) | None => kret () end.
Definition _SysSwitchTo (t next : Z) : KK () := th <~ kthread t; kmisuse (th_preemptive th) ;~ kcall_ (SwitchTo t next).
Definition _SysSleep (t deadline : Z) : KK () := AddTimer t deadline (SleepTimer t) ;~ kset_thread t (fun th => th_set_wait th TsSleeping None (Some t)).
Definition _SysSync (t : Z) (a : Action) : KK () := kset_thread t (fun th => th_set_sync th (Some a) (th_load th)) ;~ kcall_ (Interrupt t).
Definition _SysAccessNonAtomicVar (t loc : Z) (type : AccessType) : KK () :=
  p <~ kmem (fun m => AccessNonAtomicVar m t loc type);
  kmod (fun s => sm_set_memory s p.2) ;~
  match p.1 with Some _ => _SysAbort StDataRace | None => kret () end.

Definition VulnerableToSpuriousWakeup (type : FutexType) : bool :=
  match type with FtFutex | FtAtomic | FtCondVar | FtMutexTryLock => true | _ => false end.

(** [GetFutexValue]; the checks are on the location that the program gives. *)
Definition GetFutexValue (v : AtomicVar) (loc : FutexLoc) : KK Z :=
  match loc_type loc with
  | Uint32 => kmisuse (av_size v =? loc_size loc) ;~ kret (av_value v)
  | Uint64Half =>
      kmisuse (av_size v =? 8) ;~
      kmisuse (av_size v =? loc_size loc) ;~
      match loc_part loc with
      | LowHalf => kret (Z.land (av_value v) 0xFFFFFFFF)
      | HighHalf => kret (Z.land (Z.shiftr (av_value v) 32) 0xFFFFFFFF)
      | Whole => kstop SMisuse
      end
  | Std => kret (av_value v)
  end.

Definition _SysFutexWait (t : Z) (loc : FutexLoc) (old : Z) (deadline : option Z) (type : FutexType) : KK () :=
  wake <~ (if VulnerableToSpuriousWakeup type then kcall_bool SpuriousWakeup else kret false);
  if wake : bool then ScheduleWaiter t CsInterrupted
  else
    v <~ kmem (fun m => GetShadowAtomicVar m (loc_atomic loc));
    value <~ GetFutexValue v loc;
    if negb (value =? old) then ScheduleWaiter t CsOk
    else
      GetFutex (loc_key loc) ;~
      wq_sim_Push (loc_key loc) t ;~
      (match deadline with Some d => AddTimer t d (FutexTimer t) | None => kret () end) ;~
      kset_thread t (fun th => th_set_wait th TsParked (Some (loc_key loc)) ((fun _ => t) <$> deadline)).

(** The loop of [_SysFutexWake] for all; every round takes a waiter out. *)
Fixpoint wake_all (fuel : nat) (waker : Z) (k : FutexKey) : KK () :=
  match fuel with
  | O => kstop SInternal
  | S fuel =>
      w <~ wq_sim_Pop true k;
      match w with
      | None => kret ()
      | Some t => sim_Wake (Some waker) t WFutexWake ;~ wake_all fuel waker k
      end
  end.
Definition _SysFutexWake (waker : Z) (loc : FutexLoc) (count : Z) : KK () :=
  GetFutex (loc_key loc) ;~
  if count =? 1 then
    w <~ wq_sim_Pop false (loc_key loc);
    match w with Some t => sim_Wake (Some waker) t WFutexWake | None => kret () end
  else if count =? 0 then wake_all (S sim_kMaxThreads) waker (loc_key loc)
  else kstop SMisuse.

Definition _SysThreadExit (t : Z) : KK () :=
  kcall_ (Exit t) ;~
  th <~ kthread t;
  DestroyThread t ;~
  if th_main th then MainCompleted else kret ().

(** [SysSleepFor]: the deadline has to be an [Instant]. *)
Definition time_After (delay : Z) : KK Z := now <~ time_Now; if int64_ok (now + delay) then kret (now + delay) else kstop SMisuse.

(** The handlers that the calls pass to [SystemCall]; the allocator of the user heap counts its
    operations before it makes [SysMalloc] and [SysFree]. *)

Definition SysNoop (t : Z) : KK bool := answer_now t SaVoid.
Definition SysSpawn (t : Z) : KK bool := id <~ _SysSpawn t; answer_now t (SaNum id).
Definition SysGetId (t : Z) : KK bool := answer_now t (SaNum t).
Definition SysDetach (t id : Z) : KK bool := _SysDetach id ;~ answer_now t SaVoid.
Definition SysYield (t : Z) : KK bool := kcall_ (Yield t) ;~ kret false.
Definition SysSwitchTo (t id : Z) : KK bool := _SysSwitchTo t id ;~ kret false.
Definition SysSleepUntil (t d : Z) : KK bool := _SysSleep t d ;~ kret false.
Definition SysSleepFor (t delay : Z) : KK bool := d <~ time_After delay; SysSleepUntil t d.
Definition SysSync (t : Z) (a : Action) : KK bool := _SysSync t a ;~ kret false.
Definition SysAccessNonAtomicVar (t loc : Z) (type : AccessType) : KK bool := _SysAccessNonAtomicVar t loc type ;~ answer_now t SaVoid.
Definition SysFutexWait (t : Z) (loc : FutexLoc) (old : Z) (type : FutexType) : KK bool := _SysFutexWait t loc old None type ;~ kret false.
Definition SysFutexWaitTimed (t : Z) (loc : FutexLoc) (old d : Z) (type : FutexType) : KK bool := _SysFutexWait t loc old (Some d) type ;~ kret false.
Definition SysFutexWake (t : Z) (loc : FutexLoc) (count : Z) : KK bool := _SysFutexWake t loc count ;~ answer_now t SaVoid.
Definition SysMalloc (t addr size : Z) : KK bool :=
  kmod (fun s => sm_set_heap s (sm_allocs s + 1) (sm_frees s)) ;~
  (if sp_malloc_hb Pm then kmem_ (fun m => mm_Malloc m t addr size) else kret ()) ;~
  answer_now t SaVoid.
Definition SysFree (t addr : Z) : KK bool :=
  kmod (fun s => sm_set_heap s (sm_allocs s) (if addr =? 0 then sm_frees s else sm_frees s + 1)) ;~
  (if sp_malloc_hb Pm then kmem_ (fun m => mm_Free m t addr) else kret ()) ;~
  answer_now t SaVoid.
Definition SysRandomNumber (t : Z) : KK bool := z <~ kcall_num RandomNumber; answer_now t (SaNum z).
Definition SysRandomChoice (t : Z) (alts : nat) : KK bool :=
  kmisuse (bool_decide (0 < alts)%nat) ;~
  if decide (alts = 1)%nat then answer_now t (SaNum 0) else z <~ kcall_num (RandomChoice alts); answer_now t (SaNum z).
Definition SysSpuriousTryFailure (t : Z) : KK bool := b <~ kcall_bool SpuriousTryFailure; answer_now t (SaBool b).
Definition SysSetThreadAttrPreemptive (t : Z) (on : bool) : KK bool :=
  th <~ kthread t;
  kset_thread t (fun th => th_set_attrs th on (th_lock_free th)) ;~
  answer_now t (SaBool (th_preemptive th)).
Definition SysSetThreadAttrLockFree (t : Z) (on : bool) : KK bool :=
  th <~ kthread t;
  kset_thread t (fun th => th_set_attrs th (th_preemptive th) on) ;~
  kcall_ (LockFree t on) ;~
  answer_now t (SaBool (th_lock_free th)).
Definition SysSchedHintProgress (t : Z) : KK bool := kcall_ (Progress t) ;~ answer_now t SaVoid.
Definition SysSchedHintNewIter (t : Z) : KK bool := kcall_ NewIter ;~ answer_now t SaVoid.
Definition SysNow (t : Z) : KK bool := now <~ time_Now; answer_now t (SaNum now).
Definition SysThreadExit (t : Z) : KK bool := _SysThreadExit t ;~ kret false.

Definition sys_handler (t : Z) (c : syscall) : KK bool :=
  match c with
  | ScNoop => SysNoop t
  | ScSpawn => SysSpawn t
  | ScGetId => SysGetId t
  | ScDetach id => SysDetach t id
  | ScYield => SysYield t
  | ScSwitchTo id => SysSwitchTo t id
  | ScSleepUntil d => SysSleepUntil t d
  | ScSleepFor delay => SysSleepFor t delay
  | ScSync a => SysSync t a
  | ScAccess loc type => SysAccessNonAtomicVar t loc type
  | ScFutexWait loc old type => SysFutexWait t loc old type
  | ScFutexWaitTimed loc old d type => SysFutexWaitTimed t loc old d type
  | ScFutexWake loc count => SysFutexWake t loc count
  | ScMalloc addr size => SysMalloc t addr size
  | ScFree addr => SysFree t addr
  | ScRandomNumber => SysRandomNumber t
  | ScRandomChoice alts => SysRandomChoice t alts
  | ScSpuriousTryFailure => SysSpuriousTryFailure t
  | ScAbort st => _SysAbort st
  | ScSetLockFree on => SysSetThreadAttrLockFree t on
  | ScProgress => SysSchedHintProgress t
  | ScNewIter => SysSchedHintNewIter t
  | ScNow => SysNow t
  | ScSetPreemptive on => SysSetThreadAttrPreemptive t on
  | ScExit => SysThreadExit t
  end.

(** [HandleSystemCall] *)
Definition HandleSystemCall (t : Z) (c : syscall) : KK bool :=
  resume <~ sys_handler t c;
  (if resume : bool then kset_thread t (fun th => th_set_status th CsOk) else kret ()) ;~
  kret resume.

(** ** Running a thread *)

(** What the call of the thread returns. *)
Definition call_returns (th : Thread) : sys_answer :=
  match th_call th with
  | None => SaStart
  | Some (ScSync _) => SaNum (th_load th)
  | Some (ScSleepFor _ | ScSleepUntil _ | ScFutexWait _ _ _ | ScFutexWaitTimed _ _ _ _) => SaStatus (th_status th)
  | Some (ScYield | ScSwitchTo _) => SaVoid
  | Some _ => th_result th
  end.

(** [Run]: the program goes on up to its next system call. *)
Definition run_thread (t : Z) : KK syscall :=
  th <~ kthread t;
  kset_thread t (fun th => th_set_state th TsRunning) ;~
  p <~ kget (fun s => prog_run Pr (sm_user s) t (call_returns th));
  kmod (fun s => sm_set_user s p.1) ;~
  kset_thread t (fun th => th_set_call th (Some p.2) SaVoid) ;~
  kret p.2.

Definition digest_feed (d : Z) : KK () := kmod (fun s => sm_set_digest s (HashCombine (sm_digest s) d)).

Definition IsDigestableLoad (a : ActionType) : bool := match a with AtomicLoad | AtomicRmwLoad => true | _ => false end.
Definition sim_Sync (t : Z) (a : Action) : KK Z :=
  p <~ kmem (fun m => mm_Sync m t a);
  kmod (fun s => sm_set_memory s p.2) ;~
  (if IsDigestableLoad (act_type a) && sp_digest_loads Pm then digest_feed p.1 else kret ()) ;~
  kret p.1.
Definition CompleteSync (t : Z) : KK () :=
  th <~ kthread t;
  kset_thread t (fun th => th_set_sync th None (th_load th)) ;~
  match th_action th with
  | Some a => r <~ sim_Sync t a; kset_thread t (fun th => th_set_sync th (th_action th) r)
  | None => kret ()
  end.

(** The loop of [Iter(Thread* )]; a thread may make calls for ever that resume it. *)
Fixpoint resume_loop (fuel : nat) (t : Z) : KK () :=
  match fuel with
  | O => kstop SLimit
  | S fuel =>
      c <~ run_thread t;
      resume <~ HandleSystemCall t c;
      if resume : bool then resume_loop fuel t else kret ()
  end.
Definition iter_thread (fuel : nat) (t : Z) : KK () := digest_feed t ;~ CompleteSync t ;~ resume_loop fuel t.

(** ** The loop *)

Definition IsDeadlock : KK bool :=
  idle <~ kcall_bool IsIdle;
  stuck <~ kget (fun s => tq_IsEmpty (sm_timers s) && negb (bool_decide (sm_alive s = [])));
  kret (idle && stuck).

(** [SpuriousWakeups] does nothing. *)
Definition Maintenance : KK () :=
  timers <~ kget (fun s => negb (tq_IsEmpty (sm_timers s)));
  (if timers : bool then _ <~ PollTimers; kret () else kret ()) ;~
  _ <~ IsDeadlock;
  kret ().

Definition kPickNext : KK Z := o <~ kcall_thread PickNext; kopt o.

(** [Iter] *)
Definition sim_Iter (fuel : nat) : KK () :=
  iter <~ kget (fun s => sm_iter s + 1);
  kmod (fun s => sm_set_time s (sm_ticks s) iter) ;~
  kticks 1 ;~
  (if Z.land iter 7 =? 0 then Maintenance else kret ()) ;~
  next <~ kPickNext;
  iter_thread fuel next.

(** Every thread is validated, then made to report from inside of its [SysFutexWait]; another
    call would return to the program.  A scheduler that suspends threads in lock-free sections
    marks them itself ([LfSuspended]), and here it does not reach the threads. *)
Definition report_deadlocked (t : Z) : KK () :=
  th <~ kthread t;
  kverify match th_state th, th_call th with TsParked, Some (ScFutexWait _ _ _) => true | _, _ => false end ;~
  kset_thread t (fun th => th_set_state th TsDeadlocked).
Definition CheckDeadlock : KK () :=
  dead <~ IsDeadlock;
  if dead : bool then
    alive <~ kget sm_alive;
    kfor alive report_deadlocked ;~
    _SysAbort StDeadlock
  else kret ().

(** Whether the loop goes on. *)
Definition Idle : KK bool :=
  CheckDeadlock ;~
  none <~ kget (fun s => tq_IsEmpty (sm_timers s));
  if none : bool then kret false
  else
    progress <~ PollTimers;
    if progress : bool then kret true
    else
      d <~ ktimers tq_NextDeadLine;
      time_AdvanceTo d ;~
      _ <~ PollTimers;
      kret true.

(** [Simulator::Burn] *)
Definition sim_Burn : KK () :=
  alive <~ kget sm_alive;
  kfor alive BurnThread ;~
  none <~ kget (fun s => tq_IsEmpty (sm_timers s));
  kverify none.

(** The two loops of [RunLoop]; [true]: it stopped by itself.  Between two rounds of [Idle] there is
    an iteration: twice the budget is enough fuel. *)
Fixpoint run_loop (n fuel budget : nat) : KK bool :=
  match n with
  | O => kstop SInternal
  | S n =>
      idle <~ kcall_bool IsIdle;
      match idle, budget with
      | _, O => kret false
      | false, S budget => sim_Iter fuel ;~ run_loop n fuel budget
      | true, _ => more <~ Idle; if more : bool then run_loop n fuel budget else kret true
      end
  end.
Definition sim_RunLoop (fuel budget : nat) : KK bool := kcatch (run_loop (S (2 * budget)) fuel budget) (sim_Burn ;~ kret true).

Definition StopLoop : KK () :=
  idle <~ kcall_bool IsIdle;
  kverify idle ;~
  none <~ kget (fun s => tq_IsEmpty (sm_timers s));
  kverify none ;~
  l <~ kget (fun s => snd <$> map_to_list (sm_futex s));
  kfor l (fun w => b <~ wq_sim_IsEmpty w; kverify b).

(** [Run], with a smaller budget than 2^64 iterations: at its end the run is over the limit. *)
Definition sim_Run (fuel budget : nat) : KK SimResult :=
  main <~ CreateThread true None;
  kcall_ (Spawn main) ;~
  ended <~ sim_RunLoop fuel budget;
  (if ended : bool then kret () else kstop SLimit) ;~
  StopLoop ;~
  o <~ kget sm_status;
  st <~ kopt o;
  kget (fun s => mkResult st (mm_count (sm_memory s)) (sm_iter s) (sm_digest s)).

(** [Init]: no thread yet. *)
Definition sim_start : Sim U := mkSim [] ∅ ∅ tq_new (mkMemory ∅ 0 ∅ ∅ ∅) 0 0 0 None 0 1 0 0 (prog_start Pr).

Definition simulator (fuel budget : nat) : Proc SimResult :=
  pbind (sim_Run fuel budget sim_start) (fun o => match o with Done r _ => PRet r | Aborted _ => PStop SInternal end).
End sim.

(** ** Running over a scheduler *)

Fixpoint psched (S : IScheduler) {A} (p : Proc A) (s : sched_state S) : M ((A + sim_stop) * sched_state S) :=
  match p with
  | PRet a => Ret (inl a, s)
  | PStop r => Ret (inr r, s)
  | PCall e c k => q ← sched_call S e c s; psched S (k q.1) q.2
  end.

(** The client of SimSched.v, and what it returns after the answers [h]. *)
Fixpoint as_client {A} (p : Proc A) (h : list answer) : option (env * icall) :=
  match p, h with
  | PCall e c _, [] => Some (e, c)
  | PCall _ _ k, ans :: h => as_client (k ans) h
  | _, _ => None
  end.
Fixpoint client_result {A} (p : Proc A) (h : list answer) : option (A + sim_stop) :=
  match p, h with
  | PRet a, [] => Some (inl a)
  | PStop r, [] => Some (inr r)
  | PCall _ _ k, ans :: h => client_result (k ans) h
  | _, _ => None
  end.
