(* ===== verification/SimulatorCorrect.v ===== *)
(** The simulator (Simulator.v) is correct over every lawful scheduler: its checks on itself
    never fail, and it ends a run as it should. *)

From S2P Require Import Prelude SimSched CoopSched SimMemory TimerHeap Simulator.
Local Open Scope Z_scope.
Local Open Scope sim_scope.

(** ** Weakest preconditions

    [pwp p a Q]: the calls of [p] are legal from the abstract state [a] on, whatever a lawful
    scheduler answers; [p] does not stop because of an error of the simulator, and returns
    with [Q]. *)

(** The calls that the schedulers share; [removes]: [Remove] is among them. *)
Definition basic (removes : bool) (e : env) (c : icall) : Prop :=
  match c with
  | SwitchTo _ _ | LockFree _ _ | RandomNumber | IsModelChecker => False
  | Remove _ => removes = true
  | Interrupt t | Exit t => lock_free e t = false
  | _ => True
  end.

Fixpoint pwp (removes : bool) {A} (p : Proc A) (a : abs) (Q : A -> abs -> Prop) : Prop :=
  match p with
  | PRet x => Q x a
  | PCall e c k => legal a c /\ basic removes e c /\ forall ans a', abs_step a c ans = Some a' -> pwp removes (k ans) a' Q
  | PStop r => r <> SInternal
  end.

Lemma pwp_mono (removes : bool) {A} (p : Proc A) (a : abs) (Q Q' : A -> abs -> Prop) :
  pwp removes p a Q -> (forall x a', Q x a' -> Q' x a') -> pwp removes p a Q'.
Proof. intros H HQ. revert a H. induction p as [x | e c k IH | r]; cbn; [auto | | done]. intros a (Hl & Hb & H). split_and!; [done .. |]. eauto. Qed.

Lemma pwp_bind (removes : bool) {A B} (p : Proc A) (f : A -> Proc B) (a : abs) (Q : B -> abs -> Prop) :
  pwp removes p a (fun x a' => pwp removes (f x) a' Q) -> pwp removes (pbind p f) a Q.
Proof. revert a. induction p as [x | e c k IH | r]; cbn; [done | | done]. intros a (Hl & Hb & H). split_and!; [done .. |]. eauto. Qed.

(** The same for the state monad; [E]: the condition when it aborts. *)
Definition kwp (removes : bool) {U A} (m : K U A) (s : Sim U) (a : abs) (Q : A -> Sim U -> abs -> Prop) (E : Sim U -> abs -> Prop) : Prop :=
  pwp removes (m s) a (fun o a' => match o with Done x s' => Q x s' a' | Aborted s' => E s' a' end).

Section kwp.
Context {U : Type} (removes : bool).
Implicit Types (s : Sim U) (a : abs) (E : Sim U -> abs -> Prop).

Lemma kwp_mono {A} (m : K U A) s a (Q Q' : A -> Sim U -> abs -> Prop) E E' :
  kwp removes m s a Q E -> (forall x s' a', Q x s' a' -> Q' x s' a') -> (forall s' a', E s' a' -> E' s' a') -> kwp removes m s a Q' E'.
Proof. intros H HQ HE. eapply pwp_mono; [exact H |]. intros [x s' | s'] a'; cbn; auto. Qed.
Lemma kwp_bind {A B} (m : K U A) (f : A -> K U B) s a (Q : B -> Sim U -> abs -> Prop) E :
  kwp removes m s a (fun x s' a' => kwp removes (f x) s' a' Q E) E -> kwp removes (kbind m f) s a Q E.
Proof. intros H. apply pwp_bind. eapply pwp_mono; [exact H |]. by intros [x s' | s'] a'. Qed.
Lemma kwp_seq {A B} (m : K U A) (f : A -> K U B) s a (R : A -> Sim U -> abs -> Prop) (Q : B -> Sim U -> abs -> Prop) E :
  kwp removes m s a R E -> (forall x s' a', R x s' a' -> kwp removes (f x) s' a' Q E) -> kwp removes (kbind m f) s a Q E.
Proof. intros H HR. apply kwp_bind. eapply kwp_mono; [exact H | exact HR | done]. Qed.
Lemma kwp_ret {A} (x : A) s a (Q : A -> Sim U -> abs -> Prop) E : Q x s a -> kwp removes (kret x) s a Q E.
Proof. done. Qed.
Lemma kwp_get {A} (f : Sim U -> A) s a (Q : A -> Sim U -> abs -> Prop) E : Q (f s) s a -> kwp removes (kget f) s a Q E.
Proof. done. Qed.
Lemma kwp_mod (f : Sim U -> Sim U) s a (Q : () -> Sim U -> abs -> Prop) E : Q () (f s) a -> kwp removes (kmod f) s a Q E.
Proof. done. Qed.
Lemma kwp_stop {A} r s a (Q : A -> Sim U -> abs -> Prop) E : r <> SInternal -> kwp removes (kstop r) s a Q E.
Proof. done. Qed.
Lemma kwp_catch {A} (m h : K U A) s a (Q : A -> Sim U -> abs -> Prop) E E' :
  kwp removes m s a Q E' -> (forall s' a', E' s' a' -> kwp removes h s' a' Q E) -> kwp removes (kcatch m h) s a Q E.
Proof. intros H HE. apply pwp_bind. eapply pwp_mono; [exact H |]. intros [x s' | s'] a'; cbn; [done |]. apply HE. Qed.
End kwp.

(** ** Places

    Where a thread is: in the run queue of the scheduler, in the queue of a futex, with a
    pending timer; and what its own fields say. *)

(** [Calling]: the thread is in this system call. *)
Inductive shape := Free | Calling (c : syscall) | Asleep | ParkedAt (k : FutexKey) (timed : bool) | DeadAt (k : FutexKey).
Record place := mkPlace { pl_run : bool; pl_fx : option FutexKey; pl_tm : option Alarm_; pl_sh : shape }.
Abbreviation places := (gmap Z place).

Definition running : place := mkPlace false None None Free.
Definition calling (c : syscall) : place := mkPlace false None None (Calling c).
Definition ready : place := mkPlace true None None Free.
Definition sleeping (t : Z) : place := mkPlace false None (Some (SleepTimer t)) Asleep.
Definition parked (t : Z) (k : FutexKey) (timed : bool) : place := mkPlace false (Some k) (if timed then Some (FutexTimer t) else None) (ParkedAt k timed).
Definition dead (k : FutexKey) : place := mkPlace false (Some k) None (DeadAt k).

Definition with_run (b : bool) (pl : place) : place := mkPlace b (pl_fx pl) (pl_tm pl) (pl_sh pl).
Definition with_fx (k : option FutexKey) (pl : place) : place := mkPlace (pl_run pl) k (pl_tm pl) (pl_sh pl).
Definition with_tm (al : option Alarm_) (pl : place) : place := mkPlace (pl_run pl) (pl_fx pl) al (pl_sh pl).
Definition with_sh (sh : shape) (pl : place) : place := mkPlace (pl_run pl) (pl_fx pl) (pl_tm pl) sh.

Definition untimed_wait (th : Thread) : Prop := exists loc old type, th_call th = Some (ScFutexWait loc old type).
Definition th_shape (t : Z) (th : Thread) (sh : shape) : Prop :=
  match sh with
  | Free => th_futex th = None /\ th_timer th = None
  | Calling c => th_futex th = None /\ th_timer th = None /\ th_call th = Some c
  | Asleep => th_state th = TsSleeping /\ th_futex th = None /\ th_timer th = Some t
  | ParkedAt k timed => th_state th = TsParked /\ th_futex th = Some k /\ th_timer th = (if timed then Some t else None) /\ (timed = false -> untimed_wait th)
  | DeadAt k => th_state th = TsDeadlocked /\ th_futex th = Some k /\ th_timer th = None /\ untimed_wait th
  end.

(** [t] is in the queue of the futex [k]. *)
Definition waits {U} (s : Sim U) (a : abs) (k : FutexKey) (t : Z) : Prop :=
  exists w, sm_futex s !! k = Some w /\
    match wq_waiters w with Some q => exists ts, queues a !! q = Some ts /\ t ∈ ts | None => wq_singleton w = Some t end.

Record queues_ok {U} (s : Sim U) (a : abs) : Prop := {
  qo_fresh : forall q ts, queues a !! q = Some ts -> q < sm_queues s;
  qo_owned : forall q ts t, queues a !! q = Some ts -> t ∈ ts -> exists k w, sm_futex s !! k = Some w /\ wq_waiters w = Some q;
  qo_dom : forall k w q, sm_futex s !! k = Some w -> wq_waiters w = Some q -> is_Some (queues a !! q);
  qo_apart : forall k1 k2 w1 w2 q, sm_futex s !! k1 = Some w1 -> sm_futex s !! k2 = Some w2 -> wq_waiters w1 = Some q -> wq_waiters w2 = Some q -> k1 = k2 }.

Record mem_dom (m : Memory) : Prop := {
  md_count : (mm_count m <= kClockSize)%nat;
  md_threads : forall t, 1 <= t <= Z.of_nat (mm_count m) -> is_Some (mm_threads m !! t) }.

Definition th_ok (t : Z) (th : Thread) (pl : place) : Prop := th_shape t th (pl_sh pl) /\ th_lock_free th = false /\ th_main th = bool_decide (t = 1).

(** The threads are where the map says; [st] is the status so far, [pn] what the scheduler is
    bound to run next. *)
Record inv {U} (L : places) (st : option SimStatus) (pn : option Z) (s : Sim U) (a : abs) : Prop := {
  iv_status : sm_status s = st;
  iv_pinned : pinned a = pn;
  iv_nodup : base.NoDup (sm_alive s);
  iv_alive : forall t, t ∈ sm_alive s <-> is_Some (L !! t);
  iv_thread : forall t, match sm_threads s !! t, L !! t with Some th, Some pl => th_ok t th pl | None, None => True | _, _ => False end;
  iv_run : forall t, t ∈ runnable a <-> pl_run <$> L !! t = Some true;
  iv_fx : forall k t, waits s a k t <-> L !! t ≫= pl_fx = Some k;
  iv_tm : exists b P, tq_history b (sm_timers s) P /\ forall t, snd <$> P !! t = L !! t ≫= pl_tm;
  iv_excl : forall t pl k, L !! t = Some pl -> pl_fx pl = Some k -> pl_run pl = false;
  iv_queues : queues_ok s a;
  iv_mem : mem_dom (sm_memory s);
  iv_ids : forall t, is_Some (L !! t) -> 1 <= t <= Z.of_nat (mm_count (sm_memory s)) }.

(** ** The invariant under changes of one place *)

Section inv.
Context {U : Type}.
Implicit Types (s : Sim U) (a : abs) (L : places).

Lemma bind_place {B} (f : place -> option B) L t pl pl' t' :
  L !! t = Some pl -> f pl' = f pl -> <[t := pl']> L !! t' ≫= f = L !! t' ≫= f.
Proof. intros Ht Hf. destruct (decide (t' = t)) as [-> |]; [by rewrite lookup_insert_eq, Ht | by rewrite lookup_insert_ne]. Qed.

Lemma is_Some_place L t pl pl' t' : L !! t = Some pl -> is_Some (<[t := pl']> L !! t') <-> is_Some (L !! t').
Proof. intros Ht. destruct (decide (t' = t)) as [-> |]; [rewrite lookup_insert_eq, Ht; naive_solver | by rewrite lookup_insert_ne]. Qed.

Lemma inv_thread_at L st pn s a t pl : inv L st pn s a -> L !! t = Some pl -> exists th, sm_threads s !! t = Some th /\ th_ok t th pl.
Proof. intros I Ht. pose proof (iv_thread _ _ _ _ _ I t) as H. rewrite Ht in H. destruct (sm_threads s !! t) as [th |]; [by exists th | done]. Qed.

(** One place changes, the timers do not. *)
Lemma inv_place L st pn pn' s s' a a' t pl pl' :
  inv L st pn s a -> L !! t = Some pl -> pl_tm pl' = pl_tm pl ->
  sm_status s' = sm_status s -> pinned a' = pn' -> sm_alive s' = sm_alive s -> sm_timers s' = sm_timers s -> sm_memory s' = sm_memory s ->
  (exists th', sm_threads s' !! t = Some th' /\ th_ok t th' pl') -> (forall u, u <> t -> sm_threads s' !! u = sm_threads s !! u) ->
  (pl_run pl' = true <-> t ∈ runnable a') -> (forall u, u <> t -> u ∈ runnable a' <-> u ∈ runnable a) ->
  (forall k, waits s' a' k t <-> pl_fx pl' = Some k) -> (forall k u, u <> t -> waits s' a' k u <-> waits s a k u) ->
  (forall k, pl_fx pl' = Some k -> pl_run pl' = false) -> queues_ok s' a' -> inv (<[t := pl']> L) st pn' s' a'.
Proof.
  intros I Ht Htm Hst Hpn Hal Hti Hme (th' & Hth & Hok) Hths Hr1 Hr2 Hf1 Hf2 Hex Hq. split; rewrite ?Hst, ?Hal, ?Hti, ?Hme; try apply I; try done.
  - intros u. rewrite (is_Some_place _ _ _ _ _ Ht). apply I.
  - intros u. destruct (decide (u = t)) as [-> | Hu]; [by rewrite Hth, lookup_insert_eq |]. rewrite Hths, lookup_insert_ne by done. apply I.
  - intros u. destruct (decide (u = t)) as [-> | Hu]; [rewrite lookup_insert_eq; cbn; rewrite <- Hr1; split; congruence |].
    rewrite lookup_insert_ne, Hr2 by done. apply I.
  - intros k u. destruct (decide (u = t)) as [-> | Hu]; [by rewrite lookup_insert_eq, Hf1 |]. rewrite lookup_insert_ne, Hf2 by done. apply I.
  - destruct (iv_tm _ _ _ _ _ I) as (b & P & Hh & HP). exists b, P. split; [done |]. intros u. by rewrite HP, (bind_place _ _ _ _ _ _ Ht).
  - intros u plu k Hu Hk. destruct (decide (u = t)) as [-> | Hne]; [rewrite lookup_insert_eq in Hu; simplify_eq; eauto |].
    rewrite lookup_insert_ne in Hu by done. by eapply I.
  - intros u Hu. apply I. by rewrite <- (is_Some_place _ _ _ pl' _ Ht).
Qed.

Lemma runnable_at L st pn s a t pl : inv L st pn s a -> L !! t = Some pl -> t ∈ runnable a <-> pl_run pl = true.
Proof. intros I Ht. rewrite (iv_run _ _ _ _ _ I), Ht. cbn. split; congruence. Qed.
Lemma waits_at L st pn s a t pl k : inv L st pn s a -> L !! t = Some pl -> waits s a k t <-> pl_fx pl = Some k.
Proof. intros I Ht. by rewrite (iv_fx _ _ _ _ _ I), Ht. Qed.

(** A thread that is in no queue is new to the scheduler. *)
Lemma in_queue_waits s a q ts t : queues_ok s a -> queues a !! q = Some ts -> t ∈ ts -> exists k, waits s a k t.
Proof. intros Q Hq Ht. destruct (qo_owned _ _ Q q ts t Hq Ht) as (k & w & Hw & Hwq). exists k, w. split; [done |]. rewrite Hwq. by exists ts. Qed.
Lemma inv_new L st pn s a t pl : inv L st pn s a -> L !! t = Some pl -> pl_run pl = false -> pl_fx pl = None -> abs_new a t.
Proof.
  intros I Ht Hr Hf. split_and!.
  - apply (iv_ids _ _ _ _ _ I); by rewrite Ht.
  - etrans; [apply (iv_ids _ _ _ _ _ I); by rewrite Ht |]. pose proof (md_count _ (iv_mem _ _ _ _ _ I)) as H. unfold kClockSize in H. unfold sim_kMaxThreads. lia.
  - rewrite (runnable_at _ _ _ _ _ _ _ I Ht). congruence.
  - intros q ts Hq Hin. destruct (in_queue_waits _ _ _ _ _ (iv_queues _ _ _ _ _ I) Hq Hin) as [k Hk]. apply (waits_at _ _ _ _ _ _ _ _ I Ht) in Hk. congruence.
Qed.

Lemma queues_ok_same s s' a a' : queues_ok s a -> sm_futex s' = sm_futex s -> sm_queues s' = sm_queues s -> queues a' = queues a -> queues_ok s' a'.
Proof. intros [H1 H2 H3 H4] Hf Hq Ha. split; rewrite ?Hf, ?Hq, ?Ha; eauto. Qed.
Lemma waits_same s s' a a' k t : sm_futex s' = sm_futex s -> queues a' = queues a -> waits s' a' k t <-> waits s a k t.
Proof. intros Hf Ha. unfold waits. by rewrite Hf, Ha. Qed.

(** Only the run queue changes. *)
Lemma inv_runnable L st pn pn' s a t pl b R :
  inv L st pn s a -> L !! t = Some pl -> (forall u, u ∈ R <-> if decide (u = t) then b = true else u ∈ runnable a) ->
  pl_fx pl = None \/ b = false -> inv (<[t := with_run b pl]> L) st pn' s (mkAbs R pn' (queues a)).
Proof.
  intros I Ht HR Hex. eapply inv_place; [exact I | exact Ht | done .. | | done | | | | done | cbn; intros k Hk; destruct Hex; congruence | by eapply queues_ok_same; [apply (iv_queues _ _ _ _ _ I) | ..]].
  - apply (inv_thread_at _ _ _ _ _ _ _ I Ht).
  - cbn. rewrite HR, decide_True by done. done.
  - intros u Hu. cbn. by rewrite HR, decide_False.
  - intros k. apply (waits_at _ _ _ _ _ _ _ _ I Ht).
Qed.
End inv.

(** ** The operations of schedulers *)

Section prims.
Context (Pr : Program) (Pm : SimParams) (removes : bool).
Let U : Type := prog_state Pr.
Implicit Types (s : Sim (prog_state Pr)) (a : abs) (L : places).
Abbreviation wp := (kwp removes).

Lemma wp_call c s a (Q : answer -> Sim (prog_state Pr) -> abs -> Prop) E :
  legal a c -> basic removes (sim_env Pr s) c -> (forall ans a', abs_step a c ans = Some a' -> Q ans s a') -> wp (kcall Pr c) s a Q E.
Proof. intros Hl Hb H. by split_and!. Qed.
Lemma wp_call_ c s a (Q : () -> Sim (prog_state Pr) -> abs -> Prop) E :
  legal a c -> basic removes (sim_env Pr s) c -> (forall ans a', abs_step a c ans = Some a' -> Q () s a') -> wp (kcall_ Pr c) s a Q E.
Proof. intros Hl Hb H. apply kwp_bind, wp_call; [done .. |]. intros ans a' Ha. apply kwp_ret. eauto. Qed.

(** The current thread becomes runnable. *)
Lemma wp_add L st pn s a c t pl (Q : () -> Sim (prog_state Pr) -> abs -> Prop) E :
  inv L st pn s a -> c = Wake t \/ c = Yield t \/ c = Spawn t -> L !! t = Some pl -> pl_run pl = false -> pl_fx pl = None ->
  (forall a', inv (<[t := with_run true pl]> L) st pn s a' -> Q () s a') -> wp (kcall_ Pr c) s a Q E.
Proof.
  intros I Hc Ht Hr Hf HQ. pose proof (inv_new _ _ _ _ _ _ _ I Ht Hr Hf) as Hn. apply wp_call_; [by destruct Hc as [-> | [-> | ->]] .. |].
  intros ans a' Ha. assert (a' = add_runnable a t (pinned a)) as -> by (destruct Hc as [-> | [-> | ->]], ans; cbn in Ha; congruence).
  apply HQ. unfold add_runnable. rewrite (iv_pinned _ _ _ _ _ I). eapply inv_runnable; [done .. | | by left].
  intros u. rewrite elem_of_union, elem_of_singleton. case_decide; naive_solver.
Qed.
Lemma wp_Interrupt L st s a t pl (Q : () -> Sim (prog_state Pr) -> abs -> Prop) E :
  inv L st None s a -> L !! t = Some pl -> pl_run pl = false -> pl_fx pl = None ->
  (forall a', inv (<[t := with_run true pl]> L) st (Some t) s a' -> Q () s a') -> wp (kcall_ Pr (Interrupt t)) s a Q E.
Proof.
  intros I Ht Hr Hf HQ. pose proof (inv_new _ _ _ _ _ _ _ I Ht Hr Hf) as Hn. apply wp_call_.
  - split; [done | apply I].
  - cbn. destruct (inv_thread_at _ _ _ _ _ _ _ I Ht) as (th & -> & _ & Hlf & _). done.
  - intros [] a' Ha; cbn in Ha; try done. injection Ha as <-. apply HQ. unfold add_runnable. eapply inv_runnable; [done .. | | by left].
    intros u. rewrite elem_of_union, elem_of_singleton. case_decide; naive_solver.
Qed.
Lemma wp_Exit L st pn s a t pl (Q : () -> Sim (prog_state Pr) -> abs -> Prop) E :
  inv L st pn s a -> L !! t = Some pl -> Q () s a -> wp (kcall_ Pr (Exit t)) s a Q E.
Proof.
  intros I Ht HQ. apply wp_call_; [done | |]; [| by intros [] a' Ha; cbn in Ha; simplify_eq].
  cbn. by destruct (inv_thread_at _ _ _ _ _ _ _ I Ht) as (th & -> & _ & Hlf & _).
Qed.

(** Calls that change nothing. *)
Lemma wp_hint s a c (Q : () -> Sim (prog_state Pr) -> abs -> Prop) E :
  c = NewIter \/ (exists t, c = Progress t) -> Q () s a -> wp (kcall_ Pr c) s a Q E.
Proof. intros [-> | [t ->]] HQ; (apply wp_call_; [done .. |]); intros [] a' Ha; cbn in Ha; by simplify_eq. Qed.
Lemma wp_spurious s a c (Q : bool -> Sim (prog_state Pr) -> abs -> Prop) E :
  c = SpuriousWakeup \/ c = SpuriousTryFailure -> (forall b, Q b s a) -> wp (kcall_bool Pr c) s a Q E.
Proof. intros [-> | ->] HQ; (apply kwp_bind, wp_call; [done .. |]); intros [] a' Ha; cbn in Ha; simplify_eq; apply kwp_ret, HQ. Qed.
Lemma wp_RandomChoice s a n (Q : Z -> Sim (prog_state Pr) -> abs -> Prop) E :
  (2 <= n)%nat -> (forall z, 0 <= z < Z.of_nat n -> Q z s a) -> wp (kcall_num Pr (RandomChoice n)) s a Q E.
Proof.
  intros Hn HQ. apply kwp_bind, wp_call; [done .. |]. intros [] a' Ha; cbn in Ha; try done. unfold when in Ha. case_decide; [| done]. simplify_eq. by apply kwp_ret, HQ.
Qed.
Lemma wp_IsIdle s a (Q : bool -> Sim (prog_state Pr) -> abs -> Prop) E :
  Q (bool_decide (runnable a = ∅)) s a -> wp (kcall_bool Pr IsIdle) s a Q E.
Proof. intros HQ. apply kwp_bind, wp_call; [done .. |]. intros [] a' Ha; cbn in Ha; try done. unfold when in Ha. case_decide; [| done]. simplify_eq. by apply kwp_ret. Qed.
Lemma wp_PickNext L st pn s a (Q : Z -> Sim (prog_state Pr) -> abs -> Prop) E :
  inv L st pn s a -> runnable a <> ∅ ->
  (forall t pl a', L !! t = Some pl -> pl_run pl = true -> inv (<[t := with_run false pl]> L) st None s a' -> Q t s a') -> wp (kPickNext Pr) s a Q E.
Proof.
  intros I Hne HQ. apply kwp_bind, kwp_bind, wp_call; [done .. |]. intros [| | [t |] |] a' Ha; cbn in Ha; try done. unfold when in Ha. case_decide as Hin; [| done].
  simplify_eq. cbn. apply (iv_run _ _ _ _ _ I) in Hin as Hpl. destruct (L !! t) as [pl |] eqn:Ht; [| done]. eapply HQ; [done | by simplify_eq/= |].
  eapply inv_runnable; [done .. | | by right]. intros u. rewrite elem_of_difference, elem_of_singleton. case_decide; naive_solver.
Qed.
Lemma wp_Remove L st s a t pl (Q : () -> Sim (prog_state Pr) -> abs -> Prop) E :
  inv L st None s a -> removes = true -> L !! t = Some pl ->
  (forall a', inv (<[t := with_run false pl]> L) st None s a' -> Q () s a') -> wp (kcall_ Pr (Remove t)) s a Q E.
Proof.
  intros I Hrm Ht HQ. apply wp_call_; [cbn; by rewrite (iv_pinned _ _ _ _ _ I) | done |]. intros [] a' Ha; cbn in Ha; try done. injection Ha as <-.
  apply HQ. rewrite (iv_pinned _ _ _ _ _ I). eapply inv_runnable; [done .. | | by right]. intros u. rewrite elem_of_difference, elem_of_singleton. case_decide; naive_solver.
Qed.
End prims.

(** ** The queues of futexes *)

Section futex.
Context (Pr : Program) (Pm : SimParams) (removes : bool).
Implicit Types (s : Sim (prog_state Pr)) (a : abs) (L : places).
Abbreviation wp := (kwp removes).

(** Queues change, nobody moves. *)
Lemma inv_requeue L st pn s s' a a' :
  inv L st pn s a -> sm_status s' = sm_status s -> sm_alive s' = sm_alive s -> sm_threads s' = sm_threads s -> sm_timers s' = sm_timers s ->
  sm_memory s' = sm_memory s -> runnable a' = runnable a -> pinned a' = pinned a ->
  (forall k t, waits s' a' k t <-> waits s a k t) -> queues_ok s' a' -> inv L st pn s' a'.
Proof.
  intros I Hst Hal Hth Hti Hme Hr Hp Hw Hq. split; rewrite ?Hst, ?Hal, ?Hth, ?Hti, ?Hme, ?Hr, ?Hp; try apply I; [| done]. intros k t. rewrite Hw. apply I.
Qed.

Lemma wp_GetFutex L st pn s a k (Q : WaitQueue -> Sim (prog_state Pr) -> abs -> Prop) E :
  inv L st pn s a -> (forall s' w, inv L st pn s' a -> sm_futex s' !! k = Some w -> Q w s' a) -> wp (GetFutex Pr k) s a Q E.
Proof.
  intros I HQ. apply kwp_bind, kwp_get, kwp_bind, kwp_mod, kwp_ret, HQ; [| apply lookup_insert_eq].
  set (w := default wq_new (sm_futex s !! k)).
  assert (Hsame : forall k' w', <[k := w]> (sm_futex s) !! k' = Some w' -> sm_futex s !! k' = Some w' \/ w' = wq_new).
  { intros k' w'. destruct (decide (k' = k)) as [-> |]; [| rewrite lookup_insert_ne by done; auto]. rewrite lookup_insert_eq. unfold w.
    destruct (sm_futex s !! k); cbn; intros [= <-]; auto. }
  assert (Hmono : forall k' w', sm_futex s !! k' = Some w' -> <[k := w]> (sm_futex s) !! k' = Some w').
  { intros k' w' Hw. destruct (decide (k' = k)) as [-> |]; [| by rewrite lookup_insert_ne]. rewrite lookup_insert_eq. unfold w. by rewrite Hw. }
  eapply inv_requeue; [exact I | done .. | |].
  - intros k' t. unfold waits. cbn. split; intros (w' & Hw & Ht); [| by exists w'; auto]. apply Hsame in Hw as [Hw | ->]; [by exists w' | done].
  - destruct (iv_queues _ _ _ _ _ I) as [H1 H2 H3 H4]. split; cbn; [done | | |].
    + intros q ts t Hq Ht. destruct (H2 q ts t Hq Ht) as (k' & w' & Hw & Hwq). exists k', w'. auto.
    + intros k' w' q Hw Hwq. apply Hsame in Hw as [Hw | ->]; [by eapply H3 | done].
    + intros k1 k2 w1 w2 q Hw1 Hw2 Hq1 Hq2. apply Hsame in Hw1 as [Hw1 | ->]; [| done]. apply Hsame in Hw2 as [Hw2 | ->]; [| done]. by eapply H4.
Qed.

Lemma wp_the_futex s a k w (Q : WaitQueue -> Sim (prog_state Pr) -> abs -> Prop) E : sm_futex s !! k = Some w -> Q w s a -> wp (the_futex Pr k) s a Q E.
Proof. intros Hw HQ. apply kwp_bind, kwp_get. by rewrite Hw. Qed.

(** A thread comes into a queue of the scheduler, or leaves it. *)
Lemma inv_enqueue L st pn s a k w q ts t pl ts' (fx : option FutexKey) :
  inv L st pn s a -> sm_futex s !! k = Some w -> wq_waiters w = Some q -> queues a !! q = Some ts -> L !! t = Some pl ->
  (forall u, u ∈ ts' <-> if decide (u = t) then fx = Some k else u ∈ ts) -> (forall k', fx = Some k' -> k' = k /\ pl_run pl = false) ->
  (forall k', pl_fx pl = Some k' -> k' = k) -> inv (<[t := with_fx fx pl]> L) st pn s (set_queue a q ts').
Proof.
  intros I Hw Hwq Hq Ht Hts Hfx Hpl. pose proof (iv_queues _ _ _ _ _ I) as [H1 H2 H3 H4].
  assert (Hwaits : forall k' u, waits s (set_queue a q ts') k' u <-> if decide (k' = k) then u ∈ ts' else waits s a k' u).
  { intros k' u. unfold waits. destruct (decide (k' = k)) as [-> | Hk].
    - rewrite Hw. split; [intros (w' & [= <-] & Hu) | intros Hu; exists w; split; [done |]]; rewrite Hwq in *; cbn in *.
      + rewrite lookup_insert_eq in Hu. naive_solver.
      + exists ts'. by rewrite lookup_insert_eq.
    - assert (Hsame : forall w' q', sm_futex s !! k' = Some w' -> wq_waiters w' = Some q' -> <[q := ts']> (queues a) !! q' = queues a !! q').
      { intros w' q' Hw' Hq'. apply lookup_insert_ne. intros <-. apply Hk. by eapply H4. }
      split; intros (w' & Hw' & H'); exists w'; (split; [done |]); destruct (wq_waiters w') as [q' |] eqn:Hq'; try done; cbn in *.
      + by rewrite <- (Hsame w' q').
      + by rewrite (Hsame w' q'). }
  eapply inv_place; [exact I | exact Ht | done | done | apply (iv_pinned _ _ _ _ _ I) | done .. | | done | | done | | | |].
  - apply (inv_thread_at _ _ _ _ _ _ _ I Ht).
  - symmetry. apply (runnable_at _ _ _ _ _ _ _ I Ht).
  - intros k'. rewrite Hwaits. cbn. case_decide as Hk.
    + subst k'. by rewrite Hts, decide_True.
    + rewrite (waits_at _ _ _ _ _ _ _ _ I Ht). split; [intros H; by apply Hpl in H | intros H; by apply Hfx in H as [H _]].
  - intros k' u Hu. rewrite Hwaits. case_decide; [| done]. subst k'. rewrite Hts, decide_False by done. unfold waits. rewrite Hw. split.
    + intros Hin. exists w. split; [done |]. rewrite Hwq. by exists ts.
    + intros (w' & [= <-] & Hin). rewrite Hwq in Hin. naive_solver.
  - intros k' Hk'. by destruct (Hfx k' Hk').
  - assert (Hlook : forall q', is_Some (<[q := ts']> (queues a) !! q') <-> is_Some (queues a !! q')).
    { intros q'. destruct (decide (q' = q)) as [-> |]; [rewrite lookup_insert_eq, Hq; naive_solver | by rewrite lookup_insert_ne]. }
    split; cbn; [| | | done].
    + intros q' ts1 Hq1. destruct (proj1 (Hlook q') (mk_is_Some _ _ Hq1)) as [ts0 ?]. by eapply H1.
    + intros q' ts1 u Hq1 Hu. destruct (decide (q' = q)) as [-> |]; [by exists k, w |]. rewrite lookup_insert_ne in Hq1 by done. by eapply H2.
    + intros k' w' q' Hw' Hq'. rewrite Hlook. by eapply H3.
Qed.
End futex.

Section futex_ops.
Context (Pr : Program) (Pm : SimParams) (removes : bool).
Implicit Types (s : Sim (prog_state Pr)) (a : abs) (L : places).
Abbreviation wp := (kwp removes).

Lemma wp_WqPush L st pn s a k w q t pl (Q : () -> Sim (prog_state Pr) -> abs -> Prop) E :
  inv L st pn s a -> sm_futex s !! k = Some w -> wq_waiters w = Some q -> L !! t = Some pl -> pl_run pl = false -> pl_fx pl = None ->
  (forall a', inv (<[t := with_fx (Some k) pl]> L) st pn s a' -> Q () s a') -> wp (kcall_ Pr (WqPush q t)) s a Q E.
Proof.
  intros I Hw Hwq Ht Hr Hf HQ. destruct (qo_dom _ _ (iv_queues _ _ _ _ _ I) k w q Hw Hwq) as [ts Hq].
  apply wp_call_; [| done |]; [split; [by eapply inv_new | by rewrite Hq] |]. intros [] a' Ha; cbn in Ha; unfold with_queue in Ha; rewrite ?Hq in Ha; try done.
  cbn in Ha. injection Ha as <-. apply HQ. eapply inv_enqueue; [done .. | | |].
  - intros u. rewrite elem_of_union, elem_of_singleton. case_decide; naive_solver.
  - intros k' [= <-]. done.
  - congruence.
Qed.

(** A change of the singleton queue of [k]. *)
Lemma inv_singleton L st pn s a k o t pl (fx : option FutexKey) :
  inv L st pn s a -> sm_futex s !! k = Some (mkWQ None o) -> L !! t = Some pl -> pl_run pl = false ->
  (o = None /\ fx = Some k /\ pl_fx pl = None \/ o = Some t /\ fx = None /\ pl_fx pl = Some k) ->
  inv (<[t := with_fx fx pl]> L) st pn (sm_set_futex s k (mkWQ None (if fx then Some t else None))) a.
Proof.
  intros I Hw Ht Hr Hcase. pose proof (iv_queues _ _ _ _ _ I) as [H1 H2 H3 H4].
  assert (Hwaits : forall k' u, waits (sm_set_futex s k (mkWQ None (if fx then Some t else None))) a k' u <-> if decide (k' = k) then u = t /\ is_Some fx else waits s a k' u).
  { intros k' u. unfold waits. cbn. destruct (decide (k' = k)) as [-> | Hk]; [| by rewrite lookup_insert_ne]. rewrite lookup_insert_eq. cbn. split.
    - intros (w' & [= <-] & Hu). cbn in Hu. destruct fx; [split; [congruence | done] | done].
    - intros (-> & [k' ->]). by eexists. }
  assert (Hold : forall u, waits s a k u <-> o = Some u).
  { intros u. unfold waits. rewrite Hw. split; [by intros (w' & [= <-] & ?) | intros ?; by eexists]. }
  eapply inv_place; [exact I | exact Ht | done | done | apply (iv_pinned _ _ _ _ _ I) | done .. | | done | | done | | | |].
  - apply (inv_thread_at _ _ _ _ _ _ _ I Ht).
  - symmetry. apply (runnable_at _ _ _ _ _ _ _ I Ht).
  - intros k'. rewrite Hwaits. cbn. case_decide as Hk.
    + subst k'. destruct Hcase as [(_ & -> & _) | (_ & -> & _)]; split; try done; by intros [_ []].
    + rewrite (waits_at _ _ _ _ _ _ _ _ I Ht). destruct Hcase as [(_ & -> & ->) | (_ & -> & ->)]; split; congruence.
  - intros k' u Hu. rewrite Hwaits. case_decide; [| done]. subst k'. rewrite Hold. destruct Hcase as [(-> & -> & _) | (-> & -> & _)]; split; naive_solver.
  - intros k' _. done.
  - split; cbn; [done | | |].
    + intros q ts u Hq Hu. destruct (H2 q ts u Hq Hu) as (k' & w' & Hw' & Hq'). exists k', w'. split; [| done]. rewrite lookup_insert_ne; [done |]. intros <-. rewrite Hw in Hw'. by injection Hw' as <-.
    + intros k' w' q Hw' Hq. destruct (decide (k' = k)) as [-> |]; [rewrite lookup_insert_eq in Hw'; by simplify_eq | rewrite lookup_insert_ne in Hw' by done; by eapply H3].
    + intros k1 k2 w1 w2 q Hw1 Hw2 Hq1 Hq2.
      destruct (decide (k1 = k)) as [-> |]; [rewrite lookup_insert_eq in Hw1; by simplify_eq | rewrite lookup_insert_ne in Hw1 by done].
      destruct (decide (k2 = k)) as [-> |]; [rewrite lookup_insert_eq in Hw2; by simplify_eq | rewrite lookup_insert_ne in Hw2 by done]. by eapply H4.
Qed.

(** From the singleton queue with [first] in it to an empty queue of the scheduler. *)
Lemma inv_allocate L st pn s a k first pl :
  inv L st pn s a -> sm_futex s !! k = Some (mkWQ None (Some first)) -> L !! first = Some pl ->
  let q := sm_queues s in
  inv (<[first := with_fx None pl]> L) st pn (sm_set_futex (sm_set_futexes s (sm_futex s) (q + 1)) k (mkWQ (Some q) None)) (set_queue a q ∅).
Proof.
  intros I Hw Hfirst q. pose proof (iv_queues _ _ _ _ _ I) as [H1 H2 H3 H4].
  assert (Hfresh : queues a !! q = None).
  { destruct (queues a !! q) as [ts |] eqn:Hq; [| done]. apply H1 in Hq. unfold q in Hq. lia. }
  assert (Hold : forall u, waits s a k u <-> u = first).
  { intros u. unfold waits. rewrite Hw. split; [intros (w' & [= <-] & ?); cbn in *; congruence | intros ->; by eexists]. }
  assert (Hwaits : forall k' u, waits (sm_set_futex (sm_set_futexes s (sm_futex s) (q + 1)) k (mkWQ (Some q) None)) (set_queue a q ∅) k' u <-> k' <> k /\ waits s a k' u).
  { intros k' u. unfold waits. cbn. destruct (decide (k' = k)) as [-> | Hk].
    - rewrite lookup_insert_eq. split; [intros (w' & [= <-] & ts & Hts & Hu); rewrite lookup_insert_eq in Hts; set_solver | naive_solver].
    - rewrite lookup_insert_ne by done. split; [intros H'; split; [done |]; revert H' | intros [_ H']; revert H'];
        intros (w' & Hw' & H'); exists w'; (split; [done |]); destruct (wq_waiters w') as [q' |] eqn:Hq'; try done;
        destruct (H3 k' w' q' Hw' Hq') as [ts0 Hts0]; assert (q' <> q) by congruence; by rewrite lookup_insert_ne in *. }
  pose proof (waits_at _ _ _ _ _ _ _ k I Hfirst) as Hfk. pose proof (proj1 Hfk (proj2 (Hold first) eq_refl)) as Hpl.
  eapply inv_place; [exact I | exact Hfirst | done | done | apply (iv_pinned _ _ _ _ _ I) | done .. | | done | | done | | | |].
  - apply (inv_thread_at _ _ _ _ _ _ _ I Hfirst).
  - symmetry. apply (runnable_at _ _ _ _ _ _ _ I Hfirst).
  - intros k'. rewrite Hwaits, (waits_at _ _ _ _ _ _ _ _ I Hfirst), Hpl. cbn. naive_solver.
  - intros k' u Hu. rewrite Hwaits. split; [by intros [_ ?] |]. intros Hk'. split; [| done]. intros ->. by apply Hold in Hk'.
  - done.
  - split; cbn.
    + intros q' ts Hq'. destruct (decide (q' = q)) as [-> |]; [lia |]. rewrite lookup_insert_ne in Hq' by done. apply H1 in Hq'. lia.
    + intros q' ts u Hq' Hu. destruct (decide (q' = q)) as [-> |]; [rewrite lookup_insert_eq in Hq'; set_solver |]. rewrite lookup_insert_ne in Hq' by done.
      destruct (H2 q' ts u Hq' Hu) as (k' & w' & Hw' & Hwq'). exists k', w'. split; [| done]. rewrite lookup_insert_ne; [done |]. intros <-. rewrite Hw in Hw'. by simplify_eq.
    + intros k' w' q' Hw' Hq'. destruct (decide (k' = k)) as [-> |].
      * rewrite lookup_insert_eq in Hw'. simplify_eq. cbn in Hq'. simplify_eq. by rewrite lookup_insert_eq.
      * rewrite lookup_insert_ne in Hw' by done. destruct (H3 k' w' q' Hw' Hq') as [ts0 Hts0]. rewrite lookup_insert_ne by congruence. by rewrite Hts0.
    + intros k1 k2 w1 w2 q' Hw1 Hw2 Hq1 Hq2.
      assert (Hk : forall k' w', <[k := mkWQ (Some q) None]> (sm_futex s) !! k' = Some w' -> wq_waiters w' = Some q' ->
                k' = k /\ q' = q \/ sm_futex s !! k' = Some w' /\ q' <> q).
      { intros k' w' Hw' Hq'. destruct (decide (k' = k)) as [-> | Hne].
        - rewrite lookup_insert_eq in Hw'. injection Hw' as <-. cbn in Hq'. left. split; congruence.
        - rewrite lookup_insert_ne in Hw' by done. right. split; [done |]. destruct (H3 _ _ _ Hw' Hq'). congruence. }
      destruct (Hk k1 w1 Hw1 Hq1) as [[-> ->] | [Hw1' Hne1]], (Hk k2 w2 Hw2 Hq2) as [[-> ?] | [Hw2' Hne2]]; try done. by eapply H4.
Qed.

Lemma wp_sim_Push L st pn s a k w t pl (Q : () -> Sim (prog_state Pr) -> abs -> Prop) E :
  inv L st pn s a -> sm_futex s !! k = Some w -> L !! t = Some pl -> pl_run pl = false -> pl_fx pl = None ->
  (forall s' a', inv (<[t := with_fx (Some k) pl]> L) st pn s' a' -> Q () s' a') -> wp (wq_sim_Push Pr k t) s a Q E.
Proof.
  intros I Hw Ht Hr Hf HQ. apply kwp_bind. eapply wp_the_futex; [exact Hw |]. destruct w as [[q |] o]; cbn [wq_waiters wq_singleton].
  { eapply wp_WqPush; [done .. |]. auto. }
  destruct o as [first |].
  2:{ apply kwp_mod, HQ. eapply (inv_singleton L st pn s a k None t pl (Some k)); [done .. |]. by left. }
  assert (Hfirst : L !! first ≫= pl_fx = Some k).
  { apply (iv_fx _ _ _ _ _ I). exists (mkWQ None (Some first)). by split. }
  destruct (L !! first) as [pl1 |] eqn:Hl1; [| done]. cbn in Hfirst. assert (Hne : t <> first) by congruence.
  pose proof (inv_allocate _ _ _ _ _ _ _ _ I Hw Hl1) as I1. cbn zeta in I1. set (q := sm_queues s) in *.
  assert (Hpl1 : with_fx (Some k) (with_fx None pl1) = pl1) by (unfold with_fx; destruct pl1; cbn in *; congruence).
  apply kwp_bind, kwp_bind, kwp_get, kwp_bind, kwp_mod, kwp_bind, wp_call_; [| done |].
  { cbn. destruct (queues a !! q) as [ts |] eqn:Hq; [| done]. apply (qo_fresh _ _ (iv_queues _ _ _ _ _ I)) in Hq. unfold q in Hq. lia. }
  intros [] a' Ha; cbn in Ha; try done. injection Ha as <-. apply kwp_ret, kwp_bind, kwp_mod, kwp_bind.
  eapply wp_WqPush; [exact I1 | apply lookup_insert_eq | done | apply lookup_insert_eq | by apply (iv_excl _ _ _ _ _ I _ _ k Hl1) | done |].
  rewrite Hpl1, insert_insert_eq, (insert_id L) by done. intros a2 I2. eapply wp_WqPush; [exact I2 | apply lookup_insert_eq | done .. |]. auto.
Qed.

Lemma wp_Pop all L st pn s a k w (Q : option Z -> Sim (prog_state Pr) -> abs -> Prop) E :
  inv L st pn s a -> sm_futex s !! k = Some w ->
  (forall s' a', inv L st pn s' a' -> (forall t, L !! t ≫= pl_fx <> Some k) -> Q None s' a') ->
  (forall s' a' t pl w', L !! t = Some pl -> pl_fx pl = Some k -> inv (<[t := with_fx None pl]> L) st pn s' a' -> sm_futex s' !! k = Some w' -> Q (Some t) s' a') ->
  wp (wq_sim_Pop Pr all k) s a Q E.
Proof.
  intros I Hw HN HS. apply kwp_bind. eapply wp_the_futex; [exact Hw |]. destruct w as [[q |] o]; cbn [wq_waiters wq_singleton].
  - destruct (qo_dom _ _ (iv_queues _ _ _ _ _ I) k _ q Hw eq_refl) as [ts Hq].
    assert (Hall : forall c, (c = WqPop q \/ c = WqPopAll q) -> wp (kcall_thread Pr c) s a Q E).
    { intros c Hc. apply kwp_bind, wp_call; [by destruct Hc as [-> | ->]; eexists | by destruct Hc as [-> | ->] |]. intros ans a' Ha.
      assert (Ha' : exists o, ans = AThread o /\ match o with None => ts = ∅ /\ a' = a | Some t => t ∈ ts /\ a' = set_queue a q (ts ∖ {[t]}) end).
      { destruct Hc as [-> | ->], ans as [| | [t |] |]; cbn in Ha; unfold with_queue, when in Ha; rewrite ?Hq in Ha; cbn in Ha; try done;
          (case_decide; [| done]); simplify_eq; (eexists; split; [reflexivity | done]). }
      destruct Ha' as (o' & -> & Ho). apply kwp_ret. destruct o' as [t |].
      - destruct Ho as [Hin ->]. assert (Hwt : waits s a k t) by (eexists; split; [exact Hw |]; by exists ts). apply (iv_fx _ _ _ _ _ I) in Hwt.
        destruct (L !! t) as [pl |] eqn:Ht; [| done]. cbn in Hwt. eapply HS; [done .. | | exact Hw]. eapply inv_enqueue; [exact I | exact Hw | done .. | | | ].
        + intros u. rewrite elem_of_difference, elem_of_singleton. case_decide; naive_solver.
        + done.
        + congruence.
      - destruct Ho as [-> ->]. apply HN; [done |]. intros t Ht. apply (iv_fx _ _ _ _ _ I) in Ht as (w' & Hw' & H'). rewrite Hw in Hw'. injection Hw' as <-.
        cbn in H'. destruct H' as (ts' & Hts' & Hin). rewrite Hq in Hts'. set_solver. }
    destruct all; apply Hall; auto.
  - apply kwp_bind, kwp_mod, kwp_ret. destruct o as [t |].
    + assert (Hwt : waits s a k t) by (by eexists). apply (iv_fx _ _ _ _ _ I) in Hwt. destruct (L !! t) as [pl |] eqn:Ht; [| done]. cbn in Hwt.
      eapply HS; [done .. | | apply lookup_insert_eq]. eapply (inv_singleton L st pn s a k (Some t) t pl None); [done .. | by apply (iv_excl _ _ _ _ _ I _ _ k Ht) | by right].
    + apply HN.
      * assert (Hid : sm_set_futex s k (mkWQ None None) = s) by (destruct s; unfold sm_set_futex, sm_set_futexes; cbn in *; by rewrite insert_id). by rewrite Hid.
      * intros t Ht. apply (iv_fx _ _ _ _ _ I) in Ht as (w' & Hw' & H'). rewrite Hw in Hw'. by injection Hw' as <-.
Qed.

Lemma wp_wq_Remove L st pn s a k t pl (Q : () -> Sim (prog_state Pr) -> abs -> Prop) E :
  inv L st pn s a -> L !! t = Some pl -> pl_fx pl = Some k ->
  (forall s' a', inv (<[t := with_fx None pl]> L) st pn s' a' -> Q () s' a') -> wp (wq_sim_Remove Pr k t) s a Q E.
Proof.
  intros I Ht Hf HQ. destruct (proj2 (waits_at _ _ _ _ _ _ _ _ I Ht) Hf) as (w & Hw & Hin).
  apply kwp_bind. eapply wp_the_futex; [exact Hw |]. destruct w as [[q |] o]; cbn [wq_waiters wq_singleton] in *.
  - destruct Hin as (ts & Hq & Hin). apply kwp_bind, kwp_bind, wp_call; [by exists ts | done |].
    intros [| b | |] a' Ha; cbn in Ha; unfold with_queue, when in Ha; rewrite ?Hq in Ha; cbn in Ha; try done. case_decide; [| done]. simplify_eq.
    rewrite bool_decide_eq_true_2 by done. apply kwp_ret, kwp_ret, HQ. eapply inv_enqueue; [exact I | exact Hw | done .. | | |].
    + intros u. rewrite elem_of_difference, elem_of_singleton. case_decide; naive_solver.
    + done.
    + congruence.
  - subst o. apply kwp_bind, kwp_bind, kwp_mod, kwp_ret. rewrite bool_decide_eq_true_2 by done. apply kwp_ret, HQ.
    eapply (inv_singleton L st pn s a k (Some t) t pl None); [done .. | by apply (iv_excl _ _ _ _ _ I _ _ k Ht) | by right].
Qed.
End futex_ops.

(** ** Timers *)

Section timer_ops.
Context (Pr : Program) (Pm : SimParams) (removes : bool).
Implicit Types (s : Sim (prog_state Pr)) (a : abs) (L : places).
Abbreviation wp := (kwp removes).

(** The timers change at one place. *)
Lemma inv_timer L st pn s a t pl al b P q :
  inv L st pn s a -> L !! t = Some pl -> tq_history b q P ->
  (forall u, snd <$> P !! u = if decide (u = t) then al else L !! u ≫= pl_tm) -> inv (<[t := with_tm al pl]> L) st pn (sm_set_timers s q) a.
Proof.
  intros I Ht Hh HP. split; cbn; try apply I.
  - intros u. rewrite (is_Some_place _ _ _ _ _ Ht). apply I.
  - intros u. destruct (decide (u = t)) as [-> |]; [rewrite lookup_insert_eq | rewrite lookup_insert_ne by done; apply I].
    destruct (inv_thread_at _ _ _ _ _ _ _ I Ht) as (th & -> & Hok). exact Hok.
  - intros u. destruct (decide (u = t)) as [-> |]; [rewrite lookup_insert_eq | rewrite lookup_insert_ne by done; apply I]. rewrite (runnable_at _ _ _ _ _ _ _ I Ht). cbn. split; congruence.
  - intros k u. unfold waits. cbn. change (waits s a k u <-> <[t := with_tm al pl]> L !! u ≫= pl_fx = Some k).
    rewrite (bind_place _ _ _ _ _ _ Ht) by done. apply I.
  - exists b, P. split; [done |]. intros u. rewrite HP. case_decide; [subst; by rewrite lookup_insert_eq | by rewrite lookup_insert_ne].
  - intros u plu k Hu Hk. destruct (decide (u = t)) as [-> | Hne]; [rewrite lookup_insert_eq in Hu; simplify_eq; cbn; by eapply (iv_excl _ _ _ _ _ I) |].
    rewrite lookup_insert_ne in Hu by done. by eapply (iv_excl _ _ _ _ _ I).
  - eapply queues_ok_same; [apply I | done ..].
  - intros u Hu. apply I. by rewrite <- (is_Some_place _ _ _ (with_tm al pl) _ Ht).
Qed.

Lemma size_bounded {A} (P : gmap Z A) (n : nat) : (forall t, is_Some (P !! t) -> 1 <= t <= Z.of_nat n) -> (size P <= n)%nat.
Proof.
  intros H. rewrite <- size_dom. etrans; [apply (subseteq_size (dom P) (list_to_set (seqZ 1 (Z.of_nat n))))|].
  - intros t Ht%elem_of_dom. apply elem_of_list_to_set, elem_of_seqZ. apply H in Ht. lia.
  - rewrite size_list_to_set by apply NoDup_seqZ. rewrite length_seqZ. lia.
Qed.

(** At most one timer per thread: the limit of the heap is never reached. *)
Lemma pending_few L st pn s a (P : pending) :
  inv L st pn s a -> (forall t, snd <$> P !! t = L !! t ≫= pl_tm) -> (size P + 1 < kTimerLimit)%nat.
Proof.
  intros I HP. enough (size P <= kClockSize)%nat by (unfold kClockSize, kTimerLimit in *; lia).
  apply size_bounded. intros t Ht. assert (HL : is_Some (L !! t)).
  { specialize (HP t). destruct (P !! t); [| by destruct Ht]. destruct (L !! t); [done | discriminate HP]. }
  pose proof (iv_ids _ _ _ _ _ I t HL). pose proof (md_count _ (iv_mem _ _ _ _ _ I)). lia.
Qed.

Lemma wp_AddTimer L st pn s a t pl when_ al (Q : () -> Sim (prog_state Pr) -> abs -> Prop) E :
  inv L st pn s a -> L !! t = Some pl -> pl_tm pl = None ->
  (forall s', inv (<[t := with_tm (Some al) pl]> L) st pn s' a -> Q () s' a) -> wp (AddTimer Pr t when_ al) s a Q E.
Proof.
  intros I Ht Htm HQ. destruct (iv_tm _ _ _ _ _ I) as (b & P & Hh & HP).
  assert (Hnew : P !! t = None) by (specialize (HP t); rewrite Ht in HP; cbn in HP; rewrite Htm in HP; by destruct (P !! t)).
  pose proof (tq_Add_ok b _ P t when_ al (tq_history_ok _ _ _ Hh) Hnew) as Hadd.
  rewrite decide_True in Hadd by (by eapply pending_few). destruct Hadd as (q' & Hq & _).
  apply kwp_bind, kwp_bind, kwp_get. rewrite Hq. apply kwp_ret, kwp_mod, HQ.
  eapply inv_timer; [done .. | by eapply tq_added |]. intros u. case_decide as Hu; [subst; by rewrite lookup_insert_eq | by rewrite lookup_insert_ne].
Qed.

(** [Remove] of a pending timer. *)
Lemma wp_tq_Remove L st pn s a t pl al (Q : bool * TimerQueue -> Sim (prog_state Pr) -> abs -> Prop) E :
  inv L st pn s a -> L !! t = Some pl -> pl_tm pl = Some al ->
  (forall q, inv (<[t := with_tm None pl]> L) st pn (sm_set_timers s q) a -> Q (true, q) s a) -> wp (ktimers Pr (fun q => tq_Remove q t)) s a Q E.
Proof.
  intros I Ht Htm HQ. destruct (iv_tm _ _ _ _ _ I) as (b & P & Hh & HP).
  assert (Hin : is_Some (P !! t)) by (specialize (HP t); rewrite Ht in HP; cbn in HP; rewrite Htm in HP; by destruct (P !! t)).
  destruct (tq_Remove_ok b _ P t (tq_history_ok _ _ _ Hh) Hin) as (_ & q' & Hq & _).
  apply kwp_bind, kwp_get. rewrite Hq. apply kwp_ret, HQ.
  eapply inv_timer; [done .. | by eapply tq_removed |]. intros u. case_decide as Hu; [subst; by rewrite lookup_delete_eq | by rewrite lookup_delete_ne].
Qed.
Lemma wp_CancelTimer L st pn s a t pl al (Q : () -> Sim (prog_state Pr) -> abs -> Prop) E :
  inv L st pn s a -> L !! t = Some pl -> pl_tm pl = Some al ->
  (forall s', inv (<[t := with_tm None pl]> L) st pn s' a -> Q () s' a) -> wp (CancelTimer Pr t) s a Q E.
Proof. intros I Ht Htm HQ. apply kwp_bind. eapply wp_tq_Remove; [done .. |]. intros q I'. apply kwp_bind, kwp_mod, kwp_ret. auto. Qed.

(** [Poll] gives the alarm of a pending timer. *)
Lemma wp_Poll L st pn s a now (Q : option Z * TimerQueue -> Sim (prog_state Pr) -> abs -> Prop) E :
  inv L st pn s a ->
  (forall q, tq_Poll (sm_timers s) now = Fine (None, q) -> inv L st pn (sm_set_timers s q) a -> Q (None, q) s a) ->
  (forall q t pl tm, L !! t = Some pl -> pl_tm pl = Some (tm_alarm tm) -> deref (tq_timers q) t = Fine tm -> size_ (tq_heap (sm_timers s)) = S (size_ (tq_heap q)) ->
     inv (<[t := with_tm None pl]> L) st pn (sm_set_timers s q) a -> Q (Some t, q) s a) ->
  wp (ktimers Pr (fun q => tq_Poll q now)) s a Q E.
Proof.
  intros I HN HS. destruct (iv_tm _ _ _ _ _ I) as (b & P & Hh & HP). pose proof (tq_history_ok _ _ _ Hh) as Hok.
  destruct (tq_Poll_ok b _ P now Hok) as (r & q' & Hq & Hok' & Hr).
  apply kwp_bind, kwp_get. rewrite Hq. apply kwp_ret. pose proof (tq_polled _ _ _ _ _ _ Hh Hq) as Hh'. destruct r as [t |].
  - destruct Hr as (d & Hd & _). pose proof (HP t) as Ht. rewrite Hd in Ht. cbn in Ht. destruct (L !! t) as [pl |] eqn:HL; [| done]. cbn in Ht.
    pose proof (tqo_desc _ _ _ Hok t d Hd) as Hdesc. rewrite <- (tq_Poll_descs _ _ _ _ _ _ Hok Hq) in Hdesc. unfold descs in Hdesc. rewrite lookup_fmap in Hdesc.
    destruct (tq_timers q' !! t) as [tm |] eqn:Htm; [| done]. injection Hdesc as <-. apply (HS q' t pl tm); [done | exact (eq_sym Ht) | unfold deref; by rewrite Htm | |].
    + rewrite (tqo_size _ _ _ Hok), (tqo_size _ _ _ Hok'). cbn. rewrite map_size_delete, Hd. assert (size P <> 0)%nat by (intros ->%map_size_empty_inv; done). lia.
    + eapply inv_timer; [done .. |]. intros u. cbn. case_decide as Hu; [subst; by rewrite lookup_delete_eq | by rewrite lookup_delete_ne].
  - apply HN; [done |]. cbn in Hh'. split; cbn; try apply I; [by exists b, P |]. eapply queues_ok_same; [apply I | done ..].
Qed.
End timer_ops.

(** ** The memory model does not fail by itself *)

(** The same threads, at least. *)
Definition keeps (m m' : Memory) : Prop := mm_count m' = mm_count m /\ forall t, is_Some (mm_threads m !! t) -> is_Some (mm_threads m' !! t).
#[export] Instance keeps_refl : Reflexive keeps.
Proof. by intros m. Qed.
#[export] Instance keeps_trans : Transitive keeps.
Proof. intros m1 m2 m3 [H1 K1] [H2 K2]. split; [congruence | auto]. Qed.

(** A result of the memory model: a memory with the same threads, or an error of the program. *)
Definition tame {A} (m : Memory) (g : A -> Memory) (r : MemRes A) : Prop := match r with MOk x => keeps m (g x) | MErr e => e <> MCrash end.

Lemma tame_bind {A B} m (g : A -> Memory) (h : B -> Memory) (r : MemRes A) (f : A -> MemRes B) :
  tame m g r -> (forall x, keeps m (g x) -> tame m h (f x)) -> tame m h (r ≫= f).
Proof. destruct r as [x | e]; cbn; auto. Qed.
Lemma tame_trans {A} m m' (g : A -> Memory) (r : MemRes A) : keeps m m' -> tame m' g r -> tame m g r.
Proof. intros Hk. destruct r as [x | e]; cbn; [intros; by etrans | done]. Qed.
Lemma tame_assert m b : tame m (fun _ => m) (mem_assert b).
Proof. by destruct b. Qed.

Lemma keeps_set_thread m t c : keeps m (mm_set_thread m t c).
Proof.
  split; [done |]. intros u Hu. cbn. destruct (decide (u = t)) as [-> |]; [by rewrite lookup_insert_eq | by rewrite lookup_insert_ne].
Qed.

Section tame.
Context (m : Memory) (t : Z) (Ht : is_Some (mm_threads m !! t)).

Lemma tame_thread m' {B} (h : B -> Memory) (f : ThreadClock -> MemRes B) : keeps m m' -> (forall c, tame m h (f c)) -> tame m h (mm_thread m' t ≫= f).
Proof using Ht. intros [_ Hk] Hf. unfold mm_thread. destruct (Hk t Ht) as [c ->]. apply Hf. Qed.

Lemma tame_Tick : tame m id (mm_Tick m t).
Proof using Ht.
  apply tame_thread; [done |]. intros c. unfold clk_tick, vc_Tick. destruct (mem_assert _) as [[] | e] eqn:He; cbn.
  - apply keeps_set_thread.
  - intros ->. unfold mem_assert in He. by case_match.
Qed.
Lemma tame_fence m' f : keeps m m' -> tame m id (mm_fence m' t f).
Proof using Ht. intros Hk. apply tame_thread; [done |]. intros c. cbn. etrans; [exact Hk | apply keeps_set_thread]. Qed.
Lemma tame_atomic m' l : tame m (fun _ => m) (GetShadowAtomicVar m' l).
Proof. unfold GetShadowAtomicVar. repeat case_match; done. Qed.

Lemma tame_load m' a : keeps m m' -> tame m snd (mm_load m' t a).
Proof using Ht.
  intros Hk. unfold mm_load. eapply tame_bind; [apply tame_atomic |]. intros v _. eapply (tame_bind m id).
  - apply tame_thread; [done |]. intros c. cbn. etrans; [exact Hk | apply keeps_set_thread].
  - intros m2 Hk2. eapply (tame_bind m id); [destruct (IsAcquireOrder _); [by apply tame_fence | done] |]. done.
Qed.
Lemma tame_store m' join a : keeps m m' -> tame m id (mm_store join m' t a).
Proof using Ht.
  intros Hk. unfold mm_store. eapply tame_bind; [apply tame_atomic |]. intros v _. eapply (tame_bind m id); [destruct (IsReleaseOrder _); [by apply tame_fence | done] |].
  intros m2 Hk2. apply tame_thread; [done |]. intros c. exact Hk2.
Qed.

Lemma tame_Sync a : tame m snd (mm_Sync m t a).
Proof using Ht.
  unfold mm_Sync. eapply tame_bind; [apply tame_Tick |]. intros m1 Hk. unfold id in Hk. destruct (act_type a).
  - exact Hk.
  - eapply tame_bind; [apply tame_assert |]. intros _ _. by apply tame_load.
  - eapply tame_bind; [apply tame_atomic |]. intros v _. exact Hk.
  - eapply (tame_bind m id); [eapply tame_bind; [apply tame_assert |]; intros _ _; by apply tame_store |]. done.
  - by apply tame_load.
  - eapply (tame_bind m id); [by apply tame_store |]. done.
  - eapply (tame_bind m id); [eapply tame_bind; [apply tame_atomic |]; intros v _; exact Hk |]. done.
  - eapply (tame_bind m id); [unfold mm_AtomicThreadFence; repeat case_match; try done; by apply tame_fence |]. done.
Qed.

Lemma tame_Access l type : tame m snd (AccessNonAtomicVar m t l type).
Proof using Ht.
  unfold AccessNonAtomicVar. eapply tame_bind; [apply tame_Tick |]. intros m1 Hk. unfold id in Hk.
  assert (Hinit : tame m snd (InitNonAtomicVar m1 t l type)).
  { apply tame_thread; [done |]. intros c. eapply (tame_bind m (fun _ => m)); [by repeat case_match |]. intros [old |] _; exact Hk. }
  assert (Hlive : tame m snd (AccessLiveNonAtomicVar m1 t l type)).
  { apply tame_thread; [done |]. intros c. repeat case_match; try done; exact Hk. }
  by destruct type.
Qed.
Lemma tame_Malloc addr size_ : tame m id (mm_Malloc m t addr size_).
Proof using Ht. apply tame_thread; [done |]. intros c. apply (keeps_set_thread (mm_set_alloc m addr _)). Qed.
Lemma tame_Free addr : tame m id (mm_Free m t addr).
Proof using Ht. by apply tame_thread. Qed.
End tame.

Lemma Tick_total m t : mem_dom m -> 1 <= t <= Z.of_nat (mm_count m) -> exists m', mm_Tick m t = MOk m' /\ keeps m m'.
Proof.
  intros [_ Hd] Ht. unfold mm_Tick, mm_thread. destruct (Hd t Ht) as [c ->]. cbn. unfold clk_tick, vc_Tick, mem_assert.
  rewrite (proj2 (Z.leb_le _ _)) by lia. cbn. eexists. split; [done | apply keeps_set_thread].
Qed.
Lemma mem_dom_keeps m m' : mem_dom m -> keeps m m' -> mem_dom m'.
Proof. intros [H1 H2] [K1 K2]. split; rewrite K1; [done | auto]. Qed.

Lemma Wake_total m waker waiter : mem_dom m -> 1 <= waker <= Z.of_nat (mm_count m) -> 1 <= waiter <= Z.of_nat (mm_count m) ->
  exists m', mm_Wake m waker waiter = MOk m' /\ keeps m m'.
Proof.
  intros Hm H1 H2. unfold mm_Wake, mm_thread. destruct (md_threads _ Hm _ H1) as [w ->], (md_threads _ Hm _ H2) as [c ->]. cbn -[mm_Tick].
  match goal with |- context [mm_Tick ?m1 _] => set (m2 := m1) end. assert (Hk : keeps m m2) by apply keeps_set_thread.
  destruct (Tick_total m2 waiter) as (m3 & -> & Hk3); [by eapply mem_dom_keeps | by destruct Hk as [-> _] |]. exists m3. split; [done | by etrans].
Qed.
Lemma Spawn_total m parent child : mem_dom m -> 1 <= parent <= Z.of_nat (mm_count m) -> 1 <= child <= Z.of_nat (mm_count m) ->
  exists m', mm_Spawn m parent child = MOk m' /\ keeps m m'.
Proof.
  intros Hm H1 H2. unfold mm_Spawn, mm_thread. destruct (md_threads _ Hm _ H1) as [w ->], (md_threads _ Hm _ H2) as [c ->]. cbn -[mm_Tick].
  match goal with |- context [mm_Tick ?m1 _] => set (m2 := m1) end. assert (Hk : keeps m m2) by apply keeps_set_thread.
  destruct (Tick_total m2 child) as (m3 & -> & Hk3); [by eapply mem_dom_keeps | by destruct Hk as [-> _] |]. exists m3. split; [done | by etrans].
Qed.

(** ** Threads and memory *)

Section thread_ops.
Context (Pr : Program) (Pm : SimParams) (removes : bool).
Implicit Types (s : Sim (prog_state Pr)) (a : abs) (L : places).
Abbreviation wp := (kwp removes).

Lemma wp_kthread L st pn s a t pl (Q : Thread -> Sim (prog_state Pr) -> abs -> Prop) E :
  inv L st pn s a -> L !! t = Some pl -> (forall th, sm_threads s !! t = Some th -> th_ok t th pl -> Q th s a) -> wp (kthread Pr t) s a Q E.
Proof. intros I Ht HQ. destruct (inv_thread_at _ _ _ _ _ _ _ I Ht) as (th & Hth & Hok). apply kwp_bind, kwp_get. rewrite Hth. by apply kwp_ret, HQ. Qed.

Lemma wp_set_thread L st pn s a t pl sh f (Q : () -> Sim (prog_state Pr) -> abs -> Prop) E :
  inv L st pn s a -> L !! t = Some pl -> (forall th, sm_threads s !! t = Some th -> th_ok t th pl -> th_ok t (f th) (with_sh sh pl)) ->
  (forall s', inv (<[t := with_sh sh pl]> L) st pn s' a -> Q () s' a) -> wp (kset_thread Pr t f) s a Q E.
Proof.
  intros I Ht Hf HQ. apply kwp_bind. eapply wp_kthread; [done .. |]. intros th Hth Hok. apply kwp_mod, HQ.
  eapply inv_place; [exact I | exact Ht | done | done | apply (iv_pinned _ _ _ _ _ I) | done | done | done | | | | done | | done | |]; cbn.
  - exists (f th). rewrite lookup_insert_eq. auto.
  - intros u Hu. by rewrite lookup_insert_ne.
  - symmetry. apply (runnable_at _ _ _ _ _ _ _ I Ht).
  - intros k. apply (waits_at _ _ _ _ _ _ _ _ I Ht).
  - intros k. apply (iv_excl _ _ _ _ _ I _ _ k Ht).
  - eapply queues_ok_same; [apply I | done ..].
Qed.
Lemma wp_touch_thread L st pn s a t pl f (Q : () -> Sim (prog_state Pr) -> abs -> Prop) E :
  inv L st pn s a -> L !! t = Some pl -> (forall th, sm_threads s !! t = Some th -> th_ok t th pl -> th_ok t (f th) pl) ->
  (forall s', inv L st pn s' a -> Q () s' a) -> wp (kset_thread Pr t f) s a Q E.
Proof.
  intros I Ht Hf HQ. assert (Hsh : with_sh (pl_sh pl) pl = pl) by by destruct pl. eapply wp_set_thread; [done .. | |].
  - rewrite Hsh. exact Hf.
  - rewrite Hsh, insert_id by done. exact HQ.
Qed.

(** Changes of what the invariant does not mention, or only up to [keeps]. *)
Lemma inv_other L st pn s s' a :
  inv L st pn s a -> sm_status s' = sm_status s -> sm_alive s' = sm_alive s -> sm_threads s' = sm_threads s -> sm_timers s' = sm_timers s ->
  sm_futex s' = sm_futex s -> sm_queues s' = sm_queues s -> keeps (sm_memory s) (sm_memory s') -> inv L st pn s' a.
Proof.
  intros I Hst Hal Hth Hti Hfu Hqu [Hk1 Hk2]. split; rewrite ?Hst, ?Hal, ?Hth, ?Hti, ?Hk1; try apply I.
  - intros k t. rewrite <- (iv_fx _ _ _ _ _ I). by apply waits_same.
  - eapply queues_ok_same; [apply I | done ..].
  - eapply mem_dom_keeps; [apply I | done].
Qed.
Lemma inv_status L st st' pn s a : inv L st pn s a -> inv L (Some st') pn (sm_set_status s st') a.
Proof. intros I. split; cbn; try apply I; [done |]. eapply queues_ok_same; [apply I | done ..]. Qed.

Lemma wp_abort {A} L st' st pn s a (Q : A -> Sim (prog_state Pr) -> abs -> Prop) E :
  inv L st' pn s a -> (forall s', sp_isolated Pm = true -> inv L (Some st) pn s' a -> E s' a) -> wp (_SysAbort Pr Pm st) s a Q E.
Proof. intros I HE. unfold _SysAbort, kwp. destruct (sp_isolated Pm) eqn:Hi; cbn; [| done]. apply HE; [done | by eapply inv_status]. Qed.

(** An operation of the memory model. *)
Lemma wp_kmem {A} L st pn s a (f : Memory -> MemRes A) g (Q : A -> Sim (prog_state Pr) -> abs -> Prop) E :
  inv L st pn s a -> tame (sm_memory s) g (f (sm_memory s)) ->
  (forall x, f (sm_memory s) = MOk x -> keeps (sm_memory s) (g x) -> Q x s a) ->
  (forall s', sp_isolated Pm = true -> inv L (Some StInvalidMemoryAccess) pn s' a -> E s' a) -> wp (kmem Pr Pm f) s a Q E.
Proof.
  intros I Ht HQ HE. apply kwp_bind, kwp_get. destruct (f (sm_memory s)) as [x | []] eqn:Hf; cbn in Ht; [by apply kwp_ret, HQ | done | by eapply wp_abort | done].
Qed.
Lemma wp_kmem_ L st pn s a f (Q : () -> Sim (prog_state Pr) -> abs -> Prop) E :
  inv L st pn s a -> tame (sm_memory s) id (f (sm_memory s)) -> (forall s', inv L st pn s' a -> Q () s' a) ->
  (forall s', sp_isolated Pm = true -> inv L (Some StInvalidMemoryAccess) pn s' a -> E s' a) -> wp (kmem_ Pr Pm f) s a Q E.
Proof. intros I Ht HQ HE. apply kwp_bind. eapply wp_kmem; [done .. | | done]. intros m Hm Hk. apply kwp_mod, HQ. by eapply inv_other. Qed.
Lemma wp_kmem_total L st pn s a f (Q : () -> Sim (prog_state Pr) -> abs -> Prop) E :
  inv L st pn s a -> (exists m, f (sm_memory s) = MOk m /\ keeps (sm_memory s) m) -> (forall s', inv L st pn s' a -> Q () s' a) -> wp (kmem_ Pr Pm f) s a Q E.
Proof. intros I (m & Hm & Hk) HQ. apply kwp_bind, kwp_bind, kwp_get. rewrite Hm. apply kwp_ret, kwp_mod, HQ. by eapply inv_other. Qed.

Lemma inv_clock L st pn s a t : inv L st pn s a -> is_Some (L !! t) -> is_Some (mm_threads (sm_memory s) !! t).
Proof. intros I Ht. apply (md_threads _ (iv_mem _ _ _ _ _ I)). by apply (iv_ids _ _ _ _ _ I). Qed.

(** A thread comes, a thread goes. *)
Lemma wp_CreateThread L st pn s a main parent (Q : Z -> Sim (prog_state Pr) -> abs -> Prop) E :
  inv L st pn s a -> main = bool_decide (mm_count (sm_memory s) = O) ->
  (forall t s', L !! t = None -> t = Z.of_nat (S (mm_count (sm_memory s))) -> mm_count (sm_memory s') = S (mm_count (sm_memory s)) ->
     inv (<[t := running]> L) st pn s' a -> Q t s' a) ->
  wp (CreateThread Pr main parent) s a Q E.
Proof.
  intros I Hmain HQ. apply kwp_bind, kwp_get. unfold mm_CreateThread, mem_assert.
  destruct (decide (mm_count (sm_memory s) < kClockSize)%nat) as [Hc | Hc]; [rewrite bool_decide_eq_true_2 by done | rewrite bool_decide_eq_false_2 by done];
    cbn [mbind MemRes_bind]; [| by apply kwp_stop].
  apply kwp_bind, kwp_mod, kwp_ret. set (t := Z.of_nat (S (mm_count (sm_memory s)))).
  assert (Hnew : L !! t = None). { destruct (L !! t) eqn:Ht; [| done]. pose proof (iv_ids _ _ _ _ _ I t (mk_is_Some _ _ Ht)). unfold t in *. lia. }
  assert (Hnw : forall k, ~ waits s a k t) by (intros k Hk; apply (iv_fx _ _ _ _ _ I) in Hk; by rewrite Hnew in Hk).
  apply HQ; [done .. |]. split; cbn -[Z.of_nat]; try apply I.
  - apply list.NoDup_app. split; [apply I |]. split; [| apply NoDup_singleton]. intros u Hu%(iv_alive _ _ _ _ _ I) ->%list_elem_of_singleton. rewrite Hnew in Hu. by destruct Hu.
  - intros u. rewrite elem_of_app, list_elem_of_singleton, (iv_alive _ _ _ _ _ I).
    destruct (decide (u = t)) as [-> |]; [rewrite lookup_insert_eq; naive_solver | rewrite lookup_insert_ne by done; naive_solver].
  - intros u. fold t. destruct (decide (u = t)) as [-> |]; [rewrite !lookup_insert_eq | rewrite !lookup_insert_ne by done; apply I].
    split_and!; cbn; [done .. |]. rewrite Hmain. apply bool_decide_ext. unfold t. lia.
  - intros u. rewrite (iv_run _ _ _ _ _ I). destruct (decide (u = t)) as [-> |]; [by rewrite lookup_insert_eq, Hnew | by rewrite lookup_insert_ne].
  - intros k u. change (waits s a k u <-> <[t := running]> L !! u ≫= pl_fx = Some k).
    destruct (decide (u = t)) as [-> |]; [rewrite lookup_insert_eq; cbn; split; [by intros ?%Hnw | done] | rewrite lookup_insert_ne by done; apply I].
  - destruct (iv_tm _ _ _ _ _ I) as (b & P & Hh & HP). exists b, P. split; [done |]. intros u. rewrite HP.
    destruct (decide (u = t)) as [-> |]; [by rewrite lookup_insert_eq, Hnew | by rewrite lookup_insert_ne].
  - intros u pl k Hu Hk. destruct (decide (u = t)) as [-> |]; [rewrite lookup_insert_eq in Hu; by simplify_eq | rewrite lookup_insert_ne in Hu by done; by eapply (iv_excl _ _ _ _ _ I)].
  - eapply queues_ok_same; [apply I | done ..].
  - split; cbn -[Z.of_nat]; [lia |]. intros u Hu. fold t. destruct (decide (u = t)) as [-> |]; [by rewrite lookup_insert_eq | rewrite lookup_insert_ne by done].
    apply (iv_mem _ _ _ _ _ I). unfold t in *. lia.
  - intros u. destruct (decide (u = t)) as [-> |]; [intros _; unfold t; lia | rewrite lookup_insert_ne by done]. intros Hu. apply (iv_ids _ _ _ _ _ I) in Hu. lia.
Qed.

(** The thread is in no queue, and no timer is for it. *)
Lemma wp_DestroyThread L st pn s a t pl (Q : () -> Sim (prog_state Pr) -> abs -> Prop) E :
  inv L st pn s a -> L !! t = Some pl -> pl_run pl = false -> pl_fx pl = None -> pl_tm pl = None ->
  (forall s', inv (delete t L) st pn s' a -> Q () s' a) -> wp (DestroyThread Pr t) s a Q E.
Proof.
  intros I Ht Hr Hf Htm HQ. apply kwp_mod, HQ. split; cbn; try apply I.
  - apply list.NoDup_filter, I.
  - intros u. rewrite list_elem_of_filter, (iv_alive _ _ _ _ _ I). destruct (decide (u = t)) as [-> |]; [rewrite lookup_delete_eq | rewrite lookup_delete_ne by done]; naive_solver.
  - intros u. destruct (decide (u = t)) as [-> |]; [by rewrite !lookup_delete_eq | rewrite !lookup_delete_ne by done; apply I].
  - intros u. rewrite (iv_run _ _ _ _ _ I). destruct (decide (u = t)) as [-> |]; [rewrite lookup_delete_eq, Ht; cbn; split; congruence | by rewrite lookup_delete_ne].
  - intros k u. change (waits s a k u <-> delete t L !! u ≫= pl_fx = Some k). rewrite (iv_fx _ _ _ _ _ I).
    destruct (decide (u = t)) as [-> |]; [rewrite lookup_delete_eq, Ht; cbn; split; congruence | by rewrite lookup_delete_ne].
  - destruct (iv_tm _ _ _ _ _ I) as (b & P & Hh & HP). exists b, P. split; [done |]. intros u. rewrite HP.
    destruct (decide (u = t)) as [-> |]; [by rewrite lookup_delete_eq, Ht | by rewrite lookup_delete_ne].
  - intros u pu k [_ Hu]%lookup_delete_Some Hk. by eapply (iv_excl _ _ _ _ _ I).
  - eapply queues_ok_same; [apply I | done ..].
  - intros u [x [_ Hu]%lookup_delete_Some]. apply I. by rewrite Hu.
Qed.
End thread_ops.

(** ** Waking *)

(** Between the steps of the simulator, a thread other than the current one is ready, asleep or parked. *)
Definition stable_at (cur : option Z) (t : Z) (pl : place) : Prop :=
  if decide (cur = Some t) then pl = running \/ (exists c, pl = calling c) else pl = ready \/ pl = sleeping t \/ exists k timed, pl = parked t k timed.
Definition settled (cur : option Z) (L : places) : Prop := map_Forall (stable_at cur) L.

(** Threads may have been woken. *)
Definition woken (L L' : places) : Prop := dom L' = dom L /\ forall t, L !! t = Some ready -> L' !! t = Some ready.
#[export] Instance woken_refl : Reflexive woken.
Proof. by intros L. Qed.
#[export] Instance woken_trans : Transitive woken.
Proof. intros L1 L2 L3 [D1 R1] [D2 R2]. split; [congruence | auto]. Qed.
Lemma woken_one L t : is_Some (L !! t) -> woken L (<[t := ready]> L).
Proof.
  intros Ht. split; [rewrite dom_insert_L; apply elem_of_dom in Ht; set_solver |]. intros u Hu.
  destruct (decide (u = t)) as [-> |]; [by rewrite lookup_insert_eq | by rewrite lookup_insert_ne].
Qed.

Lemma stable_ready cur t : cur <> Some t -> stable_at cur t ready.
Proof. intros Hc. unfold stable_at. rewrite decide_False by done. by left. Qed.
Lemma settled_ready cur L t : settled cur L -> cur <> Some t -> settled cur (<[t := ready]> L).
Proof. intros HS Hc. apply map_Forall_insert_2; [by apply stable_ready | done]. Qed.

(** What can be woken. *)
Inductive wakeable (waker : option Z) (t : Z) : WakeType -> place -> Prop :=
| wakeable_sleeper : wakeable waker t WSleepTimer (with_tm None (sleeping t))
| wakeable_timeout k : wakeable waker t WFutexTimer (with_tm None (parked t k true))
| wakeable_waiter w k timed : waker = Some w -> wakeable waker t WFutexWake (with_fx None (parked t k timed)).

Section wake.
Context (Pr : Program) (Pm : SimParams) (removes : bool).
Implicit Types (s : Sim (prog_state Pr)) (a : abs) (L : places).
Abbreviation wp := (kwp removes).

Lemma wp_ScheduleWaiter L st pn s a t pl cs (Q : () -> Sim (prog_state Pr) -> abs -> Prop) E :
  inv L st pn s a -> L !! t = Some pl -> pl_run pl = false -> pl_fx pl = None ->
  (forall s' a', inv (<[t := with_run true pl]> L) st pn s' a' -> Q () s' a') -> wp (ScheduleWaiter Pr t cs) s a Q E.
Proof.
  intros I Ht Hr Hf HQ. apply kwp_bind. eapply (wp_touch_thread Pr); [done .. | intros th _ Hok; exact Hok |]. intros s' I'. eapply (wp_add Pr); [done | by left | done .. | auto].
Qed.

Lemma wp_Wake L st pn s a waker t w pl (Q : () -> Sim (prog_state Pr) -> abs -> Prop) E :
  inv L st pn s a -> L !! t = Some pl -> wakeable waker t w pl -> (forall u, waker = Some u -> is_Some (L !! u)) ->
  (forall s' a', inv (<[t := ready]> L) st pn s' a' -> Q () s' a') -> wp (sim_Wake Pr Pm waker t w) s a Q E.
Proof.
  intros I Ht Hw Hwaker HQ. apply kwp_bind. eapply (wp_kthread Pr); [done .. |]. intros th Hth Hok.
  assert (Hstate : th_state th = TsParked \/ th_state th = TsSleeping) by (destruct Hw; cbn in Hok; destruct Hok as [Hsh _]; cbn in Hsh; tauto).
  apply kwp_bind. rewrite bool_decide_eq_true_2 by done. apply kwp_ret, kwp_bind.
  assert (Hrest : forall cs pl' s' a', inv (<[t := pl']> L) st pn s' a' -> pl_run pl' = false -> pl_fx pl' = None -> pl_tm pl' = None ->
            wp (kset_thread Pr t (fun th => th_set_wait th TsRunnable None None);~ ScheduleWaiter Pr t cs) s' a' Q E).
  { intros cs pl' s' a' I' Hr Hf Htm. apply kwp_bind. eapply (wp_set_thread Pr _ _ _ _ _ _ t pl' Free); [exact I' | apply lookup_insert_eq | |].
    - intros th' _ (_ & Hlf & Hm). by split_and!.
    - rewrite insert_insert_eq. intros s2 I2. eapply wp_ScheduleWaiter; [exact I2 | apply lookup_insert_eq | done .. |].
      rewrite insert_insert_eq. intros s3 a3 I3. apply HQ. assert (with_run true (with_sh Free pl') = ready) as <- by (destruct pl'; cbn in *; by simplify_eq). done. }
  destruct Hw as [| k | wk k timed ->]; cbn [wake_status].
  - apply kwp_ret. eapply Hrest; [by rewrite insert_id | done ..].
  - destruct Hok as ((_ & Hfu & _) & _). rewrite Hfu. apply kwp_bind, kwp_ret, kwp_bind. eapply (wp_wq_Remove Pr); [done | done | done |].
    intros s' a' I'. apply kwp_ret. by eapply Hrest.
  - apply kwp_bind, kwp_ret, kwp_bind. eapply wp_kmem_total; [done | apply Wake_total; [apply I | by apply (iv_ids _ _ _ _ _ I), Hwaker | apply (iv_ids _ _ _ _ _ I); by rewrite Ht] |].
    intros s' I'. apply kwp_bind. destruct Hok as ((_ & _ & Htm & _) & _). rewrite Htm. destruct timed.
    + eapply (wp_CancelTimer Pr); [exact I' | done | done |]. intros s2 I2. apply kwp_ret. by eapply Hrest.
    + apply kwp_ret, kwp_ret. eapply Hrest; [by rewrite insert_id | done ..].
Qed.

(** The alarm of a timer that was pending. *)
Lemma wp_Alarm L st pn s a t pl al cur (Q : () -> Sim (prog_state Pr) -> abs -> Prop) E :
  settled cur L -> L !! t = Some pl -> pl_tm pl = Some al -> inv (<[t := with_tm None pl]> L) st pn s a ->
  (forall s' a', inv (<[t := ready]> L) st pn s' a' -> Q () s' a') -> wp (Alarm Pr Pm al) s a Q E.
Proof.
  intros HS Ht Htm I HQ.
  assert (Hpl : exists w, al = match w with WSleepTimer => SleepTimer t | _ => FutexTimer t end /\ (w = WSleepTimer \/ w = WFutexTimer) /\ wakeable None t w (with_tm None pl)).
  { pose proof (HS t pl Ht) as Hst. unfold stable_at in Hst. case_decide; [by destruct Hst as [-> | [c ->]] |]. destruct Hst as [-> | [-> | (k & timed & ->)]]; cbn in Htm; [done | |].
    - exists WSleepTimer. split_and!; [congruence | by left | constructor].
    - destruct timed; [| done]. exists WFutexTimer. split_and!; [congruence | by right | constructor]. }
  destruct Hpl as (w & -> & Hw & Hwk).
  assert (Hwake : wp (sim_Wake Pr Pm None t w) s a Q E).
  { eapply wp_Wake; [exact I | apply lookup_insert_eq | done | done |]. by rewrite insert_insert_eq. }
  by destruct Hw as [-> | ->].
Qed.

(** The size of the heap is the number of threads with a timer. *)
Lemma inv_heap_size L st pn s a : inv L st pn s a -> size_ (tq_heap (sm_timers s)) = size (omap pl_tm L).
Proof.
  intros I. destruct (iv_tm _ _ _ _ _ I) as (b & P & Hh & HP). rewrite (tqo_size _ _ _ (tq_history_ok _ _ _ Hh)).
  assert (omap pl_tm L = snd <$> P) as -> by (apply map_eq; intros t; by rewrite lookup_omap, lookup_fmap, HP). by rewrite map_size_fmap.
Qed.

Lemma wp_poll_loop fuel now L st pn s a progress (Q : bool -> Sim (prog_state Pr) -> abs -> Prop) E :
  inv L st pn s a -> settled None L -> (size_ (tq_heap (sm_timers s)) < fuel)%nat ->
  (forall b s' a' L', inv L' st pn s' a' -> settled None L' -> woken L L' -> (b = true -> progress = true \/ exists t, L' !! t = Some ready) ->
     (b = false -> progress = false /\ s' = s /\ tq_Poll (sm_timers s) now = Fine (None, sm_timers s)) -> Q b s' a') ->
  wp (poll_loop Pr Pm fuel now progress) s a Q E.
Proof.
  revert L s a progress. induction fuel as [| fuel IH]; intros L s a progress I HS Hfuel HQ; [lia |]. cbn [poll_loop]. apply kwp_bind. eapply (wp_Poll Pr); [done | |].
  - intros q Hq I'. apply kwp_bind, kwp_mod, kwp_ret.
    assert (Hid : q = sm_timers s).
    { unfold tq_Poll in Hq. destruct (tq_IsEmpty _); [by injection Hq |]. destruct (tq_NextDeadLine _); cbn in Hq; [| done]. destruct (_ <=? _); [| by injection Hq].
      destruct (heap_ExtractMin _ _); by cbn in Hq. }
    subst q. eapply HQ; [exact I' | done | done | by left |]. intros ->. split_and!; [done | by destruct s | done].
  - intros q t pl tm Ht Htm Hd Hsize I'. apply kwp_bind, kwp_mod. cbn [fst snd]. apply kwp_bind, kwp_bind, kwp_get. cbn [sm_timers sm_set_timers]. rewrite Hd. apply kwp_ret, kwp_bind.
    eapply wp_Alarm; [done .. |]. intros s' a' I2. assert (Hw : woken L (<[t := ready]> L)) by (apply woken_one; by rewrite Ht).
    eapply IH; [exact I2 | by apply settled_ready | |].
    + rewrite (inv_heap_size _ _ _ _ _ I2). pose proof (inv_heap_size _ _ _ _ _ I') as Hs. cbn [sm_timers sm_set_timers] in Hs.
      assert (omap pl_tm (<[t := ready]> L) = omap pl_tm (<[t := with_tm None pl]> L)) as -> by (rewrite !omap_insert_None by done; done). lia.
    + intros b s2 a2 L2 I3 HS3 Hw3 Hb Hf. eapply HQ; [exact I3 | done | by etrans | |].
      * intros _. right. exists t. apply Hw3. by rewrite lookup_insert_eq.
      * intros ->. by destruct (Hf eq_refl).
Qed.
End wake.

(** ** Frames

    [kframe P m]: where [m] returns, [P] still holds of the state. *)

Fixpoint pall {A} (p : Proc A) (Q : A -> Prop) : Prop :=
  match p with PRet x => Q x | PCall _ _ k => forall ans, pall (k ans) Q | PStop _ => True end.
Lemma pall_mono {A} (p : Proc A) (Q Q' : A -> Prop) : pall p Q -> (forall x, Q x -> Q' x) -> pall p Q'.
Proof. intros H HQ. induction p as [x | e c k IH | r]; cbn in *; auto. Qed.
Lemma pall_bind {A B} (p : Proc A) (f : A -> Proc B) Q : pall p (fun x => pall (f x) Q) -> pall (pbind p f) Q.
Proof. induction p as [x | e c k IH | r]; cbn; auto. Qed.
Lemma pwp_pall (removes : bool) {A} (p : Proc A) a (Q : A -> abs -> Prop) (R : A -> Prop) : pwp removes p a Q -> pall p R -> pwp removes p a (fun x a' => Q x a' /\ R x).
Proof. revert a. induction p as [x | e c k IH | r]; cbn; [done | | done]. intros a (Hl & Hb & H) HR. split_and!; [done .. |]. eauto. Qed.

Definition kframe {U A} (P : Sim U -> Prop) (m : K U A) : Prop := forall s, P s -> pall (m s) (fun o => match o with Done _ s' => P s' | Aborted _ => True end).

Lemma kframe_bind {U A B} P (m : K U A) (f : A -> K U B) : kframe P m -> (forall x, kframe P (f x)) -> kframe P (kbind m f).
Proof. intros Hm Hf s Hs. apply pall_bind. eapply pall_mono; [by apply Hm |]. intros [x s' | s'] H; [by apply Hf | done]. Qed.
Lemma kframe_mod {U} (P : Sim U -> Prop) f : (forall s, P s -> P (f s)) -> kframe P (kmod f).
Proof. intros H s Hs. by apply H. Qed.
Lemma kwp_frame (removes : bool) {U A} P (m : K U A) s a (Q : A -> Sim U -> abs -> Prop) E :
  kwp removes m s a (fun x s' a' => P s' -> Q x s' a') E -> kframe P m -> P s -> kwp removes m s a Q E.
Proof.
  intros H Hf Hs. eapply pwp_mono; [eapply pwp_pall; [exact H | by apply Hf] |]. intros [x s' | s'] a' [HQ HP]; cbn in *; auto.
Qed.

Section frame.
Context (Pr : Program) (Pm : SimParams) (k : FutexKey).

(** Futexes stay. *)
Definition has_futex (s : Sim (prog_state Pr)) : Prop := is_Some (sm_futex s !! k).
Lemma has_futex_set s k' w : has_futex s -> has_futex (sm_set_futex s k' w).
Proof using Type. unfold has_futex. cbn. intros H. destruct (decide (k = k')) as [-> |]; [by rewrite lookup_insert_eq | by rewrite lookup_insert_ne]. Qed.

Ltac frame :=
  repeat match goal with
  | |- kframe _ (kbind _ _) => apply kframe_bind; [| intros]
  | |- kframe _ (kmod _) => apply kframe_mod; intros; try apply has_futex_set; assumption
  | |- kframe _ (kcall _ _) => let s := fresh in let H := fresh in let ans := fresh in intros s H ans; exact H
  | |- kframe _ (_SysAbort _ _ _) => let s := fresh in intros s ?; unfold _SysAbort; by destruct (sp_isolated Pm)
  | |- kframe _ (match ?x with _ => _ end) => destruct x
  | |- kframe _ (kret _) => by intros ?
  | |- kframe _ (kget _) => by intros ?
  | |- kframe _ (kstop _) => by intros ?
  end.

Lemma frame_wq_Remove k' t : kframe has_futex (wq_sim_Remove Pr k' t).
Proof using Type. unfold wq_sim_Remove, the_futex, kset_futex, kcall_bool, kverify, kopt. frame. Qed.
Lemma frame_Wake waker t w : kframe has_futex (sim_Wake Pr Pm waker t w).
Proof using Type.
  unfold sim_Wake, ScheduleWaiter, wake_status, kset_thread, kthread, kmem_, kmem, CancelTimer, ktimers, kset_timers, kcall_, kverify, kopt.
  frame; apply frame_wq_Remove.
Qed.
End frame.

(** ** Between the steps *)

(** The main thread runs until everybody has completed. *)
Definition finished (L : places) (st : option SimStatus) : Prop := (is_Some (L !! 1) -> st = None) /\ (L !! 1 = None -> L = ∅ /\ st = Some StOk).

(** [cur] runs; the scheduler has promised to run [pn] next. *)
Record calm {U} (cur pn : option Z) (L : places) (st : option SimStatus) (s : Sim U) (a : abs) : Prop := {
  ca_inv : inv L st pn s a;
  ca_settled : settled cur L;
  ca_finished : finished L st;
  ca_pinned : forall x, pn = Some x -> L !! x = Some ready }.
Definition good {U} (cur pn : option Z) (s : Sim U) (a : abs) : Prop := exists L st, calm cur pn L st s a /\ forall t, cur = Some t -> is_Some (L !! t).

Section calm.
Context {U : Type}.
Implicit Types (s : Sim U) (a : abs) (L : places).

Lemma finished_dom L L' st : dom L' = dom L -> finished L st -> finished L' st.
Proof.
  intros HD [H1 H2]. assert (Hd : forall t, is_Some (L' !! t) <-> is_Some (L !! t)) by (intros t; by rewrite <- !elem_of_dom, HD). split.
  - intros H. by apply H1, Hd.
  - intros H. destruct H2 as [-> ->]; [| split; [| done]].
    + apply eq_None_not_Some. rewrite <- Hd, H. by intros [].
    + apply dom_empty_inv_L. by rewrite HD, dom_empty_L.
Qed.
Lemma insert_dom L t pl : is_Some (L !! t) -> dom (<[t := pl]> L) = dom L.
Proof. intros Ht. rewrite dom_insert_L. apply elem_of_dom in Ht. set_solver. Qed.

Lemma calm_unfinished cur pn L st s a t : calm cur pn L st s a -> is_Some (L !! t) -> st = None /\ is_Some (L !! 1).
Proof. intros [_ _ [H1 H2] _] Ht. destruct (L !! 1) eqn:H; [split; [by apply H1 | done] |]. destruct (H2 eq_refl) as [-> _]. by destruct Ht. Qed.

Lemma calm_woken pn L L' st s s' a a' : calm None pn L st s a -> inv L' st pn s' a' -> settled None L' -> woken L L' -> calm None pn L' st s' a'.
Proof. intros [_ _ HF HP] I HS [HD HW]. split; [done .. | by eapply finished_dom | auto]. Qed.

Lemma settled_except cur cur' L t pl : settled cur L -> (forall u, u <> t -> cur = Some u <-> cur' = Some u) -> stable_at cur' t pl -> settled cur' (<[t := pl]> L).
Proof.
  intros HS Hc Ht u pu Hu. destruct (decide (u = t)) as [-> | Hne]; [rewrite lookup_insert_eq in Hu; by simplify_eq |]. rewrite lookup_insert_ne in Hu by done.
  pose proof (HS u pu Hu) as H. unfold stable_at in *. specialize (Hc u Hne). repeat case_decide; tauto.
Qed.

(** The current thread goes on. *)
Lemma calm_stay pl t L st s s' a a' :
  calm (Some t) None L st s a -> is_Some (L !! t) -> inv (<[t := pl]> L) st None s' a' -> pl = running \/ (exists c, pl = calling c) -> calm (Some t) None (<[t := pl]> L) st s' a'.
Proof.
  intros C Ht I Hpl. split; [done | | eapply finished_dom; [by apply insert_dom | apply C] | done].
  eapply settled_except; [apply C | done |]. unfold stable_at. by rewrite decide_True.
Qed.
(** It stops. *)
Lemma calm_leave pl t pn L st s s' a a' :
  calm (Some t) None L st s a -> is_Some (L !! t) -> inv (<[t := pl]> L) st pn s' a' -> stable_at None t pl -> pn = None \/ (pn = Some t /\ pl = ready) ->
  calm None pn (<[t := pl]> L) st s' a'.
Proof.
  intros C Ht I Hpl Hpn. split; [done | | eapply finished_dom; [by apply insert_dom | apply C] |].
  - eapply settled_except; [apply C | | done]. intros u Hu. naive_solver.
  - intros x ->. destruct Hpn as [| [[= ->] ->]]; [done |]. apply lookup_insert_eq.
Qed.
(** Another one wakes, or comes. *)
Lemma calm_other cur pn u L st s s' a a' :
  calm cur pn L st s a -> is_Some (L !! u) -> cur <> Some u -> inv (<[u := ready]> L) st pn s' a' -> calm cur pn (<[u := ready]> L) st s' a'.
Proof.
  intros C Hu Hc I. split; [done | by apply settled_ready; [apply C |] | eapply finished_dom; [by apply insert_dom | apply C] |].
  intros x Hx. destruct (decide (x = u)) as [-> |]; [apply lookup_insert_eq | rewrite lookup_insert_ne by done; by apply C].
Qed.
Lemma calm_spawned t u L st s s' a a' :
  calm (Some t) None L st s a -> is_Some (L !! t) -> L !! u = None -> inv (<[u := ready]> L) st None s' a' -> calm (Some t) None (<[u := ready]> L) st s' a'.
Proof.
  intros C Ht Hu I. destruct (calm_unfinished _ _ _ _ _ _ _ C Ht) as [-> H1]. split; [done | | | done].
  - apply map_Forall_insert_2; [| apply C]. apply stable_ready. intros [= ->]. rewrite Hu in Ht. by destruct Ht.
  - split; [done |]. intros H. rewrite lookup_insert_None in H. destruct H as [H _]. rewrite H in H1. by destruct H1.
Qed.
Lemma calm_same cur pn L st s s' a a' : calm cur pn L st s a -> inv L st pn s' a' -> calm cur pn L st s' a'.
Proof. intros [_ HS HF HP] I. by split. Qed.
(** The thread that the scheduler has picked runs. *)
Lemma calm_run pn t L st s s' a a' : calm None pn L st s a -> is_Some (L !! t) -> inv (<[t := running]> L) st None s' a' -> calm (Some t) None (<[t := running]> L) st s' a'.
Proof.
  intros C Ht I. split; [done | | eapply finished_dom; [by apply insert_dom | apply C] | done].
  eapply settled_except; [apply C | intros u Hu; naive_solver |]. unfold stable_at. rewrite decide_True by done. by left.
Qed.

(** What waits for nothing of the simulator. *)
Definition stuck_at (t : Z) (pl : place) : Prop := exists k, pl = parked t k false.
Lemma settled_stuck L t pl : settled None L -> L !! t = Some pl -> pl_run pl = false -> pl_tm pl = None -> stuck_at t pl.
Proof.
  intros HS Ht Hr Htm. pose proof (HS t pl Ht) as H. unfold stable_at in H. cbn in H. destruct H as [-> | [-> | (k & [] & ->)]]; try done. by exists k.
Qed.

Lemma inv_no_timers L st pn s a : inv L st pn s a -> tq_IsEmpty (sm_timers s) = true <-> forall t, L !! t ≫= pl_tm = None.
Proof.
  intros I. destruct (iv_tm _ _ _ _ _ I) as (b & P & Hh & HP). rewrite (tq_IsEmpty_ok _ _ _ (tq_history_ok _ _ _ Hh)), bool_decide_eq_true. split.
  - intros -> t. by rewrite <- HP, lookup_empty.
  - intros H. apply map_eq. intros t. rewrite lookup_empty. specialize (HP t). rewrite H in HP. by destruct (P !! t).
Qed.
Lemma inv_no_runnable L st pn s a : inv L st pn s a -> runnable a = ∅ <-> forall t pl, L !! t = Some pl -> pl_run pl = false.
Proof.
  intros I. split.
  - intros He t pl Ht. destruct (pl_run pl) eqn:Hr; [| done]. apply (runnable_at _ _ _ _ _ _ _ I Ht) in Hr. rewrite He in Hr. set_solver.
  - intros H. apply set_eq. intros t. rewrite (iv_run _ _ _ _ _ I). split; [| set_solver]. destruct (L !! t) as [pl |] eqn:Ht; [| done]. cbn. intros [= Hr]. rewrite (H t pl Ht) in Hr. done.
Qed.
Lemma inv_alone L st pn s a : inv L st pn s a -> sm_alive s = [] <-> L = ∅.
Proof.
  intros I. split.
  - intros He. apply map_eq. intros t. rewrite lookup_empty. apply eq_None_not_Some. intros Ht%(iv_alive _ _ _ _ _ I). rewrite He in Ht. by apply elem_of_nil in Ht.
  - intros ->. apply elem_of_nil_inv. intros t Ht%(iv_alive _ _ _ _ _ I). rewrite lookup_empty in Ht. by destruct Ht.
Qed.
Lemma ready_runnable L st pn s a t : inv L st pn s a -> L !! t = Some ready -> runnable a <> ∅.
Proof. intros I Ht. pose proof (proj2 (runnable_at _ _ _ _ _ _ _ I Ht) eq_refl). set_solver. Qed.
End calm.

Section poll.
Context (Pr : Program) (Pm : SimParams) (removes : bool).
Implicit Types (s : Sim (prog_state Pr)) (a : abs) (L : places).
Abbreviation wp := (kwp removes).

Lemma wp_PollTimers L st pn s a (Q : bool -> Sim (prog_state Pr) -> abs -> Prop) E :
  calm None pn L st s a ->
  (forall b s' a' L', calm None pn L' st s' a' -> woken L L' -> (b = true -> exists t, L' !! t = Some ready) ->
     (b = false -> s' = s /\ tq_Poll (sm_timers s) (sm_ticks s * sp_tick Pm) = Fine (None, sm_timers s)) -> Q b s' a') ->
  wp (PollTimers Pr Pm) s a Q E.
Proof.
  intros C HQ. apply kwp_bind, kwp_get, kwp_bind, kwp_get. eapply (wp_poll_loop Pr); [apply C | apply C | lia |].
  intros b s' a' L' I HS Hw Hb Hf. eapply HQ; [by eapply calm_woken | done | |].
  - intros Ht. by destruct (Hb Ht).
  - intros Ht. by destruct (Hf Ht).
Qed.
End poll.

(** ** The end of threads *)

(** The queue and the timer of a thread are those that its fields say. *)
Definition coherent (pl : place) : Prop :=
  match pl_sh pl with
  | Free | Calling _ => pl_fx pl = None /\ pl_tm pl = None
  | Asleep => pl_fx pl = None /\ is_Some (pl_tm pl)
  | ParkedAt k timed => pl_fx pl = Some k /\ if timed then is_Some (pl_tm pl) else pl_tm pl = None
  | DeadAt k => pl_fx pl = Some k /\ pl_tm pl = None
  end.
Lemma stable_coherent cur t pl : stable_at cur t pl -> coherent pl.
Proof. unfold stable_at. case_decide; [intros [-> | [c ->]] | intros [-> | [-> | (k & [] & ->)]]]; cbn; eauto. Qed.

Definition all_dead (L : places) : Prop := map_Forall (fun _ pl => exists k, pl = dead k) L.

(** [SysAbortEx] is thrown: the simulation is over, everybody is where it was. *)
Definition aborted {U} (Pm : SimParams) (s : Sim U) (a : abs) : Prop :=
  sp_isolated Pm = true /\ exists L st, inv L (Some st) None s a /\ map_Forall (fun _ => coherent) L /\ st <> StOk /\ (st = StDeadlock -> L <> ∅ /\ all_dead L).

Section ends.
Context (Pr : Program) (Pm : SimParams) (removes : bool).
Implicit Types (s : Sim (prog_state Pr)) (a : abs) (L : places).
Abbreviation wp := (kwp removes).

Lemma aborted_calm cur L st st' s s' a : sp_isolated Pm = true -> calm cur None L st s a -> st' <> StOk -> st' <> StDeadlock -> inv L (Some st') None s' a -> aborted Pm s' a.
Proof.
  intros Hi C H1 H2 I. split; [done |]. exists L, st'. split_and!; [done | | done | done]. intros t pl Ht. eapply stable_coherent, (ca_settled _ _ _ _ _ _ C t pl Ht).
Qed.

Lemma wp_BurnThread L st s a t pl (Q : () -> Sim (prog_state Pr) -> abs -> Prop) E :
  inv L st None s a -> removes = true -> L !! t = Some pl -> coherent pl ->
  (forall s' a', inv (delete t L) st None s' a' -> Q () s' a') -> wp (BurnThread Pr t) s a Q E.
Proof.
  intros I Hrm Ht Hc HQ. apply kwp_bind. eapply (wp_kthread Pr); [done .. |]. intros th Hth (Hsh & _).
  apply kwp_bind. eapply (wp_Remove Pr); [done .. |]. intros a1 I1.
  assert (Hend : forall s' a' pl', inv (<[t := pl']> L) st None s' a' -> pl_run pl' = false -> pl_fx pl' = None -> pl_tm pl' = None ->
            wp (kmod (fun s => sm_set_burnt s (S (sm_burnt s))) ;~ DestroyThread Pr t) s' a' Q E).
  { intros s' a' pl' I' Hr Hf Htm. apply kwp_bind, kwp_mod. eapply (wp_DestroyThread Pr).
    - eapply inv_other; [exact I' | done ..].
    - apply lookup_insert_eq.
    - done.
    - done.
    - done.
    - rewrite delete_insert_eq. auto. }
  assert (Hqueue : forall s' a' pl', inv (<[t := pl']> L) st None s' a' -> pl_run pl' = false -> pl_fx pl' = pl_fx pl -> pl_tm pl' = None ->
            wp ((match th_futex th with Some k => wq_sim_Remove Pr k t | None => kret () end) ;~ kmod (fun s => sm_set_burnt s (S (sm_burnt s))) ;~ DestroyThread Pr t) s' a' Q E).
  { intros s' a' pl' I' Hr Hf Htm. unfold coherent in Hc. assert (Hfx : th_futex th = pl_fx pl) by (destruct (pl_sh pl); cbn in Hsh; destruct_and?; congruence).
    rewrite Hfx. destruct (pl_fx pl) as [k |]; apply kwp_bind.
    - eapply (wp_wq_Remove Pr); [exact I' | apply lookup_insert_eq | done |]. rewrite insert_insert_eq. intros s2 a2 I2. by eapply Hend.
    - apply kwp_ret. by eapply Hend. }
  unfold coherent in Hc. apply kwp_bind. destruct (pl_tm pl) as [al |] eqn:Htm.
  - assert (th_timer th = Some t) as -> by (destruct (pl_sh pl) as [| | | k [] |]; cbn in Hsh; destruct_and?; congruence).
    apply kwp_bind. eapply (wp_tq_Remove Pr); [exact I1 | apply lookup_insert_eq | exact Htm |]. rewrite insert_insert_eq. intros q I2. apply kwp_mod. by eapply Hqueue.
  - assert (th_timer th = None) as -> by (destruct (pl_sh pl) as [| | | k [] |]; cbn in Hsh; destruct_and?; try congruence; match goal with H : is_Some None |- _ => by destruct H end).
    apply kwp_ret. by eapply Hqueue.
Qed.

Lemma wp_burn_all l L st s a (Q : () -> Sim (prog_state Pr) -> abs -> Prop) E :
  inv L st None s a -> removes = true -> base.NoDup l -> (forall t, t ∈ l -> is_Some (L !! t)) -> map_Forall (fun _ => coherent) L ->
  (forall s' a' L', inv L' st None s' a' -> (forall t, L' !! t = if decide (t ∈ l) then None else L !! t) -> Q () s' a') -> wp (kfor Pr l (BurnThread Pr)) s a Q E.
Proof.
  revert L s a. induction l as [| t l IH]; intros L s a I Hrm Hnd Hl Hc HQ; cbn [kfor].
  { apply kwp_ret. eapply HQ; [exact I |]. intros t. rewrite decide_False; [done | apply not_elem_of_nil]. }
  apply list.NoDup_cons in Hnd as [Hnt Hnd]. destruct (Hl t) as [pl Ht]; [by left |].
  apply kwp_bind. eapply wp_BurnThread; [done .. | by eapply Hc |]. intros s' a' I'. eapply IH; [exact I' | done .. | | |].
  - intros u Hu. rewrite lookup_delete_ne by congruence. apply Hl. by right.
  - by apply map_Forall_delete.
  - intros s2 a2 L2 I2 HL2. eapply HQ; [exact I2 |]. intros u. rewrite HL2. destruct (decide (u = t)) as [-> | Hne].
    + rewrite lookup_delete_eq, (decide_True (P := t ∈ t :: l)) by by left. by case_decide.
    + rewrite lookup_delete_ne by done. apply decide_ext. rewrite elem_of_cons. naive_solver.
Qed.

Context (Hrm : sp_isolated Pm = true -> removes = true).

Lemma wp_MainCompleted L s a :
  inv L None None s a -> map_Forall (fun _ => coherent) L -> wp (MainCompleted Pr Pm) s a (fun _ s' a' => good None None s' a') (aborted Pm).
Proof using Hrm.
  intros I Hc. apply kwp_bind.
  assert (Hrest : forall s' a' L', inv L' None None s' a' ->
            wp (alone <~ kget (fun s => bool_decide (sm_alive s = [])); kmisuse Pr alone ;~ CheckMemory Pr Pm ;~ kmod (fun s => sm_set_status s StOk)) s' a' (fun _ s2 a2 => good None None s2 a2) (aborted Pm)).
  { intros s' a' L' I'. apply kwp_bind, kwp_get. case_bool_decide as Hal; [apply kwp_bind, kwp_ret | by apply kwp_bind, kwp_stop].
    apply (inv_alone _ _ _ _ _ I') in Hal as ->. apply kwp_bind, kwp_bind, kwp_get, kwp_bind, kwp_get. destruct (_ && _ && _).
    - eapply (wp_abort Pr); [exact I' |]. intros s2 Hi I2. split; [done |]. exists ∅, StMemoryLeak. by split_and!.
    - apply kwp_ret, kwp_mod. exists ∅, (Some StOk). split; [| done]. split; [by eapply inv_status | done | | done]. split; [by intros [] | done]. }
  destruct (sp_isolated Pm) eqn:Hi; [| by eapply Hrest]. destruct (sp_detached Pm); [| by eapply Hrest].
  apply kwp_bind, kwp_get. cbn [andb]. eapply wp_burn_all; [exact I | auto | apply list.NoDup_filter, I | | done | eauto].
  intros t Ht. rewrite list_elem_of_filter in Ht. apply I, Ht.
Qed.

Lemma wp_ThreadExit t L st s a c :
  calm (Some t) None L st s a -> L !! t = Some (calling c) -> wp (_SysThreadExit Pr Pm t) s a (fun _ s' a' => good None None s' a') (aborted Pm).
Proof using Hrm.
  intros C Ht. destruct (calm_unfinished _ _ _ _ _ _ t C) as [-> H1]; [by rewrite Ht |].
  apply kwp_bind. eapply (wp_Exit Pr); [apply C | exact Ht |]. apply kwp_bind. eapply (wp_kthread Pr); [apply C | exact Ht |]. intros th Hth (_ & _ & Hm).
  apply kwp_bind. eapply (wp_DestroyThread Pr); [apply C | exact Ht | done .. |]. intros s' I'.
  assert (HS : settled None (delete t L)).
  { intros u pu Hu. apply lookup_delete_Some in Hu as [Hne Hu]. pose proof (ca_settled _ _ _ _ _ _ C u pu Hu) as H. unfold stable_at in *. rewrite decide_False in H by congruence. by rewrite decide_False. }
  rewrite Hm. case_bool_decide as Hmain.
  - eapply wp_MainCompleted; [exact I' |]. intros u pu Hu. eapply stable_coherent, (HS u pu Hu).
  - apply kwp_ret. exists (delete t L), None. split; [| done]. split; [done | done | | done]. split; [done |]. rewrite lookup_delete_ne by done. intros H. rewrite H in H1. by destruct H1.
Qed.

Lemma wp_sim_Burn s a : aborted Pm s a -> wp (sim_Burn Pr) s a (fun _ s' a' => exists st, inv ∅ (Some st) None s' a' /\ st <> StOk) (fun _ _ => False).
Proof using Hrm.
  intros (Hi & L & st & I & Hc & Hst & _). apply kwp_bind, kwp_get, kwp_bind. eapply wp_burn_all; [exact I | auto | apply I | intros t; apply I | done |].
  intros s' a' L' I' HL'. assert (L' = ∅) as ->.
  { apply map_eq. intros t. rewrite HL', lookup_empty. case_decide as Ht; [done |]. rewrite (iv_alive _ _ _ _ _ I) in Ht. by apply eq_None_not_Some. }
  apply kwp_bind, kwp_get. rewrite (proj2 (inv_no_timers _ _ _ _ _ I')) by (intros t; by rewrite lookup_empty). apply kwp_ret. by exists st.
Qed.
End ends.

(** ** System calls *)

(** What the programs that follow do not do: lock-free sections and context switches to a given
    thread, which not every scheduler has, and to abort with the statuses that only the simulator gives. *)
Definition modest_call (c : syscall) : Prop :=
  match c with
  | ScSwitchTo _ | ScSetLockFree _ | ScRandomNumber => False
  | ScAbort st => st <> StOk /\ st <> StDeadlock
  | _ => True
  end.
Definition modest (Pr : Program) : Prop := forall u t r, modest_call (prog_run Pr u t r).2.

(** After a system call of [t]: does it resume? *)
Definition handled {U} (t : Z) (resume : bool) (s : Sim U) (a : abs) : Prop := if resume then good (Some t) None s a else exists pn, good None pn s a.

Section syscalls.
Context (Pr : Program) (Pm : SimParams) (removes : bool) (Hrm : sp_isolated Pm = true -> removes = true).
Implicit Types (s : Sim (prog_state Pr)) (a : abs) (L : places).
Abbreviation wp := (kwp removes).

Section one.
Context (t : Z) (c : syscall) L (st : option SimStatus) s a (C : calm (Some t) None L st s a) (Ht : L !! t = Some (calling c)).

Lemma at_call : is_Some (L !! t).
Proof using Ht. by rewrite Ht. Qed.

Lemma wp_answer s' a' L' st' r : calm (Some t) None L' st' s' a' -> is_Some (L' !! t) -> wp (answer_now Pr t r) s' a' (handled t) (aborted Pm).
Proof using Type.
  intros C' [pl Hpl]. apply kwp_bind. eapply (wp_touch_thread Pr); [apply C' | exact Hpl | |].
  - intros th _ (Hsh & Hlf & Hm). split_and!; [| done ..]. destruct (pl_sh pl); exact Hsh.
  - intros s2 I2. apply kwp_ret. exists L', st'. split; [by eapply calm_same |]. intros u [= <-]. by rewrite Hpl.
Qed.
(** An operation that leaves every place as it is. *)
Lemma wp_answer_here s' a' r : inv L st None s' a' -> wp (answer_now Pr t r) s' a' (handled t) (aborted Pm).
Proof using C Ht. intros I. eapply wp_answer; [by eapply calm_same | apply at_call]. Qed.

Lemma aborted_here st' s' : sp_isolated Pm = true -> inv L (Some st') None s' a -> st' <> StOk -> st' <> StDeadlock -> aborted Pm s' a.
Proof using C. intros Hi I H1 H2. by eapply (aborted_calm Pr). Qed.

Lemma clock_here : is_Some (mm_threads (sm_memory s) !! t).
Proof using C Ht. eapply inv_clock; [apply C | apply at_call]. Qed.

Lemma wp_Spawn : wp (_SysSpawn Pr Pm t) s a (fun _ s' a' => good (Some t) None s' a') (aborted Pm).
Proof using C Ht.
  pose proof (ca_inv _ _ _ _ _ _ C) as I. pose proof (iv_ids _ _ _ _ _ I t at_call) as Hid.
  apply kwp_bind. eapply (wp_CreateThread Pr); [exact I | rewrite bool_decide_eq_false_2; [done | lia] |].
  intros child s1 Hnew Hchild Hcount I1. apply kwp_bind. eapply (wp_kmem_total Pr); [exact I1 | apply Spawn_total; [apply I1 | lia ..] |].
  intros s2 I2. apply kwp_bind. eapply (wp_add Pr); [exact I2 | by right; right | apply lookup_insert_eq | done .. |].
  rewrite insert_insert_eq. intros a3 I3. apply kwp_ret. exists (<[child := ready]> L), st. split; [eapply calm_spawned; [exact C | apply at_call | done | exact I3] |].
  intros u [= <-]. rewrite lookup_insert_ne; [apply at_call |]. intros ->. by rewrite Ht in Hnew.
Qed.

Lemma wp_Detach id s' : inv L st None s' a -> wp (_SysDetach Pr id) s' a (fun _ s2 a' => a' = a /\ inv L st None s2 a) (aborted Pm).
Proof using Type.
  intros I. apply kwp_bind, kwp_get. destruct (sm_threads s' !! id) as [th |] eqn:Hth; [| by apply kwp_ret].
  pose proof (iv_thread _ _ _ _ _ I id) as Hok. rewrite Hth in Hok. destruct (L !! id) as [pl |] eqn:Hpl; [| done].
  assert (Hwp : wp (kset_thread Pr id (fun th => th_set_parent th None)) s' a (fun _ s2 a' => a' = a /\ inv L st None s2 a) (aborted Pm)).
  { eapply (wp_touch_thread Pr); [exact I | exact Hpl | | done]. intros th' _ (Hsh & Hlf & Hm). split_and!; [| done ..]. destruct (pl_sh pl); exact Hsh. }
  unfold kset_thread, kthread, kwp, kbind, kget, kopt in Hwp. cbn in Hwp. by rewrite Hth in Hwp.
Qed.

(** The call is forgotten. *)
Lemma calm_forget : calm (Some t) None (<[t := running]> L) st s a.
Proof using C Ht.
  eapply calm_stay; [exact C | apply at_call | | by left]. pose proof (ca_inv _ _ _ _ _ _ C) as I.
  destruct (inv_thread_at _ _ _ _ _ _ _ I Ht) as (th & Hth & (Hf & Htm & _) & Hok).
  eapply inv_place; [exact I | exact Ht | done | done | apply (iv_pinned _ _ _ _ _ I) | done .. | | done | | done | | done | done | apply I].
  - by exists th.
  - symmetry. apply (runnable_at _ _ _ _ _ _ _ I Ht).
  - intros k. apply (waits_at _ _ _ _ _ _ _ k I Ht).
Qed.
Lemma wp_Yield s' : inv (<[t := running]> L) st None s' a -> forall cl, cl = Wake t \/ cl = Yield t -> wp (kcall_ Pr cl) s' a (fun _ s2 a' => exists pn, good None pn s2 a') (aborted Pm).
Proof using C Ht.
  intros I cl Hcl. eapply (wp_add Pr); [exact I | naive_solver | apply lookup_insert_eq | done .. |]. rewrite insert_insert_eq. intros a' I'. exists None. eexists _, st. split; [| done].
  eapply (calm_leave ready); [exact C | apply at_call | exact I' | by left | by left].
Qed.

Lemma wp_SyncCall act : wp (_SysSync Pr t act) s a (fun _ s' a' => exists pn, good None pn s' a') (aborted Pm).
Proof using C Ht.
  apply kwp_bind. eapply (wp_touch_thread Pr); [apply calm_forget | apply lookup_insert_eq | intros th _ Hok; exact Hok |]. intros s' I'.
  eapply (wp_Interrupt Pr); [exact I' | apply lookup_insert_eq | done .. |]. rewrite insert_insert_eq. intros a' I2. exists (Some t). eexists _, st. split; [| done].
  eapply (calm_leave ready); [exact C | apply at_call | exact I2 | by left | by right].
Qed.

Lemma wp_Sleep s' d : inv L st None s' a -> wp (_SysSleep Pr t d) s' a (fun _ s' a' => exists pn, good None pn s' a') (aborted Pm).
Proof using C Ht.
  intros I. apply kwp_bind. eapply (wp_AddTimer Pr); [exact I | exact Ht | done |]. intros s1 I1.
  eapply (wp_set_thread Pr _ _ _ _ _ _ t _ Asleep); [exact I1 | apply lookup_insert_eq | by intros th _ (_ & Hok) |]. rewrite insert_insert_eq.
  intros s2 I2. exists None. eexists _, st. split; [| done]. eapply (calm_leave (sleeping t)); [exact C | apply at_call | exact I2 | by right; left | by left].
Qed.

(** A wait that ends at once. *)
Lemma wp_wait_over cs : wp (ScheduleWaiter Pr t cs) s a (fun _ s' a' => exists pn, good None pn s' a') (aborted Pm).
Proof using C Ht.
  eapply (wp_ScheduleWaiter Pr); [apply calm_forget | apply lookup_insert_eq | done .. |]. rewrite insert_insert_eq. intros s' a' I'. exists None. eexists _, st. split; [| done].
  eapply (calm_leave ready); [exact C | apply at_call | exact I' | by left | by left].
Qed.

Lemma wp_GetFutexValue v loc (Q : Z -> Sim (prog_state Pr) -> abs -> Prop) E s' a' : (forall z, Q z s' a') -> wp (GetFutexValue Pr v loc) s' a' Q E.
Proof using Type.
  intros HQ. unfold GetFutexValue, kmisuse. destruct (loc_type loc).
  - apply kwp_bind. destruct (_ =? _); [by apply kwp_ret, kwp_ret, HQ | by apply kwp_stop].
  - apply kwp_bind. destruct (_ =? _); [apply kwp_ret, kwp_bind | by apply kwp_stop]. destruct (_ =? _); [apply kwp_ret | by apply kwp_stop].
    destruct (loc_part loc); [by apply kwp_stop | by apply kwp_ret, HQ ..].
  - by apply kwp_ret, HQ.
Qed.

Lemma wp_FutexWait loc old d type :
  c = match d with None => ScFutexWait loc old type | Some d => ScFutexWaitTimed loc old d type end ->
  wp (_SysFutexWait Pr Pm t loc old d type) s a (fun _ s' a' => exists pn, good None pn s' a') (aborted Pm).
Proof using C Ht.
  intros Hc. apply kwp_bind.
  assert (Hwait : wp (v <~ kmem Pr Pm (fun m => GetShadowAtomicVar m (loc_atomic loc));
    value <~ GetFutexValue Pr v loc;
    if negb (value =? old) then ScheduleWaiter Pr t CsOk
    else
      GetFutex Pr (loc_key loc) ;~
      wq_sim_Push Pr (loc_key loc) t ;~
      (match d with Some d => AddTimer Pr t d (FutexTimer t) | None => kret () end) ;~
      kset_thread Pr t (fun th => th_set_wait th TsParked (Some (loc_key loc)) ((fun _ => t) <$> d))) s a (fun _ s' a' => exists pn, good None pn s' a') (aborted Pm)).
  { apply kwp_bind. eapply (wp_kmem Pr); [apply C | apply tame_atomic | | by intros s' Hi I'; apply (aborted_here StInvalidMemoryAccess)].
    intros v _ _. apply kwp_bind, wp_GetFutexValue. intros z. destruct (negb _); [apply wp_wait_over |].
    apply kwp_bind. eapply (wp_GetFutex Pr); [apply C |]. intros s1 w I1 Hw. apply kwp_bind. eapply (wp_sim_Push Pr); [exact I1 | exact Hw | exact Ht | done .. |].
    intros s2 a2 I2. apply kwp_bind. set (timed := bool_decide (is_Some d)).
    assert (Hend : forall s3, inv (<[t := with_tm (if timed then Some (FutexTimer t) else None) (with_fx (Some (loc_key loc)) (calling c))]> L) st None s3 a2 ->
              wp (kset_thread Pr t (fun th => th_set_wait th TsParked (Some (loc_key loc)) ((fun _ => t) <$> d))) s3 a2 (fun _ s' a' => exists pn, good None pn s' a') (aborted Pm)).
    { intros s3 I3. eapply (wp_set_thread Pr _ _ _ _ _ _ t _ (ParkedAt (loc_key loc) timed)); [exact I3 | apply lookup_insert_eq | |].
      - intros th _ ((_ & _ & Hcall) & Hok). split; [| exact Hok]. split_and!; [done | done | by destruct d |]. intros Hd. destruct d; [done |]. exists loc, old, type. cbn. congruence.
      - rewrite insert_insert_eq. intros s4 I4. exists None. eexists _, st. split; [| done].
        eapply (calm_leave (parked t (loc_key loc) timed)); [exact C | apply at_call | exact I4 | right; right; by eexists _, _ | by left]. }
    destruct d as [d |].
    - eapply (wp_AddTimer Pr); [exact I2 | apply lookup_insert_eq | done |]. rewrite insert_insert_eq. intros s3 I3. by apply Hend.
    - apply kwp_ret. by apply Hend. }
  destruct (VulnerableToSpuriousWakeup type); [| by apply kwp_ret]. eapply (wp_spurious Pr); [by left |]. intros []; [apply wp_wait_over | exact Hwait].
Qed.
End one.
End syscalls.

(** Waking the waiters of a futex. *)
Section wake_all.
Context (Pr : Program) (Pm : SimParams) (removes : bool).
Implicit Types (s : Sim (prog_state Pr)) (a : abs) (L : places).
Abbreviation wp := (kwp removes).

Definition waiters_of (k : FutexKey) L : nat := size (filter (fun p => pl_fx p.2 = Some k) L).
Lemma waiters_woken k L u pl : L !! u = Some pl -> pl_fx pl = Some k -> waiters_of k L = S (waiters_of k (<[u := ready]> L)).
Proof.
  intros Hu Hk. unfold waiters_of. rewrite map_filter_insert_False by done. rewrite map_filter_delete, map_size_delete.
  assert (HF : filter (fun p : Z * place => pl_fx p.2 = Some k) L !! u = Some pl) by by apply map_lookup_filter_Some. rewrite HF.
  enough (size (filter (fun p : Z * place => pl_fx p.2 = Some k) L) <> 0%nat) by lia. intros H0%map_size_empty_inv. by rewrite H0, lookup_empty in HF.
Qed.
Lemma waiters_few k L st pn s a : inv L st pn s a -> (waiters_of k L <= sim_kMaxThreads)%nat.
Proof.
  intros I. unfold waiters_of. etrans; [apply map_subseteq_size, map_filter_subseteq |]. change sim_kMaxThreads with kClockSize. apply size_bounded.
  intros t Ht. pose proof (iv_ids _ _ _ _ _ I t Ht). pose proof (md_count _ (iv_mem _ _ _ _ _ I)). lia.
Qed.

Lemma wp_sim_wake_waiter t u k pl L st s s' a a' (Q : () -> Sim (prog_state Pr) -> abs -> Prop) E :
  calm (Some t) None L st s a -> is_Some (L !! t) -> L !! u = Some pl -> pl_fx pl = Some k -> inv (<[u := with_fx None pl]> L) st None s' a' ->
  (forall s2 a2, calm (Some t) None (<[u := ready]> L) st s2 a2 -> u <> t -> Q () s2 a2) -> wp (sim_Wake Pr Pm (Some t) u WFutexWake) s' a' Q E.
Proof.
  intros C Ht Hu Hk I HQ. pose proof (ca_settled _ _ _ _ _ _ C u pl Hu) as HS. unfold stable_at in HS.
  case_decide as Hne; [by destruct HS as [-> | [c ->]] |]. destruct HS as [-> | [-> | (k' & timed & ->)]]; try done. injection Hk as ->.
  assert (Hut : u <> t) by congruence. eapply (wp_Wake Pr); [exact I | apply lookup_insert_eq | by econstructor | |].
  - intros w [= <-]. by rewrite lookup_insert_ne.
  - rewrite insert_insert_eq. intros s2 a2 I2. apply HQ; [| done]. eapply calm_other; [exact C | by rewrite Hu | done | exact I2].
Qed.

Lemma wp_wake_all fuel t k c L st s a :
  calm (Some t) None L st s a -> L !! t = Some (calling c) -> has_futex Pr k s -> (waiters_of k L < fuel)%nat ->
  wp (wake_all Pr Pm fuel t k) s a (fun _ s' a' => exists L', calm (Some t) None L' st s' a' /\ L' !! t = Some (calling c)) (aborted Pm).
Proof.
  revert L s a. induction fuel as [| fuel IH]; intros L s a C Ht [w Hw] Hfuel; [lia |]. apply kwp_bind. eapply (wp_Pop Pr); [apply C | exact Hw | |].
  - intros s' a' I' _. apply kwp_ret. exists L. split; [by eapply calm_same | done].
  - intros s' a' u pl w' Hu Hk I' Hw'. apply kwp_bind. eapply (kwp_frame removes (has_futex Pr k)); [| apply frame_Wake | by exists w'].
    eapply wp_sim_wake_waiter; [exact C | by rewrite Ht | exact Hu | exact Hk | exact I' |]. intros s2 a2 C2 Hne Hf. eapply IH; [exact C2 | by rewrite lookup_insert_ne | done |].
    rewrite (waiters_woken _ _ _ _ Hu Hk) in Hfuel. lia.
Qed.

Lemma wp_FutexWake t c L st s a loc count :
  calm (Some t) None L st s a -> L !! t = Some (calling c) ->
  wp (_SysFutexWake Pr Pm t loc count) s a (fun _ s' a' => exists L', calm (Some t) None L' st s' a' /\ L' !! t = Some (calling c)) (aborted Pm).
Proof.
  intros C Ht. apply kwp_bind. eapply (wp_GetFutex Pr); [apply C |]. intros s1 w I1 Hw. assert (C1 : calm (Some t) None L st s1 a) by by eapply calm_same.
  destruct (count =? 1); [| destruct (count =? 0); [| by apply kwp_stop]].
  - apply kwp_bind. eapply (wp_Pop Pr); [apply C1 | exact Hw | |].
    + intros s' a' I' _. apply kwp_ret. exists L. split; [by eapply calm_same | done].
    + intros s' a' u pl w' Hu Hk I' Hw'. eapply wp_sim_wake_waiter; [exact C1 | by rewrite Ht | exact Hu | exact Hk | exact I' |]. intros s2 a2 C2 Hne. eexists. split; [exact C2 | by rewrite lookup_insert_ne].
  - eapply wp_wake_all; [exact C1 | done | by exists w |]. pose proof (waiters_few (loc_key loc) _ _ _ _ _ I1). lia.
Qed.
End wake_all.

Section handler.
Context (Pr : Program) (Pm : SimParams) (removes : bool) (Hrm : sp_isolated Pm = true -> removes = true).
Implicit Types (s : Sim (prog_state Pr)) (a : abs) (L : places).
Abbreviation wp := (kwp removes).

Lemma kwp_then_stop {A} (m : K (prog_state Pr) A) t s a :
  wp m s a (fun _ s' a' => exists pn, good None pn s' a') (aborted Pm) -> wp (m ;~ kret false) s a (handled t) (aborted Pm).
Proof. intros H. eapply kwp_seq; [exact H |]. intros x s' a' H'. by apply kwp_ret. Qed.

(** A handler of the running thread: it resumes, or it has stopped, and everything is in its place. *)
Lemma wp_handler t c L st s a : calm (Some t) None L st s a -> L !! t = Some (calling c) -> modest_call c -> wp (sys_handler Pr Pm t c) s a (handled t) (aborted Pm).
Proof using Hrm.
  intros C Ht Hc. assert (Hat : is_Some (L !! t)) by by rewrite Ht. pose proof (ca_inv _ _ _ _ _ _ C) as I.
  assert (Hans : forall s' r, inv L st None s' a -> wp (answer_now Pr t r) s' a (handled t) (aborted Pm)) by (intros s' r I'; by eapply wp_answer_here).
  assert (Hab : forall s', sp_isolated Pm = true -> inv L (Some StInvalidMemoryAccess) None s' a -> aborted Pm s' a) by (intros s' Hi I'; by eapply aborted_here).
  pose proof (clock_here Pr t c L st s a C Ht) as Hclk.
  destruct c; cbn [modest_call] in Hc; try done; cbn [sys_handler].
  - by apply Hans.
  - eapply kwp_seq; [by eapply wp_Spawn |]. intros id s' a' (L' & st' & C' & Ht'). eapply wp_answer; eauto.
  - eapply kwp_seq; [by eapply wp_Detach |]. intros _ s' a' [-> I']. by apply Hans.
  - apply kwp_then_stop. eapply wp_Yield; [done .. | apply (calm_forget _ _ _ _ _ _ _ C Ht) | by right].
  - apply kwp_bind, kwp_bind, kwp_get. destruct (int64_ok _); [apply kwp_ret | by apply kwp_stop]. apply kwp_then_stop. by eapply wp_Sleep.
  - apply kwp_then_stop. by eapply wp_Sleep.
  - apply kwp_then_stop. by eapply wp_SyncCall.
  - apply kwp_bind, kwp_bind. eapply (wp_kmem Pr); [exact I | by apply tame_Access | | exact Hab]. intros [o m] _ Hk. apply kwp_bind, kwp_mod. cbn [fst snd] in *.
    assert (I' : inv L st None (sm_set_memory s m) a) by by eapply inv_other. destruct o; [| by apply kwp_ret, Hans].
    eapply (wp_abort Pr); [exact I' |]. intros s' Hi I2. by eapply aborted_here.
  - apply kwp_then_stop. by eapply wp_FutexWait.
  - apply kwp_then_stop. by eapply wp_FutexWait.
  - eapply kwp_seq; [by eapply wp_FutexWake |]. intros _ s' a' (L' & C' & Ht'). eapply wp_answer; [exact C' | by rewrite Ht'].
  - apply kwp_bind, kwp_mod, kwp_bind. assert (I' : inv L st None (sm_set_heap s (sm_allocs s + 1) (sm_frees s)) a) by by eapply inv_other.
    destruct (sp_malloc_hb Pm); [| by apply kwp_ret, Hans]. eapply (wp_kmem_ Pr); [exact I' | by apply tame_Malloc | | exact Hab]. intros s' I2. by apply Hans.
  - apply kwp_bind, kwp_mod, kwp_bind. set (s1 := sm_set_heap _ _ _). assert (I' : inv L st None s1 a) by by eapply inv_other.
    destruct (sp_malloc_hb Pm); [| by apply kwp_ret, Hans]. eapply (wp_kmem_ Pr); [exact I' | by apply tame_Free | | exact Hab]. intros s' I2. by apply Hans.
  - apply kwp_bind. case_bool_decide as Hn; [apply kwp_ret | by apply kwp_stop]. case_decide; [by apply Hans |]. apply kwp_bind. eapply (wp_RandomChoice Pr); [lia |]. intros z _. by apply Hans.
  - apply kwp_bind. eapply (wp_spurious Pr); [by right |]. intros b. by apply Hans.
  - eapply (wp_abort Pr); [exact I |]. intros s' Hi I'. eapply aborted_here; naive_solver.
  - apply kwp_bind. eapply (wp_hint Pr); [right; by eexists |]. by apply Hans.
  - apply kwp_bind. eapply (wp_hint Pr); [by left |]. by apply Hans.
  - by apply Hans.
  - apply kwp_bind, kwp_get. by apply Hans.
  - apply kwp_bind. eapply (wp_kthread Pr); [exact I | exact Ht |]. intros th _ _. apply kwp_bind.
    eapply (wp_touch_thread Pr); [exact I | exact Ht | intros th' _ Hok; exact Hok |]. intros s' I'. by apply Hans.
  - apply kwp_then_stop. eapply kwp_mono; [by eapply wp_ThreadExit | | done]. intros x s' a' H. by exists None.
Qed.

Lemma wp_HandleSystemCall t c L st s a :
  calm (Some t) None L st s a -> L !! t = Some (calling c) -> modest_call c -> wp (HandleSystemCall Pr Pm t c) s a (handled t) (aborted Pm).
Proof using Hrm.
  intros C Ht Hc. eapply kwp_seq; [by eapply wp_handler |]. intros [] s' a' H; apply kwp_bind; [| by apply kwp_ret, kwp_ret].
  destruct H as (L' & st' & C' & H'). destruct (H' t eq_refl) as [pl Hpl]. eapply (wp_touch_thread Pr); [apply C' | exact Hpl | |].
  - intros th _ (Hsh & Hlf & Hm). split_and!; [| done ..]. destruct (pl_sh pl); exact Hsh.
  - intros s2 I2. apply kwp_ret. exists L', st'. split; [by eapply calm_same | done].
Qed.
End handler.

(** ** Running threads *)

Section iter.
Context (Pr : Program) (Pm : SimParams) (removes : bool) (Hrm : sp_isolated Pm = true -> removes = true) (HM : modest Pr) (Htick : 0 < sp_tick Pm).
Implicit Types (s : Sim (prog_state Pr)) (a : abs) (L : places).
Abbreviation wp := (kwp removes).
Abbreviation rests := (fun _ s' a' => exists pn, good None pn s' a').

Lemma th_ok_running t th pl cur : th_ok t th pl -> stable_at cur t pl -> cur = Some t -> th_shape t th Free.
Proof using Type. intros [Hsh _] HS ->. unfold stable_at in HS. rewrite decide_True in HS by done. destruct HS as [-> | [c ->]]; cbn in Hsh; [done | by destruct Hsh as (? & ? & _)]. Qed.

Lemma wp_run_thread t L st s a (Q : syscall -> Sim (prog_state Pr) -> abs -> Prop) E :
  calm (Some t) None L st s a -> is_Some (L !! t) ->
  (forall c s', calm (Some t) None (<[t := calling c]> L) st s' a -> modest_call c -> Q c s' a) -> wp (run_thread Pr t) s a Q E.
Proof using HM.
  intros C [pl Hpl] HQ. pose proof (ca_settled _ _ _ _ _ _ C t pl Hpl) as HS. pose proof (ca_inv _ _ _ _ _ _ C) as I.
  apply kwp_bind. eapply (wp_kthread Pr); [exact I | exact Hpl |]. intros th _ _. apply kwp_bind.
  eapply (wp_touch_thread Pr); [exact I | exact Hpl | |].
  { intros th' _ (Hsh & Hok). split; [| exact Hok]. unfold stable_at in HS. rewrite decide_True in HS by done. by destruct HS as [-> | [c ->]]. }
  intros s1 I1. apply kwp_bind, kwp_get, kwp_bind, kwp_mod. set (p := prog_run Pr _ _ _). assert (I2 : inv L st None (sm_set_user s1 p.1) a) by by eapply inv_other.
  apply kwp_bind. eapply (wp_set_thread Pr _ _ _ _ _ _ t _ (Calling p.2)); [exact I2 | exact Hpl | |].
  { intros th' _ Hok. pose proof (th_ok_running _ _ _ _ Hok HS eq_refl) as [? ?]. destruct Hok as (_ & ? & ?). by split_and!. }
  intros s3 I3. apply kwp_ret, HQ; [| apply HM]. eapply (calm_stay (calling p.2)); [exact C | by rewrite Hpl | | by right; eexists].
  unfold stable_at in HS. rewrite decide_True in HS by done. by destruct HS as [-> | [c ->]].
Qed.

Lemma wp_resume_loop fuel t s a : good (Some t) None s a -> wp (resume_loop Pr Pm fuel t) s a rests (aborted Pm).
Proof using Hrm HM.
  revert s a. induction fuel as [| fuel IH]; intros s a (L & st & C & Ht); [by apply kwp_stop |]. apply kwp_bind.
  eapply wp_run_thread; [exact C | by apply Ht |]. intros c s' C' Hc. eapply kwp_seq; [by eapply wp_HandleSystemCall; [done | exact C' | apply lookup_insert_eq | exact Hc] |].
  intros [] s2 a2 H2; [by apply IH | by apply kwp_ret].
Qed.

Lemma wp_digest d L st pn s a (Q : () -> Sim (prog_state Pr) -> abs -> Prop) E : inv L st pn s a -> (forall s', inv L st pn s' a -> Q () s' a) -> wp (digest_feed Pr d) s a Q E.
Proof using Type. intros I HQ. apply kwp_mod, HQ. by eapply inv_other. Qed.

Lemma wp_CompleteSync t L st s a : calm (Some t) None L st s a -> is_Some (L !! t) -> wp (CompleteSync Pr Pm t) s a (fun _ s' a' => good (Some t) None s' a') (aborted Pm).
Proof using Type.
  intros C [pl Hpl]. pose proof (ca_inv _ _ _ _ _ _ C) as I.
  assert (Hgood : forall s', inv L st None s' a -> good (Some t) None s' a).
  { intros s' I'. exists L, st. split; [by eapply calm_same |]. intros u [= <-]. by rewrite Hpl. }
  assert (Hset : forall s' f, inv L st None s' a -> wp (kset_thread Pr t (fun th => th_set_sync th (f th).1 (f th).2)) s' a (fun _ s2 a' => a' = a /\ inv L st None s2 a) (aborted Pm)).
  { intros s' f I'. eapply (wp_touch_thread Pr); [exact I' | exact Hpl | | done]. intros th _ (Hsh & Hok). split; [| exact Hok]. destruct (pl_sh pl); exact Hsh. }
  apply kwp_bind. eapply (wp_kthread Pr); [exact I | exact Hpl |]. intros th _ _. eapply kwp_seq; [exact (Hset s (fun th => (None, th_load th)) I) |].
  intros _ s1 a1 [-> I1]. destruct (th_action th) as [act |]; [| by apply kwp_ret, Hgood].
  apply kwp_bind. unfold sim_Sync. apply kwp_bind. eapply (wp_kmem Pr); [exact I1 | apply tame_Sync; eapply inv_clock; [exact I1 | by rewrite Hpl] | |].
  - intros [r m] _ Hk. cbn [snd] in Hk. apply kwp_bind, kwp_mod, kwp_bind. cbn [fst snd]. assert (I2 : inv L st None (sm_set_memory s1 m) a) by by eapply inv_other.
    assert (Hload : forall s2, inv L st None s2 a -> wp (kset_thread Pr t (fun th => th_set_sync th (th_action th) r)) s2 a (fun _ s' a' => good (Some t) None s' a') (aborted Pm)).
    { intros s2 I3. eapply kwp_mono; [exact (Hset s2 (fun th => (th_action th, r)) I3) | | done]. intros _ s3 a3 [-> I4]. by apply Hgood. }
    destruct (_ && _); [eapply wp_digest; [exact I2 |]; intros s2 I3; by apply kwp_ret, Hload | by apply kwp_ret, kwp_ret, Hload].
  - intros s2 Hi I2. by apply (aborted_calm Pr Pm (Some t) L st StInvalidMemoryAccess s s2 a).
Qed.

Lemma wp_iter_thread fuel t s a : good (Some t) None s a -> wp (iter_thread Pr Pm fuel t) s a rests (aborted Pm).
Proof using Hrm HM.
  intros (L & st & C & Ht). apply kwp_bind. eapply wp_digest; [apply C |]. intros s1 I1. eapply kwp_seq; [eapply wp_CompleteSync; [by eapply calm_same | by apply Ht] |].
  intros x s2 a2 H2. by apply wp_resume_loop.
Qed.

(** ** The loop *)

Lemma wp_kticks d L st pn s a (Q : () -> Sim (prog_state Pr) -> abs -> Prop) E :
  inv L st pn s a -> (let s' := sm_set_time s (sm_ticks s + d) (sm_iter s) in inv L st pn s' a -> Q () s' a) -> wp (kticks Pr Pm d) s a Q E.
Proof using Type. intros I HQ. apply kwp_bind, kwp_get. destruct (int64_ok _); [| by apply kwp_stop]. apply kwp_mod, HQ. by eapply inv_other. Qed.

(** [IsDeadlock] tells that nobody can go on, and somebody has not completed. *)
Lemma wp_IsDeadlock pn L st s a (Q : bool -> Sim (prog_state Pr) -> abs -> Prop) E :
  calm None pn L st s a -> (forall b, b = true <-> L <> ∅ /\ map_Forall stuck_at L -> Q b s a) -> wp (IsDeadlock Pr) s a Q E.
Proof using Type.
  intros C HQ. pose proof (ca_inv _ _ _ _ _ _ C) as I. apply kwp_bind, (wp_IsIdle Pr), kwp_bind, kwp_get, kwp_ret, HQ.
  rewrite !andb_true_iff, negb_true_iff, bool_decide_eq_true, bool_decide_eq_false, (inv_no_runnable _ _ _ _ _ I), (inv_no_timers _ _ _ _ _ I), (inv_alone _ _ _ _ _ I). split.
  - intros (Hr & Htm & Hne). split; [done |]. intros t pl Ht. eapply settled_stuck; [apply C | exact Ht | by eapply Hr |]. specialize (Htm t). by rewrite Ht in Htm.
  - intros [Hne HS]. split_and!; [| | done].
    + intros t pl Ht. by destruct (HS t pl Ht) as [k ->].
    + intros t. destruct (L !! t) as [pl |] eqn:Ht; [| done]. by destruct (HS t pl Ht) as [k ->].
Qed.

Lemma wp_sim_Iter fuel pn s a : good None pn s a -> runnable a <> ∅ -> wp (sim_Iter Pr Pm fuel) s a rests (aborted Pm).
Proof using Hrm HM.
  intros (L & st & C & _) Hr. apply kwp_bind, kwp_get, kwp_bind, kwp_mod, kwp_bind. set (s1 := sm_set_time _ _ _). eapply wp_kticks; [eapply (inv_other Pr _ _ _ s s1); [apply C | done ..] |].
  intros s2 I2. pose proof (calm_same _ _ _ _ _ _ _ _ C I2) as C2. clearbody s2.
  assert (Hnext : forall s' a' L', calm None pn L' st s' a' -> (exists t, L' !! t = Some ready) -> wp (next <~ kPickNext Pr; iter_thread Pr Pm fuel next) s' a' rests (aborted Pm)).
  { intros s' a' L' C' [u Hu]. apply kwp_bind. eapply (wp_PickNext Pr); [apply C' | eapply ready_runnable; [apply C' | exact Hu] |]. intros t pl a2 Ht Hrun I'.
    apply wp_iter_thread. exists (<[t := running]> L'), st. split; [| intros v [= <-]; rewrite lookup_insert_eq; by eexists].
    eapply calm_run; [exact C' | by rewrite Ht |]. pose proof (ca_settled _ _ _ _ _ _ C' t pl Ht) as HS. unfold stable_at in HS. cbn in HS. destruct HS as [-> | [-> | (k & timed & ->)]]; [exact I' | done | done]. }
  assert (Hready : exists t, L !! t = Some ready).
  { apply set_choose_L in Hr as [t Hin]. apply (iv_run _ _ _ _ _ (ca_inv _ _ _ _ _ _ C)) in Hin. destruct (L !! t) as [pl |] eqn:Ht; [| done]. exists t.
    pose proof (ca_settled _ _ _ _ _ _ C t pl Ht) as HS. unfold stable_at in HS. cbn in HS. destruct HS as [-> | [-> | (k & timed & ->)]]; done. }
  apply kwp_bind. destruct (_ =? _); [| apply kwp_ret; by eapply Hnext].
  assert (Hdead : forall s' a' L', calm None pn L' st s' a' -> woken L L' -> wp (_ <~ IsDeadlock Pr; kret ()) s' a' (fun _ s3 a3 => wp (next <~ kPickNext Pr; iter_thread Pr Pm fuel next) s3 a3 rests (aborted Pm)) (aborted Pm)).
  { intros s' a' L' C' [_ Hw]. apply kwp_bind. eapply wp_IsDeadlock; [exact C' |]. intros b _. apply kwp_ret. eapply Hnext; [exact C' |]. destruct Hready as [t Ht]. exists t. auto. }
  apply kwp_bind, kwp_get, kwp_bind. destruct (negb _); [| apply kwp_ret; by eapply Hdead].
  apply kwp_bind. eapply (wp_PollTimers Pr); [exact C2 |]. intros b s' a' L' C' Hw _ _. apply kwp_ret. by eapply Hdead.
Qed.
End iter.

Section loop.
Context (Pr : Program) (Pm : SimParams) (removes : bool) (Hrm : sp_isolated Pm = true -> removes = true) (HM : modest Pr) (Htick : 0 < sp_tick Pm).
Implicit Types (s : Sim (prog_state Pr)) (a : abs) (L : places).
Abbreviation wp := (kwp removes).

Lemma wp_report_all l L st pn s a (Q : () -> Sim (prog_state Pr) -> abs -> Prop) E :
  inv L st pn s a -> base.NoDup l -> (forall t, t ∈ l -> exists pl, L !! t = Some pl /\ stuck_at t pl) ->
  (forall s' L', inv L' st pn s' a -> dom L' = dom L -> (forall t pl, L' !! t = Some pl -> if decide (t ∈ l) then exists k, pl = dead k else L !! t = Some pl) -> Q () s' a) ->
  wp (kfor Pr l (report_deadlocked Pr)) s a Q E.
Proof using Type.
  revert L s. induction l as [| t l IH]; intros L s I Hnd Hl HQ; cbn [kfor].
  { apply kwp_ret. eapply HQ; [exact I | done |]. intros t pl Ht. by rewrite decide_False by apply not_elem_of_nil. }
  apply list.NoDup_cons in Hnd as [Hnt Hnd]. destruct (Hl t) as (pl & Ht & k & ->); [by left |].
  apply kwp_bind, kwp_bind. eapply (wp_kthread Pr); [exact I | exact Ht |]. intros th Hth ((Hst & _ & _ & Hcall) & _). destruct (Hcall eq_refl) as (loc & old & type & Hc).
  rewrite Hst, Hc. apply kwp_bind, kwp_ret. eapply (wp_set_thread Pr _ _ _ _ _ _ t _ (DeadAt k)); [exact I | exact Ht | |].
  { intros th' _ ((_ & Hf & Htm & Hcall') & Hok). split; [| exact Hok]. split_and!; [done .. | by apply Hcall']. }
  intros s1 I1. change (with_sh (DeadAt k) (parked t k false)) with (dead k) in I1. eapply IH; [exact I1 | done | |].
  - intros u Hu. rewrite lookup_insert_ne by congruence. apply Hl. by right.
  - intros s2 L2 I2 HD H2. eapply HQ; [exact I2 | rewrite HD; apply insert_dom; by rewrite Ht |]. intros u pu Hu. pose proof (H2 u pu Hu) as H. destruct (decide (u = t)) as [-> | Hne].
    + rewrite decide_True by by left. rewrite decide_False, lookup_insert_eq in H by done. injection H as <-. by exists k.
    + rewrite lookup_insert_ne in H by done. case_decide as Hin; [by rewrite decide_True by by right | rewrite decide_False; [done |]]. rewrite elem_of_cons. naive_solver.
Qed.

Lemma calm_pinned pn L st s a : calm None pn L st s a -> runnable a = ∅ -> pn = None.
Proof using Type. intros C Hr. destruct pn as [x |]; [| done]. by destruct (ready_runnable _ _ _ _ _ x (ca_inv _ _ _ _ _ _ C) (ca_pinned _ _ _ _ _ _ C x eq_refl)). Qed.

Lemma wp_CheckDeadlock L st s a (Q : () -> Sim (prog_state Pr) -> abs -> Prop) :
  calm None None L st s a -> (~ (L <> ∅ /\ map_Forall stuck_at L) -> Q () s a) -> wp (CheckDeadlock Pr Pm) s a Q (aborted Pm).
Proof using Type.
  intros C HQ. pose proof (ca_inv _ _ _ _ _ _ C) as I. apply kwp_bind. eapply (wp_IsDeadlock Pr); [exact C |]. intros [] Hb; [| apply kwp_ret, HQ; by rewrite <- Hb].
  destruct (proj1 Hb eq_refl) as [Hne HS]. apply kwp_bind, kwp_get, kwp_bind. eapply wp_report_all; [exact I | apply I | |].
  - intros t [pl Ht]%(iv_alive _ _ _ _ _ I). exists pl. split; [done | by eapply HS].
  - intros s' L' I' HD HL'. eapply (wp_abort Pr); [exact I' |]. intros s2 Hi I2.
    assert (Hdead : all_dead L').
    { intros t pl Ht. pose proof (HL' t pl Ht) as H. rewrite decide_True in H; [done |]. apply I. apply elem_of_dom. rewrite <- HD. apply elem_of_dom. by exists pl. }
    split; [done |]. exists L', StDeadlock. split_and!; [done | | done |].
    + intros t pl Ht. by destruct (Hdead t pl Ht) as [k ->].
    + intros _. split; [| done]. intros ->. apply Hne. apply dom_empty_inv_L. by rewrite <- HD, dom_empty_L.
Qed.

Lemma quot_bound n d p : 0 < p -> n * p <= d -> n <= Z.quot d p + (if Z.rem d p =? 0 then 0 else 1).
Proof using Type.
  intros Hp H. pose proof (Z.quot_rem' d p) as Hq. destruct (Z.eqb_spec (Z.rem d p) 0); [nia |].
  destruct (Z.le_gt_cases 0 d) as [Hd | Hd]; [pose proof (Z.rem_bound_pos_pos d p Hp Hd); nia |]. pose proof (Z.rem_bound_pos_neg d p Hp ltac:(lia)). nia.
Qed.
Lemma ticks_enough d : d <= ToTicks Pm d * sp_tick Pm.
Proof using Htick.
  unfold ToTicks. set (p := sp_tick Pm) in *. pose proof (Z.quot_rem' d p) as Hq. destruct (Z.eqb_spec (Z.rem d p) 0); [nia |].
  destruct (Z.le_gt_cases 0 d) as [Hd | Hd]; [pose proof (Z.rem_bound_pos_pos d p Htick Hd); nia |]. pose proof (Z.rem_bound_pos_neg d p Htick ltac:(lia)). nia.
Qed.

(** The clock moves to the next deadline, which has not come. *)
Lemma wp_AdvanceTo d L st pn s a (Q : () -> Sim (prog_state Pr) -> abs -> Prop) E :
  inv L st pn s a -> sm_ticks s * sp_tick Pm <= d ->
  (forall s', inv L st pn s' a -> sm_timers s' = sm_timers s -> d <= sm_ticks s' * sp_tick Pm -> Q () s' a) -> wp (time_AdvanceTo Pr Pm d) s a Q E.
Proof using Htick.
  intros I Hd HQ. apply kwp_bind, kwp_get, kwp_bind. rewrite (proj2 (Z.leb_le _ _)) by done. apply kwp_ret, kwp_bind, kwp_get, kwp_bind.
  rewrite (proj2 (Z.leb_le _ _)) by by apply quot_bound. apply kwp_ret. eapply (wp_kticks Pr); [exact I |]. cbn zeta. intros I'. apply HQ; [done | done |].
  cbn. rewrite Z.add_sub_assoc, Z.add_comm, Z.add_simpl_r. apply ticks_enough.
Qed.

(** Nobody runs: the loop goes on with somebody who does, or everybody has completed. *)
Lemma wp_Idle pn s a : good None pn s a -> runnable a = ∅ ->
  wp (Idle Pr Pm) s a (fun more s' a' => if more : bool then (exists pn', good None pn' s' a') /\ runnable a' <> ∅ else inv ∅ (Some StOk) None s' a') (aborted Pm).
Proof using Htick.
  intros (L & st & C & _) Hr. pose proof (calm_pinned _ _ _ _ _ C Hr) as ->. pose proof (ca_inv _ _ _ _ _ _ C) as I.
  apply kwp_bind. eapply wp_CheckDeadlock; [exact C |]. intros Hnd. apply kwp_bind, kwp_get. destruct (tq_IsEmpty (sm_timers s)) eqn:Htm.
  - apply kwp_ret. assert (HL : L = ∅).
    { apply (inv_alone _ _ _ _ _ I). destruct (sm_alive s) as [| u l] eqn:Hal; [done |]. exfalso. apply Hnd. split.
      - intros ->. pose proof (proj2 (inv_alone _ _ _ _ _ I) eq_refl). congruence.
      - intros t pl Ht. eapply settled_stuck; [apply C | exact Ht | by eapply (proj1 (inv_no_runnable _ _ _ _ _ I)) |].
        pose proof (proj1 (inv_no_timers _ _ _ _ _ I) Htm t) as H. by rewrite Ht in H. }
    subst L. destruct (proj2 (ca_finished _ _ _ _ _ _ C) eq_refl) as [_ ->]. exact I.
  - assert (Hgood : forall s' a' L', calm None None L' st s' a' -> (exists t, L' !! t = Some ready) -> (exists pn', good None pn' s' a') /\ runnable a' <> ∅).
    { intros s' a' L' C' [t Ht]. split; [exists None, L', st; by split | eapply ready_runnable; [apply C' | exact Ht]]. }
    apply kwp_bind. eapply (wp_PollTimers Pr); [exact C |]. intros [] s' a' L' C' _ Ht Hf; [apply kwp_ret, (Hgood _ _ L'); auto |].
    destruct (Hf eq_refl) as [-> Hpoll]. pose proof (ca_inv _ _ _ _ _ _ C') as I'. destruct (iv_tm _ _ _ _ _ I') as (b & P & Hh & HP). pose proof (tq_history_ok _ _ _ Hh) as Hok.
    assert (HPne : P <> ∅) by (rewrite (tq_IsEmpty_ok _ _ _ Hok) in Htm; by apply bool_decide_eq_false in Htm).
    destruct (tq_NextDeadLine_ok _ _ _ Hok HPne) as (d & Hd & Hbefore & Hafter).
    apply kwp_bind, kwp_bind, kwp_get. rewrite Hd. apply kwp_ret, kwp_bind. eapply wp_AdvanceTo; [exact I' | |].
    + destruct (Z.le_gt_cases (sm_ticks s * sp_tick Pm) d) as [| Hlt]; [done |]. destruct (Hafter (sm_ticks s * sp_tick Pm)) as (t & q' & Hq); [lia |]. congruence.
    + intros s2 I2 Htm2 Hge. apply kwp_bind. eapply (wp_PollTimers Pr); [by eapply calm_same |]. intros [] s3 a3 L3 C3 _ Ht3 Hf3; [apply kwp_ret, (Hgood _ _ L3); auto |].
      destruct (Hf3 eq_refl) as [_ Hp]. rewrite Htm2 in Hp. destruct (Hafter _ Hge) as (t & q' & Hq). congruence.
Qed.

Lemma wp_run_loop fuel n budget pn s a :
  good None pn s a -> ((2 * budget + 1 <= n) \/ (runnable a <> ∅ /\ 2 * budget <= n /\ 1 <= n))%nat ->
  wp (run_loop Pr Pm n fuel budget) s a (fun ended s' a' => if ended : bool then inv ∅ (Some StOk) None s' a' else exists pn', good None pn' s' a') (aborted Pm).
Proof using Hrm HM Htick.
  revert budget pn s a. induction n as [| n IH]; intros budget pn s a HG Hn; [destruct Hn; lia |]. cbn [run_loop]. apply kwp_bind, (wp_IsIdle Pr).
  destruct budget as [| budget]; [case_bool_decide; apply kwp_ret; by eexists |]. case_bool_decide as Hr.
  - eapply kwp_seq; [by eapply wp_Idle |]. intros [] s' a' H'; [| by apply kwp_ret]. destruct H' as [[pn' HG'] Hr']. eapply IH; [exact HG' |]. right. destruct Hn as [| (? & _)]; [split; [done | lia] | done].
  - eapply kwp_seq; [by eapply (wp_sim_Iter Pr) |]. intros x s' a' [pn' HG']. eapply IH; [exact HG' |]. left. destruct Hn as [| (_ & ? & _)]; lia.
Qed.

Lemma wp_RunLoop fuel budget pn s a : good None pn s a ->
  wp (sim_RunLoop Pr Pm fuel budget) s a (fun ended s' a' => ended = true -> exists st, inv ∅ (Some st) None s' a') (fun _ _ => False).
Proof using Hrm HM Htick.
  intros HG. eapply kwp_catch; [eapply kwp_mono; [eapply wp_run_loop; [exact HG | left; lia] | | intros ? ? H; exact H] |].
  - intros [] s' a' H; [by eexists | done].
  - intros s' a' H. apply kwp_bind. eapply kwp_mono; [by eapply (wp_sim_Burn Pr Pm) | | done]. intros x s2 a2 (st & I & _). apply kwp_ret. by exists st.
Qed.

Lemma wp_queues_empty l st s a (E : Sim (prog_state Pr) -> abs -> Prop) :
  inv ∅ st None s a -> (forall w, w ∈ l -> exists k, sm_futex s !! k = Some w) ->
  wp (kfor Pr l (fun w => b <~ wq_sim_IsEmpty Pr w; kverify Pr b)) s a (fun _ s' a' => s' = s) E.
Proof using Type.
  clear Hrm HM Htick. intros I Hl. induction l as [| w l IH]; cbn [kfor]; [by apply kwp_ret |]. destruct (Hl w) as [k Hw]; [by left |].
  assert (Hno : forall u, ~ waits s a k u) by (intros u Hu; apply (iv_fx _ _ _ _ _ I) in Hu; by rewrite lookup_empty in Hu).
  apply kwp_bind, kwp_bind. unfold wq_sim_IsEmpty. destruct (wq_waiters w) as [q |] eqn:Hq.
  - destruct (qo_dom _ _ (iv_queues _ _ _ _ _ I) k w q Hw Hq) as [ts Hts]. apply kwp_bind, (wp_call Pr); [by exists ts | done |].
    intros [| b | |] a' Ha; cbn in Ha; unfold with_queue, when in Ha; rewrite ?Hts in Ha; cbn in Ha; try done. case_decide; [| done]. simplify_eq.
    assert (ts = ∅) as ->. { apply set_eq. intros u. split; [| set_solver]. intros Hu. destruct (Hno u). exists w. split; [done |]. rewrite Hq. by exists ts. }
    apply kwp_ret, kwp_ret. apply IH. intros w' Hw'. apply Hl. by right.
  - assert (wq_singleton w = None) as ->. { destruct (wq_singleton w) as [u |] eqn:Hu; [| done]. destruct (Hno u). exists w. split; [done |]. by rewrite Hq. }
    apply kwp_ret, kwp_ret. apply IH. intros w' Hw'. apply Hl. by right.
Qed.

Lemma wp_StopLoop st s a (E : Sim (prog_state Pr) -> abs -> Prop) : inv ∅ st None s a -> wp (StopLoop Pr) s a (fun _ s' a' => s' = s) E.
Proof using Type.
  intros I. apply kwp_bind, (wp_IsIdle Pr), kwp_bind. rewrite bool_decide_eq_true_2 by (apply (inv_no_runnable _ _ _ _ _ I); intros t pl Ht; discriminate (eq_trans (eq_sym (lookup_empty t)) Ht)). apply kwp_ret, kwp_bind, kwp_get, kwp_bind.
  rewrite (proj2 (inv_no_timers _ _ _ _ _ I)) by (intros t; by rewrite lookup_empty). apply kwp_ret, kwp_bind, kwp_get. eapply wp_queues_empty; [exact I |].
  intros w (p & -> & Hp)%list_elem_of_fmap. exists p.1. apply elem_of_map_to_list. by destruct p.
Qed.
End loop.
