(* ===== verification/SimulatorRuns.v ===== *)
(** The simulator (Simulator.v) over the schedulers: how its runs end, that it asks a scheduler
    only for what is legal, that a recorded run can be replayed, and that the model checker
    finds every failure. *)

From S2P Require Import Prelude SimSched DfsSched CoopSched RandSched PctSched SimMemory TimerHeap Simulator SimulatorCorrect.
Local Open Scope Z_scope.
Local Open Scope sim_scope.

(** ** Programs of calls over a scheduler *)

Section adequacy.
Context (S : IScheduler) `{!Lawful S} (removes : bool) (Hsup : forall e a c, legal a c -> basic removes e c -> supports e a c).

Lemma psched_lawful {A} (m : Proc A) (Q : A -> abs -> Prop) a s p r :
  pwp removes m a Q -> represents s a -> leaf (psched S m s) p r ->
  match r with
  | inl (inl x, s') => exists a', represents s' a' /\ Q x a'
  | inl (inr st, _) => st <> SInternal
  | inr st => st = Prune
  end.
Proof using Hsup.
  revert a s p. induction m as [x | e c k IH | st]; intros a s p H Hs Hr; cbn [psched] in Hr.
  - apply leaf_ret_inv in Hr as [_ ->]. eauto.
  - destruct H as (Hl & Hb & Hk). apply leaf_bind_inv in Hr as [(p1 & p2 & [ans s'] & -> & H1 & H2) | (st & -> & H1)].
    + destruct (lawful_call _ _ _ _ _ _ Hs Hl (Hsup _ _ _ Hl Hb) H1) as (a' & Hstep & Hs'). eapply IH; [by apply Hk | exact Hs' | exact H2].
    + exact (lawful_call _ _ _ _ _ _ Hs Hl (Hsup _ _ _ Hl Hb) H1).
  - apply leaf_ret_inv in Hr as [_ ->]. exact H.
Qed.

Lemma psched_choices {A} (m : Proc A) (Q : A -> abs -> Prop) a s :
  (forall s a e c, represents s a -> legal a c -> supports e a c -> choices_ok (sched_call S e c s)) -> pwp removes m a Q -> represents s a -> choices_ok (psched S m s).
Proof using Hsup.
  intros Hc. revert a s. induction m as [x | e c k IH | st]; intros a s H Hs; cbn [psched]; [done | | done].
  destruct H as (Hl & Hb & Hk). apply choices_ok_bind; [by eapply Hc; [exact Hs | | auto] |]. intros p [ans s'] H1.
  destruct (lawful_call _ _ _ _ _ _ Hs Hl (Hsup _ _ _ Hl Hb) H1) as (a' & Hstep & Hs'). eapply IH; [by apply Hk | exact Hs'].
Qed.
End adequacy.

(** After the answers of a run, the rest of the program. *)
Lemma reach_rest (removes : bool) {A} (m : Proc A) (Q : A -> abs -> Prop) a hist a' :
  pwp removes m a Q -> abs_reach (as_client m) a hist a' ->
  exists m', pwp removes m' a' Q /\ forall h, as_client m (hist ++ h) = as_client m' h /\ client_result m (hist ++ h) = client_result m' h.
Proof.
  intros H Hr. induction Hr as [| hist a' e c ans a'' Hr (m' & H' & Hm) Hc Ha]; [by exists m |].
  pose proof (proj1 (Hm [])) as H0. rewrite app_nil_r in H0. rewrite Hc in H0. destruct m' as [| e' c' k |]; try done. cbn in H0. injection H0 as <- <-.
  destruct H' as (_ & _ & Hk). exists (k ans). split; [by apply Hk |]. intros h. rewrite <- app_assoc. apply (Hm (ans :: h)).
Qed.

Lemma pwp_client_ok (removes : bool) {A} (m : Proc A) (Q : A -> abs -> Prop) a (sup : env -> abs -> icall -> Prop) :
  (forall e a c, legal a c -> basic removes e c -> sup e a c) -> pwp removes m a Q -> client_ok sup (as_client m) a.
Proof.
  intros Hsup H hist a' e c Hr Hc. destruct (reach_rest _ _ _ _ _ _ H Hr) as (m' & H' & Hm). pose proof (proj1 (Hm [])) as H0. rewrite app_nil_r, Hc in H0.
  destruct m' as [| e' c' k |]; try done. cbn in H0. injection H0 as <- <-. destruct H' as (Hl & Hb & _). auto.
Qed.

(** The program as a client of SimSched.v, which makes the same run. *)
Lemma psched_simulate (S : IScheduler) {A} (C : client) (m : Proc A) h0 s p r s' :
  (forall h, C (h0 ++ h) = as_client m h) -> leaf (psched S m s) p (inl (r, s')) ->
  exists h, client_result m h = Some r /\ leaf (simulate S (length h) C h0 s) p (inl (h0 ++ h, s')).
Proof.
  revert h0 s p. induction m as [x | e c k IH | st]; intros h0 s p HC Hr; cbn [psched] in Hr.
  1, 3: apply leaf_ret_inv in Hr as [-> [= -> ->]]; exists []; split; [done |]; cbn; specialize (HC []); rewrite app_nil_r in *; rewrite HC; cbn; constructor.
  apply leaf_bind_inv in Hr as [(p1 & p2 & [ans s1] & -> & H1 & H2) | (st & ? & _)]; [| done].
  destruct (IH ans (h0 ++ [ans]) s1 p2) as (h & Hh & Hsim); [| exact H2 |].
  - intros h. rewrite <- app_assoc. apply (HC (ans :: h)).
  - exists (ans :: h). split; [exact Hh |]. cbn [length]. rewrite <- app_assoc in Hsim. eapply simulate_extend; [| exact H1 | exact Hsim]. specialize (HC []). by rewrite app_nil_r in HC.
Qed.
Lemma simulate_prefix (S : IScheduler) budget (C : client) h s p h' s' : leaf (simulate S budget C h s) p (inl (h', s')) -> h `prefix_of` h'.
Proof.
  revert h s p. induction budget as [| budget IH]; intros h s p Hr; cbn [simulate] in Hr; destruct (C h) as [[e c] |].
  1: by apply leaf_stop_inv in Hr as [_ ?].
  1, 3: by apply leaf_ret_inv in Hr as [_ [= -> _]].
  apply leaf_bind_inv in Hr as [(p1 & p2 & [ans s1] & -> & H1 & H2) | (st & ? & _)]; [| done]. apply IH in H2. etrans; [by apply prefix_app_r | exact H2].
Qed.
Lemma simulate_psched (S : IScheduler) {A} (C : client) budget (m : Proc A) h0 h s p r s' :
  (forall h, C (h0 ++ h) = as_client m h) -> client_result m h = Some r -> leaf (simulate S budget C h0 s) p (inl (h0 ++ h, s')) -> leaf (psched S m s) p (inl (r, s')).
Proof.
  revert h0 h s p budget. induction m as [x | e c k IH | st]; intros h0 h s p budget HC Hh Hr.
  1, 3: destruct h; [| done]; injection Hh as <-; pose proof (HC []) as H0; rewrite app_nil_r in H0; destruct budget; cbn in Hr; rewrite H0 in Hr; apply leaf_ret_inv in Hr as [-> [= _ ->]]; constructor.
  destruct budget as [| budget]; cbn [simulate] in Hr; pose proof (HC []) as H0; rewrite app_nil_r in H0; rewrite H0 in Hr; cbn [as_client] in Hr; [by apply leaf_stop_inv in Hr as [_ ?] |].
  apply leaf_bind_inv in Hr as [(p1 & p2 & [ans s1] & -> & H1 & H2) | (st & ? & _)]; [| done]. cbn [fst snd] in H2. cbn [psched].
  destruct (simulate_prefix _ _ _ _ _ _ _ _ H2) as [h' Hh']. rewrite <- app_assoc in Hh'. apply app_inv_head in Hh' as ->. eapply leaf_bind; [exact H1 |]. eapply IH; [| exact Hh | rewrite <- app_assoc; exact H2].
  intros h. rewrite <- app_assoc. apply (HC (ans :: h)).
Qed.

(** ** The whole simulator *)

Section run.
Context (Pr : Program) (Pm : SimParams) (removes : bool) (Hrm : sp_isolated Pm = true -> removes = true) (HM : modest Pr) (Htick : 0 < sp_tick Pm).
Implicit Types (s : Sim (prog_state Pr)) (a : abs).
Abbreviation wp := (kwp removes).

Lemma inv_start : inv ∅ None None (sim_start Pr) abs0.
Proof using Type.
  assert (He : forall t, ~ is_Some ((∅ : places) !! t)) by (intros t [x Hx]; by rewrite lookup_empty in Hx).
  split; cbn; try done.
  - apply base.NoDup_nil_2.
  - intros t. split; [intros H; by apply not_elem_of_nil in H | by intros []%He].
  - intros k t. rewrite lookup_empty. split; [| done]. intros (w & Hw & _). cbn in Hw. by rewrite lookup_empty in Hw.
  - exists true, ∅. split; [constructor |]. intros t. by rewrite !lookup_empty.
  - split; cbn; [unfold kClockSize; lia |]. intros t Ht. lia.
  - by intros t []%He.
Qed.

(** [SpawnMainThread] *)
Lemma wp_start {A} (f : Z -> K (prog_state Pr) A) (Q : A -> Sim (prog_state Pr) -> abs -> Prop) E :
  (forall s a main, good None None s a -> wp (f main) s a Q E) -> wp (main <~ CreateThread Pr true None; kcall_ Pr (Spawn main) ;~ f main) (sim_start Pr) abs0 Q E.
Proof using Type.
  intros HQ. apply kwp_bind. eapply (wp_CreateThread Pr); [apply inv_start | done |]. intros t s1 _ Ht _ I1. cbn in Ht. subst t.
  apply kwp_bind. eapply (wp_add Pr); [exact I1 | by right; right | apply lookup_insert_eq | done .. |]. rewrite insert_insert_eq. intros a' I'.
  apply HQ. eexists _, None. split; [| done]. split; [exact I' | | | done].
  - apply map_Forall_insert_2; [by apply stable_ready | apply map_Forall_empty].
  - split; [done |]. by rewrite lookup_insert_eq.
Qed.

(** [Run] up to the point where the loop stops. *)
Definition sim_until_stop (fuel budget : nat) : K (prog_state Pr) bool :=
  main <~ CreateThread Pr true None; kcall_ Pr (Spawn main) ;~ run_loop Pr Pm (S (2 * budget)) fuel budget.

Definition deadlocked_at s (t : Z) : Prop := exists th, sm_threads s !! t = Some th /\ th_state th = TsDeadlocked /\ th_timer th = None /\ untimed_wait th.

(** How the loop stops. *)
Definition stops_well (o : outcome (prog_state Pr) bool) : Prop :=
  match o with
  | Done ended s => ended = true -> sm_status s = Some StOk /\ sm_alive s = [] /\ tq_IsEmpty (sm_timers s) = true
  | Aborted s =>
      exists st, sm_status s = Some st /\ st <> StOk /\
        (st = StDeadlock -> sm_alive s <> [] /\ tq_IsEmpty (sm_timers s) = true /\ forall t, t ∈ sm_alive s -> deadlocked_at s t)
  end.

Lemma wp_until_stop fuel budget :
  pwp removes (sim_until_stop fuel budget (sim_start Pr)) abs0 (fun o a => stops_well o /\ match o with Aborted s => runnable a = ∅ \/ sm_status s <> Some StDeadlock | _ => True end).
Proof using Hrm HM Htick.
  assert (H : wp (sim_until_stop fuel budget) (sim_start Pr) abs0 (fun ended s a => if ended : bool then inv ∅ (Some StOk) None s a else exists pn, good None pn s a) (aborted Pm)).
  { apply wp_start. intros s a _ HG. eapply (wp_run_loop Pr); [done .. | exact HG | left; lia]. }
  eapply pwp_mono; [exact H |]. intros [[] s | s] a Ho; cbn.
  - split; [| done]. intros _. split_and!; [apply Ho | by apply (inv_alone _ _ _ _ _ Ho) | apply (inv_no_timers _ _ _ _ _ Ho); intros t; by rewrite lookup_empty].
  - done.
  - destruct Ho as (_ & L & st & I & _ & Hst & Hdead). split.
    + exists st. split_and!; [apply I | done |]. intros Hd. destruct (Hdead Hd) as [Hne HL]. split_and!.
      * intros He. by apply Hne, (inv_alone _ _ _ _ _ I).
      * apply (inv_no_timers _ _ _ _ _ I). intros t. destruct (L !! t) as [pl |] eqn:Ht; [| done]. by destruct (HL t pl Ht) as [k ->].
      * intros t [pl Ht]%(iv_alive _ _ _ _ _ I). destruct (HL t pl Ht) as [k ->]. destruct (inv_thread_at _ _ _ _ _ _ _ I Ht) as (th & Hth & (H1 & _ & H2 & H3) & _). by exists th.
    + destruct (decide (st = StDeadlock)) as [-> | Hne]; [| right; rewrite (iv_status _ _ _ _ _ I); congruence]. left. destruct (Hdead eq_refl) as [_ HL].
      apply (inv_no_runnable _ _ _ _ _ I). intros t pl Ht. by destruct (HL t pl Ht) as [k ->].
Qed.

Lemma wp_sim_Run fuel budget : wp (sim_Run Pr Pm fuel budget) (sim_start Pr) abs0 (fun _ _ _ => True) (fun _ _ => False).
Proof using Hrm HM Htick.
  apply wp_start. intros s a _ HG. eapply kwp_seq; [eapply (wp_RunLoop Pr); [done .. | exact HG] |]. intros [] s' a' H; apply kwp_bind; [apply kwp_ret | by apply kwp_stop].
  destruct (H eq_refl) as [st I]. eapply kwp_seq; [by eapply (wp_StopLoop Pr) |]. intros _ s2 a2 ->. apply kwp_bind, kwp_get, kwp_bind. rewrite (iv_status _ _ _ _ _ I). by apply kwp_ret, kwp_get.
Qed.
Lemma pwp_simulator fuel budget : pwp removes (simulator Pr Pm fuel budget) abs0 (fun _ _ => True).
Proof using Hrm HM Htick. apply pwp_bind. eapply pwp_mono; [apply wp_sim_Run |]. by intros [x s | s] a. Qed.
End run.

(** ** What the simulator promises *)

(** What it asks of a scheduler: everything but switches, lock-free sections and random numbers,
    and with isolation also [Remove], for burning threads.  [dfs_suits], [rand_suits]: always;
    [coop_suits], [pct_suits]: without isolation. *)
Definition suits (S : IScheduler) `{!Lawful S} (Pm : SimParams) : Prop := forall e a c, legal a c -> basic (sp_isolated Pm) e c -> supports e a c.

(** C14: Over every lawful scheduler that supports the calls of the simulator (the DFS and the
    random one; without isolation also the cooperative one and PCT), the loop of a simulation of a
    modest program (no switch to a given thread, no lock-free sections, no [RandomNumber], no abort
    with Ok or Deadlock) stops for the right reason: no check of the simulator on itself fails; when the
    loop ends by itself the status is Ok, all threads have completed and no timer is left; when
    it aborts the status is an error, and a deadlock is reported only if threads are left, every
    one of them waits for a futex without a time limit, no timer is left and nobody is runnable. *)
Theorem simulation_stops_right (S : IScheduler) (HL : Lawful S) (Pr : Program) (Pm : SimParams) (fuel budget : nat) (s0 : sched_state S) (p : list Branch)
    (r : (outcome (prog_state Pr) bool + sim_stop) * sched_state S + stop) :
  modest Pr -> 0 < sp_tick Pm -> suits S Pm -> represents s0 abs0 ->
  leaf (psched S (sim_until_stop Pr Pm fuel budget (sim_start Pr)) s0) p r ->
  match r with
  | inl (inl (Done ended s), _) => ended = true -> sm_status s = Some StOk /\ sm_alive s = [] /\ tq_IsEmpty (sm_timers s) = true
  | inl (inl (Aborted s), ss) =>
      exists st, sm_status s = Some st /\ st <> StOk /\
        (st = StDeadlock ->
           sm_alive s <> [] /\ tq_IsEmpty (sm_timers s) = true /\ (forall t, t ∈ sm_alive s -> deadlocked_at Pr s t) /\
           exists a, represents ss a /\ runnable a = ∅)
  | inl (inr e, _) => e <> SInternal
  | inr st => st = Prune
  end.
Proof.
  intros HM Ht HS H0 Hr.
  pose proof (psched_lawful S (sp_isolated Pm) HS _ _ _ _ _ _ (wp_until_stop Pr Pm _ id HM Ht fuel budget) H0 Hr) as H.
  destruct r as [[[[ended s | s] | e] ss] | st]; [| | exact H | exact H].
  - destruct H as (a & _ & Hw & _). exact Hw.
  - destruct H as (a & Ha & (st & Hst & Hne & Hd) & Hr'). exists st. split_and!; [done | done |]. intros ->. destruct (Hd eq_refl) as (H1 & H2 & H3).
    split_and!; [done .. |]. exists a. split; [done |]. by destruct Hr'.
Qed.

(** C16: The simulator with a modest program is a client that asks a lawful scheduler only for what
    is legal and supported, whatever the answers, so that all that is proved of clients holds of it;
    and after no answers that the specification of schedulers allows does a check of the simulator
    on itself fail.  The scheduler has to support all calls of the simulator; with isolation, when
    an abort burns the threads, the cooperative one and PCT do not ([coop_burn_panics]). *)
Theorem simulator_is_client (S : IScheduler) (HL : Lawful S) (Pr : Program) (Pm : SimParams) (fuel budget : nat) :
  modest Pr -> 0 < sp_tick Pm -> suits S Pm ->
  client_ok supports (as_client (simulator Pr Pm fuel budget)) abs0 /\
  forall hist a, abs_reach (as_client (simulator Pr Pm fuel budget)) abs0 hist a -> client_result (simulator Pr Pm fuel budget) hist <> Some (inr SInternal).
Proof.
  intros HM Ht HS. pose proof (pwp_simulator Pr Pm _ id HM Ht fuel budget) as H. split; [by eapply pwp_client_ok |].
  intros hist a Hr Hres. destruct (reach_rest _ _ _ _ _ _ H Hr) as (m' & H' & Hm). pose proof (proj2 (Hm [])) as He. rewrite app_nil_r, Hres in He.
  destruct m' as [| | st]; try done. cbn in He. injection He as <-. by apply H'.
Qed.

Section runs.
Context (S : IScheduler) `{!Lawful S} (Pr : Program) (Pm : SimParams) (fuel budget : nat) (HM : modest Pr) (Ht : 0 < sp_tick Pm) (HS : suits S Pm).

Lemma sim_client_ok : client_ok supports (as_client (simulator Pr Pm fuel budget)) abs0.
Proof using HM Ht HS. eapply pwp_client_ok; [exact HS | exact (pwp_simulator Pr Pm _ id HM Ht fuel budget)]. Qed.

Lemma sim_no_model_checker h a e : abs_reach (as_client (simulator Pr Pm fuel budget)) abs0 h a -> as_client (simulator Pr Pm fuel budget) h <> Some (e, IsModelChecker).
Proof using HM Ht.
  intros Hr Hc. assert (Hok : client_ok (fun e _ c => basic (sp_isolated Pm) e c) (as_client (simulator Pr Pm fuel budget)) abs0).
  { eapply pwp_client_ok; [| exact (pwp_simulator Pr Pm _ id HM Ht fuel budget)]. done. }
  by destruct (Hok h a _ _ Hr Hc) as [_ []].
Qed.
End runs.

Lemma leaf_nil {A} (m : M A) x : leaf m [] (inl x) -> m = Ret x.
Proof. by inversion 1. Qed.
Lemma ret_leaf {A} (m : M A) x : m = Ret x -> leaf m [] (inl x).
Proof. intros ->. constructor. Qed.

(** What the recorder and the replay scheduler make of a run. *)
Lemma recorded_replays (S : IScheduler) `{HL : !Lawful S} (Pr : Program) (Pm : SimParams) (fuel budget : nat) (s0 s' : sched_state S) (p : list Branch) (r : SimResult + sim_stop) :
  modest Pr -> 0 < sp_tick Pm -> suits S Pm -> represents s0 abs0 ->
  leaf (psched S (simulator Pr Pm fuel budget) s0) p (inl (r, s')) ->
  exists schedule rs, leaf (psched (Recorder S) (simulator Pr Pm fuel budget) (s0, [])) p (inl (r, (s', schedule))) /\
    psched ReplayScheduler (simulator Pr Pm fuel budget) (replay_new schedule) = Ret (r, rs) /\ rp_next rs = length schedule.
Proof.
  intros HM Ht HS H0 Hr. set (m := simulator Pr Pm fuel budget) in *.
  destruct (psched_simulate S (as_client m) m [] s0 p r s') as (h & Hh & Hsim); [done | exact Hr |]. cbn [app] in Hsim.
  pose proof (sim_client_ok S Pr Pm fuel budget HM Ht HS) as Hok.
  destruct (record_replay S (as_client m) abs0 (length h) [] s0 abs0 [] p h s' Hok (sim_no_model_checker Pr Pm fuel budget HM Ht) H0 (abs_reach_nil _ _) Hsim) as (ds & a' & R1 & R2).
  exists ds, (replay_at ds ds a'). split_and!; [| | done].
  - eapply (simulate_psched (Recorder S) (as_client m) _ m [] h); [done | exact Hh | exact R1].
  - apply leaf_nil. eapply (simulate_psched ReplayScheduler (as_client m) (length h) m [] h); [done | exact Hh |]. cbn [app]. apply ret_leaf. exact (R2 ds (reflexivity _)).
Qed.


(** ** Model checking *)

(** [Result::Failure] *)
Definition Failure (r : SimResult) : bool := negb (bool_decide (rs_status r = StOk)) && negb (bool_decide (rs_status r = StPruned)).

(** The run fails; the process may also stop, at a failed check or, without isolation, when the
    simulation aborts.  A run that is over a limit does not count. *)
Definition run_fails {X} (r : (SimResult + sim_stop) * X + stop) : bool :=
  match r with
  | inl (inl res, _) => Failure res
  | inl (inr (SReport st), _) => negb (bool_decide (st = StPruned))
  | inl (inr (SMisuse | SInternal), _) => true
  | _ => false
  end.
Definition result_fails (r : SimResult + sim_stop) : bool := @run_fails () (inl (r, ())).

(** [Record] over the DFS scheduler, which is at the choices [p]; [None]: it panics, or one of the
    two simulations does not return. *)
Definition sim_Record (P : DfsParams) (m : Proc SimResult) (digest : Z) (p : list Branch) : option (list Decision_) :=
  match (dfs_run (psched (Recorder (DfsScheduler P)) m (dfs_Start, [])) p 0).1 with
  | inl (inl result, (_, schedule)) =>
      if rs_digest result =? digest then
        match (dfs_run (psched ReplayScheduler m (replay_new schedule)) [] 0).1 with
        | inl (inl replay_result, _) => if rs_digest replay_result =? digest then Some schedule else None
        | _ => None
        end
      else None
  | _ => None
  end.

(** [ExploreResult::found]; or the process has stopped. *)
Inductive found := Found (schedule : option (list Decision_)) (result : SimResult) | Died (r : sim_stop) | Cut.
Definition explore_found {X} (P : DfsParams) (m : Proc SimResult) (p : list Branch) (r : (SimResult + sim_stop) * X + stop) : found :=
  match r with
  | inl (inl result, _) => Found (sim_Record P m (rs_digest result) p) result
  | inl (inr st, _) => Died st
  | inr _ => Cut
  end.

Lemma dfs_suits (P : DfsParams) (Pm : SimParams) : suits (DfsScheduler P) Pm.
Proof. intros e a c _ Hb. by destruct c. Qed.
Lemma rand_suits (P : RandParams) (HP : rand_params_ok P) (Pm : SimParams) : @suits (RandomScheduler P) (rand_lawful P HP) Pm.
Proof. intros e a c _ Hb. by destruct c. Qed.
(** The others do not support [Remove] of every thread: without isolation it is never called. *)
Lemma coop_suits (Pm : SimParams) : sp_isolated Pm = false -> suits CoopScheduler Pm.
Proof. intros Hi e a c _ Hb. rewrite Hi in Hb. by destruct c. Qed.
Lemma pct_suits (Pm : SimParams) : sp_isolated Pm = false -> suits PctScheduler Pm.
Proof. intros Hi e a c _ Hb. rewrite Hi in Hb. by destruct c. Qed.

Lemma sim_choices (P : DfsParams) (Pr : Program) (Pm : SimParams) (fuel budget : nat) : modest Pr -> 0 < sp_tick Pm ->
  choices_ok (psched (DfsScheduler P) (simulator Pr Pm fuel budget) dfs_Start).
Proof.
  intros HM Ht. eapply (psched_choices (DfsScheduler P) (sp_isolated Pm) (dfs_suits P Pm)); [| exact (pwp_simulator Pr Pm _ id HM Ht fuel budget) | apply dfs_Start_holds].
  intros s a e c _ Hl _. by eapply dfs_choices.
Qed.

Lemma result_end {A} (m : Proc A) h r : client_result m h = Some r -> as_client m h = None.
Proof. revert h. induction m as [x | e c k IH | st]; intros [| ans h]; cbn; try done. apply IH. Qed.

(** Every interleaving is explored. *)
Lemma interleaving_explored (P : DfsParams) (Pr : Program) (Pm : SimParams) (fuel budget : nat) :
  max_preemptions P = None -> max_steps P = None -> force_preempt_after_steps P = None -> modest Pr -> 0 < sp_tick Pm ->
  let m := simulator Pr Pm fuel budget in
  forall hist a r, interleaving P (as_client m) hist a -> client_result m hist = Some r -> exists p s, (p, inl (r, s)) ∈ executions (psched (DfsScheduler P) m dfs_Start).
Proof.
  intros H1 H2 H3 HM Ht m hist a r Hint Hres. assert (Hend : as_client m hist = None) by by eapply result_end.
  destruct (interleaving_leaf P (as_client m) (length hist) hist a H1 H2 H3 (sim_client_ok (DfsScheduler P) Pr Pm fuel budget HM Ht (dfs_suits P Pm)) Hint Hend (le_n _)) as (p & s & Hr).
  exists p, s. apply executions_leaf. eapply (simulate_psched (DfsScheduler P) (as_client m) _ m [] hist); [done | exact Hres | exact Hr].
Qed.

(** A failed run is recorded. *)
Lemma sim_Record_ok (P : DfsParams) (Pr : Program) (Pm : SimParams) (fuel budget : nat) p res s' : modest Pr -> 0 < sp_tick Pm ->
  leaf (psched (DfsScheduler P) (simulator Pr Pm fuel budget) dfs_Start) p (inl (inl res, s')) ->
  exists schedule rs, sim_Record P (simulator Pr Pm fuel budget) (rs_digest res) p = Some schedule /\
    psched ReplayScheduler (simulator Pr Pm fuel budget) (replay_new schedule) = Ret (inl res, rs).
Proof.
  intros HM Ht Hr. destruct (recorded_replays (DfsScheduler P) Pr Pm fuel budget dfs_Start s' p (inl res) HM Ht (dfs_suits P Pm) (dfs_Start_holds P) Hr) as (schedule & rs & H1 & H2 & _).
  exists schedule, rs. split; [| exact H2]. unfold sim_Record.
  assert (E : dfs_run (psched (Recorder (DfsScheduler P)) (simulator Pr Pm fuel budget) (dfs_Start, [])) p 0 = (inl (inl res, (s', schedule)), p)) by exact (dfs_run_leaf _ _ _ H1).
  rewrite E. cbn [fst]. rewrite Z.eqb_refl, H2. cbn. by rewrite Z.eqb_refl.
Qed.


(** ** Examples *)

Lemma run_exists {A} (t : M A) (f : A -> bool) :
  existsb (fun x => match x.2 with inl a => f a | inr _ => false end) (executions t) = true -> exists p a, leaf t p (inl a) /\ f a = true.
Proof. intros ([p [a | st]] & Hin & Hf)%existsb_exists; [| done]. exists p, a. split; [| done]. apply executions_leaf. by apply list_elem_of_In. Qed.

(** A word at address 100. *)
Definition word : FutexLoc := mkFutexLoc 100 4 Whole Uint32.
Definition on_word (type : ActionType) (v : Z) : syscall := ScSync (mkAction type 100 4 v mo_seq_cst).

(** Every thread follows a script; the state is how far it is.  Thread 1 is the main thread. *)
Definition scripts (main other : list syscall) : Program :=
  mkProgram (gmap Z nat) ∅ (fun at_ t _ =>
    let n := default O (at_ !! t) in (<[t := S n]> at_, default ScExit ((if t =? 1 then main else other) !! n))).

(** The other thread wakes the main thread, which may not wait yet: it does not say so in the word. *)
Definition lost_wakeup : Program :=
  scripts [on_word AtomicInit 0; ScSpawn; on_word AtomicLoad 0; ScFutexWait word 0 FtMutexLock] [ScFutexWake word 1].
(** It says so. *)
Definition handshake : Program :=
  scripts [on_word AtomicInit 0; ScSpawn; on_word AtomicLoad 0; ScFutexWait word 0 FtMutexLock] [on_word AtomicStore 1; ScFutexWake word 1].

Definition example_params : SimParams := mkSimParams 10000 true true true true.

Lemma scripts_modest main other : Forall modest_call main -> Forall modest_call other -> modest (scripts main other).
Proof.
  intros H1 H2 at_ t r. cbn. assert (H : Forall modest_call (if t =? 1 then main else other)) by by case_match.
  destruct (_ !! _) as [c |] eqn:Hc; [| done]. by eapply Forall_lookup_1 in Hc.
Qed.
Lemma lost_wakeup_modest : modest lost_wakeup.
Proof. apply scripts_modest; repeat constructor. Qed.
Lemma handshake_modest : modest handshake.
Proof. apply scripts_modest; repeat constructor. Qed.

Abbreviation explored Pr := (psched (DfsScheduler unlimited) (simulator Pr example_params 10 20) dfs_Start).

(** A run that aborts with a deadlock. *)
Lemma simulation_stops_right_witness :
  exists p s ss, leaf (psched (DfsScheduler unlimited) (sim_until_stop lost_wakeup example_params 10 20 (sim_start lost_wakeup)) dfs_Start) p (inl (inl (Aborted s), ss)) /\
    sm_status s = Some StDeadlock /\ sm_alive s <> [] /\ forall t, t ∈ sm_alive s -> deadlocked_at lost_wakeup s t.
Proof.
  destruct (run_exists (psched (DfsScheduler unlimited) (sim_until_stop lost_wakeup example_params 10 20 (sim_start lost_wakeup)) dfs_Start)
    (fun x => match x.1 with inl (Aborted s) => bool_decide (sm_status s = Some StDeadlock) | _ => false end)) as (p & [[[ended s | s] | e] ss] & Hr & Hd); [vm_compute; reflexivity | discriminate Hd | | discriminate Hd].
  apply bool_decide_eq_true in Hd.
  destruct (simulation_stops_right (DfsScheduler unlimited) (dfs_lawful unlimited) lost_wakeup example_params 10 20 dfs_Start p _ lost_wakeup_modest eq_refl (dfs_suits _ _) (dfs_Start_holds _) Hr)
    as (st & Hst & _ & Hdead).
  assert (st = StDeadlock) as Heq by congruence. destruct (Hdead Heq) as (H1 & _ & H2 & _). exists p, s, ss. exact (conj Hr (conj Hd (conj H1 H2))).
Defined.

Lemma simulator_is_client_witness : client_ok dfs_supports (as_client (simulator handshake example_params 10 20)) abs0.
Proof. exact (proj1 (simulator_is_client (DfsScheduler unlimited) (dfs_lawful unlimited) handshake example_params 10 20 handshake_modest eq_refl (dfs_suits _ _))). Defined.


(** The model checker finds the lost wake-up, with a schedule that replays it, and no failure of
    the handshake. *)
Abbreviation explores Pr n := (Explore n (explored Pr) run_fails (explore_found unlimited (simulator Pr example_params 10 20)) [] 0).

(** Two threads that wait for ever. *)
Definition two_waiters : Program := scripts [on_word AtomicInit 0; ScSpawn; ScFutexWait word 0 FtMutexLock] [ScFutexWait word 0 FtMutexLock].

(** With isolation, [Burn] removes the deadlocked threads: [Remove] of the cooperative scheduler
    unlinks a thread from the queue of the futex, and then [WaitQueue::Remove] does not find it
    there; the check fails, and the deadlock is not reported.  Without isolation it is. *)
Lemma coop_burn_panics :
  (exists s, psched CoopScheduler (simulator two_waiters example_params 10 20) (coop_Start 42) = Ret (inr SInternal, s)) /\
  (exists s, psched CoopScheduler (simulator two_waiters (mkSimParams 10000 false true true true) 10 20) (coop_Start 42) = Ret (inr (SReport StDeadlock), s)).
Proof. split; eexists; vm_compute; reflexivity. Qed.
