(* ===== verification/UserLib.v ===== *)
(** The library that programs under test use in the simulator:
    src/deps/twist/source/twist/rt/sim/user: atomics, mutexes, the condition variable, threads,
    futexes, shared variables, all on top of the system calls of Simulator.v.

    A thread is a program ([U]) of system calls and of reads and writes of plain memory, which
    the simulator does not see; [user_program] makes a [Program] of the code of the main thread.
    Every value is an integer: [bool] is 0 or 1, [void] and [nullptr] are 0.  An object is its
    address: the word of a mutex is at that address, its other fields behind it.  What is only
    logged, printed or traced is left out, and so is the allocation of the states of threads, whose
    addresses are arguments; user code throws no exception, and [NDEBUG] is set. *)

From S2P Require Import Prelude SimSched SimMemory TimerHeap Simulator.
Local Open Scope Z_scope.

(** ** Programs *)

(** The calls of the library; what it leaves to others needs schedulers that support it. *)
Definition lib_call (c : syscall) : bool :=
  match c with
  | ScSwitchTo _ | ScSetLockFree _ | ScRandomNumber => false
  | ScAbort StOk | ScAbort StDeadlock => false
  | _ => true
  end.

(** [UWhile body k]: the loop runs [body] until its result is not [again]. *)
Inductive U :=
| URet (z : Z)
| USys (c : syscall) (H : lib_call c = true) (k : sys_answer -> U)
| UGet (l : Z) (k : Z -> U)
| USet (l v : Z) (k : U)
| USpawn (child : U) (k : Z -> U)
| UWhile (body : U) (k : Z -> U).

Definition again : Z := -1.

Fixpoint ubind (u : U) (f : Z -> U) : U :=
  match u with
  | URet z => f z
  | USys c H k => USys c H (fun r => ubind (k r) f)
  | UGet l k => UGet l (fun z => ubind (k z) f)
  | USet l v k => USet l v (ubind k f)
  | USpawn child k => USpawn child (fun z => ubind (k z) f)
  | UWhile body k => UWhile body (fun z => ubind (k z) f)
  end.

Declare Scope user_scope.
Delimit Scope user_scope with user.
Notation "x <- m ; k" := (ubind m (fun x => k)) (at level 100, m at next level, k at level 200, right associativity) : user_scope.
Notation "m ;; k" := (ubind m (fun _ => k)) (at level 100, k at level 200, right associativity) : user_scope.
Local Open Scope user_scope.

Definition ans_z (r : sys_answer) : Z := match r with SaNum z => z | SaBool b => Z.b2z b | _ => 0 end.
Notation usys c := (USys c eq_refl (fun r => URet (ans_z r))).
Definition uget (l : Z) : U := UGet l URet.
Definition uset (l v : Z) : U := USet l v (URet 0).
Definition uwhile (body : U) : U := UWhile body URet.

(** The code of the threads: where each is, and what has been spawned, in the order of the ids. *)
Record ustate := mkU { us_plain : gmap Z Z; us_code : gmap Z (sys_answer -> U); us_spawned : list U }.

(** Up to the next system call. *)
Inductive adv := AdvRet (z : Z) (m : gmap Z Z) | AdvSys (c : syscall) (k : sys_answer -> U) (m : gmap Z Z) | AdvSpawn (child : U) (k : Z -> U) (m : gmap Z Z).

Fixpoint advance (u : U) (m : gmap Z Z) : adv :=
  match u with
  | URet z => AdvRet z m
  | USys c _ k => AdvSys c k m
  | UGet l k => advance (k (default 0 (m !! l))) m
  | USet l v k => advance k (<[l := v]> m)
  | USpawn child k => AdvSpawn child k m
  | UWhile body k =>
      let next z := if z =? again then UWhile body k else k z in
      match advance body m with
      | AdvRet z m => if z =? again then AdvSys ScNoop (fun _ => UWhile body k) m else advance (k z) m
      | AdvSys c kb m => AdvSys c (fun r => ubind (kb r) next) m
      | AdvSpawn child kb m => AdvSpawn child (fun z => ubind (kb z) next) m
      end
  end.

(** A thread that has no more code exits. *)
Definition user_run (main : U) (st : ustate) (t : Z) (r : sys_answer) : ustate * syscall :=
  let u := match us_code st !! t with
           | Some k => k r
           | None => if t =? 1 then main else default (URet 0) (us_spawned st !! Z.to_nat (t - 2))
           end in
  match advance u (us_plain st) with
  | AdvRet _ m => (mkU m (us_code st) (us_spawned st), ScExit)
  | AdvSys c k m => (mkU m (<[t := k]> (us_code st)) (us_spawned st), c)
  | AdvSpawn child k m => (mkU m (<[t := fun r => k (ans_z r)]> (us_code st)) (us_spawned st ++ [child]), ScSpawn)
  end.
Definition user_program (main : U) : Program := mkProgram ustate (mkU ∅ ∅ []) (user_run main).

(** ** Scheduling, failures, time *)

Definition usync (type : ActionType) (loc size value : Z) (mo : MemoryOrder) : U := usys (ScSync (mkAction type loc size value mo)).

(** [PreemptionGuard] around [m] *)
Definition guarded (m : U) : U :=
  status <- usys (ScSetPreemptive false);
  r <- m;
  usys (ScSetPreemptive (negb (status =? 0))) ;;
  URet r.

(** [Panic]; the message is not modelled. *)
Definition Panic (st : SimStatus) (H : lib_call (ScAbort st) = true) : U := usys ScGetId ;; USys (ScAbort st) H (fun _ => URet 0).
(** [___TWIST_SIM_USER_VERIFY] *)
Definition user_verify (b : bool) : U := if b then URet 0 else Panic StLibraryAssert eq_refl.

(** [SpuriousTryFailure], [ReportProgress], [NewIterHint], [Either], [abort], [Prune] *)
Definition SpuriousTryFailure : U := usys ScSpuriousTryFailure.
Definition ReportProgress : U := usys ScProgress.
Definition NewIterHint : U := usys ScNewIter.
Definition Either : U := r <- usys (ScRandomChoice 2); URet (Z.b2z (r =? 0)).
Definition Either_of (alts : nat) : U := usys (ScRandomChoice alts).
Definition c_abort : U := usys (ScAbort StUserAbort).
Definition Prune (isolated : bool) : U := if isolated then usys (ScAbort StPruned) else URet 0.

Definition unow : U := usys ScNow.
(** [DeadLine] *)
Definition deadline_FromTimeout (timeout : Z) : U := now <- unow; URet (now + timeout).
Definition deadline_Expired (d : Z) : U := now <- unow; URet (Z.b2z (d <? now)).

(** ** Atomics *)

Section atomic.
Context (size_ loc : Z).

Definition wrap (z : Z) : Z := z mod 2 ^ (8 * size_).

Definition atomic_load (mo : MemoryOrder) : U := usync AtomicLoad loc size_ 0 mo.
Definition atomic_DebugLoad (mo : MemoryOrder) : U := guarded (usync AtomicDebugLoad loc size_ 0 mo).
Definition atomic_store (v : Z) (mo : MemoryOrder) : U := usync AtomicStore loc size_ v mo ;; URet 0.
Definition atomic_exchange (v : Z) (mo : MemoryOrder) : U :=
  r <- usync AtomicRmwLoad loc size_ 0 mo;
  guarded (usync AtomicRmwCommit loc size_ v mo) ;;
  URet r.
(** [RMW] *)
Definition atomic_RMW (modify : Z -> Z) (mo : MemoryOrder) : U :=
  r <- usync AtomicRmwLoad loc size_ 0 mo;
  guarded (usync AtomicRmwCommit loc size_ (modify r) mo) ;;
  URet r.
Definition fetch_add (delta : Z) : MemoryOrder -> U := atomic_RMW (fun v => wrap (v + delta)).
Definition fetch_sub (delta : Z) : MemoryOrder -> U := atomic_RMW (fun v => wrap (v - delta)).
Definition fetch_and (x : Z) : MemoryOrder -> U := atomic_RMW (fun v => Z.land v x).
Definition fetch_or (x : Z) : MemoryOrder -> U := atomic_RMW (fun v => Z.lor v x).
Definition fetch_xor (x : Z) : MemoryOrder -> U := atomic_RMW (fun v => Z.lxor v x).

(** The result of [compare_exchange]: [cas_done], or the value that was found. *)
Definition cas_done : Z := -1.

Definition CompareExchangeSpuriousFailure (weak : bool) : U := if weak then SpuriousTryFailure else URet 0.
Definition CompareExchangeSimple (expected desired : Z) (mo : MemoryOrder) (weak : bool) : U :=
  old <- usync AtomicRmwLoad loc size_ 0 mo;
  guarded (
    fail <- (if old =? expected then CompareExchangeSpuriousFailure weak else URet 1);
    if fail =? 0 then usync AtomicRmwCommit loc size_ desired mo ;; URet cas_done
    else URet old).

Definition IsAtLeastAcquireMemoryOrder (mo : MemoryOrder) : bool := match mo with mo_acquire | mo_acq_rel | mo_seq_cst => true | _ => false end.
Definition CompareExchangeAcquireFence : U := usync AtomicThreadFence loc size_ 0 mo_acquire.
Definition CompareExchangeWithFailureMemoryOrder (expected desired : Z) (success failure : MemoryOrder) (weak : bool) : U :=
  old <- usync AtomicRmwLoad loc size_ 0 mo_relaxed;
  guarded (
    fail <- (if old =? expected then CompareExchangeSpuriousFailure weak else URet 1);
    if fail =? 0 then
      (if IsAtLeastAcquireMemoryOrder success then CompareExchangeAcquireFence else URet 0) ;;
      usync AtomicRmwCommit loc size_ desired success ;;
      URet cas_done
    else
      (if IsAtLeastAcquireMemoryOrder failure then CompareExchangeAcquireFence else URet 0) ;;
      URet old).

Definition mo_eqb (a b : MemoryOrder) : bool :=
  match a, b with
  | mo_relaxed, mo_relaxed | mo_consume, mo_consume | mo_acquire, mo_acquire | mo_release, mo_release | mo_acq_rel, mo_acq_rel | mo_seq_cst, mo_seq_cst => true
  | _, _ => false
  end.
Definition compare_exchange (weak : bool) (expected desired : Z) (success failure : MemoryOrder) : U :=
  if mo_eqb success failure then CompareExchangeSimple expected desired success weak
  else CompareExchangeWithFailureMemoryOrder expected desired success failure weak.
Definition compare_exchange_strong : Z -> Z -> MemoryOrder -> MemoryOrder -> U := compare_exchange false.
Definition compare_exchange_weak : Z -> Z -> MemoryOrder -> MemoryOrder -> U := compare_exchange true.

(** The operators; the value of the expression. *)
Definition op_pre_inc : U := r <- fetch_add 1 mo_seq_cst; URet (wrap (r + 1)).
Definition op_post_inc : U := fetch_add 1 mo_seq_cst.
Definition op_pre_dec : U := r <- fetch_sub 1 mo_seq_cst; URet (wrap (r - 1)).
Definition op_post_dec : U := fetch_sub 1 mo_seq_cst.
Definition op_add_assign (delta : Z) : U := r <- fetch_add delta mo_seq_cst; URet (wrap (r + delta)).
Definition op_sub_assign (delta : Z) : U := r <- fetch_sub delta mo_seq_cst; URet (wrap (r - delta)).
Definition op_and_assign (x : Z) : U := r <- fetch_and x mo_seq_cst; URet (Z.land r x).
Definition op_or_assign (x : Z) : U := r <- fetch_or x mo_seq_cst; URet (Z.lor r x).
Definition op_xor_assign (x : Z) : U := r <- fetch_xor x mo_seq_cst; URet (Z.lxor r x).

(** [FetchArithm] of pointers to objects of size [elem] *)
Definition ptr_FetchArithm (elem delta : Z) (mo : MemoryOrder) : U :=
  r <- usync AtomicRmwLoad loc size_ 0 mo;
  guarded (usync AtomicRmwCommit loc size_ (wrap (r + elem * delta)) mo) ;;
  URet r.
Definition ptr_fetch_add (elem delta : Z) : MemoryOrder -> U := ptr_FetchArithm elem delta.
Definition ptr_fetch_sub (elem delta : Z) : MemoryOrder -> U := ptr_FetchArithm elem (- delta).

(** [Init], [Destroy] *)
Definition atomic_Init (v : Z) : U := guarded (usync AtomicInit loc size_ v mo_relaxed).
Definition atomic_Destroy : U := guarded (usync AtomicDestroy loc size_ 0 mo_relaxed).

(** [wait], [notify_one], [notify_all] *)
Definition AtomicWaitFutexLoc : FutexLoc := mkFutexLoc loc size_ Whole Std.
Definition atomic_wait (old : Z) (mo : MemoryOrder) : U :=
  uwhile (
    v <- atomic_load mo;
    if v =? old then usys (ScFutexWait AtomicWaitFutexLoc old FtAtomic) ;; URet again else URet 0).
Definition atomic_notify_one : U := usys (ScFutexWake AtomicWaitFutexLoc 1).
Definition atomic_notify_all : U := usys (ScFutexWake AtomicWaitFutexLoc 0).
End atomic.

(** [atomic_flag] *)
Definition flag_clear (loc : Z) (mo : MemoryOrder) : U := usync AtomicStore loc 4 0 mo ;; URet 0.
Definition flag_test_and_set (loc : Z) (mo : MemoryOrder) : U :=
  r <- usync AtomicRmwLoad loc 4 0 mo;
  guarded (usync AtomicRmwCommit loc 4 1 mo) ;;
  URet (Z.b2z (r =? 1)).
Definition flag_test (loc : Z) (mo : MemoryOrder) : U := r <- usync AtomicLoad loc 4 0 mo; URet (Z.b2z (r =? 1)).

Definition flag_DebugTest (loc : Z) (mo : MemoryOrder) : U := guarded (r <- usync AtomicDebugLoad loc 4 0 mo; URet (Z.b2z (r =? 1))).
Definition StdAtomicFlagFutexLoc (loc : Z) : FutexLoc := mkFutexLoc loc 4 Whole Std.
Definition flag_wait (loc old : Z) (mo : MemoryOrder) : U :=
  uwhile (
    v <- flag_test loc mo;
    if v =? old then usys (ScFutexWait (StdAtomicFlagFutexLoc loc) old FtAtomic) ;; URet again else URet 0).
Definition flag_notify_one (loc : Z) : U := usys (ScFutexWake (StdAtomicFlagFutexLoc loc) 1).
Definition flag_notify_all (loc : Z) : U := usys (ScFutexWake (StdAtomicFlagFutexLoc loc) 0).
Definition flag_Init (loc : Z) : U := guarded (usync AtomicInit loc 4 0 mo_relaxed).
Definition flag_Destroy (loc : Z) : U := guarded (usync AtomicDestroy loc 4 0 mo_relaxed).

(** [atomic_thread_fence] *)
Definition atomic_thread_fence (mo : MemoryOrder) : U := usync AtomicThreadFence 0 0 0 mo ;; URet 0.

(** [Interrupt] stores to a static variable, at [interrupt]. *)
Definition Interrupt (interrupt : Z) : U := atomic_store 8 interrupt 1 mo_relaxed.
(** [Budget] at [b] *)
Definition Budget_Withdraw (interrupt b count : Z) : U :=
  left <- uget b;
  if left <? count then URet 0
  else
    Interrupt interrupt ;;
    left <- uget b;
    if count <=? left then uset b (left - count) ;; URet 1 else URet 0.

(** [SyncVar]: an [AtomicBase<uint32_t>] *)
Definition SyncVar_FutexLoc (loc : Z) : FutexLoc := mkFutexLoc loc 4 Whole Uint32.
Definition SyncVar_Load : Z -> MemoryOrder -> U := atomic_load 4.
Definition SyncVar_Store : Z -> Z -> MemoryOrder -> U := atomic_store 4.
Definition SyncVar_Exchange : Z -> Z -> MemoryOrder -> U := atomic_exchange 4.
Definition SyncVar_FetchAdd : Z -> Z -> MemoryOrder -> U := fetch_add 4.
Definition SyncVar_FetchSub : Z -> Z -> MemoryOrder -> U := fetch_sub 4.
Definition SyncVar_CompareExchangeWeak : Z -> Z -> Z -> MemoryOrder -> MemoryOrder -> U := compare_exchange_weak 4.
Definition SyncVar_CompareExchangeStrong : Z -> Z -> Z -> MemoryOrder -> MemoryOrder -> U := compare_exchange_strong 4.

(** [Shared<T>]: a plain variable whose accesses the simulator sees. *)
Definition shared_Init (loc v : Z) : U := usys (ScAccess loc AInit) ;; uset loc v.
Definition shared_Read (loc : Z) : U := usys (ScAccess loc ARead) ;; uget loc.
Definition shared_Write (loc v : Z) : U := usys (ScAccess loc AWrite) ;; uset loc v.
Definition shared_Destroy (loc : Z) : U := usys (ScAccess loc ADestroy).
(** [Plate] at [p]: [last_owner_] and [count_] *)
Definition Plate_Access (p : Z) : U := id <- usys ScGetId; shared_Write p id ;; count <- uget (p + 8); uset (p + 8) (count + 1).

(** ** Mutexes *)

(** [MutexOwner] at [o] *)
Definition MutexOwner_Lock (o : Z) : U := id <- usys ScGetId; uset o id.
Definition MutexOwner_Own (o : Z) : U := owner <- uget o; id <- usys ScGetId; URet (Z.b2z (owner =? id)).
Definition MutexOwner_Unlock (o : Z) : U := own <- MutexOwner_Own o; user_verify (own =? 1) ;; uset o 0.

Definition Unlocked : Z := 0.
Definition Locked : Z := 1.

Section mutex.
Context (m : Z).

(** [MutexImpl]: [locked_] and [contention_] *)
Definition MutexImpl_Init : U := atomic_Init 4 m Unlocked ;; uset (m + 8) 0.
Definition MutexImpl_Destroy : U := atomic_Destroy 4 m.
Definition MutexImpl_Lock : U :=
  uwhile (
    old <- SyncVar_Exchange m Locked mo_acquire;
    if old =? Locked then
      n <- uget (m + 8);
      uset (m + 8) (n + 1) ;;
      usys (ScFutexWait (SyncVar_FutexLoc m) Locked FtMutexLock) ;;
      n <- uget (m + 8);
      uset (m + 8) (n - 1) ;;
      URet again
    else URet 0).
Definition MutexImpl_TryLock : U :=
  r <- SyncVar_CompareExchangeWeak m Unlocked Locked mo_acquire mo_relaxed;
  URet (Z.b2z (r =? cas_done)).
Definition MutexImpl_Unlock : U :=
  SyncVar_Store m Unlocked mo_release ;;
  n <- uget (m + 8);
  if 0 <? n then usys (ScFutexWake (SyncVar_FutexLoc m) 1) else URet 0.

(** [mutex]: [impl_] and [owner_] *)
Definition mutex_ctor : U := MutexImpl_Init ;; uset (m + 16) 0.
Definition mutex_dtor : U := MutexImpl_Destroy.
Definition mutex_lock : U := MutexImpl_Lock ;; MutexOwner_Lock (m + 16).
Definition mutex_try_lock : U :=
  acquired <- MutexImpl_TryLock;
  (if acquired =? 1 then MutexOwner_Lock (m + 16) else URet 0) ;;
  URet acquired.
Definition mutex_unlock : U := MutexOwner_Unlock (m + 16) ;; MutexImpl_Unlock.
End mutex.

Section timed_mutex.
Context (m : Z).

Definition TimedMutexImpl_Init : U := atomic_Init 4 m Unlocked.
Definition TimedMutexImpl_Lock : U :=
  uwhile (
    old <- SyncVar_Exchange m Locked mo_acquire;
    if old =? Locked then usys (ScFutexWait (SyncVar_FutexLoc m) Locked FtMutexLock) ;; URet again else URet 0).
Definition TimedMutexImpl_TryLock : U :=
  r <- SyncVar_CompareExchangeWeak m Unlocked Locked mo_acquire mo_relaxed;
  URet (Z.b2z (r =? cas_done)).
(** The result of the loop: whether the mutex has been taken. *)
Definition TimedMutexImpl_TryLockTimed (d : Z) : U :=
  uwhile (
    old <- SyncVar_Exchange m Locked mo_acquire;
    if old =? Locked then
      expired <- deadline_Expired d;
      if expired =? 1 then URet 0
      else usys (ScFutexWait (SyncVar_FutexLoc m) Locked FtMutexTryLock) ;; URet again
    else URet 1).
Definition TimedMutexImpl_TryLockFor (timeout : Z) : U := d <- deadline_FromTimeout timeout; TimedMutexImpl_TryLockTimed d.
Definition TimedMutexImpl_TryLockUntil (d : Z) : U := TimedMutexImpl_TryLockTimed d.
Definition TimedMutexImpl_Unlock : U :=
  SyncVar_Store m Unlocked mo_release ;;
  usys (ScFutexWake (SyncVar_FutexLoc m) 1).

(** [timed_mutex]: [impl_] and [owner_] *)
Definition timed_mutex_ctor : U := TimedMutexImpl_Init ;; uset (m + 8) 0.
Definition timed_mutex_dtor : U := atomic_Destroy 4 m.
Definition timed_mutex_lock : U := TimedMutexImpl_Lock ;; MutexOwner_Lock (m + 8).
Definition timed_mutex_acquired (acquired : Z) : U := (if acquired =? 1 then MutexOwner_Lock (m + 8) else URet 0) ;; URet acquired.
Definition timed_mutex_try_lock : U := acquired <- TimedMutexImpl_TryLock; timed_mutex_acquired acquired.
Definition timed_mutex_try_lock_for (timeout : Z) : U := acquired <- TimedMutexImpl_TryLockFor timeout; timed_mutex_acquired acquired.
Definition timed_mutex_try_lock_until (d : Z) : U := acquired <- TimedMutexImpl_TryLockUntil d; timed_mutex_acquired acquired.
Definition timed_mutex_unlock : U := MutexOwner_Unlock (m + 8) ;; TimedMutexImpl_Unlock.
End timed_mutex.

Section shared_mutex.
Context (m : Z).

(** The writer bit, and the readers. *)
Definition shared_Unpack (state : Z) : bool * Z := (Z.land state 1 =? 1, Z.shiftr state 1).
Definition shared_Pack (writer : bool) (readers : Z) : Z := Z.lor (wrap 4 (Z.shiftl readers 1)) (Z.b2z writer).

Definition SharedMutexImpl_Init : U := atomic_Init 4 m (shared_Pack false 0).
Definition SharedMutexImpl_wait (state : Z) : U := usys (ScFutexWait (SyncVar_FutexLoc m) state FtMutexLock) ;; URet again.
Definition SharedMutexImpl_Lock : U :=
  uwhile (
    state <- SyncVar_Load m mo_acquire;
    let '(writer, readers) := shared_Unpack state in
    if negb writer && (readers =? 0) then
      r <- SyncVar_CompareExchangeStrong m state (shared_Pack true 0) mo_relaxed mo_relaxed;
      URet (if r =? cas_done then 0 else again)
    else SharedMutexImpl_wait state).
Definition SharedMutexImpl_TryLock : U :=
  r <- SyncVar_CompareExchangeWeak m (shared_Pack false 0) (shared_Pack true 0) mo_acquire mo_relaxed;
  URet (Z.b2z (r =? cas_done)).
Definition SharedMutexImpl_Unlock : U :=
  SyncVar_Store m (shared_Pack false 0) mo_release ;;
  usys (ScFutexWake (SyncVar_FutexLoc m) 0).
Definition SharedMutexImpl_LockShared : U :=
  uwhile (
    state <- SyncVar_Load m mo_acquire;
    let '(writer, readers) := shared_Unpack state in
    if negb writer then
      r <- SyncVar_CompareExchangeStrong m state (shared_Pack false (wrap 4 (readers + 1))) mo_relaxed mo_relaxed;
      URet (if r =? cas_done then 0 else again)
    else SharedMutexImpl_wait state).
Definition SharedMutexImpl_TryLockShared : U :=
  uwhile (
    state <- SyncVar_Load m mo_acquire;
    let '(writer, readers) := shared_Unpack state in
    if negb writer then
      r <- SyncVar_CompareExchangeStrong m state (shared_Pack false (wrap 4 (readers + 1))) mo_relaxed mo_relaxed;
      URet (if r =? cas_done then 1 else again)
    else URet 0).
Definition SharedMutexImpl_UnlockShared : U :=
  old <- SyncVar_FetchSub m 2 mo_release;
  let '(_, readers) := shared_Unpack old in
  user_verify (0 <? readers) ;;
  if readers =? 1 then usys (ScFutexWake (SyncVar_FutexLoc m) 1) else URet 0.

(** [shared_mutex]: [impl_] and [owner_] *)
Definition shared_mutex_ctor : U := SharedMutexImpl_Init ;; uset (m + 4) 0.
Definition shared_mutex_dtor : U := atomic_Destroy 4 m.
Definition shared_mutex_lock : U := SharedMutexImpl_Lock ;; MutexOwner_Lock (m + 4).
Definition shared_mutex_try_lock : U :=
  acquired <- SharedMutexImpl_TryLock;
  (if acquired =? 1 then MutexOwner_Lock (m + 4) else URet 0) ;;
  URet acquired.
Definition shared_mutex_unlock : U := MutexOwner_Unlock (m + 4) ;; SharedMutexImpl_Unlock.
End shared_mutex.

Definition shared_mutex_lock_shared : Z -> U := SharedMutexImpl_LockShared.
Definition shared_mutex_try_lock_shared : Z -> U := SharedMutexImpl_TryLockShared.
Definition shared_mutex_unlock_shared : Z -> U := SharedMutexImpl_UnlockShared.

(** ** Owners of locks, for the native mutexes *)

Record Lockable := mkLockable { lk_lock : Z -> U; lk_try_lock : Z -> U; lk_unlock : Z -> U }.
Definition mutex_ops : Lockable := mkLockable mutex_lock mutex_try_lock mutex_unlock.
Definition timed_mutex_ops : Lockable := mkLockable timed_mutex_lock timed_mutex_try_lock timed_mutex_unlock.
Definition shared_mutex_ops : Lockable := mkLockable shared_mutex_lock shared_mutex_try_lock shared_mutex_unlock.

(** [unique_lock] at [l]: [mutex_] and [owns_] *)
Section unique_lock.
Context (ops : Lockable) (l : Z).

Definition unique_lock_ctor (m : Z) : U := uset l m ;; uset (l + 8) 1 ;; lk_lock ops m.
Definition unique_lock_defer (m : Z) : U := uset l m ;; uset (l + 8) 0.
Definition unique_lock_adopt (m : Z) : U := uset l m ;; uset (l + 8) 1.
Definition unique_lock_try (m : Z) : U := uset l m ;; acquired <- lk_try_lock ops m; uset (l + 8) acquired.
Definition unique_lock_dtor : U := owns <- uget (l + 8); m <- uget l; if owns =? 1 then lk_unlock ops m else URet 0.
(** What the moves have in common. *)
Definition unique_lock_take (that : Z) : U :=
  m <- uget that; uset l m ;; owns <- uget (that + 8); uset (l + 8) owns ;; uset that 0 ;; uset (that + 8) 0.
Definition unique_lock_move_ctor (that : Z) : U := unique_lock_take that.
Definition unique_lock_move_assign (that : Z) : U := unique_lock_dtor ;; unique_lock_take that.
Definition UniqueLockImpl_Lock : U := m <- uget l; lk_lock ops m ;; uset (l + 8) 1.
Definition UniqueLockImpl_TryLock : U := m <- uget l; acquired <- lk_try_lock ops m; uset (l + 8) acquired ;; URet acquired.
Definition UniqueLockImpl_Unlock : U := m <- uget l; lk_unlock ops m ;; uset (l + 8) 0.
Definition UniqueLockImpl_Mutex : U := uget l.
Definition UniqueLockImpl_OwnsLock : U := uget (l + 8).
Definition UniqueLockImpl_Release : U := m <- uget l; uset l 0 ;; uset (l + 8) 0 ;; URet m.
Definition UniqueLockImpl_Swap (that : Z) : U :=
  m <- uget l; m' <- uget that; uset l m' ;; uset that m ;;
  owns <- uget (l + 8); owns' <- uget (that + 8); uset (l + 8) owns' ;; uset (that + 8) owns.
End unique_lock.

(** [lock_guard] around [body] *)
Definition lock_guard (ops : Lockable) (m : Z) (body : U) : U := lk_lock ops m ;; r <- body; lk_unlock ops m ;; URet r.

(** ** The condition variable

    [l] is a [unique_lock] of a [mutex]; the temporary [new_lock] is at [l + 16]. *)

Section condition_variable.
Context (cv : Z).

Definition CondVarImpl_Init : U := atomic_Init 4 cv 0.
Definition CondVarImpl_Destroy : U := atomic_Destroy 4 cv.
(** The lock gets its mutex back. *)
Definition cv_relock (l m : Z) : U :=
  mutex_lock m ;;
  unique_lock_adopt (l + 16) m ;;
  UniqueLockImpl_Swap l (l + 16) ;;
  unique_lock_dtor mutex_ops (l + 16).
Definition CondVarImpl_Wait (l : Z) : U :=
  m <- UniqueLockImpl_Release l;
  old_count <- SyncVar_Load cv mo_relaxed;
  mutex_unlock m ;;
  usys (ScFutexWait (SyncVar_FutexLoc cv) old_count FtCondVar) ;;
  cv_relock l m.
(** The result: whether the time is up ([cv_status::timeout]). *)
Definition CondVarImpl_WaitTimed (l d : Z) : U :=
  m <- UniqueLockImpl_Release l;
  old_count <- SyncVar_Load cv mo_relaxed;
  mutex_unlock m ;;
  usys (ScFutexWaitTimed (SyncVar_FutexLoc cv) old_count d FtCondVar) ;;
  cv_relock l m ;;
  deadline_Expired d.
Definition CondVarImpl_NotifyOne : U := SyncVar_FetchAdd cv 1 mo_relaxed ;; usys (ScFutexWake (SyncVar_FutexLoc cv) 1).
Definition CondVarImpl_NotifyAll : U := SyncVar_FetchAdd cv 1 mo_relaxed ;; usys (ScFutexWake (SyncVar_FutexLoc cv) 0).

(** [wait] with a predicate, [wait_until], [wait_for] *)
Definition cv_wait_pred (l : Z) (predicate : U) : U := uwhile (p <- predicate; if p =? 0 then CondVarImpl_Wait l ;; URet again else URet 0).
Definition cv_wait_until (l d : Z) : U := CondVarImpl_WaitTimed l d.
Definition cv_wait_for (l timeout : Z) : U := d <- deadline_FromTimeout timeout; CondVarImpl_WaitTimed l d.
End condition_variable.

(** ** Futexes *)

(** [AtomicUint32Ref], [AtomicUint64Ref] *)
Inductive AtomicRef := Ref32 (loc : Z) | RefLow (loc : Z) | RefHigh (loc : Z).
Definition ref_Load (a : AtomicRef) (mo : MemoryOrder) : U := match a with Ref32 l => atomic_load 4 l mo | RefLow l | RefHigh l => atomic_load 8 l mo end.
Definition ref_GetFutexValue (a : AtomicRef) (v : Z) : Z :=
  match a with Ref32 _ => v | RefLow _ => Z.land v 0xFFFFFFFF | RefHigh _ => Z.land (Z.shiftr v 32) 0xFFFFFFFF end.
Definition ref_FutexLoc (a : AtomicRef) : FutexLoc :=
  match a with Ref32 l => mkFutexLoc l 4 Whole Uint32 | RefLow l => mkFutexLoc l 8 LowHalf Uint64Half | RefHigh l => mkFutexLoc l 8 HighHalf Uint64Half end.

(** [WaitImpl]; the values of atomics are not negative. *)
Definition futex_Wait (a : AtomicRef) (old : Z) (mo : MemoryOrder) : U :=
  uwhile (
    usys (ScFutexWait (ref_FutexLoc a) old FtFutex) ;;
    v <- ref_Load a mo;
    URet (if ref_GetFutexValue a v =? old then again else v)).
(** [WaitTimedImpl]: the value plus one, or 0 when the time is up. *)
Definition futex_WaitTimed (a : AtomicRef) (old timeout : Z) (mo : MemoryOrder) : U :=
  now <- unow;
  let deadline := now + timeout in
  uwhile (
    now <- unow;
    if deadline <=? now then URet 0
    else
      usys (ScFutexWaitTimed (ref_FutexLoc a) old deadline FtFutex) ;;
      v <- ref_Load a mo;
      URet (if ref_GetFutexValue a v =? old then again else v + 1)).
Definition futex_WakeOne (a : AtomicRef) : U := usys (ScFutexWake (ref_FutexLoc a) 1).
Definition futex_WakeAll (a : AtomicRef) : U := usys (ScFutexWake (ref_FutexLoc a) 0).

(** ** Threads *)

Section thread.
Context (s : Z).

(** [StateBase]: [sync] and [id]; [DestroySelf] also deletes the state. *)
Definition StateBase_ctor : U := atomic_Init 4 s 2.
Definition StateBase_DestroySelf : U := atomic_Destroy 4 s.
Definition StateBase_AtThreadExit : U :=
  old <- SyncVar_FetchSub s 1 mo_acq_rel;
  if old =? 1 then StateBase_DestroySelf else usys (ScFutexWake (SyncVar_FutexLoc s) 1).
Definition StateBase_Join : U :=
  uwhile (
    v <- SyncVar_Load s mo_acquire;
    if v =? 2 then usys (ScFutexWait (SyncVar_FutexLoc s) 2 FtThread) ;; URet again else URet 0) ;;
  StateBase_DestroySelf.
Definition StateBase_Detach : U :=
  id <- uget (s + 4);
  usys (ScDetach id) ;;
  old <- SyncVar_FetchSub s 1 mo_acq_rel;
  if old =? 1 then StateBase_DestroySelf else URet 0.

(** [Entry] of the new thread: [RunUser], [AtThreadExit] *)
Definition thread_Entry (user : U) : U := user ;; guarded StateBase_AtThreadExit.
End thread.

(** [thread] at [th]: [state_] *)
Section thread_object.
Context (th : Z).

Definition thread_default : U := uset th 0.
(** The state is at [s]. *)
Definition thread_ctor (s : Z) (user : U) : U :=
  StateBase_ctor s ;;
  id <- USpawn (thread_Entry s user) URet;
  uset (s + 4) id ;;
  uset th s.
Definition thread_HasState : U := s <- uget th; URet (Z.b2z (negb (s =? 0))).
Definition thread_ReleaseState : U := s <- uget th; uset th 0 ;; URet s.
Definition thread_dtor : U := has <- thread_HasState; user_verify (has =? 0).
Definition thread_move_ctor (that : Z) : U := s <- uget that; uset that 0 ;; uset th s.
Definition thread_move_assign (that : Z) : U := has <- thread_HasState; user_verify (has =? 0) ;; s <- uget that; uset that 0 ;; uset th s.
Definition thread_get_id : U := s <- uget th; if s =? 0 then URet 0 else uget (s + 4).
Definition thread_joinable : U := thread_HasState.
Definition thread_join : U := has <- thread_HasState; user_verify (has =? 1) ;; s <- thread_ReleaseState; StateBase_Join s.
Definition thread_detach : U := has <- thread_HasState; user_verify (has =? 1) ;; s <- thread_ReleaseState; StateBase_Detach s.
Definition thread_swap (that : Z) : U := s <- uget th; s' <- uget that; uset th s' ;; uset that s.
End thread_object.

Definition this_thread_get_id : U := usys ScGetId.
Definition this_thread_yield : U := usys ScYield.
Definition this_thread_sleep_for (delay : Z) : U := usys (ScSleepFor delay).
Definition this_thread_sleep_until (deadline : Z) : U := usys (ScSleepUntil deadline).

(** [SpinWait] at [w], [CpuRelax] *)
Section spin_wait.
Context (IsModelChecker : bool) (SpinWaitYieldThreshold w : Z).
Definition SpinWait_ctor : U := uset w 0.
Definition SpinWait_Spin : U := n <- uget w; uset w (n + 1) ;; usys ScYield.
Definition SpinWait_ConsiderParking : U := if IsModelChecker then URet 1 else n <- uget w; URet (Z.b2z (SpinWaitYieldThreshold <? n)).
Definition SpinWait_KeepSpinning : U := parking <- SpinWait_ConsiderParking; URet (1 - parking).
End spin_wait.
Definition sim_CpuRelax : U := usys ScYield.

(** [test::WaitGroup] at [w]: [left_] and [done_]; the list at [head_] is an argument, and its
    length is [count_].  The threads are spawned by [Join]. *)
Section wait_group.
Context (w : Z).

Definition WaitGroup_AtThreadExit : U :=
  guarded (
    old <- fetch_sub 8 w 1 mo_seq_cst;
    if old =? 1 then atomic_store 4 (w + 8) 1 mo_seq_cst ;; usys (ScFutexWake (SyncVar_FutexLoc (w + 8)) 1) else URet 0).
Fixpoint WaitGroup_spawn (users : list U) : U :=
  match users with [] => URet 0 | user :: users => USpawn (user ;; guarded WaitGroup_AtThreadExit) URet ;; WaitGroup_spawn users end.
Definition WaitGroup_ctor : U := atomic_Init 8 w 0 ;; atomic_Init 4 (w + 8) 0.
Definition WaitGroup_dtor : U := atomic_Destroy 4 (w + 8) ;; atomic_Destroy 8 w.
(** [Add]: in front *)
Definition WaitGroup_Add (user : U) (head : list U) : list U := user :: head.
Fixpoint WaitGroup_AddMany (count : nat) (user : U) (head : list U) : list U :=
  match count with O => head | S count => WaitGroup_AddMany count user (WaitGroup_Add user head) end.
Definition WaitGroup_Join (users : list U) : U :=
  if (length users =? 0)%nat then URet 0
  else
    atomic_store 8 w (Z.of_nat (length users)) mo_seq_cst ;;
    WaitGroup_spawn users ;;
    uwhile (
      usys (ScFutexWait (SyncVar_FutexLoc (w + 8)) 0 FtWaitGroup) ;;
      d <- atomic_load 4 (w + 8) mo_seq_cst;
      URet (if d =? 1 then 0 else again)).
End wait_group.
