(* ===== verification/UserRuns.v ===== *)
(** Programs over the user library (UserLib.v) in the simulator: whatever they do, the theorems
    of SimulatorRuns.v apply to them; and the model checker, run inside of the proofs, decides
    small ones for all interleavings.  Two of the mutexes fail. *)

From S2P Require Import Prelude SimSched DfsSched SimMemory TimerHeap Simulator SimulatorCorrect SimulatorRuns UserLib.
Local Open Scope Z_scope.
Local Open Scope user_scope.

(** ** The library keeps to the calls that every scheduler supports *)

Lemma lib_call_modest c : lib_call c = true -> modest_call c.
Proof. by destruct c as [| | | | | | | | | | | | | | | | | [] | | | | | | |]. Qed.

Lemma advance_lib u m : match advance u m with AdvSys c _ _ => lib_call c = true | _ => True end.
Proof.
  revert m. induction u as [z | c H k IH | l k IH | l v k IH | child IHc k IH | body IHb k IH]; intros m; cbn [advance]; try done.
  - apply IH.
  - apply IH.
  - specialize (IHb m). destruct (advance body m) as [z m' | c kb m' | child kb m']; [| done | done]. destruct (z =? again); [done | apply IH].
Qed.

Lemma user_modest main : modest (user_program main).
Proof.
  intros st t r. cbn. unfold user_run. pose proof (advance_lib (match us_code st !! t with Some k => k r | None => if t =? 1 then main else default (URet 0) (us_spawned st !! Z.to_nat (t - 2)) end) (us_plain st)) as H.
  destruct (advance _ _) as [z m | c k m | child k m]; cbn; [done | by apply lib_call_modest | done].
Qed.

(** ** Deciding a program *)

Definition user_sim (main : U) : Proc SimResult := simulator (user_program main) example_params 100 300.

(** All runs of [main] end with one of the statuses. *)
Definition ends_with (statuses : list SimStatus) (main : U) : Prop :=
  forall hist a r, interleaving unlimited (as_client (user_sim main)) hist a -> client_result (user_sim main) hist = Some r ->
    exists res, r = inl res /\ rs_status res ∈ statuses.

Definition run_ends {X} (statuses : list SimStatus) (r : (SimResult + sim_stop) * X + stop) : bool :=
  match r with inl (inl res, _) => bool_decide (rs_status res ∈ statuses) | _ => false end.
Definition check_ends (statuses : list SimStatus) (main : U) : bool :=
  forallb (fun x => run_ends statuses x.2) (executions (psched (DfsScheduler unlimited) (user_sim main) dfs_Start)).

Lemma check_ends_sound statuses main : check_ends statuses main = true -> ends_with statuses main.
Proof.
  intros H hist a r Hint Hres.
  destruct (interleaving_explored unlimited (user_program main) example_params 100 300 eq_refl eq_refl eq_refl (user_modest main) eq_refl hist a r Hint Hres) as (p & s & Hin).
  unfold check_ends in H. rewrite forallb_forall in H. specialize (H _ (proj1 (list_elem_of_In _ _) Hin)). cbn in H. destruct r as [res |]; [| done].
  exists res. split; [done |]. by apply bool_decide_eq_true in H.
Qed.

(** ** Clients *)

Definition x_ : Z := 1000.
Definition mu_ : Z := 2000.
Definition th_ : Z := 3000.
Definition st_ : Z := 3100.
Definition cv_ : Z := 4000.
Definition wg_ : Z := 5000.
Definition l_ : Z := 6000.
Definition interrupt_ : Z := 7000.

(** [user] in a thread of its own, [main], and the join. *)
Definition with_thread (user main : U) : U := thread_ctor th_ st_ user ;; main ;; thread_join th_.

Definition increment : U := v <- shared_Read x_; shared_Write x_ (v + 1).
Definition expect (read : U) (z : Z) : U := v <- read; user_verify (v =? z).

(** Two threads count under a lock; the result is 2. *)
Definition counter (ctor lock unlock dtor : U) : U :=
  shared_Init x_ 0 ;; ctor ;;
  with_thread (lock ;; increment ;; unlock) (lock ;; increment ;; unlock) ;;
  expect (shared_Read x_) 2 ;;
  dtor ;; shared_Destroy x_.
Definition counter_mutex : U := counter (mutex_ctor mu_) (mutex_lock mu_) (mutex_unlock mu_) (mutex_dtor mu_).
Definition counter_timed_mutex : U := counter (timed_mutex_ctor mu_) (timed_mutex_lock mu_) (timed_mutex_unlock mu_) (timed_mutex_dtor mu_).
Definition counter_shared_mutex : U := counter (shared_mutex_ctor mu_) (shared_mutex_lock mu_) (shared_mutex_unlock mu_) (shared_mutex_dtor mu_).
Definition counter_nothing : U := counter (URet 0) (URet 0) (URet 0) (URet 0).

(** The same with [test::WaitGroup] and [lock_guard]. *)
Definition group_counter : U :=
  shared_Init x_ 0 ;; mutex_ctor mu_ ;; WaitGroup_ctor wg_ ;;
  WaitGroup_Join wg_ (WaitGroup_AddMany 2 (lock_guard mutex_ops mu_ increment) []) ;;
  expect (shared_Read x_) 2 ;;
  WaitGroup_dtor wg_ ;; mutex_dtor mu_.

(** Two threads try to take a mutex; who gets it counts. *)
Definition try_counter : U :=
  let try l := unique_lock_try mutex_ops l mu_ ;; owns <- UniqueLockImpl_OwnsLock l; (if owns =? 1 then increment else URet 0) ;; unique_lock_dtor mutex_ops l in
  shared_Init x_ 0 ;; mutex_ctor mu_ ;;
  with_thread (try (l_ + 100)) (try l_) ;;
  mutex_dtor mu_.

(** A flag under a mutex, with a condition variable. *)
Definition cv_handshake (notify : U) : U :=
  shared_Init x_ 0 ;; mutex_ctor mu_ ;; CondVarImpl_Init cv_ ;;
  with_thread (lock_guard mutex_ops mu_ (shared_Write x_ 1) ;; notify)
    (unique_lock_ctor mutex_ops l_ mu_ ;; cv_wait_pred cv_ l_ (shared_Read x_) ;; unique_lock_dtor mutex_ops l_) ;;
  CondVarImpl_Destroy cv_ ;; mutex_dtor mu_.
(** Nobody notifies. *)
Definition cv_timeout : U :=
  mutex_ctor mu_ ;; CondVarImpl_Init cv_ ;;
  unique_lock_ctor mutex_ops l_ mu_ ;;
  expect (cv_wait_for cv_ l_ 1000) 1 ;;
  expect (UniqueLockImpl_OwnsLock l_) 1 ;;
  unique_lock_dtor mutex_ops l_.
(** A notification or the timeout, whichever is first. *)
Definition cv_notify_or_timeout : U :=
  shared_Init x_ 0 ;; mutex_ctor mu_ ;; CondVarImpl_Init cv_ ;;
  with_thread (lock_guard mutex_ops mu_ (shared_Write x_ 1) ;; CondVarImpl_NotifyOne cv_)
    (unique_lock_ctor mutex_ops l_ mu_ ;; cv_wait_for cv_ l_ 1000 ;; shared_Read x_ ;; unique_lock_dtor mutex_ops l_).

(** An atomic counter; a budget; a flag as a spin lock; publication through a futex. *)
Definition atomic_counter : U :=
  atomic_Init 4 x_ 0 ;;
  with_thread (op_pre_inc 4 x_) (op_pre_inc 4 x_) ;;
  expect (atomic_load 4 x_ mo_relaxed) 2.
Definition cas_counter : U :=
  let step := uwhile (v <- atomic_load 4 x_ mo_relaxed; r <- compare_exchange_weak 4 x_ v (v + 1) mo_relaxed mo_relaxed; URet (if r =? cas_done then 0 else again)) in
  atomic_Init 4 x_ 0 ;; with_thread step step ;; expect (atomic_load 4 x_ mo_relaxed) 2.
Definition budget : U :=
  atomic_Init 8 interrupt_ 0 ;; atomic_Init 4 x_ 0 ;; uset wg_ 3 ;;
  (let withdraw := ok <- Budget_Withdraw interrupt_ wg_ 2; if ok =? 1 then op_post_inc 4 x_ else URet 0 in with_thread withdraw withdraw) ;;
  expect (atomic_load 4 x_ mo_relaxed) 1.
Definition futex_handshake (store : MemoryOrder) : U :=
  shared_Init x_ 0 ;; atomic_Init 4 mu_ 0 ;;
  with_thread (shared_Write x_ 5 ;; atomic_store 4 mu_ 1 store ;; futex_WakeOne (Ref32 mu_))
    (futex_Wait (Ref32 mu_) 0 mo_acquire ;; expect (shared_Read x_) 5).
Definition atomic_handshake : U :=
  shared_Init x_ 0 ;; flag_Init mu_ ;;
  with_thread (shared_Write x_ 5 ;; flag_test_and_set mu_ mo_release ;; flag_notify_one mu_)
    (flag_wait mu_ 0 mo_acquire ;; expect (shared_Read x_) 5) ;;
  flag_Destroy mu_.
Definition fence_handshake (fence : MemoryOrder) : U :=
  shared_Init x_ 0 ;; atomic_Init 4 mu_ 0 ;;
  with_thread (shared_Write x_ 5 ;; atomic_store 4 mu_ 1 mo_release)
    (v <- atomic_load 4 mu_ mo_relaxed; if v =? 1 then atomic_thread_fence fence ;; expect (shared_Read x_) 5 else URet 0).

(** Readers of a shared mutex. *)
Definition two_readers : U :=
  let reader := shared_mutex_lock_shared mu_ ;; shared_Read x_ ;; shared_mutex_unlock_shared mu_ in
  shared_Init x_ 3 ;; shared_mutex_ctor mu_ ;; with_thread reader reader ;; shared_mutex_dtor mu_.

(** A thread unlocks a mutex that it does not own; a thread object is lost; a thread is joined twice. *)
Definition foreign_unlock : U := mutex_ctor mu_ ;; mutex_lock mu_ ;; with_thread (mutex_unlock mu_) (URet 0).
Definition lost_thread : U := thread_ctor th_ st_ (URet 0) ;; thread_dtor th_.
Definition joined_twice : U := with_thread (URet 0) (URet 0) ;; thread_join th_.
Definition detached : U := thread_ctor th_ st_ (URet 0) ;; thread_detach th_ ;; thread_dtor th_.
(** Nobody wakes the thread. *)
Definition lost_wakeup : U := atomic_Init 4 mu_ 0 ;; futex_Wait (Ref32 mu_) 0 mo_acquire.

(** The owner of a timed mutex waits for a thread that tries for a second to take it. *)
Definition try_for_a_second : U :=
  timed_mutex_ctor mu_ ;; timed_mutex_lock mu_ ;;
  with_thread (timed_mutex_try_lock_for mu_ 1000000000) (URet 0) ;;
  timed_mutex_unlock mu_.

Definition sound_clients : list U :=
  [counter_mutex; counter_timed_mutex; group_counter; try_counter; cv_handshake (CondVarImpl_NotifyOne cv_); cv_handshake (CondVarImpl_NotifyAll cv_); cv_timeout; cv_notify_or_timeout;
   atomic_counter; cas_counter; budget; futex_handshake mo_release; atomic_handshake; fence_handshake mo_acquire; two_readers].

(** For the clients [sound_clients] of the library no interleaving of the threads and no
    choice of the woken waiter leads to a data race, a deadlock, a failed check of the client, a
    misuse or a limit: every run ends with the status Ok.  Two threads count under a mutex, a timed
    mutex, a lock guard or what they get by trying, or over atomics; hand over through a condition
    variable, a futex, a flag or a fence; wait with a timeout; draw from a budget; read under a
    shared mutex. *)
Lemma library_clients_ok : Forall (ends_with [StOk]) sound_clients.
Proof.
  assert (H : forallb (check_ends [StOk]) sound_clients = true) by (vm_compute; reflexivity).
  apply list.Forall_forall. intros main Hin. apply check_ends_sound. rewrite forallb_forall in H. by apply H, list_elem_of_In.
Qed.

(** What is wrong is found: in every interleaving, the simulator reports it. *)
Lemma wrong_clients :
  Forall (ends_with [StDataRace]) [counter_nothing; futex_handshake mo_relaxed] /\
  Forall (ends_with [StLibraryAssert]) [foreign_unlock; lost_thread; joined_twice] /\
  ends_with [StDeadlock] lost_wakeup /\ ends_with [StOk] detached.
Proof. split_and!; repeat constructor; apply check_ends_sound; vm_compute; reflexivity. Qed.

(** [try_lock_for] waits without a time limit: the run is a deadlock in every interleaving,
    although the try should fail after a second. *)
Lemma timed_mutex_waits_for_ever : ends_with [StDeadlock] try_for_a_second.
Proof. apply check_ends_sound. vm_compute. reflexivity. Qed.

(** Of the threads that count under a shared mutex, one may load the free state, be preempted
    while the other has the mutex, and take it with a relaxed exchange: nothing synchronizes the
    two sections, and the simulator reports a data race in a program that has none. *)
Lemma shared_mutex_reports_race :
  exists p res s, leaf (psched (DfsScheduler unlimited) (user_sim counter_shared_mutex) dfs_Start) p (inl (inl res, s)) /\ rs_status res = StDataRace.
Proof.
  destruct (run_exists (psched (DfsScheduler unlimited) (user_sim counter_shared_mutex) dfs_Start) (fun x => match x.1 with inl res => bool_decide (rs_status res = StDataRace) | _ => false end))
    as (p & [[res | e] s] & Hr & Hd); [vm_compute; reflexivity | | done]. apply bool_decide_eq_true in Hd. by exists p, res, s.
Qed.
